(* ===== verification/_CoqProject ===== *)
-Q . S2P
Prelude.v
Errors.v
Fips.v
Sha256.v
Text.v
Codec.v
Ids.v
Names.v
Scope.v
Capability.v
Policy.v
Identity.v
Explanation.v
Lease.v
Partition.v
Evidence.v
Membership.v
Journal.v
State.v
Derivation.v
Authority.v
Coordinator.v
Recovery.v
Operations.v
Admission.v
Net.v
Protocol.v
Json.v
Render.v
Server.v
Threads.v
Client.v
Member.v
Random.v
AppCommon.v
Control.v
MemberTool.v
Cli.v
OrderCheck.v
CoordinatorTool.v
Process.v
Files.v
