(* ===== verification/Prelude.v ===== *)
(** * Fabric Federation: a verification library

    Fabric Federation (src/) is a C++ library and three tools with which independent
    parties, the members, federate parts of their authority.  A coordinator collects
    evidence (artefacts), journals it, derives from it who is a member and
    who holds which grant, and answers requests for authority.  Members run a runtime
    that issues evidence, asks for authority and probes its peers.  The library models
    all of that, from bytes to the command line, as executable functions and step
    relations, and proves what each part promises to the next.

    ** The parts, and where they are modelled

    Foundations.
    - Prelude: three-way comparisons as lexicographic chains, canonical (sorted,
      duplicate-free) lists, the ordered maps [smap] of std::map, decimal and
      hexadecimal text, tactics and hints.
    - Errors: include/.../errors.hpp, bounds.hpp, src/errors.cpp.
    - Sha256: src/sha256.cpp, against Fips: the standard it names, FIPS 180-4, written
      on its own over bits, with its constants computed from primes.  Text: src/text.cpp.  Codec: src/codec.cpp, with the
      class [Codec] and its laws, the interface of every record that is written.
    - Random: src/random.cpp.  Process: src/process.cpp.

    Data.
    - Ids (ids.hpp), Names (names.cpp), Scope (scope.cpp), Capability
      (capability.cpp), Policy (policy.cpp), Identity (identity.cpp), Explanation
      (explanation.cpp), Lease (lease.cpp), Partition (partition.cpp), Evidence
      (evidence.cpp): a record per struct, an inductive type per enum class, with
      order, canonical form, digest, codec and validation.

    Derivation, a function of the evidence only.
    - Membership: [derive_membership] of membership.cpp, the lifecycle of one member.
    - State: [derive_state] of state.cpp; Derivation: its properties; Render: its
      renderers.
    - Authority: [evaluate_authority] of authority.cpp.

    The coordinator, state and effects.
    - Journal: journal.cpp over a file that is the list of its bytes; Files: the system
      calls under it, one by one, with [append] and [compact] on top.
    - Coordinator: the record [Impl] and every operation of coordinator.cpp as
      [Op A := Impl -> Impl * Result A]; Recovery, Operations, Admission: what those
      operations promise about the journal, about each other and about the evidence.
    - Net: net.cpp, sockets over the answers of the operating system; Protocol:
      protocol.cpp, frames and payloads; Json: json.cpp.
    - Server: [handle_message] and [serve] of coordinator.cpp, and the coordinator
      with all its connections as a step relation; Threads: [accept_loop],
      [worker_loop] and [stop].

    The other end.
    - Client: client.cpp as programs of exchanges ([Conv]), run over a connection
      ([over]) or answered without one ([direct]), and the calls of the coordinator that
      its requests stand for ([local]); Member: member_runtime.cpp over those programs.

    The tools (src/apps/ and src/control.cpp).
    - AppCommon: common.cpp; Control: control.cpp and the control channel of
      coordinator_main.cpp; CoordinatorTool: coordinator_main.cpp up to the listening;
      MemberTool: member_main.cpp; Cli: the inspection commands of cli_main.cpp;
      OrderCheck: its permutation check.

    The parts call each other as the code does: an operator's line (Control) or a
    client's request (Client, Protocol, Net) becomes one operation of Coordinator,
    which derives a state (State, Membership), evaluates (Authority), appends to the
    journal (Journal) and issues further evidence ([decide_locked]); a restart reads
    the journal again ([load_journal]).

    ** What the theorems show

    - Authority and derivation.  A request is granted exactly under the conditions of
      the numbered checks ([request_granted_iff]); a grant is held exactly when no rule
      withholds it ([authority_granted_iff]); what is granted is backed by a current
      declaration, and an exclusive or disputed grant has one holder; standing is
      rooted in the genesis record, as is the authority it carries, and is the least
      fixpoint, reached in the rounds the code allows; the derived state does not depend on the order of evidence.
    - Membership.  Admission needs distinct parties; a fence of the member itself or of
      the coordinator stays, and one that anybody else issues changes nothing.
    - The coordinator as an event-sourced store.  The abstract specification is a list
      of events (Recovery); while the disk does not fail every operation appends the
      events it makes true ([operations_are_journaled]), a restart makes them true again
      ([restart_restores_memory]) and succeeds ([restart_succeeds]), if the journal can
      be read: its events pass the checks of the loader and their number its bound.  The
      exceptions are stated with the theorems: a revocation that is refused stays in
      memory and is not journalled, and two leases with one identifier are one.  Between
      such failures a request is decided once, a revocation is never undone, leases end
      with the run that issued them, and all evidence in memory is valid.
    - The journal.  An append that is cut anywhere leaves the records before it, and a
      process that is stopped anywhere in a compaction leaves the old journal or the new
      one ([compaction_is_crash_atomic]).  A crash is the end of the process: what the
      kernel still holds when the machine stops is not modelled.
    - The wire.  Frames arrive in order and whole whatever the portions; reading is
      bounded before it allocates; a session says nothing before a valid hello, answers
      every request with its reply or, when that cannot be had or sent, with an error
      after which it closes ([conversation_is_answered]), and ends; talking over a socket
      is the same as calling the coordinator ([remote_session_is_local]).
    - Threads.  A connection has one owner; [stop] can wait for a silent peer forever.
    - The member.  What a member issues is valid and carries the epoch it was told last;
      a restart re-attests under the epoch it has cached.
    - The tools.  What the tools read is canonical and survives the wire; an
      operator's command is carried out once and answered; inspecting changes nothing,
      "explain" nothing but the record of its decision; the permutation check never finds
      a difference unless two digests collide; the daemon runs with what it was told, and
      when it can; and only own, uncollected children are signalled.
    - Round trips: every codec, the printed grants, digests and seeds, the JSON of a
      state and of a decision.
    - Flaws.  Where the code does less than it says, the theorem states what it does:
      [one_message_blocks_restart], [stop_can_wait_forever] and, among the other
      theorems, [fence_can_be_preempted], [minus_one_ends_epochs],
      [termination_makes_up_the_code], [failed_revocation_is_forgotten].

    ** Conventions

    - Integers are N (Z where the code is signed) with their wrap-around written out
      (mod 2^64, mod 2^32, mod 2^16 for ports); [std::size_t] is 64 bits wide.  Text is
      [string], or a list of bytes where it is taken apart; [memcpy] of an integer is
      little-endian, as on every platform the project names.
    - [Status] and [Result] are one sum ([Ok], [Err]); an exception is not modelled,
      the modelled code throws none but for memory.  A moved-from string or vector is
      empty.
    - Reason codes, message types and error codes that are cast from the wire are raw
      numbers, because the decoders of some messages do not check them.
    - A mutex makes an operation one step.  The answer to [QueryArtifacts], for which
      the code takes the lock twice, is one step here.  The threads of Threads have one critical section, atomic access
      or blocking call per step; closing a listener ends a pending accept, as net.hpp
      says.
    - What the operating system answers is an argument: portions and failures of
      sockets ([Socket]), failures of writes ([os] of [Impl], [WriteFault]), of opening
      a journal ([OpenFaults]), of file calls ([Answer]), answers to [connect], [fork], [waitpid] and [kill].
      The entropy that names a request is an argument as well ([Env], [request_id]).
      Nothing is assumed of these answers unless a theorem says so.
    - The catalogue is [builtin], the policy the one of the configuration: the
      functions take both as arguments where the code does.
    - Command lines are read like [std::istringstream] does: blanks are skipped, a
      number that is too large fails and leaves the largest value, and an unsigned
      extraction takes a sign and negates modulo 2^64.

    ** Bounds and fuel

    - The fixpoint of standing runs kMaxDerivationRounds rounds, as the code; it is
      proved to be enough.  [decide_loop] runs kMaxMembers + 2 passes, as the code.
    - Reading and writing loops (Net, Protocol, Control, Files) take fuel from the length of what is
      left to read, one more than the portions that can arrive; the loops of a session
      take the turns of [Server.turns].  The theorems on sessions are about these
      amounts, so that running out is excluded and not assumed away.
    - Rejection sampling (Random) has no bound for every seed.  Its fuel is the number
      of draws that one number may take; [sampling_is_unbiased] counts the accepted
      draws, which are always more than half.  [permutation_check_holds] allows for every
      seed that the draws are cut off, and proves that those of the tool's own seed are
      not.
    - The waits of control.cpp have the bound their caller passes.

    ** What is not modelled, and why

    - [BasicId::random], the hash functions of the identifiers for unordered
      containers and the number overload of the JSON writer for double: nothing that
      decides or stores uses them.
    - The Windows branches of net.cpp, process.cpp and journal.cpp: the POSIX branch is
      the model; where the two differ in behaviour the findings say so.
    - Half-closing, [describe] and [local_port] of sockets; joining the probe thread;
      the mutex of a client: they change nothing a definition here observes.
    - Data races: fields the code reads without its mutex are read in one step.
    - The demonstration of cli_main.cpp, the programs under src/examples and
      src/consumer (fixed sequences of calls), usage texts, start-up lines, the
      ready file, and the loop over standard input: they print.
    - Tests and benchmarks, and the version and export headers. *)

From stdpp Require Export base tactics list strings numbers option sorting sets.
From Stdlib Require Export Strings.Byte Strings.Ascii.
From Stdlib Require Export ZifyN ZifyBool ZifyNat.
From Stdlib Require Import DecimalString.

#[global] Open Scope N_scope.

#[global] Arguments N.modulo : simpl never.
#[global] Arguments N.div : simpl never.
#[global] Arguments N.pow : simpl never.
#[global] Arguments N.mul : simpl never.
#[global] Arguments N.land : simpl never.
#[global] Arguments N.lor : simpl never.
#[global] Arguments N.lxor : simpl never.
#[global] Arguments N.shiftl : simpl never.
#[global] Arguments N.shiftr : simpl never.
#[global] Arguments Nat.leb : simpl never.
#[global] Arguments Nat.ltb : simpl never.

(** ** Three-way comparison

    Every [operator<] of the headers is a lexicographic chain
    [if (a.x != b.x) return a.x < b.x; ...].  [Cmp] is the three-way form of
    such a chain; [ltb] is the boolean [operator<] itself. *)
Class Cmp (A : Type) := cmp : A → A → comparison.
#[export] Hint Mode Cmp ! : typeclass_instances.

Definition ltb {A} `{Cmp A} (a b : A) : bool :=
  match cmp a b with Lt => true | _ => false end.

(** [a < b] is false: the relation [std::sort] may not violate. *)
Definition not_after {A} `{Cmp A} (a b : A) : Prop := cmp b a ≠ Lt.

(** A comparison that is a total order and agrees with equality. *)
Class CmpLaws (A : Type) `{Cmp A} : Prop := {
  cmp_eq : ∀ a b : A, cmp a b = Eq ↔ a = b;
  cmp_opp : ∀ a b : A, cmp b a = CompOpp (cmp a b);
  cmp_lt_trans : ∀ a b c : A, cmp a b = Lt → cmp b c = Lt → cmp a c = Lt
}.
#[export] Hint Mode CmpLaws ! - : typeclass_instances.

(** The next step of a lexicographic chain. *)
Definition then_cmp (c d : comparison) : comparison :=
  match c with Eq => d | _ => c end.

#[export] Instance N_cmp : Cmp N := N.compare.
#[export] Instance byte_cmp : Cmp byte := λ a b, N.compare (Byte.to_N a) (Byte.to_N b).
#[export] Instance bool_cmp : Cmp bool := λ a b,
  match a, b with false, true => Lt | true, false => Gt | _, _ => Eq end.
#[export] Instance prod_cmp {A B} `{Cmp A, Cmp B} : Cmp (A * B) := λ p q,
  then_cmp (cmp p.1 q.1) (cmp p.2 q.2).
#[export] Instance list_cmp {A} `{Cmp A} : Cmp (list A) :=
  fix go l k :=
    match l, k with
    | [], [] => Eq
    | [], _ => Lt
    | _, [] => Gt
    | x :: l, y :: k => then_cmp (cmp x y) (go l k)
    end.

(** A comparison pulled back along a projection: the records of the code
    compare a tuple of their fields. *)
Definition cmp_on {A B} `{Cmp B} (f : A → B) : Cmp A := λ a b, cmp (f a) (f b).

(** [std::string] compares its bytes as unsigned characters. *)
#[export] Instance string_cmp : Cmp string := cmp_on String.list_byte_of_string.

#[export] Instance N_cmp_laws : CmpLaws N.
Proof.
  split; intros; unfold cmp, N_cmp in *.
  - apply N.compare_eq_iff.
  - apply N.compare_antisym.
  - rewrite N.compare_lt_iff in *. lia.
Qed.

Lemma cmp_on_laws {A B} `{CmpLaws B} (f : A → B) `{!Inj (=) (=) f} :
  @CmpLaws A (cmp_on f).
Proof.
  split; intros; unfold cmp, cmp_on in *.
  - rewrite cmp_eq. split; [apply inj, _|congruence].
  - apply cmp_opp.
  - eapply cmp_lt_trans; eauto.
Qed.

#[export] Instance byte_to_N_inj : Inj (=) (=) Byte.to_N.
Proof.
  intros x y Hxy. pose proof (Byte.of_to_N x) as Hx. pose proof (Byte.of_to_N y) as Hy.
  congruence.
Qed.
#[export] Instance byte_eq_dec : EqDecision byte.
Proof.
  intros x y. refine (cast_if (decide (Byte.to_N x = Byte.to_N y))); [by apply (inj Byte.to_N)|congruence].
Defined.
#[export] Instance byte_cmp_laws : CmpLaws byte := cmp_on_laws Byte.to_N.

#[export] Instance bool_cmp_laws : CmpLaws bool.
Proof. split; intros; repeat match goal with b : bool |- _ => destruct b end; done. Qed.

#[export] Instance prod_cmp_laws {A B} `{CmpLaws A, CmpLaws B} : CmpLaws (A * B).
Proof.
  split.
  - intros [a b] [c d]. unfold cmp, prod_cmp; simpl.
    destruct (cmp a c) eqn:E; simpl; [apply cmp_eq in E; rewrite cmp_eq; split; [intros ->; congruence|by intros [= ]]| |];
      split; try done; intros [= -> ->]; assert (cmp c c = Eq) by by apply cmp_eq. all: congruence.
  - intros [a b] [c d]. unfold cmp, prod_cmp; simpl.
    rewrite (cmp_opp a c), (cmp_opp b d). by destruct (cmp a c).
  - intros [a b] [c d] [e f]. unfold cmp, prod_cmp; simpl.
    destruct (cmp a c) eqn:E1; simpl; try done; destruct (cmp c e) eqn:E2; simpl; try done.
    + apply cmp_eq in E1 as ->, E2 as ->. rewrite (proj2 (cmp_eq e e)); simpl; [|done]. apply cmp_lt_trans.
    + apply cmp_eq in E1 as ->. by rewrite E2.
    + apply cmp_eq in E2 as ->. by rewrite E1.
    + by rewrite (cmp_lt_trans _ _ _ E1 E2).
Qed.

#[export] Instance list_cmp_laws {A} `{CmpLaws A} : CmpLaws (list A).
Proof.
  split.
  - intros a. induction a as [|x a IH]; intros [|y b]; try done.
    simpl. change (cmp (x :: a) (y :: b)) with (then_cmp (cmp x y) (cmp a b)).
    destruct (cmp x y) eqn:E; simpl; [apply cmp_eq in E; rewrite IH; split; [by intros ->; subst|by intros [= ]]| |];
      split; try done; intros [= -> ->]; assert (cmp y y = Eq) by by apply cmp_eq. all: congruence.
  - intros a. induction a as [|x a IH]; intros [|y b]; try done.
    change (cmp (y :: b) (x :: a)) with (then_cmp (cmp y x) (cmp b a)).
    change (cmp (x :: a) (y :: b)) with (then_cmp (cmp x y) (cmp a b)).
    rewrite (cmp_opp x y), IH. by destruct (cmp x y).
  - intros a. induction a as [|x a IH]; intros [|y b] [|z c]; try done.
    change (cmp (x :: a) (y :: b)) with (then_cmp (cmp x y) (cmp a b)).
    change (cmp (y :: b) (z :: c)) with (then_cmp (cmp y z) (cmp b c)).
    change (cmp (x :: a) (z :: c)) with (then_cmp (cmp x z) (cmp a c)).
    destruct (cmp x y) eqn:E1; simpl; try done; destruct (cmp y z) eqn:E2; simpl; try done.
    + apply cmp_eq in E1 as ->, E2 as ->. rewrite (proj2 (cmp_eq z z)); simpl; [|done]. apply IH.
    + apply cmp_eq in E1 as ->. by rewrite E2.
    + apply cmp_eq in E2 as ->. by rewrite E1.
    + by rewrite (cmp_lt_trans _ _ _ E1 E2).
Qed.

#[export] Instance list_byte_of_string_inj : Inj (=) (=) String.list_byte_of_string.
Proof.
  intros x y Hxy. rewrite <-(String.string_of_list_byte_of_string x), Hxy.
  apply String.string_of_list_byte_of_string.
Qed.
#[export] Instance string_cmp_laws : CmpLaws string := cmp_on_laws _.

Section cmp_facts.
Context {A : Type} `{CmpLaws A}.

Lemma cmp_refl (a : A) : cmp a a = Eq.
Proof. by apply cmp_eq. Qed.
Lemma cmp_gt_lt (a b : A) : cmp a b = Gt ↔ cmp b a = Lt.
Proof. rewrite (cmp_opp a b). by destruct (cmp a b). Qed.
Lemma not_after_refl (a : A) : not_after a a.
Proof. unfold not_after. by rewrite cmp_refl. Qed.
Lemma not_after_trans (a b c : A) : not_after a b → not_after b c → not_after a c.
Proof.
  unfold not_after. intros Hab Hbc Hca.
  destruct (cmp a b) eqn:E.
  - apply cmp_eq in E as ->. done.
  - apply Hbc. by eapply cmp_lt_trans.
  - apply cmp_gt_lt in E. done.
Qed.
Lemma not_after_antisymm (a b : A) : not_after a b → not_after b a → a = b.
Proof.
  unfold not_after. intros Hab Hba. apply cmp_eq.
  destruct (cmp a b) eqn:E; [done|done|]. by apply cmp_gt_lt in E.
Qed.
Lemma not_after_total (a b : A) : not_after a b ∨ not_after b a.
Proof.
  unfold not_after. rewrite (cmp_opp a b). destruct (cmp a b); simpl; auto.
Qed.
End cmp_facts.

(** The reversed order, for the comparators that sort from the greatest. *)
Record Down (A : Type) := mkDown { undown : A }.
Arguments mkDown {A} _.
Arguments undown {A} _.
#[export] Instance Down_cmp {A} `{Cmp A} : Cmp (Down A) := λ a b, cmp (undown b) (undown a).
#[export] Instance Down_cmp_laws {A} `{CmpLaws A} : CmpLaws (Down A).
Proof.
  split.
  - intros [a] [b]. change (cmp b a = Eq ↔ mkDown a = mkDown b).
    rewrite (cmp_eq b a). split; [by intros ->|by intros [= ->]].
  - intros [a] [b]. exact (cmp_opp (A:=A) b a).
  - intros [a] [b] [c] Hab Hbc. exact (cmp_lt_trans (A:=A) c b a Hbc Hab).
Qed.

(** ** Sorting and removal of duplicates

    [std::sort] with the element's [operator<], on a key where the code passes
    a comparator.  The order [std::sort] gives equivalent elements is
    unspecified by the language; [merge_sort] keeps one such order. *)
Section sorting.
Context {A K : Type} `{Cmp K} (key : A → K).

Definition key_le (a b : A) : Prop := not_after (key a) (key b).
#[global] Instance key_le_dec a b : Decision (key_le a b).
Proof. unfold key_le, not_after. apply _. Defined.

Definition sort_by (l : list A) : list A := merge_sort key_le l.

Lemma sort_by_perm l : sort_by l ≡ₚ l.
Proof. apply merge_sort_Permutation. Qed.
Lemma elem_of_sort_by x l : x ∈ sort_by l ↔ x ∈ l.
Proof. by rewrite sort_by_perm. Qed.
Lemma length_sort_by l : length (sort_by l) = length l.
Proof. by rewrite sort_by_perm. Qed.

Context `{!CmpLaws K}.
#[export] Instance key_le_total : Total key_le.
Proof. intros a b. apply (not_after_total (key a) (key b)). Qed.
#[export] Instance key_le_trans : Transitive key_le.
Proof. intros a b c. apply (not_after_trans (key a) (key b) (key c)). Qed.

Lemma sort_by_sorted l : Sorted key_le (sort_by l).
Proof. apply Sorted_merge_sort, _. Qed.
Lemma sort_by_strongly_sorted l : StronglySorted key_le (sort_by l).
Proof. apply Sorted_StronglySorted; [apply _|apply sort_by_sorted]. Qed.

(** Permuting a list whose keys separate its elements does not change the
    sorted list. *)
Lemma sort_by_permutation l k :
  (∀ x y, x ∈ l → y ∈ l → key x = key y → x = y) →
  l ≡ₚ k → sort_by l = sort_by k.
Proof.
  intros Hinj Hlk. apply (Sorted_unique_strong key_le).
  - intros x y. rewrite !elem_of_sort_by. rewrite <-Hlk. intros Hx Hy H1 H2.
    apply Hinj; try done. by apply not_after_antisymm.
  - apply sort_by_sorted.
  - apply sort_by_sorted.
  - by rewrite !sort_by_perm.
Qed.
End sorting.

(** [std::sort(v.begin(), v.end())]. *)
Definition std_sort {A} `{Cmp A} (l : list A) : list A := sort_by id l.

(** [std::unique] followed by [erase]: drops every element equal to its
    predecessor. *)
Fixpoint std_unique {A} `{EqDecision A} (l : list A) : list A :=
  match l with
  | [] => []
  | a :: t =>
      match t with
      | [] => [a]
      | b :: _ => if decide (a = b) then std_unique t else a :: std_unique t
      end
  end.

(** The [sort_unique] template repeated in scope.cpp, capability.cpp,
    identity.cpp, policy.cpp, evidence.cpp, membership.cpp and state.cpp. *)
Definition sort_unique {A} `{Cmp A, EqDecision A} (l : list A) : list A :=
  std_unique (std_sort l).

Lemma elem_of_std_unique {A} `{EqDecision A} (x : A) l : x ∈ std_unique l ↔ x ∈ l.
Proof.
  induction l as [|a [|b t] IH]; [done|done|].
  simpl in *. case_decide; subst; rewrite ?elem_of_cons in *; rewrite IH; set_solver.
Qed.

Lemma length_std_unique {A} `{EqDecision A} (l : list A) : (length (std_unique l) ≤ length l)%nat.
Proof.
  induction l as [|a [|b t] IH]; [simpl; lia..|].
  simpl in *. case_decide; simpl in *; lia.
Qed.

Lemma std_sort_perm {A} `{Cmp A} (l : list A) : std_sort l ≡ₚ l.
Proof. apply sort_by_perm. Qed.
Lemma elem_of_std_sort {A} `{Cmp A} (x : A) l : x ∈ std_sort l ↔ x ∈ l.
Proof. apply elem_of_sort_by. Qed.
Lemma elem_of_sort_unique {A} `{Cmp A, EqDecision A} (x : A) l : x ∈ sort_unique l ↔ x ∈ l.
Proof. unfold sort_unique. by rewrite elem_of_std_unique, elem_of_std_sort. Qed.
Lemma length_sort_unique {A} `{Cmp A, EqDecision A} (l : list A) :
  (length (sort_unique l) ≤ length l)%nat.
Proof.
  unfold sort_unique. etransitivity; [apply length_std_unique|].
  unfold std_sort. by rewrite length_sort_by.
Qed.

Section sort_unique.
Context {A : Type} `{CmpLaws A, EqDecision A}.
Implicit Types l k : list A.

Definition strictly_before (a b : A) : Prop := cmp a b = Lt.
#[local] Instance strictly_before_trans : Transitive strictly_before.
Proof. intros a b c. apply cmp_lt_trans. Qed.

Lemma std_unique_strict l :
  StronglySorted (key_le id) l → StronglySorted strictly_before (std_unique l).
Proof.
  induction 1 as [|a t Ht IH Ha]; [constructor|].
  destruct t as [|b t]; [repeat constructor|].
  simpl in *. case_decide as Hab; [done|].
  constructor; [done|]. apply Forall_forall. intros x Hx.
  change (x ∈ std_unique (b :: t)) in Hx.
  rewrite elem_of_std_unique in Hx.
  assert (not_after a b) as Hanb by by apply Forall_cons in Ha as [? _].
  assert (cmp a b = Lt) as Hlt.
  { destruct (cmp a b) eqn:E; [by apply cmp_eq in E|done|].
    by apply cmp_gt_lt in E. }
  apply elem_of_cons in Hx as [->|Hx]; [done|].
  apply StronglySorted_cons in Ht as [Hb _]. rewrite Forall_forall in Hb.
  specialize (Hb x Hx). unfold key_le, not_after, id in Hb. unfold strictly_before.
  destruct (cmp b x) eqn:E; [by apply cmp_eq in E as ->|by eapply cmp_lt_trans|].
  by apply cmp_gt_lt in E.
Qed.

Lemma sort_unique_strict l : StronglySorted strictly_before (sort_unique l).
Proof. apply std_unique_strict. unfold std_sort. apply (sort_by_strongly_sorted id). Qed.

Lemma strictly_sorted_NoDup l : StronglySorted strictly_before l → NoDup l.
Proof.
  induction 1 as [|a t Ht IH Ha]; constructor; [|done].
  rewrite Forall_forall in Ha. intros Hin. specialize (Ha a Hin).
  unfold strictly_before in Ha. by rewrite cmp_refl in Ha.
Qed.
Lemma strictly_sorted_ext l k :
  StronglySorted strictly_before l → StronglySorted strictly_before k →
  (∀ x, x ∈ l ↔ x ∈ k) → l = k.
Proof.
  assert (∀ a : A, ¬ strictly_before a a) as Hirr.
  { intros a. unfold strictly_before. by rewrite cmp_refl. }
  intros Hl Hk Helem. eapply (StronglySorted_unique_strong strictly_before); try done.
  - intros x y _ _ Hxy Hyx. exfalso. apply (Hirr x). by transitivity y.
  - apply NoDup_Permutation; auto using strictly_sorted_NoDup.
Qed.

Lemma NoDup_sort_unique l : NoDup (sort_unique l).
Proof. apply strictly_sorted_NoDup, sort_unique_strict. Qed.

(** The canonical form of a collection depends on its members only. *)
Lemma sort_unique_ext l k : (∀ x, x ∈ l ↔ x ∈ k) → sort_unique l = sort_unique k.
Proof.
  intros Hlk. apply strictly_sorted_ext; try apply sort_unique_strict.
  intros x. by rewrite !elem_of_sort_unique.
Qed.
Lemma sort_unique_id l : StronglySorted strictly_before l → sort_unique l = l.
Proof.
  intros Hl. apply strictly_sorted_ext; [apply sort_unique_strict|done|].
  intros x. by rewrite elem_of_sort_unique.
Qed.
Lemma sort_unique_idemp l : sort_unique (sort_unique l) = sort_unique l.
Proof. apply sort_unique_id, sort_unique_strict. Qed.
#[global] Instance sort_unique_proper : Proper ((≡ₚ) ==> (=)) (@sort_unique A _ _).
Proof. intros l k Hlk. apply sort_unique_ext. intros x. by rewrite Hlk. Qed.

Lemma length_sort_unique_NoDup l : NoDup l → length (sort_unique l) = length l.
Proof.
  intros Hl. apply Permutation_length, NoDup_Permutation; [apply NoDup_sort_unique|done|].
  intros x. apply elem_of_sort_unique.
Qed.
End sort_unique.

(** ** Ordered maps

    [std::map<K, V>] as its list of entries in key order, the order the code
    iterates in. *)
Definition smap (K V : Type) : Type := list (K * V).

Section smap.
Context {K V : Type} `{Cmp K}.

Fixpoint smap_insert (k : K) (v : V) (m : smap K V) : smap K V :=
  match m with
  | [] => [(k, v)]
  | (k', v') :: m' =>
      match cmp k k' with
      | Lt => (k, v) :: m
      | Eq => (k, v) :: m'
      | Gt => (k', v') :: smap_insert k v m'
      end
  end.
Fixpoint smap_find (k : K) (m : smap K V) : option V :=
  match m with
  | [] => None
  | (k', v) :: m => match cmp k k' with Eq => Some v | _ => smap_find k m end
  end.
Definition smap_mem (k : K) (m : smap K V) : bool :=
  match smap_find k m with Some _ => true | None => false end.

Context `{!CmpLaws K}.

Lemma smap_find_insert k v m : smap_find k (smap_insert k v m) = Some v.
Proof.
  induction m as [|[k' v'] m IH]; simpl; [by rewrite (cmp_refl k)|].
  destruct (cmp k k') eqn:E; simpl; rewrite ?(cmp_refl k), ?E; done.
Qed.
Lemma smap_find_insert_ne k k' v m :
  k ≠ k' → smap_find k (smap_insert k' v m) = smap_find k m.
Proof.
  intros Hne. induction m as [|[k0 v0] m IH]; simpl.
  - destruct (cmp k k') eqn:E; [by apply cmp_eq in E|done|done].
  - destruct (cmp k' k0) eqn:E0; simpl.
    + apply cmp_eq in E0 as ->. by destruct (cmp k k0) eqn:E; [apply cmp_eq in E|..].
    + by destruct (cmp k k') eqn:E; [apply cmp_eq in E|..].
    + by rewrite IH.
Qed.
Lemma smap_find_elem k v m : smap_find k m = Some v → (k, v) ∈ m.
Proof.
  induction m as [|[k' v'] m IH]; simpl; [done|].
  destruct (cmp k k') eqn:E; intros Hf; [|right; auto..].
  apply cmp_eq in E as ->. simplify_eq. by left.
Qed.

(** The keys are strictly increasing. *)
Definition smap_sorted (m : smap K V) : Prop := StronglySorted strictly_before (m.*1).

Lemma elem_of_smap_insert k v m p : p ∈ smap_insert k v m → p = (k, v) ∨ p ∈ m.
Proof.
  induction m as [|[k' v'] m IH]; simpl; [set_solver|].
  destruct (cmp k k'); set_solver.
Qed.
Lemma smap_insert_sorted k v m : smap_sorted m → smap_sorted (smap_insert k v m).
Proof.
  unfold smap_sorted. induction m as [|[k' v'] m IH]; simpl; [repeat constructor|].
  intros [Hk Hm]%StronglySorted_cons. destruct (cmp k k') eqn:E; simpl.
  - apply cmp_eq in E as ->. by constructor.
  - constructor; [by constructor|]. constructor; [done|].
    eapply Forall_impl; [done|]. intros x. by apply cmp_lt_trans.
  - constructor; [by apply IH|]. apply Forall_forall. intros x (p & -> & Hp)%list_elem_of_fmap.
    apply elem_of_smap_insert in Hp as [->|Hp]; [by apply cmp_gt_lt|].
    rewrite Forall_forall in Hk. by apply Hk, list_elem_of_fmap_2.
Qed.
Lemma smap_elem_find k v m : smap_sorted m → (k, v) ∈ m → smap_find k m = Some v.
Proof.
  unfold smap_sorted. induction m as [|[k' v'] m IH]; simpl; [by intros _ ?%elem_of_nil|].
  intros [Hk Hm]%StronglySorted_cons [Heq|Hin]%elem_of_cons.
  - simplify_eq. by rewrite (cmp_refl k').
  - rewrite Forall_forall in Hk. specialize (Hk k (list_elem_of_fmap_2 fst _ (k, v) Hin)).
    unfold strictly_before in Hk. destruct (cmp k k') eqn:E.
    + apply cmp_eq in E as ->. by rewrite (cmp_refl k') in Hk.
    + by apply IH.
    + by apply IH.
Qed.
End smap.

(** ** Sizes and text *)

(** [container.size()] as a [std::size_t]. *)
Definition size {A} (l : list A) : N := N.of_nat (length l).
Definition str_size (s : string) : N := N.of_nat (String.length s).
(** [!container.empty()]. *)
Definition nonempty {A} (l : list A) : bool := negb (length l =? 0)%nat.

(** [std::to_string] on an unsigned integer. *)
Definition to_dec (n : N) : string := NilZero.string_of_uint (N.to_uint n).

(** String concatenation, as [std::string::append] chains. *)
Notation "s +s+ t" := (String.append s t) (at level 60, right associativity).

(** ** Bytes *)

(** [static_cast<std::uint8_t>(n)]. *)
Definition to_byte (n : N) : byte := default x00 (Byte.of_N (N.land n 255)).

Lemma Byte_to_N_lt (b : byte) : Byte.to_N b < 256.
Proof. pose proof (Byte.to_N_bounded b). lia. Qed.

Lemma land_mask (n k : N) : N.land n (N.ones k) = n mod 2 ^ k.
Proof. apply N.land_ones. Qed.

Lemma to_byte_to_N (n : N) : Byte.to_N (to_byte n) = n mod 256.
Proof.
  unfold to_byte. change 255 with (N.ones 8). rewrite land_mask. change (2 ^ 8) with 256.
  assert (n mod 256 < 256) as Hlt by (apply N.mod_upper_bound; lia).
  destruct (Byte.of_N (n mod 256)) as [b|] eqn:E.
  - by apply Byte.to_of_N in E.
  - apply Byte.of_N_None_iff in E. lia.
Qed.
Lemma to_byte_of_byte (b : byte) : to_byte (Byte.to_N b) = b.
Proof.
  apply (inj Byte.to_N). rewrite to_byte_to_N. apply N.mod_small, Byte_to_N_lt.
Qed.

Lemma to_byte_small (n : N) : n < 256 → Byte.to_N (to_byte n) = n.
Proof. intros. by rewrite to_byte_to_N, N.mod_small. Qed.
Lemma to_byte_eq (n : N) (b : byte) : n = Byte.to_N b → to_byte n = b.
Proof. intros ->. apply to_byte_of_byte. Qed.

(** A disjoint [lor] is a sum. *)
Lemma lor_shiftl_add (a b k : N) : b < 2 ^ k → N.lor (N.shiftl a k) b = a * 2 ^ k + b.
Proof.
  intros Hb. assert (N.land (N.shiftl a k) b = 0) as Hland.
  { apply N.bits_inj_0. intros i. rewrite N.land_spec.
    destruct (N.lt_ge_cases i k) as [Hi|Hi]; [by rewrite N.shiftl_spec_low|].
    destruct (N.eq_dec b 0) as [->|Hb0]; [by rewrite N.bits_0, andb_false_r|].
    rewrite (N.bits_above_log2 b i), andb_false_r; [done|].
    apply N.log2_lt_pow2; [lia|]. eapply N.lt_le_trans; [done|]. apply N.pow_le_mono_r; lia. }
  rewrite <-N.lxor_lor, <-N.add_nocarry_lxor by done. by rewrite N.shiftl_mul_pow2.
Qed.

(** ** Shared automation *)

(** Case analysis on the next [match] or [if] of a hypothesis or the goal, with
    the contradictions closed. *)
Ltac step_case :=
  case_match; simplify_eq/=; try done.

(** Splits a chain of early returns that ended in the given value. *)
Ltac split_returns H :=
  repeat (let E := fresh "Hcase" in
          match type of H with
          | context [match ?x with _ => _ end] =>
              destruct x eqn:E; try discriminate H; simplify_eq/=
          end).

Create HintDb ffed.
#[export] Hint Resolve sort_unique_strict NoDup_sort_unique : ffed.
#[export] Hint Rewrite @elem_of_sort_unique @elem_of_std_sort @elem_of_std_unique using typeclasses eauto : ffed.
