(* ===== verification/Errors.v ===== *)
(** * Outcomes, error codes, [Status] and [Result]; bounds and checked arithmetic

    Models include/fabric_federation/errors.hpp, src/errors.cpp and
    include/fabric_federation/bounds.hpp.  Every [enum class] is a module with
    its inductive type, the underlying integer of each enumerator and its
    [to_string]; [WireEnum] is what the decoders rely on.  A function that
    returns [Status] returns [Result unit] here: [Ok tt] is
    [Status::success()], [Err s] a failure with its code and message. *)

From S2P Require Import Prelude.

(** ** Enumerations with contiguous underlying values *)

Class WireEnum (A : Type) := {
  wire : A → N;
  enum_all : list A;
  enum_wire : ∀ a : A, enum_all !! N.to_nat (wire a) = Some a
}.
#[export] Hint Mode WireEnum ! : typeclass_instances.

(** [static_cast<E>(v)] after the range check [v > static_cast<...>(E::Last)]
    every decoder makes: out of range is [None]. *)
Definition enum_of {A} `{WireEnum A} (v : N) : option A := enum_all !! N.to_nat v.

Section wire_enum.
Context {A : Type} `{WireEnum A}.

Lemma enum_of_wire (a : A) : enum_of (A:=A) (wire a) = Some a.
Proof. apply enum_wire. Qed.
#[global] Instance wire_inj : Inj (=) (=) (wire (A:=A)).
Proof. intros a b Hab. pose proof (enum_of_wire a). pose proof (enum_of_wire b). congruence. Qed.
Lemma wire_bound (a : A) : wire a < size (enum_all (A:=A)).
Proof.
  pose proof (enum_wire a) as Ha. apply lookup_lt_Some in Ha. unfold size. lia.
Qed.
#[global] Instance enum_eq_dec : EqDecision A.
Proof.
  intros a b. refine (cast_if (decide (wire a = wire b))); [by apply wire_inj|congruence].
Defined.
(** The code compares enumerators by their underlying integers. *)
#[global] Instance enum_cmp : Cmp A := cmp_on wire.
#[global] Instance enum_cmp_laws : CmpLaws A := cmp_on_laws wire.
End wire_enum.

(** [enum class Outcome] and its [to_string]. *)
Module Outcome.
Inductive t :=
  | Granted | Degraded | Refused | Fenced | Stale | Conflicting | Incomplete
  | Indeterminate | Invalid | Unsupported | Cancelled | Replayed | Unknown.

(** The underlying integer of the enumerator. *)
Definition value (x : t) : N :=
  match x with
  | Granted => 0
  | Degraded => 1
  | Refused => 2
  | Fenced => 3
  | Stale => 4
  | Conflicting => 5
  | Incomplete => 6
  | Indeterminate => 7
  | Invalid => 8
  | Unsupported => 9
  | Cancelled => 10
  | Replayed => 11
  | Unknown => 12
  end.

(** The enumerators in the order of their values. *)
Definition all : list t :=
  [Granted; Degraded; Refused; Fenced; Stale; Conflicting; Incomplete; Indeterminate;
   Invalid; Unsupported; Cancelled; Replayed; Unknown].

Definition to_string (x : t) : string :=
  match x with
  | Granted => "GRANTED"
  | Degraded => "DEGRADED"
  | Refused => "REFUSED"
  | Fenced => "FENCED"
  | Stale => "STALE"
  | Conflicting => "CONFLICTING"
  | Incomplete => "INCOMPLETE"
  | Indeterminate => "INDETERMINATE"
  | Invalid => "INVALID"
  | Unsupported => "UNSUPPORTED"
  | Cancelled => "CANCELLED"
  | Replayed => "REPLAYED"
  | Unknown => "UNKNOWN"
  end.

#[global] Instance enum : WireEnum t.
Proof. refine {| wire := value; enum_all := all |}. by intros []. Defined.
End Outcome.

(** [enum class EvidenceState] and its [to_string]. *)
Module EvidenceState.
Inductive t :=
  | Known | Unknown | Stale | Conflicting | Incomplete | Indeterminate | Invalid.

(** The underlying integer of the enumerator. *)
Definition value (x : t) : N :=
  match x with
  | Known => 0
  | Unknown => 1
  | Stale => 2
  | Conflicting => 3
  | Incomplete => 4
  | Indeterminate => 5
  | Invalid => 6
  end.

(** The enumerators in the order of their values. *)
Definition all : list t :=
  [Known; Unknown; Stale; Conflicting; Incomplete; Indeterminate; Invalid].

Definition to_string (x : t) : string :=
  match x with
  | Known => "KNOWN"
  | Unknown => "UNKNOWN"
  | Stale => "STALE"
  | Conflicting => "CONFLICTING"
  | Incomplete => "INCOMPLETE"
  | Indeterminate => "INDETERMINATE"
  | Invalid => "INVALID"
  end.

#[global] Instance enum : WireEnum t.
Proof. refine {| wire := value; enum_all := all |}. by intros []. Defined.
End EvidenceState.

(** [enum class ErrorCode] and its [to_string]. *)
Module ErrorCode.
Inductive t :=
  | Ok | InvalidArgument | OutOfRange | BoundsExceeded | Truncated | Corrupt
  | UnsupportedVersion | NotFound | AlreadyExists | Conflict | Stale | Refused
  | Incomplete | Indeterminate | Cancelled | IoError | NetworkError
  | ProtocolViolation | Overflow | Replay | ChecksumMismatch | CapacityExceeded
  | NotInitialized | Busy | Internal.

(** The underlying integer of the enumerator. *)
Definition value (x : t) : N :=
  match x with
  | Ok => 0
  | InvalidArgument => 1
  | OutOfRange => 2
  | BoundsExceeded => 3
  | Truncated => 4
  | Corrupt => 5
  | UnsupportedVersion => 6
  | NotFound => 7
  | AlreadyExists => 8
  | Conflict => 9
  | Stale => 10
  | Refused => 11
  | Incomplete => 12
  | Indeterminate => 13
  | Cancelled => 14
  | IoError => 15
  | NetworkError => 16
  | ProtocolViolation => 17
  | Overflow => 18
  | Replay => 19
  | ChecksumMismatch => 20
  | CapacityExceeded => 21
  | NotInitialized => 22
  | Busy => 23
  | Internal => 24
  end.

(** The enumerators in the order of their values. *)
Definition all : list t :=
  [Ok; InvalidArgument; OutOfRange; BoundsExceeded; Truncated; Corrupt;
   UnsupportedVersion; NotFound; AlreadyExists; Conflict; Stale; Refused; Incomplete;
   Indeterminate; Cancelled; IoError; NetworkError; ProtocolViolation; Overflow;
   Replay; ChecksumMismatch; CapacityExceeded; NotInitialized; Busy; Internal].

Definition to_string (x : t) : string :=
  match x with
  | Ok => "OK"
  | InvalidArgument => "INVALID_ARGUMENT"
  | OutOfRange => "OUT_OF_RANGE"
  | BoundsExceeded => "BOUNDS_EXCEEDED"
  | Truncated => "TRUNCATED"
  | Corrupt => "CORRUPT"
  | UnsupportedVersion => "UNSUPPORTED_VERSION"
  | NotFound => "NOT_FOUND"
  | AlreadyExists => "ALREADY_EXISTS"
  | Conflict => "CONFLICT"
  | Stale => "STALE"
  | Refused => "REFUSED"
  | Incomplete => "INCOMPLETE"
  | Indeterminate => "INDETERMINATE"
  | Cancelled => "CANCELLED"
  | IoError => "IO_ERROR"
  | NetworkError => "NETWORK_ERROR"
  | ProtocolViolation => "PROTOCOL_VIOLATION"
  | Overflow => "OVERFLOW"
  | Replay => "REPLAY"
  | ChecksumMismatch => "CHECKSUM_MISMATCH"
  | CapacityExceeded => "CAPACITY_EXCEEDED"
  | NotInitialized => "NOT_INITIALIZED"
  | Busy => "BUSY"
  | Internal => "INTERNAL"
  end.

#[global] Instance enum : WireEnum t.
Proof. refine {| wire := value; enum_all := all |}. by intros []. Defined.
End ErrorCode.

(** ** [Status] and [Result] *)

Record Status := Status_make { code : ErrorCode.t; message : string }.

(** [Status::to_string]. *)
Definition Status_to_string (s : Status) : string :=
  if decide (message s = "") then ErrorCode.to_string (code s)
  else ErrorCode.to_string (code s) +s+ ": " +s+ message s.

Inductive Result (A : Type) :=
  | Ok (a : A)
  | Err (s : Status).
Arguments Ok {A} _.
Arguments Err {A} _.

(** [Status::make] on the failure path of a function that returns [Result]. *)
Definition fail {A} (c : ErrorCode.t) (m : string) : Result A := Err (Status_make c m).

#[export] Instance Result_ret : MRet Result := λ A a, Ok a.
#[export] Instance Result_bind : MBind Result := λ A B k r,
  match r with Ok a => k a | Err s => Err s end.

(** [if (b) return Status::make(c, m);] *)
Definition fail_if (b : bool) (c : ErrorCode.t) (m : string) : Result unit :=
  if b then fail c m else Ok tt.

Definition has_value {A} (r : Result A) : bool :=
  match r with Ok _ => true | Err _ => false end.

(** The loop [for (x : l) { status = f(x); if (!status.ok()) return status; }]. *)
Fixpoint check_each {A} (f : A → Result unit) (l : list A) : Result unit :=
  match l with
  | [] => Ok tt
  | x :: l => _ ← f x; check_each f l
  end.

Lemma bind_Ok {A B} (r : Result A) (k : A → Result B) b :
  (r ≫= k) = Ok b ↔ ∃ a, r = Ok a ∧ k a = Ok b.
Proof. destruct r; simpl; naive_solver. Qed.
Lemma fail_if_Ok b c m u : fail_if b c m = Ok u ↔ b = false.
Proof. destruct b, u; simpl; unfold fail; naive_solver. Qed.
Lemma check_each_Ok {A} (f : A → Result unit) l :
  check_each f l = Ok tt ↔ Forall (λ x, f x = Ok tt) l.
Proof.
  induction l as [|x l IH]; simpl; [by split|].
  rewrite Forall_cons, <-IH, bind_Ok. split; [intros ([] & ? & ?); auto|naive_solver].
Qed.

Lemma seq_Ok {B} (r : Result unit) (k : Result B) b :
  (r ≫= λ _, k) = Ok b ↔ r = Ok tt ∧ k = Ok b.
Proof. rewrite bind_Ok. split; [intros ([] & ? & ?)|intros []]; eauto. Qed.
Lemma check_each_In {A} (f : A → Result unit) l :
  check_each f l = Ok tt ↔ ∀ x, x ∈ l → f x = Ok tt.
Proof. by rewrite check_each_Ok, Forall_forall. Qed.

(** ** bounds.hpp *)

Definition u8_max : N := 255.
Definition u16_max : N := 65535.
Definition u32_max : N := 4294967295.
Definition u64_max : N := 18446744073709551615.

Definition kMaxIdentifierLength : N := 96.
Definition kMaxShortTextLength : N := 256.
Definition kMaxTextLength : N := 4096.
Definition kMaxExplanationTextLength : N := 8192.

Definition kMaxMembers : N := 1024.
Definition kMaxScopesPerMember : N := 512.
Definition kMaxCapabilitiesPerMember : N := 512.
Definition kMaxDelegationTermsPerMember : N := 512.
Definition kMaxRequiredEndorsements : N := 32.
Definition kMaxArtifacts : N := 65536.
Definition kMaxArtifactsPerMember : N := 4096.
Definition kMaxLeases : N := 8192.
Definition kMaxLeasesPerMember : N := 256.
Definition kMaxReplayEntries : N := 65536.
Definition kMaxScopesPerLease : N := 256.
Definition kMaxConflicts : N := 4096.
Definition kMaxPolicyRules : N := 1024.
Definition kMaxPrecedenceEntries : N := 256.

Definition kMaxReasonsPerDecision : N := 64.
Definition kMaxContributionsPerDecision : N := 1024.
Definition kMaxEffectiveGrantsPerDecision : N := 512.

Definition kMaxMembersPerObservation : N := 1024.
Definition kMaxJournalRecordBytes : N := 1048576.
Definition kMaxJournalBytes : N := 2147483648.

(** [checked_add_u64], [checked_mul_u64] and [checked_inc_u64] return [false]
    ([None] here) instead of wrapping; [a + b] and [a * b] below are the
    64-bit operations of the code, wrap-around included. *)
Definition checked_add_u64 (a b : N) : option N :=
  if u64_max - a <? b then None else Some ((a + b) mod 2 ^ 64).
Definition checked_mul_u64 (a b : N) : option N :=
  if negb (a =? 0) && (u64_max / a <? b) then None else Some ((a * b) mod 2 ^ 64).
Definition checked_inc_u64 (v : N) : option N :=
  if v =? u64_max then None else Some ((v + 1) mod 2 ^ 64).
Definition narrow_u32 (v : N) : option N :=
  if u32_max <? v then None else Some (v mod 2 ^ 32).

(** On 64-bit operands the checked operations either return the exact
    mathematical result, or report that it does not fit; they never wrap. *)
Theorem checked_arithmetic_exact (a b : N) :
  a ≤ u64_max → b ≤ u64_max →
  checked_add_u64 a b = (if a + b <=? u64_max then Some (a + b) else None) ∧
  checked_mul_u64 a b = (if a * b <=? u64_max then Some (a * b) else None) ∧
  checked_inc_u64 a = (if a + 1 <=? u64_max then Some (a + 1) else None).
Proof.
  unfold checked_add_u64, checked_mul_u64, checked_inc_u64, u64_max.
  change (2 ^ 64)%N with 18446744073709551616%N. intros Ha Hb. repeat split.
  - destruct (N.leb_spec (a + b) 18446744073709551615),
      (N.ltb_spec (18446744073709551615 - a) b); try lia; try done.
    by rewrite N.mod_small by lia.
  - destruct (N.eqb_spec a 0) as [->|Hz]; simpl; [done|].
    assert (18446744073709551615 / a < b ↔ 18446744073709551615 < a * b) as Hdiv.
    { split; intros; [|apply N.Div0.div_lt_upper_bound; lia].
      pose proof (N.mul_succ_div_gt 18446744073709551615 a Hz). nia. }
    destruct (N.leb_spec (a * b) 18446744073709551615),
      (N.ltb_spec (18446744073709551615 / a) b); try lia; try done.
    by rewrite N.mod_small by lia.
  - destruct (N.leb_spec (a + 1) 18446744073709551615),
      (N.eqb_spec a 18446744073709551615); try lia; try done.
    by rewrite N.mod_small by lia.
Qed.

Lemma checked_arithmetic_exact_witness :
  u64_max ≤ u64_max ∧ 2 ≤ u64_max ∧ checked_mul_u64 u64_max 2 = None.
Proof.
  assert (u64_max ≤ u64_max) as H1 by done. assert (2 ≤ u64_max) as H2 by done.
  split; [exact H1|split; [exact H2|]].
  destruct (checked_arithmetic_exact u64_max 2 H1 H2) as (_ & H3 & _). exact H3.
Defined.
