(* ===== verification/Fips.v ===== *)
(** * FIPS 180-4: the SHA-256 standard

    The specification against which the hash object of src/sha256.cpp is proved
    (Sha256): the standard's own text on messages of bits, written without any of
    the definitions that model the source.  The constants are not tabulated: they are
    computed the way the standard defines them, from the square and the cube roots of
    the first primes. *)

From S2P Require Import Prelude.

(** ** Bits and words (sections 2.2, 3.1) *)

(** The [w] low bits of a number, the most significant one first, and the number
    that a string of bits denotes. *)
Definition bits_of (w n : N) : list bool :=
  (λ i, N.testbit n (w - 1 - N.of_nat i)) <$> seq 0 (N.to_nat w).
Definition number_of (bits : list bool) : N := foldl (λ n b, 2 * n + N.b2n b) 0 bits.

(** A byte string as a message. *)
Definition message_of (l : list byte) : list bool := l ≫= λ b, bits_of 8 (Byte.to_N b).

(** Addition of words, rotation and shift to the right. *)
Definition plus32 (x y : N) : N := (x + y) mod 2 ^ 32.
Definition ROTR (n x : N) : N := N.lor (N.shiftr x n) (N.shiftl x (32 - n) mod 2 ^ 32).
Definition SHR (n x : N) : N := N.shiftr x n.

(** ** Functions (section 4.1.2) *)

Definition Ch (x y z : N) : N := N.lxor (N.land x y) (N.land (N.lnot x 32) z).
Definition Maj (x y z : N) : N := N.lxor (N.lxor (N.land x y) (N.land x z)) (N.land y z).
Definition xor3 (x y z : N) : N := N.lxor (N.lxor x y) z.
Definition Sigma_0 (x : N) : N := xor3 (ROTR 2 x) (ROTR 13 x) (ROTR 22 x).
Definition Sigma_1 (x : N) : N := xor3 (ROTR 6 x) (ROTR 11 x) (ROTR 25 x).
Definition sigma_0 (x : N) : N := xor3 (ROTR 7 x) (ROTR 18 x) (SHR 3 x).
Definition sigma_1 (x : N) : N := xor3 (ROTR 17 x) (ROTR 19 x) (SHR 10 x).

(** ** Constants (sections 4.2.2, 5.3.3) *)

Definition is_prime (n : N) : bool :=
  (2 <=? n) && forallb (λ d, negb (n mod N.of_nat d =? 0)) (seq 2 (N.to_nat (N.sqrt n) - 1)).
(** The 64th prime is 311. *)
Definition primes : list N := filter (λ n, is_prime n = true) (N.of_nat <$> seq 0 312).

(** The greatest [r] below [2 ^ bits] whose [k]-th power is at most [n]. *)
Definition root (k bits n : N) : N :=
  foldl (λ r i, let r' := r + 2 ^ (bits - 1 - N.of_nat i) in if r' ^ k <=? n then r' else r)
        0 (seq 0 (N.to_nat bits)).
(** The first 32 bits of the fractional part of the [k]-th root of [p]. *)
Definition root_fraction (k p : N) : N := root k 40 (p * 2 ^ (32 * k)) mod 2 ^ 32.

Definition K : list N := root_fraction 3 <$> take 64 primes.
Definition H_0 : list N := root_fraction 2 <$> take 8 primes.

(** ** Preprocessing (sections 5.1.1, 5.2.1) *)

(** The smallest [k] with [l + 1 + k = 448] modulo 512 ([zeros_least] below). *)
Definition zeros (l : N) : N := (448 + 512 - (l + 1) mod 512) mod 512.
Definition padded (M : list bool) : list bool :=
  M ++ [true] ++ replicate (N.to_nat (zeros (size M))) false ++ bits_of 64 (size M).

(** [M_j] of block [i], counted from 0. *)
Definition M_ (P : list bool) (i j : nat) : N := number_of (take 32 (drop (512 * i + 32 * j) P)).

(** ** The computation (section 6.2.2) *)

(** The message schedule: [W_0] to [W_(t-1)], and then [W_t]. *)
Definition extend (W : list N) (t : nat) : list N :=
  W ++ [plus32 (plus32 (sigma_1 (nth (t - 2) W 0)) (nth (t - 7) W 0))
               (plus32 (sigma_0 (nth (t - 15) W 0)) (nth (t - 16) W 0))].
Definition W_ (P : list bool) (i : nat) : list N := foldl extend (M_ P i <$> seq 0 16) (seq 16 48).

(** Step 3 for one [t]; the variables [a] to [h] are a list. *)
Definition variables_step (W vars : list N) (t : nat) : list N :=
  match vars with
  | [a; b; c; d; e; f; g; h] =>
      let T1 := plus32 (plus32 (plus32 (plus32 h (Sigma_1 e)) (Ch e f g)) (nth t K 0)) (nth t W 0) in
      let T2 := plus32 (Sigma_0 a) (Maj a b c) in
      [plus32 T1 T2; a; b; c; plus32 d T1; e; f; g]
  | _ => vars
  end.

(** Steps 1 to 4 for one block: the next hash value. *)
Definition next_hash (P : list bool) (H : list N) (i : nat) : list N :=
  zip_with plus32 (foldl (variables_step (W_ P i)) H (seq 0 64)) H.

Definition SHA256 (M : list bool) : list bool :=
  let P := padded M in
  foldl (next_hash P) H_0 (seq 0 (length P / 512)) ≫= bits_of 32.

(** ** That these are the standard's words *)

Lemma zeros_solves l : (l + 1 + zeros l) mod 512 = 448.
Proof. unfold zeros. lia. Qed.
Lemma zeros_least l k : (l + 1 + k) mod 512 = 448 → zeros l <= k.
Proof. unfold zeros. lia. Qed.

Lemma primes_count : length primes = 64%nat.
Proof. by vm_compute. Qed.

(** The roots are roots: no larger number of 40 bits, and none of 41, has a power
    that is small enough. *)
Lemma roots_are_greatest :
  Forall (λ p, root 2 40 (p * 2 ^ 64) ^ 2 <= p * 2 ^ 64 < (root 2 40 (p * 2 ^ 64) + 1) ^ 2 ∧
               root 3 40 (p * 2 ^ 96) ^ 3 <= p * 2 ^ 96 < (root 3 40 (p * 2 ^ 96) + 1) ^ 3) primes.
Proof.
  assert (forallb (λ p, let r := root 2 40 (p * 2 ^ 64) in let s := root 3 40 (p * 2 ^ 96) in
    (r ^ 2 <=? p * 2 ^ 64) && (p * 2 ^ 64 <? (r + 1) ^ 2) &&
    (s ^ 3 <=? p * 2 ^ 96) && (p * 2 ^ 96 <? (s + 1) ^ 3)) primes = true) as Hall
    by by vm_compute.
  apply Forall_forall. intros p Hp. rewrite forallb_forall in Hall.
  specialize (Hall p (proj1 (list_elem_of_In _ _) Hp)). cbv zeta in Hall.
  rewrite !andb_true_iff, !N.leb_le, !N.ltb_lt in Hall. tauto.
Qed.
