(* ===== verification/Sha256.v ===== *)
(** * SHA-256 and digests

    Models src/sha256.cpp and include/fabric_federation/digest.hpp: the
    compression function, the streaming object (buffer, byte counter, finished
    flag) and the [Digest] type.  The streaming object is proved to absorb a message
    however it is cut into updates, and its blocks to be those of the standard (Fips),
    word by word and round by round. *)

From S2P Require Import Prelude Errors Fips.

(** ** 32-bit words *)

Definition wrap32 (n : N) : N := N.land n 0xffffffff.
Definition wrap64 (n : N) : N := N.land n 0xffffffffffffffff.

Definition rotr (value shift : N) : N :=
  N.lor (N.shiftr value shift) (wrap32 (N.shiftl value (32 - shift))).
Definition choose (x y z : N) : N :=
  N.lxor (N.land x y) (N.land (N.lxor x 0xffffffff) z).
Definition majority (x y z : N) : N :=
  N.lxor (N.lxor (N.land x y) (N.land x z)) (N.land y z).
Definition big_sigma0 (x : N) : N := N.lxor (N.lxor (rotr x 2) (rotr x 13)) (rotr x 22).
Definition big_sigma1 (x : N) : N := N.lxor (N.lxor (rotr x 6) (rotr x 11)) (rotr x 25).
Definition small_sigma0 (x : N) : N := N.lxor (N.lxor (rotr x 7) (rotr x 18)) (N.shiftr x 3).
Definition small_sigma1 (x : N) : N := N.lxor (N.lxor (rotr x 17) (rotr x 19)) (N.shiftr x 10).

(** The table, a row per source line. *)
Definition kRoundConstants : list N := concat
  [[0x428a2f98; 0x71374491; 0xb5c0fbcf; 0xe9b5dba5; 0x3956c25b; 0x59f111f1; 0x923f82a4];
   [0xab1c5ed5; 0xd807aa98; 0x12835b01; 0x243185be; 0x550c7dc3; 0x72be5d74; 0x80deb1fe];
   [0x9bdc06a7; 0xc19bf174; 0xe49b69c1; 0xefbe4786; 0x0fc19dc6; 0x240ca1cc; 0x2de92c6f];
   [0x4a7484aa; 0x5cb0a9dc; 0x76f988da; 0x983e5152; 0xa831c66d; 0xb00327c8; 0xbf597fc7];
   [0xc6e00bf3; 0xd5a79147; 0x06ca6351; 0x14292967; 0x27b70a85; 0x2e1b2138; 0x4d2c6dfc];
   [0x53380d13; 0x650a7354; 0x766a0abb; 0x81c2c92e; 0x92722c85; 0xa2bfe8a1; 0xa81a664b];
   [0xc24b8b70; 0xc76c51a3; 0xd192e819; 0xd6990624; 0xf40e3585; 0x106aa070; 0x19a4c116];
   [0x1e376c08; 0x2748774c; 0x34b0bcb5; 0x391c0cb3; 0x4ed8aa4a; 0x5b9cca4f; 0x682e6ff3];
   [0x748f82ee; 0x78a5636f; 0x84c87814; 0x8cc70208; 0x90befffa; 0xa4506ceb; 0xbef9a3f7];
   [0xc67178f2]].

Definition kInitialState : list N :=
  [0x6a09e667; 0xbb67ae85; 0x3c6ef372; 0xa54ff53a; 0x510e527f; 0x9b05688c;
   0x1f83d9ab; 0x5be0cd19].

(** ** The compression function *)

(** The big-endian word [block[4i .. 4i+3]]. *)
Definition block_word (block : list byte) (i : nat) : N :=
  let b k := Byte.to_N (nth (i * 4 + k) block x00) in
  N.lor (N.lor (N.lor (N.shiftl (b 0%nat) 24) (N.shiftl (b 1%nat) 16)) (N.shiftl (b 2%nat) 8))
        (b 3%nat).

(** One iteration of the message-schedule loop: computes [w[i]]. *)
Definition schedule_step (w : list N) (i : nat) : list N :=
  let at_ k := nth (i - k) w 0 in
  w ++ [wrap32 (small_sigma1 (at_ 2%nat) + at_ 7%nat + small_sigma0 (at_ 15%nat) + at_ 16%nat)].

Definition schedule (block : list byte) : list N :=
  foldl schedule_step (block_word block <$> seq 0 16) (seq 16 48).

(** The working variables [a] to [h]. *)
Record Regs := { ra : N; rb : N; rc : N; rd : N; re : N; rf : N; rg : N; rh : N }.

Definition round (r : Regs) (kw : N * N) : Regs :=
  let t1 := wrap32 (rh r + big_sigma1 (re r) + choose (re r) (rf r) (rg r) + kw.1 + kw.2) in
  let t2 := wrap32 (big_sigma0 (ra r) + majority (ra r) (rb r) (rc r)) in
  {| ra := wrap32 (t1 + t2); rb := ra r; rc := rb r; rd := rc r;
     re := wrap32 (rd r + t1); rf := re r; rg := rf r; rh := rg r |}.

Definition compress (state : list N) (block : list byte) : list N :=
  let s i := nth i state 0 in
  let r0 := {| ra := s 0%nat; rb := s 1%nat; rc := s 2%nat; rd := s 3%nat;
               re := s 4%nat; rf := s 5%nat; rg := s 6%nat; rh := s 7%nat |} in
  let r := foldl round r0 (zip kRoundConstants (schedule block)) in
  [wrap32 (s 0%nat + ra r); wrap32 (s 1%nat + rb r); wrap32 (s 2%nat + rc r);
   wrap32 (s 3%nat + rd r); wrap32 (s 4%nat + re r); wrap32 (s 5%nat + rf r);
   wrap32 (s 6%nat + rg r); wrap32 (s 7%nat + rh r)].

(** ** [Digest] *)

Record Digest := mkDigest { digest_bytes : list byte }.

#[export] Instance Digest_eq_dec : EqDecision Digest.
Proof. solve_decision. Defined.
#[export] Instance digest_bytes_inj : Inj (=) (=) digest_bytes.
Proof. by intros [?] [?] [= ->]. Qed.
#[export] Instance Digest_cmp : Cmp Digest := cmp_on digest_bytes.
#[export] Instance Digest_cmp_laws : CmpLaws Digest := cmp_on_laws digest_bytes.

Definition kDigestSize : nat := 32.

(** The default-constructed digest, and [Digest::from_bytes]. *)
Definition Digest_zero : Digest := mkDigest (replicate kDigestSize x00).
Definition Digest_from_bytes (value : list byte) : Digest :=
  mkDigest (take kDigestSize value ++ replicate (kDigestSize - length value) x00).
Definition is_zero_bytes (l : list byte) : bool := forallb (λ b, N.eqb (Byte.to_N b) 0) l.
Definition Digest_is_zero (d : Digest) : bool := is_zero_bytes (digest_bytes d).

Definition hex_digit (n : N) : ascii :=
  nth (N.to_nat (N.land n 0x0f)) (String.list_ascii_of_string "0123456789abcdef") "0"%char.
Definition hex_of_bytes (l : list byte) : string :=
  foldr (λ b s, String (hex_digit (N.shiftr (Byte.to_N b) 4)) (String (hex_digit (Byte.to_N b)) s))
        "" l.
Definition Digest_to_hex (d : Digest) : string := hex_of_bytes (digest_bytes d).
(** [to_hex().substr(0, 16)], the abbreviation used in messages. *)
Definition hex16 (d : Digest) : string := String.substring 0 16 (Digest_to_hex d).

(** ** The streaming object *)

Record Sha256 := mkSha256 {
  state_ : list N;
  buffer_ : list byte;
  buffered_ : nat;
  total_bytes_ : N;
  finished_ : bool
}.

Definition Sha256_init : Sha256 :=
  {| state_ := kInitialState; buffer_ := replicate 64 x00; buffered_ := 0%nat;
     total_bytes_ := 0; finished_ := false |}.

(** [memcpy(buffer + off, data, size)]. *)
Definition splice (buffer : list byte) (off : nat) (data : list byte) : list byte :=
  take off buffer ++ data ++ drop (off + length data) buffer.

(** [while (size - offset >= 64) { compress(data + offset); offset += 64; }]:
    the new state and the bytes left.  Every iteration consumes 64 bytes, so
    the length of the data is enough fuel. *)
Fixpoint compress_all (fuel : nat) (st : list N) (data : list byte) : list N * list byte :=
  match fuel with
  | O => (st, data)
  | S fuel =>
      if (64 <=? length data)%nat
      then compress_all fuel (compress st (take 64 data)) (drop 64 data)
      else (st, data)
  end.

Definition update (s : Sha256) (data : list byte) : Sha256 :=
  if finished_ s || (length data =? 0)%nat then s else
  let total := wrap64 (total_bytes_ s + size data) in
  let '(st, buf, n, data) :=
    if (0 <? buffered_ s)%nat then
      let need := (64 - buffered_ s)%nat in
      let n_take := if (length data <? need)%nat then length data else need in
      let buf := splice (buffer_ s) (buffered_ s) (take n_take data) in
      let n := (buffered_ s + n_take)%nat in
      if (n =? 64)%nat then (compress (state_ s) buf, buf, 0%nat, drop n_take data)
      else (state_ s, buf, n, drop n_take data)
    else (state_ s, buffer_ s, buffered_ s, data) in
  let '(st, rest) := compress_all (length data) st data in
  if (0 <? length rest)%nat then
    {| state_ := st; buffer_ := splice buf n rest; buffered_ := (n + length rest)%nat;
       total_bytes_ := total; finished_ := false |}
  else
    {| state_ := st; buffer_ := buf; buffered_ := n; total_bytes_ := total; finished_ := false |}.

(** The eight big-endian bytes of the bit length, and the state as bytes. *)
Definition be64 (n : N) : list byte :=
  (λ i, to_byte (N.shiftr n (56 - N.of_nat i * 8))) <$> seq 0 8.
Definition be32 (n : N) : list byte :=
  [to_byte (N.shiftr n 24); to_byte (N.shiftr n 16); to_byte (N.shiftr n 8); to_byte n].
Definition state_digest (st : list N) : Digest := mkDigest (flat_map be32 (take 8 st)).

Definition padding (buffered : nat) : list byte :=
  let pad_len := if (buffered <? 56)%nat then (56 - buffered)%nat else (120 - buffered)%nat in
  take pad_len (x80 :: replicate 71 x00).

Definition finish (s : Sha256) : Digest * Sha256 :=
  if finished_ s then (state_digest (state_ s), s) else
  let bit_length := wrap64 (total_bytes_ s * 8) in
  let s := update (update s (padding (buffered_ s))) (be64 bit_length) in
  let s := {| state_ := state_ s; buffer_ := buffer_ s; buffered_ := buffered_ s;
              total_bytes_ := total_bytes_ s; finished_ := true |} in
  (state_digest (state_ s), s).

(** [Sha256::hash]. *)
Definition hash (data : list byte) : Digest := (finish (update Sha256_init data)).1.
Definition hash_string (text : string) : Digest := hash (String.list_byte_of_string text).

(** ** One-shot form: the padded message, block after block *)

Definition pad_message (m : list byte) : list byte :=
  m ++ padding (length m mod 64) ++ be64 (wrap64 (size m * 8)).

(** The 64-byte blocks of a message whose length is a multiple of 64. *)
Fixpoint chunks (fuel : nat) (l : list byte) : list (list byte) :=
  match fuel, l with
  | S fuel, _ :: _ => take 64 l :: chunks fuel (drop 64 l)
  | _, _ => []
  end.

Definition hash_blocks (m : list byte) : Digest :=
  state_digest (foldl compress kInitialState (chunks (length (pad_message m)) (pad_message m))).

(** The digest a sequence of [update] calls produces. *)
Definition stream_hash (parts : list (list byte)) : Digest :=
  (finish (foldl update Sha256_init parts)).1.

Lemma wrap64_mod n : wrap64 n = n mod 2 ^ 64.
Proof. unfold wrap64. change 0xffffffffffffffff with (N.ones 64). apply land_mask. Qed.

Lemma length_be64 n : length (be64 n) = 8%nat.
Proof. done. Qed.

(** [s] has absorbed exactly [m]: the full blocks are folded into the state
    and the rest is in the buffer. *)
Record absorbed (s : Sha256) (m : list byte) : Prop := {
  absorbed_open : finished_ s = false;
  absorbed_buffer : length (buffer_ s) = 64%nat;
  absorbed_room : (buffered_ s < 64)%nat;
  absorbed_total : total_bytes_ s = size m mod 2 ^ 64;
  absorbed_blocks : ∃ bs, Forall (λ b, length b = 64%nat) bs ∧
    m = concat bs ++ take (buffered_ s) (buffer_ s) ∧
    state_ s = foldl compress kInitialState bs
}.

Lemma length_concat_blocks (bs : list (list byte)) :
  Forall (λ b, length b = 64%nat) bs → length (concat bs) = (64 * length bs)%nat.
Proof. induction 1; simpl; rewrite ?length_app; lia. Qed.

Lemma compress_all_spec fuel : ∀ st data st' rest,
  (length data ≤ fuel)%nat → compress_all fuel st data = (st', rest) →
  ∃ bs, Forall (λ b, length b = 64%nat) bs ∧ data = concat bs ++ rest ∧
        (length rest < 64)%nat ∧ st' = foldl compress st bs.
Proof.
  induction fuel as [|fuel IH]; simpl; intros st data st' rest Hlen Heq.
  - simplify_eq. exists []. split_and!; simpl; [constructor|done|lia|done].
  - destruct (Nat.leb_spec 64 (length data)).
    + apply IH in Heq as (bs & Hbs & Hdata & Hrest & ->); [|rewrite length_drop; lia].
      exists (take 64 data :: bs). split_and!; [| |done|done].
      * constructor; [rewrite length_take; lia|done].
      * cbn [concat]. by rewrite <-app_assoc, <-Hdata, take_drop.
    + simplify_eq. exists []. by split_and!; simpl.
Qed.

Lemma length_splice buf off data :
  (off + length data ≤ length buf)%nat → length (splice buf off data) = length buf.
Proof. intros. unfold splice. rewrite !length_app, length_take, length_drop. lia. Qed.
Lemma take_splice buf off data :
  (off + length data ≤ length buf)%nat →
  take (off + length data) (splice buf off data) = take off buf ++ data.
Proof.
  intros. unfold splice. rewrite app_assoc, take_app_le by (rewrite length_app, length_take; lia).
  apply take_ge. rewrite length_app, length_take. lia.
Qed.

Lemma size_app {A} (l k : list A) : size (l ++ k) = size l + size k.
Proof. unfold size. rewrite length_app. lia. Qed.

Lemma absorbed_init : absorbed Sha256_init [].
Proof. split; try done; [simpl; lia|]. by exists []. Qed.

(** The tail of [update]: the loop over whole blocks and the copy of the rest,
    from an arbitrary buffered prefix. *)
Lemma absorb_rest st buf n data m bs :
  length buf = 64%nat → (n < 64)%nat → (n = 0%nat ∨ data = []) →
  Forall (λ b, length b = 64%nat) bs →
  m = concat bs ++ take n buf →
  st = foldl compress kInitialState bs →
  absorbed
    (let '(st, rest) := compress_all (length data) st data in
     if (0 <? length rest)%nat then
       {| state_ := st; buffer_ := splice buf n rest; buffered_ := (n + length rest)%nat;
          total_bytes_ := size (m ++ data) mod 2 ^ 64; finished_ := false |}
     else
       {| state_ := st; buffer_ := buf; buffered_ := n;
          total_bytes_ := size (m ++ data) mod 2 ^ 64; finished_ := false |}) (m ++ data).
Proof.
  intros Hbuf Hn Hor Hbs Hm Hst.
  destruct (compress_all (length data) st data) as [st' rest] eqn:Hc.
  apply compress_all_spec in Hc as (bs' & Hbs' & Hdata & Hrest & ->); [|done].
  assert (m ++ data = concat (bs ++ bs') ++ take n buf ++ rest) as Happ.
  { destruct Hor as [->|Hd].
    - rewrite Hm, Hdata, concat_app. simpl. by rewrite app_nil_r, <-app_assoc.
    - rewrite Hd in Hdata. symmetry in Hdata. apply app_nil in Hdata as [Hbs0 ->].
      rewrite Hm, Hd, concat_app, Hbs0. by rewrite !app_nil_r. }
  destruct (Nat.ltb_spec 0 (length rest)) as [Hpos|Hzero].
  - assert (n = 0%nat) as -> by (destruct Hor as [|Hd]; [done|];
      rewrite Hd in Hdata; symmetry in Hdata; apply app_nil in Hdata as [_ ->]; simpl in *; lia).
    split; simpl; [done|rewrite length_splice; lia|lia|done|].
    exists (bs ++ bs'). split_and!; [by apply Forall_app| |by rewrite foldl_app, Hst].
    change (length rest) with (0 + length rest)%nat. rewrite take_splice by lia. done.
  - destruct rest; [|simpl in *; lia]. rewrite app_nil_r in Happ.
    split; simpl; [done..|].
    exists (bs ++ bs'). split_and!; [by apply Forall_app|done|by rewrite foldl_app, Hst].
Qed.

Lemma absorbed_total_next s m data :
  absorbed s m → wrap64 (total_bytes_ s + size data) = size (m ++ data) mod 2 ^ 64.
Proof.
  intros Hs. rewrite wrap64_mod, size_app, (absorbed_total _ _ Hs).
  by rewrite N.Div0.add_mod_idemp_l.
Qed.

Lemma update_absorbed s m data : absorbed s m → absorbed (update s data) (m ++ data).
Proof.
  intros Hs. unfold update. rewrite (absorbed_open _ _ Hs). simpl.
  destruct (Nat.eqb_spec (length data) 0) as [H0|H0].
  { destruct data; [by rewrite app_nil_r|done]. }
  rewrite (absorbed_total_next _ _ _ Hs).
  destruct (absorbed_blocks _ _ Hs) as (bs & Hbs & Hm & Hst).
  pose proof (absorbed_buffer _ _ Hs) as Hbuf. pose proof (absorbed_room _ _ Hs) as Hroom.
  destruct (Nat.ltb_spec 0 (buffered_ s)) as [Hb|Hb].
  2: { apply (absorb_rest _ _ _ _ _ bs); auto with lia. }
  set (k := if (length data <? 64 - buffered_ s)%nat then length data else (64 - buffered_ s)%nat).
  assert (k ≤ length data ∧ k ≤ 64 - buffered_ s)%nat as [Hk1 Hk2]
    by (subst k; destruct (Nat.ltb_spec (length data) (64 - buffered_ s)); lia).
  assert (take (buffered_ s + k) (splice (buffer_ s) (buffered_ s) (take k data)) =
          take (buffered_ s) (buffer_ s) ++ take k data) as Htake.
  { replace k with (length (take k data)) at 1 by (rewrite length_take; lia).
    apply take_splice. rewrite length_take. lia. }
  assert (length (splice (buffer_ s) (buffered_ s) (take k data)) = 64%nat) as Hlen
    by (rewrite length_splice; rewrite ?length_take; lia).
  assert (m ++ data = (m ++ take k data) ++ drop k data) as -> by by rewrite <-app_assoc, take_drop.
  destruct (Nat.eqb_spec (buffered_ s + k) 64) as [H64|H64].
  - apply (absorb_rest _ _ _ _ _ (bs ++ [splice (buffer_ s) (buffered_ s) (take k data)]));
      auto with lia; [apply Forall_app; auto| |by rewrite foldl_app, <-Hst].
    rewrite concat_app. simpl. rewrite !app_nil_r.
    rewrite H64, take_ge in Htake by lia. by rewrite Htake, Hm, app_assoc.
  - assert (k = length data) as Hkd
      by (subst k; destruct (Nat.ltb_spec (length data) (64 - buffered_ s)); lia).
    apply (absorb_rest _ _ _ _ _ bs); auto with lia.
    + right. apply drop_ge. lia.
    + by rewrite Htake, Hm, app_assoc.
Qed.

Lemma absorbed_buffered s m : absorbed s m → buffered_ s = (length m mod 64)%nat.
Proof.
  intros Hs. destruct (absorbed_blocks _ _ Hs) as (bs & Hbs & Hm & _).
  pose proof (absorbed_buffer _ _ Hs). pose proof (absorbed_room _ _ Hs).
  rewrite Hm, length_app, (length_concat_blocks _ Hbs), length_take.
  apply (Nat.mod_unique _ _ (length bs)); lia.
Qed.

Lemma chunks_concat fuel : ∀ bs,
  Forall (λ b, length b = 64%nat) bs → (length (concat bs) ≤ fuel)%nat →
  chunks fuel (concat bs) = bs.
Proof.
  induction fuel as [|fuel IH]; intros [|b bs] Hbs Hlen; try done;
    apply Forall_cons in Hbs as [Hb Hbs]; cbn [concat] in *; rewrite length_app in Hlen; [lia|].
  assert (take 64 (b ++ concat bs) = b) as Ht by by apply take_app_length'.
  assert (drop 64 (b ++ concat bs) = concat bs) as Hd
    by by apply drop_app_length'.
  destruct (b ++ concat bs) eqn:E; [destruct b; done|].
  cbn [chunks]. rewrite Ht, Hd, IH; [done|done|lia].
Qed.

Lemma length_padding n : (n < 64)%nat → ((n + length (padding n) + 8) mod 64 = 0)%nat.
Proof.
  intros Hn. do 64 (destruct n as [|n]; [by vm_compute|]). lia.
Qed.

Lemma pad_message_aligned m : (length (pad_message m) mod 64 = 0)%nat.
Proof.
  unfold pad_message. rewrite !length_app, length_be64.
  transitivity ((length m mod 64 + length (padding (length m mod 64)) + 8) mod 64)%nat;
    [|apply length_padding, Nat.mod_upper_bound; lia].
  by rewrite <-Nat.add_assoc, Nat.Div0.add_mod_idemp_l, Nat.add_assoc.
Qed.

Lemma finish_absorbed s m : absorbed s m → (finish s).1 = hash_blocks m.
Proof.
  intros Hs. unfold finish. rewrite (absorbed_open _ _ Hs), (absorbed_total _ _ Hs).
  rewrite (absorbed_buffered _ _ Hs).
  assert (wrap64 (size m mod 2 ^ 64 * 8) = wrap64 (size m * 8)) as ->
    by by rewrite !wrap64_mod, N.Div0.mul_mod_idemp_l.
  pose proof (update_absorbed _ _ (be64 (wrap64 (size m * 8)))
    (update_absorbed _ _ (padding (length m mod 64)) Hs)) as Ha.
  rewrite <-app_assoc in Ha. fold (pad_message m) in Ha.
  pose proof (absorbed_buffered _ _ Ha) as Hb. rewrite pad_message_aligned in Hb.
  destruct (absorbed_blocks _ _ Ha) as (bs & Hbs & Hm & Hst).
  rewrite Hb, take_0, app_nil_r in Hm. cbn [fst state_].
  unfold hash_blocks. by rewrite Hst, Hm, chunks_concat.
Qed.

Lemma foldl_update_absorbed parts : ∀ s m,
  absorbed s m → absorbed (foldl update s parts) (m ++ concat parts).
Proof.
  induction parts as [|p parts IH]; intros s m Hs; simpl; [by rewrite app_nil_r|].
  rewrite app_assoc. by apply IH, update_absorbed.
Qed.

Lemma hash_reference m : hash m = hash_blocks m.
Proof. apply finish_absorbed. apply (update_absorbed _ [] m), absorbed_init. Qed.

Lemma length_compress st b : length (compress st b) = 8%nat.
Proof. done. Qed.

Lemma length_state_digest st :
  length st = 8%nat → length (digest_bytes (state_digest st)) = kDigestSize.
Proof. intros. by do 9 (destruct st as [|? st]; try done). Qed.

Lemma length_hash m : length (digest_bytes (hash m)) = kDigestSize.
Proof.
  rewrite hash_reference. apply length_state_digest.
  generalize (chunks (length (pad_message m)) (pad_message m)) as bs.
  intros bs. induction bs as [|b bs IH] using rev_ind; [done|]. by rewrite foldl_app.
Qed.

(** ** The one-shot form is the standard's *)

(** *** Bytes as bits *)

Lemma message_of_cons b l : message_of (b :: l) = bits_of 8 (Byte.to_N b) ++ message_of l.
Proof. done. Qed.
Lemma message_of_app l k : message_of (l ++ k) = message_of l ++ message_of k.
Proof. apply bind_app. Qed.
Lemma length_message_of l : length (message_of l) = (8 * length l)%nat.
Proof. induction l as [|b l IH]; [done|]. rewrite message_of_cons, length_app, IH. simpl. lia. Qed.

Lemma take_message_of n l : take (8 * n) (message_of l) = message_of (take n l).
Proof.
  revert l. induction n as [|n IH]; intros [|b l]; try done.
  cbn [take]. rewrite !message_of_cons.
  replace (8 * S n)%nat with (length (bits_of 8 (Byte.to_N b)) + 8 * n)%nat by (simpl; lia).
  by rewrite take_app_add, IH.
Qed.
Lemma drop_message_of n l : drop (8 * n) (message_of l) = message_of (drop n l).
Proof.
  revert l. induction n as [|n IH]; intros [|b l]; try done.
  cbn [drop]. rewrite message_of_cons.
  replace (8 * S n)%nat with (length (bits_of 8 (Byte.to_N b)) + 8 * n)%nat by (simpl; lia).
  by rewrite drop_app_add, IH.
Qed.

Lemma number_of_byte n b :
  foldl (λ n b, 2 * n + N.b2n b) n (bits_of 8 (Byte.to_N b)) = 256 * n + Byte.to_N b.
Proof.
  destruct b; match goal with |- context [bits_of 8 ?x] =>
    let bits := eval vm_compute in (bits_of 8 x) in change (bits_of 8 x) with bits end;
  cbn [foldl N.b2n Byte.to_N]; lia.
Qed.

Lemma number_of_word a b c d :
  number_of (message_of [a; b; c; d]) = block_word [a; b; c; d] 0.
Proof.
  unfold number_of, block_word. cbn [nth Nat.mul Nat.add message_of mbind list_bind].
  rewrite app_nil_r, !foldl_app, !number_of_byte.
  pose proof (Byte_to_N_lt b). pose proof (Byte_to_N_lt c). pose proof (Byte_to_N_lt d).
  rewrite <-!N.lor_assoc, (lor_shiftl_add (Byte.to_N c)), (lor_shiftl_add (Byte.to_N b)),
    (lor_shiftl_add (Byte.to_N a)) by lia.
  lia.
Qed.

Lemma bits_of_shifted n s :
  bits_of 8 (Byte.to_N (to_byte (N.shiftr n s))) =
  (λ i, N.testbit n (i + s)) <$> [7; 6; 5; 4; 3; 2; 1; 0].
Proof.
  rewrite to_byte_to_N. change 256 with (2 ^ 8). unfold bits_of.
  change (seq 0 (N.to_nat 8)) with [0; 1; 2; 3; 4; 5; 6; 7]%nat. cbn [fmap list_fmap].
  rewrite !N.mod_pow2_bits_low by lia. by rewrite !N.shiftr_spec'.
Qed.
Lemma message_of_be32 n : message_of (be32 n) = bits_of 32 n.
Proof.
  unfold be32. rewrite <-(N.shiftr_0_r n) at 4.
  rewrite !message_of_cons, !bits_of_shifted. done.
Qed.
Lemma message_of_be64 n : message_of (be64 n) = bits_of 64 n.
Proof.
  unfold be64. cbn [seq fmap list_fmap]. rewrite !message_of_cons, !bits_of_shifted. done.
Qed.
Lemma bits_of_mod w n : bits_of w (n mod 2 ^ w) = bits_of w n.
Proof.
  unfold bits_of. apply list_fmap_ext. intros i x Hx.
  apply N.mod_pow2_bits_low. apply lookup_seq in Hx. lia.
Qed.
Lemma message_of_zeros n : message_of (replicate n x00) = replicate (8 * n) false.
Proof. induction n as [|n IH]; [done|]. cbn [replicate]. rewrite message_of_cons, IH.
  replace (8 * S n)%nat with (8 + 8 * n)%nat by lia. done. Qed.
Lemma padding_zeros n : (n < 64)%nat → padding n = x80 :: replicate (if (n <? 56)%nat then 55 - n else 119 - n) x00.
Proof. intros Hn. do 64 (destruct n as [|n]; [by vm_compute|]). lia. Qed.
Lemma message_of_padding l :
  message_of (padding (l mod 64)) = [true] ++ replicate (N.to_nat (zeros (8 * N.of_nat l))) false.
Proof.
  pose proof (Nat.mod_upper_bound l 64 ltac:(lia)).
  rewrite padding_zeros by done. rewrite message_of_cons, message_of_zeros.
  change (bits_of 8 (Byte.to_N x80)) with ([true] ++ replicate 7 false).
  rewrite <-app_assoc, <-replicate_add. do 2 f_equal. unfold zeros.
  destruct (Nat.ltb_spec (l mod 64) 56); lia.
Qed.
Lemma message_of_pad m : message_of (pad_message m) = padded (message_of m).
Proof.
  unfold pad_message, padded. rewrite !message_of_app, message_of_padding, message_of_be64.
  unfold size. rewrite length_message_of, Nat2N.inj_mul.
  replace (wrap64 (N.of_nat (length m) * 8)) with (wrap64 (N.of_nat 8 * N.of_nat (length m))) by (f_equal; lia).
  by rewrite wrap64_mod, bits_of_mod, <-app_assoc.
Qed.

(** *** The compression function *)

Lemma length_schedule_step w i : length (schedule_step w i) = S (length w).
Proof. unfold schedule_step. rewrite length_app. simpl. lia. Qed.
Lemma wrap32_mod n : wrap32 n = n mod 2 ^ 32.
Proof. apply (land_mask n 32). Qed.
Lemma rotr_ROTR x n : rotr x n = ROTR n x.
Proof. unfold rotr, ROTR. by rewrite wrap32_mod. Qed.
Lemma choose_Ch x y z : choose x y z = Ch x y z.
Proof. done. Qed.
Lemma majority_Maj x y z : majority x y z = Maj x y z.
Proof. done. Qed.
Lemma sigmas_fips x :
  big_sigma0 x = Sigma_0 x ∧ big_sigma1 x = Sigma_1 x ∧
  small_sigma0 x = sigma_0 x ∧ small_sigma1 x = sigma_1 x.
Proof.
  unfold big_sigma0, big_sigma1, small_sigma0, small_sigma1. rewrite !rotr_ROTR. done.
Qed.
Lemma schedule_step_extend w t : schedule_step w t = extend w t.
Proof.
  unfold schedule_step, extend. destruct (sigmas_fips (nth (t - 2) w 0)) as (_ & _ & _ & ->).
  destruct (sigmas_fips (nth (t - 15) w 0)) as (_ & _ & -> & _).
  rewrite wrap32_mod. unfold plus32. do 2 f_equal. 
  rewrite <-N.Div0.add_mod. f_equal. lia.
Qed.
Lemma constants_from_roots : kRoundConstants = K ∧ kInitialState = H_0.
Proof. by vm_compute. Qed.

Definition regs_list (r : Regs) : list N := [ra r; rb r; rc r; rd r; re r; rf r; rg r; rh r].

Lemma round_step W r t :
  regs_list (round r (nth t K 0, nth t W 0)) = variables_step W (regs_list r) t.
Proof.
  unfold round, regs_list. cbn [variables_step fst snd ra rb rc rd re rf rg rh].
  destruct (sigmas_fips (re r)) as (_ & -> & _). destruct (sigmas_fips (ra r)) as (-> & _).
  rewrite choose_Ch, majority_Maj, !wrap32_mod. unfold plus32.
  assert (∀ a b c d e, (((((a + b) mod 2 ^ 32 + c) mod 2 ^ 32 + d) mod 2 ^ 32 + e) mod 2 ^ 32) =
    (a + b + c + d + e) mod 2 ^ 32) as Hsum by (intros; by rewrite (N.Div0.add_mod_idemp_l (a + b)), (N.Div0.add_mod_idemp_l (a + b + c)), N.Div0.add_mod_idemp_l).
  by rewrite (Hsum (rh r)).
Qed.
Lemma foldl_zip_nth {A} (f : A → N * N → A) ks : ∀ ws r,
  length ws = length ks →
  foldl f r (zip ks ws) = foldl (λ r t, f r (nth t ks 0, nth t ws 0)) r (seq 0 (length ks)).
Proof.
  induction ks as [|k ks IH]; intros [|w ws] r Hlen; try done.
  cbn [zip zip_with foldl length seq nth]. rewrite IH by (simpl in Hlen; lia).
  rewrite <-seq_shift. clear IH Hlen. generalize (f r (k, w)).
  induction (seq 0 (length ks)) as [|t l IHl]; intros a; [done|]. apply IHl.
Qed.

Lemma rounds_steps W l : ∀ r,
  regs_list (foldl (λ r t, round r (nth t K 0, nth t W 0)) r l) =
  foldl (variables_step W) (regs_list r) l.
Proof.
  induction l as [|t l IH]; intros r; [done|]. cbn [foldl]. by rewrite IH, round_step.
Qed.

Lemma length_schedule block : length (schedule block) = 64%nat.
Proof.
  unfold schedule. change 64%nat with (length (block_word block <$> seq 0 16) + length (seq 16 48))%nat.
  generalize (block_word block <$> seq 0 16).
  induction (seq 16 48) as [|t l IH]; intros w; cbn [foldl length]; [lia|].
  rewrite IH, length_schedule_step. lia.
Qed.

Lemma length_fips_K : length K = 64%nat.
Proof. by vm_compute. Qed.

(** One block through the compression function is one round of the standard. *)
Lemma compress_next_hash P i block H :
  length H = 8%nat → (block_word block <$> seq 0 16) = (M_ P i <$> seq 0 16) →
  compress H block = next_hash P H i.
Proof.
  intros HH Hwords. unfold next_hash.
  assert (schedule block = W_ P i) as HW.
  { unfold schedule, W_. rewrite Hwords. generalize (M_ P i <$> seq 0 16).
    induction (seq 16 48) as [|t l IH]; intros w; [done|]. cbn [foldl]. 
    by rewrite schedule_step_extend. }
  do 8 (destruct H as [|? H]; [discriminate HH|]). destruct H; [clear HH|discriminate HH].
  unfold compress. rewrite (proj1 constants_from_roots).
  rewrite foldl_zip_nth by (rewrite length_schedule; symmetry; apply length_fips_K).
  rewrite HW, length_fips_K. generalize (W_ P i). clear. intros W.
  set (r0 := {| ra := _ |}).
  set (r := foldl _ r0 _). 
  assert (foldl (variables_step W) (regs_list r0) (seq 0 64) = regs_list r) as Hr.
  { subst r. symmetry. apply rounds_steps. }
  change [n; n0; n1; n2; n3; n4; n5; n6] with (regs_list r0). rewrite Hr.
  cbn [regs_list zip_with nth]. rewrite !wrap32_mod. unfold plus32. 
  by rewrite !(N.add_comm (_ r) (_ r0)).
Qed.

(** *** The blocks *)

(** The words of a block of a byte string. *)
Lemma word_of_bytes l j : (4 * j + 4 ≤ length l)%nat →
  number_of (message_of (take 4 (drop (4 * j) l))) = block_word l j.
Proof.
  intros Hj. assert (4 ≤ length (drop (4 * j) l))%nat as Hl by (rewrite length_drop; lia).
  assert (block_word l j = block_word (drop (4 * j) l) 0) as ->.
  { unfold block_word. cbv zeta. by rewrite !nth_skipn, (Nat.mul_comm j 4). }
  destruct (drop (4 * j) l) as [|a [|b [|c [|d k]]]]; simpl in Hl; try lia.
  apply number_of_word.
Qed.

(** The words of block [i] of a string of blocks. *)
Lemma block_words bs b ks : length b = 64%nat → Forall (λ b, length b = 64%nat) bs →
  (block_word b <$> seq 0 16) =
  (M_ (message_of (concat (bs ++ b :: ks))) (length bs) <$> seq 0 16).
Proof.
  intros Hb Hbs. apply list_fmap_ext. intros j x Hx. apply lookup_seq in Hx as [-> Hx].
  unfold M_. rewrite <-word_of_bytes by lia.
  replace (512 * length bs + 32 * (0 + j))%nat with (8 * (64 * length bs + 4 * j))%nat by lia.
  rewrite drop_message_of, (take_message_of 4).
  rewrite concat_app, <-(length_concat_blocks _ Hbs), drop_app_add. cbn [concat Nat.add].
  rewrite drop_app_le, take_app_le by (rewrite ?length_drop; lia). done.
Qed.

Lemma blocks_next_hash bs : ∀ pre H,
  Forall (λ b, length b = 64%nat) (pre ++ bs) → length H = 8%nat →
  foldl compress H bs =
  foldl (next_hash (message_of (concat (pre ++ bs)))) H (seq (length pre) (length bs)).
Proof.
  induction bs as [|b bs IH]; intros pre H Hall HH; [done|].
  cbn [foldl length seq]. rewrite (IH (pre ++ [b])) by (by rewrite <-?app_assoc).
  rewrite <-app_assoc, length_app, Nat.add_1_r. cbn [app]. 
  apply Forall_app in Hall as [Hpre [Hb _]%Forall_cons].
  f_equal. apply compress_next_hash; [done|]. by apply block_words.
Qed.

Lemma message_of_words st : message_of (flat_map be32 st) = st ≫= bits_of 32.
Proof.
  induction st as [|h st IH]; [done|]. cbn [flat_map]. by rewrite message_of_app, message_of_be32, IH.
Qed.
Lemma length_compressed bs H : length H = 8%nat → length (foldl compress H bs) = 8%nat.
Proof. intros HH. by destruct bs as [|b bs _] using rev_ind; [|rewrite foldl_app]. Qed.

(** The one-shot form computes the standard's function. *)
Lemma hash_blocks_fips m :
  message_of (digest_bytes (hash_blocks m)) = SHA256 (message_of m).
Proof.
  unfold hash_blocks, SHA256. rewrite <-message_of_pad.
  assert (∃ bs, Forall (λ b, length b = 64%nat) bs ∧ pad_message m = concat bs) as (bs & Hbs & ->).
  { pose proof (pad_message_aligned m) as Hal.
    destruct (compress_all (length (pad_message m)) [] (pad_message m)) as [st rest] eqn:Hc.
    apply compress_all_spec in Hc as (bs & Hbs & Hm & Hrest & _); [|done].
    exists bs. split; [done|]. rewrite Hm, length_app, (length_concat_blocks _ Hbs) in Hal.
    destruct rest; [by rewrite Hm, app_nil_r|]. exfalso.
    rewrite Nat.add_comm, Nat.mul_comm, Nat.Div0.mod_add, Nat.mod_small in Hal by lia.
    simpl in Hal. lia. }
  rewrite chunks_concat, length_message_of, (length_concat_blocks _ Hbs) by done.
  replace (8 * (64 * length bs))%nat with (length bs * 512)%nat by lia.
  rewrite Nat.div_mul by done. cbn [digest_bytes state_digest].
  rewrite message_of_words, take_ge by (by rewrite length_compressed).
  rewrite (blocks_next_hash bs [] kInitialState Hbs eq_refl), (proj2 constants_from_roots). done.
Qed.

(** C40: the streaming hash object computes the SHA-256 of FIPS 180-4 on the
    concatenation of the updates, whatever the sizes of the pieces (empty ones, pieces
    that end inside a block and pieces longer than a block): read as bits, the digest
    is what the standard, written out in Fips on bit strings with its own padding,
    schedule and constants (from the roots of the primes), says of the message.  It has
    32 bytes, and a second [finish] returns the same.  The standard defines messages of
    less than 2^64 bits; of a longer one both take the length modulo 2^64. *)
Theorem stream_hash_correct (parts : list (list byte)) :
  message_of (digest_bytes (stream_hash parts)) = SHA256 (message_of (concat parts)) ∧
  length (digest_bytes (stream_hash parts)) = 32%nat ∧
  stream_hash parts = hash (concat parts) ∧
  (finish (finish (foldl update Sha256_init parts)).2).1 = stream_hash parts.
Proof.
  pose proof (finish_absorbed _ _ (foldl_update_absorbed parts _ _ absorbed_init)) as Hf.
  assert (stream_hash parts = hash (concat parts)) as Hh by by rewrite hash_reference.
  split_and!; [by rewrite Hh, hash_reference, hash_blocks_fips|by rewrite Hh, length_hash|done|].
  unfold stream_hash, finish.
  destruct (finished_ (foldl update Sha256_init parts)) eqn:E; cbn [snd finished_]; [by rewrite E|done].
Qed.

(** Test vectors of the standard: the empty message and "abc". *)
Example hash_empty :
  Digest_to_hex (hash_string "") =
    "e3b0c44298fc1c149afbf4c8996fb92427ae41e4649b934ca495991b7852b855"%string.
Proof. by vm_compute. Qed.
Example hash_abc :
  Digest_to_hex (hash_string "abc") =
    "ba7816bf8f01cfea414140de5dae2223b00361a396177a9cb410ff61f20015ad"%string.
Proof. by vm_compute. Qed.
