(* ===== verification/Text.v ===== *)
(** * Text validation and escaping

    Models src/text.cpp over the bytes of a string.  The multi-byte branch the
    source repeats in [utf8_is_valid], [utf8_sanitize] and [json_escape] is
    [sequence_at].  The reference notion of well-formed UTF-8 is "an encoding of
    Unicode scalar values by [append_utf8]"; the reference reader of a JSON
    string literal is [json_read]. *)

From S2P Require Import Prelude.

Definition bytes_of (s : string) : list byte := String.list_byte_of_string s.

Definition kReplacement : N := 0xFFFD.
Definition kMaxCodePoint : N := 0x10FFFF.

Definition is_surrogate (cp : N) : bool := (0xD800 <=? cp) && (cp <=? 0xDFFF).

Definition append_utf8 (cp : N) : list byte :=
  if cp <=? 0x7F then [to_byte cp]
  else if cp <=? 0x7FF then
    [to_byte (N.lor 0xC0 (N.shiftr cp 6)); to_byte (N.lor 0x80 (N.land cp 0x3F))]
  else if cp <=? 0xFFFF then
    [to_byte (N.lor 0xE0 (N.shiftr cp 12));
     to_byte (N.lor 0x80 (N.land (N.shiftr cp 6) 0x3F));
     to_byte (N.lor 0x80 (N.land cp 0x3F))]
  else
    [to_byte (N.lor 0xF0 (N.shiftr cp 18));
     to_byte (N.lor 0x80 (N.land (N.shiftr cp 12) 0x3F));
     to_byte (N.lor 0x80 (N.land (N.shiftr cp 6) 0x3F));
     to_byte (N.lor 0x80 (N.land cp 0x3F))].

Definition kDigits : list byte := bytes_of "0123456789abcdef".

(** [kDigits[(cp >> shift) & 0x0F]] for shift 12, 8, 4, 0. *)
Definition append_codepoint_hex (cp : N) : list byte :=
  bytes_of "\u" ++
  ((λ shift, nth (N.to_nat (N.land (N.shiftr cp shift) 0x0F)) kDigits x00) <$> [12; 8; 4; 0]).

(** Number of continuation bytes, initial bits and least code point. *)
Definition lead_byte (byte : N) : option (nat * N * N) :=
  if N.land byte 0xE0 =? 0xC0 then Some (1%nat, N.land byte 0x1F, 0x80)
  else if N.land byte 0xF0 =? 0xE0 then Some (2%nat, N.land byte 0x0F, 0x800)
  else if N.land byte 0xF8 =? 0xF0 then Some (3%nat, N.land byte 0x07, 0x10000)
  else None.

Fixpoint continuation (cp : N) (conts : list byte) : option N :=
  match conts with
  | [] => Some cp
  | cont :: conts =>
      let cont := Byte.to_N cont in
      if negb (N.land cont 0xC0 =? 0x80) then None
      else continuation (N.lor (N.shiftl cp 6) (N.land cont 0x3F)) conts
  end.

(** The multi-byte sequence at the head of [rest] (the text from offset [i]):
    the number of continuation bytes when it is valid. *)
Definition sequence_at (rest : list byte) : option nat :=
  match rest with
  | [] => None
  | byte :: tl =>
      match lead_byte (Byte.to_N byte) with
      | None => None
      | Some (extra, cp, minimum) =>
          if (length rest <=? extra)%nat then None
          else match continuation cp (take extra tl) with
               | None => None
               | Some cp =>
                   if (cp <? minimum) || (kMaxCodePoint <? cp) || is_surrogate cp
                   then None else Some extra
               end
      end
  end.

(** The three scanning loops: every iteration consumes a byte, so the length
    of the text is enough fuel. *)
Fixpoint utf8_is_valid_loop (fuel : nat) (rest : list byte) : bool :=
  match fuel, rest with
  | S fuel, byte :: tl =>
      if Byte.to_N byte <=? 0x7F then utf8_is_valid_loop fuel tl
      else match sequence_at rest with
           | None => false
           | Some extra => utf8_is_valid_loop fuel (drop (extra + 1) rest)
           end
  | _, _ => true
  end.
Definition utf8_is_valid (text : list byte) : bool := utf8_is_valid_loop (length text) text.

Fixpoint utf8_sanitize_loop (fuel : nat) (rest : list byte) : list byte :=
  match fuel, rest with
  | S fuel, byte :: tl =>
      if Byte.to_N byte <=? 0x7F then byte :: utf8_sanitize_loop fuel tl
      else match sequence_at rest with
           | None => append_utf8 kReplacement ++ utf8_sanitize_loop fuel tl
           | Some extra => take (extra + 1) rest ++ utf8_sanitize_loop fuel (drop (extra + 1) rest)
           end
  | _, _ => []
  end.
Definition utf8_sanitize (text : list byte) : list byte := utf8_sanitize_loop (length text) text.

(** One character of [escape_for_display]: \n, \r, \t, \\ and the controls. *)
Definition display_char (b : byte) : list byte :=
  let c := Byte.to_N b in
  if c =? 10 then bytes_of "\n"
  else if c =? 13 then bytes_of "\r"
  else if c =? 9 then bytes_of "\t"
  else if c =? 92 then bytes_of "\\"
  else if (c <? 0x20) || (c =? 0x7F) then append_codepoint_hex c
  else [b].
Definition escape_for_display (text : list byte) : list byte :=
  let out := flat_map display_char text in
  if utf8_is_valid out then out else utf8_sanitize out.

(** The ASCII cases of [json_escape]. *)
Definition json_char (b : byte) : list byte :=
  let c := Byte.to_N b in
  if c =? 34 then [x5c; x22]
  else if c =? 92 then bytes_of "\\"
  else if c =? 10 then bytes_of "\n"
  else if c =? 13 then bytes_of "\r"
  else if c =? 9 then bytes_of "\t"
  else if c =? 8 then bytes_of "\b"
  else if c =? 12 then bytes_of "\f"
  else if c <? 0x20 then append_codepoint_hex c
  else [b].
Fixpoint json_escape_loop (fuel : nat) (rest : list byte) : list byte :=
  match fuel, rest with
  | S fuel, byte :: tl =>
      if Byte.to_N byte <? 0x80 then json_char byte ++ json_escape_loop fuel tl
      else match sequence_at rest with
           | None => append_utf8 kReplacement ++ json_escape_loop fuel tl
           | Some extra => take (extra + 1) rest ++ json_escape_loop fuel (drop (extra + 1) rest)
           end
  | _, _ => []
  end.
Definition json_escape (text : list byte) : list byte :=
  x22 :: json_escape_loop (length text) text ++ [x22].

(** ** Reference definitions *)

(** A Unicode scalar value. *)
Definition is_scalar (cp : N) : bool := (cp <=? kMaxCodePoint) && negb (is_surrogate cp).

Definition utf8_encode (cps : list N) : list byte := flat_map append_utf8 cps.

Definition hex_value (b : byte) : option N :=
  let c := Byte.to_N b in
  if (48 <=? c) && (c <=? 57) then Some (c - 48)
  else if (97 <=? c) && (c <=? 102) then Some (c - 87)
  else None.

(** Reads the rest of a JSON string literal after its opening quote: the text,
    and the input after the literal. *)
Definition read_more (p : list byte) (r : list byte * list byte) : list byte * list byte :=
  (p ++ r.1, r.2).
Fixpoint json_read_tail (fuel : nat) (l : list byte) : option (list byte * list byte) :=
  match fuel, l with
  | S fuel, b :: l =>
      if Byte.to_N b =? 34 then Some ([], l)
      else if Byte.to_N b <? 0x20 then None
      else if Byte.to_N b =? 92 then
        match l with
        | x6e :: l => read_more [x0a] <$> json_read_tail fuel l
        | x72 :: l => read_more [x0d] <$> json_read_tail fuel l
        | x74 :: l => read_more [x09] <$> json_read_tail fuel l
        | x62 :: l => read_more [x08] <$> json_read_tail fuel l
        | x66 :: l => read_more [x0c] <$> json_read_tail fuel l
        | x22 :: l => read_more [x22] <$> json_read_tail fuel l
        | x5c :: l => read_more [x5c] <$> json_read_tail fuel l
        | x75 :: a :: b :: c :: d :: l =>
            match hex_value a, hex_value b, hex_value c, hex_value d with
            | Some a, Some b, Some c, Some d =>
                read_more (append_utf8 (a * 4096 + b * 256 + c * 16 + d)) <$> json_read_tail fuel l
            | _, _, _, _ => None
            end
        | _ => None
        end
      else read_more [b] <$> json_read_tail fuel l
  | _, _ => None
  end.
Definition json_read (l : list byte) : option (list byte) :=
  match l with
  | x22 :: l => match json_read_tail (length l) l with Some (text, []) => Some text | _ => None end
  | _ => None
  end.

(** ** Arithmetic of the encoding *)

Lemma lead_byte_arith (b : byte) :
  lead_byte (Byte.to_N b) =
    let n := Byte.to_N b in
    if (192 <=? n) && (n <? 224) then Some (1%nat, n - 192, 0x80)
    else if (224 <=? n) && (n <? 240) then Some (2%nat, n - 224, 0x800)
    else if (240 <=? n) && (n <? 248) then Some (3%nat, n - 240, 0x10000)
    else None.
Proof. by destruct b. Qed.

Lemma continuation_cons cp (b : byte) conts :
  continuation cp (b :: conts) =
    (if (128 <=? Byte.to_N b) && (Byte.to_N b <? 192)
     then continuation (cp * 64 + (Byte.to_N b - 128)) conts else None).
Proof.
  simpl.
  assert (negb (N.land (Byte.to_N b) 0xC0 =? 0x80) =
          negb ((128 <=? Byte.to_N b) && (Byte.to_N b <? 192))) as -> by by destruct b.
  destruct ((128 <=? Byte.to_N b) && (Byte.to_N b <? 192)) eqn:E; [|done]. simpl.
  assert (N.land (Byte.to_N b) 0x3F = Byte.to_N b - 128) as -> by by destruct b.
  rewrite lor_shiftl_add; [done|]. change (2 ^ 6) with 64. lia.
Qed.

Lemma land_3F n : N.land n 0x3F = n mod 64.
Proof. apply (land_mask n 6). Qed.

Lemma lor_cont n : N.lor 0x80 (N.land n 0x3F) = 128 + n mod 64.
Proof.
  rewrite land_3F. change 0x80 with (N.shiftl 2 6). rewrite lor_shiftl_add; [done|].
  apply N.mod_upper_bound. done.
Qed.

Lemma append_utf8_1 cp : cp < 0x80 → append_utf8 cp = [to_byte cp].
Proof. intros. unfold append_utf8. destruct (N.leb_spec cp 0x7F); [done|lia]. Qed.
Lemma append_utf8_2 cp :
  0x80 ≤ cp → cp < 0x800 →
  append_utf8 cp = [to_byte (192 + cp / 64); to_byte (128 + cp mod 64)].
Proof.
  intros. unfold append_utf8. destruct (N.leb_spec cp 0x7F); [lia|].
  destruct (N.leb_spec cp 0x7FF); [|lia].
  rewrite lor_cont, N.shiftr_div_pow2. change 0xC0 with (N.shiftl 6 5) at 1.
  rewrite lor_shiftl_add; [done|]. apply N.Div0.div_lt_upper_bound. done.
Qed.
Lemma append_utf8_3 cp :
  0x800 ≤ cp → cp < 0x10000 →
  append_utf8 cp =
    [to_byte (224 + cp / 4096); to_byte (128 + cp / 64 mod 64); to_byte (128 + cp mod 64)].
Proof.
  intros. unfold append_utf8. destruct (N.leb_spec cp 0x7F); [lia|].
  destruct (N.leb_spec cp 0x7FF); [lia|]. destruct (N.leb_spec cp 0xFFFF); [|lia].
  rewrite !lor_cont, !N.shiftr_div_pow2. change 0xE0 with (N.shiftl 14 4) at 1.
  rewrite lor_shiftl_add; [done|]. apply N.Div0.div_lt_upper_bound. done.
Qed.
Lemma append_utf8_4 cp :
  0x10000 ≤ cp → cp < 0x200000 →
  append_utf8 cp =
    [to_byte (240 + cp / 262144); to_byte (128 + cp / 4096 mod 64);
     to_byte (128 + cp / 64 mod 64); to_byte (128 + cp mod 64)].
Proof.
  intros. unfold append_utf8. destruct (N.leb_spec cp 0x7F); [lia|].
  destruct (N.leb_spec cp 0x7FF); [lia|]. destruct (N.leb_spec cp 0xFFFF); [lia|].
  rewrite !lor_cont, !N.shiftr_div_pow2. change 0xF0 with (N.shiftl 30 3) at 1.
  rewrite lor_shiftl_add; [done|]. apply N.Div0.div_lt_upper_bound. done.
Qed.

#[local] Ltac Zify.zify_post_hook ::= Z.div_mod_to_equations.

Lemma scalar_cases cp :
  is_scalar cp = true →
  cp < 0x80 ∨ (0x80 ≤ cp ∧ cp < 0x800) ∨ (0x800 ≤ cp ∧ cp < 0xD800) ∨
  (0xE000 ≤ cp ∧ cp < 0x10000) ∨ (0x10000 ≤ cp ∧ cp < 0x110000).
Proof. unfold is_scalar, is_surrogate, kMaxCodePoint. intros. lia. Qed.

(** [sequence_at] recognises exactly the encodings of the scalar values above
    the ASCII range. *)
Lemma sequence_at_encode cp k :
  is_scalar cp = true → 0x80 ≤ cp →
  sequence_at (append_utf8 cp ++ k) = Some (length (append_utf8 cp) - 1)%nat.
Proof.
  intros Hs Hlo. apply scalar_cases in Hs as [?|[?|[?|[?|?]]]]; [lia|..].
  1: rewrite append_utf8_2 by lia. 2-3: rewrite append_utf8_3 by lia. 4: rewrite append_utf8_4 by lia.
  all: unfold sequence_at; cbn [app]; rewrite lead_byte_arith, to_byte_small by lia; cbv zeta.
  all: repeat match goal with |- context [if (?a <=? ?b) && (?c <? ?d) then Some _ else _] =>
         destruct ((a <=? b) && (c <? d)) eqn:?; [try lia|try lia] end.
  all: cbn [length take]; rewrite !continuation_cons; rewrite !to_byte_small by lia.
  all: repeat match goal with |- context [if (?a <=? ?b) && (?c <? ?d) then _ else _] =>
         replace ((a <=? b) && (c <? d)) with true by lia end.
  all: cbn [continuation]; unfold is_surrogate, kMaxCodePoint.
  all: repeat match goal with |- context [if (?a <=? ?b)%nat then _ else _] =>
         destruct (Nat.leb_spec a b); [lia|] end.
  all: rewrite take_0; cbn [continuation]; match goal with |- context [if ?b then _ else _] => replace b with false by lia end; done.
Qed.

Lemma sequence_at_Some rest extra :
  sequence_at rest = Some extra →
  ∃ cp, is_scalar cp = true ∧ 0x80 ≤ cp ∧ append_utf8 cp = take (extra + 1) rest.
Proof.
  destruct rest as [|b0 tl]; [done|]. unfold sequence_at. rewrite lead_byte_arith. cbv zeta.
  unfold is_scalar, is_surrogate, kMaxCodePoint.
  destruct (_ && _) eqn:E0; [|clear E0; destruct (_ && _) eqn:E0; [|clear E0; destruct (_ && _) eqn:E0; [|done]]];
    cbn [length]; intros Hx.
  all: match type of Hx with context [if (?a <=? ?b)%nat then _ else _] =>
         destruct (Nat.leb_spec a b) as [|Hlen]; [done|] end.
  1: destruct tl as [|b1 tl]; cbn [length] in Hlen; [lia|].
  2: destruct tl as [|b1 [|b2 tl]]; cbn [length] in Hlen; [lia..|].
  3: destruct tl as [|b1 [|b2 [|b3 tl]]]; cbn [length] in Hlen; [lia..|].
  all: cbn [take] in Hx; rewrite !continuation_cons in Hx; rewrite ?take_0 in Hx; cbn [continuation] in Hx.
  all: repeat match type of Hx with context [if ?b then continuation _ _ else _] => fail
    | context [match (if ?b then _ else None) with _ => _ end] => destruct b eqn:?; [|done] end.
  all: match type of Hx with (if (?cp <? _) || _ || _ then _ else _) = _ => exists cp end.
  all: match type of Hx with (if ?b then _ else _) = _ => destruct b eqn:?; [done|] end.
  all: injection Hx as <-; rewrite ?append_utf8_2, ?append_utf8_3, ?append_utf8_4 by lia.
  all: split_and!; [lia|lia|cbn [Nat.add take]; rewrite ?take_0; repeat f_equal; apply to_byte_eq; lia].
Qed.

Lemma append_utf8_shape cp :
  is_scalar cp = true → 0x80 ≤ cp →
  ∃ b p, append_utf8 cp = b :: p ∧ Forall (λ b, 128 ≤ Byte.to_N b) (b :: p).
Proof.
  intros Hs Hlo. apply scalar_cases in Hs as [?|[?|[?|[?|?]]]]; [lia|..].
  all: rewrite ?append_utf8_2, ?append_utf8_3, ?append_utf8_4 by lia.
  all: eexists _, _; split; [done|]; repeat constructor; rewrite to_byte_small; lia.
Qed.

(** What a scanning loop sees at the head of a text: an ASCII byte, a valid
    multi-byte sequence, or neither. *)
Inductive head_view : list byte → Prop :=
  | view_ascii b tl : Byte.to_N b < 128 → head_view (b :: tl)
  | view_sequence cp tl : is_scalar cp = true → 128 ≤ cp →
      sequence_at (append_utf8 cp ++ tl) = Some (length (append_utf8 cp) - 1)%nat →
      head_view (append_utf8 cp ++ tl)
  | view_invalid b tl : 128 ≤ Byte.to_N b → sequence_at (b :: tl) = None → head_view (b :: tl).

Lemma head_view_cons rest : rest ≠ [] → head_view rest.
Proof.
  destruct rest as [|b tl]; [done|intros _].
  destruct (N.lt_ge_cases (Byte.to_N b) 128) as [|Hb]; [by apply view_ascii|].
  destruct (sequence_at (b :: tl)) as [extra|] eqn:E; [|by apply view_invalid].
  apply sequence_at_Some in E as (cp & Hs & Hlo & Happ).
  rewrite <-(take_drop (extra + 1) (b :: tl)), <-Happ.
  apply view_sequence; [done|done|]. by apply sequence_at_encode.
Qed.

Ltac destruct_view :=
  match goal with
  | H : ?rest ≠ [] |- _ =>
      let Hv := fresh "Hview" in
      pose proof (head_view_cons rest H) as Hv; clear H;
      inversion Hv as [b tl Hb Heq|cp tl Hs Hlo Hseq Heq|b tl Hb Hseq Heq]; clear Hv; subst rest
  end.

(** Every loop steps over a valid sequence whole. *)
Lemma drop_sequence cp tl :
  is_scalar cp = true → 128 ≤ cp →
  drop (length (append_utf8 cp) - 1 + 1) (append_utf8 cp ++ tl) = tl ∧
  take (length (append_utf8 cp) - 1 + 1) (append_utf8 cp ++ tl) = append_utf8 cp.
Proof.
  intros Hs Hlo. destruct (append_utf8_shape cp Hs Hlo) as (b & p & Hbp & _).
  replace (length (append_utf8 cp) - 1 + 1)%nat with (length (append_utf8 cp))
    by (rewrite Hbp; simpl; lia).
  by rewrite drop_app_length, take_app_length.
Qed.

Lemma utf8_is_valid_loop_sequence fuel cp tl :
  is_scalar cp = true → 128 ≤ cp →
  utf8_is_valid_loop (S fuel) (append_utf8 cp ++ tl) = utf8_is_valid_loop fuel tl.
Proof.
  intros Hs Hlo. destruct (append_utf8_shape cp Hs Hlo) as (b & p & Hbp & Hhigh).
  pose proof (sequence_at_encode cp tl Hs Hlo) as Hseq.
  pose proof (drop_sequence cp tl Hs Hlo) as [Hdrop _].
  rewrite Hbp in *. cbn [app] in *. cbn [utf8_is_valid_loop].
  apply Forall_cons in Hhigh as [Hb _]. destruct (N.leb_spec (Byte.to_N b) 0x7F); [lia|].
  by rewrite Hseq, Hdrop.
Qed.
Lemma utf8_sanitize_loop_sequence fuel cp tl :
  is_scalar cp = true → 128 ≤ cp →
  utf8_sanitize_loop (S fuel) (append_utf8 cp ++ tl) = append_utf8 cp ++ utf8_sanitize_loop fuel tl.
Proof.
  intros Hs Hlo. destruct (append_utf8_shape cp Hs Hlo) as (b & p & Hbp & Hhigh).
  pose proof (sequence_at_encode cp tl Hs Hlo) as Hseq.
  pose proof (drop_sequence cp tl Hs Hlo) as [Hdrop Htake].
  rewrite Hbp in *. cbn [app] in *. cbn [utf8_sanitize_loop].
  apply Forall_cons in Hhigh as [Hb _]. destruct (N.leb_spec (Byte.to_N b) 0x7F); [lia|].
  by rewrite Hseq, Htake, Hdrop.
Qed.
Lemma json_escape_loop_sequence fuel cp tl :
  is_scalar cp = true → 128 ≤ cp →
  json_escape_loop (S fuel) (append_utf8 cp ++ tl) = append_utf8 cp ++ json_escape_loop fuel tl.
Proof.
  intros Hs Hlo. destruct (append_utf8_shape cp Hs Hlo) as (b & p & Hbp & Hhigh).
  pose proof (sequence_at_encode cp tl Hs Hlo) as Hseq.
  pose proof (drop_sequence cp tl Hs Hlo) as [Hdrop Htake].
  rewrite Hbp in *. cbn [app] in *. cbn [json_escape_loop].
  apply Forall_cons in Hhigh as [Hb _]. destruct (N.ltb_spec (Byte.to_N b) 0x80); [lia|].
  by rewrite Hseq, Htake, Hdrop.
Qed.

Lemma append_utf8_byte b : Byte.to_N b < 128 → append_utf8 (Byte.to_N b) = [b].
Proof. intros. by rewrite append_utf8_1, to_byte_of_byte. Qed.
Lemma is_scalar_byte b : Byte.to_N b < 128 → is_scalar (Byte.to_N b) = true.
Proof. unfold is_scalar, is_surrogate, kMaxCodePoint. lia. Qed.

Lemma append_utf8_nonempty cp : append_utf8 cp ≠ [].
Proof. unfold append_utf8. by repeat case_match. Qed.

Lemma utf8_is_valid_loop_sound fuel : ∀ rest,
  (length rest ≤ fuel)%nat → utf8_is_valid_loop fuel rest = true →
  ∃ cps, Forall (λ cp, is_scalar cp = true) cps ∧ rest = utf8_encode cps.
Proof.
  induction fuel as [|fuel IH]; intros rest Hlen Hv;
    (destruct (decide (rest = [])) as [->|Hne]; [by exists []|]); [destruct rest; simpl in *; [done|lia]|].
  destruct_view.
  - cbn [utf8_is_valid_loop] in Hv. destruct (N.leb_spec (Byte.to_N b) 0x7F); [|lia].
    apply IH in Hv as (cps & Hcps & ->); [|simpl in Hlen; lia].
    exists (Byte.to_N b :: cps). split; [constructor; [by apply is_scalar_byte|done]|].
    unfold utf8_encode; simpl. by rewrite append_utf8_byte.
  - rewrite utf8_is_valid_loop_sequence in Hv by done. pose proof (append_utf8_nonempty cp).
    apply IH in Hv as (cps & Hcps & ->);
      [|rewrite length_app in Hlen; destruct (append_utf8 cp); simpl in *; [done|lia]].
    exists (cp :: cps). by split; [constructor|].
  - cbn [utf8_is_valid_loop] in Hv. destruct (N.leb_spec (Byte.to_N b) 0x7F); [lia|].
    by rewrite Hseq in Hv.
Qed.

(** On an encoding, validation succeeds and the sanitiser is the identity. *)
Lemma scan_encode cps : ∀ fuel,
  Forall (λ cp, is_scalar cp = true) cps → (length (utf8_encode cps) ≤ fuel)%nat →
  utf8_is_valid_loop fuel (utf8_encode cps) = true ∧
  utf8_sanitize_loop fuel (utf8_encode cps) = utf8_encode cps.
Proof.
  induction cps as [|cp cps IH]; intros fuel Hcps Hlen; [by destruct fuel|].
  apply Forall_cons in Hcps as [Hcp Hcps]. unfold utf8_encode in *; simpl in *.
  rewrite length_app in Hlen. pose proof (append_utf8_nonempty cp).
  destruct fuel as [|fuel]; [destruct (append_utf8 cp); [done|simpl in Hlen; lia]|].
  assert (length (flat_map append_utf8 cps) ≤ fuel)%nat as Hfuel
    by (destruct (append_utf8 cp); [done|simpl in Hlen; lia]).
  destruct (IH fuel Hcps Hfuel) as [IHv IHs].
  destruct (N.lt_ge_cases cp 128) as [Hlt|Hge].
  - rewrite append_utf8_1 by done. cbn [app utf8_is_valid_loop utf8_sanitize_loop].
    rewrite to_byte_small by lia. destruct (N.leb_spec cp 0x7F); [by rewrite IHv, IHs|lia].
  - by rewrite utf8_is_valid_loop_sequence, utf8_sanitize_loop_sequence, IHv, IHs.
Qed.

Lemma utf8_sanitize_loop_encodes fuel : ∀ rest, ∃ cps,
  Forall (λ cp, is_scalar cp = true) cps ∧ utf8_sanitize_loop fuel rest = utf8_encode cps.
Proof.
  induction fuel as [|fuel IH]; intros rest; [by exists []|].
  destruct (decide (rest = [])) as [->|Hne]; [by exists []|].
  destruct_view.
  - cbn [utf8_sanitize_loop]. destruct (N.leb_spec (Byte.to_N b) 0x7F); [|lia].
    destruct (IH tl) as (cps & Hcps & ->). exists (Byte.to_N b :: cps).
    split; [constructor; [by apply is_scalar_byte|done]|].
    unfold utf8_encode; simpl. by rewrite append_utf8_byte.
  - rewrite utf8_sanitize_loop_sequence by done. destruct (IH tl) as (cps & Hcps & ->).
    exists (cp :: cps). by split; [constructor|].
  - cbn [utf8_sanitize_loop]. destruct (N.leb_spec (Byte.to_N b) 0x7F); [lia|]. rewrite Hseq.
    destruct (IH tl) as (cps & Hcps & ->). exists (kReplacement :: cps). by split; [constructor|].
Qed.

(** [utf8_is_valid] accepts exactly the encodings of Unicode scalar values:
    no overlong form, no surrogate half, nothing above U+10FFFF and no
    truncated sequence. *)
Theorem utf8_is_valid_spec (text : list byte) :
  utf8_is_valid text = true ↔
  ∃ cps, Forall (λ cp, is_scalar cp = true) cps ∧ text = utf8_encode cps.
Proof.
  split; [by apply utf8_is_valid_loop_sound|].
  intros (cps & Hcps & ->). by apply scan_encode.
Qed.

(** Sanitising always produces valid text, leaves valid text alone and is
    idempotent. *)
Theorem utf8_sanitize_correct (text : list byte) :
  utf8_is_valid (utf8_sanitize text) = true ∧
  (utf8_sanitize text = text ↔ utf8_is_valid text = true) ∧
  utf8_sanitize (utf8_sanitize text) = utf8_sanitize text.
Proof.
  assert (∀ t, utf8_is_valid (utf8_sanitize t) = true) as Hvalid.
  { intros t. destruct (utf8_sanitize_loop_encodes (length t) t) as (cps & Hcps & Heq).
    unfold utf8_sanitize, utf8_is_valid. rewrite Heq. by apply scan_encode. }
  assert (∀ t, utf8_is_valid t = true → utf8_sanitize t = t) as Hid.
  { intros t Ht. apply utf8_is_valid_loop_sound in Ht as (cps & Hcps & ->); [|done].
    by apply scan_encode. }
  split_and!; [done| |by apply Hid].
  split; [|apply Hid]. intros Heq. rewrite <-Heq. apply Hvalid.
Qed.

Lemma json_char_read (b : byte) fuel l :
  Byte.to_N b < 128 →
  json_read_tail (S fuel) (json_char b ++ l) = read_more [b] <$> json_read_tail fuel l.
Proof. intros Hb. destruct b; try (exfalso; vm_compute in Hb; discriminate Hb); reflexivity. Qed.

Lemma json_read_high p : ∀ fuel l,
  Forall (λ b, 128 ≤ Byte.to_N b) p →
  json_read_tail (length p + fuel) (p ++ l) = read_more p <$> json_read_tail fuel l.
Proof.
  induction p as [|b p IH]; intros fuel l Hp;
    [cbn [length Nat.add app]; by destruct (json_read_tail fuel l) as [[]|]|].
  apply Forall_cons in Hp as [Hb Hp].
  assert (json_read_tail (length (b :: p) + fuel) ((b :: p) ++ l) =
          read_more [b] <$> json_read_tail (length p + fuel) (p ++ l)) as ->.
  { cbn [length Nat.add app json_read_tail].
    destruct (N.eqb_spec (Byte.to_N b) 34); [lia|]. destruct (N.ltb_spec (Byte.to_N b) 32); [lia|].
    destruct (N.eqb_spec (Byte.to_N b) 92); [lia|done]. }
  rewrite IH by done. by destruct (json_read_tail fuel l) as [[]|].
Qed.

Lemma append_utf8_high cp :
  is_scalar cp = true → 128 ≤ cp → Forall (λ b, 128 ≤ Byte.to_N b) (append_utf8 cp).
Proof. intros Hs Hlo. by destruct (append_utf8_shape cp Hs Hlo) as (b & p & -> & ?). Qed.

Lemma json_char_nonempty b : ∃ c s, json_char b = c :: s.
Proof. by destruct b; eexists _, _. Qed.

Lemma json_read_escape_loop fuel after : ∀ rest fuel',
  (length rest ≤ fuel)%nat →
  (length (json_escape_loop fuel rest) < fuel')%nat →
  json_read_tail fuel' (json_escape_loop fuel rest ++ x22 :: after) =
    Some (utf8_sanitize_loop fuel rest, after).
Proof.
  induction fuel as [|fuel IH]; intros rest fuel' Hlen Hlen'.
  { destruct rest; [|simpl in Hlen; lia]. destruct fuel'; [simpl in Hlen'; lia|done]. }
  destruct (decide (rest = [])) as [->|Hne].
  { destruct fuel'; [simpl in Hlen'; lia|done]. }
  destruct_view.
  - cbn [json_escape_loop utf8_sanitize_loop length] in *.
    destruct (N.ltb_spec (Byte.to_N b) 0x80); [|lia]. destruct (N.leb_spec (Byte.to_N b) 0x7F); [|lia].
    rewrite <-app_assoc. destruct (json_char_nonempty b) as (c & s & Hj).
    destruct fuel' as [|fuel']; [rewrite Hj in Hlen'; simpl in Hlen'; lia|].
    rewrite json_char_read by done. rewrite IH; [done|lia|].
    rewrite length_app, Hj in Hlen'; simpl in Hlen'; lia.
  - rewrite json_escape_loop_sequence in * by done. rewrite utf8_sanitize_loop_sequence by done.
    rewrite <-app_assoc. pose proof (append_utf8_nonempty cp).
    rewrite length_app in Hlen, Hlen'.
    replace fuel' with (length (append_utf8 cp) + (fuel' - length (append_utf8 cp)))%nat by lia.
    rewrite json_read_high, IH; [done| |lia|by apply append_utf8_high].
    destruct (append_utf8 cp); simpl in *; [done|lia].
  - cbn [json_escape_loop utf8_sanitize_loop length] in *.
    destruct (N.ltb_spec (Byte.to_N b) 0x80); [lia|]. destruct (N.leb_spec (Byte.to_N b) 0x7F); [lia|].
    rewrite Hseq in *. rewrite <-app_assoc. rewrite length_app in Hlen'.
    replace fuel' with (length (append_utf8 kReplacement) + (fuel' - length (append_utf8 kReplacement)))%nat by lia.
    rewrite json_read_high, IH; [done|lia|lia|by apply append_utf8_high].
Qed.


(** The sanitiser adds no byte below 128. *)
Lemma utf8_sanitize_loop_low (P : byte → Prop) fuel : ∀ rest,
  Forall P rest → (∀ b, 128 ≤ Byte.to_N b → P b) → Forall P (utf8_sanitize_loop fuel rest).
Proof.
  induction fuel as [|fuel IH]; intros rest Hrest Hhigh; [constructor|].
  destruct (decide (rest = [])) as [->|Hne]; [constructor|]. destruct_view.
  - cbn [utf8_sanitize_loop]. destruct (N.leb_spec (Byte.to_N b) 0x7F); [|lia].
    apply Forall_cons in Hrest as [? ?]. constructor; auto.
  - rewrite utf8_sanitize_loop_sequence by done. apply Forall_app in Hrest as [? ?].
    apply Forall_app; auto.
  - cbn [utf8_sanitize_loop]. destruct (N.leb_spec (Byte.to_N b) 0x7F); [lia|]. rewrite Hseq.
    apply Forall_cons in Hrest as [? ?]. apply Forall_app. split; [|auto].
    eapply Forall_impl; [by apply append_utf8_high|]. done.
Qed.

(** A JSON string literal written by [json_escape] reads back, by the
    reference reader, as the sanitised text: quotes, backslashes and control
    characters are all escaped and invalid bytes become U+FFFD. *)
Theorem json_escape_reads_back (text : list byte) :
  json_read (json_escape text) = Some (utf8_sanitize text).
Proof.
  unfold json_read, json_escape. cbv iota.
  rewrite (json_read_escape_loop (length text) []); [done|done|]. rewrite length_app. cbn. lia.
Qed.

Definition printable (b : byte) : Prop := 32 ≤ Byte.to_N b ∧ Byte.to_N b ≠ 127.

(** What [escape_for_display] returns is valid UTF-8 on one line: it holds
    no control character, whatever bytes the text had. *)
Theorem escape_for_display_safe (text : list byte) :
  utf8_is_valid (escape_for_display text) = true ∧ Forall printable (escape_for_display text).
Proof.
  assert (Forall printable (flat_map display_char text)) as Hout.
  { induction text as [|b text IH]; [constructor|]. simpl. apply Forall_app. split; [|done].
    unfold printable. destruct b; apply (bool_decide_unpack _); by vm_compute. }
  unfold escape_for_display. destruct (utf8_is_valid (flat_map display_char text)) eqn:E; [done|].
  split; [apply (proj1 (utf8_sanitize_correct _))|].
  apply utf8_sanitize_loop_low; [done|]. unfold printable. lia.
Qed.
