(* ===== verification/Codec.v ===== *)
(** * The binary codec

    Models src/codec.cpp and include/fabric_federation/codec.hpp.  A [Writer]
    only appends, and a caller abandons it on the first failed call, so an
    operation of it is the bytes it appends or its failure.  A [Reader] is its
    unread bytes: an operation returns its value with the bytes left.  [Codec]
    and [CodecLaws] are the interface every record of the model implements:
    what a writer produced, a reader returns, followed by whatever was written
    next. *)

From S2P Require Import Prelude Errors Sha256 Text.

(** ** Writers and readers *)

Notation Enc := (Result (list byte)).
Definition Dec (A : Type) : Type := list byte → Result (A * list byte).

(** Two writes in sequence. *)
Definition enc_app (a b : Enc) : Enc := x ← a; y ← b; Ok (x ++ y).
Notation "a >+> b" := (enc_app a b) (at level 60, right associativity).
Definition enc_nil : Enc := Ok [].

#[export] Instance Dec_ret : MRet Dec := λ A a l, Ok (a, l).
#[export] Instance Dec_bind : MBind Dec := λ A B k m l,
  match m l with Ok (a, l) => k a l | Err s => Err s end.

(** A check that consumes nothing. *)
Definition dec_lift {A} (r : Result A) : Dec A := λ l, a ← r; Ok (a, l).
Definition dec_fail {A} (c : ErrorCode.t) (m : string) : Dec A := λ _, fail c m.
Definition dec_check (bad : bool) (c : ErrorCode.t) (m : string) : Dec unit :=
  dec_lift (fail_if bad c m).
(** A decoded tag, range-checked by the cast to its enumeration. *)
Definition dec_enum {A} `{WireEnum A} (v : N) (c : ErrorCode.t) (m : string) : Dec A :=
  match enum_of v with Some a => mret a | None => dec_fail c m end.

Fixpoint dec_repeat {A} (n : nat) (d : Dec A) : Dec (list A) :=
  match n with
  | O => mret []
  | S n => a ← d; l ← dec_repeat n d; mret (a :: l)
  end.
Fixpoint enc_each {A} (f : A → Enc) (l : list A) : Enc :=
  match l with
  | [] => enc_nil
  | a :: l => f a >+> enc_each f l
  end.

(** ** Little-endian integers *)

Definition store_le (k : nat) (value : N) : list byte :=
  (λ i, to_byte (N.land (N.shiftr value (N.of_nat i * 8)) 0xff)) <$> seq 0 k.
Definition load_le (k : nat) (data : list byte) : N :=
  foldl (λ value i, N.lor value (N.shiftl (Byte.to_N (nth i data x00)) (N.of_nat i * 8)))
        0 (seq 0 k).

Module Writer.
Definition u8 (value : N) : Enc := Ok [to_byte value].
Definition u16 (value : N) : Enc := Ok (store_le 2 value).
Definition u32 (value : N) : Enc := Ok (store_le 4 value).
Definition u64 (value : N) : Enc := Ok (store_le 8 value).
Definition boolean (value : bool) : Enc := u8 (if value then 1 else 0).
Definition raw (data : list byte) : Enc :=
  fail_if (kMaxJournalRecordBytes <? size data) ErrorCode.BoundsExceeded
          "raw payload exceeds the record bound";; Ok data.
Definition digest (value : Digest) : Enc := Ok (digest_bytes value).
Definition id16 (value : list byte) : Enc := Ok value.
Definition bytes (data : list byte) (max_bytes : N) : Enc :=
  fail_if (max_bytes <? size data) ErrorCode.BoundsExceeded
          "byte string exceeds the encoding bound";;
  match narrow_u32 (size data) with
  | None => fail ErrorCode.Overflow "byte string length does not fit a 32-bit prefix"
  | Some length => u32 length >+> Ok data
  end.
Definition text (value : string) (max_bytes : N) : Enc :=
  fail_if (max_bytes <? str_size value) ErrorCode.BoundsExceeded
          "text exceeds the encoding bound";;
  fail_if (negb (utf8_is_valid (bytes_of value))) ErrorCode.InvalidArgument
          "text is not valid UTF-8";;
  match narrow_u32 (str_size value) with
  | None => fail ErrorCode.Overflow "text length does not fit a 32-bit prefix"
  | Some length => u32 length >+> Ok (bytes_of value)
  end.
Definition identifier (value : string) : Enc := text value kMaxIdentifierLength.
Definition count (value max_count : N) : Enc :=
  fail_if (max_count <? value) ErrorCode.BoundsExceeded
          "collection count exceeds the encoding bound";;
  match narrow_u32 value with
  | None => fail ErrorCode.Overflow "collection count does not fit a 32-bit prefix"
  | Some narrowed => u32 narrowed
  end.
End Writer.

Module Reader.
(** [Reader::take], with the bytes it guards and the bytes after them. *)
Definition take (count : N) : Dec (list byte) := λ l,
  if size l <? count then fail ErrorCode.Truncated "payload ended before the declared length"
  else Ok (firstn (N.to_nat count) l, skipn (N.to_nat count) l).
Definition u8 : Dec N := l ← take 1; mret (Byte.to_N (nth 0 l x00)).
Definition u16 : Dec N := l ← take 2; mret (load_le 2 l).
Definition u32 : Dec N := l ← take 4; mret (load_le 4 l).
Definition u64 : Dec N := l ← take 8; mret (load_le 8 l).
Definition boolean : Dec bool :=
  value ← u8;
  dec_check (1 <? value) ErrorCode.Corrupt "boolean field is neither 0 nor 1";;
  mret (value =? 1).
Definition digest : Dec Digest := l ← take 32; mret (mkDigest l).
Definition id16 : Dec (list byte) := take 16.
Definition bytes (max_bytes : N) : Dec (list byte) :=
  count ← u32;
  dec_check (max_bytes <? count) ErrorCode.BoundsExceeded
            "declared byte-string length exceeds the bound";;
  take count.
Definition text (max_bytes : N) : Dec string :=
  raw ← bytes max_bytes;
  dec_check (negb (utf8_is_valid raw)) ErrorCode.InvalidArgument
            "decoded text is not valid UTF-8";;
  mret (String.string_of_list_byte raw).
Definition identifier : Dec string := text kMaxIdentifierLength.
Definition count (max_count : N) : Dec N :=
  value ← u32;
  dec_check (max_count <? value) ErrorCode.BoundsExceeded
            "declared collection count exceeds the bound";;
  mret value.
(** [expect_end] after a decoder: the whole input must be consumed. *)
Definition expect_end {A} (r : Result (A * list byte)) : Result A :=
  p ← r;
  fail_if (negb (length p.2 =? 0)%nat) ErrorCode.Corrupt
          "trailing bytes after the canonical payload";;
  Ok p.1.
End Reader.

(** ** The codec interface *)

(** A value with a canonical encoding; [wire_ok] holds of the values the C++
    type can hold (widths of integers, sizes of arrays). *)
Class Codec (A : Type) := {
  encode : A → Enc;
  decode : Dec A;
  wire_ok : A → Prop
}.
#[export] Hint Mode Codec ! : typeclass_instances.

Class CodecLaws (A : Type) `{Codec A} : Prop :=
  roundtrip : ∀ (a : A) bs rest,
    wire_ok a → encode a = Ok bs → decode (bs ++ rest) = Ok (a, rest).
#[export] Hint Mode CodecLaws ! - : typeclass_instances.

(** [Writer writer; encode(writer); writer.bytes()] and
    [Reader reader(bytes); decode(reader); reader.expect_end()]. *)
Definition decode_exact {A} `{Codec A} (l : list byte) : Result A := Reader.expect_end (decode l).

(** ** Reading back the primitives *)

Lemma enc_app_Ok (a b : Enc) bs :
  (a >+> b) = Ok bs ↔ ∃ x y, a = Ok x ∧ b = Ok y ∧ bs = x ++ y.
Proof. unfold enc_app. destruct a, b; simpl; naive_solver. Qed.

Lemma dec_bind_Ok {A B} (m : Dec A) (k : A → Dec B) l a l' :
  m l = Ok (a, l') → (m ≫= k) l = k a l'.
Proof. unfold mbind, Dec_bind. by intros ->. Qed.
Lemma dec_check_Ok {B} bad c m (k : unit → Dec B) l :
  bad = false → (dec_check bad c m ≫= k) l = k tt l.
Proof. by intros ->. Qed.
Lemma dec_enum_wire {A B} `{WireEnum A} (a : A) c m (k : A → Dec B) l :
  (dec_enum (wire a) c m ≫= k) l = k a l.
Proof. unfold dec_enum. by rewrite enum_of_wire. Qed.
Lemma dec_enum_bad {A B} `{WireEnum A} v c m (k : A → Dec B) l :
  enum_of (A:=A) v = None → (dec_enum v c m ≫= k) l = fail c m.
Proof. unfold dec_enum. by intros ->. Qed.

(** Inversion of a successful decoder step. *)
Lemma dec_bind_inv {A B} (m : Dec A) (k : A → Dec B) l r :
  (m ≫= k) l = Ok r ↔ ∃ a l', m l = Ok (a, l') ∧ k a l' = Ok r.
Proof. unfold mbind, Dec_bind. destruct (m l) as [[a l']|]; naive_solver. Qed.

Lemma take_read x rest n :
  size x = n → Reader.take n (x ++ rest) = Ok (x, rest).
Proof.
  unfold Reader.take, size. intros <-.
  destruct (N.ltb_spec (N.of_nat (length (x ++ rest))) (N.of_nat (length x)));
    [rewrite length_app in *; lia|].
  by rewrite Nat2N.id, take_app_length, drop_app_length.
Qed.

Lemma store_le_byte value i :
  Byte.to_N (to_byte (N.land (N.shiftr value i) 0xff)) = value / 2 ^ i mod 256.
Proof.
  rewrite to_byte_to_N. change 0xff with (N.ones 8). rewrite land_mask, N.shiftr_div_pow2.
  change (2 ^ 8) with 256. apply N.Div0.mod_mod.
Qed.

Lemma load_le_store k value : load_le k (store_le k value) = value mod 2 ^ (8 * N.of_nat k).
Proof.
  unfold load_le.
  assert (∀ j, (j ≤ k)%nat →
    foldl (λ v i, N.lor v (N.shiftl (Byte.to_N (nth i (store_le k value) x00)) (N.of_nat i * 8)))
          0 (seq 0 j) = value mod 2 ^ (8 * N.of_nat j)) as Hj; [|by apply Hj].
  induction j as [|j IH]; intros Hle.
  { change (8 * N.of_nat 0) with 0. by rewrite N.pow_0_r, N.mod_1_r. }
  rewrite seq_S, foldl_app, IH by lia. cbn [foldl Nat.add].
  assert (Byte.to_N (nth j (store_le k value) x00) = value / 2 ^ (8 * N.of_nat j) mod 256) as ->.
  { erewrite nth_lookup_Some; [apply store_le_byte|]. unfold store_le.
    rewrite list_lookup_fmap, lookup_seq_lt by lia. simpl. do 4 f_equal. lia. }
  rewrite N.lor_comm. replace (N.of_nat j * 8) with (8 * N.of_nat j) by lia.
  set (k8 := 8 * N.of_nat j).
  rewrite lor_shiftl_add by (apply N.mod_upper_bound, N.pow_nonzero; lia).
  replace (8 * N.of_nat (S j)) with (k8 + 8) by (subst k8; lia).
  rewrite N.pow_add_r, N.Div0.mod_mul_r. change (2 ^ 8) with 256. lia.
Qed.

Lemma length_store_le k value : length (store_le k value) = k.
Proof. unfold store_le. by rewrite length_fmap, length_seq. Qed.

Lemma read_u8 n bs rest : n < 256 → Writer.u8 n = Ok bs → Reader.u8 (bs ++ rest) = Ok (n, rest).
Proof.
  unfold Writer.u8. intros Hn [= <-]. unfold Reader.u8.
  erewrite dec_bind_Ok by by apply take_read. simpl. by rewrite to_byte_small.
Qed.
Lemma read_le k n rest :
  n < 2 ^ (8 * N.of_nat k) →
  (l ← Reader.take (N.of_nat k); mret (load_le k l)) (store_le k n ++ rest) = Ok (n, rest).
Proof.
  intros Hn. erewrite dec_bind_Ok by (apply take_read; unfold size; by rewrite length_store_le).
  by rewrite load_le_store, N.mod_small.
Qed.
Lemma read_u16 n bs rest :
  n ≤ u16_max → Writer.u16 n = Ok bs → Reader.u16 (bs ++ rest) = Ok (n, rest).
Proof. intros Hn [= <-]. apply (read_le 2). unfold u16_max in Hn. by apply N.lt_succ_r in Hn. Qed.
Lemma read_u32 n bs rest :
  n ≤ u32_max → Writer.u32 n = Ok bs → Reader.u32 (bs ++ rest) = Ok (n, rest).
Proof. intros Hn [= <-]. apply (read_le 4). unfold u32_max in Hn. by apply N.lt_succ_r in Hn. Qed.
Lemma read_u64 n bs rest :
  n ≤ u64_max → Writer.u64 n = Ok bs → Reader.u64 (bs ++ rest) = Ok (n, rest).
Proof. intros Hn [= <-]. apply (read_le 8). unfold u64_max in Hn. by apply N.lt_succ_r in Hn. Qed.
Lemma read_boolean b bs rest :
  Writer.boolean b = Ok bs → Reader.boolean (bs ++ rest) = Ok (b, rest).
Proof.
  intros Hb. unfold Reader.boolean.
  erewrite dec_bind_Ok by (apply read_u8; [|exact Hb]; by destruct b). by destruct b.
Qed.
Lemma read_digest d bs rest :
  length (digest_bytes d) = kDigestSize →
  Writer.digest d = Ok bs → Reader.digest (bs ++ rest) = Ok (d, rest).
Proof.
  intros Hd [= <-]. unfold Reader.digest.
  erewrite dec_bind_Ok by (apply take_read; unfold size; by rewrite Hd). by destruct d.
Qed.
Lemma read_id16 x bs rest :
  length x = 16%nat → Writer.id16 x = Ok bs → Reader.id16 (bs ++ rest) = Ok (x, rest).
Proof. intros Hx [= <-]. apply take_read. unfold size. by rewrite Hx. Qed.

Lemma narrow_u32_Some v w : narrow_u32 v = Some w → w = v ∧ v ≤ u32_max.
Proof.
  unfold narrow_u32. destruct (N.ltb_spec u32_max v) as [|Hv]; [done|]. intros [= <-].
  split; [|done]. apply N.mod_small. unfold u32_max in Hv. by apply N.lt_succ_r in Hv.
Qed.

Lemma read_count n max bs rest :
  Writer.count n max = Ok bs → Reader.count max (bs ++ rest) = Ok (n, rest).
Proof.
  unfold Writer.count. rewrite bind_Ok. intros ([] & Hmax & Hbs). apply fail_if_Ok in Hmax.
  destruct (narrow_u32 n) eqn:Hn; [|done]. apply narrow_u32_Some in Hn as [-> Hn].
  unfold Reader.count. erewrite dec_bind_Ok by by apply read_u32.
  by rewrite dec_check_Ok.
Qed.

Lemma size_bytes_of s : size (bytes_of s) = str_size s.
Proof.
  unfold size, str_size, bytes_of, String.list_byte_of_string. rewrite length_map. f_equal.
  induction s; simpl; by f_equal.
Qed.
Lemma string_bytes_of s : String.string_of_list_byte (bytes_of s) = s.
Proof. apply String.string_of_list_byte_of_string. Qed.

Lemma read_bytes x max bs rest :
  Writer.bytes x max = Ok bs → Reader.bytes max (bs ++ rest) = Ok (x, rest).
Proof.
  unfold Writer.bytes. rewrite bind_Ok. intros ([] & Hmax & Hbs). apply fail_if_Ok in Hmax.
  destruct (narrow_u32 (size x)) eqn:Hn; [|done]. apply narrow_u32_Some in Hn as [-> Hn].
  apply enc_app_Ok in Hbs as (y & z & Hy & [= <-] & ->). rewrite <-app_assoc.
  unfold Reader.bytes. erewrite dec_bind_Ok by by apply read_u32.
  rewrite dec_check_Ok by done. by apply take_read.
Qed.
Lemma read_text s max bs rest :
  Writer.text s max = Ok bs → Reader.text max (bs ++ rest) = Ok (s, rest).
Proof.
  unfold Writer.text. rewrite bind_Ok. intros ([] & Hmax & Hbs).
  apply bind_Ok in Hbs as ([] & Hutf & Hbs). apply fail_if_Ok in Hmax, Hutf.
  unfold Reader.text. erewrite dec_bind_Ok.
  2: { apply (read_bytes (bytes_of s)). unfold Writer.bytes. rewrite size_bytes_of, Hmax.
       destruct (narrow_u32 (str_size s)); [exact Hbs|done]. }
  rewrite dec_check_Ok by done. by rewrite string_bytes_of.
Qed.
Lemma read_identifier s bs rest :
  Writer.identifier s = Ok bs → Reader.identifier (bs ++ rest) = Ok (s, rest).
Proof. apply read_text. Qed.

(** A counted sequence: [writer.count(n, max)] and the elements, read by a loop
    that stops at the first failure. *)
Lemma read_repeat {A} (f : A → Enc) (d : Dec A) (ok : A → Prop) l :
  (∀ a bs rest, a ∈ l → ok a → f a = Ok bs → d (bs ++ rest) = Ok (a, rest)) →
  ∀ bs rest, Forall ok l → enc_each f l = Ok bs →
    dec_repeat (length l) d (bs ++ rest) = Ok (l, rest).
Proof.
  intros Hf. induction l as [|a l IH]; intros bs rest Hok; simpl; [by intros [= <-]|].
  apply Forall_cons in Hok as [Ha Hok]. rewrite enc_app_Ok. intros (x & y & Hx & Hy & ->).
  rewrite <-app_assoc. erewrite dec_bind_Ok by (apply Hf; [left|done|done]).
  erewrite dec_bind_Ok by (apply IH; [intros; apply Hf; [by right|done|done]|done|done]). done.
Qed.

Definition enc_list {A} (max : N) (f : A → Enc) (l : list A) : Enc :=
  Writer.count (size l) max >+> enc_each f l.
Definition dec_list {A} (max : N) (d : Dec A) : Dec (list A) :=
  n ← Reader.count max; dec_repeat (N.to_nat n) d.

Lemma read_list {A} `{CodecLaws A} max (l : list A) bs rest :
  Forall wire_ok l → enc_list max encode l = Ok bs →
  dec_list max decode (bs ++ rest) = Ok (l, rest).
Proof.
  intros Hok Hbs. apply enc_app_Ok in Hbs as (x & y & Hx & Hy & ->). rewrite <-app_assoc.
  unfold dec_list. erewrite dec_bind_Ok by by apply read_count.
  unfold size. rewrite Nat2N.id. eapply read_repeat; [|done|done].
  intros a bs' rest' _. apply roundtrip.
Qed.

Lemma decode_exact_encode {A} `{CodecLaws A} (a : A) bs :
  wire_ok a → encode a = Ok bs → decode_exact bs = Ok a.
Proof.
  intros Hok Hbs. unfold decode_exact. rewrite <-(app_nil_r bs).
  by rewrite (roundtrip a bs []).
Qed.

(** [Writer writer; ... return writer.sha256();], with the default digest when
    the encoding fails. *)
Definition digest_of (e : Enc) : Digest :=
  match e with Ok bs => hash bs | Err _ => Digest_zero end.

Lemma length_digest_of e : length (digest_bytes (digest_of e)) = kDigestSize.
Proof. destruct e; [apply length_hash|done]. Qed.

(** ** Automation for records

    [split_enc] takes a successful encoding apart into its fields; [read_fields]
    runs the decoder over them, field by field, with the laws in [codec]. *)
Create HintDb codec.
Lemma wire_lt_256 {A} `{WireEnum A} (a : A) :
  bool_decide (size (enum_all (A:=A)) ≤ 256) = true → wire a < 256.
Proof. intros Hs%bool_decide_eq_true. pose proof (wire_bound a). lia. Qed.

Lemma wire_le_u16 {A} `{WireEnum A} (a : A) :
  bool_decide (size (enum_all (A:=A)) ≤ u16_max) = true → wire a ≤ u16_max.
Proof. intros Hs%bool_decide_eq_true. pose proof (wire_bound a). lia. Qed.

#[export] Hint Extern 1 (CodecLaws _) => apply _ : codec.
#[export] Hint Extern 1 (wire _ ≤ u16_max) => by apply wire_le_u16 : codec.
#[export] Hint Extern 1 (wire _ < 256) => by apply wire_lt_256 : codec.

(** The same laws with the written field first, so that a search finds the
    value before it looks for its width. *)
Lemma field_u8 n bs rest : Writer.u8 n = Ok bs → n < 256 → Reader.u8 (bs ++ rest) = Ok (n, rest).
Proof. intros ? ?. by apply read_u8. Qed.
Lemma field_u16 n bs rest :
  Writer.u16 n = Ok bs → n ≤ u16_max → Reader.u16 (bs ++ rest) = Ok (n, rest).
Proof. intros ? ?. by apply read_u16. Qed.
Lemma field_u32 n bs rest :
  Writer.u32 n = Ok bs → n ≤ u32_max → Reader.u32 (bs ++ rest) = Ok (n, rest).
Proof. intros ? ?. by apply read_u32. Qed.
Lemma field_u64 n bs rest :
  Writer.u64 n = Ok bs → n ≤ u64_max → Reader.u64 (bs ++ rest) = Ok (n, rest).
Proof. intros ? ?. by apply read_u64. Qed.
Lemma field_digest d bs rest :
  Writer.digest d = Ok bs → length (digest_bytes d) = kDigestSize →
  Reader.digest (bs ++ rest) = Ok (d, rest).
Proof. intros ? ?. by apply read_digest. Qed.
Lemma field_id16 x bs rest :
  Writer.id16 x = Ok bs → length x = 16%nat → Reader.id16 (bs ++ rest) = Ok (x, rest).
Proof. intros ? ?. by apply read_id16. Qed.
Lemma field_list {A} `{CodecLaws A} max (l : list A) bs rest :
  enc_list max encode l = Ok bs → Forall wire_ok l →
  dec_list max decode (bs ++ rest) = Ok (l, rest).
Proof. intros ? ?. by apply read_list. Qed.
Lemma field_record {A} `{CodecLaws A} (a : A) bs rest :
  encode a = Ok bs → wire_ok a → decode (bs ++ rest) = Ok (a, rest).
Proof. intros ? ?. by apply roundtrip. Qed.
#[export] Hint Resolve field_u8 field_u16 field_u32 field_u64 field_digest field_id16
  field_list field_record read_boolean read_count read_bytes read_text read_identifier : codec.

Ltac split_enc :=
  repeat match goal with
    | H : (_ >+> _) = Ok _ |- _ => apply enc_app_Ok in H as (? & ? & ? & ? & ->)
    | H : enc_nil = Ok _ |- _ => injection H as <-
    | H : mbind _ (fail_if _ _ _) = Ok _ |- _ =>
        let Hf := fresh "Hguard" in
        apply bind_Ok in H as ([] & Hf & H); apply fail_if_Ok in Hf
    end.
Ltac read_fields :=
  rewrite <-?app_assoc; cbn [app];
  repeat first
    [ rewrite dec_check_Ok by (first [done|assumption|lia])
    | rewrite dec_enum_wire
    | erewrite dec_bind_Ok by (solve [eauto with codec]) ].
