(* ===== verification/Ids.v ===== *)
(** * Identifiers and monotone counters

    Models include/fabric_federation/ids.hpp and src/ids.cpp.  The phantom tag
    types of the templates are the index of [BasicId] and [BasicCounter], so a
    member identifier is not a federation identifier and an epoch is not a
    tick.  [BasicId::random] draws on the platform's entropy source and is not
    modelled. *)

From S2P Require Import Prelude Errors Sha256 Text Codec.

(** ** 128-bit identifiers *)

Inductive IdTag :=
  | FederationIdTag | MemberIdTag | FabricDomainIdTag | NodeIdTag
  | LeaseIdTag | EvidenceIdTag | RequestIdTag | LineageIdTag.

Definition prefix (t : IdTag) : string :=
  match t with
  | FederationIdTag => "fed" | MemberIdTag => "mbr" | FabricDomainIdTag => "dom"
  | NodeIdTag => "nod" | LeaseIdTag => "lea" | EvidenceIdTag => "evd"
  | RequestIdTag => "req" | LineageIdTag => "lin"
  end.

Record BasicId (t : IdTag) := mkId { id_bytes : list byte }.
Arguments mkId {t} _.
Arguments id_bytes {t} _.

Notation FederationId := (BasicId FederationIdTag).
Notation MemberId := (BasicId MemberIdTag).
Notation FabricDomainId := (BasicId FabricDomainIdTag).
Notation NodeId := (BasicId NodeIdTag).
Notation LeaseId := (BasicId LeaseIdTag).
Notation EvidenceId := (BasicId EvidenceIdTag).
Notation RequestId := (BasicId RequestIdTag).
Notation LineageId := (BasicId LineageIdTag).

#[export] Instance BasicId_eq_dec t : EqDecision (BasicId t).
Proof. solve_decision. Defined.
#[export] Instance id_bytes_inj t : Inj (=) (=) (@id_bytes t).
Proof. by intros [?] [?] [= ->]. Qed.
(** [operator<] compares the byte arrays. *)
#[export] Instance BasicId_cmp t : Cmp (BasicId t) := cmp_on id_bytes.
#[export] Instance BasicId_cmp_laws t : CmpLaws (BasicId t) := cmp_on_laws id_bytes.

(** [BasicId()]: sixteen zero bytes. *)
Definition nil_id {t} : BasicId t := mkId (replicate 16 x00).
Definition is_nil {t} (i : BasicId t) : bool := is_zero_bytes (id_bytes i).

(** The hex digits of one byte, and the text of an identifier. *)
Definition kHexDigits : list byte := bytes_of "0123456789abcdef".
Definition hex_pair (b : byte) : list byte :=
  let digit n := nth (N.to_nat (N.land n 0x0f)) kHexDigits x00 in
  [digit (N.shiftr (Byte.to_N b) 4); digit (Byte.to_N b)].
Definition format_id (prefix : list byte) (bytes : list byte) : list byte :=
  prefix ++ [x2d] ++ flat_map hex_pair bytes.

(** [hex_nibble], with [None] for the -1 it returns off the alphabet. *)
Definition hex_nibble (b : byte) : option N :=
  let c := Byte.to_N b in
  if (48 <=? c) && (c <=? 57) then Some (c - 48)
  else if (97 <=? c) && (c <=? 102) then Some (c - 97 + 10)
  else None.

(** [text[i]] for an index the guards keep in range. *)
Definition char_at (text : list byte) (i : nat) : byte := nth i text x00.

Definition parse_id (text expected_prefix : list byte) : option (list byte) :=
  let n := length expected_prefix in
  if negb (length text =? n + 1 + 32)%nat then None
  else if negb (bool_decide (take n text = expected_prefix)) then None
  else if negb (bool_decide (char_at text n = x2d)) then None
  else mapM (λ i,
         match hex_nibble (char_at text (n + 1 + i * 2)), hex_nibble (char_at text (n + 2 + i * 2)) with
         | Some hi, Some lo => Some (to_byte (N.lor (N.shiftl hi 4) lo))
         | _, _ => None
         end) (seq 0 16).

Definition id_to_bytes {t} (i : BasicId t) : list byte := format_id (bytes_of (prefix t)) (id_bytes i).
Definition id_to_string {t} (i : BasicId t) : string := String.string_of_list_byte (id_to_bytes i).
Definition id_parse t (text : string) : option (BasicId t) :=
  mkId <$> parse_id (bytes_of text) (bytes_of (prefix t)).

(** [BasicId::derive]: the first sixteen bytes of
    SHA-256(prefix | "|derive|" | seed | counter). *)
Definition derive t (seed : string) (counter : N) : BasicId t :=
  let h := foldl update Sha256_init
             [bytes_of (prefix t); bytes_of "|derive|"; bytes_of seed; store_le 8 counter] in
  mkId (take 16 (digest_bytes (finish h).1)).

(** ** Counters *)

Inductive CounterTag := GenerationTag | IncarnationTag | EpochTag | TickTag | LineageTag.

Record BasicCounter (t : CounterTag) := mkCounter { value : N }.
Arguments mkCounter {t} _.
Arguments value {t} _.

Notation Generation := (BasicCounter GenerationTag).
Notation Incarnation := (BasicCounter IncarnationTag).
Notation Epoch := (BasicCounter EpochTag).
Notation Tick := (BasicCounter TickTag).
Notation Lineage := (BasicCounter LineageTag).

#[export] Instance BasicCounter_eq_dec t : EqDecision (BasicCounter t).
Proof. solve_decision. Defined.
#[export] Instance value_inj t : Inj (=) (=) (@value t).
Proof. by intros [?] [?] [= ->]. Qed.
#[export] Instance BasicCounter_cmp t : Cmp (BasicCounter t) := cmp_on value.
#[export] Instance BasicCounter_cmp_laws t : CmpLaws (BasicCounter t) := cmp_on_laws value.

Definition zero {t} : BasicCounter t := mkCounter 0.
Definition is_zero {t} (c : BasicCounter t) : bool := value c =? 0.

(** [try_next] and [try_add]: [None] where the code returns false. *)
Definition try_next {t} (c : BasicCounter t) : option (BasicCounter t) :=
  if value c =? u64_max then None else Some (mkCounter (value c + 1)).
Definition try_add {t} (c : BasicCounter t) (delta : N) : option (BasicCounter t) :=
  if u64_max - value c <? delta then None else Some (mkCounter (value c + delta)).

(** ** On the wire *)

#[export] Instance BasicId_codec t : Codec (BasicId t) := {
  encode i := Writer.id16 (id_bytes i);
  decode := b ← Reader.id16; mret (mkId b);
  wire_ok i := length (id_bytes i) = 16%nat
}.
#[export] Instance BasicCounter_codec t : Codec (BasicCounter t) := {
  encode c := Writer.u64 (value c);
  decode := v ← Reader.u64; mret (mkCounter v);
  wire_ok c := value c ≤ u64_max
}.
#[export] Instance BasicId_codec_laws t : CodecLaws (BasicId t).
Proof. intros [b] bs rest Hok Hbs. simpl in *. by read_fields. Qed.
#[export] Instance BasicCounter_codec_laws t : CodecLaws (BasicCounter t).
Proof. intros [v] bs rest Hok Hbs. simpl in *. by read_fields. Qed.

#[export] Instance Digest_codec : Codec Digest := {
  encode := Writer.digest;
  decode := Reader.digest;
  wire_ok d := length (digest_bytes d) = kDigestSize
}.
#[export] Instance Digest_codec_laws : CodecLaws Digest.
Proof. intros d bs rest. apply read_digest. Qed.

(** ** Text round trips *)

Lemma hex_pair_nibbles (b : byte) :
  ∃ x y, hex_pair b = [x; y] ∧
    match hex_nibble x, hex_nibble y with
    | Some hi, Some lo => to_byte (N.lor (N.shiftl hi 4) lo) = b
    | _, _ => False
    end.
Proof. by destruct b; eexists _, _. Qed.

Lemma hex_nibble_bound (x : byte) v : hex_nibble x = Some v → v < 16.
Proof. unfold hex_nibble. intros. repeat case_match; simplify_eq; lia. Qed.

(** The hex digits of a nibble are unique. *)
Lemma hex_nibble_digit (x : byte) v :
  hex_nibble x = Some v → nth (N.to_nat v) kHexDigits x00 = x.
Proof. intros Hv. by destruct x; vm_compute in Hv; try discriminate Hv; injection Hv as <-. Qed.

#[local] Ltac Zify.zify_post_hook ::= Z.div_mod_to_equations.

Lemma hex_pair_of_nibbles (x y : byte) hi lo :
  hex_nibble x = Some hi → hex_nibble y = Some lo →
  hex_pair (to_byte (N.lor (N.shiftl hi 4) lo)) = [x; y].
Proof.
  intros Hx Hy. pose proof (hex_nibble_bound _ _ Hx). pose proof (hex_nibble_bound _ _ Hy).
  rewrite lor_shiftl_add by done. change (2 ^ 4) with 16. unfold hex_pair.
  rewrite to_byte_small by lia. change 0x0f with (N.ones 4). rewrite !land_mask, N.shiftr_div_pow2.
  change (2 ^ 4) with 16.
  assert ((hi * 16 + lo) / 16 mod 16 = hi ∧ (hi * 16 + lo) mod 16 = lo) as [-> ->] by lia.
  by rewrite (hex_nibble_digit _ _ Hx), (hex_nibble_digit _ _ Hy).
Qed.

Definition join_nibbles (x y : byte) : option byte :=
  match hex_nibble x, hex_nibble y with
  | Some hi, Some lo => Some (to_byte (N.lor (N.shiftl hi 4) lo))
  | _, _ => None
  end.

Lemma join_nibbles_spec x y b : join_nibbles x y = Some b ↔ hex_pair b = [x; y].
Proof.
  unfold join_nibbles. split.
  - destruct (hex_nibble x) eqn:Hx, (hex_nibble y) eqn:Hy; try done. intros [= <-].
    by apply hex_pair_of_nibbles.
  - intros Hp. destruct (hex_pair_nibbles b) as (x' & y' & Hxy & Hb).
    rewrite Hp in Hxy. injection Hxy as <- <-.
    destruct (hex_nibble x), (hex_nibble y); try done. by f_equal.
Qed.

Lemma hex_loop out : ∀ h, length h = (2 * length out)%nat →
  Forall2 (λ i b, join_nibbles (char_at h (i * 2)) (char_at h (1 + i * 2)) = Some b)
          (seq 0 (length out)) out ↔ flat_map hex_pair out = h.
Proof.
  induction out as [|b out IH]; intros h Hlen.
  { destruct h; [split; [done|constructor]|done]. }
  destruct h as [|x [|y h]]; try (simpl in Hlen; lia).
  cbn [length seq flat_map]. rewrite <-fmap_S_seq, Forall2_cons, Forall2_fmap_l.
  rewrite join_nibbles_spec.
  assert (length h = 2 * length out)%nat as Hlen' by (simpl in Hlen; lia).
  specialize (IH h Hlen'). change (char_at (x :: y :: h) (0 * 2)) with x.
  change (char_at (x :: y :: h) (1 + 0 * 2)) with y. split.
  - intros [-> Htl]. by rewrite (proj1 IH Htl).
  - intros Hh. destruct (hex_pair_nibbles b) as (x' & y' & Hxy & _). rewrite Hxy in *.
    injection Hh as -> -> Hh. split; [done|]. by apply IH.
Qed.

Lemma length_flat_map_hex l : length (flat_map hex_pair l) = (2 * length l)%nat.
Proof. induction l as [|b l IH]; [done|]. simpl. rewrite IH. lia. Qed.

Lemma parse_id_spec text p out :
  parse_id text p = Some out ↔ text = format_id p out ∧ length out = 16%nat.
Proof.
  unfold parse_id, format_id. split.
  - destruct (Nat.eqb_spec (length text) (length p + 1 + 32)) as [Hlen|]; [|done]; cbn [negb].
    case_bool_decide as Hp; [|done]; cbn [negb]. case_bool_decide as Hd; [|done]; cbn [negb].
    intros Hm. apply mapM_Some in Hm as Hf. apply Forall2_length in Hf as Hl.
    rewrite length_seq in Hl. split; [|done].
    rewrite <-(take_drop (length p) text), Hp. f_equal.
    destruct (drop (length p) text) as [|c h] eqn:E.
    { apply (f_equal length) in E. rewrite length_drop in E. simpl in E. lia. }
    assert (∀ j, char_at text (length p + j) = char_at (c :: h) j) as Hat.
    { intros j. unfold char_at. by rewrite <-(take_drop (length p) text), E, Hp, app_nth2_plus. }
    rewrite <-(Nat.add_0_r (length p)), Hat in Hd. change (c = x2d) in Hd. subst c. simpl. f_equal.
    symmetry. apply hex_loop.
    { apply (f_equal length) in E. rewrite length_drop in E. simpl in E. lia. }
    rewrite <-Hl. eapply Forall2_impl; [done|]. intros i b Hb. cbn beta in Hb.
    rewrite <-!Nat.add_assoc, !Hat in Hb. done.
  - intros [-> Hout]. rewrite !length_app, length_flat_map_hex, Hout. cbn [length].
    replace (length p + (1 + 2 * 16))%nat with (length p + 1 + 32)%nat by lia.
    rewrite Nat.eqb_refl, take_app_length, bool_decide_eq_true_2 by done; cbn [negb].
    assert (∀ j, char_at (p ++ [x2d] ++ flat_map hex_pair out) (length p + j) =
                 char_at (x2d :: flat_map hex_pair out) j) as Hat
      by (intros j; unfold char_at; by rewrite app_nth2_plus).
    rewrite bool_decide_eq_true_2 by (by rewrite <-(Nat.add_0_r (length p)), Hat); cbn [negb].
    apply mapM_Some. rewrite <-Hout.
    eapply Forall2_impl; [apply hex_loop; [|done]; apply length_flat_map_hex|].
    intros i b Hb. cbn beta. rewrite <-!Nat.add_assoc, !Hat. exact Hb.
Qed.

(** The text of an identifier parses back to it, and only canonical text
    parses: a string that is accepted is exactly what [to_string] prints, so no
    two strings name one identifier. *)
Theorem id_text_roundtrip t (i : BasicId t) (text : string) :
  wire_ok i → (id_parse t text = Some i ↔ text = id_to_string i).
Proof.
  intros Hok. unfold id_parse, id_to_string, id_to_bytes. destruct i as [b]; simpl in *.
  split.
  - rewrite fmap_Some. intros (b' & Hp & [= <-]). apply parse_id_spec in Hp as [Ht _].
    by rewrite <-Ht, string_bytes_of.
  - intros ->. apply fmap_Some. exists b. split; [|done].
    unfold bytes_of at 1. rewrite String.list_byte_of_string_of_list_byte.
    by apply parse_id_spec.
Qed.
Lemma id_text_roundtrip_witness :
  id_parse MemberIdTag "mbr-00000000000000000000000000000000" = Some nil_id ↔
  "mbr-00000000000000000000000000000000"%string = id_to_string (t:=MemberIdTag) nil_id.
Proof. exact (id_text_roundtrip MemberIdTag nil_id _ eq_refl). Defined.

(** Counters never wrap: [try_next] and [try_add] return the exact sum,
    strictly after the old value when something was added, or refuse exactly
    when the sum does not fit 64 bits. *)
Theorem counters_never_wrap {t} (c : BasicCounter t) (delta : N) :
  wire_ok c → delta ≤ u64_max →
  (∀ c', try_next c = Some c' ↔ value c + 1 ≤ u64_max ∧ value c' = value c + 1) ∧
  (∀ c', try_add c delta = Some c' ↔ value c + delta ≤ u64_max ∧ value c' = value c + delta) ∧
  (∀ c', try_next c = Some c' → wire_ok c' ∧ cmp c c' = Lt).
Proof.
  destruct c as [v]; simpl. unfold try_next, try_add, u64_max; simpl. intros Hv Hd.
  split_and!; intros [v']; simpl.
  - destruct (N.eqb_spec v 18446744073709551615); split; intros; simplify_eq; try lia.
    do 2 f_equal. lia.
  - destruct (N.ltb_spec (18446744073709551615 - v) delta); split; intros; simplify_eq; try lia.
    do 2 f_equal. lia.
  - destruct (N.eqb_spec v 18446744073709551615); [done|]. intros [= <-]. split; [lia|].
    unfold cmp, BasicCounter_cmp, cmp_on; simpl. apply N.compare_lt_iff. lia.
Qed.
Lemma counters_never_wrap_witness :
  try_next (mkCounter 7 : Epoch) = Some (mkCounter 8) ↔
  value (mkCounter 7 : Epoch) + 1 ≤ u64_max ∧
  value (mkCounter 8 : Epoch) = value (mkCounter 7 : Epoch) + 1.
Proof. apply (counters_never_wrap (mkCounter 7 : Epoch) 3); [by vm_compute|by vm_compute]. Defined.

