(* ===== verification/Names.v ===== *)
(** * Qualified names

    Models include/fabric_federation/names.hpp and src/names.cpp: dotted
    lowercase names, the final wildcard segment a scope pattern may have, and
    the pattern match that decides coverage.  The reference grammar splits the
    name at its dots and looks at the segments. *)

From S2P Require Import Prelude Errors Sha256 Text Codec Ids.

Inductive NameTag := ScopeIdTag | CapabilityIdTag | PolicyIdTag | RuleIdTag | ConstraintTag.

Definition kMaxLength (t : NameTag) : N :=
  match t with
  | ScopeIdTag => 96 | CapabilityIdTag => 64 | PolicyIdTag => 64 | RuleIdTag => 64
  | ConstraintTag => 96
  end.
Definition kAllowWildcard (t : NameTag) : bool :=
  match t with ScopeIdTag => true | _ => false end.
Definition kind_name (t : NameTag) : string :=
  match t with
  | ScopeIdTag => "scope" | CapabilityIdTag => "capability" | PolicyIdTag => "policy"
  | RuleIdTag => "rule" | ConstraintTag => "constraint"
  end.

Definition is_lower (b : byte) : bool := (97 <=? Byte.to_N b) && (Byte.to_N b <=? 122).
Definition is_digit (b : byte) : bool := (48 <=? Byte.to_N b) && (Byte.to_N b <=? 57).
Definition star : byte := x2a.
Definition dot : byte := x2e.

(** The loop of [validate_qualified_name] from index [i]; the text is read at
    [i - 1] and its size is fixed. *)
Fixpoint validate_chars (text : list byte) (allow_wildcard : bool) (what : string)
    (previous_dot : bool) (i : nat) (rest : list byte) : Result bool :=
  match rest with
  | [] => Ok previous_dot
  | c :: rest =>
      if decide (c = star) then
        if negb allow_wildcard then
          fail ErrorCode.InvalidArgument (what +s+ " does not accept a wildcard")
        else
          let whole := (length text =? 1)%nat in
          let final_segment := (i =? length text - 1)%nat && (1 <=? i)%nat &&
                               bool_decide (char_at text (i - 1) = dot) in
          if negb whole && negb final_segment then
            fail ErrorCode.InvalidArgument
                 (what +s+ " may only use a wildcard as the last segment")
          else validate_chars text allow_wildcard what false (S i) rest
      else if decide (c = dot) then
        if previous_dot || (i =? 0)%nat || (i + 1 =? length text)%nat then
          fail ErrorCode.InvalidArgument (what +s+ " has an empty segment")
        else validate_chars text allow_wildcard what true (S i) rest
      else if negb (is_lower c) && negb (is_digit c) && negb (bool_decide (c = x5f)) &&
              negb (bool_decide (c = x2d)) then
        fail ErrorCode.InvalidArgument (what +s+ " contains a character outside [a-z0-9._-]")
      else validate_chars text allow_wildcard what false (S i) rest
  end.

Definition validate_qualified_name (text : string) (max_length : N) (allow_wildcard : bool)
    (what : string) : Result string :=
  let t := bytes_of text in
  fail_if (length t =? 0)%nat ErrorCode.InvalidArgument (what +s+ " must not be empty");;
  fail_if (max_length <? size t) ErrorCode.BoundsExceeded (what +s+ " exceeds the maximum length");;
  fail_if (negb (is_lower (char_at t 0)) &&
           negb (allow_wildcard && bool_decide (char_at t 0 = star)))
          ErrorCode.InvalidArgument (what +s+ " must start with a lowercase letter");;
  previous_dot ← validate_chars t allow_wildcard what false 0 t;
  fail_if previous_dot ErrorCode.InvalidArgument (what +s+ " ends with a separator");;
  Ok text.

Definition qualified_name_covers (pattern concrete : string) : bool :=
  let p := bytes_of pattern in
  let c := bytes_of concrete in
  if decide (pattern = concrete) then true
  else if (length p =? 0)%nat || (length c =? 0)%nat then false
  else if decide (pattern = "*"%string) then true
  else if (2 <=? length p)%nat && bool_decide (char_at p (length p - 1) = star) then
    let prefix := take (length p - 1) p in
    (length prefix <=? length c)%nat && bool_decide (take (length prefix) c = prefix)
  else false.

(** ** [BasicName] *)

Record BasicName (t : NameTag) := mkName { str : string }.
Arguments mkName {t} _.
Arguments str {t} _.

Notation ScopeId := (BasicName ScopeIdTag).
Notation CapabilityId := (BasicName CapabilityIdTag).
Notation PolicyId := (BasicName PolicyIdTag).
Notation RuleId := (BasicName RuleIdTag).
Notation ConstraintToken := (BasicName ConstraintTag).

#[export] Instance BasicName_eq_dec t : EqDecision (BasicName t).
Proof. solve_decision. Defined.
#[export] Instance str_inj t : Inj (=) (=) (@str t).
Proof. by intros [?] [?] [= ->]. Qed.
#[export] Instance BasicName_cmp t : Cmp (BasicName t) := cmp_on str.
#[export] Instance BasicName_cmp_laws t : CmpLaws (BasicName t) := cmp_on_laws str.

Definition name_parse t (text : string) : Result (BasicName t) :=
  validated ← validate_qualified_name text (kMaxLength t) (kAllowWildcard t) (kind_name t);
  Ok (mkName validated).
Definition is_valid t (text : string) : bool := has_value (name_parse t text).
Definition name_empty {t} (n : BasicName t) : bool := bool_decide (str n = "").
Definition is_wildcard {t} (n : BasicName t) : bool :=
  existsb (λ c, bool_decide (c = star)) (bytes_of (str n)).
Definition covers {t} (pattern concrete : BasicName t) : bool :=
  qualified_name_covers (str pattern) (str concrete).

(** ** The reference grammar *)

(** The segments of a name: what stands between its dots. *)
Fixpoint segments (l : list byte) : list (list byte) :=
  match l with
  | [] => [[]]
  | c :: l =>
      if decide (c = dot) then [] :: segments l
      else match segments l with
           | s :: ss => (c :: s) :: ss
           | [] => [[c]]
           end
  end.

Definition name_char (b : byte) : bool :=
  is_lower b || is_digit b || bool_decide (b = x5f) || bool_decide (b = x2d).
Definition plain_segment (s : list byte) : bool := negb (length s =? 0)%nat && forallb name_char s.

(** Every segment is plain; with a wildcard allowed the last one may be "*". *)
Fixpoint valid_segments (allow_wildcard : bool) (ss : list (list byte)) : bool :=
  match ss with
  | [] => false
  | [s] => plain_segment s || (allow_wildcard && bool_decide (s = [star]))
  | s :: ss => plain_segment s && valid_segments allow_wildcard ss
  end.

Definition valid_name (t : NameTag) (text : string) : bool :=
  let l := bytes_of text in
  (size l <=? kMaxLength t) && valid_segments (kAllowWildcard t) (segments l) &&
  (is_lower (char_at l 0) || (kAllowWildcard t && bool_decide (char_at l 0 = star))).

(** ** The validator implements the grammar *)

(** The grammar as a scan; [start] holds at the beginning of a segment. *)
Fixpoint scan (wild start : bool) (rest : list byte) : bool :=
  match rest with
  | [] => negb start
  | c :: rest =>
      if decide (c = star) then wild && start && bool_decide (rest = [])
      else if decide (c = dot) then negb start && scan wild true rest
      else name_char c && scan wild false rest
  end.

Lemma segments_nonempty l : segments l ≠ [].
Proof. destruct l; simpl; repeat case_match; done. Qed.

Lemma segments_nil l : segments l = [[]] → l = [].
Proof.
  destruct l as [|c l]; [done|]. simpl. pose proof (segments_nonempty l).
  case_decide; [intros [= Hs]; by rewrite Hs in *|]. by destruct (segments l).
Qed.

Lemma name_char_star_dot : name_char star = false ∧ name_char dot = false.
Proof. by vm_compute. Qed.

Lemma scan_segments wild l :
  scan wild true l = valid_segments wild (segments l) ∧
  scan wild false l =
    match segments l with
    | [] => false
    | s :: ss => forallb name_char s &&
                 match ss with [] => true | _ => valid_segments wild ss end
    end.
Proof.
  induction l as [|c l [IHs IHc]]; simpl; [by destruct wild|].
  pose proof (segments_nonempty l) as Hne.
  destruct (decide (c = star)) as [->|Hstar].
  { rewrite decide_False by done. destruct (segments l) as [|s ss] eqn:E; [done|].
    assert (bool_decide (l = []) = bool_decide (s = []) && bool_decide (ss = [])) as ->.
    { repeat case_bool_decide; subst; simplify_eq/=; try done.
      exfalso. by apply segments_nil in E. }
    cbn [forallb]. unfold plain_segment. cbn [forallb length].
    rewrite (proj1 name_char_star_dot). split.
    - destruct ss; [|by rewrite !andb_false_r].
      by destruct s, wild; rewrite ?andb_false_r.
    - by rewrite andb_false_r. }
  destruct (decide (c = dot)) as [->|Hdot]; simpl.
  { rewrite IHs. destruct (segments l) eqn:E; [done|]. split; [|done]. by unfold plain_segment. }
  destruct (segments l) as [|s ss] eqn:E; [done|]. rewrite IHc.
  unfold plain_segment. cbn [forallb length negb Nat.eqb andb].
  assert (bool_decide (c :: s = [star]) = false) as Hb by (apply bool_decide_eq_false_2; naive_solver).
  split; destruct ss; cbn [valid_segments]; unfold plain_segment; cbn [forallb length];
    rewrite ?Hb; simpl; rewrite ?andb_false_r, ?orb_false_r, ?andb_true_r, ?andb_assoc; done.
Qed.

Lemma validate_chars_scan text wild what rest : ∀ pre pd i,
  text = pre ++ rest → length pre = i → text ≠ [] →
  (pd = true → i ≠ 0%nat) → (i ≠ 0%nat → pd = bool_decide (char_at text (i - 1) = dot)) →
  validate_chars text wild what pd i rest = Ok false ↔
  scan wild ((i =? 0)%nat || pd) rest = true.
Proof.
  induction rest as [|c rest IH]; intros pre pd i Htext Hi Hne Hpd0 Hpd; simpl.
  { rewrite app_nil_r in Htext. destruct i; [by destruct pre|]. simpl. destruct pd; naive_solver. }
  assert (length text = (i + 1 + length rest)%nat) as Hlen by (rewrite Htext, length_app; simpl; lia).
  assert (text = (pre ++ [c]) ++ rest) as Htext' by by rewrite <-app_assoc.
  assert (char_at text i = c) as Hc.
  { unfold char_at. rewrite Htext, app_nth2 by lia. by rewrite Hi, Nat.sub_diag. }
  assert (∀ b, b = bool_decide (c = dot) →
    validate_chars text wild what b (S i) rest = Ok false ↔ scan wild b rest = true) as Hnext.
  { intros b Hb. rewrite (IH (pre ++ [c])); [done|done|rewrite length_app; simpl; lia|done..|].
    intros _. simpl. by rewrite Nat.sub_0_r, Hc. }
  destruct (decide (c = star)) as [->|Hstar].
  - destruct wild; simpl; [|done].
    assert (negb (length text =? 1)%nat &&
      negb ((i =? length text - 1)%nat && (1 <=? i)%nat && bool_decide (char_at text (i - 1) = dot)) =
      negb (((i =? 0)%nat || pd) && bool_decide (rest = []))) as ->.
    { destruct rest as [|r rest]; 
        [replace (bool_decide (@nil byte = [])) with true by done
        |replace (bool_decide (r :: rest = [])) with false by done];
        simpl in Hlen; destruct i as [|i].
      - by rewrite Hlen.
      - rewrite Hpd by done. destruct (Nat.eqb_spec (length text) 1); [lia|].
        destruct (Nat.eqb_spec (S i) (length text - 1)); [|lia]. by destruct (bool_decide (char_at text (S i - 1) = dot)).
      - destruct (Nat.eqb_spec (length text) 1); [lia|].
        destruct (Nat.eqb_spec 0 (length text - 1)); [lia|done].
      - destruct (Nat.eqb_spec (length text) 1); [lia|].
        destruct (Nat.eqb_spec (S i) (length text - 1)); [lia|]. by rewrite !andb_false_r. }
    destruct (((i =? 0)%nat || pd) && bool_decide (rest = [])) eqn:E; simpl; [|done].
    rewrite Hnext by done. apply andb_true_iff in E as [_ E]. by apply bool_decide_eq_true in E as ->.
  - destruct (decide (c = dot)) as [->|Hdot].
    + destruct (Nat.eqb_spec i 0) as [->|Hi0]; simpl; [by rewrite orb_true_r|].
      rewrite orb_false_r. destruct pd; simpl; [done|].
      destruct (Nat.eqb_spec (i + 1) (length text)); simpl.
      * destruct rest; [done|simpl in Hlen; lia].
      * apply Hnext. done.
    + assert (negb (is_lower c) && negb (is_digit c) && negb (bool_decide (c = x5f)) &&
              negb (bool_decide (c = x2d)) = negb (name_char c)) as ->
        by (unfold name_char; by rewrite !negb_orb).
      destruct (name_char c); simpl; [|done]. apply Hnext. by rewrite bool_decide_eq_false_2.
Qed.

Lemma validate_qualified_name_Ok text max wild what r :
  validate_qualified_name text max wild what = Ok r ↔
  r = text ∧ size (bytes_of text) ≤ max ∧ valid_segments wild (segments (bytes_of text)) = true ∧
  (is_lower (char_at (bytes_of text) 0) || (wild && bool_decide (char_at (bytes_of text) 0 = star))) = true.
Proof.
  unfold validate_qualified_name.
  rewrite bind_Ok. setoid_rewrite bind_Ok. setoid_rewrite bind_Ok.
  setoid_rewrite bind_Ok. setoid_rewrite bind_Ok. setoid_rewrite fail_if_Ok.
  rewrite <-(proj1 (scan_segments wild (bytes_of text))).
  destruct (bytes_of text) as [|b l] eqn:E.
  { split; [by intros ([] & ? & _)|intros (_ & _ & ? & _); done]. }
  rewrite <-E in *.
  assert (bytes_of text ≠ []) as Hne by (by rewrite E).
  pose proof (validate_chars_scan (bytes_of text) wild what (bytes_of text) [] false 0
                eq_refl eq_refl Hne) as Hscan.
  cbn [Nat.eqb orb] in Hscan. rewrite <-Hscan by done.
  split.
  - intros ([] & _ & [] & Hmax & [] & Hstart & pd & Hpd & [] & Hfalse & [= <-]). subst pd.
    split_and!; [done|lia|done|]. rewrite <-negb_orb in Hstart. by apply negb_false_iff in Hstart.
  - intros (-> & Hmax & Hv & Hstart). exists tt. split; [by rewrite E|].
    exists tt. split; [lia|]. exists tt. split; [by rewrite <-negb_orb, Hstart|].
    by exists false; split; [|exists tt].
Qed.

Lemma name_parse_valid t (text : string) n :
  name_parse t text = Ok n ↔ str n = text ∧ valid_name t text = true.
Proof.
  unfold name_parse, valid_name. rewrite bind_Ok. setoid_rewrite validate_qualified_name_Ok.
  rewrite !andb_true_iff, N.leb_le. destruct n as [s]; simpl. split.
  - intros (? & (-> & ? & ? & ?) & [= <-]). by split_and!.
  - intros (-> & (? & ?) & ?). by exists text.
Qed.

(** ** Coverage by segments *)

Definition dotted (ss : list (list byte)) : list byte := flat_map (λ s, s ++ [dot]) ss.

Lemma segments_join l :
  ∃ ss s, segments l = ss ++ [s] ∧ l = dotted ss ++ s.
Proof.
  induction l as [|c l (ss & s & Hseg & Hl)]; simpl; [by exists [], []|].
  rewrite Hseg. case_decide as Hc.
  - exists ([] :: ss), s. split; [done|]. simpl. congruence.
  - destruct ss as [|s0 ss]; simpl in *.
    + exists [], (c :: s). simpl. by rewrite Hl.
    + exists ((c :: s0) :: ss), s. simpl. by rewrite Hl.
Qed.

Lemma segments_cons_plain c l s ss :
  c ≠ dot → segments l = s :: ss → segments (c :: l) = (c :: s) :: ss.
Proof. intros Hc Hl. simpl. by rewrite decide_False, Hl. Qed.

Lemma segments_dotted ss r :
  Forall (λ s, dot ∉ s) ss → segments (dotted ss ++ r) = ss ++ segments r.
Proof.
  induction 1 as [|s ss Hs Hss IH]; [done|]. simpl. rewrite <-!app_assoc. simpl.
  induction s as [|c s IHs]; [by rewrite app_nil_l; simpl; rewrite IH|].
  apply not_elem_of_cons in Hs as [Hc Hs]. by erewrite <-app_comm_cons, segments_cons_plain; eauto.
Qed.

Lemma segments_no_dot l : Forall (λ s, dot ∉ s) (segments l).
Proof.
  induction l as [|c l IH]; simpl; [repeat constructor; set_solver|].
  case_decide as Hc; [constructor; [set_solver|done]|].
  destruct (segments l); [repeat constructor; set_solver|].
  apply Forall_cons in IH as [? ?]. constructor; [set_solver|done].
Qed.

Lemma segments_inj l k : segments l = segments k → l = k.
Proof.
  intros H. destruct (segments_join l) as (ss & s & Hl & ->), (segments_join k) as (tt & t & Hk & ->).
  rewrite H, Hk in Hl. by apply app_inj_tail in Hl as [-> ->].
Qed.

Lemma bytes_of_inj x y : bytes_of x = bytes_of y → x = y.
Proof. apply (inj String.list_byte_of_string). Qed.

Lemma valid_segments_snoc wild ss s :
  valid_segments wild (ss ++ [s]) =
  forallb plain_segment ss && (plain_segment s || (wild && bool_decide (s = [star]))).
Proof.
  induction ss as [|a ss IH]; [done|]. simpl. rewrite IH. destruct (ss ++ [s]) eqn:E; [by destruct ss|].
  by rewrite andb_assoc.
Qed.

Lemma char_at_last l b : char_at (l ++ [b]) (length (l ++ [b]) - 1) = b.
Proof.
  unfold char_at. rewrite length_app. simpl. rewrite Nat.add_sub.
  rewrite app_nth2 by lia. by rewrite Nat.sub_diag.
Qed.

(** A valid name that ends in a star is a pattern: its last segment is "*". *)
Lemma valid_pattern_last wild l :
  valid_segments wild (segments l) = true → char_at l (length l - 1) = star →
  ∃ ss, segments l = ss ++ [[star]] ∧ l = dotted ss ++ [star].
Proof.
  intros Hv Hlast. destruct (segments_join l) as (ss & s & Hseg & Hl). exists ss.
  rewrite Hseg, valid_segments_snoc in Hv. apply andb_true_iff in Hv as [_ Hs].
  apply orb_true_iff in Hs as [Hs|Hs].
  - exfalso. unfold plain_segment in Hs. apply andb_true_iff in Hs as [Hne Hs].
    destruct s as [|b s _] using rev_ind; [done|].
    rewrite Hl, app_assoc, char_at_last in Hlast. subst b.
    rewrite forallb_app in Hs. apply andb_true_iff in Hs as [_ Hs]. by vm_compute in Hs.
  - apply andb_true_iff in Hs as [_ Hs]. apply bool_decide_eq_true in Hs as ->. done.
Qed.

(** Segment-wise coverage: equal, or the pattern's segments before its final
    "*" are a proper prefix of the concrete name's. *)
Definition covers_segments (p c : list (list byte)) : Prop :=
  p = c ∨ ∃ ss tl, p = ss ++ [[star]] ∧ tl ≠ [] ∧ c = ss ++ tl.

Lemma covers_segments_iff (pattern concrete : string) :
  valid_name ScopeIdTag pattern = true → concrete ≠ ""%string →
  qualified_name_covers pattern concrete = true ↔
  covers_segments (segments (bytes_of pattern)) (segments (bytes_of concrete)).
Proof.
  unfold valid_name. rewrite !andb_true_iff. intros ((_ & Hv) & _) Hne.
  assert (bytes_of concrete ≠ []) as Hcne by (intros H; by apply (bytes_of_inj concrete "") in H).
  unfold qualified_name_covers, covers_segments. case_decide as Heq; [subst; naive_solver|].
  assert (segments (bytes_of pattern) ≠ segments (bytes_of concrete)) as Hsegne.
  { intros H. by apply segments_inj, bytes_of_inj in H. }
  destruct (bytes_of pattern) as [|b0 p0] eqn:Ep.
  { simpl. split; [done|]. intros [?|(ss & tl & H & _)]; [done|].
    destruct ss as [|? ss]; [done|]. by destruct ss. }
  rewrite <-Ep in *. replace (length (bytes_of pattern) =? 0)%nat with false by by rewrite Ep.
  destruct (Nat.eqb_spec (length (bytes_of concrete)) 0); [by destruct (bytes_of concrete)|].
  cbn [orb]. case_decide as Hstar.
  { subst. split; [intros _; right; exists [], (segments (bytes_of concrete))|done].
    split_and!; [done|apply segments_nonempty|done]. }
  destruct ((2 <=? length (bytes_of pattern))%nat && _) eqn:E.
  - apply andb_true_iff in E as [_ E]. apply bool_decide_eq_true in E.
    destruct (valid_pattern_last _ _ Hv E) as (ss & Hseg & Hp).
    assert (take (length (bytes_of pattern) - 1) (bytes_of pattern) = dotted ss) as ->.
    { rewrite Hp, length_app. simpl. rewrite Nat.add_sub. by rewrite take_app_length. }
    assert (Forall (λ s, dot ∉ s) ss) as Hnd
      by (pose proof (segments_no_dot (bytes_of pattern)) as H; rewrite Hseg in H; by apply Forall_app in H as [? _]).
    rewrite andb_true_iff, Nat.leb_le, bool_decide_eq_true. split.
    + intros [_ Ht]. right. exists ss, (segments (drop (length (dotted ss)) (bytes_of concrete))).
      split_and!; [done|apply segments_nonempty|].
      by rewrite <-segments_dotted, <-Ht, take_drop at 1.
    + intros [?|(ss' & tl & Hp' & Htl & Hc)]; [done|].
      rewrite Hseg in Hp'. apply app_inj_tail in Hp' as [<- _].
      destruct (segments_join (bytes_of concrete)) as (cs & s & Hcs & Hcc).
      destruct tl as [|t tl _] using rev_ind; [done|].
      rewrite Hcs, app_assoc in Hc. apply app_inj_tail in Hc as [-> ->].
      rewrite Hcc. unfold dotted. rewrite flat_map_app, <-app_assoc.
      rewrite take_app_length, length_app. split; [lia|done].
  - split; [done|]. intros [?|(ss & tl & Hp & Htl & Hc)]; [done|]. exfalso.
    destruct (segments_join (bytes_of pattern)) as (ps & s & Hps & Hpp).
    rewrite Hps in Hp. apply app_inj_tail in Hp as [-> ->].
    apply andb_false_iff in E as [E|E].
    + apply Nat.leb_gt in E. rewrite Hpp, length_app in E. simpl in E.
      destruct ss as [|s0 ss]; [|simpl in E; rewrite !length_app in E; simpl in E; lia].
      apply Hstar. apply bytes_of_inj. exact Hpp.
    + apply bool_decide_eq_false in E. apply E. rewrite Hpp at 1 2. apply char_at_last.
Qed.

(** [BasicName::parse] accepts exactly the grammar: at most the maximum
    number of bytes, non-empty dot-separated segments over [a-z0-9_-], a
    lowercase first letter, and, for scopes only, "*" as the last segment.  The
    accepted name is the text unchanged. *)
Theorem name_parse_grammar t (text : string) :
  (is_valid t text = true ↔ valid_name t text = true) ∧
  (∀ n, name_parse t text = Ok n → str n = text).
Proof.
  split; [|intros n Hn; by apply name_parse_valid in Hn as [? _]].
  unfold is_valid. split.
  - destruct (name_parse t text) as [n|] eqn:E; [|done]. by apply name_parse_valid in E as [_ ?].
  - intros Hv. by rewrite (proj2 (name_parse_valid t text (mkName text)) (conj eq_refl Hv)).
Qed.

Lemma valid_name_nonempty t text : valid_name t text = true → text ≠ ""%string.
Proof. intros Hv ->. by destruct t. Qed.

(** Coverage is decided segment by segment: a pattern covers a name iff
    they are equal or the pattern ends in "*" and the segments before it are a
    proper prefix of the name's; and coverage is reflexive and transitive on
    valid names, so delegating a pattern delegates what it covers. *)
Theorem covers_by_segments (p q r : ScopeId) :
  is_valid ScopeIdTag (str p) = true → is_valid ScopeIdTag (str q) = true →
  is_valid ScopeIdTag (str r) = true →
  (covers p q = true ↔
     covers_segments (segments (bytes_of (str p))) (segments (bytes_of (str q)))) ∧
  covers p p = true ∧
  (covers p q = true → covers q r = true → covers p r = true).
Proof.
  assert (∀ s, is_valid ScopeIdTag s = true → valid_name ScopeIdTag s = true) as Hvalid.
  { intros s. unfold is_valid. destruct (name_parse ScopeIdTag s) eqn:E; [|done].
    by apply name_parse_valid in E as [_ ?]. }
  intros Hp%Hvalid Hq%Hvalid Hr%Hvalid. unfold covers.
  rewrite !covers_segments_iff by eauto using valid_name_nonempty.
  split_and!; [done|by left|].
  intros [Hpq|(ss & tl & Hpss & Htl & Hqss)] Hqr.
  { by rewrite Hpq. }
  destruct Hqr as [Hqr|(ss' & tl' & Hq' & Htl' & Hr')]; [right; rewrite <-Hqr; eauto|].
  right. destruct tl as [|t tl _] using rev_ind; [done|].
  rewrite Hq', app_assoc in Hqss. apply app_inj_tail in Hqss as [-> _].
  exists ss, (tl ++ tl'). split_and!; [done| |by rewrite Hr', <-app_assoc].
  by destruct tl.
Qed.
Lemma covers_by_segments_witness :
  let p : ScopeId := mkName "fabric.*" in
  let q : ScopeId := mkName "fabric.west.*" in
  let n : ScopeId := mkName "fabric.west.node1" in
  covers p q = true ∧ covers q n = true ∧ covers p n = true.
Proof.
  intros p q n.
  assert (covers p q = true) as Hpq by by vm_compute.
  assert (covers q n = true) as Hqn by by vm_compute.
  split; [exact Hpq|split; [exact Hqn|]].
  apply (covers_by_segments p q n); try exact Hpq; try exact Hqn; by vm_compute.
Defined.

(** ** On the wire: names travel as identifiers and are validated when read *)

(** [writer.identifier(name.str())] and [Name::parse(reader.identifier())]. *)
#[export] Instance BasicName_codec t : Codec (BasicName t) := {
  encode n := Writer.identifier (str n);
  decode := s ← Reader.identifier; dec_lift (name_parse t s);
  wire_ok n := is_valid t (str n) = true
}.
Lemma name_parse_wire t (n : BasicName t) : is_valid t (str n) = true → name_parse t (str n) = Ok n.
Proof.
  unfold is_valid. destruct (name_parse t (str n)) as [m|] eqn:E; [|done].
  intros _. f_equal. apply (inj str). by apply name_parse_valid in E as [? _].
Qed.
#[export] Instance BasicName_codec_laws t : CodecLaws (BasicName t).
Proof.
  intros n bs rest Hok Hbs. cbn [encode decode wire_ok BasicName_codec] in *.
  read_fields. unfold dec_lift. by rewrite (name_parse_wire t n Hok).
Qed.

(** A name field whose empty text stands for the absent name. *)
Definition dec_name_or_empty t (malformed : string) : Dec (BasicName t) :=
  s ← Reader.identifier;
  if decide (s = ""%string) then mret (mkName "")
  else match name_parse t s with
       | Ok n => mret n
       | Err _ => dec_fail ErrorCode.InvalidArgument malformed
       end.
Definition name_or_empty {t} (n : BasicName t) : Prop := str n = ""%string ∨ is_valid t (str n) = true.
Lemma read_name_or_empty t m (n : BasicName t) bs rest :
  Writer.identifier (str n) = Ok bs → name_or_empty n →
  dec_name_or_empty t m (bs ++ rest) = Ok (n, rest).
Proof.
  intros Hbs Hn. unfold dec_name_or_empty. read_fields. destruct n as [s]; simpl in *.
  case_decide as He; [by subst|]. destruct Hn as [|Hn]; [done|].
  by rewrite (name_parse_wire t (mkName s) Hn : name_parse t s = _).
Qed.
(** A name field that must parse; the decoder reports its own message. *)
Definition dec_name t (malformed : string) : Dec (BasicName t) :=
  s ← Reader.identifier;
  match name_parse t s with
  | Ok n => mret n
  | Err _ => dec_fail ErrorCode.InvalidArgument malformed
  end.
Lemma read_name t m (n : BasicName t) bs rest :
  Writer.identifier (str n) = Ok bs → is_valid t (str n) = true →
  dec_name t m (bs ++ rest) = Ok (n, rest).
Proof. intros Hbs Hn. unfold dec_name. read_fields. by rewrite (name_parse_wire t n Hn). Qed.
#[export] Hint Resolve read_name_or_empty read_name : codec.
