(* ===== verification/Scope.v ===== *)
(** * Grants, delegation terms, conflicts and the scope catalogue

    Models include/fabric_federation/scope.hpp and src/scope.cpp.  A grant is a
    scope and a verb; the collections of grants, terms and conflicts are kept
    sorted and duplicate-free so that their digests do not depend on insertion
    order. *)

From S2P Require Import Prelude Errors Sha256 Text Codec Ids Names.

Module AuthorityVerb.
Inductive t :=
  | Observe | Write | Mutate | Administer.

(** The underlying integer of the enumerator. *)
Definition value (x : t) : N :=
  match x with
  | Observe => 0
  | Write => 1
  | Mutate => 2
  | Administer => 3
  end.

(** The enumerators in the order of their values. *)
Definition all : list t :=
  [Observe; Write; Mutate; Administer].

Definition to_string (x : t) : string :=
  match x with
  | Observe => "observe"
  | Write => "write"
  | Mutate => "mutate"
  | Administer => "administer"
  end.

#[global] Instance enum : WireEnum t.
Proof. refine {| wire := value; enum_all := all |}. by intros []. Defined.
End AuthorityVerb.

Module ScopeClass.
Inductive t :=
  | Local | Federation | GlobalMutation.

(** The underlying integer of the enumerator. *)
Definition value (x : t) : N :=
  match x with
  | Local => 0
  | Federation => 1
  | GlobalMutation => 2
  end.

(** The enumerators in the order of their values. *)
Definition all : list t :=
  [Local; Federation; GlobalMutation].

Definition to_string (x : t) : string :=
  match x with
  | Local => "local"
  | Federation => "federation"
  | GlobalMutation => "global-mutation"
  end.

#[global] Instance enum : WireEnum t.
Proof. refine {| wire := value; enum_all := all |}. by intros []. Defined.
End ScopeClass.

Module DelegationMode.
Inductive t :=
  | Shared | Exclusive.

(** The underlying integer of the enumerator. *)
Definition value (x : t) : N :=
  match x with
  | Shared => 0
  | Exclusive => 1
  end.

(** The enumerators in the order of their values. *)
Definition all : list t :=
  [Shared; Exclusive].

Definition to_string (x : t) : string :=
  match x with
  | Shared => "shared"
  | Exclusive => "exclusive"
  end.

#[global] Instance enum : WireEnum t.
Proof. refine {| wire := value; enum_all := all |}. by intros []. Defined.
End DelegationMode.

Module ConflictKind.
Inductive t :=
  | OverlappingExclusive | AmbiguousPrecedence | ModeMismatch | DuplicateEvidence
  | ConflictingIdentity | PrecedenceUnsatisfiable.

(** The underlying integer of the enumerator. *)
Definition value (x : t) : N :=
  match x with
  | OverlappingExclusive => 0
  | AmbiguousPrecedence => 1
  | ModeMismatch => 2
  | DuplicateEvidence => 3
  | ConflictingIdentity => 4
  | PrecedenceUnsatisfiable => 5
  end.

(** The enumerators in the order of their values. *)
Definition all : list t :=
  [OverlappingExclusive; AmbiguousPrecedence; ModeMismatch; DuplicateEvidence;
   ConflictingIdentity; PrecedenceUnsatisfiable].

Definition to_string (x : t) : string :=
  match x with
  | OverlappingExclusive => "overlapping-exclusive"
  | AmbiguousPrecedence => "ambiguous-precedence"
  | ModeMismatch => "mode-mismatch"
  | DuplicateEvidence => "duplicate-evidence"
  | ConflictingIdentity => "conflicting-identity"
  | PrecedenceUnsatisfiable => "precedence-unsatisfiable"
  end.

#[global] Instance enum : WireEnum t.
Proof. refine {| wire := value; enum_all := all |}. by intros []. Defined.
End ConflictKind.

(** [parse_verb] and [verb_from_wire]. *)
Definition parse_verb (text : string) : option AuthorityVerb.t :=
  if decide (text = "observe"%string) then Some AuthorityVerb.Observe
  else if decide (text = "write"%string) then Some AuthorityVerb.Write
  else if decide (text = "mutate"%string) then Some AuthorityVerb.Mutate
  else if decide (text = "administer"%string) then Some AuthorityVerb.Administer
  else None.
Definition verb_from_wire (v : N) : Result AuthorityVerb.t :=
  match enum_of v with
  | Some verb => Ok verb
  | None => fail ErrorCode.InvalidArgument "authority verb is out of range"
  end.

(** ** Grants *)

Record ScopeGrant := mkGrant { scope : ScopeId; verb : AuthorityVerb.t }.

#[export] Instance ScopeGrant_eq_dec : EqDecision ScopeGrant.
Proof. solve_decision. Defined.
Definition grant_key (g : ScopeGrant) := (scope g, verb g).
#[export] Instance grant_key_inj : Inj (=) (=) grant_key.
Proof. by intros [] [] [= -> ->]. Qed.
#[export] Instance ScopeGrant_cmp : Cmp ScopeGrant := cmp_on grant_key.
#[export] Instance ScopeGrant_cmp_laws : CmpLaws ScopeGrant := cmp_on_laws grant_key.

(** [ScopeGrant()]: no scope, observe. *)
Definition no_grant : ScopeGrant := mkGrant (mkName "") AuthorityVerb.Observe.

Definition grant_to_string (g : ScopeGrant) : string :=
  str (scope g) +s+ ":" +s+ AuthorityVerb.to_string (verb g).

#[export] Instance ScopeGrant_codec : Codec ScopeGrant := {
  encode g := Writer.identifier (str (scope g)) >+> Writer.u8 (wire (verb g));
  decode :=
    parsed_scope ← dec_name_or_empty ScopeIdTag "scope identifier is malformed";
    v ← Reader.u8;
    parsed_verb ← dec_lift (verb_from_wire v);
    mret (mkGrant parsed_scope parsed_verb);
  wire_ok g := name_or_empty (scope g)
}.
#[export] Instance ScopeGrant_codec_laws : CodecLaws ScopeGrant.
Proof.
  intros [s v] bs rest Hok Hbs. cbn [encode decode wire_ok ScopeGrant_codec scope verb] in *.
  split_enc. read_fields. unfold dec_lift, verb_from_wire. by rewrite enum_of_wire.
Qed.

Definition canonicalize_grants (grants : list ScopeGrant) : list ScopeGrant := sort_unique grants.

Definition grants_cover (grants : list ScopeGrant) (query : ScopeGrant) : bool :=
  existsb (λ candidate, bool_decide (verb candidate = verb query) &&
                        covers (scope candidate) (scope query)) grants.

(** The inner loop of [intersect_grants]: the first filter that covers the
    candidate decides the grant that is kept. *)
Fixpoint first_filter (candidate : ScopeGrant) (filters : list ScopeGrant) : option ScopeGrant :=
  match filters with
  | [] => None
  | filter :: filters =>
      if negb (bool_decide (verb candidate = verb filter)) then first_filter candidate filters
      else if negb (covers (scope filter) (scope candidate)) then first_filter candidate filters
      else Some (mkGrant (if is_wildcard (scope candidate) && negb (is_wildcard (scope filter))
                          then scope filter else scope candidate) (verb candidate))
  end.
Definition intersect_grants (left_ right_ : list ScopeGrant) : list ScopeGrant :=
  canonicalize_grants (omap (λ candidate, first_filter candidate right_) left_).

Definition encode_grants (grants : list ScopeGrant) (max_count : N) : Enc :=
  enc_list max_count encode grants.
Definition decode_grants (max_count : N) : Dec (list ScopeGrant) := dec_list max_count decode.

Definition render_grants (grants : list ScopeGrant) : string :=
  let out := String.concat ", " (grant_to_string <$> grants) in
  if decide (out = ""%string) then "(none)"%string else out.
Definition digest_grants (grants : list ScopeGrant) : Digest :=
  digest_of (encode_grants (canonicalize_grants grants) kMaxScopesPerMember).

(** ** Delegation terms *)

Record DelegationTerms := mkTerms {
  grant : ScopeGrant;
  mode : DelegationMode.t;
  weight : N;
  not_after_ : Tick;
  constraint : ConstraintToken
}.

#[export] Instance DelegationTerms_eq_dec : EqDecision DelegationTerms.
Proof. solve_decision. Defined.
Definition terms_key (d : DelegationTerms) :=
  (grant d, (mode d, (weight d, (not_after_ d, constraint d)))).
#[export] Instance terms_key_inj : Inj (=) (=) terms_key.
Proof. by intros [] [] [= -> -> -> -> ->]. Qed.
#[export] Instance DelegationTerms_cmp : Cmp DelegationTerms := cmp_on terms_key.
#[export] Instance DelegationTerms_cmp_laws : CmpLaws DelegationTerms := cmp_on_laws terms_key.

#[export] Instance DelegationTerms_codec : Codec DelegationTerms := {
  encode d :=
    encode (grant d) >+> Writer.u8 (wire (mode d)) >+> Writer.u32 (weight d) >+>
    Writer.u64 (value (not_after_ d)) >+> Writer.identifier (str (constraint d));
  decode :=
    g ← decode;
    m ← Reader.u8;
    m ← dec_enum m ErrorCode.InvalidArgument "delegation mode is out of range";
    w ← Reader.u32;
    t ← Reader.u64;
    c ← dec_name_or_empty ConstraintTag "constraint token is malformed";
    mret (mkTerms g m w (mkCounter t) c);
  wire_ok d := wire_ok (grant d) ∧ weight d ≤ u32_max ∧ wire_ok (not_after_ d) ∧
               name_or_empty (constraint d)
}.
#[export] Instance DelegationTerms_codec_laws : CodecLaws DelegationTerms.
Proof.
  intros [g m w [t] c] bs rest (Hg & Hw & Ht & Hc) Hbs.
  cbn [encode decode wire_ok DelegationTerms_codec grant mode weight not_after_ constraint value] in *.
  split_enc. by read_fields.
Qed.

Definition terms_to_string (d : DelegationTerms) : string :=
  grant_to_string (grant d) +s+ " " +s+ DelegationMode.to_string (mode d) +s+
  " weight=" +s+ to_dec (weight d) +s+
  (if is_zero (not_after_ d) then "" else " not_after=" +s+ to_dec (value (not_after_ d))) +s+
  (if name_empty (constraint d) then "" else " constraint=" +s+ str (constraint d)).

Definition canonicalize_terms (terms : list DelegationTerms) : list DelegationTerms :=
  sort_unique terms.
Definition encode_terms (terms : list DelegationTerms) (max_count : N) : Enc :=
  enc_list max_count encode terms.
Definition decode_terms (max_count : N) : Dec (list DelegationTerms) := dec_list max_count decode.
Definition digest_terms (terms : list DelegationTerms) : Digest :=
  digest_of (encode_terms (canonicalize_terms terms) kMaxDelegationTermsPerMember).

(** ** Conflict records *)

Record ConflictRecord := mkConflict {
  conflict_grant : ScopeGrant;
  kind : ConflictKind.t;
  claimants : list MemberId;
  detail : string
}.

#[export] Instance ConflictRecord_eq_dec : EqDecision ConflictRecord.
Proof. solve_decision. Defined.
Definition conflict_key (c : ConflictRecord) :=
  (conflict_grant c, (kind c, (claimants c, detail c))).
#[export] Instance conflict_key_inj : Inj (=) (=) conflict_key.
Proof. by intros [] [] [= -> -> -> ->]. Qed.
#[export] Instance ConflictRecord_cmp : Cmp ConflictRecord := cmp_on conflict_key.
#[export] Instance ConflictRecord_cmp_laws : CmpLaws ConflictRecord := cmp_on_laws conflict_key.

Definition conflict_to_string (c : ConflictRecord) : string :=
  ConflictKind.to_string (kind c) +s+ " on " +s+ grant_to_string (conflict_grant c) +s+
  " claimants=[" +s+ String.concat "," (id_to_string <$> claimants c) +s+ "]" +s+
  (if decide (detail c = ""%string) then "" else " " +s+ detail c).

Definition canonicalize_conflicts (conflicts : list ConflictRecord) : list ConflictRecord :=
  sort_unique ((λ c, mkConflict (conflict_grant c) (kind c) (sort_unique (claimants c)) (detail c))
               <$> conflicts).

(** The element encoding inside [encode_conflicts] and [decode_conflicts]. *)
#[export] Instance ConflictRecord_codec : Codec ConflictRecord := {
  encode c :=
    encode (conflict_grant c) >+> Writer.u8 (wire (kind c)) >+>
    enc_list kMaxMembers encode (claimants c) >+> Writer.text (detail c) kMaxTextLength;
  decode :=
    g ← decode;
    k ← Reader.u8;
    k ← dec_enum k ErrorCode.InvalidArgument "conflict kind is out of range";
    m ← dec_list kMaxMembers decode;
    d ← Reader.text kMaxTextLength;
    mret (mkConflict g k m d);
  wire_ok c := wire_ok (conflict_grant c) ∧ Forall wire_ok (claimants c)
}.
#[export] Instance ConflictRecord_codec_laws : CodecLaws ConflictRecord.
Proof.
  intros [g k m d] bs rest (Hg & Hm) Hbs.
  cbn [encode decode wire_ok ConflictRecord_codec conflict_grant kind claimants detail] in *.
  split_enc. by read_fields.
Qed.
Definition encode_conflicts (conflicts : list ConflictRecord) (max_count : N) : Enc :=
  enc_list max_count encode conflicts.
Definition decode_conflicts (max_count : N) : Dec (list ConflictRecord) := dec_list max_count decode.
Definition digest_conflicts (conflicts : list ConflictRecord) : Digest :=
  digest_of (encode_conflicts (canonicalize_conflicts conflicts) kMaxConflicts).

(** ** The scope catalogue *)

Record ScopeDescriptor := mkDescriptor {
  d_scope : ScopeId;
  d_class : ScopeClass.t;
  d_description : string
}.

(** The entries, sorted by scope after every [add]. *)
Definition ScopeCatalog : Type := list ScopeDescriptor.

Definition catalog_add (entries : ScopeCatalog) (descriptor : ScopeDescriptor) : ScopeCatalog :=
  let fix replace entries :=
    match entries with
    | [] => None
    | existing :: entries =>
        if decide (d_scope existing = d_scope descriptor) then Some (descriptor :: entries)
        else cons existing <$> replace entries
    end in
  match replace entries with
  | Some entries => sort_by d_scope entries
  | None => sort_by d_scope (entries ++ [descriptor])
  end.

Definition catalog_find (entries : ScopeCatalog) (s : ScopeId) : option ScopeDescriptor :=
  List.find (λ d, bool_decide (d_scope d = s)) entries.

(** The class and the [known] flag. *)
Definition classify (entries : ScopeCatalog) (s : ScopeId) : ScopeClass.t * bool :=
  if is_wildcard s then (ScopeClass.Federation, false)
  else match catalog_find entries s with
       | Some descriptor => (d_class descriptor, true)
       | None =>
           if (7 <? str_size (str s)) && String.prefix "domain." (str s)
           then (ScopeClass.Local, true)
           else (ScopeClass.Federation, false)
       end.

Definition catalog_digest (entries : ScopeCatalog) : Digest :=
  digest_of
    (enc_list kMaxPolicyRules
       (λ d, Writer.identifier (str (d_scope d)) >+> Writer.u8 (wire (d_class d)) >+>
             Writer.text (d_description d) kMaxShortTextLength)
       (sort_by d_scope entries)).

Definition builtin_entries : list (string * ScopeClass.t * string) :=
  [("federation.membership.observe", ScopeClass.Federation,
      "read membership records for the federation");
   ("federation.membership.propose", ScopeClass.Federation, "sponsor a candidate member");
   ("federation.membership.admit", ScopeClass.GlobalMutation,
      "change the membership set of the federation");
   ("federation.delegation.observe", ScopeClass.Federation,
      "read delegation terms held across the federation");
   ("federation.delegation.grant", ScopeClass.GlobalMutation,
      "change the delegation terms held across the federation");
   ("federation.policy.observe", ScopeClass.Federation, "read the federation policy");
   ("federation.policy.endorse", ScopeClass.Federation,
      "endorse a policy revision without adopting it");
   ("federation.policy.adopt", ScopeClass.GlobalMutation,
      "adopt a policy revision for the federation");
   ("federation.epoch.observe", ScopeClass.Federation, "read the federation epoch");
   ("federation.epoch.advance", ScopeClass.GlobalMutation, "advance the federation epoch");
   ("federation.route.advertise", ScopeClass.GlobalMutation,
      "publish reachability advertisements consumed federation-wide");
   ("federation.route.observe", ScopeClass.Federation, "read federation-wide advertisements");
   ("federation.capacity.publish", ScopeClass.Federation,
      "publish capacity statements for the federation");
   ("federation.health.report", ScopeClass.Federation, "publish health statements");
   ("federation.evidence.attest", ScopeClass.Federation,
      "attest another member's declared identity");
   ("federation.lease.observe", ScopeClass.Federation, "read federation leases")]%string.
Definition builtin : ScopeCatalog :=
  foldl (λ built '(name, scope_class, description),
           match name_parse ScopeIdTag name with
           | Ok s => catalog_add built (mkDescriptor s scope_class description)
           | Err _ => built
           end) [] builtin_entries.

(** ** What the operations on grants compute *)

(** A pattern without a star covers only itself. *)
Lemma covers_concrete {t} (p c : BasicName t) :
  is_wildcard p = false → covers p c = true → p = c.
Proof.
  unfold is_wildcard, covers, qualified_name_covers. intros Hw Hc.
  destruct (decide (str p = str c)) as [|Hne]; [by apply (inj str)|].
  destruct (_ || _); [done|].
  assert (∀ b, b ∈ bytes_of (str p) → b ≠ star) as Hnostar.
  { intros b Hb ->. apply not_true_iff_false in Hw. apply Hw, existsb_exists.
    exists star. split; [by apply list_elem_of_In|done]. }
  destruct (decide (str p = "*"%string)) as [Hp|Hp].
  { exfalso. apply (Hnostar star); [|done]. rewrite Hp. by vm_compute; left. }
  destruct (Nat.leb_spec 2 (length (bytes_of (str p)))) as [H2|]; [|done].
  destruct (bool_decide _) eqn:E; [|done]. exfalso. apply bool_decide_eq_true in E.
  unfold char_at in E. apply (Hnostar star); [|done]. rewrite <-E.
  apply list_elem_of_In, nth_In. lia.
Qed.

Lemma first_filter_spec candidate filters g :
  first_filter candidate filters = Some g ↔ g = candidate ∧ grants_cover filters candidate = true.
Proof.
  unfold grants_cover. induction filters as [|f fs IH]; simpl; [naive_solver|].
  assert (bool_decide (verb candidate = verb f) = bool_decide (verb f = verb candidate)) as ->
    by (by apply bool_decide_ext).
  destruct (bool_decide (verb f = verb candidate)) eqn:Ev; simpl; [|done].
  destruct (covers (scope f) (scope candidate)) eqn:Ec; simpl; [|done].
  assert ((if is_wildcard (scope candidate) && negb (is_wildcard (scope f))
           then scope f else scope candidate) = scope candidate) as ->.
  { destruct (is_wildcard (scope f)) eqn:Ew; [by rewrite andb_false_r|].
    rewrite (covers_concrete _ _ Ew Ec). by destruct (_ && _). }
  destruct candidate; naive_solver.
Qed.

(** [intersect_grants] keeps exactly the grants of its left side that some
    grant of the right side covers, whatever the order or the repetitions of
    either, and returns them sorted without duplicates. *)
Theorem intersect_grants_spec (left_ right_ : list ScopeGrant) :
  (∀ g, g ∈ intersect_grants left_ right_ ↔ g ∈ left_ ∧ grants_cover right_ g = true) ∧
  StronglySorted strictly_before (intersect_grants left_ right_).
Proof.
  split; [|apply sort_unique_strict]. intros g.
  unfold intersect_grants, canonicalize_grants. rewrite elem_of_sort_unique, list_elem_of_omap.
  setoid_rewrite first_filter_spec. naive_solver.
Qed.

(** The digests that bind a declaration depend on the set of grants or
    terms it holds only: neither the order nor the repetitions a sender chose
    can change them. *)
Theorem digests_depend_on_sets (g1 g2 : list ScopeGrant) (t1 t2 : list DelegationTerms)
    (c1 c2 : list ConflictRecord) :
  ((∀ g, g ∈ g1 ↔ g ∈ g2) → digest_grants g1 = digest_grants g2) ∧
  ((∀ t, t ∈ t1 ↔ t ∈ t2) → digest_terms t1 = digest_terms t2) ∧
  ((∀ c, c ∈ c1 ↔ c ∈ c2) → digest_conflicts c1 = digest_conflicts c2).
Proof.
  unfold digest_grants, digest_terms, digest_conflicts, canonicalize_grants, canonicalize_terms,
    canonicalize_conflicts.
  split_and!; intros Heq; do 2 f_equal; apply sort_unique_ext; [done..|].
  intros c. rewrite !list_elem_of_fmap. naive_solver.
Qed.

(** ** The shipped catalogue *)

Definition global_mutation_scopes : list string :=
  ["federation.membership.admit"; "federation.delegation.grant"; "federation.policy.adopt";
   "federation.epoch.advance"; "federation.route.advertise"]%string.
Definition in_domain (s : ScopeId) : bool :=
  (7 <? str_size (str s)) && String.prefix "domain." (str s).

Lemma builtin_find_class s d : catalog_find builtin s = Some d →
  d ∈ builtin ∧ d_scope d = s.
Proof.
  unfold catalog_find. intros Hf. apply List.find_some in Hf as [Hin Hs].
  apply bool_decide_eq_true in Hs. split; [by apply list_elem_of_In|done].
Qed.

Lemma builtin_entries_checked :
  forallb (λ d, negb (bool_decide (d_class d = ScopeClass.Local)) && negb (in_domain (d_scope d)) &&
                negb (is_wildcard (d_scope d)) &&
                Bool.eqb (bool_decide (d_class d = ScopeClass.GlobalMutation))
                         (bool_decide (str (d_scope d) ∈ global_mutation_scopes))) builtin = true ∧
  forallb (λ s, match catalog_find builtin (mkName s) with
                | Some d => bool_decide (d_class d = ScopeClass.GlobalMutation)
                | None => false end) global_mutation_scopes = true ∧
  forallb (λ s, negb (is_wildcard (mkName s : ScopeId))) global_mutation_scopes = true.
Proof. by vm_compute. Qed.

(** A catalogue that never claims a domain scope, never calls one of its scopes
    local and holds the scopes [gms] as its global mutations. *)
Lemma classify_spec (entries : ScopeCatalog) (gms : list string) (s : ScopeId) :
  (str s ∈ gms → is_wildcard s = false ∧
     ∃ d, catalog_find entries s = Some d ∧ d_class d = ScopeClass.GlobalMutation) →
  (∀ d, catalog_find entries s = Some d →
     d_class d ≠ ScopeClass.Local ∧ in_domain s = false ∧
     (d_class d = ScopeClass.GlobalMutation ↔ str s ∈ gms)) →
  (classify entries s = (ScopeClass.Local, true) ↔ is_wildcard s = false ∧ in_domain s = true) ∧
  (classify entries s = (ScopeClass.GlobalMutation, true) ↔ str s ∈ gms) ∧
  ((classify entries s).2 = false ↔
     is_wildcard s = true ∨ (catalog_find entries s = None ∧ in_domain s = false)).
Proof.
  intros Hgm Hd. unfold classify. fold (in_domain s).
  destruct (is_wildcard s) eqn:Ew.
  { split_and!; [split; [done|by intros [? _]]| |split; [by left|done]].
    split; [done|]. intros H. by apply Hgm in H as [H _]. }
  destruct (catalog_find entries s) as [d|] eqn:Ef; cbn [snd].
  - specialize (Hd d eq_refl) as (Hl & Hdom & Hg). rewrite Hdom. split_and!.
    + split; [by intros [= H]|by intros [_ ?]].
    + rewrite <-Hg. split; [by intros [= H]|by intros ->].
    + split; [done|]. by intros [H|[H _]].
  - destruct (in_domain s) eqn:Edom; split_and!; simpl.
    all: try (split; [done|]; intros H; by apply Hgm in H as (_ & d & Hf & _)).
    + by split.
    + split; [done|]. by intros [?|[_ ?]].
    + split; [done|by intros [_ ?]].
    + split; [by right|done].
Qed.

(** Classification by the shipped catalogue: a scope is local authority
    iff it is a concrete name under "domain.", it changes federation-wide state
    iff it is one of the five listed scopes, and a pattern or an unlisted name
    is unknown; so no catalogue entry can claim a member's own domain. *)
Theorem builtin_classification (s : ScopeId) :
  (classify builtin s = (ScopeClass.Local, true) ↔
     is_wildcard s = false ∧ in_domain s = true) ∧
  (classify builtin s = (ScopeClass.GlobalMutation, true) ↔ str s ∈ global_mutation_scopes) ∧
  ((classify builtin s).2 = false ↔
     is_wildcard s = true ∨ (catalog_find builtin s = None ∧ in_domain s = false)).
Proof.
  destruct builtin_entries_checked as (Hall & Hfind & Hwild).
  rewrite forallb_forall in Hall, Hfind, Hwild. apply classify_spec.
  - intros Hs. apply list_elem_of_In in Hs. specialize (Hfind _ Hs). specialize (Hwild _ Hs).
    assert (mkName (str s) = s) as Heta by by destruct s.
    cbn beta in Hfind, Hwild. rewrite Heta in Hfind, Hwild. split; [by apply negb_true_iff|].
    destruct (catalog_find builtin s); [|discriminate Hfind].
    apply bool_decide_eq_true in Hfind. eauto.
  - intros d Hf. apply builtin_find_class in Hf as [Hin Hs]. apply list_elem_of_In in Hin.
    specialize (Hall d Hin). cbn beta in Hall. rewrite Hs in Hall.
    rewrite !andb_true_iff, !negb_true_iff, bool_decide_eq_false in Hall.
    destruct Hall as (((? & ?) & ?) & He). split_and!; [assumption..|].
    apply eqb_prop in He.
    rewrite <-(bool_decide_eq_true (d_class d = _)), He. apply bool_decide_eq_true.
Qed.
