(* ===== verification/Capability.v ===== *)
(** * Capabilities and compatibility

    Models include/fabric_federation/capability.hpp and src/capability.cpp:
    requirements, statements and the deterministic compatibility verdict. *)

From S2P Require Import Prelude Errors Sha256 Text Codec Ids Names.

Module CompatibilityState.
Inductive t :=
  | Satisfied | Incompatible | Unsupported | Unknown | Conflicting.

(** The underlying integer of the enumerator. *)
Definition value (x : t) : N :=
  match x with
  | Satisfied => 0
  | Incompatible => 1
  | Unsupported => 2
  | Unknown => 3
  | Conflicting => 4
  end.

(** The enumerators in the order of their values. *)
Definition all : list t :=
  [Satisfied; Incompatible; Unsupported; Unknown; Conflicting].

Definition to_string (x : t) : string :=
  match x with
  | Satisfied => "SATISFIED"
  | Incompatible => "INCOMPATIBLE"
  | Unsupported => "UNSUPPORTED"
  | Unknown => "UNKNOWN"
  | Conflicting => "CONFLICTING"
  end.

#[global] Instance enum : WireEnum t.
Proof. refine {| wire := value; enum_all := all |}. by intros []. Defined.
End CompatibilityState.

(** ** Requirements and statements *)

Record CapabilityRequirement := mkRequirement {
  req_capability : CapabilityId;
  min_version : N;
  max_version : N;
  mandatory : bool
}.
#[export] Instance CapabilityRequirement_eq_dec : EqDecision CapabilityRequirement.
Proof. solve_decision. Defined.
Definition requirement_key (r : CapabilityRequirement) :=
  (req_capability r, (min_version r, (max_version r, mandatory r))).
#[export] Instance requirement_key_inj : Inj (=) (=) requirement_key.
Proof. by intros [] [] [= -> -> -> ->]. Qed.
#[export] Instance CapabilityRequirement_cmp : Cmp CapabilityRequirement := cmp_on requirement_key.
#[export] Instance CapabilityRequirement_cmp_laws : CmpLaws CapabilityRequirement :=
  cmp_on_laws requirement_key.

(** [CapabilityRequirement()]. *)
Definition no_requirement : CapabilityRequirement := mkRequirement (mkName "") 0 0 true.

Definition version_in_range (r : CapabilityRequirement) (version : N) : bool :=
  if version <? min_version r then false
  else (max_version r =? 0) || (version <=? max_version r).

(** The range check of the decoder. *)
Definition range_inverted (min max : N) : bool := negb (max =? 0) && (max <? min).

#[export] Instance CapabilityRequirement_codec : Codec CapabilityRequirement := {
  encode r :=
    Writer.identifier (str (req_capability r)) >+> Writer.u32 (min_version r) >+>
    Writer.u32 (max_version r) >+> Writer.boolean (mandatory r);
  decode :=
    parsed ← dec_name_or_empty CapabilityIdTag "capability identifier is malformed";
    min ← Reader.u32;
    max ← Reader.u32;
    m ← Reader.boolean;
    dec_check (range_inverted min max) ErrorCode.InvalidArgument
              "capability version range is inverted";;
    mret (mkRequirement parsed min max m);
  wire_ok r := name_or_empty (req_capability r) ∧ min_version r ≤ u32_max ∧
               max_version r ≤ u32_max ∧ range_inverted (min_version r) (max_version r) = false
}.
#[export] Instance CapabilityRequirement_codec_laws : CodecLaws CapabilityRequirement.
Proof.
  intros [c mn mx m] bs rest (? & ? & ? & ?) Hbs.
  cbn [encode decode wire_ok CapabilityRequirement_codec req_capability min_version max_version mandatory] in *.
  split_enc. by read_fields.
Qed.

Definition requirement_to_string (r : CapabilityRequirement) : string :=
  str (req_capability r) +s+ " >= " +s+ to_dec (min_version r) +s+
  (if max_version r =? 0 then "" else " <= " +s+ to_dec (max_version r)) +s+
  (if mandatory r then " (mandatory)" else " (optional)").

Record CapabilityStatement := mkStatement {
  st_capability : CapabilityId;
  version : N;
  evidence : EvidenceState.t;
  evidence_digest : Digest
}.
#[export] Instance CapabilityStatement_eq_dec : EqDecision CapabilityStatement.
Proof. solve_decision. Defined.
Definition statement_key (s : CapabilityStatement) :=
  (st_capability s, (version s, (evidence s, evidence_digest s))).
#[export] Instance statement_key_inj : Inj (=) (=) statement_key.
Proof. by intros [] [] [= -> -> -> ->]. Qed.
#[export] Instance CapabilityStatement_cmp : Cmp CapabilityStatement := cmp_on statement_key.
#[export] Instance CapabilityStatement_cmp_laws : CmpLaws CapabilityStatement :=
  cmp_on_laws statement_key.

#[export] Instance CapabilityStatement_codec : Codec CapabilityStatement := {
  encode s :=
    Writer.identifier (str (st_capability s)) >+> Writer.u32 (version s) >+>
    Writer.u8 (wire (evidence s)) >+> Writer.digest (evidence_digest s);
  decode :=
    parsed ← dec_name CapabilityIdTag "capability identifier is malformed";
    v ← Reader.u32;
    e ← Reader.u8;
    e ← dec_enum e ErrorCode.InvalidArgument "evidence state is out of range";
    d ← Reader.digest;
    mret (mkStatement parsed v e d);
  wire_ok s := is_valid CapabilityIdTag (str (st_capability s)) = true ∧ version s ≤ u32_max ∧
               wire_ok (evidence_digest s)
}.
#[export] Instance CapabilityStatement_codec_laws : CodecLaws CapabilityStatement.
Proof.
  intros [c v e d] bs rest (? & ? & ?) Hbs.
  cbn [encode decode wire_ok CapabilityStatement_codec st_capability version evidence evidence_digest] in *.
  split_enc. by read_fields.
Qed.

Definition statement_to_string (s : CapabilityStatement) : string :=
  str (st_capability s) +s+ " = " +s+ to_dec (version s) +s+ " evidence=" +s+
  EvidenceState.to_string (evidence s).

Definition canonicalize_statements (l : list CapabilityStatement) := sort_unique l.
Definition canonicalize_requirements (l : list CapabilityRequirement) := sort_unique l.
Definition encode_statements (l : list CapabilityStatement) (max_count : N) : Enc :=
  enc_list max_count encode l.
Definition decode_statements (max_count : N) : Dec (list CapabilityStatement) :=
  dec_list max_count decode.
Definition encode_requirements (l : list CapabilityRequirement) (max_count : N) : Enc :=
  enc_list max_count encode l.
Definition decode_requirements (max_count : N) : Dec (list CapabilityRequirement) :=
  dec_list max_count decode.
Definition digest_statements (l : list CapabilityStatement) : Digest :=
  digest_of (encode_statements (canonicalize_statements l) kMaxCapabilitiesPerMember).

(** ** Evaluation *)

Definition modelled_capabilities : list CapabilityId :=
  std_sort (omap (λ name, match name_parse CapabilityIdTag name with Ok c => Some c | Err _ => None end)
    ["federation.protocol.v1"; "federation.transport.framed-tcp"; "federation.authority.lease";
     "federation.partition.observation"; "federation.canonical-state.v1";
     "federation.membership.multiparty"]%string).
Definition capability_is_modelled (c : CapabilityId) : bool :=
  bool_decide (c ∈ modelled_capabilities).

Record CapabilityMatch := mkMatch {
  m_capability : CapabilityId;
  m_mandatory : bool;
  declared : bool;
  declared_version : N;
  requirement : CapabilityRequirement;
  m_state : CompatibilityState.t;
  m_detail : string
}.
Record CompatibilityReport := mkReport {
  r_state : CompatibilityState.t;
  matches : list CapabilityMatch;
  summary : string
}.
Definition satisfied (r : CompatibilityReport) : bool :=
  bool_decide (r_state r = CompatibilityState.Satisfied).

(** The body of the loop over the requirements. *)
Definition match_requirement (statements : list CapabilityStatement) (r : CapabilityRequirement) :
    CapabilityMatch :=
  let versions := sort_unique
    (version <$> filter (λ s, st_capability s = req_capability r) statements) in
  let result declared v state detail :=
    mkMatch (req_capability r) (mandatory r) declared v r state detail in
  if negb (capability_is_modelled (req_capability r)) then
    result false 0 CompatibilityState.Unsupported "this build has no model for the capability"
  else match versions with
  | [] => result false 0 CompatibilityState.Unknown "no declaration covers the requirement"
  | _ :: _ :: _ =>
      result true 0 CompatibilityState.Conflicting
             "two declarations for one capability disagree on version"
  | [v] =>
      if negb (version_in_range r v) then
        result true v CompatibilityState.Incompatible
               "declared version is outside the required range"
      else if existsb (λ s, bool_decide (st_capability s = req_capability r) &&
                            bool_decide (evidence s = EvidenceState.Known)) statements
      then result true v CompatibilityState.Satisfied "version in range with evidence"
      else result true v CompatibilityState.Unknown
                  "version in range but the statement carries no evidence"
  end%string.

(** The five flags of the loop: some requirement ended in the state. *)
Definition any_state (st : CompatibilityState.t) (l : list CapabilityMatch) : bool :=
  existsb (λ m, bool_decide (m_state m = st)) l.
Definition any_unknown (mand : bool) (l : list CapabilityMatch) : bool :=
  existsb (λ m, bool_decide (m_state m = CompatibilityState.Unknown) && Bool.eqb (m_mandatory m) mand) l.

Definition evaluate_compatibility (requirements : list CapabilityRequirement)
    (statements : list CapabilityStatement) : CompatibilityReport :=
  let statements := canonicalize_statements statements in
  let l := match_requirement statements <$> canonicalize_requirements requirements in
  let report state summary := mkReport state l summary in
  if any_state CompatibilityState.Incompatible l then
    report CompatibilityState.Incompatible "an incompatible declaration was found"
  else if any_state CompatibilityState.Conflicting l then
    report CompatibilityState.Conflicting "declarations for one capability disagree"
  else if any_state CompatibilityState.Unsupported l && (any_unknown true l || (length l =? 1)%nat) then
    report CompatibilityState.Unsupported
           "a requirement names a capability this build does not model"
  else if any_unknown true l then
    report CompatibilityState.Unknown "a mandatory requirement has no usable evidence"
  else if any_state CompatibilityState.Unsupported l then
    report CompatibilityState.Unsupported
           "a requirement names a capability this build does not model"
  else if any_unknown false l then
    report CompatibilityState.Unknown "only optional requirements are unevidenced"
  else if (length l =? 0)%nat then
    report CompatibilityState.Satisfied "no requirements were stated"
  else report CompatibilityState.Satisfied "every requirement is satisfied with evidence"%string.

(** ** What satisfaction means *)

(** The declarations meet the requirement: the capability is modelled, every
    statement about it declares one version, the version is in range, and some
    statement carries evidence. *)
Definition requirement_met (statements : list CapabilityStatement) (r : CapabilityRequirement) : Prop :=
  capability_is_modelled (req_capability r) = true ∧
  ∃ v, version_in_range r v = true ∧
    (∀ s, s ∈ statements → st_capability s = req_capability r → version s = v) ∧
    (∃ s, s ∈ statements ∧ st_capability s = req_capability r ∧ evidence s = EvidenceState.Known).

Lemma sort_unique_singleton {A} `{CmpLaws A, EqDecision A} (l : list A) (x : A) :
  sort_unique l = [x] ↔ l ≠ [] ∧ ∀ y, y ∈ l → y = x.
Proof.
  split.
  - intros Hl. split; [by intros ->|]. intros y Hy.
    rewrite <-(elem_of_sort_unique y l), Hl in Hy. set_solver.
  - intros [Hne Hall]. change [x] with (sort_unique [x]). apply sort_unique_ext.
    intros y. split; [intros Hy; by rewrite (Hall y Hy); left|].
    intros ->%list_elem_of_singleton. destruct l as [|z l]; [done|].
    rewrite <-(Hall z); by left.
Qed.

Lemma match_satisfied statements r :
  m_state (match_requirement (canonicalize_statements statements) r) = CompatibilityState.Satisfied ↔
  requirement_met statements r.
Proof.
  unfold match_requirement, requirement_met, canonicalize_statements.
  set (vs := version <$> filter (λ s, st_capability s = req_capability r) (sort_unique statements)).
  assert (∀ v, v ∈ vs ↔ ∃ s, s ∈ statements ∧ st_capability s = req_capability r ∧ version s = v) as Hvs.
  { intros v. subst vs. rewrite list_elem_of_fmap. setoid_rewrite list_elem_of_filter.
    setoid_rewrite elem_of_sort_unique. naive_solver. }
  assert (existsb (λ s, bool_decide (st_capability s = req_capability r) &&
                        bool_decide (evidence s = EvidenceState.Known)) (sort_unique statements) = true ↔
    ∃ s, s ∈ statements ∧ st_capability s = req_capability r ∧ evidence s = EvidenceState.Known) as Hev.
  { rewrite existsb_exists. setoid_rewrite andb_true_iff. setoid_rewrite bool_decide_eq_true.
    setoid_rewrite <-list_elem_of_In. by setoid_rewrite elem_of_sort_unique. }
  destruct (capability_is_modelled _); simpl; [|naive_solver].
  destruct (sort_unique vs) as [|v [|v' l]] eqn:E; simpl.
  - split; [done|]. intros (_ & v & _ & _ & s & Hs & Hcap & _). exfalso.
    assert (version s ∈ sort_unique vs) as Hin by (apply elem_of_sort_unique, Hvs; eauto).
    rewrite E in Hin. set_solver.
  - apply sort_unique_singleton in E as [Hne Hall].
    assert (∀ s, s ∈ statements → st_capability s = req_capability r → version s = v) as Hver
      by (intros s ? ?; apply Hall, Hvs; eauto).
    destruct (version_in_range r v) eqn:Er; simpl.
    + destruct (existsb _ _); simpl; split.
      * intros _. split; [done|]. exists v. split_and!; [done..|by apply Hev].
      * done.
      * done.
      * intros (_ & w & _ & _ & Hk). by apply Hev in Hk.
    + split; [done|]. intros (_ & w & Hw & Hall' & s & Hs & Hcap & _).
      rewrite <-(Hver s Hs Hcap), (Hall' s Hs Hcap) in Er. congruence.
  - split; [done|]. intros (_ & w & _ & Hall & _). exfalso.
    assert (sort_unique vs = [w]) as Hw; [|by rewrite E in Hw].
    apply sort_unique_singleton. split; [by intros Hn; rewrite Hn in E|].
    intros y (s & Hs & Hcap & <-)%Hvs. by apply Hall.
Qed.

Lemma any_state_false st l :
  any_state st l = false ↔ ∀ m, m ∈ l → m_state m ≠ st.
Proof.
  unfold any_state. rewrite <-not_true_iff_false, existsb_exists.
  setoid_rewrite bool_decide_eq_true. setoid_rewrite <-list_elem_of_In. naive_solver.
Qed.
Lemma any_unknown_false mand l :
  any_unknown mand l = false ↔
  ∀ m, m ∈ l → m_state m = CompatibilityState.Unknown → m_mandatory m ≠ mand.
Proof.
  unfold any_unknown. rewrite <-not_true_iff_false, existsb_exists.
  setoid_rewrite andb_true_iff. setoid_rewrite bool_decide_eq_true.
  setoid_rewrite eqb_true_iff. setoid_rewrite <-list_elem_of_In. naive_solver.
Qed.

(** The verdict SATISFIED means what the header promises, and the verdict
    does not depend on the order or repetition of the declarations: it is
    returned iff every requirement names a modelled capability whose statements
    agree on one version in range, at least one of them backed by evidence. *)
Theorem compatibility_satisfied_iff (requirements requirements' : list CapabilityRequirement)
    (statements statements' : list CapabilityStatement) :
  (satisfied (evaluate_compatibility requirements statements) = true ↔
     ∀ r, r ∈ requirements → requirement_met statements r) ∧
  ((∀ r, r ∈ requirements ↔ r ∈ requirements') → (∀ s, s ∈ statements ↔ s ∈ statements') →
     evaluate_compatibility requirements statements = evaluate_compatibility requirements' statements').
Proof.
  split; [|intros Hr Hs; unfold evaluate_compatibility, canonicalize_statements,
             canonicalize_requirements; by rewrite (sort_unique_ext _ _ Hr), (sort_unique_ext _ _ Hs)].
  setoid_rewrite <-match_satisfied. unfold evaluate_compatibility, satisfied.
  set (l := match_requirement (canonicalize_statements statements) <$> canonicalize_requirements requirements).
  assert ((∀ r, r ∈ requirements →
            m_state (match_requirement (canonicalize_statements statements) r) = CompatibilityState.Satisfied) ↔
          ∀ m, m ∈ l → m_state m = CompatibilityState.Satisfied) as ->.
  { subst l. setoid_rewrite list_elem_of_fmap. unfold canonicalize_requirements.
    setoid_rewrite elem_of_sort_unique. naive_solver. }
  rewrite bool_decide_eq_true. split.
  - repeat match goal with |- context [if ?b then _ else _] => destruct b eqn:?; simpl; try done end.
    1: intros _; by destruct l; [intros m ?%elem_of_nil|].
    intros _ m Hm.
    repeat match goal with
    | H : any_state _ _ = false |- _ => rewrite any_state_false in H; specialize (H m Hm)
    | H : any_unknown _ _ = false |- _ => rewrite any_unknown_false in H; specialize (H m Hm)
    end.
    destruct (m_state m), (m_mandatory m); naive_solver.
  - intros Hall. assert (∀ st, st ≠ CompatibilityState.Satisfied → any_state st l = false) as Hst.
    { intros st Hst. apply any_state_false. intros m Hm. by rewrite (Hall m Hm). }
    assert (∀ b, any_unknown b l = false) as Hun.
    { intros b. apply any_unknown_false. intros m Hm. by rewrite (Hall m Hm). }
    rewrite !Hst, !Hun by done. simpl. by destruct (length l =? 0)%nat.
Qed.
Lemma compatibility_satisfied_iff_witness :
  let r := mkRequirement (mkName "federation.protocol.v1") 1 2 true in
  let s v := mkStatement (mkName "federation.protocol.v1") v EvidenceState.Known Digest_zero in
  let u := mkStatement (mkName "federation.protocol.v1") 1 EvidenceState.Unknown Digest_zero in
  satisfied (evaluate_compatibility [r] [s 1; u]) = true ∧
  evaluate_compatibility [r; r] [u; s 1; u] = evaluate_compatibility [r] [s 1; u].
Proof.
  split; [by vm_compute|].
  apply compatibility_satisfied_iff; intros; set_solver.
Defined.
