(* ===== verification/Policy.v ===== *)
(** * Federation policy

    Models include/fabric_federation/policy.hpp and src/policy.cpp: the rules,
    their canonical form and codec, the effective parameters the derivation
    reads, structural validation and the shipped default. *)

From S2P Require Import Prelude Errors Sha256 Text Codec Ids Names Scope Capability.

Module PolicyRuleKind.
Inductive t :=
  | RequireEndorsements | RequireDistinctParties | RequireCapability
  | ForbidScopeDelegation | RequireLease | SuspendGlobalMutationOnPartition
  | SuspendGlobalMutationWhileReconciling | RequireMutualReachability
  | MaxLeaseLifetimeTicks | RequireReconsentOnGenerationChange | PrecedenceForGrant
  | RequireReattestationAfterPartition | ObservationFreshnessTicks
  | AllowGenerationChangeWithoutReconsent.

(** The underlying integer of the enumerator. *)
Definition value (x : t) : N :=
  match x with
  | RequireEndorsements => 0
  | RequireDistinctParties => 1
  | RequireCapability => 2
  | ForbidScopeDelegation => 3
  | RequireLease => 4
  | SuspendGlobalMutationOnPartition => 5
  | SuspendGlobalMutationWhileReconciling => 6
  | RequireMutualReachability => 7
  | MaxLeaseLifetimeTicks => 8
  | RequireReconsentOnGenerationChange => 9
  | PrecedenceForGrant => 10
  | RequireReattestationAfterPartition => 11
  | ObservationFreshnessTicks => 12
  | AllowGenerationChangeWithoutReconsent => 13
  end.

(** The enumerators in the order of their values. *)
Definition all : list t :=
  [RequireEndorsements; RequireDistinctParties; RequireCapability;
   ForbidScopeDelegation; RequireLease; SuspendGlobalMutationOnPartition;
   SuspendGlobalMutationWhileReconciling; RequireMutualReachability;
   MaxLeaseLifetimeTicks; RequireReconsentOnGenerationChange; PrecedenceForGrant;
   RequireReattestationAfterPartition; ObservationFreshnessTicks;
   AllowGenerationChangeWithoutReconsent].

Definition to_string (x : t) : string :=
  match x with
  | RequireEndorsements => "require-endorsements"
  | RequireDistinctParties => "require-distinct-parties"
  | RequireCapability => "require-capability"
  | ForbidScopeDelegation => "forbid-scope-delegation"
  | RequireLease => "require-lease"
  | SuspendGlobalMutationOnPartition => "suspend-global-mutation-on-partition"
  | SuspendGlobalMutationWhileReconciling => "suspend-global-mutation-while-reconciling"
  | RequireMutualReachability => "require-mutual-reachability"
  | MaxLeaseLifetimeTicks => "max-lease-lifetime-ticks"
  | RequireReconsentOnGenerationChange => "require-reconsent-on-generation-change"
  | PrecedenceForGrant => "precedence-for-grant"
  | RequireReattestationAfterPartition => "require-reattestation-after-partition"
  | ObservationFreshnessTicks => "observation-freshness-ticks"
  | AllowGenerationChangeWithoutReconsent => "allow-generation-change-without-reconsent"
  end.

#[global] Instance enum : WireEnum t.
Proof. refine {| wire := value; enum_all := all |}. by intros []. Defined.
End PolicyRuleKind.

(** ** Rules *)

Record PolicyRule := mkRule {
  rule_id : RuleId;
  rule_kind : PolicyRuleKind.t;
  enabled : bool;
  rule_value : N;
  rule_scope : ScopeId;
  rule_capability : CapabilityRequirement;
  rule_members : list MemberId;
  rule_description : string
}.
#[export] Instance PolicyRule_eq_dec : EqDecision PolicyRule.
Proof. solve_decision. Defined.

(** [PolicyRule()]. *)
Definition no_rule : PolicyRule :=
  mkRule (mkName "") PolicyRuleKind.RequireEndorsements true 0 (mkName "") no_requirement [] "".

Definition rule_to_string (r : PolicyRule) : string :=
  str (rule_id r) +s+ " kind=" +s+ PolicyRuleKind.to_string (rule_kind r) +s+
  (if enabled r then " enabled" else " disabled") +s+ " value=" +s+ to_dec (rule_value r) +s+
  (if name_empty (rule_scope r) then "" else " scope=" +s+ str (rule_scope r)) +s+
  (if name_empty (req_capability (rule_capability r)) then ""
   else " capability=" +s+ requirement_to_string (rule_capability r)) +s+
  (if decide (rule_members r = []) then ""
   else " members=[" +s+ String.concat "," (id_to_string <$> rule_members r) +s+ "]").

#[export] Instance PolicyRule_codec : Codec PolicyRule := {
  encode r :=
    Writer.identifier (str (rule_id r)) >+> Writer.u8 (wire (rule_kind r)) >+>
    Writer.boolean (enabled r) >+> Writer.u64 (rule_value r) >+>
    Writer.identifier (str (rule_scope r)) >+> encode (rule_capability r) >+>
    enc_list kMaxMembers encode (rule_members r) >+>
    Writer.text (rule_description r) kMaxShortTextLength;
  decode :=
    i ← dec_name_or_empty RuleIdTag "policy rule identifier is malformed";
    k ← Reader.u8;
    k ← dec_enum k ErrorCode.InvalidArgument "policy rule kind is out of range";
    e ← Reader.boolean;
    v ← Reader.u64;
    s ← dec_name_or_empty ScopeIdTag "policy rule scope is malformed";
    c ← decode;
    m ← dec_list kMaxMembers decode;
    d ← Reader.text kMaxShortTextLength;
    mret (mkRule i k e v s c m d);
  wire_ok r := name_or_empty (rule_id r) ∧ rule_value r ≤ u64_max ∧ name_or_empty (rule_scope r) ∧
               wire_ok (rule_capability r) ∧ Forall wire_ok (rule_members r)
}.
#[export] Instance PolicyRule_codec_laws : CodecLaws PolicyRule.
Proof.
  intros [i k e v s c m d] bs rest (? & ? & ? & ? & ?) Hbs.
  cbn [encode decode wire_ok PolicyRule_codec rule_id rule_kind enabled rule_value rule_scope
       rule_capability rule_members rule_description] in *.
  split_enc. by read_fields.
Qed.

(** ** Policies *)

Record FederationPolicy := mkPolicy {
  policy_id : PolicyId;
  policy_generation : Generation;
  rules : list PolicyRule;
  policy_description : string
}.
#[export] Instance FederationPolicy_eq_dec : EqDecision FederationPolicy.
Proof. solve_decision. Defined.

Definition canonical_rule (r : PolicyRule) : PolicyRule :=
  mkRule (rule_id r) (rule_kind r) (enabled r) (rule_value r) (rule_scope r) (rule_capability r)
         (sort_unique (rule_members r)) (rule_description r).
Definition canonicalize (p : FederationPolicy) : FederationPolicy :=
  mkPolicy (policy_id p) (policy_generation p) (sort_by rule_id (canonical_rule <$> rules p))
           (policy_description p).

#[export] Instance FederationPolicy_codec : Codec FederationPolicy := {
  encode p :=
    let copy := canonicalize p in
    Writer.identifier (str (policy_id copy)) >+> Writer.u64 (value (policy_generation copy)) >+>
    enc_list kMaxPolicyRules encode (rules copy) >+>
    Writer.text (policy_description copy) kMaxTextLength;
  decode :=
    i ← dec_name_or_empty PolicyIdTag "policy identifier is malformed";
    g ← Reader.u64;
    r ← dec_list kMaxPolicyRules decode;
    d ← Reader.text kMaxTextLength;
    mret (canonicalize (mkPolicy i (mkCounter g) r d));
  wire_ok p := name_or_empty (policy_id p) ∧ wire_ok (policy_generation p) ∧
               Forall wire_ok (rules p) ∧ canonicalize p = p
}.
#[export] Instance FederationPolicy_codec_laws : CodecLaws FederationPolicy.
Proof.
  intros p bs rest (? & ? & ? & Hcanon) Hbs.
  cbn [encode decode wire_ok FederationPolicy_codec] in *. rewrite Hcanon in Hbs. cbv zeta in Hbs.
  destruct p as [i [g] r d]; cbn [policy_id policy_generation rules policy_description value] in *.
  split_enc. read_fields. unfold mret, Dec_ret. by rewrite Hcanon.
Qed.

Definition policy_digest (p : FederationPolicy) : Digest := digest_of (encode p).
Definition policy_to_string (p : FederationPolicy) : string :=
  str (policy_id p) +s+ " generation=" +s+ to_dec (value (policy_generation p)) +s+
  " rules=" +s+ to_dec (size (rules p)) +s+ " digest=" +s+ hex16 (policy_digest p).

Definition find_rule (p : FederationPolicy) (i : RuleId) : option PolicyRule :=
  List.find (λ r, bool_decide (rule_id r = i)) (rules p).

(** ** Effective parameters *)

Definition of_kind (k : PolicyRuleKind.t) (r : PolicyRule) : bool :=
  enabled r && bool_decide (rule_kind r = k).
(** The loops that keep the value of the last enabled rule of a kind, and the
    loops that return at the first one. *)
Definition last_value (p : FederationPolicy) (k : PolicyRuleKind.t) (default : N) : N :=
  foldl (λ v r, if of_kind k r then rule_value r else v) default (rules p).
Definition first_flag (p : FederationPolicy) (k : PolicyRuleKind.t) : bool :=
  match List.find (of_kind k) (rules p) with
  | Some r => negb (rule_value r =? 0)
  | None => true
  end.
(** [!rule.scope.empty() && rule.scope.covers(scope)]. *)
Definition rule_covers (r : PolicyRule) (s : ScopeId) : bool :=
  negb (name_empty (rule_scope r)) && covers (rule_scope r) s.

Definition kDefaultMaxLeaseLifetimeTicks : N := 100000.
Definition kDefaultObservationFreshnessTicks : N := 100000.

Definition required_endorsements (p : FederationPolicy) : N :=
  let v := last_value p PolicyRuleKind.RequireEndorsements 1 in
  if kMaxRequiredEndorsements <? v then kMaxRequiredEndorsements else v.
Definition required_distinct_parties (p : FederationPolicy) : N :=
  let v := last_value p PolicyRuleKind.RequireDistinctParties 2 in
  let v := if v <? 2 then 2 else v in
  if kMaxMembers <? v then kMaxMembers else v.
Definition scope_delegation_forbidden (p : FederationPolicy) (s : ScopeId) : bool :=
  existsb (λ r, of_kind PolicyRuleKind.ForbidScopeDelegation r && rule_covers r s) (rules p).
Definition lease_required (p : FederationPolicy) (g : ScopeGrant) : bool :=
  if negb (bool_decide (verb g = AuthorityVerb.Mutate)) &&
     negb (bool_decide (verb g = AuthorityVerb.Administer)) then false
  else existsb (λ r, of_kind PolicyRuleKind.RequireLease r && rule_covers r (scope g)) (rules p).
Definition max_lease_lifetime_ticks (p : FederationPolicy) : N :=
  last_value p PolicyRuleKind.MaxLeaseLifetimeTicks kDefaultMaxLeaseLifetimeTicks.
Definition reconsent_on_generation_change (p : FederationPolicy) : bool :=
  foldl (λ reconsent r,
           if negb (enabled r) then reconsent
           else match rule_kind r with
                | PolicyRuleKind.RequireReconsentOnGenerationChange => negb (rule_value r =? 0)
                | PolicyRuleKind.AllowGenerationChangeWithoutReconsent => rule_value r =? 0
                | _ => reconsent
                end) true (rules p).
Definition suspend_global_mutation_on_partition (p : FederationPolicy) : bool :=
  first_flag p PolicyRuleKind.SuspendGlobalMutationOnPartition.
Definition suspend_global_mutation_while_reconciling (p : FederationPolicy) : bool :=
  first_flag p PolicyRuleKind.SuspendGlobalMutationWhileReconciling.
Definition require_mutual_reachability (p : FederationPolicy) : bool :=
  first_flag p PolicyRuleKind.RequireMutualReachability.
Definition require_reattestation_after_partition (p : FederationPolicy) : bool :=
  first_flag p PolicyRuleKind.RequireReattestationAfterPartition.
Definition observation_freshness_ticks (p : FederationPolicy) : N :=
  last_value p PolicyRuleKind.ObservationFreshnessTicks kDefaultObservationFreshnessTicks.
Definition precedence_for (p : FederationPolicy) (g : ScopeGrant) : option (list MemberId) :=
  rule_members <$>
    List.find (λ r, of_kind PolicyRuleKind.PrecedenceForGrant r && rule_covers r (scope g)) (rules p).
Definition mandatory_capabilities (p : FederationPolicy) : list CapabilityRequirement :=
  sort_unique (rule_capability <$>
    filter (λ r, (of_kind PolicyRuleKind.RequireCapability r &&
                  negb (name_empty (req_capability (rule_capability r)))) = true) (rules p)).

(** ** Validation *)

(** [members.size() != sort_unique(members).size()]. *)
Definition has_duplicates {A} `{Cmp A, EqDecision A} (l : list A) : bool :=
  negb (length (sort_unique l) =? length l)%nat.

Definition validate_precedence_members (r : PolicyRule) : Result unit :=
  fail_if (bool_decide (rule_kind r = PolicyRuleKind.PrecedenceForGrant) &&
           has_duplicates (rule_members r))
          ErrorCode.Conflict "a precedence list names the same member more than once".

(** The loop comparing each rule's identifier with its predecessor's. *)
Fixpoint validate_adjacent (l : list PolicyRule) : Result unit :=
  match l with
  | a :: ((b :: _) as l') =>
      fail_if (bool_decide (rule_id b = rule_id a)) ErrorCode.Conflict
              ("policy declares rule " +s+ str (rule_id b) +s+ " twice");;
      validate_adjacent l'
  | _ => Ok tt
  end.

Definition validate_rule (r : PolicyRule) : Result unit :=
  fail_if (kMaxShortTextLength <? str_size (rule_description r)) ErrorCode.BoundsExceeded
          "policy rule description is too long";;
  fail_if (bool_decide (rule_kind r = PolicyRuleKind.RequireEndorsements) &&
           (kMaxRequiredEndorsements <? rule_value r))
          ErrorCode.OutOfRange "required endorsement count is out of range";;
  fail_if (bool_decide (rule_kind r = PolicyRuleKind.RequireDistinctParties) && (rule_value r <? 2))
          ErrorCode.InvalidArgument
          "a non-bootstrap admission requires at least two distinct parties";;
  if decide (rule_kind r = PolicyRuleKind.PrecedenceForGrant) then
    fail_if (kMaxPrecedenceEntries <? size (rule_members r)) ErrorCode.BoundsExceeded
            "precedence list is too long";;
    fail_if (name_empty (rule_scope r)) ErrorCode.InvalidArgument
            "a precedence rule must name the scope it applies to";;
    fail_if (has_duplicates (rule_members r)) ErrorCode.Conflict
            "a precedence list names the same member more than once"
  else Ok tt.

Definition validate_policy (p : FederationPolicy) : Result unit :=
  fail_if (name_empty (policy_id p)) ErrorCode.InvalidArgument "policy has no identifier";;
  fail_if (kMaxPolicyRules <? size (rules p)) ErrorCode.BoundsExceeded "policy has too many rules";;
  check_each validate_precedence_members (rules p);;
  let canonical := canonicalize p in
  validate_adjacent (rules canonical);;
  check_each validate_rule (rules canonical).

(** ** The shipped policy *)

Definition parsed_name t (text : string) : BasicName t :=
  match name_parse t text with Ok n => n | Err _ => mkName "" end.
Definition make_rule (id : string) (kind : PolicyRuleKind.t) (v : N) (text : string) : PolicyRule :=
  mkRule (parsed_name RuleIdTag id) kind true v (mkName "") no_requirement [] text.
Definition with_scope (r : PolicyRule) (s : ScopeId) : PolicyRule :=
  mkRule (rule_id r) (rule_kind r) (enabled r) (rule_value r) s (rule_capability r)
         (rule_members r) (rule_description r).
Definition with_capability (r : PolicyRule) (c : CapabilityRequirement) : PolicyRule :=
  mkRule (rule_id r) (rule_kind r) (enabled r) (rule_value r) (rule_scope r) c
         (rule_members r) (rule_description r).

Definition default_policy : FederationPolicy :=
  canonicalize {|
    policy_id := match name_parse PolicyIdTag "fabric-federation.default.v1" with
                 | Ok i => i | Err _ => parsed_name PolicyIdTag "fallback" end;
    policy_generation := mkCounter 1;
    policy_description :=
      "conservative defaults: two distinct parties, no third-party endorsement required, leases for mutating federation grants, re-consent on generation change, global-mutation suspension on partition or while reconciling";
    rules :=
      [make_rule "fed.rule.endorsements" PolicyRuleKind.RequireEndorsements 0
         "third-party endorsements required beyond the sponsor and the candidate; zero means the sponsor and the candidate are enough";
       make_rule "fed.rule.distinct-parties" PolicyRuleKind.RequireDistinctParties 2
         "at least two distinct member identities across the admission evidence";
       with_scope
         (make_rule "fed.rule.lease-required" PolicyRuleKind.RequireLease 1
            "mutating and administering federation grants require a lease")
         (parsed_name ScopeIdTag "federation.*");
       make_rule "fed.rule.partition-suspend" PolicyRuleKind.SuspendGlobalMutationOnPartition 1
         "a split or indeterminate partition suspends global-mutation authority";
       make_rule "fed.rule.reconcile-suspend" PolicyRuleKind.SuspendGlobalMutationWhileReconciling 1
         "global-mutation authority stays suspended until reconciliation completes";
       make_rule "fed.rule.mutual-reachability" PolicyRuleKind.RequireMutualReachability 1
         "an edge requires both endpoints to confirm each other";
       make_rule "fed.rule.max-lease-lifetime" PolicyRuleKind.MaxLeaseLifetimeTicks 100000
         "leases expire after this many logical ticks";
       make_rule "fed.rule.reconsent-on-generation-change"
         PolicyRuleKind.RequireReconsentOnGenerationChange 1
         "a generation change fences authority until the member consents again";
       make_rule "fed.rule.reattestation-after-partition"
         PolicyRuleKind.RequireReattestationAfterPartition 1
         "every active member must re-attest after a partition before global mutation resumes";
       make_rule "fed.rule.observation-freshness" PolicyRuleKind.ObservationFreshnessTicks 100000
         "reachability observations older than this many ticks stop counting";
       with_capability
         (make_rule "fed.rule.require-protocol" PolicyRuleKind.RequireCapability 1
            "every member must declare the framed transport capability")
         (mkRequirement (parsed_name CapabilityIdTag "federation.protocol.v1") 1 1 true)]
  |}%string.

(** ** Canonical form *)

Lemma canonical_rule_id r : rule_id (canonical_rule r) = rule_id r.
Proof. done. Qed.

Lemma rules_canonicalize_perm p : rules (canonicalize p) ≡ₚ canonical_rule <$> rules p.
Proof. apply sort_by_perm. Qed.

Lemma canonical_ids p : rule_id <$> rules (canonicalize p) ≡ₚ rule_id <$> rules p.
Proof. rewrite rules_canonicalize_perm, <-list_fmap_compose. done. Qed.

(** Distinct identifiers separate the rules. *)
Lemma NoDup_fmap_separates {A B} (f : A → B) l x y :
  NoDup (f <$> l) → x ∈ l → y ∈ l → f x = f y → x = y.
Proof.
  intros Hnd Hx Hy Hf. induction l as [|z l IH]; [by apply elem_of_nil in Hx|].
  rewrite fmap_cons in Hnd. apply NoDup_cons in Hnd as [Hz Hnd]. rewrite list_elem_of_fmap in Hz.
  apply elem_of_cons in Hx as [->|Hx], Hy as [->|Hy]; try done; [naive_solver..|by apply IH].
Qed.

Lemma canonicalize_perm p q :
  NoDup (rule_id <$> rules p) → policy_id p = policy_id q →
  policy_generation p = policy_generation q → policy_description p = policy_description q →
  (canonical_rule <$> rules p) ≡ₚ (canonical_rule <$> rules q) →
  canonicalize p = canonicalize q.
Proof.
  intros Hnd Hid Hgen Hdesc Hperm. unfold canonicalize. rewrite Hid, Hgen, Hdesc. f_equal.
  apply sort_by_permutation; [apply _| |done]. intros x y. apply NoDup_fmap_separates.
  by rewrite <-list_fmap_compose.
Qed.

Lemma canonicalize_idemp p :
  NoDup (rule_id <$> rules p) → canonicalize (canonicalize p) = canonicalize p.
Proof.
  intros Hnd. apply canonicalize_perm; [by rewrite canonical_ids|done..|].
  rewrite rules_canonicalize_perm, <-list_fmap_compose. apply reflexive_eq, list_fmap_ext.
  intros _ r _. unfold canonical_rule; simpl. by rewrite sort_unique_idemp.
Qed.

(** ** Validation *)

Lemma has_duplicates_false {A} `{CmpLaws A, EqDecision A} (l : list A) :
  has_duplicates l = false ↔ NoDup l.
Proof.
  unfold has_duplicates. rewrite negb_false_iff, Nat.eqb_eq. split.
  - intros Hlen. assert (sort_unique l ≡ₚ l) as <-; [|apply NoDup_sort_unique].
    apply submseteq_length_Permutation; [|lia].
    apply NoDup_submseteq; [apply NoDup_sort_unique|]. intros x. by rewrite elem_of_sort_unique.
  - apply length_sort_unique_NoDup.
Qed.

Lemma validate_adjacent_Ok l :
  StronglySorted (key_le rule_id) l → validate_adjacent l = Ok tt ↔ NoDup (rule_id <$> l).
Proof.
  induction 1 as [|a l Hl IH Ha]; [by split; [constructor|]|].
  destruct l as [|b l]; [by split; [repeat constructor; set_solver|]|].
  cbn [validate_adjacent]. rewrite bind_Ok. setoid_rewrite fail_if_Ok.
  rewrite fmap_cons, NoDup_cons, <-IH. split.
  - intros ([] & Hne & Hadj). split; [|done]. apply bool_decide_eq_false in Hne.
    intros (x & Hx & Hin)%list_elem_of_fmap.
    apply elem_of_cons in Hin as [->|Hin]; [by rewrite Hx in Hne|].
    apply Hne, (not_after_antisymm (A:=RuleId)).
    + rewrite Hx. apply StronglySorted_cons in Hl as [Hb _]. rewrite Forall_forall in Hb. by apply Hb.
    + apply Forall_cons in Ha as [Hab _]. exact Hab.
  - intros [Hnin Hadj]. exists tt. split; [|done]. apply bool_decide_eq_false.
    intros Heq. apply Hnin. rewrite fmap_cons, Heq. by left.
Qed.

(** What the validator promises about a rule. *)
Definition rule_valid (r : PolicyRule) : Prop :=
  str_size (rule_description r) ≤ kMaxShortTextLength ∧
  (rule_kind r = PolicyRuleKind.RequireEndorsements → rule_value r ≤ kMaxRequiredEndorsements) ∧
  (rule_kind r = PolicyRuleKind.RequireDistinctParties → 2 ≤ rule_value r) ∧
  (rule_kind r = PolicyRuleKind.PrecedenceForGrant →
     size (rule_members r) ≤ kMaxPrecedenceEntries ∧ str (rule_scope r) ≠ ""%string ∧
     NoDup (rule_members r)).

Lemma guard_false (P : Prop) `{!Decision P} b :
  bool_decide P && b = false ↔ (P → b = false).
Proof. case_bool_decide; destruct b; naive_solver. Qed.

Lemma validate_rule_Ok r : validate_rule r = Ok tt ↔ rule_valid r.
Proof.
  unfold validate_rule, rule_valid. rewrite bind_Ok. setoid_rewrite bind_Ok. setoid_rewrite bind_Ok.
  setoid_rewrite fail_if_Ok. setoid_rewrite guard_false.
  assert ((if decide (rule_kind r = PolicyRuleKind.PrecedenceForGrant) then
      fail_if (kMaxPrecedenceEntries <? size (rule_members r)) ErrorCode.BoundsExceeded
              "precedence list is too long";;
      fail_if (name_empty (rule_scope r)) ErrorCode.InvalidArgument
              "a precedence rule must name the scope it applies to";;
      fail_if (has_duplicates (rule_members r)) ErrorCode.Conflict
              "a precedence list names the same member more than once"
    else Ok tt) = Ok tt ↔
    (rule_kind r = PolicyRuleKind.PrecedenceForGrant →
     size (rule_members r) ≤ kMaxPrecedenceEntries ∧ str (rule_scope r) ≠ ""%string ∧
     NoDup (rule_members r))) as Hif.
  { case_decide; [|naive_solver]. rewrite bind_Ok. setoid_rewrite bind_Ok.
    setoid_rewrite fail_if_Ok. setoid_rewrite has_duplicates_false. unfold name_empty.
    setoid_rewrite N.ltb_ge. setoid_rewrite bool_decide_eq_false. split; [naive_solver|].
    intros Hall. destruct Hall as (? & ? & ?); [done|]. by exists tt; split; [|exists tt]. }
  setoid_rewrite Hif. setoid_rewrite N.ltb_ge. split; [naive_solver|].
  intros (? & ? & ? & ?). by exists tt; split; [|exists tt; split; [|exists tt]].
Qed.

Lemma rule_valid_canonical r :
  (rule_kind r = PolicyRuleKind.PrecedenceForGrant → NoDup (rule_members r)) →
  rule_valid (canonical_rule r) ↔ rule_valid r.
Proof.
  intros Hnd. unfold rule_valid, canonical_rule, size; simpl.
  destruct (decide (rule_kind r = PolicyRuleKind.PrecedenceForGrant)) as [Hk|Hk]; [|naive_solver].
  specialize (Hnd Hk). rewrite length_sort_unique_NoDup by done.
  pose proof (NoDup_sort_unique (rule_members r)). naive_solver.
Qed.

(** [validate_policy] accepts exactly the policies that have an identifier,
    at most 1024 rules with distinct identifiers, and rules within their bounds
    (at most 32 endorsements, at least two parties, precedence lists that are
    bounded, scoped and free of repetitions). *)
Theorem validate_policy_exact (p : FederationPolicy) :
  validate_policy p = Ok tt ↔
    str (policy_id p) ≠ ""%string ∧ size (rules p) ≤ kMaxPolicyRules ∧
    NoDup (rule_id <$> rules p) ∧ (∀ r, r ∈ rules p → rule_valid r).
Proof.
  unfold validate_policy. cbv zeta.
  rewrite bind_Ok. do 3 setoid_rewrite bind_Ok. setoid_rewrite fail_if_Ok.
  assert (StronglySorted (key_le rule_id) (rules (canonicalize p))) as Hsorted
    by (apply sort_by_strongly_sorted; apply _).
  assert ((check_each validate_precedence_members (rules p) = Ok tt) ↔
    ∀ r, r ∈ rules p → rule_kind r = PolicyRuleKind.PrecedenceForGrant → NoDup (rule_members r)) as Hpre.
  { rewrite check_each_Ok, Forall_forall. unfold validate_precedence_members.
    split; intros Hall r Hr; specialize (Hall r Hr); revert Hall;
      by rewrite fail_if_Ok, guard_false, has_duplicates_false. }
  unfold name_empty. setoid_rewrite bool_decide_eq_false. setoid_rewrite N.ltb_ge. split.
  - intros ([] & ? & [] & ? & [] & Hprec & [] & Hadj & Hrules).
    rewrite Hpre in Hprec. rewrite validate_adjacent_Ok, canonical_ids in Hadj by done.
    split_and!; [done..|]. intros r Hr.
    rewrite check_each_Ok, Forall_forall in Hrules.
    apply rule_valid_canonical; [by apply Hprec|]. apply validate_rule_Ok, Hrules.
    rewrite rules_canonicalize_perm. by apply list_elem_of_fmap_2.
  - intros (? & ? & Hnd & Hall). exists tt. split; [done|]. exists tt. split; [done|].
    assert (check_each validate_precedence_members (rules p) = Ok tt) as Hprec.
    { apply Hpre. intros r Hr Hk. by apply (Hall r Hr). }
    exists tt. split; [done|]. exists tt.
    rewrite validate_adjacent_Ok, canonical_ids by done. split; [done|].
    rewrite check_each_Ok, Forall_forall. intros r' Hr'. rewrite rules_canonicalize_perm in Hr'.
    apply list_elem_of_fmap in Hr' as (r & -> & Hr). apply validate_rule_Ok, rule_valid_canonical; [|by apply Hall].
    rewrite Hpre in Hprec. by apply Hprec.
Qed.

(** ** Effective parameters *)

(** Whatever a policy says, even one that was never validated, an
    admission needs at least two and at most 1024 distinct parties, and at most
    32 endorsements. *)
Theorem policy_parameter_bounds (p : FederationPolicy) :
  2 ≤ required_distinct_parties p ≤ kMaxMembers ∧
  required_endorsements p ≤ kMaxRequiredEndorsements.
Proof.
  unfold required_distinct_parties, required_endorsements, kMaxMembers, kMaxRequiredEndorsements.
  cbv zeta. generalize (last_value p PolicyRuleKind.RequireDistinctParties 2) as v.
  generalize (last_value p PolicyRuleKind.RequireEndorsements 1) as w. intros w v.
  destruct (N.ltb_spec v 2); destruct (N.ltb_spec 32 w);
    repeat match goal with |- context [if ?a <? ?b then _ else _] => destruct (N.ltb_spec a b) end; lia.
Qed.

(** A policy with distinct rule identifiers has one canonical form and one
    digest however its rules are ordered, canonicalising is idempotent, and
    encoding a policy and decoding it yields its canonical form. *)
Theorem policy_canonical (p q : FederationPolicy) :
  NoDup (rule_id <$> rules p) →
  canonicalize (canonicalize p) = canonicalize p ∧
  (rules p ≡ₚ rules q → policy_id p = policy_id q → policy_generation p = policy_generation q →
     policy_description p = policy_description q →
     canonicalize p = canonicalize q ∧ policy_digest p = policy_digest q) ∧
  (∀ bs, wire_ok (canonicalize p) → encode p = Ok bs → decode_exact bs = Ok (canonicalize p)).
Proof.
  intros Hnd. pose proof (canonicalize_idemp p Hnd) as Hidem. split_and!; [done| |].
  - intros Hperm Hid Hgen Hdesc. assert (canonicalize p = canonicalize q) as Heq.
    { apply canonicalize_perm; [done..|]. by rewrite Hperm. }
    split; [done|]. unfold policy_digest. cbn [encode FederationPolicy_codec]. by rewrite Heq.
  - intros bs Hok Hbs. apply decode_exact_encode; [done|].
    cbn [encode FederationPolicy_codec] in *. by rewrite Hidem.
Qed.
Lemma policy_canonical_witness :
  let a := make_rule "a" PolicyRuleKind.RequireEndorsements 3 "x" in
  let b := make_rule "b" PolicyRuleKind.RequireLease 1 "y" in
  let p l := mkPolicy (mkName "p") (mkCounter 1) l "" in
  canonicalize (p [b; a]) = canonicalize (p [a; b]) ∧
  policy_digest (p [b; a]) = policy_digest (p [a; b]).
Proof.
  intros a b p.
  assert (NoDup (rule_id <$> rules (p [b; a]))) as Hnd by (apply (bool_decide_unpack _); by vm_compute).
  apply (policy_canonical (p [b; a]) (p [a; b]) Hnd); [|done..].
  apply perm_swap.
Defined.

(** The shipped policy is valid and canonical and says what its description
    says: two distinct parties, no endorsement, a lease for every mutating or
    administering grant under "federation.", suspension on partition and while
    reconciling, re-consent and re-attestation, no forbidden delegation and no
    precedence. *)
Theorem default_policy_parameters :
  validate_policy default_policy = Ok tt ∧ canonicalize default_policy = default_policy ∧
  required_distinct_parties default_policy = 2 ∧ required_endorsements default_policy = 0 ∧
  suspend_global_mutation_on_partition default_policy = true ∧
  suspend_global_mutation_while_reconciling default_policy = true ∧
  reconsent_on_generation_change default_policy = true ∧
  require_reattestation_after_partition default_policy = true ∧
  (∀ g, lease_required default_policy g =
     (bool_decide (verb g = AuthorityVerb.Mutate) || bool_decide (verb g = AuthorityVerb.Administer)) &&
     covers (mkName "federation.*") (scope g)) ∧
  (∀ s, scope_delegation_forbidden default_policy s = false) ∧
  (∀ g, precedence_for default_policy g = None) ∧
  mandatory_capabilities default_policy = [mkRequirement (mkName "federation.protocol.v1") 1 1 true].
Proof.
  let l := eval vm_compute in (rules default_policy) in
  assert (rules default_policy = l) as Hrules by by vm_compute.
  split_and!; try by vm_compute.
  intros [s []]; unfold lease_required; rewrite Hrules; simpl; by rewrite ?orb_false_r.
Qed.

(** Canonicalising sorts the members of a precedence list, so two policies
    that rank the same members differently become the same policy: the ranking
    a policy author wrote never reaches the derivation. *)
Theorem precedence_ranking_is_lost (i : RuleId) (v : N) (s : ScopeId) (c : CapabilityRequirement)
    (d : string) (ranking ranking' : list MemberId) (pid : PolicyId) (gen : Generation) (pd : string) :
  ranking ≡ₚ ranking' →
  let policy l :=
    canonicalize (mkPolicy pid gen [mkRule i PolicyRuleKind.PrecedenceForGrant true v s c l d] pd) in
  policy ranking = policy ranking' ∧
  ∀ g l, precedence_for (policy ranking) g = Some l → StronglySorted strictly_before l.
Proof.
  intros Hperm policy. split.
  - unfold policy, canonicalize. cbn [rules policy_id policy_generation policy_description].
    unfold canonical_rule. cbn [fmap list_fmap rule_id rule_kind enabled rule_value rule_scope
      rule_capability rule_members rule_description].
    by rewrite (sort_unique_ext ranking ranking') by (intros x; by rewrite Hperm).
  - intros g l. unfold precedence_for. intros (r & Hf & ->)%fmap_Some.
    apply List.find_some in Hf as [Hin _]. apply list_elem_of_In in Hin.
    unfold policy in Hin. rewrite rules_canonicalize_perm in Hin.
    apply list_elem_of_fmap in Hin as (r' & -> & _). apply sort_unique_strict.
Qed.
Lemma precedence_ranking_is_lost_witness :
  let a := derive MemberIdTag "a" 0 in
  let b := derive MemberIdTag "b" 0 in
  let policy l :=
    canonicalize (mkPolicy (mkName "p") (mkCounter 1)
      [mkRule (mkName "r") PolicyRuleKind.PrecedenceForGrant true 0 (mkName "federation.*")
              no_requirement l ""] "") in
  policy [a; b] = policy [b; a].
Proof.
  intros a b policy.
  apply (precedence_ranking_is_lost (mkName "r") 0 (mkName "federation.*") no_requirement ""
           [a; b] [b; a] (mkName "p") (mkCounter 1) ""), perm_swap.
Defined.
