(* ===== verification/Identity.v ===== *)
(** * Member identity

    Models include/fabric_federation/identity.hpp and src/identity.cpp: the
    lifecycle states, constitutions and their structural validation, runtime
    identities and their comparison, declarations and membership slots. *)

From S2P Require Import Prelude Errors Sha256 Text Codec Ids Names Scope Capability.

Module MemberLifecycleState.
Inductive t :=
  | Absent | Proposed | Admitted_ | Active | Degraded | Fenced | Leaving | Retired.

(** The underlying integer of the enumerator. *)
Definition value (x : t) : N :=
  match x with
  | Absent => 0
  | Proposed => 1
  | Admitted_ => 2
  | Active => 3
  | Degraded => 4
  | Fenced => 5
  | Leaving => 6
  | Retired => 7
  end.

(** The enumerators in the order of their values. *)
Definition all : list t :=
  [Absent; Proposed; Admitted_; Active; Degraded; Fenced; Leaving; Retired].

Definition to_string (x : t) : string :=
  match x with
  | Absent => "ABSENT"
  | Proposed => "PROPOSED"
  | Admitted_ => "ADMITTED"
  | Active => "ACTIVE"
  | Degraded => "DEGRADED"
  | Fenced => "FENCED"
  | Leaving => "LEAVING"
  | Retired => "RETIRED"
  end.

#[global] Instance enum : WireEnum t.
Proof. refine {| wire := value; enum_all := all |}. by intros []. Defined.
End MemberLifecycleState.

Module IdentityMismatch.
Inductive t :=
  | None | Member | Domain | Generation | Incarnation | Constitution | Node.

(** The underlying integer of the enumerator. *)
Definition value (x : t) : N :=
  match x with
  | None => 0
  | Member => 1
  | Domain => 2
  | Generation => 3
  | Incarnation => 4
  | Constitution => 5
  | Node => 6
  end.

(** The enumerators in the order of their values. *)
Definition all : list t :=
  [None; Member; Domain; Generation; Incarnation; Constitution; Node].

Definition to_string (x : t) : string :=
  match x with
  | None => "none"
  | Member => "member"
  | Domain => "domain"
  | Generation => "generation"
  | Incarnation => "incarnation"
  | Constitution => "constitution"
  | Node => "node"
  end.

#[global] Instance enum : WireEnum t.
Proof. refine {| wire := value; enum_all := all |}. by intros []. Defined.
End IdentityMismatch.

Definition lifecycle_holds_federation_authority (s : MemberLifecycleState.t) : bool :=
  bool_decide (s = MemberLifecycleState.Active) || bool_decide (s = MemberLifecycleState.Degraded).
Definition lifecycle_is_terminal (s : MemberLifecycleState.t) : bool :=
  bool_decide (s = MemberLifecycleState.Retired).

(** ** Constitutions *)

Record MemberConstitution := mkConstitution {
  con_domain : FabricDomainId;
  con_member : MemberId;
  con_generation : Generation;
  software_major : N;
  software_minor : N;
  software_patch : N;
  capabilities : list CapabilityStatement;
  requirements : list CapabilityRequirement;
  retained : list ScopeGrant;
  delegated : list DelegationTerms;
  con_description : string
}.
#[export] Instance MemberConstitution_eq_dec : EqDecision MemberConstitution.
Proof. solve_decision. Defined.

Definition constitution_canonicalize (c : MemberConstitution) : MemberConstitution :=
  mkConstitution (con_domain c) (con_member c) (con_generation c)
    (software_major c) (software_minor c) (software_patch c)
    (canonicalize_statements (capabilities c)) (canonicalize_requirements (requirements c))
    (canonicalize_grants (retained c)) (canonicalize_terms (delegated c)) (con_description c).

#[export] Instance MemberConstitution_codec : Codec MemberConstitution := {
  encode c :=
    encode (con_domain c) >+> encode (con_member c) >+> encode (con_generation c) >+>
    Writer.u32 (software_major c) >+> Writer.u32 (software_minor c) >+>
    Writer.u32 (software_patch c) >+>
    encode_statements (capabilities c) kMaxCapabilitiesPerMember >+>
    encode_requirements (requirements c) kMaxCapabilitiesPerMember >+>
    encode_grants (retained c) kMaxScopesPerMember >+>
    encode_terms (delegated c) kMaxDelegationTermsPerMember >+>
    Writer.text (con_description c) kMaxTextLength;
  decode :=
    d ← decode; m ← decode; g ← decode;
    major ← Reader.u32; minor ← Reader.u32; patch ← Reader.u32;
    caps ← decode_statements kMaxCapabilitiesPerMember;
    reqs ← decode_requirements kMaxCapabilitiesPerMember;
    ret ← decode_grants kMaxScopesPerMember;
    del ← decode_terms kMaxDelegationTermsPerMember;
    desc ← Reader.text kMaxTextLength;
    mret (constitution_canonicalize (mkConstitution d m g major minor patch caps reqs ret del desc));
  wire_ok c := wire_ok (con_domain c) ∧ wire_ok (con_member c) ∧ wire_ok (con_generation c) ∧
    software_major c ≤ u32_max ∧ software_minor c ≤ u32_max ∧ software_patch c ≤ u32_max ∧
    Forall wire_ok (capabilities c) ∧ Forall wire_ok (requirements c) ∧
    Forall wire_ok (retained c) ∧ Forall wire_ok (delegated c) ∧ constitution_canonicalize c = c
}.
#[export] Instance MemberConstitution_codec_laws : CodecLaws MemberConstitution.
Proof.
  intros c bs rest (? & ? & ? & ? & ? & ? & ? & ? & ? & ? & Hcanon) Hbs.
  destruct c as [d m g major minor patch caps reqs ret del desc].
  cbn [encode decode wire_ok MemberConstitution_codec con_domain con_member con_generation software_major
    software_minor software_patch capabilities requirements retained delegated con_description] in *.
  unfold encode_statements, encode_requirements, encode_grants, encode_terms,
    decode_statements, decode_requirements, decode_grants, decode_terms in *.
  split_enc. read_fields. unfold mret, Dec_ret. by rewrite Hcanon.
Qed.

Definition constitution_digest (c : MemberConstitution) : Digest :=
  digest_of (encode (constitution_canonicalize c)).

(** [items joined by ", "], or "(none)". *)
Definition render_list (l : list string) : string :=
  if decide (l = []) then "(none)"%string else String.concat ", " l.

Definition constitution_to_string (c : MemberConstitution) : string :=
  "domain=" +s+ id_to_string (con_domain c) +s+ " member=" +s+ id_to_string (con_member c) +s+
  " generation=" +s+ to_dec (value (con_generation c)) +s+ " software=" +s+
  to_dec (software_major c) +s+ "." +s+ to_dec (software_minor c) +s+ "." +s+
  to_dec (software_patch c) +s+ " retained=[" +s+ render_grants (retained c) +s+
  "] delegated=[" +s+ render_list (terms_to_string <$> delegated c) +s+
  "] capabilities=[" +s+ render_list (statement_to_string <$> capabilities c) +s+
  "] digest=" +s+ Digest_to_hex (constitution_digest c).

(** ** Validation *)

(** [text.size() >= 7 && text.compare(0, 7, "domain.") == 0]. *)
Definition inside_own_domain (s : ScopeId) : bool :=
  (7 <=? str_size (str s)) && String.prefix "domain." (str s).

Definition validate_delegated (catalog : ScopeCatalog) (t : DelegationTerms) : Result unit :=
  let s := scope (grant t) in
  fail_if (is_wildcard s && bool_decide (str s = "*"%string)) ErrorCode.InvalidArgument
          "a member may not delegate every scope at once";;
  let '(scope_class, known) := classify catalog s in
  fail_if (negb known) ErrorCode.InvalidArgument
          ("delegated scope " +s+ str s +s+ " is not in the scope catalogue");;
  fail_if (bool_decide (scope_class = ScopeClass.Local)) ErrorCode.InvalidArgument
          ("scope " +s+ str s +s+ " is local authority and cannot be delegated");;
  fail_if (inside_own_domain s) ErrorCode.InvalidArgument
          "a member may not delegate authority inside its own domain".

(** The inner loop over the delegated grants. *)
Definition grants_overlap (r d : ScopeGrant) : bool :=
  bool_decide (verb r = verb d) && (covers (scope d) (scope r) || covers (scope r) (scope d)).

Definition validate_retained (catalog : ScopeCatalog) (delegated_grants : list ScopeGrant)
    (r : ScopeGrant) : Result unit :=
  let '(scope_class, known) := classify catalog (scope r) in
  fail_if (negb known) ErrorCode.InvalidArgument
          ("retained scope " +s+ str (scope r) +s+ " is not in the scope catalogue");;
  fail_if (negb (bool_decide (scope_class = ScopeClass.Local))) ErrorCode.InvalidArgument
          ("scope " +s+ str (scope r) +s+
           " is federation authority and cannot be listed as retained local authority");;
  check_each (λ d, fail_if (grants_overlap r d) ErrorCode.InvalidArgument
    ("grant " +s+ grant_to_string r +s+
     " is declared both as retained local authority and as delegated authority")) delegated_grants.

Definition validate_constitution (c : MemberConstitution) (catalog : ScopeCatalog) : Result unit :=
  fail_if (is_nil (con_domain c)) ErrorCode.InvalidArgument "constitution has no domain identity";;
  fail_if (is_nil (con_member c)) ErrorCode.InvalidArgument "constitution has no member identity";;
  fail_if (kMaxCapabilitiesPerMember <? size (capabilities c)) ErrorCode.BoundsExceeded
          "too many capability statements";;
  fail_if (kMaxCapabilitiesPerMember <? size (requirements c)) ErrorCode.BoundsExceeded
          "too many capability requirements";;
  fail_if (kMaxScopesPerMember <? size (retained c)) ErrorCode.BoundsExceeded
          "too many retained grants";;
  fail_if (kMaxDelegationTermsPerMember <? size (delegated c)) ErrorCode.BoundsExceeded
          "too many delegation terms";;
  fail_if (kMaxTextLength <? str_size (con_description c)) ErrorCode.BoundsExceeded
          "constitution description is too long";;
  check_each (validate_delegated catalog) (delegated c);;
  check_each (validate_retained catalog (grant <$> delegated c)) (retained c).

(** ** Identities *)

Record MemberIdentity := mkIdentity {
  idn_domain : FabricDomainId;
  idn_member : MemberId;
  idn_generation : Generation;
  idn_incarnation : Incarnation;
  idn_constitution : Digest;
  idn_node : NodeId;
  started_at : Tick;
  reincarnated : bool
}.
#[export] Instance MemberIdentity_eq_dec : EqDecision MemberIdentity.
Proof. solve_decision. Defined.
Definition identity_key (i : MemberIdentity) :=
  (idn_member i, (idn_generation i, (idn_incarnation i, (idn_constitution i,
   (idn_node i, (idn_domain i, (started_at i, reincarnated i))))))).
#[export] Instance identity_key_inj : Inj (=) (=) identity_key.
Proof. by intros [] [] [= -> -> -> -> -> -> -> ->]. Qed.
#[export] Instance MemberIdentity_cmp : Cmp MemberIdentity := cmp_on identity_key.
#[export] Instance MemberIdentity_cmp_laws : CmpLaws MemberIdentity := cmp_on_laws identity_key.

(** [MemberIdentity()]. *)
Definition no_identity : MemberIdentity :=
  mkIdentity nil_id nil_id zero zero Digest_zero nil_id zero false.

#[export] Instance MemberIdentity_codec : Codec MemberIdentity := {
  encode i :=
    encode (idn_domain i) >+> encode (idn_member i) >+> encode (idn_generation i) >+>
    encode (idn_incarnation i) >+> encode (idn_constitution i) >+> encode (idn_node i) >+>
    encode (started_at i) >+> Writer.boolean (reincarnated i);
  decode :=
    d ← decode; m ← decode; g ← decode; inc ← decode; c ← decode; n ← decode; t ← decode;
    r ← Reader.boolean;
    mret (mkIdentity d m g inc c n t r);
  wire_ok i := wire_ok (idn_domain i) ∧ wire_ok (idn_member i) ∧ wire_ok (idn_generation i) ∧
    wire_ok (idn_incarnation i) ∧ wire_ok (idn_constitution i) ∧ wire_ok (idn_node i) ∧
    wire_ok (started_at i)
}.
#[export] Instance MemberIdentity_codec_laws : CodecLaws MemberIdentity.
Proof.
  intros [d m g inc c n t r] bs rest (? & ? & ? & ? & ? & ? & ?) Hbs.
  cbn [encode decode wire_ok MemberIdentity_codec idn_domain idn_member idn_generation
    idn_incarnation idn_constitution idn_node started_at reincarnated] in *.
  split_enc. by read_fields.
Qed.

Definition identity_to_string (i : MemberIdentity) : string :=
  id_to_string (idn_member i) +s+ " gen=" +s+ to_dec (value (idn_generation i)) +s+
  " inc=" +s+ to_dec (value (idn_incarnation i)) +s+ " node=" +s+ id_to_string (idn_node i) +s+
  " digest=" +s+ hex16 (idn_constitution i).
Definition identity_digest (i : MemberIdentity) : Digest := digest_of (encode i).
Definition same_lineage (a b : MemberIdentity) : bool :=
  bool_decide (idn_member a = idn_member b) && bool_decide (idn_domain a = idn_domain b).

Definition compare_identities (expected presented : MemberIdentity) : IdentityMismatch.t :=
  if negb (bool_decide (idn_member expected = idn_member presented)) then IdentityMismatch.Member
  else if negb (bool_decide (idn_domain expected = idn_domain presented)) then IdentityMismatch.Domain
  else if negb (bool_decide (idn_generation expected = idn_generation presented))
  then IdentityMismatch.Generation
  else if negb (bool_decide (idn_constitution expected = idn_constitution presented))
  then IdentityMismatch.Constitution
  else if negb (bool_decide (idn_incarnation expected = idn_incarnation presented))
  then IdentityMismatch.Incarnation
  else if negb (bool_decide (idn_node expected = idn_node presented)) then IdentityMismatch.Node
  else IdentityMismatch.None.

(** ** Declarations and slots *)

Record MemberDeclaration := mkDeclaration {
  decl_constitution : MemberConstitution;
  decl_incarnation : Incarnation;
  decl_node : NodeId;
  declared_at : Tick
}.
#[export] Instance MemberDeclaration_eq_dec : EqDecision MemberDeclaration.
Proof. solve_decision. Defined.

Definition declaration_identity (d : MemberDeclaration) : MemberIdentity :=
  let c := decl_constitution d in
  {| idn_domain := con_domain c; idn_member := con_member c; idn_generation := con_generation c;
     idn_incarnation := decl_incarnation d; idn_constitution := constitution_digest c;
     idn_node := decl_node d; started_at := declared_at d;
     reincarnated := negb (is_zero (decl_incarnation d)) && (1 <? value (decl_incarnation d)) |}.

#[export] Instance MemberDeclaration_codec : Codec MemberDeclaration := {
  encode d :=
    encode (decl_constitution d) >+> encode (decl_incarnation d) >+> encode (decl_node d) >+>
    encode (declared_at d);
  decode := c ← decode; inc ← decode; n ← decode; t ← decode; mret (mkDeclaration c inc n t);
  wire_ok d := wire_ok (decl_constitution d) ∧ wire_ok (decl_incarnation d) ∧
    wire_ok (decl_node d) ∧ wire_ok (declared_at d)
}.
#[export] Instance MemberDeclaration_codec_laws : CodecLaws MemberDeclaration.
Proof.
  intros [c inc n t] bs rest (? & ? & ? & ?) Hbs.
  cbn [encode decode wire_ok MemberDeclaration_codec decl_constitution decl_incarnation decl_node
    declared_at] in *.
  split_enc. by read_fields.
Qed.

Definition declaration_to_string (d : MemberDeclaration) : string :=
  constitution_to_string (decl_constitution d) +s+ " incarnation=" +s+
  to_dec (value (decl_incarnation d)) +s+ " node=" +s+ id_to_string (decl_node d).

Record MembershipSlot := mkSlot {
  slot_member : MemberId;
  slot_lineage : Lineage;
  slot_lineage_id : LineageId
}.
#[export] Instance MembershipSlot_eq_dec : EqDecision MembershipSlot.
Proof. solve_decision. Defined.
Definition slot_make (m : MemberId) (l : Lineage) : MembershipSlot :=
  mkSlot m l (derive LineageIdTag (id_to_string m) (value l)).

(** ** Theorems *)

Lemma validate_constitution_Ok c catalog :
  validate_constitution c catalog = Ok tt →
  (∀ d, d ∈ delegated c → validate_delegated catalog d = Ok tt) ∧
  (∀ r, r ∈ retained c → validate_retained catalog (grant <$> delegated c) r = Ok tt).
Proof.
  unfold validate_constitution. intros Hv.
  repeat match type of Hv with
         | mbind _ (check_each _ _) = _ => fail 1
         | mbind _ _ = _ => apply bind_Ok in Hv as ([] & _ & Hv)
         end.
  apply bind_Ok in Hv as ([] & Hd & Hr). rewrite check_each_Ok, Forall_forall in Hd. by rewrite check_each_Ok, Forall_forall in Hr.
Qed.

(** An accepted constitution keeps local and federation authority apart:
    everything it retains is a concrete scope of its own domain, everything it
    delegates is a catalogued federation scope outside any domain (never a
    pattern, so never "everything"), and no retained grant overlaps a delegated
    one in either direction. *)
Theorem constitution_separates_authority (c : MemberConstitution) :
  validate_constitution c builtin = Ok tt →
  (∀ r, r ∈ retained c → is_wildcard (scope r) = false ∧ in_domain (scope r) = true) ∧
  (∀ d, d ∈ delegated c →
     is_wildcard (scope (grant d)) = false ∧ in_domain (scope (grant d)) = false ∧
     catalog_find builtin (scope (grant d)) ≠ None) ∧
  (∀ r d, r ∈ retained c → d ∈ delegated c → grants_overlap r (grant d) = false).
Proof.
  intros Hv. apply validate_constitution_Ok in Hv as [Hdel Hret].
  assert (∀ r, r ∈ retained c → classify builtin (scope r) = (ScopeClass.Local, true) ∧
    ∀ d, d ∈ delegated c → grants_overlap r (grant d) = false) as Hr.
  { intros r Hin. specialize (Hret r Hin). unfold validate_retained in Hret.
    destruct (classify builtin (scope r)) as [cl known].
    apply bind_Ok in Hret as ([] & Hk & Hret). apply bind_Ok in Hret as ([] & Hl & Hret).
    apply fail_if_Ok in Hk, Hl. rewrite negb_false_iff in Hk, Hl.
    apply bool_decide_eq_true in Hl as ->. subst. split; [done|].
    intros d Hd. rewrite check_each_Ok, Forall_forall in Hret.
    eapply fail_if_Ok, Hret. by apply list_elem_of_fmap_2. }
  split_and!; [| |intros r d Hrin; by apply Hr].
  - intros r Hin. by apply (builtin_classification (scope r)), Hr.
  - intros d Hin. specialize (Hdel d Hin). unfold validate_delegated in Hdel. cbv zeta in Hdel.
    apply bind_Ok in Hdel as ([] & _ & Hdel).
    destruct (classify builtin (scope (grant d))) as [cl known] eqn:Ecl.
    apply bind_Ok in Hdel as ([] & Hk & Hdel). apply bind_Ok in Hdel as ([] & Hl & _).
    apply fail_if_Ok in Hk, Hl. apply negb_false_iff in Hk as ->.
    apply bool_decide_eq_false in Hl.
    destruct (builtin_classification (scope (grant d))) as (Hlocal & _ & Hunknown).
    rewrite Ecl in Hlocal, Hunknown. cbn [snd] in Hunknown.
    destruct (is_wildcard (scope (grant d))); 
      [assert (true = false) as Hf by (apply Hunknown; left; reflexivity); discriminate Hf|].
    destruct (in_domain (scope (grant d))).
    { assert ((cl, true) = (ScopeClass.Local, true)) as [= Hcl] by (apply Hlocal; split; reflexivity).
      by rewrite Hcl in Hl. }
    split_and!; [reflexivity|reflexivity|]. intros Hnone.
    assert (true = false) as Hf by (apply Hunknown; right; split; [exact Hnone|reflexivity]).
    discriminate Hf.
Qed.

Lemma constitution_separates_authority_witness :
  let c := mkConstitution (derive FabricDomainIdTag "d" 0) (derive MemberIdTag "m" 0) (mkCounter 1)
    1 0 0 [] [] [mkGrant (mkName "domain.storage") AuthorityVerb.Administer]
    [mkTerms (mkGrant (mkName "federation.route.advertise") AuthorityVerb.Mutate)
       DelegationMode.Shared 1 zero (mkName "")] "" in
  validate_constitution c builtin = Ok tt ∧
  ∀ r d, r ∈ retained c → d ∈ delegated c → grants_overlap r (grant d) = false.
Proof.
  intros c. assert (validate_constitution c builtin = Ok tt) as Hv by by vm_compute.
  split; [exact Hv|]. apply (constitution_separates_authority c Hv).
Defined.

(** Identities compare equal exactly when member, domain, generation,
    constitution digest, incarnation and node all agree (the start tick and the
    reincarnation mark do not matter), and a difference is attributed to the
    first of them that differs. *)
Theorem compare_identities_exact (expected presented : MemberIdentity) :
  (compare_identities expected presented = IdentityMismatch.None ↔
     idn_member expected = idn_member presented ∧ idn_domain expected = idn_domain presented ∧
     idn_generation expected = idn_generation presented ∧
     idn_constitution expected = idn_constitution presented ∧
     idn_incarnation expected = idn_incarnation presented ∧
     idn_node expected = idn_node presented) ∧
  (compare_identities expected presented = IdentityMismatch.Incarnation →
     same_lineage expected presented = true ∧
     idn_generation expected = idn_generation presented ∧
     idn_constitution expected = idn_constitution presented ∧
     idn_incarnation expected ≠ idn_incarnation presented).
Proof.
  unfold compare_identities, same_lineage. repeat case_bool_decide; simpl; naive_solver.
Qed.
Lemma compare_identities_exact_witness :
  let a := no_identity in
  let b := mkIdentity nil_id nil_id zero (mkCounter 2) Digest_zero nil_id zero true in
  compare_identities a b = IdentityMismatch.Incarnation ∧ same_lineage a b = true.
Proof.
  intros a b. split; [by vm_compute|].
  apply (compare_identities_exact a b). by vm_compute.
Defined.
