(* ===== verification/Explanation.v ===== *)
(** * Explanations

    Models include/fabric_federation/explanation.hpp and src/explanation.cpp:
    reason codes, contributions, and the bounded, canonical explanation every
    decision carries. *)

From S2P Require Import Prelude Errors Sha256 Text Codec Ids Names Scope.

Module ReasonCode.
Inductive t :=
  | MembershipActive | MembershipAdmittedPendingActivation
  | MembershipProposedInsufficientEvidence | MembershipAbsent | MembershipRetired
  | MembershipLeaving | MembershipFencedByOrder | MembershipRequiresReattestation
  | MembershipDegradedObservationGap | MultiPartySatisfied
  | MultiPartyInsufficientDistinctParties | MultiPartyInsufficientEndorsements
  | MultiPartyEndorserNotActive | MultiPartyProposerNotActive
  | MultiPartySelfProposalRejected | MultiPartyBootstrapGenesis | IdentityMatches
  | IdentityGenerationStale | IdentityIncarnationStale | IdentityConstitutionStale
  | IdentityDomainMismatch | IdentityMemberUnknown | GenerationChangeRequiresReconsent
  | GenerationChangeAcceptedByPolicy | ScopeCoveredByDelegation | ScopeNotDelegated
  | ScopeRetainedLocalAuthority | ScopeUnknownToCatalogue
  | ScopeDelegationForbiddenByPolicy | ScopeVerbNotDelegated
  | ScopeLocalAuthorityAlwaysGranted | DelegationWithdrawn | DelegationExpired
  | DelegationConflictContained | DelegationPrecedenceConfigured
  | DelegationPrecedenceUnsatisfiable | LeaseValid | LeaseMissing | LeaseExpired
  | LeaseRevoked | LeaseStaleIssuer | LeaseEpochMismatch | LeaseHolderMismatch
  | LeaseScopeNotCovered | LeaseRequiredByPolicy | EpochMatches | EpochStale
  | EpochAheadOfCoordinator | PartitionConnected
  | PartitionSplitSuspendsGlobalMutation
  | PartitionIndeterminateSuspendsGlobalMutation
  | PartitionReconcilingSuspendsGlobalMutation | PartitionObservationStale
  | PartitionReattestationComplete | PartitionReattestationMissing | RequestReplayed
  | RequestFresh | EvidenceDuplicateIdentical | EvidenceDuplicateConflicting
  | CapabilitySatisfied | CapabilityMissing | CapabilityIncompatible
  | CapabilityUnsupported | EvidenceUnknown | EvidenceIncomplete | EvidenceInvalid
  | EvidenceIndeterminate | EvidenceConflicting | ArtifactAccepted | ArtifactRejected
  | ArtifactDigestMismatch | ArtifactSubjectMismatch | ArtifactEpochStale
  | ArtifactMalformed | ArtifactUnknownKind | ArtifactSupersededLineage
  | PolicyRuleMatched | PolicyRuleNotMatched | PolicyRejected | FederationUnknown
  | FederationIdentityMismatch | LimitExceeded.

(** The underlying integer of the enumerator. *)
Definition value (x : t) : N :=
  match x with
  | MembershipActive => 0
  | MembershipAdmittedPendingActivation => 1
  | MembershipProposedInsufficientEvidence => 2
  | MembershipAbsent => 3
  | MembershipRetired => 4
  | MembershipLeaving => 5
  | MembershipFencedByOrder => 6
  | MembershipRequiresReattestation => 7
  | MembershipDegradedObservationGap => 8
  | MultiPartySatisfied => 9
  | MultiPartyInsufficientDistinctParties => 10
  | MultiPartyInsufficientEndorsements => 11
  | MultiPartyEndorserNotActive => 12
  | MultiPartyProposerNotActive => 13
  | MultiPartySelfProposalRejected => 14
  | MultiPartyBootstrapGenesis => 15
  | IdentityMatches => 16
  | IdentityGenerationStale => 17
  | IdentityIncarnationStale => 18
  | IdentityConstitutionStale => 19
  | IdentityDomainMismatch => 20
  | IdentityMemberUnknown => 21
  | GenerationChangeRequiresReconsent => 22
  | GenerationChangeAcceptedByPolicy => 23
  | ScopeCoveredByDelegation => 24
  | ScopeNotDelegated => 25
  | ScopeRetainedLocalAuthority => 26
  | ScopeUnknownToCatalogue => 27
  | ScopeDelegationForbiddenByPolicy => 28
  | ScopeVerbNotDelegated => 29
  | ScopeLocalAuthorityAlwaysGranted => 30
  | DelegationWithdrawn => 31
  | DelegationExpired => 32
  | DelegationConflictContained => 33
  | DelegationPrecedenceConfigured => 34
  | DelegationPrecedenceUnsatisfiable => 35
  | LeaseValid => 36
  | LeaseMissing => 37
  | LeaseExpired => 38
  | LeaseRevoked => 39
  | LeaseStaleIssuer => 40
  | LeaseEpochMismatch => 41
  | LeaseHolderMismatch => 42
  | LeaseScopeNotCovered => 43
  | LeaseRequiredByPolicy => 44
  | EpochMatches => 45
  | EpochStale => 46
  | EpochAheadOfCoordinator => 47
  | PartitionConnected => 48
  | PartitionSplitSuspendsGlobalMutation => 49
  | PartitionIndeterminateSuspendsGlobalMutation => 50
  | PartitionReconcilingSuspendsGlobalMutation => 51
  | PartitionObservationStale => 52
  | PartitionReattestationComplete => 53
  | PartitionReattestationMissing => 54
  | RequestReplayed => 55
  | RequestFresh => 56
  | EvidenceDuplicateIdentical => 57
  | EvidenceDuplicateConflicting => 58
  | CapabilitySatisfied => 59
  | CapabilityMissing => 60
  | CapabilityIncompatible => 61
  | CapabilityUnsupported => 62
  | EvidenceUnknown => 63
  | EvidenceIncomplete => 64
  | EvidenceInvalid => 65
  | EvidenceIndeterminate => 66
  | EvidenceConflicting => 67
  | ArtifactAccepted => 68
  | ArtifactRejected => 69
  | ArtifactDigestMismatch => 70
  | ArtifactSubjectMismatch => 71
  | ArtifactEpochStale => 72
  | ArtifactMalformed => 73
  | ArtifactUnknownKind => 74
  | ArtifactSupersededLineage => 75
  | PolicyRuleMatched => 76
  | PolicyRuleNotMatched => 77
  | PolicyRejected => 78
  | FederationUnknown => 79
  | FederationIdentityMismatch => 80
  | LimitExceeded => 81
  end.

(** The enumerators in the order of their values. *)
Definition all : list t :=
  [MembershipActive; MembershipAdmittedPendingActivation;
   MembershipProposedInsufficientEvidence; MembershipAbsent; MembershipRetired;
   MembershipLeaving; MembershipFencedByOrder; MembershipRequiresReattestation;
   MembershipDegradedObservationGap; MultiPartySatisfied;
   MultiPartyInsufficientDistinctParties; MultiPartyInsufficientEndorsements;
   MultiPartyEndorserNotActive; MultiPartyProposerNotActive;
   MultiPartySelfProposalRejected; MultiPartyBootstrapGenesis; IdentityMatches;
   IdentityGenerationStale; IdentityIncarnationStale; IdentityConstitutionStale;
   IdentityDomainMismatch; IdentityMemberUnknown; GenerationChangeRequiresReconsent;
   GenerationChangeAcceptedByPolicy; ScopeCoveredByDelegation; ScopeNotDelegated;
   ScopeRetainedLocalAuthority; ScopeUnknownToCatalogue;
   ScopeDelegationForbiddenByPolicy; ScopeVerbNotDelegated;
   ScopeLocalAuthorityAlwaysGranted; DelegationWithdrawn; DelegationExpired;
   DelegationConflictContained; DelegationPrecedenceConfigured;
   DelegationPrecedenceUnsatisfiable; LeaseValid; LeaseMissing; LeaseExpired;
   LeaseRevoked; LeaseStaleIssuer; LeaseEpochMismatch; LeaseHolderMismatch;
   LeaseScopeNotCovered; LeaseRequiredByPolicy; EpochMatches; EpochStale;
   EpochAheadOfCoordinator; PartitionConnected; PartitionSplitSuspendsGlobalMutation;
   PartitionIndeterminateSuspendsGlobalMutation;
   PartitionReconcilingSuspendsGlobalMutation; PartitionObservationStale;
   PartitionReattestationComplete; PartitionReattestationMissing; RequestReplayed;
   RequestFresh; EvidenceDuplicateIdentical; EvidenceDuplicateConflicting;
   CapabilitySatisfied; CapabilityMissing; CapabilityIncompatible;
   CapabilityUnsupported; EvidenceUnknown; EvidenceIncomplete; EvidenceInvalid;
   EvidenceIndeterminate; EvidenceConflicting; ArtifactAccepted; ArtifactRejected;
   ArtifactDigestMismatch; ArtifactSubjectMismatch; ArtifactEpochStale;
   ArtifactMalformed; ArtifactUnknownKind; ArtifactSupersededLineage;
   PolicyRuleMatched; PolicyRuleNotMatched; PolicyRejected; FederationUnknown;
   FederationIdentityMismatch; LimitExceeded].

Definition to_string (x : t) : string :=
  match x with
  | MembershipActive => "MEMBERSHIP_ACTIVE"
  | MembershipAdmittedPendingActivation => "MEMBERSHIP_ADMITTED_PENDING_ACTIVATION"
  | MembershipProposedInsufficientEvidence => "MEMBERSHIP_PROPOSED_INSUFFICIENT_EVIDENCE"
  | MembershipAbsent => "MEMBERSHIP_ABSENT"
  | MembershipRetired => "MEMBERSHIP_RETIRED"
  | MembershipLeaving => "MEMBERSHIP_LEAVING"
  | MembershipFencedByOrder => "MEMBERSHIP_FENCED_BY_ORDER"
  | MembershipRequiresReattestation => "MEMBERSHIP_REQUIRES_REATTESTATION"
  | MembershipDegradedObservationGap => "MEMBERSHIP_DEGRADED_OBSERVATION_GAP"
  | MultiPartySatisfied => "MULTIPARTY_SATISFIED"
  | MultiPartyInsufficientDistinctParties => "MULTIPARTY_INSUFFICIENT_DISTINCT_PARTIES"
  | MultiPartyInsufficientEndorsements => "MULTIPARTY_INSUFFICIENT_ENDORSEMENTS"
  | MultiPartyEndorserNotActive => "MULTIPARTY_ENDORSER_NOT_ACTIVE"
  | MultiPartyProposerNotActive => "MULTIPARTY_PROPOSER_NOT_ACTIVE"
  | MultiPartySelfProposalRejected => "MULTIPARTY_SELF_PROPOSAL_REJECTED"
  | MultiPartyBootstrapGenesis => "MULTIPARTY_BOOTSTRAP_GENESIS"
  | IdentityMatches => "IDENTITY_MATCHES"
  | IdentityGenerationStale => "IDENTITY_GENERATION_STALE"
  | IdentityIncarnationStale => "IDENTITY_INCARNATION_STALE"
  | IdentityConstitutionStale => "IDENTITY_CONSTITUTION_STALE"
  | IdentityDomainMismatch => "IDENTITY_DOMAIN_MISMATCH"
  | IdentityMemberUnknown => "IDENTITY_MEMBER_UNKNOWN"
  | GenerationChangeRequiresReconsent => "GENERATION_CHANGE_REQUIRES_RECONSENT"
  | GenerationChangeAcceptedByPolicy => "GENERATION_CHANGE_ACCEPTED_BY_POLICY"
  | ScopeCoveredByDelegation => "SCOPE_COVERED_BY_DELEGATION"
  | ScopeNotDelegated => "SCOPE_NOT_DELEGATED"
  | ScopeRetainedLocalAuthority => "SCOPE_RETAINED_LOCAL_AUTHORITY"
  | ScopeUnknownToCatalogue => "SCOPE_UNKNOWN_TO_CATALOGUE"
  | ScopeDelegationForbiddenByPolicy => "SCOPE_DELEGATION_FORBIDDEN_BY_POLICY"
  | ScopeVerbNotDelegated => "SCOPE_VERB_NOT_DELEGATED"
  | ScopeLocalAuthorityAlwaysGranted => "SCOPE_LOCAL_AUTHORITY_ALWAYS_GRANTED"
  | DelegationWithdrawn => "DELEGATION_WITHDRAWN"
  | DelegationExpired => "DELEGATION_EXPIRED"
  | DelegationConflictContained => "DELEGATION_CONFLICT_CONTAINED"
  | DelegationPrecedenceConfigured => "DELEGATION_PRECEDENCE_CONFIGURED"
  | DelegationPrecedenceUnsatisfiable => "DELEGATION_PRECEDENCE_UNSATISFIABLE"
  | LeaseValid => "LEASE_VALID"
  | LeaseMissing => "LEASE_MISSING"
  | LeaseExpired => "LEASE_EXPIRED"
  | LeaseRevoked => "LEASE_REVOKED"
  | LeaseStaleIssuer => "LEASE_STALE_ISSUER"
  | LeaseEpochMismatch => "LEASE_EPOCH_MISMATCH"
  | LeaseHolderMismatch => "LEASE_HOLDER_MISMATCH"
  | LeaseScopeNotCovered => "LEASE_SCOPE_NOT_COVERED"
  | LeaseRequiredByPolicy => "LEASE_REQUIRED_BY_POLICY"
  | EpochMatches => "EPOCH_MATCHES"
  | EpochStale => "EPOCH_STALE"
  | EpochAheadOfCoordinator => "EPOCH_AHEAD_OF_COORDINATOR"
  | PartitionConnected => "PARTITION_CONNECTED"
  | PartitionSplitSuspendsGlobalMutation => "PARTITION_SPLIT_SUSPENDS_GLOBAL_MUTATION"
  | PartitionIndeterminateSuspendsGlobalMutation => "PARTITION_INDETERMINATE_SUSPENDS_GLOBAL_MUTATION"
  | PartitionReconcilingSuspendsGlobalMutation => "PARTITION_RECONCILING_SUSPENDS_GLOBAL_MUTATION"
  | PartitionObservationStale => "PARTITION_OBSERVATION_STALE"
  | PartitionReattestationComplete => "PARTITION_REATTESTATION_COMPLETE"
  | PartitionReattestationMissing => "PARTITION_REATTESTATION_MISSING"
  | RequestReplayed => "REQUEST_REPLAYED"
  | RequestFresh => "REQUEST_FRESH"
  | EvidenceDuplicateIdentical => "EVIDENCE_DUPLICATE_IDENTICAL"
  | EvidenceDuplicateConflicting => "EVIDENCE_DUPLICATE_CONFLICTING"
  | CapabilitySatisfied => "CAPABILITY_SATISFIED"
  | CapabilityMissing => "CAPABILITY_MISSING"
  | CapabilityIncompatible => "CAPABILITY_INCOMPATIBLE"
  | CapabilityUnsupported => "CAPABILITY_UNSUPPORTED"
  | EvidenceUnknown => "EVIDENCE_UNKNOWN"
  | EvidenceIncomplete => "EVIDENCE_INCOMPLETE"
  | EvidenceInvalid => "EVIDENCE_INVALID"
  | EvidenceIndeterminate => "EVIDENCE_INDETERMINATE"
  | EvidenceConflicting => "EVIDENCE_CONFLICTING"
  | ArtifactAccepted => "ARTIFACT_ACCEPTED"
  | ArtifactRejected => "ARTIFACT_REJECTED"
  | ArtifactDigestMismatch => "ARTIFACT_DIGEST_MISMATCH"
  | ArtifactSubjectMismatch => "ARTIFACT_SUBJECT_MISMATCH"
  | ArtifactEpochStale => "ARTIFACT_EPOCH_STALE"
  | ArtifactMalformed => "ARTIFACT_MALFORMED"
  | ArtifactUnknownKind => "ARTIFACT_UNKNOWN_KIND"
  | ArtifactSupersededLineage => "ARTIFACT_SUPERSEDED_LINEAGE"
  | PolicyRuleMatched => "POLICY_RULE_MATCHED"
  | PolicyRuleNotMatched => "POLICY_RULE_NOT_MATCHED"
  | PolicyRejected => "POLICY_REJECTED"
  | FederationUnknown => "FEDERATION_UNKNOWN"
  | FederationIdentityMismatch => "FEDERATION_IDENTITY_MISMATCH"
  | LimitExceeded => "LIMIT_EXCEEDED"
  end.

#[global] Instance enum : WireEnum t.
Proof. refine {| wire := value; enum_all := all |}. by intros []. Defined.
End ReasonCode.

Module ContributionRole.
Inductive t :=
  | Proposer | Candidate | Endorser | Coordinator | Observer | Actor.

(** The underlying integer of the enumerator. *)
Definition value (x : t) : N :=
  match x with
  | Proposer => 0
  | Candidate => 1
  | Endorser => 2
  | Coordinator => 3
  | Observer => 4
  | Actor => 5
  end.

(** The enumerators in the order of their values. *)
Definition all : list t :=
  [Proposer; Candidate; Endorser; Coordinator; Observer; Actor].

Definition to_string (x : t) : string :=
  match x with
  | Proposer => "proposer"
  | Candidate => "candidate"
  | Endorser => "endorser"
  | Coordinator => "coordinator"
  | Observer => "observer"
  | Actor => "actor"
  end.

#[global] Instance enum : WireEnum t.
Proof. refine {| wire := value; enum_all := all |}. by intros []. Defined.
End ContributionRole.

(** ** Reasons and contributions *)

Record Reason := mkReason { reason_code : ReasonCode.t; reason_detail : string }.
#[export] Instance Reason_eq_dec : EqDecision Reason.
Proof. solve_decision. Defined.
Definition reason_key (r : Reason) := (reason_code r, reason_detail r).
#[export] Instance reason_key_inj : Inj (=) (=) reason_key.
Proof. by intros [] [] [= -> ->]. Qed.
#[export] Instance Reason_cmp : Cmp Reason := cmp_on reason_key.
#[export] Instance Reason_cmp_laws : CmpLaws Reason := cmp_on_laws reason_key.

Definition reason_to_string (r : Reason) : string :=
  ReasonCode.to_string (reason_code r) +s+
  (if decide (reason_detail r = ""%string) then "" else " (" +s+ reason_detail r +s+ ")").

#[export] Instance Reason_codec : Codec Reason := {
  encode r := Writer.u16 (wire (reason_code r)) >+> Writer.text (reason_detail r) kMaxShortTextLength;
  decode :=
    c ← Reader.u16;
    c ← dec_enum c ErrorCode.InvalidArgument "reason code is out of range";
    d ← Reader.text kMaxShortTextLength;
    mret (mkReason c d);
  wire_ok _ := True
}.
#[export] Instance Reason_codec_laws : CodecLaws Reason.
Proof.
  intros [c d] bs rest _ Hbs. cbn [encode decode Reason_codec reason_code reason_detail] in *.
  split_enc. by read_fields.
Qed.

Record Contribution := mkContribution {
  c_member : MemberId;
  c_role : ContributionRole.t;
  c_generation : Generation;
  c_incarnation : Incarnation;
  c_constitution : Digest;
  c_evidence : Digest;
  c_epoch : Epoch;
  identity_current : bool;
  note : string
}.
#[export] Instance Contribution_eq_dec : EqDecision Contribution.
Proof. solve_decision. Defined.
(** [operator<] on contributions: coarser than their equality. *)
Definition contribution_key (c : Contribution) :=
  (c_member c, (c_role c, (c_incarnation c, (c_generation c, (c_constitution c, c_evidence c))))).

#[export] Instance Contribution_codec : Codec Contribution := {
  encode c :=
    encode (c_member c) >+> Writer.u8 (wire (c_role c)) >+> encode (c_generation c) >+>
    encode (c_incarnation c) >+> encode (c_constitution c) >+> encode (c_evidence c) >+>
    encode (c_epoch c) >+> Writer.boolean (identity_current c) >+>
    Writer.text (note c) kMaxShortTextLength;
  decode :=
    m ← decode;
    r ← Reader.u8;
    r ← dec_enum r ErrorCode.InvalidArgument "contribution role is out of range";
    g ← decode; i ← decode; c ← decode; e ← decode; ep ← decode;
    b ← Reader.boolean;
    n ← Reader.text kMaxShortTextLength;
    mret (mkContribution m r g i c e ep b n);
  wire_ok c := wire_ok (c_member c) ∧ wire_ok (c_generation c) ∧ wire_ok (c_incarnation c) ∧
    wire_ok (c_constitution c) ∧ wire_ok (c_evidence c) ∧ wire_ok (c_epoch c)
}.
#[export] Instance Contribution_codec_laws : CodecLaws Contribution.
Proof.
  intros [m r g i c e ep b n] bs rest (? & ? & ? & ? & ? & ?) Hbs.
  cbn [encode decode wire_ok Contribution_codec c_member c_role c_generation c_incarnation
    c_constitution c_evidence c_epoch identity_current note] in *.
  split_enc. by read_fields.
Qed.

(** ** Explanations *)

Record Explanation := mkExplanation {
  outcome : Outcome.t;
  e_evidence : EvidenceState.t;
  reasons : list Reason;
  contributions : list Contribution;
  conflicts : list ConflictRecord;
  considered_grants : list ScopeGrant;
  effective_grants : list ScopeGrant;
  limit_reached : bool;
  e_summary : string
}.
#[export] Instance Explanation_eq_dec : EqDecision Explanation.
Proof. solve_decision. Defined.

(** [Explanation()]. *)
Definition no_explanation : Explanation :=
  mkExplanation Outcome.Unknown EvidenceState.Unknown [] [] [] [] [] false "".

(** The append of a reason under the bound, without repetitions; the flag says
    the bound was reached. *)
Definition add_reason (l : list Reason) (limit : bool) (r : Reason) : list Reason * bool :=
  if kMaxReasonsPerDecision <=? size l then (l, true)
  else if bool_decide (r ∈ l) then (l, limit) else (l ++ [r], limit).

(** [Explanation::add]. *)
Definition explanation_add (c : ReasonCode.t) (d : string) (e : Explanation) : Explanation :=
  let '(l, limit) := add_reason (reasons e) (limit_reached e) (mkReason c d) in
  mkExplanation (outcome e) (e_evidence e) l (contributions e) (conflicts e) (considered_grants e)
                (effective_grants e) limit (e_summary e).

Definition has_reason (l : list Reason) (c : ReasonCode.t) : bool :=
  existsb (λ r, bool_decide (reason_code r = c)) l.
(** [Explanation::has]. *)
Definition explanation_has (e : Explanation) (c : ReasonCode.t) : bool := has_reason (reasons e) c.

Definition canonicalize_contributions (l : list Contribution) : list Contribution :=
  std_unique (sort_by contribution_key l).

Definition explanation_canonicalize (e : Explanation) : Explanation :=
  mkExplanation (outcome e) (e_evidence e) (sort_unique (reasons e))
    (canonicalize_contributions (contributions e))
    (canonicalize_conflicts (conflicts e)) (canonicalize_grants (considered_grants e))
    (canonicalize_grants (effective_grants e)) (limit_reached e) (e_summary e).

#[export] Instance Explanation_codec : Codec Explanation := {
  encode e :=
    let copy := explanation_canonicalize e in
    Writer.u8 (wire (outcome copy)) >+> Writer.u8 (wire (e_evidence copy)) >+>
    enc_list kMaxReasonsPerDecision encode (reasons copy) >+>
    enc_list kMaxContributionsPerDecision encode (contributions copy) >+>
    encode_conflicts (conflicts copy) kMaxConflicts >+>
    encode_grants (considered_grants copy) kMaxEffectiveGrantsPerDecision >+>
    encode_grants (effective_grants copy) kMaxEffectiveGrantsPerDecision >+>
    Writer.boolean (limit_reached copy) >+>
    Writer.text (e_summary copy) kMaxExplanationTextLength;
  decode :=
    o ← Reader.u8;
    o ← dec_enum o ErrorCode.InvalidArgument "outcome is out of range";
    ev ← Reader.u8;
    ev ← dec_enum ev ErrorCode.InvalidArgument "evidence state is out of range";
    rs ← dec_list kMaxReasonsPerDecision decode;
    cs ← dec_list kMaxContributionsPerDecision decode;
    cf ← decode_conflicts kMaxConflicts;
    cg ← decode_grants kMaxEffectiveGrantsPerDecision;
    eg ← decode_grants kMaxEffectiveGrantsPerDecision;
    l ← Reader.boolean;
    s ← Reader.text kMaxExplanationTextLength;
    mret (explanation_canonicalize (mkExplanation o ev rs cs cf cg eg l s));
  wire_ok e := Forall wire_ok (contributions e) ∧ Forall wire_ok (conflicts e) ∧
    Forall wire_ok (considered_grants e) ∧ Forall wire_ok (effective_grants e) ∧
    explanation_canonicalize e = e
}.
#[export] Instance Explanation_codec_laws : CodecLaws Explanation.
Proof.
  intros e bs rest (? & ? & ? & ? & Hcanon) Hbs.
  cbn [encode decode wire_ok Explanation_codec] in *. rewrite Hcanon in Hbs. cbv zeta in Hbs.
  destruct e as [o ev rs cs cf cg eg l s].
  cbn [outcome e_evidence reasons contributions conflicts considered_grants effective_grants
    limit_reached e_summary] in *.
  unfold encode_conflicts, encode_grants, decode_conflicts, decode_grants in *.
  split_enc. assert (Forall wire_ok rs) by by apply Forall_forall.
  read_fields. unfold mret, Dec_ret. by rewrite Hcanon.
Qed.

Definition explanation_digest (e : Explanation) : Digest := digest_of (encode e).

(** ** Rendering *)

Definition nl : string := String (Ascii.ascii_of_N 10) "".

Definition contribution_to_string (c : Contribution) : string :=
  id_to_string (c_member c) +s+ " role=" +s+ ContributionRole.to_string (c_role c) +s+
  " gen=" +s+ to_dec (value (c_generation c)) +s+ " inc=" +s+ to_dec (value (c_incarnation c)) +s+
  " epoch=" +s+ to_dec (value (c_epoch c)) +s+ " digest=" +s+ hex16 (c_constitution c) +s+
  (if identity_current c then " current" else " superseded") +s+
  (if decide (note c = ""%string) then "" else " note=" +s+ note c).

(** The lines of a list, or "(none)". *)
Definition render_lines (l : list string) : string :=
  if decide (l = []) then "  (none)" +s+ nl
  else String.concat "" ((λ s, "  - " +s+ s +s+ nl) <$> l).

Definition render_explanation (e : Explanation) : string :=
  let copy := explanation_canonicalize e in
  "outcome: " +s+ Outcome.to_string (outcome copy) +s+ nl +s+
  "evidence: " +s+ EvidenceState.to_string (e_evidence copy) +s+ nl +s+
  (if decide (e_summary copy = ""%string) then "" else "summary: " +s+ e_summary copy +s+ nl) +s+
  "reasons:" +s+ nl +s+ render_lines (reason_to_string <$> reasons copy) +s+
  "contributing members:" +s+ nl +s+
  render_lines (contribution_to_string <$> contributions copy) +s+
  "considered grants: " +s+ render_grants (considered_grants copy) +s+ nl +s+
  "effective grants: " +s+ render_grants (effective_grants copy) +s+ nl +s+
  "conflicts:" +s+ nl +s+ render_lines (conflict_to_string <$> conflicts copy).

Definition summarize_explanation (e : Explanation) : string :=
  let copy := explanation_canonicalize e in
  Outcome.to_string (outcome copy) +s+ " " +s+ render_grants (effective_grants copy) +s+
  (if decide (reasons copy = []) then ""
   else " [" +s+ String.concat "," ((λ r, ReasonCode.to_string (reason_code r)) <$> take 4 (reasons copy)) +s+
        (if 4 <? size (reasons copy) then ",.." else "") +s+ "]") +s+
  (if limit_reached copy then " (explanation truncated at the bound)" else "").

(** ** Lemmas on reasons *)

Lemma add_reason_bound l limit r :
  size l ≤ kMaxReasonsPerDecision →
  size (add_reason l limit r).1 ≤ kMaxReasonsPerDecision ∧ l `prefix_of` (add_reason l limit r).1.
Proof.
  intros Hl. unfold add_reason. destruct (N.leb_spec kMaxReasonsPerDecision (size l)); simpl; [done|].
  destruct (bool_decide (r ∈ l)); simpl; [done|].
  split; [|by apply prefix_app_r]. rewrite size_app. unfold size at 2; simpl. lia.
Qed.

(** The reasons of a decision stay bounded and distinct and nothing is
    silently lost: an added reason is present unless the bound was reached, in
    which case the explanation says so; earlier reasons are never dropped. *)
Theorem explanation_add_bounded (c : ReasonCode.t) (d : string) (e : Explanation) :
  NoDup (reasons e) → size (reasons e) ≤ kMaxReasonsPerDecision →
  let e' := explanation_add c d e in
  NoDup (reasons e') ∧ size (reasons e') ≤ kMaxReasonsPerDecision ∧
  reasons e `prefix_of` reasons e' ∧
  (mkReason c d ∈ reasons e' ∨ limit_reached e' = true) ∧
  (limit_reached e = true → limit_reached e' = true).
Proof.
  intros Hnd Hsize e'.
  pose proof (add_reason_bound (reasons e) (limit_reached e) (mkReason c d) Hsize) as [Hb Hp].
  subst e'. unfold explanation_add, add_reason in *.
  destruct (N.leb_spec kMaxReasonsPerDecision (size (reasons e))); simpl in *; [auto 10|].
  case_bool_decide as Hin; simpl in *; [auto 10|]. split_and!; try done.
  - apply NoDup_app. split_and!; [done| |apply NoDup_singleton].
    intros x Hx ->%list_elem_of_singleton. done.
  - left. set_solver.
Qed.
Lemma explanation_add_bounded_witness :
  let e' := explanation_add ReasonCode.LeaseMissing "x" no_explanation in
  mkReason ReasonCode.LeaseMissing "x" ∈ reasons e' ∨ limit_reached e' = true.
Proof.
  apply (explanation_add_bounded ReasonCode.LeaseMissing "x" no_explanation);
    [constructor|by vm_compute].
Defined.
