(* ===== verification/Lease.v ===== *)
(** * Authority leases

    Models include/fabric_federation/lease.hpp and src/lease.cpp: the lease
    record, its codec and its evaluation against the coordinator's epoch,
    incarnation and logical clock. *)

From S2P Require Import Prelude Errors Sha256 Text Codec Ids Names Scope Capability Identity.
From S2P Require Import Explanation.

Module LeaseState.
Inductive t :=
  | Valid | Unknown | Expired | Revoked | StaleIssuer | EpochMismatch | HolderMismatch
  | ScopeNotCovered.

(** The underlying integer of the enumerator. *)
Definition value (x : t) : N :=
  match x with
  | Valid => 0
  | Unknown => 1
  | Expired => 2
  | Revoked => 3
  | StaleIssuer => 4
  | EpochMismatch => 5
  | HolderMismatch => 6
  | ScopeNotCovered => 7
  end.

(** The enumerators in the order of their values. *)
Definition all : list t :=
  [Valid; Unknown; Expired; Revoked; StaleIssuer; EpochMismatch; HolderMismatch;
   ScopeNotCovered].

Definition to_string (x : t) : string :=
  match x with
  | Valid => "VALID"
  | Unknown => "UNKNOWN"
  | Expired => "EXPIRED"
  | Revoked => "REVOKED"
  | StaleIssuer => "STALE_ISSUER"
  | EpochMismatch => "EPOCH_MISMATCH"
  | HolderMismatch => "HOLDER_MISMATCH"
  | ScopeNotCovered => "SCOPE_NOT_COVERED"
  end.

#[global] Instance enum : WireEnum t.
Proof. refine {| wire := value; enum_all := all |}. by intros []. Defined.
End LeaseState.

(** ** Leases

    [revoke_reason] is the raw 16-bit value: the decoder casts it to
    [ReasonCode] without the range check the other decoders make. *)

Record AuthorityLease := mkLease {
  lease_id : LeaseId;
  lease_federation : FederationId;
  holder : MemberIdentity;
  scopes : list ScopeGrant;
  issued_epoch : Epoch;
  not_after_epoch : Epoch;
  issued_at : Tick;
  lease_not_after : Tick;
  issuer_node : NodeId;
  issuer_incarnation : Incarnation;
  revoked : bool;
  revoked_at : Tick;
  revoke_reason : N;
  revoke_detail : string
}.
#[export] Instance AuthorityLease_eq_dec : EqDecision AuthorityLease.
Proof. solve_decision. Defined.

#[export] Instance AuthorityLease_codec : Codec AuthorityLease := {
  encode l :=
    encode (lease_id l) >+> encode (lease_federation l) >+> encode (holder l) >+>
    encode_grants (scopes l) kMaxScopesPerLease >+> encode (issued_epoch l) >+>
    encode (not_after_epoch l) >+> encode (issued_at l) >+> encode (lease_not_after l) >+>
    encode (issuer_node l) >+> encode (issuer_incarnation l) >+> Writer.boolean (revoked l) >+>
    encode (revoked_at l) >+> Writer.u16 (revoke_reason l) >+>
    Writer.text (revoke_detail l) kMaxShortTextLength;
  decode :=
    i ← decode; f ← decode; h ← decode;
    s ← decode_grants kMaxScopesPerLease;
    e1 ← decode; e2 ← decode; t1 ← decode; t2 ← decode; n ← decode; inc ← decode;
    r ← Reader.boolean;
    rt ← decode;
    rr ← Reader.u16;
    d ← Reader.text kMaxShortTextLength;
    mret (mkLease i f h s e1 e2 t1 t2 n inc r rt rr d);
  wire_ok l := wire_ok (lease_id l) ∧ wire_ok (lease_federation l) ∧ wire_ok (holder l) ∧
    Forall wire_ok (scopes l) ∧ wire_ok (issued_epoch l) ∧ wire_ok (not_after_epoch l) ∧
    wire_ok (issued_at l) ∧ wire_ok (lease_not_after l) ∧ wire_ok (issuer_node l) ∧
    wire_ok (issuer_incarnation l) ∧ wire_ok (revoked_at l) ∧ revoke_reason l ≤ u16_max
}.
#[export] Instance AuthorityLease_codec_laws : CodecLaws AuthorityLease.
Proof.
  intros [i f h s e1 e2 t1 t2 n inc r rt rr d] bs rest
    (? & ? & ? & ? & ? & ? & ? & ? & ? & ? & ? & ?) Hbs.
  cbn [encode decode wire_ok AuthorityLease_codec lease_id lease_federation holder scopes
    issued_epoch not_after_epoch issued_at lease_not_after issuer_node issuer_incarnation revoked
    revoked_at revoke_reason revoke_detail] in *.
  unfold encode_grants, decode_grants in *. split_enc. by read_fields.
Qed.

Definition lease_digest (l : AuthorityLease) : Digest := digest_of (encode l).
Definition lease_to_string (l : AuthorityLease) : string :=
  id_to_string (lease_id l) +s+ " holder=" +s+ identity_to_string (holder l) +s+
  " scopes=[" +s+ render_grants (scopes l) +s+ "] issued_epoch=" +s+
  to_dec (value (issued_epoch l)) +s+
  (if is_zero (not_after_epoch l) then ""
   else " not_after_epoch=" +s+ to_dec (value (not_after_epoch l))) +s+
  " not_after_tick=" +s+ to_dec (value (lease_not_after l)) +s+
  " issuer_incarnation=" +s+ to_dec (value (issuer_incarnation l)) +s+
  (if revoked l then " REVOKED" else "").

(** ** Evaluation *)

Record LeaseEvaluation := mkLeaseEvaluation {
  le_state : LeaseState.t;
  le_reason : ReasonCode.t;
  le_detail : string
}.
Definition le_valid (e : LeaseEvaluation) : bool := bool_decide (le_state e = LeaseState.Valid).

(** The last epoch the lease is good for. *)
Definition highest_epoch (l : AuthorityLease) : N :=
  if value (issued_epoch l) <? value (not_after_epoch l)
  then value (not_after_epoch l) else value (issued_epoch l).

Definition evaluate_common (l : AuthorityLease) (current_epoch : Epoch)
    (coordinator_incarnation : Incarnation) (now : Tick) : LeaseEvaluation :=
  let lowest := value (issued_epoch l) in
  let highest := highest_epoch l in
  if revoked l then
    mkLeaseEvaluation LeaseState.Revoked ReasonCode.LeaseRevoked
      ("revoked at tick " +s+ to_dec (value (revoked_at l)))
  else if negb (bool_decide (issuer_incarnation l = coordinator_incarnation)) then
    mkLeaseEvaluation LeaseState.StaleIssuer ReasonCode.LeaseStaleIssuer
      ("issued by coordinator incarnation " +s+ to_dec (value (issuer_incarnation l)) +s+
       ", current is " +s+ to_dec (value coordinator_incarnation))
  else if highest <? value current_epoch then
    mkLeaseEvaluation LeaseState.EpochMismatch ReasonCode.LeaseEpochMismatch
      ("lease is valid through epoch " +s+ to_dec highest +s+ ", current epoch " +s+
       to_dec (value current_epoch))
  else if value current_epoch <? lowest then
    mkLeaseEvaluation LeaseState.EpochMismatch ReasonCode.LeaseEpochMismatch
      ("lease starts at epoch " +s+ to_dec lowest +s+ ", current epoch " +s+
       to_dec (value current_epoch))
  else if value (lease_not_after l) <? value now then
    mkLeaseEvaluation LeaseState.Expired ReasonCode.LeaseExpired
      ("lease expired at tick " +s+ to_dec (value (lease_not_after l)) +s+ ", now " +s+
       to_dec (value now))
  else mkLeaseEvaluation LeaseState.Valid ReasonCode.LeaseValid "".

(** The overload without a requested grant. *)
Definition evaluate_lease_whole := evaluate_common.

Definition evaluate_lease (l : AuthorityLease) (requested : ScopeGrant) (current_epoch : Epoch)
    (coordinator_incarnation : Incarnation) (now : Tick) : LeaseEvaluation :=
  let result := evaluate_common l current_epoch coordinator_incarnation now in
  if negb (bool_decide (le_state result = LeaseState.Valid)) then result
  else if negb (grants_cover (scopes l) requested) then
    mkLeaseEvaluation LeaseState.ScopeNotCovered ReasonCode.LeaseScopeNotCovered
      ("lease does not cover " +s+ grant_to_string requested)
  else result.

(** ** When a lease is valid *)

(** The contract of the header: not revoked, issued by this very run of the
    coordinator, within its epochs and not past its tick. *)
Record lease_live (l : AuthorityLease) (epoch : Epoch) (inc : Incarnation) (now : Tick) : Prop := {
  live_not_revoked : revoked l = false;
  live_issuer : issuer_incarnation l = inc;
  live_from_epoch : value (issued_epoch l) ≤ value epoch;
  live_to_epoch : value epoch ≤ N.max (value (issued_epoch l)) (value (not_after_epoch l));
  live_tick : value now ≤ value (lease_not_after l)
}.

Lemma highest_epoch_max l :
  highest_epoch l = N.max (value (issued_epoch l)) (value (not_after_epoch l)).
Proof. unfold highest_epoch. destruct (N.ltb_spec (value (issued_epoch l)) (value (not_after_epoch l))); lia. Qed.

Lemma evaluate_common_valid l epoch inc now :
  le_state (evaluate_common l epoch inc now) = LeaseState.Valid ↔ lease_live l epoch inc now.
Proof.
  unfold evaluate_common. rewrite highest_epoch_max. split.
  - destruct (revoked l) eqn:Er; [done|]. case_bool_decide as Hi; [|done]. simpl.
    destruct (N.ltb_spec (N.max (value (issued_epoch l)) (value (not_after_epoch l))) (value epoch)); [done|].
    destruct (N.ltb_spec (value epoch) (value (issued_epoch l))); [done|].
    destruct (N.ltb_spec (value (lease_not_after l)) (value now)); [done|]. by constructor.
  - intros [-> -> Hlo Hhi Ht]. rewrite bool_decide_eq_true_2 by done. simpl.
    destruct (N.ltb_spec (N.max (value (issued_epoch l)) (value (not_after_epoch l))) (value epoch)); [lia|].
    destruct (N.ltb_spec (value epoch) (value (issued_epoch l))); [lia|].
    by destruct (N.ltb_spec (value (lease_not_after l)) (value now)); [lia|].
Qed.

Lemma evaluate_lease_valid l g epoch inc now :
  le_valid (evaluate_lease l g epoch inc now) = true ↔
  lease_live l epoch inc now ∧ grants_cover (scopes l) g = true.
Proof.
  unfold le_valid, evaluate_lease. rewrite <-evaluate_common_valid, bool_decide_eq_true.
  case_bool_decide as Hv; simpl; [|naive_solver].
  destruct (grants_cover (scopes l) g); simpl; naive_solver.
Qed.

(** A lease supports a request exactly when it is live and covers the
    grant; the states the evaluation never returns are UNKNOWN and
    HOLDER_MISMATCH, which are the caller's to establish. *)
Theorem evaluate_lease_exact (l : AuthorityLease) (g : ScopeGrant) (epoch : Epoch)
    (inc : Incarnation) (now : Tick) :
  (le_valid (evaluate_lease l g epoch inc now) = true ↔
     lease_live l epoch inc now ∧ grants_cover (scopes l) g = true) ∧
  le_state (evaluate_lease l g epoch inc now) ≠ LeaseState.Unknown ∧
  le_state (evaluate_lease l g epoch inc now) ≠ LeaseState.HolderMismatch.
Proof.
  split; [apply evaluate_lease_valid|].
  unfold evaluate_lease, evaluate_common. cbv zeta. by repeat (case_match; simpl).
Qed.

(** A lease that has stopped being valid never becomes valid again while
    the logical clock, the epoch and the coordinator's incarnation only grow:
    after a revocation, a restart, its last epoch or its last tick it stays
    dead, and revoking a lease makes every later evaluation refuse it. *)
Theorem lease_never_revives (l : AuthorityLease) (g g' : ScopeGrant) (epoch epoch' : Epoch)
    (inc inc' : Incarnation) (now now' : Tick) :
  value (issued_epoch l) ≤ value epoch → value (issuer_incarnation l) ≤ value inc →
  value epoch ≤ value epoch' → value inc ≤ value inc' → value now ≤ value now' →
  grants_cover (scopes l) g = true →
  le_valid (evaluate_lease l g epoch inc now) = false →
  le_valid (evaluate_lease l g' epoch' inc' now') = false.
Proof.
  intros Hissued Hissuer He Hi Ht Hcov Hdead. apply not_true_iff_false. intros Hv.
  apply evaluate_lease_valid in Hv as [[Hr Hinc Hlo Hhi Htick] _].
  apply not_true_iff_false in Hdead. apply Hdead, evaluate_lease_valid.
  split; [|done]. constructor; [done| |lia|lia|lia].
  apply (inj value). rewrite <-Hinc in Hi. lia.
Qed.
Lemma lease_never_revives_witness :
  let l := mkLease nil_id nil_id no_identity [mkGrant (mkName "a.*") AuthorityVerb.Write]
    (mkCounter 1) zero (mkCounter 5) (mkCounter 10) nil_id (mkCounter 1) false zero 0 "" in
  let g := mkGrant (mkName "a.b") AuthorityVerb.Write in
  le_valid (evaluate_lease l g (mkCounter 1) (mkCounter 1) (mkCounter 10)) = true ∧
  le_valid (evaluate_lease l g (mkCounter 2) (mkCounter 3) (mkCounter 7)) = false.
Proof.
  intros l g. split; [by vm_compute|].
  apply (lease_never_revives l g g (mkCounter 2) (mkCounter 2) (mkCounter 2) (mkCounter 3)
           (mkCounter 7) (mkCounter 7)); by vm_compute.
Defined.
