(* ===== verification/Partition.v ===== *)
(** * Partition assessment

    Models include/fabric_federation/partition.hpp and src/partition.cpp: the
    observations members report, the disjoint-set forest with path halving and
    union by rank, and the assessment that decides whether the active set is
    connected by mutually confirmed reachability. *)

From stdpp Require Import relations.
From S2P Require Import Prelude Errors Sha256 Text Codec Ids.

Module ReachabilityState.
Inductive t :=
  | Reachable | Unreachable | Unknown.

(** The underlying integer of the enumerator. *)
Definition value (x : t) : N :=
  match x with
  | Reachable => 0
  | Unreachable => 1
  | Unknown => 2
  end.

(** The enumerators in the order of their values. *)
Definition all : list t :=
  [Reachable; Unreachable; Unknown].

Definition to_string (x : t) : string :=
  match x with
  | Reachable => "REACHABLE"
  | Unreachable => "UNREACHABLE"
  | Unknown => "UNKNOWN"
  end.

#[global] Instance enum : WireEnum t.
Proof. refine {| wire := value; enum_all := all |}. by intros []. Defined.
End ReachabilityState.

Module PartitionState.
Inductive t :=
  | Connected | Split | Indeterminate | Empty.

(** The underlying integer of the enumerator. *)
Definition value (x : t) : N :=
  match x with
  | Connected => 0
  | Split => 1
  | Indeterminate => 2
  | Empty => 3
  end.

(** The enumerators in the order of their values. *)
Definition all : list t :=
  [Connected; Split; Indeterminate; Empty].

Definition to_string (x : t) : string :=
  match x with
  | Connected => "CONNECTED"
  | Split => "SPLIT"
  | Indeterminate => "INDETERMINATE"
  | Empty => "EMPTY"
  end.

#[global] Instance enum : WireEnum t.
Proof. refine {| wire := value; enum_all := all |}. by intros []. Defined.
End PartitionState.

(** ** Observations *)

Record PeerObservation := mkPeer {
  peer : MemberId;
  peer_incarnation : Incarnation;
  peer_state : ReachabilityState.t;
  observed_at : Tick;
  peer_detail : string
}.
#[export] Instance PeerObservation_eq_dec : EqDecision PeerObservation.
Proof. solve_decision. Defined.
Definition peer_key (p : PeerObservation) :=
  (peer p, (peer_incarnation p, (peer_state p, (observed_at p, peer_detail p)))).
#[export] Instance peer_key_inj : Inj (=) (=) peer_key.
Proof. by intros [] [] [= -> -> -> -> ->]. Qed.
#[export] Instance PeerObservation_cmp : Cmp PeerObservation := cmp_on peer_key.
#[export] Instance PeerObservation_cmp_laws : CmpLaws PeerObservation := cmp_on_laws peer_key.

#[export] Instance PeerObservation_codec : Codec PeerObservation := {
  encode p :=
    encode (peer p) >+> encode (peer_incarnation p) >+> Writer.u8 (wire (peer_state p)) >+>
    encode (observed_at p) >+> Writer.text (peer_detail p) kMaxShortTextLength;
  decode :=
    m ← decode; i ← decode;
    s ← Reader.u8;
    s ← dec_enum s ErrorCode.InvalidArgument "reachability state is out of range";
    t ← decode;
    d ← Reader.text kMaxShortTextLength;
    mret (mkPeer m i s t d);
  wire_ok p := wire_ok (peer p) ∧ wire_ok (peer_incarnation p) ∧ wire_ok (observed_at p)
}.
#[export] Instance PeerObservation_codec_laws : CodecLaws PeerObservation.
Proof.
  intros [m i s t d] bs rest (? & ? & ?) Hbs.
  cbn [encode decode wire_ok PeerObservation_codec peer peer_incarnation peer_state observed_at
    peer_detail] in *.
  split_enc. by read_fields.
Qed.

Record MemberObservation := mkObservation {
  observer : MemberId;
  observer_incarnation : Incarnation;
  obs_epoch : Epoch;
  recorded_at : Tick;
  peers : list PeerObservation
}.
#[export] Instance MemberObservation_eq_dec : EqDecision MemberObservation.
Proof. solve_decision. Defined.

#[export] Instance MemberObservation_codec : Codec MemberObservation := {
  encode o :=
    encode (observer o) >+> encode (observer_incarnation o) >+> encode (obs_epoch o) >+>
    encode (recorded_at o) >+> enc_list kMaxMembersPerObservation encode (sort_unique (peers o));
  decode :=
    m ← decode; i ← decode; e ← decode; t ← decode;
    p ← dec_list kMaxMembersPerObservation decode;
    mret (mkObservation m i e t p);
  wire_ok o := wire_ok (observer o) ∧ wire_ok (observer_incarnation o) ∧ wire_ok (obs_epoch o) ∧
    wire_ok (recorded_at o) ∧ Forall wire_ok (peers o) ∧ sort_unique (peers o) = peers o
}.
#[export] Instance MemberObservation_codec_laws : CodecLaws MemberObservation.
Proof.
  intros [m i e t p] bs rest (? & ? & ? & ? & ? & Hcanon) Hbs.
  cbn [encode decode wire_ok MemberObservation_codec observer observer_incarnation obs_epoch
    recorded_at peers] in *.
  rewrite Hcanon in Hbs. split_enc. by read_fields.
Qed.

(** ** [DisjointSet]

    The indices [find] and [unite] are called with are in range. *)

Record DisjointSet := mkDisjointSet { parent_ : list nat; rank_ : list nat }.

Definition ds_make (n : nat) : DisjointSet := mkDisjointSet (seq 0 n) (replicate n 0%nat).

Definition at_ (l : list nat) (i : nat) : nat := nth i l 0%nat.

(** The loop of [find], halving the path it walks.  Every step moves to a node
    of higher rank, so the number of nodes is enough fuel. *)
Fixpoint find_loop (fuel : nat) (parent : list nat) (index : nat) : list nat * nat :=
  match fuel with
  | O => (parent, index)
  | S fuel =>
      if (at_ parent index =? index)%nat then (parent, index)
      else let parent := <[index := at_ parent (at_ parent index)]> parent in
           find_loop fuel parent (at_ parent index)
  end.
Definition ds_find (ds : DisjointSet) (index : nat) : DisjointSet * nat :=
  let '(parent, root) := find_loop (length (parent_ ds)) (parent_ ds) index in
  (mkDisjointSet parent (rank_ ds), root).

Definition ds_unite (ds : DisjointSet) (a b : nat) : DisjointSet :=
  let '(ds, a) := ds_find ds a in
  let '(ds, b) := ds_find ds b in
  if (a =? b)%nat then ds
  else
    let '(a, b) := if (at_ (rank_ ds) a <? at_ (rank_ ds) b)%nat then (b, a) else (a, b) in
    let parent := <[b := a]> (parent_ ds) in
    let rank := if (at_ (rank_ ds) a =? at_ (rank_ ds) b)%nat
                then <[a := S (at_ (rank_ ds) a)]> (rank_ ds) else rank_ ds in
    mkDisjointSet parent rank.

(** [find] on each index in turn: the root of every node. *)
Fixpoint ds_roots (ds : DisjointSet) (l : list nat) : list nat :=
  match l with
  | [] => []
  | i :: l => let '(ds, r) := ds_find ds i in r :: ds_roots ds l
  end.

(** ** [assess_partition] *)

Record PartitionAssessment := mkAssessment {
  p_state : PartitionState.t;
  components : list (list MemberId);
  mutually_reachable : list MemberId;
  unreachable : list MemberId;
  unobserved : list MemberId;
  stale_observations : list MemberId;
  p_evidence : EvidenceState.t;
  p_summary : string
}.
Definition allows_global_mutation (a : PartitionAssessment) : bool :=
  bool_decide (p_state a = PartitionState.Connected).

Notation PairKey := (MemberId * MemberId)%type.
(** The two maps the observation loop fills: the latest usable observation per
    (observer, peer), and the stale ones. *)
Definition ObservationLog : Type := smap PairKey PeerObservation * list MemberId.

Section assess.
Context (members : list MemberId) (incarnations : list Incarnation).
Context (current_epoch : Epoch) (now : Tick) (freshness_ticks : N).

(** The inner loop body, for one peer of an observation. *)
Definition record_peer (obs : MemberId) (log : ObservationLog) (p : PeerObservation) : ObservationLog :=
  let '(latest, stale) := log in
  if is_nil (peer p) || bool_decide (peer p = obs) then log
  else if negb (bool_decide (peer p ∈ members)) then log
  else if negb (freshness_ticks =? 0) &&
          ((value now <? value (observed_at p)) ||
           (freshness_ticks <? value now - value (observed_at p)))
  then (latest, stale ++ [peer p])
  else match smap_find (obs, peer p) latest with
       | None => (smap_insert (obs, peer p) p latest, stale)
       | Some existing =>
           if value (observed_at existing) <? value (observed_at p)
           then (smap_insert (obs, peer p) p latest, stale) else log
       end.
(** The outer loop body. *)
Definition record_observation (log : ObservationLog) (o : MemberObservation) : ObservationLog :=
  let '(latest, stale) := log in
  if is_nil (observer o) || negb (bool_decide (observer o ∈ members)) then log
  else if negb (bool_decide (obs_epoch o = current_epoch)) then (latest, stale ++ [observer o])
  else if negb (freshness_ticks =? 0) && (value now <? value (recorded_at o))
  then (latest, stale ++ [observer o])
  else foldl (record_peer (observer o)) log (peers o).
Definition observation_log (observations : list MemberObservation) : ObservationLog :=
  foldl record_observation ([], []) observations.

(** [index_of] and [current_incarnation]. *)
Fixpoint index_in (l : list MemberId) (m : MemberId) : nat :=
  match l with
  | [] => 0%nat
  | x :: l => if decide (x = m) then 0%nat else S (index_in l m)
  end.
Definition index_of (m : MemberId) : nat := index_in members m.
Definition current_incarnation (m : MemberId) : Incarnation := nth (index_of m) incarnations zero.
Definition member_at (i : nat) : MemberId := nth i members nil_id.

Definition reachable (p : PeerObservation) : bool :=
  bool_decide (peer_state p = ReachabilityState.Reachable).

(** The loop over [latest] that collects the candidate pairs. *)
Definition candidate_pair (entry : PairKey * PeerObservation) : option (nat * nat) :=
  let '((obs, pr), p) := entry in
  if negb (reachable p) then None
  else if is_zero (peer_incarnation p) ||
          negb (bool_decide (peer_incarnation p = current_incarnation pr)) then None
  else if (index_of obs <? index_of pr)%nat then Some (index_of obs, index_of pr) else None.
(** The tests a candidate passes to become an edge. *)
Definition confirmed_pair (latest : smap PairKey PeerObservation) (pair : nat * nat) : bool :=
  let a := member_at pair.1 in
  let b := member_at pair.2 in
  match smap_find (a, b) latest, smap_find (b, a) latest with
  | Some forward, Some backward =>
      reachable forward && reachable backward &&
      bool_decide (peer_incarnation forward = current_incarnation b) &&
      bool_decide (peer_incarnation backward = current_incarnation a)
  | _, _ => false
  end.
Definition edges (latest : smap PairKey PeerObservation) : list (nat * nat) :=
  filter (λ p, confirmed_pair latest p = true) (omap candidate_pair latest).

Definition referenced (latest : smap PairKey PeerObservation) (m : MemberId) : bool :=
  existsb (λ e, bool_decide (e.1.1 = m) || bool_decide (e.1.2 = m)) latest.
Definition seen_unreachable (latest : smap PairKey PeerObservation) (m : MemberId) : bool :=
  existsb (λ e, bool_decide (e.1.2 = m) &&
                bool_decide (peer_state e.2 = ReachabilityState.Unreachable)) latest.
Definition has_confirmed_edge (es : list (nat * nat)) (m : MemberId) : bool :=
  existsb (λ e, bool_decide (member_at e.1 = m) || bool_decide (member_at e.2 = m)) es.

Definition union_find (es : list (nat * nat)) : DisjointSet :=
  foldl (λ ds e, ds_unite ds e.1 e.2) (ds_make (length members)) es.
(** [grouped]: the members of every root, in index order, then sorted. *)
Definition component_of (roots : list nat) (r : nat) : list MemberId :=
  std_sort ((filter (λ e, e.2 = r) (zip members roots)).*1).
Definition group_components (es : list (nat * nat)) : list (list MemberId) :=
  let roots := ds_roots (union_find es) (seq 0 (length members)) in
  std_sort (component_of roots <$> remove_dups roots).
End assess.

Definition assess_partition (active_members : list MemberId) (active_incarnations : list Incarnation)
    (observations : list MemberObservation) (current_epoch : Epoch) (now : Tick)
    (freshness_ticks : N) : PartitionAssessment :=
  let members := sort_unique active_members in
  if negb (length members =? length active_incarnations)%nat then
    mkAssessment PartitionState.Indeterminate [] [] [] [] [] EvidenceState.Invalid
      "active member and incarnation lists disagree"
  else if (length members =? 0)%nat then
    mkAssessment PartitionState.Empty [] [] [] [] [] EvidenceState.Unknown "no active members"
  else if (length members =? 1)%nat then
    mkAssessment PartitionState.Connected [members] members [] [] [] EvidenceState.Known
      "a single active member cannot be partitioned from itself"
  else
    let '(latest, stale) := observation_log members current_epoch now freshness_ticks observations in
    let es := edges members active_incarnations latest in
    let comps := group_components members es in
    let reach := filter (λ m, has_confirmed_edge members es m = true) members in
    let unreach := filter (λ m, seen_unreachable latest m && negb (has_confirmed_edge members es m) = true)
                          members in
    let unobs := filter (λ m, referenced latest m = false) members in
    let result state evidence summary :=
      mkAssessment state comps reach unreach unobs (sort_unique stale) evidence summary in
    if (0 <? length unobs)%nat then
      result PartitionState.Indeterminate EvidenceState.Indeterminate
        ("no usable reachability observation covers " +s+ to_dec (size unobs) +s+ " active member(s)")
    else if (length comps =? 1)%nat then
      result PartitionState.Connected EvidenceState.Known "all active members are mutually reachable"
    else
      result PartitionState.Split EvidenceState.Known
        ("the active set is split into " +s+ to_dec (size comps) +s+ " component(s)").

(** ** Correctness of the disjoint-set forest *)

(** Parent links stay in range and climb strictly in rank. *)
Record forest_wf (parent rank : list nat) : Prop := {
  forest_length : length rank = length parent;
  forest_range : ∀ i, (i < length parent)%nat → (at_ parent i < length parent)%nat;
  forest_climb : ∀ i, (i < length parent)%nat → at_ parent i ≠ i →
    (at_ rank i < at_ rank (at_ parent i))%nat
}.

(** [root parent i r]: following the links from [i] ends at [r]. *)
Inductive root (parent : list nat) : nat → nat → Prop :=
  | root_here i : at_ parent i = i → root parent i i
  | root_up i r : at_ parent i ≠ i → root parent (at_ parent i) r → root parent i r.

Lemma root_functional parent i r r' : root parent i r → root parent i r' → r = r'.
Proof.
  intros Hr. revert r'. induction Hr as [i Hi|i r Hi Hr IH]; intros r' Hr'.
  - inversion Hr'; subst; [done|congruence].
  - inversion Hr'; subst; [congruence|by apply IH].
Qed.
Lemma root_is_root parent i r : root parent i r → at_ parent r = r.
Proof. by induction 1. Qed.

Lemma at_insert l i x j :
  (i < length l)%nat → at_ (<[i := x]> l) j = if decide (j = i) then x else at_ l j.
Proof.
  intros Hi. unfold at_. rewrite !nth_lookup. case_decide as Hj.
  - subst. by rewrite list_lookup_insert_eq.
  - by rewrite list_lookup_insert_ne.
Qed.

Section forest.
Context (parent rank : list nat) (Hwf : forest_wf parent rank).
Local Notation n := (length parent).

(** The nodes ranked above [i]: what a climb from [i] can still visit. *)
Definition above (i : nat) : nat :=
  length (filter (λ j, (at_ rank i < at_ rank j)%nat) (seq 0 n)).

Lemma above_bound i : (i < n)%nat → (above i < n)%nat.
Proof.
  intros Hi. unfold above.
  assert (i :: filter (λ j, (at_ rank i < at_ rank j)%nat) (seq 0 n) ⊆+ seq 0 n) as Hsub.
  { apply NoDup_submseteq.
    - constructor; [rewrite list_elem_of_filter; lia|apply NoDup_filter, NoDup_seq].
    - intros k [->|Hk]%elem_of_cons; [apply elem_of_seq; lia|]. by apply list_elem_of_filter in Hk as [_ ?]. }
  apply submseteq_length in Hsub. rewrite length_seq in Hsub. simpl in Hsub. lia.
Qed.

Lemma above_decreases i j :
  (j < n)%nat → (at_ rank i < at_ rank j)%nat → (above j < above i)%nat.
Proof.
  intros Hj Hij. unfold above.
  assert (j :: filter (λ k, (at_ rank j < at_ rank k)%nat) (seq 0 n) ⊆+
          filter (λ k, (at_ rank i < at_ rank k)%nat) (seq 0 n)) as Hsub.
  { apply NoDup_submseteq.
    - constructor; [rewrite list_elem_of_filter; lia|apply NoDup_filter, NoDup_seq].
    - intros k [->|Hk]%elem_of_cons; rewrite list_elem_of_filter in *;
        rewrite elem_of_seq in *; [lia|]. destruct Hk. split; [lia|done]. }
  apply submseteq_length in Hsub. simpl in Hsub. lia.
Qed.

Lemma root_exists i : (i < n)%nat → ∃ r, root parent i r ∧ (r < n)%nat.
Proof.
  remember (above i) as m eqn:Hm. revert i Hm.
  induction (lt_wf m) as [m _ IH]. intros i -> Hi.
  destruct (decide (at_ parent i = i)) as [He|Hne]; [exists i; split; [by constructor|done]|].
  pose proof (forest_range _ _ Hwf i Hi) as Hp.
  destruct (IH (above (at_ parent i))) with (i := at_ parent i) as (r & Hr & Hrn);
    [by apply above_decreases, (forest_climb _ _ Hwf)|done|done|].
  exists r. split; [by apply root_up|done].
Qed.

(** Halving one link keeps the forest and every root. *)
Lemma halve_wf i :
  (i < n)%nat → at_ parent i ≠ i →
  forest_wf (<[i := at_ parent (at_ parent i)]> parent) rank.
Proof.
  intros Hi Hne. destruct Hwf as [Hlen Hrange Hclimb].
  pose proof (Hrange i Hi). pose proof (Hclimb i Hi Hne).
  constructor; rewrite ?length_insert; [done|..]; intros j Hj; rewrite at_insert by done;
    case_decide; subst; auto.
  intros Hne2. destruct (decide (at_ parent (at_ parent i) = at_ parent i)) as [->|Hup]; [done|].
  pose proof (Hclimb (at_ parent i) ltac:(done) Hup). lia.
Qed.
Lemma halve_root i k r :
  (i < n)%nat → at_ parent i ≠ i → (k < n)%nat →
  root parent k r → root (<[i := at_ parent (at_ parent i)]> parent) k r.
Proof.
  intros Hi Hne Hk Hr. destruct Hwf as [Hlen Hrange Hclimb].
  induction Hr as [k He|k r Hkne Hr IH].
  - apply root_here. rewrite at_insert by done. case_decide; [by subst|done].
  - specialize (IH (Hrange k Hk)).
    destruct (decide (k = i)) as [->|Hki]; [|by apply root_up; rewrite at_insert, decide_False by done].
    set (j := at_ parent i) in *.
    assert (j ≠ i) by done.
    pose proof (Hclimb i Hi Hne) as Hij. fold j in Hij.
    destruct (decide (at_ parent j = j)) as [Hj|Hj].
    + assert (r = j) as -> by by inversion Hr; subst; [|congruence].
      apply root_up; rewrite at_insert, decide_True, Hj by done; [done|].
      apply root_here. by rewrite at_insert, decide_False.
    + inversion IH as [? Hbad|? ? Hne' IH']; subst.
      { rewrite at_insert, decide_False in Hbad by done. congruence. }
      rewrite at_insert, decide_False in IH' by done.
      pose proof (Hclimb j (Hrange i Hi) Hj).
      apply root_up; rewrite at_insert, decide_True by done; [|done].
      intros Heq. rewrite Heq in *. lia.
Qed.
End forest.

(** [find] returns the root, and only shortens paths. *)
Lemma find_loop_spec rank fuel : ∀ parent i r,
  forest_wf parent rank → (i < length parent)%nat → (above parent rank i < fuel)%nat ∨ at_ parent i = i →
  root parent i r →
  let '(parent', r') := find_loop fuel parent i in
  r' = r ∧ forest_wf parent' rank ∧ length parent' = length parent ∧
  ∀ k q, (k < length parent)%nat → root parent k q → root parent' k q.
Proof.
  induction fuel as [|fuel IH]; intros parent i r Hwf Hi Hfuel Hr; simpl.
  { destruct Hfuel as [?|He]; [lia|]. split_and!; [by inversion Hr; subst; [|congruence]|done..]. }
  destruct (Nat.eqb_spec (at_ parent i) i) as [He|Hne].
  { split_and!; [by inversion Hr; subst; [|congruence]|done..]. }
  set (parent' := <[i := at_ parent (at_ parent i)]> parent).
  assert (forest_wf parent' rank) as Hwf' by by apply halve_wf.
  assert (length parent' = length parent) as Hlen by apply length_insert.
  pose proof (forest_range _ _ Hwf i Hi) as Hpi.
  pose proof (forest_range _ _ Hwf _ Hpi) as Hppi.
  pose proof (forest_climb _ _ Hwf i Hi Hne) as Hclimb.
  assert (at_ parent' i = at_ parent (at_ parent i)) as Hat
    by (unfold parent'; by rewrite at_insert, decide_True).
  rewrite Hat.
  assert (root parent' i r) as Hr' by by apply halve_root with rank.
  assert (root parent' (at_ parent (at_ parent i)) r) as Hr''.
  { rewrite <-Hat. inversion Hr' as [? Hh|? ? ? Hup]; subst; [by rewrite Hh|done]. }
  assert ((above parent' rank (at_ parent (at_ parent i)) < fuel)%nat) as Hfuel'.
  { destruct Hfuel as [Hfuel|?]; [|done].
    assert (∀ k, above parent' rank k = above parent rank k) as Habove
      by (intros k; unfold above; by rewrite Hlen).
    rewrite Habove.
    assert (at_ rank i < at_ rank (at_ parent (at_ parent i)))%nat as Hup.
    { destruct (decide (at_ parent (at_ parent i) = at_ parent i)) as [->|Hu]; [done|].
      pose proof (forest_climb _ _ Hwf _ Hpi Hu). lia. }
    pose proof (above_decreases parent rank i _ Hppi Hup). lia. }
  specialize (IH parent' (at_ parent (at_ parent i)) r Hwf' ltac:(lia) (or_introl Hfuel') Hr'').
  destruct (find_loop fuel parent' _) as [parent'' r'].
  destruct IH as (-> & ? & ? & Hroots). split_and!; [done|done|lia|].
  intros k q Hk Hq. apply Hroots; [lia|]. by apply halve_root with rank.
Qed.

(** ** Connectivity *)

(** The set of nodes with the same root. *)
Definition same_set (ds : DisjointSet) (i j : nat) : Prop :=
  ∃ r, root (parent_ ds) i r ∧ root (parent_ ds) j r.
Definition ds_wf (n : nat) (ds : DisjointSet) : Prop :=
  forest_wf (parent_ ds) (rank_ ds) ∧ length (parent_ ds) = n.

Lemma at_seq n i : (i < n)%nat → at_ (seq 0 n) i = i.
Proof. intros Hi. unfold at_. by rewrite seq_nth. Qed.

Lemma ds_make_wf n : ds_wf n (ds_make n).
Proof.
  split; [|apply length_seq]. unfold ds_make; simpl.
  constructor; rewrite ?length_seq, ?length_replicate; [done|..]; intros i Hi; rewrite at_seq; done.
Qed.
Lemma ds_make_root n i r : (i < n)%nat → root (parent_ (ds_make n)) i r → r = i.
Proof.
  intros Hi Hr. apply (root_functional (seq 0 n) i); [done|]. apply root_here. by apply at_seq.
Qed.

Lemma ds_find_spec n ds i r :
  ds_wf n ds → (i < n)%nat → root (parent_ ds) i r →
  let '(ds', r') := ds_find ds i in
  r' = r ∧ ds_wf n ds' ∧ rank_ ds' = rank_ ds ∧
  ∀ k q, (k < n)%nat → root (parent_ ds) k q → root (parent_ ds') k q.
Proof.
  intros [Hwf Hn] Hi Hr. unfold ds_find. subst n.
  pose proof (find_loop_spec (rank_ ds) (length (parent_ ds)) (parent_ ds) i r Hwf Hi
    (or_introl (above_bound _ _ i Hi)) Hr) as Hspec.
  destruct (find_loop _ _ _) as [parent' r']. destruct Hspec as (-> & ? & ? & ?).
  by split_and!.
Qed.

(** A link from root [b] to root [a] redirects exactly [b]'s nodes. *)
Lemma link_root parent a b k q :
  (b < length parent)%nat → at_ parent a = a → at_ parent b = b → a ≠ b →
  root parent k q → root (<[b := a]> parent) k (if decide (q = b) then a else q).
Proof.
  intros Hb Ha Hbb Hab Hq.
  assert (root (<[b:=a]> parent) a a) as Haa
    by (apply root_here; rewrite at_insert by done; by rewrite decide_False).
  induction Hq as [k Hk|k q Hk Hq IH].
  - case_decide; [subst|]; [apply root_up; rewrite at_insert, decide_True by done; done|].
    apply root_here. by rewrite at_insert, decide_False.
  - apply root_up; rewrite at_insert, decide_False by (done || congruence); done.
Qed.

Lemma ds_unite_spec n ds a b :
  ds_wf n ds → (a < n)%nat → (b < n)%nat →
  ds_wf n (ds_unite ds a b) ∧
  ∃ ra rb rt, root (parent_ ds) a ra ∧ root (parent_ ds) b rb ∧ (rt = ra ∨ rt = rb) ∧
    ∀ k q, (k < n)%nat → root (parent_ ds) k q →
      root (parent_ (ds_unite ds a b)) k (if decide (q = ra ∨ q = rb) then rt else q).
Proof.
  intros Hwf Ha Hb.
  destruct (root_exists _ _ (proj1 Hwf) a) as (ra & Hra & Hran); [by rewrite (proj2 Hwf)|].
  destruct (root_exists _ _ (proj1 Hwf) b) as (rb & Hrb & Hrbn); [by rewrite (proj2 Hwf)|].
  unfold ds_unite.
  pose proof (ds_find_spec n ds a ra Hwf Ha Hra) as H1.
  destruct (ds_find ds a) as [ds1 ra']. destruct H1 as (-> & Hwf1 & Hrk1 & Hr1).
  pose proof (ds_find_spec n ds1 b rb Hwf1 Hb (Hr1 _ _ Hb Hrb)) as H2.
  destruct (ds_find ds1 b) as [ds2 rb']. destruct H2 as (-> & Hwf2 & Hrk2 & Hr2).
  assert (∀ k q, (k < n)%nat → root (parent_ ds) k q → root (parent_ ds2) k q) as Hr by auto.
  destruct (Nat.eqb_spec ra rb) as [->|Hne].
  { split; [done|]. exists rb, rb, rb. split_and!; [done..|by left|].
    intros k q Hk Hq. case_decide as Hc; [|by apply Hr]. by destruct Hc as [->| ->]; apply Hr. }
  assert (at_ (parent_ ds2) ra = ra ∧ at_ (parent_ ds2) rb = rb) as [Hfa Hfb]
    by exact (conj (root_is_root _ _ _ (Hr _ _ Ha Hra)) (root_is_root _ _ _ (Hr _ _ Hb Hrb))).
  destruct Hwf2 as [Hf2 Hlen2]. rewrite (proj2 Hwf) in Hran, Hrbn.
  (* [t] is the root that stays, [s] the one linked under it. *)
  assert (∃ t s, (if (at_ (rank_ ds2) ra <? at_ (rank_ ds2) rb)%nat then (rb, ra) else (ra, rb)) = (t, s) ∧
    ((t = ra ∧ s = rb) ∨ (t = rb ∧ s = ra)) ∧ (at_ (rank_ ds2) s ≤ at_ (rank_ ds2) t)%nat)
    as (t & s & -> & Hts & Hrank).
  { destruct (Nat.ltb_spec (at_ (rank_ ds2) ra) (at_ (rank_ ds2) rb)); eexists _, _; split_and!; eauto; lia. }
  assert (at_ (parent_ ds2) t = t ∧ at_ (parent_ ds2) s = s ∧ t ≠ s ∧ (t < n)%nat ∧ (s < n)%nat)
    as (Hft & Hfs & Hnts & Htn & Hsn) by (destruct Hts as [[-> ->]|[-> ->]]; auto).
  split.
  - split; simpl; [|by rewrite length_insert].
    destruct Hf2 as [Hlen Hrange Hclimb].
    set (rank' := if (at_ (rank_ ds2) t =? at_ (rank_ ds2) s)%nat
                  then <[t:=S (at_ (rank_ ds2) t)]> (rank_ ds2) else rank_ ds2).
    assert (∀ k, at_ (rank_ ds2) k ≤ at_ rank' k)%nat as Hmono.
    { intros k. subst rank'. destruct (_ =? _)%nat; [|done].
      rewrite at_insert by lia. case_decide; subst; lia. }
    assert (at_ rank' s < at_ rank' t)%nat as Hlt.
    { subst rank'. destruct (Nat.eqb_spec (at_ (rank_ ds2) t) (at_ (rank_ ds2) s)); [|lia].
      rewrite !at_insert by lia. rewrite decide_False, decide_True by done. lia. }
    constructor; rewrite ?length_insert.
    + subst rank'. destruct (_ =? _)%nat; rewrite ?length_insert; done.
    + intros i Hi. rewrite at_insert by lia. case_decide; [lia|by apply Hrange].
    + intros i Hi Hup. rewrite at_insert in Hup |- * by lia. case_decide; [by subst|].
      specialize (Hclimb i Hi Hup). specialize (Hmono (at_ (parent_ ds2) i)).
      assert (at_ rank' i = at_ (rank_ ds2) i) as ->; [|lia].
      subst rank'. destruct (_ =? _)%nat; [|done]. rewrite at_insert, decide_False by (lia || congruence). done.
  - exists ra, rb, t. split_and!; [done..|naive_solver|]. simpl.
    intros k q Hk Hq. specialize (Hr k q Hk Hq).
    pose proof (link_root (parent_ ds2) t s k q ltac:(lia) Hft Hfs Hnts Hr) as Hl.
    destruct (decide (q = ra ∨ q = rb)) as [Hc|Hc].
    + assert ((if decide (q = s) then t else q) = t) as Heq by (case_decide; naive_solver).
      by rewrite Heq in Hl.
    + assert ((if decide (q = s) then t else q) = q) as Heq by (case_decide; naive_solver).
      by rewrite Heq in Hl.
Qed.

Lemma ds_root_exists n ds i : ds_wf n ds → (i < n)%nat → ∃ r, root (parent_ ds) i r ∧ (r < n)%nat.
Proof. intros [Hwf <-] Hi. by apply root_exists with (rank_ ds). Qed.

Definition edge_in (es : list (nat * nat)) (i j : nat) : Prop := (i, j) ∈ es.
Definition edges_in_range (n : nat) (es : list (nat * nat)) : Prop :=
  Forall (λ e, (e.1 < n)%nat ∧ (e.2 < n)%nat) es.

Lemma same_set_roots ds i j qi qj :
  root (parent_ ds) i qi → root (parent_ ds) j qj → same_set ds i j ↔ qi = qj.
Proof.
  intros Hi Hj. split; [|intros ->; by exists qj].
  intros (r & Hir & Hjr). by rewrite (root_functional _ _ _ _ Hi Hir), (root_functional _ _ _ _ Hj Hjr).
Qed.

Lemma rtsc_snoc es e i j : rtsc (edge_in es) i j → rtsc (edge_in (es ++ [e])) i j.
Proof.
  apply rtc_subrel. intros x y [Hxy|Hxy]; [left|right]; unfold edge_in in *; set_solver.
Qed.

Lemma ds_unite_closure n ds es e :
  ds_wf n ds → edges_in_range n (es ++ [e]) →
  (∀ i j, (i < n)%nat → (j < n)%nat → same_set ds i j ↔ rtsc (edge_in es) i j) →
  ds_wf n (ds_unite ds e.1 e.2) ∧
  ∀ i j, (i < n)%nat → (j < n)%nat →
    same_set (ds_unite ds e.1 e.2) i j ↔ rtsc (edge_in (es ++ [e])) i j.
Proof.
  intros Hwf Hes Hds. destruct e as [a b]; simpl.
  assert (a < n ∧ b < n)%nat as [Ha Hb].
  { unfold edges_in_range in Hes. rewrite Forall_app, Forall_singleton in Hes. apply Hes. }
  destruct (ds_unite_spec n ds a b Hwf Ha Hb) as (Hwf' & ra & rb & rt & Hra & Hrb & Hrt & Hroot).
  split; [done|]. intros i j Hi Hj.
  destruct (ds_root_exists n ds i Hwf Hi) as (qi & Hqi & _).
  destruct (ds_root_exists n ds j Hwf Hj) as (qj & Hqj & _).
  rewrite (same_set_roots _ _ _ _ _ (Hroot _ _ Hi Hqi) (Hroot _ _ Hj Hqj)). split.
  - (* Nodes whose roots merged are linked through the new edge. *)
    assert (∀ x q, (x < n)%nat → root (parent_ ds) x q → q = ra ∨ q = rb →
      rtsc (edge_in (es ++ [(a, b)])) x a) as Hto.
    { intros x q Hx Hq [->| ->].
      - apply rtsc_snoc, Hds; [done..|]. by exists ra.
      - transitivity b; [apply rtsc_snoc, Hds; [done..|]; by exists rb|].
        apply rtc_once. right. unfold edge_in. set_solver. }
    intros Heq. destruct (decide (qi = ra ∨ qi = rb)) as [Hci|Hci], (decide (qj = ra ∨ qj = rb)) as [Hcj|Hcj].
    + transitivity a; [by apply (Hto i qi)|]. symmetry. by apply (Hto j qj).
    + destruct Hrt as [->| ->]; naive_solver.
    + destruct Hrt as [->| ->]; naive_solver.
    + subst. apply rtsc_snoc, Hds; [done..|]. by exists qj.
  - (* Every edge joins nodes with one root. *)
    intros Hpath. revert qi Hi Hqi. induction Hpath as [i|i k j Hik Hkj IH]; intros qi Hi Hqi.
    { by rewrite (root_functional _ _ _ _ Hqi Hqj). }
    assert (k < n)%nat as Hk.
    { unfold edges_in_range in Hes. rewrite Forall_forall in Hes.
      destruct Hik as [Hik|Hik]; by apply (Hes _ Hik). }
    destruct (ds_root_exists n ds k Hwf Hk) as (qk & Hqk & _).
    transitivity (if decide (qk = ra ∨ qk = rb) then rt else qk); [|by apply IH].
    assert (edge_in es i k ∨ edge_in es k i ∨ (i = a ∧ k = b) ∨ (i = b ∧ k = a)) as Hcase.
    { unfold edge_in in *. destruct Hik as [Hik|Hik]; apply elem_of_app in Hik as [?|Hik%list_elem_of_singleton];
        simplify_eq; auto. }
    destruct Hcase as [He|[He|[[-> ->]|[-> ->]]]].
    + assert (qi = qk) as ->; [|done]. apply (same_set_roots ds i k); [done..|].
      apply Hds; [done..|]. apply rtc_once. by left.
    + assert (qi = qk) as ->; [|done]. apply (same_set_roots ds i k); [done..|].
      apply Hds; [done..|]. apply rtc_once. by right.
    + rewrite (root_functional _ _ _ _ Hqi Hra), (root_functional _ _ _ _ Hqk Hrb).
      rewrite !decide_True; auto.
    + rewrite (root_functional _ _ _ _ Hqi Hrb), (root_functional _ _ _ _ Hqk Hra).
      rewrite !decide_True; auto.
Qed.

Lemma union_find_closure n es :
  edges_in_range n es →
  let ds := foldl (λ ds e, ds_unite ds e.1 e.2) (ds_make n) es in
  ds_wf n ds ∧
  ∀ i j, (i < n)%nat → (j < n)%nat → same_set ds i j ↔ rtsc (edge_in es) i j.
Proof.
  induction es as [|e es IH] using rev_ind; intros Hes.
  - split; [apply ds_make_wf|]. intros i j Hi Hj. cbn [foldl]. split.
    + intros (r & Hri & Hrj). apply ds_make_root in Hri, Hrj; [|done..]. subst. constructor.
    + intros Hp. inversion Hp as [|? k ? [Hk|Hk]]; subst; [|by apply elem_of_nil in Hk..].
      destruct (ds_root_exists n _ j (ds_make_wf n) Hj) as (r & Hr & _). by exists r.
  - cbv zeta. rewrite foldl_app. cbn [foldl].
    destruct IH as [Hwf Hds]; [unfold edges_in_range in *; by apply Forall_app in Hes as [? _]|].
    by apply ds_unite_closure.
Qed.

Lemma ds_roots_spec n l : ∀ ds,
  ds_wf n ds → Forall (λ i, (i < n)%nat) l →
  Forall2 (root (parent_ ds)) l (ds_roots ds l).
Proof.
  induction l as [|i l IH]; intros ds Hwf Hl; simpl; [constructor|].
  apply Forall_cons in Hl as [Hi Hl].
  destruct (ds_root_exists n ds i Hwf Hi) as (r & Hr & _).
  pose proof (ds_find_spec n ds i r Hwf Hi Hr) as Hf.
  destruct (ds_find ds i) as [ds' r']. destruct Hf as (-> & Hwf' & _ & Hroots).
  constructor; [done|].
  specialize (IH ds' Hwf' Hl). rewrite Forall_forall in Hl.
  apply Forall2_same_length_lookup in IH as [Hlen IH].
  apply Forall2_same_length_lookup. split; [done|].
  intros k x y Hx Hy. specialize (IH k x y Hx Hy).
  assert (x < n)%nat as Hxn by (apply Hl; by eapply list_elem_of_lookup_2).
  destruct (ds_root_exists n ds x Hwf Hxn) as (q & Hq & _).
  by rewrite <-(root_functional _ _ _ _ (Hroots _ _ Hxn Hq) IH).
Qed.

(** The disjoint-set forest computes connectivity: after uniting any
    sequence of in-range pairs, with path halving and union by rank, two nodes
    get the same root iff the pairs link them, and the loop of [find] always
    reaches a root within its fuel. *)
Theorem disjoint_set_connectivity (n : nat) (es : list (nat * nat)) (i j : nat) :
  edges_in_range n es → (i < n)%nat → (j < n)%nat →
  let ds := foldl (λ ds e, ds_unite ds e.1 e.2) (ds_make n) es in
  let '(ds', ri) := ds_find ds i in
  let '(ds'', rj) := ds_find ds' j in
  (ri = rj ↔ rtsc (edge_in es) i j) ∧ at_ (parent_ ds'') ri = ri ∧ at_ (parent_ ds'') rj = rj.
Proof.
  intros Hes Hi Hj ds. destruct (union_find_closure n es Hes) as [Hwf Hds]. fold ds in Hwf, Hds.
  destruct (ds_root_exists n ds i Hwf Hi) as (qi & Hqi & _).
  destruct (ds_root_exists n ds j Hwf Hj) as (qj & Hqj & _).
  pose proof (ds_find_spec n ds i qi Hwf Hi Hqi) as H1.
  destruct (ds_find ds i) as [ds1 ri]. destruct H1 as (-> & Hwf1 & _ & Hr1).
  pose proof (ds_find_spec n ds1 j qj Hwf1 Hj (Hr1 _ _ Hj Hqj)) as H2.
  destruct (ds_find ds1 j) as [ds2 rj]. destruct H2 as (-> & Hwf2 & _ & Hr2).
  rewrite <-(same_set_roots _ _ _ _ _ Hqi Hqj), Hds by done. split_and!; [done|..].
  - exact (root_is_root _ _ _ (Hr2 _ _ Hi (Hr1 _ _ Hi Hqi))).
  - exact (root_is_root _ _ _ (Hr2 _ _ Hj (Hr1 _ _ Hj Hqj))).
Qed.
Lemma disjoint_set_connectivity_witness :
  let ds := foldl (λ ds e, ds_unite ds e.1 e.2) (ds_make 4) [(0, 1); (2, 1)]%nat in
  let '(ds', r0) := ds_find ds 0 in
  let '(ds'', r2) := ds_find ds' 2 in
  (r0 = r2 ↔ rtsc (edge_in [(0, 1); (2, 1)]%nat) 0%nat 2%nat) ∧
  at_ (parent_ ds'') r0 = r0 ∧ at_ (parent_ ds'') r2 = r2.
Proof.
  apply (disjoint_set_connectivity 4 [(0, 1); (2, 1)]%nat 0 2); [|lia|lia].
  unfold edges_in_range. repeat constructor; simpl; lia.
Defined.

(** ** Components *)

Lemma length_std_sort {A} `{Cmp A} (l : list A) : length (std_sort l) = length l.
Proof. unfold std_sort. apply length_sort_by. Qed.

(** Grouping by key is a partition of the list. *)
Lemma concat_groups {A} (l : list (A * nat)) (ks : list nat) :
  NoDup ks → (∀ e, e ∈ l → e.2 ∈ ks) →
  concat ((λ r, (filter (λ e, e.2 = r) l).*1) <$> ks) ≡ₚ l.*1.
Proof.
  intros Hnd. induction l as [|[a k] l IH]; intros Hks.
  { clear. induction ks as [|k ks IH]; simpl; [done|]. exact IH. }
  assert (k ∈ ks) as Hk by (apply (Hks (a, k)); by left).
  apply list_elem_of_split in Hk as (k1 & k2 & ->).
  change (((a, k) :: l).*1) with (a :: l.*1).
  rewrite <-IH by (intros e He; apply Hks; by right). clear IH Hks.
  assert (∀ r, r ≠ k → (filter (λ e, e.2 = r) ((a, k) :: l)).*1 = (filter (λ e, e.2 = r) l).*1) as Hother.
  { intros r Hr. by rewrite filter_cons, decide_False. }
  assert (∀ ks : list nat, k ∉ ks → (λ r, (filter (λ e, e.2 = r) ((a, k) :: l)).*1) <$> ks =
                         (λ r, (filter (λ e, e.2 = r) l).*1) <$> ks) as Hmap.
  { intros ks Hnin. apply list_fmap_ext. intros i r Hr. apply Hother. intros ->.
    apply Hnin. by eapply list_elem_of_lookup_2. }
  apply NoDup_app in Hnd as (_ & Hdisj & Hnd2). apply NoDup_cons in Hnd2 as [Hk2 _].
  rewrite !fmap_app, !fmap_cons, !concat_app. simpl.
  rewrite !Hmap by (try done; intros Hin; apply (Hdisj k Hin); by left).
  rewrite filter_cons, decide_True by done. simpl.
  symmetry. apply Permutation_middle.
Qed.

Section components.
Context (members : list MemberId) (Hnd : NoDup members).
Local Notation n := (length members).

Lemma index_of_lookup m : m ∈ members → members !! index_of members m = Some m.
Proof.
  clear Hnd. unfold index_of. induction members as [|x l IH]; [by intros ?%elem_of_nil|].
  simpl. intros Hm. case_decide as Hx; [by subst|].
  apply IH. by apply elem_of_cons in Hm as [->|?].
Qed.
Lemma index_of_lt m : m ∈ members → (index_of members m < n)%nat.
Proof. intros Hm. eapply lookup_lt_Some. by apply index_of_lookup. Qed.
Lemma member_at_index m : m ∈ members → member_at members (index_of members m) = m.
Proof. intros Hm. unfold member_at. apply nth_lookup_Some. by apply index_of_lookup. Qed.
Lemma member_at_elem i : (i < n)%nat → member_at members i ∈ members.
Proof. intros Hi. unfold member_at. apply list_elem_of_In. by apply nth_In. Qed.
Lemma index_member_at i : (i < n)%nat → index_of members (member_at members i) = i.
Proof.
  intros Hi. pose proof (index_of_lookup _ (member_at_elem i Hi)) as Hl.
  assert (members !! i = Some (member_at members i)) as Hl'.
  { unfold member_at. destruct (lookup_lt_is_Some_2 members i Hi) as [x Hx].
    by rewrite (nth_lookup_Some _ _ _ _ Hx). }
  by apply (NoDup_lookup _ _ _ _ Hnd Hl Hl').
Qed.

(** The edges as pairs of members. *)
Definition linked (es : list (nat * nat)) (a b : MemberId) : Prop :=
  (index_of members a, index_of members b) ∈ es ∧ a ∈ members ∧ b ∈ members.

Lemma linked_closure es a b :
  edges_in_range n es → a ∈ members → b ∈ members →
  rtsc (edge_in es) (index_of members a) (index_of members b) ↔ rtsc (linked es) a b.
Proof.
  intros Hes Ha Hb. unfold edges_in_range in Hes. rewrite Forall_forall in Hes. split.
  - intros Hp. rewrite <-(member_at_index a Ha), <-(member_at_index b Hb).
    pose proof (index_of_lt a Ha) as Hi. pose proof (index_of_lt b Hb) as Hj.
    revert Hi Hj Hp. generalize (index_of members a) as i, (index_of members b) as j.
    intros i j Hi Hj Hp. induction Hp as [i|i k j Hik Hkj IH]; [done|].
    assert (k < n)%nat as Hk by (destruct Hik as [Hik|Hik]; by apply (Hes _ Hik)).
    eapply rtc_l; [|by apply IH].
    destruct Hik as [Hik|Hik]; [left|right]; unfold linked;
      rewrite !index_member_at by done; auto using member_at_elem.
  - intros Hp. induction Hp as [a|a c b Hac Hcb IH]; [done|].
    destruct Hac as [(Hac & _ & Hc)|(Hac & Hc & _)];
      (eapply rtc_l; [|by apply IH]); [by left|by right].
Qed.

Lemma group_components_spec es :
  edges_in_range n es →
  concat (group_components members es) ≡ₚ members ∧
  (∀ a b, a ∈ members → b ∈ members →
     (∃ c, c ∈ group_components members es ∧ a ∈ c ∧ b ∈ c) ↔ rtsc (linked es) a b) ∧
  (length (group_components members es) = 1%nat ↔
     members ≠ [] ∧ ∀ a b, a ∈ members → b ∈ members → rtsc (linked es) a b).
Proof.
  intros Hes. destruct (union_find_closure n es Hes) as [Hwf Hds].
  fold (union_find members es) in Hwf, Hds.
  unfold group_components. set (roots := ds_roots (union_find members es) (seq 0 n)).
  pose proof (ds_roots_spec n (seq 0 n) (union_find members es) Hwf) as Hroots. fold roots in Hroots.
  assert (Forall2 (root (parent_ (union_find members es))) (seq 0 n) roots) as Hr.
  { apply Hroots. apply Forall_forall. intros x Hx. apply elem_of_seq in Hx. lia. }
  clear Hroots. apply Forall2_same_length_lookup in Hr as [Hlen Hr]. rewrite length_seq in Hlen.
  assert (∀ m r, (m, r) ∈ zip members roots ↔
    m ∈ members ∧ root (parent_ (union_find members es)) (index_of members m) r) as Hzip.
  { intros m r. rewrite list_elem_of_lookup. split.
    - intros (i & Hi). apply lookup_zip_with_Some in Hi as (m' & r' & [= <- <-] & Hm & Hri).
      split; [by eapply list_elem_of_lookup_2|].
      pose proof (lookup_lt_Some _ _ _ Hm) as Hin.
      assert (index_of members m = i) as ->.
      { apply (NoDup_lookup _ _ _ _ Hnd (index_of_lookup m (list_elem_of_lookup_2 _ _ _ Hm)) Hm). }
      eapply Hr; [|done]. by apply lookup_seq_lt.
    - intros [Hm Hmr]. exists (index_of members m). pose proof (index_of_lt m Hm) as Hlt.
      destruct (lookup_lt_is_Some_2 roots (index_of members m)) as [r' Hr']; [lia|].
      assert (r' = r) as ->.
      { eapply root_functional; [|done]. eapply Hr; [|done]. by apply lookup_seq_lt. }
      apply lookup_zip_with_Some. exists m, r. split_and!; [done|by apply index_of_lookup|done]. }
  assert (∀ c, c ∈ std_sort (component_of members roots <$> remove_dups roots) ↔
    ∃ r, r ∈ roots ∧ c = component_of members roots r) as Hcomp.
  { intros c. rewrite elem_of_std_sort, list_elem_of_fmap. setoid_rewrite elem_of_remove_dups. naive_solver. }
  assert (∀ m r, m ∈ component_of members roots r ↔
    m ∈ members ∧ root (parent_ (union_find members es)) (index_of members m) r) as Hin.
  { intros m r. unfold component_of. rewrite elem_of_std_sort, list_elem_of_fmap, <-Hzip.
    setoid_rewrite list_elem_of_filter. split; [intros ([] & ? & ? & ?); by simplify_eq/=|].
    intros Hmr. by exists (m, r). }
  assert (∀ m r, m ∈ members → root (parent_ (union_find members es)) (index_of members m) r → r ∈ roots) as Hroot_in.
  { intros m r Hm Hmr. assert ((m, r) ∈ zip members roots) as Hz by by apply Hzip.
    apply (list_elem_of_fmap_2 snd) in Hz. by rewrite snd_zip in Hz by lia. }
  assert (∀ a b, a ∈ members → b ∈ members →
     (∃ r, root (parent_ (union_find members es)) (index_of members a) r ∧
           root (parent_ (union_find members es)) (index_of members b) r) ↔ rtsc (linked es) a b) as Hsame.
  { intros a b Ha Hb. rewrite <-linked_closure by done. rewrite <-Hds by by apply index_of_lt. done. }
  split_and!.
  - transitivity (concat ((λ r, (filter (λ e, e.2 = r) (zip members roots)).*1) <$> remove_dups roots)).
    { rewrite (std_sort_perm (component_of members roots <$> remove_dups roots)).
      unfold component_of. clear Hcomp. induction (remove_dups roots) as [|r l IH]; simpl; [done|].
      apply Permutation_app; [apply std_sort_perm|exact IH]. }
    rewrite concat_groups; [by rewrite fst_zip by lia|apply NoDup_remove_dups|].
    intros [m r] Hmr. apply elem_of_remove_dups. apply Hzip in Hmr as [Hm Hmr]. by apply (Hroot_in m).
  - intros a b Ha Hb. rewrite <-Hsame by done. setoid_rewrite Hcomp. split.
    + intros (c & (r & Hrr & ->) & [_ Har]%Hin & [_ Hbr]%Hin). by exists r.
    + intros (r & Har & Hbr). exists (component_of members roots r). split; [exists r; eauto|].
      by rewrite !Hin.
  - rewrite length_std_sort, length_fmap.
    assert (∀ r, r ∈ roots → ∃ m, m ∈ members ∧ root (parent_ (union_find members es)) (index_of members m) r)
      as Hback.
    { intros r Hrin. rewrite <-(snd_zip members roots) in Hrin by lia.
      apply list_elem_of_fmap in Hrin as ([m r'] & -> & Hz). exists m. by apply Hzip. }
    split.
    + intros Hone. destruct (remove_dups roots) as [|r [|]] eqn:E; try done.
      assert (∀ r', r' ∈ roots → r' = r) as Hall.
      { intros r' Hr'. apply elem_of_remove_dups in Hr'. rewrite E in Hr'. set_solver. }
      split. { intros He. rewrite He in Hlen. destruct roots; [done|simpl in Hlen; lia]. }
      intros a b Ha Hb. apply Hsame; [done..|].
      destruct (ds_root_exists n _ _ Hwf (index_of_lt a Ha)) as (ra & Hra & _).
      destruct (ds_root_exists n _ _ Hwf (index_of_lt b Hb)) as (rb & Hrb & _).
      rewrite (Hall ra) in Hra by (by apply (Hroot_in a)).
      rewrite (Hall rb) in Hrb by (by apply (Hroot_in b)). by exists r.
    + intros [Hne Hall].
      assert (∀ r r', r ∈ roots → r' ∈ roots → r = r') as Huniq.
      { intros r r' (a & Ha & Har)%Hback (b & Hb & Hbr)%Hback.
        destruct (proj2 (Hsame a b Ha Hb) (Hall a b Ha Hb)) as (q & Hqa & Hqb).
        by rewrite (root_functional _ _ _ _ Har Hqa), (root_functional _ _ _ _ Hbr Hqb). }
      pose proof (NoDup_remove_dups roots) as Hndr.
      destruct (remove_dups roots) as [|r [|r' l]] eqn:E; [|done|].
      * exfalso. destruct roots as [|r rs]; [simpl in Hlen; by destruct members|].
        assert (r ∈ remove_dups (r :: rs)) as Hx by (apply elem_of_remove_dups; by left).
        rewrite E in Hx. by apply elem_of_nil in Hx.
      * exfalso. apply NoDup_cons in Hndr as [Hnin _]. apply Hnin.
        rewrite (Huniq r r'); [by left|..]; apply elem_of_remove_dups; rewrite E; set_solver.
Qed.
End components.

(** ** The observation log *)

(** [p] is a report by [a] about [b] that the assessment may use: made in the
    current epoch, about another active member, and fresh. *)
Definition usable_report (members : list MemberId) (epoch : Epoch) (now : Tick) (freshness : N)
    (observations : list MemberObservation) (a b : MemberId) (p : PeerObservation) : Prop :=
  ∃ o, o ∈ observations ∧ observer o = a ∧ obs_epoch o = epoch ∧ p ∈ peers o ∧ peer p = b ∧
    a ≠ b ∧ a ∈ members ∧ b ∈ members ∧
    (freshness ≠ 0 → value (recorded_at o) ≤ value now ∧
       value (observed_at p) ≤ value now ∧ value now - value (observed_at p) ≤ freshness).

Section log.
Context (members : list MemberId) (epoch : Epoch) (now : Tick) (freshness : N).
Local Notation usable := (usable_report members epoch now freshness).

Definition log_ok (observations : list MemberObservation) (log : ObservationLog) : Prop :=
  smap_sorted log.1 ∧ ∀ k p, (k, p) ∈ log.1 → usable observations k.1 k.2 p.

Lemma record_peer_ok observations o log p :
  o ∈ observations → observer o ∈ members → obs_epoch o = epoch →
  (freshness ≠ 0 → value (recorded_at o) ≤ value now) → p ∈ peers o →
  log_ok observations log → log_ok observations (record_peer members now freshness (observer o) log p).
Proof.
  intros Ho Hom Hep Hrec Hp [Hsorted Hlog]. destruct log as [latest stale]; simpl in *.
  unfold record_peer. destruct (is_nil (peer p)); [done|]. simpl.
  case_bool_decide as Hself; [done|]. case_bool_decide as Hmem; [|done]. simpl.
  destruct (negb (freshness =? 0) && _) eqn:Ef; [done|].
  assert (log_ok observations (smap_insert (observer o, peer p) p latest, stale)) as Hins.
  { split; simpl; [by apply smap_insert_sorted|]. intros k q Hq.
    apply elem_of_smap_insert in Hq as [Hq|Hq]; [|by apply Hlog]. injection Hq as -> ->. simpl.
    exists o. split_and!; try done. intros Hfr. specialize (Hrec Hfr). split; [done|].
    destruct (N.eqb_spec freshness 0); [done|]. cbn [negb andb] in Ef. lia. }
  destruct (smap_find (observer o, peer p) latest) as [existing|]; [|done].
  destruct (value (observed_at existing) <? value (observed_at p)); [exact Hins|by split].
Qed.

Lemma record_observation_ok observations o log :
  o ∈ observations → log_ok observations log →
  log_ok observations (record_observation members epoch now freshness log o).
Proof.
  intros Ho Hlog. unfold record_observation. destruct log as [latest stale].
  destruct (is_nil (observer o)); [done|]. simpl.
  case_bool_decide as Hm; [|done]. simpl. case_bool_decide as He; [|done]. simpl.
  destruct (negb (freshness =? 0) && _) eqn:Ef; [done|].
  assert (freshness ≠ 0 → value (recorded_at o) ≤ value now) as Hrec.
  { intros Hfr. destruct (N.eqb_spec freshness 0); [done|]. cbn [negb andb] in Ef. lia. }
  assert (∀ l, (∀ p, p ∈ l → p ∈ peers o) → ∀ log, log_ok observations log →
    log_ok observations (foldl (record_peer members now freshness (observer o)) log l)) as Hfold;
    [|by apply Hfold].
  intros l. induction l as [|p l IH]; intros Hl log Hlog'; simpl; [done|].
  apply IH; [intros; apply Hl; by right|]. apply record_peer_ok; try done. apply Hl. by left.
Qed.

Lemma observation_log_ok observations :
  log_ok observations (observation_log members epoch now freshness observations).
Proof.
  unfold observation_log.
  assert (∀ l, (∀ o, o ∈ l → o ∈ observations) → ∀ log, log_ok observations log →
    log_ok observations (foldl (record_observation members epoch now freshness) log l)) as Hfold.
  { intros l. induction l as [|o l IH]; intros Hl log Hlog; simpl; [done|].
    apply IH; [intros; apply Hl; by right|]. apply record_observation_ok; [apply Hl; by left|done]. }
  apply Hfold; [done|]. split; simpl; [constructor|]. by intros k p ?%elem_of_nil.
Qed.
End log.

(** ** The verdict *)

(** [a] and [b] confirm each other in the log, at the incarnations the
    federation believes are running. *)
Definition confirmed (members : list MemberId) (incarnations : list Incarnation)
    (latest : smap PairKey PeerObservation) (a b : MemberId) : Prop :=
  (index_of members a < index_of members b)%nat ∧ a ∈ members ∧ b ∈ members ∧
  ∃ f g, smap_find (a, b) latest = Some f ∧ smap_find (b, a) latest = Some g ∧
    peer_state f = ReachabilityState.Reachable ∧ peer_state g = ReachabilityState.Reachable ∧
    value (peer_incarnation f) ≠ 0 ∧
    peer_incarnation f = current_incarnation members incarnations b ∧
    peer_incarnation g = current_incarnation members incarnations a.

Section verdict.
Context (members : list MemberId) (Hnd : NoDup members) (incarnations : list Incarnation).
Context (epoch : Epoch) (now : Tick) (freshness : N) (observations : list MemberObservation).
Let latest := (observation_log members epoch now freshness observations).1.
Local Notation es := (edges members incarnations latest).

Lemma latest_ok : log_ok members epoch now freshness observations
  (observation_log members epoch now freshness observations).
Proof. apply observation_log_ok. Qed.

Lemma candidate_pair_Some obs pr p x :
  candidate_pair members incarnations ((obs, pr), p) = Some x ↔
  x = (index_of members obs, index_of members pr) ∧ peer_state p = ReachabilityState.Reachable ∧
  value (peer_incarnation p) ≠ 0 ∧ peer_incarnation p = current_incarnation members incarnations pr ∧
  (index_of members obs < index_of members pr)%nat.
Proof.
  unfold candidate_pair, reachable, is_zero.
  case_bool_decide as Hs; simpl; [|naive_solver].
  destruct (N.eqb_spec (value (peer_incarnation p)) 0); simpl; [naive_solver|].
  case_bool_decide as Hi; simpl; [|naive_solver].
  destruct (Nat.ltb_spec (index_of members obs) (index_of members pr)); split; naive_solver lia.
Qed.

Lemma edges_linked a b : linked members es a b ↔ confirmed members incarnations latest a b.
Proof.
  destruct latest_ok as [Hsorted Hlog]. fold latest in Hsorted, Hlog.
  unfold linked, edges. rewrite list_elem_of_filter, list_elem_of_omap. split.
  - intros ((Hc & [[[obs pr] p] [Hin Hp]]) & Ha & Hb).
    destruct (Hlog _ _ Hin) as (o & _ & _ & _ & _ & _ & _ & Hobs & Hpr & _). simpl in Hobs, Hpr.
    apply candidate_pair_Some in Hp as (Heq & Hst & Hnz & Hinc & Hlt). injection Heq as Hia Hib.
    assert (a = obs) as -> by (rewrite <-(member_at_index members a Ha), Hia; by apply member_at_index).
    assert (b = pr) as -> by (rewrite <-(member_at_index members b Hb), Hib; by apply member_at_index).
    unfold confirmed_pair in Hc. simpl in Hc. rewrite !member_at_index in Hc by done.
    rewrite (smap_elem_find _ _ _ Hsorted Hin) in Hc.
    destruct (smap_find (pr, obs) latest) as [g|] eqn:Eg; [|done].
    rewrite !andb_true_iff in Hc. destruct Hc as (((_ & Hg) & _) & Hgi).
    unfold reachable in Hg. apply bool_decide_eq_true in Hg, Hgi.
    unfold confirmed. split_and!; [done..|]. exists p, g. split_and!; try done. by apply smap_elem_find.
  - intros (Hlt & Ha & Hb & f & g & Hf & Hg & Hfs & Hgs & Hnz & Hfi & Hgi).
    split_and!; [| |done|done].
    + unfold confirmed_pair. simpl. rewrite !member_at_index, Hf, Hg by done.
      unfold reachable. by rewrite !bool_decide_eq_true_2.
    + exists ((a, b), f). split; [by apply smap_find_elem|].
      by apply candidate_pair_Some.
Qed.

Lemma edges_range : edges_in_range (length members) es.
Proof.
  apply Forall_forall. intros [i j] Hij. unfold edges in Hij.
  apply list_elem_of_filter in Hij as [_ Hij]. apply list_elem_of_omap in Hij as ([[obs pr] p] & Hin & Hp).
  destruct latest_ok as [_ Hlog]. fold latest in Hlog.
  destruct (Hlog _ _ Hin) as (o & _ & _ & _ & _ & _ & _ & Hobs & Hpr & _). simpl in Hobs, Hpr.
  apply candidate_pair_Some in Hp as (Heq & _). injection Heq as -> ->.
  simpl. split; by apply index_of_lt.
Qed.

Lemma confirmed_referenced a b :
  confirmed members incarnations latest a b ∨ confirmed members incarnations latest b a →
  referenced latest a = true.
Proof.
  intros Hc. unfold referenced. apply existsb_exists.
  destruct Hc as [(_ & _ & _ & f & g & Hf & _)|(_ & _ & _ & f & g & Hf & _)];
    apply smap_find_elem, list_elem_of_In in Hf; eexists; (split; [exact Hf|]); simpl.
  - by rewrite bool_decide_eq_true_2.
  - by rewrite (bool_decide_eq_true_2 (a = a)), orb_true_r.
Qed.
End verdict.

Lemma rtsc_iff {A} (R S : A → A → Prop) x y :
  (∀ a b, R a b ↔ S a b) → rtsc R x y ↔ rtsc S x y.
Proof.
  intros HRS. split; apply rtc_subrel; intros a b [Hab|Hab]; [left|right|left|right]; by apply HRS.
Qed.

(** A federation of two or more active members is assessed CONNECTED, and
    only then allows global mutation, iff every two of them are linked by a
    chain of mutual confirmations at the current incarnations; the components
    reported are a partition of the active members; and every confirmation
    comes from a fresh report of the current epoch by each side. *)
Theorem assessment_connected_iff (active : list MemberId) (incarnations : list Incarnation)
    (observations : list MemberObservation) (epoch : Epoch) (now : Tick) (freshness : N) :
  StronglySorted strictly_before active → length active = length incarnations →
  (2 ≤ length active)%nat →
  let assessment := assess_partition active incarnations observations epoch now freshness in
  let latest := (observation_log active epoch now freshness observations).1 in
  (allows_global_mutation assessment = true ↔
     ∀ a b, a ∈ active → b ∈ active → rtsc (confirmed active incarnations latest) a b) ∧
  concat (components assessment) ≡ₚ active ∧
  (∀ a b, confirmed active incarnations latest a b →
     ∃ f g, usable_report active epoch now freshness observations a b f ∧
            usable_report active epoch now freshness observations b a g ∧
            peer_incarnation f = current_incarnation active incarnations b ∧
            peer_incarnation g = current_incarnation active incarnations a).
Proof.
  intros Hsorted Hlen H2 assessment latest.
  assert (NoDup active) as Hnd by (rewrite <-(sort_unique_id active Hsorted); apply NoDup_sort_unique).
  destruct (group_components_spec active Hnd (edges active incarnations latest)
    (edges_range active incarnations epoch now freshness observations)) as (Hperm & _ & Hone).
  assert (components assessment = group_components active (edges active incarnations latest) ∧
    (allows_global_mutation assessment = true ↔
       filter (λ m, referenced latest m = false) active = [] ∧
       length (group_components active (edges active incarnations latest)) = 1%nat)) as [Hcomp Hstate].
  { subst assessment. unfold assess_partition. rewrite (sort_unique_id active Hsorted).
    rewrite (proj2 (Nat.eqb_eq _ _) Hlen).
    rewrite (proj2 (Nat.eqb_neq (length active) 0)), (proj2 (Nat.eqb_neq (length active) 1)) by lia.
    rewrite (surjective_pairing (observation_log active epoch now freshness observations)).
    cbn [negb fst snd]. fold latest. unfold allows_global_mutation.
    destruct (filter (λ m, referenced latest m = false) active) as [|m0 l0]; cbn [length].
    - change (0 <? 0)%nat with false. cbv iota.
      destruct (Nat.eqb_spec (length (group_components active (edges active incarnations latest))) 1);
        simpl; (split; [done|]); split; naive_solver.
    - change (0 <? S (length l0))%nat with true. simpl. split; [done|]. by split; [|intros [? _]]. }
  split_and!; [|by rewrite Hcomp|].
  - rewrite Hstate, Hone.
    assert (∀ a b, rtsc (linked active (edges active incarnations latest)) a b ↔
      rtsc (confirmed active incarnations latest) a b) as Hrel.
    { intros a b. apply rtsc_iff. intros x y. by apply edges_linked. }
    setoid_rewrite Hrel. split; [by intros (_ & _ & ?)|]. intros Hall.
    split_and!; [|intros He; rewrite He in H2; simpl in H2; lia|done].
    apply elem_of_nil_inv. intros a Ha. apply list_elem_of_filter in Ha as [Href Ha].
    assert (∃ b, b ∈ active ∧ a ≠ b) as (b & Hb & Hab).
    { destruct active as [|x [|y l]]; [simpl in H2; lia..|].
      apply NoDup_cons in Hnd as [Hx _]. destruct (decide (a = x)) as [->|]; [|exists x; set_solver].
      exists y. set_solver. }
    pose proof (Hall a b Ha Hb) as Hp. apply rtc_inv in Hp as [?|(c & Hac & _)]; [done|].
    assert (referenced latest a = true) as Hr
      by exact (confirmed_referenced active incarnations epoch now freshness observations a c Hac).
    by rewrite Hr in Href.
  - intros a b (_ & _ & _ & f & g & Hf & Hg & _ & _ & _ & Hfi & Hgi).
    destruct (observation_log_ok active epoch now freshness observations) as [_ Hlog].
    exists f, g. apply smap_find_elem in Hf, Hg. fold latest in Hlog.
    split_and!; [exact (Hlog _ _ Hf)|exact (Hlog _ _ Hg)|done|done].
Qed.
(** Two members of the examples, and one report between them. *)
Definition example_member (b : byte) : MemberId := mkId (replicate 15 x00 ++ [b]).
Definition example_report (a b : byte) (state : ReachabilityState.t) (tick : N) : MemberObservation :=
  mkObservation (example_member a) (mkCounter 1) (mkCounter 1) (mkCounter tick)
    [mkPeer (example_member b) (mkCounter 1) state (mkCounter tick) ""].

Lemma assessment_connected_iff_witness :
  let active := [example_member x01; example_member x02] in
  let obs := [example_report x02 x01 ReachabilityState.Reachable 3;
              example_report x01 x02 ReachabilityState.Reachable 4] in
  let a := assess_partition active [mkCounter 1; mkCounter 1] obs (mkCounter 1) (mkCounter 5) 10 in
  allows_global_mutation a = true ∧ concat (components a) ≡ₚ active.
Proof.
  intros active obs a. split; [by vm_compute|].
  apply (assessment_connected_iff active [mkCounter 1; mkCounter 1] obs (mkCounter 1) (mkCounter 5) 10);
    [|done|simpl; lia].
  repeat constructor.
Defined.

(** When one member reports twice about a peer at the same tick with
    different results, the verdict depends on which report comes first in the
    list: the same two reports in the other order turn CONNECTED into SPLIT. *)
Theorem assessment_depends_on_report_order :
  let active := [example_member x01; example_member x02] in
  let incarnations := [mkCounter 1; mkCounter 1] in
  let back := example_report x02 x01 ReachabilityState.Reachable 4 in
  let up := example_report x01 x02 ReachabilityState.Reachable 4 in
  let down := example_report x01 x02 ReachabilityState.Unreachable 4 in
  p_state (assess_partition active incarnations [back; up; down] (mkCounter 1) (mkCounter 5) 10)
    = PartitionState.Connected ∧
  p_state (assess_partition active incarnations [back; down; up] (mkCounter 1) (mkCounter 5) 10)
    = PartitionState.Split.
Proof. by vm_compute. Qed.
