(* ===== verification/Evidence.v ===== *)
(** * Evidence

    Models include/fabric_federation/evidence.hpp and src/evidence.cpp: the
    artefact kinds, the envelope with its provenance, the genesis record, the
    artefact body with its canonical form and codec, and the validation every
    artefact passes before it can influence the federation. *)

From S2P Require Import Prelude Errors Sha256 Text Codec Ids Names Scope Capability Policy Identity.
From S2P Require Import Explanation Partition.

Module ArtifactKind.
Inductive t :=
  | FederationGenesis | PolicyUpdate | MembershipProposal | MembershipAcceptance
  | MembershipEndorsement | MembershipAdmission | MembershipActivation
  | DelegationDeclaration | DelegationWithdrawal | MembershipLeave | MembershipFence
  | MembershipRetirement | MemberReattestation | LeaseIssued | LeaseRevoked
  | EpochAdvance | ReconciliationComplete | PartitionReport | TimeAdvance.

(** The underlying integer of the enumerator. *)
Definition value (x : t) : N :=
  match x with
  | FederationGenesis => 0
  | PolicyUpdate => 1
  | MembershipProposal => 2
  | MembershipAcceptance => 3
  | MembershipEndorsement => 4
  | MembershipAdmission => 5
  | MembershipActivation => 6
  | DelegationDeclaration => 7
  | DelegationWithdrawal => 8
  | MembershipLeave => 9
  | MembershipFence => 10
  | MembershipRetirement => 11
  | MemberReattestation => 12
  | LeaseIssued => 13
  | LeaseRevoked => 14
  | EpochAdvance => 15
  | ReconciliationComplete => 16
  | PartitionReport => 17
  | TimeAdvance => 18
  end.

(** The enumerators in the order of their values. *)
Definition all : list t :=
  [FederationGenesis; PolicyUpdate; MembershipProposal; MembershipAcceptance;
   MembershipEndorsement; MembershipAdmission; MembershipActivation;
   DelegationDeclaration; DelegationWithdrawal; MembershipLeave; MembershipFence;
   MembershipRetirement; MemberReattestation; LeaseIssued; LeaseRevoked;
   EpochAdvance; ReconciliationComplete; PartitionReport; TimeAdvance].

Definition to_string (x : t) : string :=
  match x with
  | FederationGenesis => "federation-genesis"
  | PolicyUpdate => "policy-update"
  | MembershipProposal => "membership-proposal"
  | MembershipAcceptance => "membership-acceptance"
  | MembershipEndorsement => "membership-endorsement"
  | MembershipAdmission => "membership-admission"
  | MembershipActivation => "membership-activation"
  | DelegationDeclaration => "delegation-declaration"
  | DelegationWithdrawal => "delegation-withdrawal"
  | MembershipLeave => "membership-leave"
  | MembershipFence => "membership-fence"
  | MembershipRetirement => "membership-retirement"
  | MemberReattestation => "member-reattestation"
  | LeaseIssued => "lease-issued"
  | LeaseRevoked => "lease-revoked"
  | EpochAdvance => "epoch-advance"
  | ReconciliationComplete => "reconciliation-complete"
  | PartitionReport => "partition-report"
  | TimeAdvance => "time-advance"
  end.

#[global] Instance enum : WireEnum t.
Proof. refine {| wire := value; enum_all := all |}. by intros []. Defined.
End ArtifactKind.

Definition parse_artifact_kind (text : string) : option ArtifactKind.t :=
  List.find (λ k, bool_decide (ArtifactKind.to_string k = text)) ArtifactKind.all.

Definition artifact_kind_requires_coordinator (k : ArtifactKind.t) : bool :=
  match k with
  | ArtifactKind.FederationGenesis | ArtifactKind.PolicyUpdate
  | ArtifactKind.MembershipAdmission | ArtifactKind.MembershipActivation
  | ArtifactKind.MembershipRetirement | ArtifactKind.LeaseIssued | ArtifactKind.LeaseRevoked
  | ArtifactKind.EpochAdvance | ArtifactKind.ReconciliationComplete
  | ArtifactKind.TimeAdvance => true
  | _ => false
  end.
Definition artifact_kind_is_coordinator_issued (k : ArtifactKind.t) : bool :=
  if bool_decide (k = ArtifactKind.MembershipFence) then true
  else artifact_kind_requires_coordinator k.

(** ** Envelopes *)

Record Provenance := mkProvenance {
  prov_node : NodeId;
  prov_member : MemberId;
  prov_generation : Generation;
  prov_incarnation : Incarnation;
  prov_constitution : Digest;
  prov_epoch : Epoch;
  prov_issued_at : Tick
}.
#[export] Instance Provenance_eq_dec : EqDecision Provenance.
Proof. solve_decision. Defined.

#[export] Instance Provenance_codec : Codec Provenance := {
  encode p :=
    encode (prov_node p) >+> encode (prov_member p) >+> encode (prov_generation p) >+>
    encode (prov_incarnation p) >+> encode (prov_constitution p) >+> encode (prov_epoch p) >+>
    encode (prov_issued_at p);
  decode :=
    n ← decode; m ← decode; g ← decode; i ← decode; c ← decode; e ← decode; t ← decode;
    mret (mkProvenance n m g i c e t);
  wire_ok p := wire_ok (prov_node p) ∧ wire_ok (prov_member p) ∧ wire_ok (prov_generation p) ∧
    wire_ok (prov_incarnation p) ∧ wire_ok (prov_constitution p) ∧ wire_ok (prov_epoch p) ∧
    wire_ok (prov_issued_at p)
}.
#[export] Instance Provenance_codec_laws : CodecLaws Provenance.
Proof.
  intros [n m g i c e t] bs rest (? & ? & ? & ? & ? & ? & ?) Hbs.
  cbn [encode decode wire_ok Provenance_codec prov_node prov_member prov_generation
    prov_incarnation prov_constitution prov_epoch prov_issued_at] in *.
  split_enc. by read_fields.
Qed.

Definition provenance_to_string (p : Provenance) : string :=
  "node=" +s+ id_to_string (prov_node p) +s+
  (if is_nil (prov_member p) then ""
   else " member=" +s+ id_to_string (prov_member p) +s+ " gen=" +s+
        to_dec (value (prov_generation p)) +s+ " inc=" +s+ to_dec (value (prov_incarnation p)) +s+
        " digest=" +s+ hex16 (prov_constitution p)) +s+
  " epoch=" +s+ to_dec (value (prov_epoch p)) +s+ " at=" +s+ to_dec (value (prov_issued_at p)).

Record ArtifactEnvelope := mkEnvelope {
  evidence : EvidenceId;
  art_kind : ArtifactKind.t;
  art_federation : FederationId;
  subject : MemberId;
  issuer : Provenance;
  body_digest : Digest
}.
#[export] Instance ArtifactEnvelope_eq_dec : EqDecision ArtifactEnvelope.
Proof. solve_decision. Defined.

#[export] Instance ArtifactEnvelope_codec : Codec ArtifactEnvelope := {
  encode e :=
    encode (evidence e) >+> Writer.u16 (wire (art_kind e)) >+> encode (art_federation e) >+>
    encode (subject e) >+> encode (issuer e) >+> encode (body_digest e);
  decode :=
    i ← decode;
    k ← Reader.u16;
    k ← dec_enum k ErrorCode.InvalidArgument "artefact kind is out of range";
    f ← decode; s ← decode; p ← decode; d ← decode;
    mret (mkEnvelope i k f s p d);
  wire_ok e := wire_ok (evidence e) ∧ wire_ok (art_federation e) ∧ wire_ok (subject e) ∧
    wire_ok (issuer e) ∧ wire_ok (body_digest e)
}.
#[export] Instance ArtifactEnvelope_codec_laws : CodecLaws ArtifactEnvelope.
Proof.
  intros [i k f s p d] bs rest (? & ? & ? & ? & ?) Hbs.
  cbn [encode decode wire_ok ArtifactEnvelope_codec evidence art_kind art_federation subject issuer
    body_digest] in *.
  split_enc. by read_fields.
Qed.

Definition envelope_to_string (e : ArtifactEnvelope) : string :=
  id_to_string (evidence e) +s+ " kind=" +s+ ArtifactKind.to_string (art_kind e) +s+
  " subject=" +s+ (if is_nil (subject e) then "(federation)" else id_to_string (subject e)) +s+
  " issuer{" +s+ provenance_to_string (issuer e) +s+ "} body=" +s+ hex16 (body_digest e).

(** ** Bodies *)

Record FederationGenesis := mkGenesis {
  gen_federation : FederationId;
  gen_coordinator : NodeId;
  founder : MemberDeclaration;
  founder_grants : list ScopeGrant;
  genesis_policy : FederationPolicy;
  genesis_description : string;
  created_at : Tick
}.
#[export] Instance FederationGenesis_eq_dec : EqDecision FederationGenesis.
Proof. solve_decision. Defined.

#[export] Instance FederationGenesis_codec : Codec FederationGenesis := {
  encode g :=
    encode (gen_federation g) >+> encode (gen_coordinator g) >+> encode (founder g) >+>
    encode_grants (founder_grants g) kMaxScopesPerMember >+> encode (genesis_policy g) >+>
    Writer.text (genesis_description g) kMaxTextLength >+> encode (created_at g);
  decode :=
    f ← decode; c ← decode; d ← decode;
    s ← decode_grants kMaxScopesPerMember;
    p ← decode;
    t ← Reader.text kMaxTextLength;
    at_ ← decode;
    mret (mkGenesis f c d s p t at_);
  wire_ok g := wire_ok (gen_federation g) ∧ wire_ok (gen_coordinator g) ∧ wire_ok (founder g) ∧
    Forall wire_ok (founder_grants g) ∧ wire_ok (genesis_policy g) ∧ wire_ok (created_at g)
}.
#[export] Instance FederationGenesis_codec_laws : CodecLaws FederationGenesis.
Proof.
  intros [f c d s p t a] bs rest (? & ? & ? & ? & ? & ?) Hbs.
  cbn [encode decode wire_ok FederationGenesis_codec gen_federation gen_coordinator founder
    founder_grants genesis_policy genesis_description created_at] in *.
  unfold encode_grants, decode_grants in *. split_enc. by read_fields.
Qed.

Definition genesis_to_string (g : FederationGenesis) : string :=
  "federation=" +s+ id_to_string (gen_federation g) +s+ " coordinator=" +s+
  id_to_string (gen_coordinator g) +s+ " founder=" +s+
  id_to_string (con_member (decl_constitution (founder g))) +s+ " bootstrap_grants=[" +s+
  render_grants (founder_grants g) +s+ "]".

(** The two reasons are what a cast to [ReasonCode] can hold, any 16-bit value: only
    the decoders check that it is an enumerator. *)
Record ArtifactBody := mkBody {
  declaration : MemberDeclaration;
  declared_identity : MemberIdentity;
  genesis : FederationGenesis;
  body_policy : FederationPolicy;
  body_epoch : Epoch;
  body_policy_generation : Generation;
  body_policy_digest : Digest;
  body_lineage : Lineage;
  parties : list MemberId;
  body_required_endorsements : N;
  body_required_distinct_parties : N;
  delegated_terms : list DelegationTerms;
  withdrawn_grants : list ScopeGrant;
  body_lease : LeaseId;
  lease_holder : MemberIdentity;
  lease_scopes : list ScopeGrant;
  lease_issued_epoch : Epoch;
  lease_not_after_epoch : Epoch;
  body_lease_not_after : Tick;
  lease_issuer_incarnation : Incarnation;
  observations : list PeerObservation;
  unreachable_members : list MemberId;
  body_outcome : Outcome.t;
  body_reason_code : N;
  fence_reason : N;
  reason_text : string;
  logical_time : Tick
}.
#[export] Instance ArtifactBody_eq_dec : EqDecision ArtifactBody.
Proof. solve_decision. Defined.

(** The default member initialisers. *)
Definition no_constitution : MemberConstitution :=
  mkConstitution nil_id nil_id zero 0 0 0 [] [] [] [] "".
Definition no_declaration : MemberDeclaration := mkDeclaration no_constitution zero nil_id zero.
Definition no_policy : FederationPolicy := mkPolicy (mkName "") zero [] "".
Definition no_genesis : FederationGenesis :=
  mkGenesis nil_id nil_id no_declaration [] no_policy "" zero.
Definition no_body : ArtifactBody :=
  mkBody no_declaration no_identity no_genesis no_policy zero zero Digest_zero zero [] 0 0 [] []
    nil_id no_identity [] zero zero zero zero [] [] Outcome.Unknown
    (wire ReasonCode.EvidenceUnknown) (wire ReasonCode.EvidenceUnknown) "" zero.

Definition canonicalize_declaration (d : MemberDeclaration) : MemberDeclaration :=
  mkDeclaration (constitution_canonicalize (decl_constitution d)) (decl_incarnation d)
    (decl_node d) (declared_at d).
(** [canonicalize_body] leaves the policy of the genesis record alone;
    [FederationPolicy::encode] canonicalizes it when it writes it. *)
Definition canonicalize_body (b : ArtifactBody) : ArtifactBody :=
  let g := genesis b in
  mkBody (canonicalize_declaration (declaration b)) (declared_identity b)
    (mkGenesis (gen_federation g) (gen_coordinator g) (canonicalize_declaration (founder g))
       (canonicalize_grants (founder_grants g)) (genesis_policy g) (genesis_description g)
       (created_at g))
    (canonicalize (body_policy b)) (body_epoch b) (body_policy_generation b)
    (body_policy_digest b) (body_lineage b) (sort_unique (parties b))
    (body_required_endorsements b) (body_required_distinct_parties b)
    (canonicalize_terms (delegated_terms b)) (canonicalize_grants (withdrawn_grants b))
    (body_lease b) (lease_holder b) (canonicalize_grants (lease_scopes b)) (lease_issued_epoch b)
    (lease_not_after_epoch b) (body_lease_not_after b) (lease_issuer_incarnation b)
    (sort_unique (observations b)) (sort_unique (unreachable_members b)) (body_outcome b)
    (body_reason_code b) (fence_reason b) (reason_text b) (logical_time b).

(** [static_cast<std::uint32_t>]. *)
Definition cast_u32 (n : N) : N := n mod 2 ^ 32.

(** The fields of a canonical body, in the order they are written. *)
Definition encode_body_fields (b : ArtifactBody) : Enc :=
  encode (declaration b) >+> encode (declared_identity b) >+> encode (genesis b) >+>
  encode (body_policy b) >+> encode (body_epoch b) >+> encode (body_policy_generation b) >+>
  encode (body_policy_digest b) >+> encode (body_lineage b) >+>
  enc_list kMaxMembers encode (parties b) >+>
  Writer.u32 (cast_u32 (body_required_endorsements b)) >+>
  Writer.u32 (cast_u32 (body_required_distinct_parties b)) >+>
  encode_terms (delegated_terms b) kMaxDelegationTermsPerMember >+>
  encode_grants (withdrawn_grants b) kMaxScopesPerMember >+>
  encode (body_lease b) >+> encode (lease_holder b) >+>
  encode_grants (lease_scopes b) kMaxScopesPerLease >+>
  encode (lease_issued_epoch b) >+> encode (lease_not_after_epoch b) >+>
  encode (body_lease_not_after b) >+> encode (lease_issuer_incarnation b) >+>
  enc_list kMaxMembersPerObservation encode (observations b) >+>
  enc_list kMaxMembers encode (unreachable_members b) >+>
  Writer.u8 (wire (body_outcome b)) >+> Writer.u16 (body_reason_code b) >+>
  Writer.u16 (fence_reason b) >+> Writer.text (reason_text b) kMaxTextLength >+>
  encode (logical_time b).

Definition decode_body : Dec ArtifactBody :=
  d ← decode; i ← decode; g ← decode; p ← decode; e ← decode; pg ← decode; pd ← decode;
  l ← decode;
  pa ← dec_list kMaxMembers decode;
  re ← Reader.u32; rp ← Reader.u32;
  te ← decode_terms kMaxDelegationTermsPerMember;
  w ← decode_grants kMaxScopesPerMember;
  le ← decode; lh ← decode;
  ls ← decode_grants kMaxScopesPerLease;
  e1 ← decode; e2 ← decode; t1 ← decode; li ← decode;
  ob ← dec_list kMaxMembersPerObservation decode;
  um ← dec_list kMaxMembers decode;
  o ← Reader.u8;
  o ← dec_enum o ErrorCode.InvalidArgument "artefact outcome is out of range";
  r ← Reader.u16;
  r ← dec_enum (A:=ReasonCode.t) r ErrorCode.InvalidArgument "artefact reason code is out of range";
  fr ← Reader.u16;
  fr ← dec_enum (A:=ReasonCode.t) fr ErrorCode.InvalidArgument "artefact fence reason is out of range";
  rt ← Reader.text kMaxTextLength;
  lt ← decode;
  mret (canonicalize_body
    (mkBody d i g p e pg pd l pa re rp te w le lh ls e1 e2 t1 li ob um o (wire r)
       (wire fr) rt lt)).

(** The 16-bit values that are enumerators. *)
Definition listed (n : N) : Prop := ∃ r : ReasonCode.t, n = wire r.
Lemma listed_enum n (r : ReasonCode.t) : enum_of n = Some r → n = wire r.
Proof.
  intros Hr. unfold enum_of in Hr.
  assert (N.of_nat <$> seq 0 (length (enum_all (A:=ReasonCode.t))) = wire <$> enum_all (A:=ReasonCode.t)) as Hall
    by (vm_compute; reflexivity).
  apply (f_equal (.!! N.to_nat n)) in Hall. rewrite !list_lookup_fmap, Hr in Hall.
  rewrite lookup_seq_lt in Hall by (by eapply lookup_lt_Some). injection Hall as Hall.
  change (n = ReasonCode.value r). rewrite <-Hall. lia.
Qed.
#[global] Instance listed_dec n : Decision (listed n).
Proof.
  refine (cast_if (decide (is_Some (enum_of (A:=ReasonCode.t) n)))).
  - destruct i as [r Hr]. exists r. by apply listed_enum.
  - intros [r ->]. apply n0. rewrite enum_of_wire. by eexists.
Defined.
(** The widths of the fields; [wire_ok] asks for enumerators among the reasons and
    for a canonical body as well. *)
Definition body_widths_ok (b : ArtifactBody) : Prop :=
  wire_ok (declaration b) ∧ wire_ok (declared_identity b) ∧ wire_ok (genesis b) ∧
  wire_ok (body_policy b) ∧ wire_ok (body_epoch b) ∧ wire_ok (body_policy_generation b) ∧
  wire_ok (body_policy_digest b) ∧ wire_ok (body_lineage b) ∧ Forall wire_ok (parties b) ∧
  body_required_endorsements b ≤ u32_max ∧ body_required_distinct_parties b ≤ u32_max ∧
  Forall wire_ok (delegated_terms b) ∧ Forall wire_ok (withdrawn_grants b) ∧
  wire_ok (body_lease b) ∧ wire_ok (lease_holder b) ∧ Forall wire_ok (lease_scopes b) ∧
  wire_ok (lease_issued_epoch b) ∧ wire_ok (lease_not_after_epoch b) ∧
  wire_ok (body_lease_not_after b) ∧ wire_ok (lease_issuer_incarnation b) ∧
  Forall wire_ok (observations b) ∧ Forall wire_ok (unreachable_members b) ∧
  body_reason_code b ≤ u16_max ∧ wire_ok (logical_time b).
Definition body_fields_ok (b : ArtifactBody) : Prop :=
  body_widths_ok b ∧ listed (body_reason_code b) ∧ listed (fence_reason b).

#[export] Instance ArtifactBody_codec : Codec ArtifactBody := {
  encode b := encode_body_fields (canonicalize_body b);
  decode := decode_body;
  wire_ok b := body_fields_ok b ∧ canonicalize_body b = b
}.

Lemma cast_u32_small n : n ≤ u32_max → cast_u32 n = n.
Proof. intros Hn. apply N.mod_small. unfold u32_max in Hn. by apply N.lt_succ_r in Hn. Qed.

#[export] Instance ArtifactBody_codec_laws : CodecLaws ArtifactBody.
Proof.
  intros b bs rest [Hok Hcanon] Hbs. cbn [encode decode wire_ok ArtifactBody_codec] in *.
  rewrite Hcanon in Hbs.
  destruct b as [d i g p e pg pd l pa re rp te w le lh ls e1 e2 t1 li ob um o r fr rt lt].
  destruct Hok as [(?&?&?&?&?&?&?&?&?&?&?&?&?&?&?&?&?&?&?&?&?&?&?&?) [[r0 Hr0] [fr0 Hfr0]]].
  unfold encode_body_fields in Hbs. unfold decode_body.
  cbn [declaration declared_identity genesis body_policy body_epoch body_policy_generation
    body_policy_digest body_lineage parties body_required_endorsements
    body_required_distinct_parties delegated_terms withdrawn_grants body_lease lease_holder
    lease_scopes lease_issued_epoch lease_not_after_epoch body_lease_not_after
    lease_issuer_incarnation observations unreachable_members body_outcome body_reason_code
    fence_reason reason_text logical_time] in *.
  subst. rewrite !cast_u32_small in Hbs by done.
  unfold encode_grants, decode_grants, encode_terms, decode_terms in *.
  split_enc. read_fields. unfold mret, Dec_ret. by rewrite Hcanon.
Qed.

(** A body whose reason is no enumerator is written and never read back. *)
Lemma read_unlisted b bs rest :
  body_widths_ok b → canonicalize_body b = b → ¬ listed (body_reason_code b) → encode b = Ok bs →
  ∃ s, decode (A:=ArtifactBody) (bs ++ rest) = Err s.
Proof.
  intros Hok Hcanon Hr Hbs. cbn [encode decode ArtifactBody_codec] in *. rewrite Hcanon in Hbs.
  destruct b as [d i g p e pg pd l pa re rp te w le lh ls e1 e2 t1 li ob um o r fr rt lt].
  destruct Hok as (?&?&?&?&?&?&?&?&?&?&?&?&?&?&?&?&?&?&?&?&?&?&?&?).
  unfold encode_body_fields in Hbs. unfold decode_body.
  cbn [declaration declared_identity genesis body_policy body_epoch body_policy_generation
    body_policy_digest body_lineage parties body_required_endorsements
    body_required_distinct_parties delegated_terms withdrawn_grants body_lease lease_holder
    lease_scopes lease_issued_epoch lease_not_after_epoch body_lease_not_after
    lease_issuer_incarnation observations unreachable_members body_outcome body_reason_code
    fence_reason reason_text logical_time] in *.
  rewrite !cast_u32_small in Hbs by done.
  unfold encode_grants, decode_grants, encode_terms, decode_terms in *.
  split_enc. read_fields.
  rewrite dec_enum_bad; [by eexists|]. destruct (enum_of (A:=ReasonCode.t) r) as [rc|] eqn:Hrc; [|done].
  destruct Hr. exists rc. by apply listed_enum.
Qed.

Definition artifact_body_digest (b : ArtifactBody) : Digest := digest_of (encode b).
Definition body_to_string (b : ArtifactBody) : string :=
  "declaration{" +s+ declaration_to_string (declaration b) +s+ "}".

(** ** Artefacts *)

Record Artifact := mkArtifact { envelope : ArtifactEnvelope; body : ArtifactBody }.
#[export] Instance Artifact_eq_dec : EqDecision Artifact.
Proof. solve_decision. Defined.

#[export] Instance Artifact_codec : Codec Artifact := {
  encode a := encode (envelope a) >+> encode (body a);
  decode := e ← decode; b ← decode; mret (mkArtifact e b);
  wire_ok a := wire_ok (envelope a) ∧ wire_ok (body a)
}.
#[export] Instance Artifact_codec_laws : CodecLaws Artifact.
Proof.
  intros [e b] bs rest (? & ?) Hbs. cbn [encode decode wire_ok Artifact_codec envelope body] in *.
  split_enc. by read_fields.
Qed.

Definition artifact_digest (a : Artifact) : Digest := digest_of (encode a).

Definition artifact_to_string (a : Artifact) : string :=
  envelope_to_string (envelope a) +s+ " digest=" +s+ hex16 (artifact_digest a) +s+
  (if decide (reason_text (body a) = "") then ""
   else " reason=" +s+ String (ascii_of_nat 34) (reason_text (body a)) +s+
        String (ascii_of_nat 34) EmptyString).

Definition with_body_digest (e : ArtifactEnvelope) (d : Digest) : ArtifactEnvelope :=
  mkEnvelope (evidence e) (art_kind e) (art_federation e) (subject e) (issuer e) d.
Definition Artifact_make (e : ArtifactEnvelope) (b : ArtifactBody) : Artifact :=
  let b := canonicalize_body b in
  mkArtifact (with_body_digest e (artifact_body_digest b)) b.

Definition verify_digest (a : Artifact) : Result unit :=
  let computed := artifact_body_digest (body a) in
  fail_if (Digest_is_zero computed) ErrorCode.Internal "artefact body could not be encoded";;
  fail_if (negb (bool_decide (computed = body_digest (envelope a)))) ErrorCode.ChecksumMismatch
          "artefact body digest does not match the envelope".

Definition expect_empty_ids (members : list MemberId) (what : string) : Result unit :=
  fail_if (negb (bool_decide (members = []))) ErrorCode.InvalidArgument
          (what +s+ " must not carry member identifiers").

(** [a != b]. *)
Notation differ a b := (negb (bool_decide (a = b))).

(** The [switch] over the artefact's kind. *)
Definition validate_kind (catalog : ScopeCatalog) (a : Artifact) : Result unit :=
  let e := envelope a in
  let b := body a in
  match art_kind e with
  | ArtifactKind.FederationGenesis =>
      fail_if (differ (gen_federation (genesis b)) (art_federation e)) ErrorCode.InvalidArgument
              "genesis record names a different federation";;
      fail_if (differ (con_member (decl_constitution (founder (genesis b)))) (subject e))
              ErrorCode.InvalidArgument "genesis founder does not match the artefact subject";;
      validate_constitution (decl_constitution (founder (genesis b))) catalog;;
      validate_policy (genesis_policy (genesis b));;
      check_each (λ g, fail_if (negb (classify catalog (scope g)).2) ErrorCode.InvalidArgument
                               "bootstrap grant names an unknown scope")
                 (founder_grants (genesis b))
  | ArtifactKind.PolicyUpdate =>
      validate_policy (body_policy b);;
      fail_if (differ (policy_generation (body_policy b)) (body_policy_generation b))
              ErrorCode.InvalidArgument "policy update generation does not match its body"
  | ArtifactKind.MembershipProposal =>
      validate_constitution (decl_constitution (declaration b)) catalog;;
      fail_if (differ (con_member (decl_constitution (declaration b))) (subject e))
              ErrorCode.InvalidArgument "proposal subject does not match the declared constitution"
  | ArtifactKind.MembershipAcceptance
  | ArtifactKind.MembershipEndorsement
  | ArtifactKind.MemberReattestation =>
      validate_constitution (decl_constitution (declaration b)) catalog;;
      fail_if (differ (con_member (decl_constitution (declaration b))) (subject e))
              ErrorCode.InvalidArgument
              "declaration subject does not match the declared constitution";;
      let derived := declaration_identity (declaration b) in
      fail_if (differ (idn_incarnation derived) (idn_incarnation (declared_identity b)) ||
               differ (idn_constitution derived) (idn_constitution (declared_identity b)))
              ErrorCode.InvalidArgument
              "declared identity does not match the accompanying declaration"
  | ArtifactKind.MembershipAdmission =>
      fail_if (differ (idn_member (declared_identity b)) (subject e)) ErrorCode.InvalidArgument
              "admission identity does not match the artefact subject";;
      fail_if ((size (parties b) <? 2) && negb (size (parties b) =? 1)) ErrorCode.InvalidArgument
              "admission record must name the parties it relies on"
  | ArtifactKind.MembershipActivation =>
      fail_if (differ (idn_member (declared_identity b)) (subject e)) ErrorCode.InvalidArgument
              "activation identity does not match the artefact subject"
  | ArtifactKind.DelegationDeclaration =>
      validate_constitution (decl_constitution (declaration b)) catalog;;
      fail_if (differ (idn_member (declared_identity b)) (subject e)) ErrorCode.InvalidArgument
              "delegation declaration identity does not match the subject"
  | ArtifactKind.DelegationWithdrawal =>
      fail_if (bool_decide (withdrawn_grants b = [])) ErrorCode.InvalidArgument
              "a delegation withdrawal must name the grants it withdraws"
  | ArtifactKind.MembershipLeave
  | ArtifactKind.MembershipFence
  | ArtifactKind.MembershipRetirement =>
      fail_if (is_nil (subject e)) ErrorCode.InvalidArgument "lifecycle record has no subject"
  | ArtifactKind.LeaseIssued =>
      fail_if (is_nil (body_lease b)) ErrorCode.InvalidArgument
              "lease record has no lease identifier";;
      fail_if (differ (idn_member (lease_holder b)) (subject e)) ErrorCode.InvalidArgument
              "lease holder does not match the artefact subject";;
      fail_if (bool_decide (lease_scopes b = [])) ErrorCode.InvalidArgument
              "lease grants no scopes"
  | ArtifactKind.LeaseRevoked =>
      fail_if (is_nil (body_lease b)) ErrorCode.InvalidArgument
              "lease revocation has no lease identifier"
  | ArtifactKind.EpochAdvance =>
      fail_if (is_zero (body_epoch b)) ErrorCode.InvalidArgument
              "epoch advance must name the new epoch"
  | ArtifactKind.ReconciliationComplete =>
      fail_if (is_zero (body_epoch b)) ErrorCode.InvalidArgument
              "reconciliation record must name the epoch it closes";;
      expect_empty_ids (parties b) "reconciliation record"
  | ArtifactKind.PartitionReport =>
      check_each (λ o, fail_if (is_nil (peer o)) ErrorCode.InvalidArgument
                               "partition report contains a peer with no identity")
                 (observations b)
  | ArtifactKind.TimeAdvance =>
      fail_if (is_zero (logical_time b)) ErrorCode.InvalidArgument
              "time advance must name the new tick"
  end.

Definition artifact_validate (catalog : ScopeCatalog) (a : Artifact) : Result unit :=
  let e := envelope a in
  verify_digest a;;
  fail_if (is_nil (evidence e)) ErrorCode.InvalidArgument "artefact has no evidence identifier";;
  fail_if (is_nil (art_federation e)) ErrorCode.InvalidArgument
          "artefact has no federation identity";;
  fail_if (is_nil (prov_node (issuer e)) && is_nil (prov_member (issuer e)))
          ErrorCode.InvalidArgument "artefact has no issuer";;
  fail_if (is_nil (prov_member (issuer e)) &&
           negb (artifact_kind_is_coordinator_issued (art_kind e)))
          ErrorCode.InvalidArgument
          ("artefact kind " +s+ ArtifactKind.to_string (art_kind e) +s+
           " must be issued by a member");;
  validate_kind catalog a.

(** ** Canonical bodies *)

Lemma constitution_canonicalize_idemp c :
  constitution_canonicalize (constitution_canonicalize c) = constitution_canonicalize c.
Proof.
  unfold constitution_canonicalize, canonicalize_statements, canonicalize_requirements,
    canonicalize_grants, canonicalize_terms. simpl. by rewrite !sort_unique_idemp.
Qed.
Lemma canonicalize_declaration_idemp d :
  canonicalize_declaration (canonicalize_declaration d) = canonicalize_declaration d.
Proof. unfold canonicalize_declaration. simpl. by rewrite constitution_canonicalize_idemp. Qed.

Lemma canonicalize_body_idemp b :
  NoDup (rule_id <$> rules (body_policy b)) →
  canonicalize_body (canonicalize_body b) = canonicalize_body b.
Proof.
  intros Hnd. unfold canonicalize_body, canonicalize_grants, canonicalize_terms. simpl.
  by rewrite !canonicalize_declaration_idemp, !sort_unique_idemp, canonicalize_idemp.
Qed.

Lemma verify_digest_Ok a :
  verify_digest a = Ok tt ↔
  Digest_is_zero (body_digest (envelope a)) = false ∧
  artifact_body_digest (body a) = body_digest (envelope a).
Proof.
  unfold verify_digest. split.
  - intros ([] & Hz%fail_if_Ok & Hd%fail_if_Ok)%bind_Ok.
    apply negb_false_iff, bool_decide_eq_true in Hd as <-. done.
  - intros [Hz Hd]. cbv zeta. rewrite Hd, Hz. simpl. by rewrite bool_decide_eq_true_2.
Qed.

(** A digest that is not the default one was computed from an encoding. *)
Lemma digest_of_inv e d : digest_of e = d → Digest_is_zero d = false → ∃ bs, e = Ok bs ∧ hash bs = d.
Proof.
  intros Hd Hz. destruct e as [bs|s]; simpl in Hd.
  - exists bs. split; [reflexivity|exact Hd].
  - subst d. exfalso. vm_compute in Hz. discriminate Hz.
Qed.

Lemma encode_injective {A} `{CodecLaws A} (a b : A) bs :
  wire_ok a → wire_ok b → encode a = Ok bs → encode b = Ok bs → a = b.
Proof.
  intros Ha Hb Hea Heb. pose proof (decode_exact_encode a bs Ha Hea).
  pose proof (decode_exact_encode b bs Hb Heb). congruence.
Qed.


Lemma no_body_canonical : canonicalize_body no_body = no_body.
Proof. by vm_compute. Qed.
Lemma no_body_ok : body_fields_ok no_body.
Proof.
  unfold body_fields_ok, body_widths_ok. split_and!; cbn -[u64_max u32_max N.le]; repeat match goal with |- _ ∧ _ => split end; first [done | reflexivity | left; reflexivity | by exists ReasonCode.EvidenceUnknown | constructor].
Qed.

(** ** Theorems *)

(** An artefact put together with [Artifact::make] is self-consistent, and
    what a peer decodes from its bytes is the same artefact, with nothing left
    over; it passes digest verification there exactly when it does here. *)
Theorem artifact_make_roundtrip (e : ArtifactEnvelope) (b : ArtifactBody) (bs : list byte) :
  wire_ok e → body_fields_ok (canonicalize_body b) → NoDup (rule_id <$> rules (body_policy b)) →
  encode (Artifact_make e b) = Ok bs →
  decode_exact bs = Ok (Artifact_make e b) ∧
  (Digest_is_zero (artifact_body_digest (canonicalize_body b)) = false →
   verify_digest (Artifact_make e b) = Ok tt).
Proof.
  intros He Hb Hnd Hbs. split.
  - apply decode_exact_encode; [|done]. split; [|split; [done|by apply canonicalize_body_idemp]].
    destruct He as (? & ? & ? & ? & ?). split_and!; [done..|]. apply length_digest_of.
  - intros Hz. apply verify_digest_Ok. by split.
Qed.
Lemma artifact_make_roundtrip_witness :
  let e := mkEnvelope nil_id ArtifactKind.MembershipLeave nil_id nil_id
             (mkProvenance nil_id nil_id zero zero Digest_zero zero zero) Digest_zero in
  ∃ bs, decode_exact bs = Ok (Artifact_make e no_body) ∧
        (Digest_is_zero (artifact_body_digest (canonicalize_body no_body)) = false →
         verify_digest (Artifact_make e no_body) = Ok tt).
Proof.
  intros e.
  assert (∃ bs, encode (Artifact_make e no_body) = Ok bs) as (bs & Hbs).
  { destruct (encode (Artifact_make e no_body)) as [bs|] eqn:E; [by exists bs|].
    assert (has_value (encode (Artifact_make e no_body)) = true) as Hv by by vm_compute.
    by rewrite E in Hv. }
  exists bs. apply (artifact_make_roundtrip e no_body bs); [| | |exact Hbs].
  - split_and!; done.
  - rewrite no_body_canonical. apply no_body_ok.
  - constructor.
Defined.

(** The digest binds the body: two bodies that both pass verification
    under one envelope are the same body, unless they exhibit a collision of
    the hash function; so a tampered or truncated body is rejected. *)
Theorem verified_body_is_bound (e : ArtifactEnvelope) (b b' : ArtifactBody) :
  wire_ok b → wire_ok b' →
  verify_digest (mkArtifact e b) = Ok tt → verify_digest (mkArtifact e b') = Ok tt →
  b = b' ∨ ∃ m m', m ≠ m' ∧ hash m = hash m'.
Proof.
  intros Hb Hb' [Hz Hd]%verify_digest_Ok [_ Hd']%verify_digest_Ok. simpl in *.
  apply digest_of_inv in Hd as (m & Hm & Hh); [|done].
  apply digest_of_inv in Hd' as (m' & Hm' & Hh'); [|done].
  destruct (decide (m = m')) as [<-|Hne].
  - left. by eapply encode_injective.
  - right. exists m, m'. split; [done|]. by rewrite Hh, Hh'.
Qed.
Lemma no_body_verified e :
  verify_digest (mkArtifact (envelope (Artifact_make e no_body)) no_body) = Ok tt.
Proof.
  apply verify_digest_Ok. cbn [envelope body]. unfold Artifact_make. rewrite no_body_canonical.
  split; [vm_compute; reflexivity|reflexivity].
Qed.
Lemma verified_body_is_bound_witness :
  let a := Artifact_make (mkEnvelope nil_id ArtifactKind.MembershipLeave nil_id nil_id
             (mkProvenance nil_id nil_id zero zero Digest_zero zero zero) Digest_zero) no_body in
  no_body = no_body ∨ ∃ m m', m ≠ m' ∧ hash m = hash m'.
Proof.
  intros a.
  assert (wire_ok no_body) as Hok by exact (conj no_body_ok no_body_canonical).
  apply (verified_body_is_bound (envelope a) no_body no_body Hok Hok);
    apply no_body_verified.
Defined.

(** What each kind of artefact must carry. *)
Definition kind_contract (catalog : ScopeCatalog) (a : Artifact) : Prop :=
  let e := envelope a in
  let b := body a in
  let declares := con_member (decl_constitution (declaration b)) = subject e in
  let valid_declaration :=
    validate_constitution (decl_constitution (declaration b)) catalog = Ok tt in
  match art_kind e with
  | ArtifactKind.FederationGenesis =>
      gen_federation (genesis b) = art_federation e ∧
      con_member (decl_constitution (founder (genesis b))) = subject e ∧
      validate_constitution (decl_constitution (founder (genesis b))) catalog = Ok tt ∧
      validate_policy (genesis_policy (genesis b)) = Ok tt ∧
      ∀ g, g ∈ founder_grants (genesis b) → (classify catalog (scope g)).2 = true
  | ArtifactKind.PolicyUpdate =>
      validate_policy (body_policy b) = Ok tt ∧
      policy_generation (body_policy b) = body_policy_generation b
  | ArtifactKind.MembershipProposal => valid_declaration ∧ declares
  | ArtifactKind.MembershipAcceptance | ArtifactKind.MembershipEndorsement
  | ArtifactKind.MemberReattestation =>
      valid_declaration ∧ declares ∧
      decl_incarnation (declaration b) = idn_incarnation (declared_identity b) ∧
      constitution_digest (decl_constitution (declaration b)) =
        idn_constitution (declared_identity b)
  | ArtifactKind.MembershipAdmission =>
      idn_member (declared_identity b) = subject e ∧ parties b ≠ []
  | ArtifactKind.MembershipActivation => idn_member (declared_identity b) = subject e
  | ArtifactKind.DelegationDeclaration =>
      valid_declaration ∧ idn_member (declared_identity b) = subject e
  | ArtifactKind.DelegationWithdrawal => withdrawn_grants b ≠ []
  | ArtifactKind.MembershipLeave | ArtifactKind.MembershipFence
  | ArtifactKind.MembershipRetirement => is_nil (subject e) = false
  | ArtifactKind.LeaseIssued =>
      is_nil (body_lease b) = false ∧ idn_member (lease_holder b) = subject e ∧ lease_scopes b ≠ []
  | ArtifactKind.LeaseRevoked => is_nil (body_lease b) = false
  | ArtifactKind.EpochAdvance => is_zero (body_epoch b) = false
  | ArtifactKind.ReconciliationComplete => is_zero (body_epoch b) = false ∧ parties b = []
  | ArtifactKind.PartitionReport => ∀ o, o ∈ observations b → is_nil (peer o) = false
  | ArtifactKind.TimeAdvance => is_zero (logical_time b) = false
  end.

Lemma differ_false {A} (a b : A) `{!Decision (a = b)} : differ a b = false ↔ a = b.
Proof. by rewrite negb_false_iff, bool_decide_eq_true. Qed.
Lemma fail_each_Ok {A} (f : A → bool) c m l :
  check_each (λ x, fail_if (f x) c m) l = Ok tt ↔ ∀ x, x ∈ l → f x = false.
Proof. rewrite check_each_In. by setoid_rewrite fail_if_Ok. Qed.
Lemma no_parties_false (l : list MemberId) :
  (size l <? 2) && negb (size l =? 1) = false ↔ l ≠ [].
Proof.
  unfold size. destruct l as [|x [|y l]]; [done..|]. cbn [length].
  destruct (N.ltb_spec (N.of_nat (S (S (length l)))) 2); [lia|done].
Qed.

Lemma validate_kind_exact catalog a : validate_kind catalog a = Ok tt ↔ kind_contract catalog a.
Proof.
  unfold validate_kind, kind_contract, expect_empty_ids.
  destruct (art_kind (envelope a)); cbv zeta;
    rewrite ?seq_Ok, ?fail_each_Ok, ?fail_if_Ok, ?orb_false_iff, ?differ_false, ?no_parties_false,
      ?bool_decide_eq_false; try tauto.
  by setoid_rewrite negb_false_iff.
Qed.

(** The exact contract of [Artifact::validate]: the body is the one the
    envelope was issued for, the artefact is identified and issued by someone,
    only a coordinator's own kinds come without a member, and the body carries
    what its kind requires. *)
Theorem artifact_validate_exact (catalog : ScopeCatalog) (a : Artifact) :
  let e := envelope a in
  artifact_validate catalog a = Ok tt ↔
  (Digest_is_zero (body_digest e) = false ∧ artifact_body_digest (body a) = body_digest e) ∧
  is_nil (evidence e) = false ∧ is_nil (art_federation e) = false ∧
  (is_nil (prov_node (issuer e)) = false ∨ is_nil (prov_member (issuer e)) = false) ∧
  (is_nil (prov_member (issuer e)) = true →
     artifact_kind_requires_coordinator (art_kind e) = true ∨
     art_kind e = ArtifactKind.MembershipFence) ∧
  kind_contract catalog a.
Proof.
  intros e. unfold artifact_validate, artifact_kind_is_coordinator_issued. cbv zeta. fold e.
  rewrite !seq_Ok, !fail_if_Ok, validate_kind_exact, verify_digest_Ok, !andb_false_iff,
    negb_false_iff. fold e.
  assert ((if bool_decide (art_kind e = ArtifactKind.MembershipFence) then true
           else artifact_kind_requires_coordinator (art_kind e)) = true ↔
          artifact_kind_requires_coordinator (art_kind e) = true ∨
          art_kind e = ArtifactKind.MembershipFence) as Hk by (case_bool_decide; tauto).
  rewrite Hk. destruct (is_nil (prov_member (issuer e))); intuition done.
Qed.

(** The names of the kinds are read back to the same kind, and a kind a
    coordinator may issue is one only it may issue, except for the fence,
    which members issue for themselves. *)
Theorem artifact_kinds (k : ArtifactKind.t) (text : string) :
  (parse_artifact_kind text = Some k ↔ text = ArtifactKind.to_string k) ∧
  (artifact_kind_is_coordinator_issued k = true ↔
     artifact_kind_requires_coordinator k = true ∨ k = ArtifactKind.MembershipFence) ∧
  artifact_kind_requires_coordinator ArtifactKind.MembershipFence = false.
Proof.
  split_and!; [|by destruct k; vm_compute; intuition|done].
  split.
  - unfold parse_artifact_kind. intros Hf%find_some. destruct Hf as [_ Ht].
    by apply bool_decide_eq_true in Ht.
  - intros ->. by destruct k.
Qed.
