(* ===== verification/Membership.v ===== *)
(** * Membership

    Models include/fabric_federation/membership.hpp and src/membership.cpp: the
    multi-party evaluation of an admission and the derivation of one member's
    lifecycle from the artefacts about it.  [derive_membership] is one long
    function of nine numbered sections; each section is a definition here, a
    function of what the earlier sections computed, and the reasons a section
    records are its own list, concatenated in the order they are pushed. *)

From S2P Require Import Prelude Errors Sha256 Text Codec Ids Names Scope Capability Policy Identity.
From S2P Require Import Explanation Partition Evidence.

(** ** Multi-party evaluation *)

Record MultiPartyAssessment := mkMulti {
  mp_distinct_parties : N;
  mp_endorsements : N;
  mp_parties : list MemberId;
  mp_proposer_is_candidate : bool;
  mp_proposer_active : bool;
  mp_bootstrap : bool;
  mp_satisfied : bool;
  mp_reasons : list Reason
}.

Definition multi_parties (candidate proposer : MemberId) (endorsers : list MemberId) :
    list MemberId :=
  sort_unique ((if is_nil proposer then [] else [proposer]) ++
               (if is_nil candidate then [] else [candidate]) ++
               filter (λ e, is_nil e = false) endorsers).
Definition counted_endorsers (candidate proposer : MemberId) (endorsers : list MemberId) :
    list MemberId :=
  sort_unique (filter (λ e, is_nil e = false ∧ e ≠ candidate ∧ e ≠ proposer) endorsers).

(** [if (b) { reason.code = c; reason.detail = d; reasons.push_back(reason); }] *)
Definition reason_if (b : bool) (c : ReasonCode.t) (d : string) : list Reason :=
  if b then [mkReason c d] else [].

Definition assess_multi_party (candidate proposer : MemberId) (proposer_active : bool)
    (endorsers : list MemberId) (policy : FederationPolicy) (bootstrap : bool) :
    MultiPartyAssessment :=
  let parties := multi_parties candidate proposer endorsers in
  let distinct := size parties in
  let endorsed := size (counted_endorsers candidate proposer endorsers) in
  let self := bool_decide (proposer = candidate) in
  if bootstrap then
    mkMulti distinct endorsed parties self proposer_active true true
      [mkReason ReasonCode.MultiPartyBootstrapGenesis
         "membership established by the federation genesis record; this is an operator-provisioned single-party bootstrap, not multi-party authority"]
  else
    let required_parties := required_distinct_parties policy in
    let required := required_endorsements policy in
    let satisfied := negb self && proposer_active && negb (distinct <? required_parties) &&
                     negb (endorsed <? required) in
    mkMulti distinct endorsed parties self proposer_active false satisfied
      (reason_if self ReasonCode.MultiPartySelfProposalRejected
         "a member cannot sponsor its own admission" ++
       reason_if (negb proposer_active) ReasonCode.MultiPartyProposerNotActive
         "the sponsor is not an active member of this federation" ++
       reason_if (distinct <? required_parties) ReasonCode.MultiPartyInsufficientDistinctParties
         (to_dec distinct +s+ " distinct part(ies) contributed, policy requires " +s+
          to_dec required_parties) ++
       reason_if (endorsed <? required) ReasonCode.MultiPartyInsufficientEndorsements
         (to_dec endorsed +s+ " endorsement(s) from third parties, policy requires " +s+
          to_dec required) ++
       reason_if satisfied ReasonCode.MultiPartySatisfied
         (to_dec distinct +s+ " distinct parties, " +s+ to_dec endorsed +s+
          " third-party endorsement(s)")).

(** ** The context and what is derived *)

Record MembershipContext := mkContext {
  ctx_federation : FederationId;
  current_epoch : Epoch;
  ctx_now : Tick;
  ctx_policy : FederationPolicy;
  ctx_catalog : ScopeCatalog;
  ctx_partition : PartitionAssessment;
  reconciling : bool;
  established_members : list MemberId;
  bootstrap_members : list MemberId;
  bootstrap_declarations : list MemberDeclaration
}.

Record MembershipFacts := mkFacts {
  has_proposal : bool;
  has_acceptance : bool;
  has_admission : bool;
  has_activation : bool;
  has_leave : bool;
  has_fence : bool;
  has_retirement : bool;
  has_reattestation : bool;
  f_bootstrap : bool;
  acceptance_matches_declaration : bool;
  activation_matches_identity : bool;
  activation_at_current_epoch : bool;
  generation_changed_since_admission : bool;
  f_lineage : Lineage;
  endorsement_count : N;
  f_distinct_parties : N;
  f_endorsers : list MemberId;
  f_declaration : MemberDeclaration;
  current_identity : MemberIdentity;
  admitted_identity : MemberIdentity;
  f_delegated_terms : list DelegationTerms;
  f_withdrawn_grants : list ScopeGrant;
  f_contributions : list Contribution;
  f_reasons : list Reason;
  f_conflicts : list ConflictRecord;
  rejected_kinds : list ArtifactKind.t;
  activation_epoch : Epoch;
  activation_tick : Tick;
  admitted_epoch : Epoch;
  fence_epoch : Epoch;
  superseded_incarnations : list Incarnation;
  f_fence_reason : N;
  admission_digest : Digest;
  f_evidence : EvidenceState.t;
  f_limit_reached : bool
}.

Record MembershipDerivation := mkDerivation {
  lifecycle : MemberLifecycleState.t;
  facts : MembershipFacts;
  retained_local_authority : list ScopeGrant
}.

(** ** Shared pieces *)

Definition contains (members : list MemberId) (m : MemberId) : bool := bool_decide (m ∈ members).

Definition art_issuer (a : Artifact) : MemberId := prov_member (issuer (envelope a)).
Definition art_evidence (a : Artifact) : EvidenceId := evidence (envelope a).
Definition art_generation (a : Artifact) : Generation :=
  con_generation (decl_constitution (declaration (body a))).
Definition art_lineage (a : Artifact) : N := value (body_lineage (body a)).
Definition is_kind (k : ArtifactKind.t) (a : Artifact) : bool :=
  bool_decide (art_kind (envelope a) = k).

Definition make_contribution (a : Artifact) (role : ContributionRole.t) (identity : MemberIdentity)
    (current : bool) : Contribution :=
  let p := issuer (envelope a) in
  mkContribution (prov_member p) role (prov_generation p) (prov_incarnation p)
    (if Digest_is_zero (prov_constitution p) then idn_constitution identity
     else prov_constitution p)
    (artifact_digest a) (prov_epoch p) current "".

(** The loops [if (best == nullptr || better(candidate, best)) best = candidate;]. *)
Definition pick_step (better : Artifact → Artifact → bool) (best : option Artifact)
    (candidate : Artifact) : option Artifact :=
  match best with
  | None => Some candidate
  | Some b => if better candidate b then Some candidate else best
  end.
Definition pick (better : Artifact → Artifact → bool) (l : list Artifact) : option Artifact :=
  foldl (pick_step better) None l.

Definition lower_evidence (c b : Artifact) : bool := ltb (art_evidence c) (art_evidence b).
(** A later value wins, ties are broken by the lower evidence identifier. *)
Definition later {K} `{Cmp K, EqDecision K} (key : Artifact → K) (c b : Artifact) : bool :=
  ltb (key b) (key c) || (bool_decide (key b = key c) && lower_evidence c b).

(** ** 1. The current lineage *)

Definition leave_lineages (m : MemberId) (arts : list Artifact) : list N :=
  art_lineage <$> filter (λ a, is_kind ArtifactKind.MembershipLeave a = true ∧ art_issuer a = m) arts.
Definition present_lineages (arts : list Artifact) : list N := art_lineage <$> arts.

(** The guard of the loop bounds it by the number of artefacts, so the 64-bit
    counter is far from wrapping. *)
Fixpoint lineage_loop (guard : nat) (leaves present : list N) (lineage : N) : N :=
  match guard with
  | O => lineage
  | S guard =>
      if negb (bool_decide (lineage ∈ leaves)) || negb (bool_decide (lineage + 1 ∈ present))
      then lineage else lineage_loop guard leaves present (lineage + 1)
  end.
Definition current_lineage (m : MemberId) (arts : list Artifact) : N :=
  lineage_loop (length arts + 1) (leave_lineages m arts) (present_lineages arts) 0.

(** ** 2. The artefacts of the lineage, by kind *)

Definition in_lineage (lineage : N) (arts : list Artifact) : list Artifact :=
  filter (λ a, art_lineage a = lineage) arts.
Definition of_art_kind (k : ArtifactKind.t) (arts : list Artifact) : list Artifact :=
  filter (λ a, is_kind k a = true) arts.

Definition superseded_reasons (lineage : N) (arts : list Artifact) : list Reason :=
  let superseded := size (filter (λ a, art_lineage a ≠ lineage) arts) in
  reason_if (negb (superseded =? 0)) ReasonCode.ArtifactSupersededLineage
    (to_dec superseded +s+ " artefact(s) belong to an earlier lineage").

(** ** 3. The declared constitution *)

Definition sponsored (m : MemberId) (proposals : list Artifact) : list Artifact :=
  filter (λ a, art_issuer a ≠ m) proposals.
Definition self_proposal_reasons (m : MemberId) (proposals : list Artifact) : list Reason :=
  (λ _, mkReason ReasonCode.MultiPartySelfProposalRejected
          "a self-proposal was recorded but cannot admit anyone") <$>
    filter (λ a, art_issuer a = m) proposals.

Definition sort_proposals : list Artifact → list Artifact :=
  sort_by (λ a, (mkDown (art_generation a), art_evidence a)).

Definition declared_digest (a : Artifact) : Digest :=
  constitution_digest (decl_constitution (declaration (body a))).

Definition proposal_conflicts (sorted : list Artifact) : list ConflictRecord :=
  match sorted with
  | [] => []
  | chosen :: _ =>
      (λ other, mkConflict no_grant ConflictKind.ConflictingIdentity
                  [art_issuer chosen; art_issuer other]
                  "two proposals declare different constitutions for the same member and generation")
        <$> filter (λ other, declared_digest other ≠ declared_digest chosen) sorted
  end.

(** What the sections know about the member's identity. *)
Record Identities := mkIdentities {
  id_declaration : MemberDeclaration;
  id_current : MemberIdentity;
  id_admitted : MemberIdentity
}.

Definition bootstrap_identities (m : MemberId) (ctx : MembershipContext) : Identities :=
  match (if contains (bootstrap_members ctx) m
         then List.find (λ d, bool_decide (con_member (decl_constitution d) = m))
                        (bootstrap_declarations ctx)
         else None) with
  | Some d => mkIdentities d (declaration_identity d) (declaration_identity d)
  | None => mkIdentities no_declaration no_identity no_identity
  end.
Definition proposed_identities (start : Identities) (sorted : list Artifact) : Identities :=
  match sorted with
  | [] => start
  | chosen :: _ =>
      let d := declaration (body chosen) in
      mkIdentities d (declaration_identity d) (declaration_identity d)
  end.

(** ** 4. Consent, endorsement, re-attestation *)

(** The proposal the later sections act on. *)
Definition operative_proposal (proposals : list Artifact) : option Artifact :=
  pick (later art_generation) proposals.

Definition echoes (digest : Digest) (a : Artifact) : bool :=
  bool_decide (idn_constitution (declared_identity (body a)) = digest).

Definition matching_acceptance (m : MemberId) (digest : Digest) (acceptances : list Artifact) :
    option Artifact :=
  pick lower_evidence (filter (λ a, art_issuer a = m ∧ echoes digest a = true) acceptances).
Definition acceptance_reasons (m : MemberId) (digest : Digest) (acceptances : list Artifact) :
    list Reason :=
  ((λ _, mkReason ReasonCode.IdentityConstitutionStale
           "an acceptance echoes a different constitution than the proposal") <$>
     filter (λ a, art_issuer a = m ∧ echoes digest a = false) acceptances) ++
  match matching_acceptance m digest acceptances with
  | Some _ => []
  | None => reason_if (negb (bool_decide (acceptances = []))) ReasonCode.EvidenceIncomplete
              "no acceptance matches the proposed constitution"
  end.

(** Endorsements of this constitution by third parties. *)
Definition third_party_endorsements (m : MemberId) (proposal : Artifact)
    (endorsements : list Artifact) : list Artifact :=
  filter (λ a, art_issuer a ≠ m ∧ art_issuer a ≠ art_issuer proposal ∧
               echoes (declared_digest proposal) a = true) endorsements.
Definition endorsers_of (m : MemberId) (proposal : Artifact) (endorsements : list Artifact)
    (established : list MemberId) : list MemberId :=
  sort_unique (filter (λ e, contains established e = true)
    (art_issuer <$> third_party_endorsements m proposal endorsements)).
Definition endorser_reasons (m : MemberId) (proposal : Artifact) (endorsements : list Artifact)
    (established : list MemberId) : list Reason :=
  (λ a, mkReason ReasonCode.MultiPartyEndorserNotActive
          ("an endorsement from " +s+ id_to_string (art_issuer a) +s+
           " was ignored because that member is not established in this federation")) <$>
    filter (λ a, contains established (art_issuer a) = false)
           (third_party_endorsements m proposal endorsements).

Definition accepted_identities (ids : Identities) (acceptance : option Artifact) : Identities :=
  match acceptance with
  | Some a => mkIdentities (id_declaration ids) (declaration_identity (declaration (body a)))
                           (id_admitted ids)
  | None => ids
  end.

Definition consent_contributions (ids : Identities) (acceptance : option Artifact) (m : MemberId)
    (proposal : Artifact) (endorsements : list Artifact) (established : list MemberId) :
    list Contribution :=
  match acceptance with
  | Some a => [make_contribution a ContributionRole.Candidate (id_current ids) true]
  | None => []
  end ++
  ((λ a, make_contribution a ContributionRole.Endorser (declared_identity (body a))
           (contains established (art_issuer a))) <$>
     third_party_endorsements m proposal endorsements) ++
  [make_contribution proposal ContributionRole.Proposer
     (declaration_identity (declaration (body proposal)))
     (contains established (art_issuer proposal))].

Definition latest_reattestation (m : MemberId) (reattestations : list Artifact) : option Artifact :=
  last (sort_by (λ a, (prov_epoch (issuer (envelope a)),
                       (decl_incarnation (declaration (body a)), art_evidence a)))
                (filter (λ a, art_issuer a = m) reattestations)).
Definition reattested_identities (ids : Identities) (latest : option Artifact) : Identities :=
  match latest with
  | Some a => mkIdentities (declaration (body a)) (declared_identity (body a)) (id_admitted ids)
  | None => ids
  end.

(** ** 5. Admission *)

Record Admission := mkAdmission {
  adm_valid : bool;
  adm_distinct_parties : N;
  adm_reasons : list Reason;
  adm_contributions : list Contribution;
  adm_rejected : list ArtifactKind.t;
  adm_epoch : Epoch;
  adm_digest : Digest
}.

(** The digest of the evidence that warrants the admission. *)
Definition admission_evidence_digest (lineage : N) (proposal : Artifact) (constitution : Digest)
    (endorsers : list MemberId) : Digest :=
  digest_of (Writer.u64 lineage >+> Writer.digest (artifact_digest proposal) >+>
             Writer.digest constitution >+> enc_list kMaxMembers encode endorsers).

Definition admission_record (admissions : list Artifact) : option Artifact :=
  pick lower_evidence admissions.

(** The part of the coordinator's record: reasons, rejected kinds, epoch. *)
Definition record_outcome (valid : bool) (admitted : MemberIdentity) (record : option Artifact) :
    list Reason * list ArtifactKind.t * Epoch :=
  match record with
  | None => ([], [], zero)
  | Some a =>
      if negb valid then
        ([mkReason ReasonCode.ArtifactRejected
            "admission record rejected: the evidence does not satisfy the multi-party rules"],
         [ArtifactKind.MembershipAdmission], zero)
      else if negb (bool_decide (idn_constitution (declared_identity (body a)) =
                                 idn_constitution admitted)) then
        ([mkReason ReasonCode.IdentityConstitutionStale
            "an admission record names a constitution that has since been superseded"], [], zero)
      else ([], [], body_epoch (body a))
  end.

Definition admit_proposal (m : MemberId) (lineage : N) (proposal : Artifact) (ids : Identities)
    (consented : bool) (endorsers : list MemberId) (admissions : list Artifact)
    (ctx : MembershipContext) : Admission :=
  let proposer := art_issuer proposal in
  let multi := assess_multi_party m proposer (contains (established_members ctx) proposer)
                 endorsers (ctx_policy ctx) false in
  let record := admission_record admissions in
  let valid := mp_satisfied multi && consented in
  let '(reasons, rejected, epoch) := record_outcome valid (id_admitted ids) record in
  mkAdmission valid (mp_distinct_parties multi)
    (mp_reasons multi ++
     reason_if (negb consented) ReasonCode.EvidenceIncomplete
       "the candidate has not consented to the proposed constitution" ++
     reason_if (negb valid) ReasonCode.MembershipProposedInsufficientEvidence
       "the evidence does not yet satisfy the multi-party rules for admission" ++
     reasons)
    (match record with
     | Some a => if valid
                 then [make_contribution a ContributionRole.Coordinator
                         (declared_identity (body a)) true]
                 else []
     | None => []
     end)
    rejected epoch
    (admission_evidence_digest lineage proposal (idn_constitution (id_current ids)) endorsers).

Definition admit_bootstrap (m : MemberId) (ids : Identities) : Admission :=
  let d := id_declaration ids in
  mkAdmission true 1
    [mkReason ReasonCode.MultiPartyBootstrapGenesis
       "membership established by the genesis record (single-party bootstrap)"]
    [mkContribution m ContributionRole.Candidate (con_generation (decl_constitution d))
       (decl_incarnation d) (constitution_digest (decl_constitution d)) Digest_zero (mkCounter 1)
       true "genesis founder"]
    [] zero Digest_zero.
Definition no_admission : Admission := mkAdmission false 0 [] [] [] zero Digest_zero.

(** ** 6. Fences *)

Record Fence := mkFence { fenced : bool; fn_epoch : Epoch; fn_reason : N }.

(** Accepted from the member itself and from the coordinator. *)
Definition fence_accepted (m : MemberId) (a : Artifact) : bool :=
  bool_decide (art_issuer a = m) || bool_decide (art_issuer a = nil_id).
Definition fence_of (m : MemberId) (fences : list Artifact) : Fence :=
  foldl (λ f a, if negb (fenced f) || ltb (fn_epoch f) (body_epoch (body a))
                then mkFence true (body_epoch (body a)) (fence_reason (body a)) else f)
        (mkFence false zero (wire ReasonCode.EvidenceUnknown))
        (filter (λ a, fence_accepted m a = true) fences).

(** ** 7. The lifecycle *)

Definition latest_activation (activations : list Artifact) : option Artifact :=
  pick (later (λ a, body_epoch (body a))) activations.
Definition superseded_of (current : Incarnation) (activations : list Artifact) :
    list Incarnation :=
  sort_unique (filter (λ i, i ≠ current)
    ((λ a, idn_incarnation (declared_identity (body a))) <$> activations)).

(** Epoch and tick of the activation, and whether the declaration is current. *)
Definition activation_currency (m : MemberId) (activation : option Artifact)
    (reattestations : list Artifact) (epoch : Epoch) : Epoch * Tick * bool :=
  foldl (λ _ a, (body_epoch (body a), prov_issued_at (issuer (envelope a)),
                 negb (ltb (body_epoch (body a)) epoch)))
        (match activation with
         | Some a => (body_epoch (body a), prov_issued_at (issuer (envelope a)),
                      bool_decide (body_epoch (body a) = epoch))
         | None => (zero, zero, true)
         end)
        (filter (λ a, art_issuer a = m) reattestations).

(** The inputs of the decision. *)
Record LifecycleInputs := mkInputs {
  li_retired : bool;
  li_left : bool;
  li_known : bool;
  li_fence : Fence;
  li_admitted : bool;
  li_activation : option Artifact;
  li_matches : bool;
  li_generation_changed : bool;
  li_current_generation : Generation;
  li_admitted_generation : Generation;
  li_at_epoch : bool;
  li_activation_epoch : Epoch;
  li_capabilities : list CapabilityStatement
}.

(** [fenced && (activation == nullptr || !(fence_epoch < activation->body.epoch))]. *)
Definition fence_in_force (f : Fence) (activation : option Artifact) : bool :=
  fenced f && match activation with
              | None => true
              | Some a => negb (ltb (fn_epoch f) (body_epoch (body a)))
              end.

(** The degrading conditions of an otherwise active member. *)
Definition degradations (i : LifecycleInputs) (ctx : MembershipContext) : list Reason :=
  let policy := ctx_policy ctx in
  let suspend := suspend_global_mutation_on_partition policy in
  reason_if (reconciling ctx && suspend_global_mutation_while_reconciling policy)
    ReasonCode.PartitionReconcilingSuspendsGlobalMutation
    "the federation is reconciling after a partition" ++
  (if bool_decide (p_state (ctx_partition ctx) = PartitionState.Split) && suspend then
     [mkReason ReasonCode.PartitionSplitSuspendsGlobalMutation
        "the active set is partitioned; global-mutation authority is suspended for every component"]
   else if bool_decide (p_state (ctx_partition ctx) = PartitionState.Indeterminate) && suspend then
     [mkReason ReasonCode.PartitionIndeterminateSuspendsGlobalMutation
        "reachability evidence is incomplete; global-mutation authority is suspended rather than assumed"]
   else []) ++
  (let required := mandatory_capabilities policy in
   if bool_decide (required = []) then [] else
   let report := evaluate_compatibility required (li_capabilities i) in
   reason_if (negb (bool_decide (r_state report = CompatibilityState.Satisfied)))
     ReasonCode.MembershipDegradedObservationGap
     ("mandatory capability evidence is " +s+ CompatibilityState.to_string (r_state report) +s+
      ": " +s+ summary report)).

Definition derive_lifecycle (i : LifecycleInputs) (ctx : MembershipContext) :
    MemberLifecycleState.t * list Reason :=
  if li_retired i then
    (MemberLifecycleState.Retired,
     [mkReason ReasonCode.MembershipRetired "a retirement record closed this membership lineage"])
  else if li_left i then
    (MemberLifecycleState.Leaving,
     [mkReason ReasonCode.MembershipLeaving
        "the member has left; federation authority has ended and no local authority was affected"])
  else if negb (li_known i) then
    (MemberLifecycleState.Absent,
     [mkReason ReasonCode.MembershipAbsent
        "no proposal exists for this member in the current lineage"])
  else if fence_in_force (li_fence i) (li_activation i) then
    (MemberLifecycleState.Fenced,
     [mkReason ReasonCode.MembershipFencedByOrder
        "a fence is in force and no activation at a later epoch has cleared it"])
  else if negb (li_admitted i) then
    (MemberLifecycleState.Proposed,
     [mkReason ReasonCode.MembershipProposedInsufficientEvidence
        "the proposal has not been admitted; no federation authority is held"])
  else match li_activation i with
  | None =>
    (MemberLifecycleState.Admitted_,
     [mkReason ReasonCode.MembershipAdmittedPendingActivation
        "admitted but not yet activated at the current epoch"])
  | Some _ =>
    if negb (li_matches i) then
      if li_generation_changed i && reconsent_on_generation_change (ctx_policy ctx) then
        (MemberLifecycleState.Fenced,
         [mkReason ReasonCode.GenerationChangeRequiresReconsent
            ("the member declared generation " +s+ to_dec (value (li_current_generation i)) +s+
             " but consented at generation " +s+ to_dec (value (li_admitted_generation i)) +s+
             "; fresh consent is required")])
      else
        (MemberLifecycleState.Admitted_,
         reason_if (li_generation_changed i) ReasonCode.GenerationChangeAcceptedByPolicy
           "policy allows a generation change without fresh consent" ++
         [mkReason ReasonCode.MembershipRequiresReattestation
            "the active activation is bound to a different identity; reactivation at the current epoch is required"])
    else if negb (li_at_epoch i) then
      (MemberLifecycleState.Degraded,
       [mkReason ReasonCode.MembershipRequiresReattestation
          ("the activation belongs to epoch " +s+ to_dec (value (li_activation_epoch i)) +s+
           ", the federation is at epoch " +s+ to_dec (value (current_epoch ctx)))])
    else
      let reasons := degradations i ctx in
      if bool_decide (reasons = []) then
        (MemberLifecycleState.Active,
         [mkReason ReasonCode.MembershipActive
            ("active at epoch " +s+ to_dec (value (current_epoch ctx)))])
      else (MemberLifecycleState.Degraded, reasons)
  end.

(** ** 8 and 9. Evidence quality and delegation *)

Definition evidence_quality (conflicts : list ConflictRecord) (state : MemberLifecycleState.t)
    (partition : PartitionState.t) : EvidenceState.t :=
  if negb (bool_decide (conflicts = [])) then EvidenceState.Conflicting
  else match state with
  | MemberLifecycleState.Absent => EvidenceState.Unknown
  | MemberLifecycleState.Proposed => EvidenceState.Incomplete
  | _ => if bool_decide (partition = PartitionState.Indeterminate)
         then EvidenceState.Indeterminate else EvidenceState.Known
  end.

Definition delegated_by (m : MemberId) (d : MemberDeclaration) (delegations : list Artifact) :
    list DelegationTerms :=
  match pick (later (λ a, prov_epoch (issuer (envelope a))))
             (filter (λ a, art_issuer a = m) delegations) with
  | Some a => delegated_terms (body a)
  | None => delegated (decl_constitution d)
  end.
Definition withdrawn_by (m : MemberId) (withdrawals : list Artifact) : list ScopeGrant :=
  canonicalize_grants
    (filter (λ a, art_issuer a = m) withdrawals ≫= λ a, withdrawn_grants (body a)).

(** ** [derive_membership] *)

(** Sections 3 to 5 when the record has an operative proposal. *)
Record Consent := mkConsent {
  cn_ids : Identities;
  cn_consented : bool;
  cn_endorsers : list MemberId;
  cn_reasons : list Reason;
  cn_contributions : list Contribution
}.
Definition consent_of (m : MemberId) (ids : Identities) (proposal : Artifact)
    (acceptances endorsements : list Artifact) (established : list MemberId) : Consent :=
  let digest := declared_digest proposal in
  let acceptance := matching_acceptance m digest acceptances in
  let ids := accepted_identities ids acceptance in
  mkConsent ids (bool_decide (acceptance ≠ None))
    (endorsers_of m proposal endorsements established)
    (acceptance_reasons m digest acceptances ++
     endorser_reasons m proposal endorsements established)
    (consent_contributions ids acceptance m proposal endorsements established).
Definition no_consent (ids : Identities) : Consent := mkConsent ids false [] [] [].

Definition derive_membership (m : MemberId) (arts : list Artifact) (ctx : MembershipContext) :
    MembershipDerivation :=
  let bootstrap := contains (bootstrap_members ctx) m in
  let lineage := current_lineage m arts in
  let mine k := of_art_kind k (in_lineage lineage arts) in
  let all_proposals := mine ArtifactKind.MembershipProposal in
  let acceptances := mine ArtifactKind.MembershipAcceptance in
  let admissions := mine ArtifactKind.MembershipAdmission in
  let activations := mine ArtifactKind.MembershipActivation in
  let reattestations := mine ArtifactKind.MemberReattestation in
  let proposals := sponsored m all_proposals in
  let sorted := sort_proposals proposals in
  let proposal := operative_proposal proposals in
  let ids := proposed_identities (bootstrap_identities m ctx) sorted in
  let conflicts := proposal_conflicts sorted in
  let consent :=
    match proposal with
    | Some p => consent_of m ids p acceptances (mine ArtifactKind.MembershipEndorsement)
                  (established_members ctx)
    | None => no_consent ids
    end in
  let reattestation := latest_reattestation m reattestations in
  let ids := reattested_identities (cn_ids consent) reattestation in
  let admission :=
    match proposal with
    | Some p => admit_proposal m lineage p ids (cn_consented consent) (cn_endorsers consent)
                  admissions ctx
    | None => if bootstrap then admit_bootstrap m ids else no_admission
    end in
  let fence := fence_of m (mine ArtifactKind.MembershipFence) in
  let activation := latest_activation activations in
  let '(act_epoch, act_tick, at_epoch) :=
    activation_currency m activation reattestations (current_epoch ctx) in
  let matches := adm_valid admission &&
    bool_decide (idn_constitution (id_current ids) = idn_constitution (id_admitted ids)) in
  let generation_changed := negb (is_zero (idn_generation (id_admitted ids))) &&
    negb (bool_decide (idn_generation (id_current ids) = idn_generation (id_admitted ids))) in
  let '(state, lifecycle_reasons) :=
    derive_lifecycle
      {| li_retired := nonempty (mine ArtifactKind.MembershipRetirement);
         li_left := nonempty (mine ArtifactKind.MembershipLeave);
         li_known := nonempty all_proposals || bootstrap;
         li_fence := fence; li_admitted := adm_valid admission; li_activation := activation;
         li_matches := matches; li_generation_changed := generation_changed;
         li_current_generation := idn_generation (id_current ids);
         li_admitted_generation := idn_generation (id_admitted ids);
         li_at_epoch := at_epoch; li_activation_epoch := act_epoch;
         li_capabilities := capabilities (decl_constitution (id_declaration ids)) |} ctx in
  mkDerivation state
    {| has_proposal := nonempty all_proposals;
       has_acceptance := match proposal with Some _ => cn_consented consent
                                           | None => nonempty acceptances end;
       has_admission := nonempty admissions;
       has_activation := nonempty activations;
       has_leave := nonempty (mine ArtifactKind.MembershipLeave);
       has_fence := nonempty (mine ArtifactKind.MembershipFence);
       has_retirement := nonempty (mine ArtifactKind.MembershipRetirement);
       has_reattestation := nonempty reattestations;
       f_bootstrap := bootstrap;
       acceptance_matches_declaration := cn_consented consent;
       activation_matches_identity := matches;
       activation_at_current_epoch := at_epoch;
       generation_changed_since_admission := generation_changed;
       f_lineage := mkCounter lineage;
       endorsement_count := size (cn_endorsers consent);
       f_distinct_parties := adm_distinct_parties admission;
       f_endorsers := cn_endorsers consent;
       f_declaration := id_declaration ids;
       current_identity := id_current ids;
       admitted_identity := id_admitted ids;
       f_delegated_terms :=
         delegated_by m (id_declaration ids) (mine ArtifactKind.DelegationDeclaration);
       f_withdrawn_grants := withdrawn_by m (mine ArtifactKind.DelegationWithdrawal);
       f_contributions :=
         cn_contributions consent ++
         match reattestation with
         | Some a => [make_contribution a ContributionRole.Candidate (id_current ids) true]
         | None => []
         end ++ adm_contributions admission;
       f_reasons := superseded_reasons lineage arts ++ self_proposal_reasons m all_proposals ++
         cn_reasons consent ++ adm_reasons admission ++ lifecycle_reasons;
       f_conflicts := conflicts;
       rejected_kinds := adm_rejected admission;
       activation_epoch := act_epoch;
       activation_tick := act_tick;
       admitted_epoch := adm_epoch admission;
       fence_epoch := fn_epoch fence;
       superseded_incarnations := superseded_of (idn_incarnation (id_current ids)) activations;
       f_fence_reason := fn_reason fence;
       admission_digest := adm_digest admission;
       f_evidence := evidence_quality conflicts state (p_state (ctx_partition ctx));
       f_limit_reached := false |}
    (canonicalize_grants (retained (decl_constitution (id_declaration ids)))).

(** ** Facts about the selections *)

Lemma pick_foldl better l b :
  ∃ a, foldl (pick_step better) (Some b) l = Some a ∧ (a = b ∨ a ∈ l).
Proof.
  revert b. induction l as [|c l IH]; intros b; simpl; [by exists b; auto|].
  destruct (better c b).
  - destruct (IH c) as (a & -> & Ha). exists a. set_solver.
  - destruct (IH b) as (a & -> & Ha). exists a. set_solver.
Qed.
Lemma pick_Some better l a : pick better l = Some a → a ∈ l.
Proof.
  destruct l as [|c l]; [done|]. unfold pick; simpl. intros Hp.
  destruct (pick_foldl better l c) as (a' & Ha' & Hin). rewrite Ha' in Hp.
  simplify_eq. set_solver.
Qed.
Lemma pick_None better l : pick better l = None ↔ l = [].
Proof.
  split; [|by intros ->]. destruct l as [|c l]; [done|]. unfold pick; simpl. intros Hp.
  destruct (pick_foldl better l c) as (a & Ha & _). by rewrite Ha in Hp.
Qed.

(** Nothing beats what [pick (later key)] chose. *)
Lemma later_not_below {K} `{CmpLaws K, EqDecision K} (key : Artifact → K) l :
  ∀ best a, foldl (pick_step (later key)) best l = Some a →
    (∀ b, best = Some b → ltb (key a) (key b) = false) ∧
    ∀ c, c ∈ l → ltb (key a) (key c) = false.
Proof.
  assert (∀ x y z : K, ltb x y = false → ltb y z = false → ltb x z = false) as Htrans.
  { intros x y z. rewrite <-!not_true_iff_false. unfold ltb. intros Hxy Hyz Hxz.
    apply (not_after_trans z y x); unfold not_after.
    - by destruct (cmp y z).
    - by destruct (cmp x y).
    - by destruct (cmp x z). }
  assert (∀ x : K, ltb x x = false) as Hrefl by (intros x; unfold ltb; by rewrite (cmp_refl x)).
  induction l as [|c l IH]; intros best a Hf; simpl in Hf.
  { subst best. split; [by intros b [= <-]|by intros c ?%elem_of_nil]. }
  destruct best as [b|]; simpl in Hf.
  - destruct (later key c b) eqn:Hl.
    + destruct (IH _ _ Hf) as [Hc Hall]. specialize (Hc c eq_refl).
      assert (ltb (key c) (key b) = false) as Hcb.
      { unfold later in Hl. apply orb_true_iff in Hl as [Hl|Hl].
        - unfold ltb in *. rewrite (cmp_opp (key b) (key c)). by destruct (cmp (key b) (key c)).
        - apply andb_true_iff in Hl as [Hl _]. apply bool_decide_eq_true in Hl. by rewrite Hl. }
      split; [intros b' [= <-]; by eapply Htrans|].
      intros c' [->|Hin]%elem_of_cons; [done|by apply Hall].
    + destruct (IH _ _ Hf) as [Hb Hall]. split; [done|].
      intros c' [->|Hin]%elem_of_cons; [|by apply Hall].
      apply (Htrans _ (key b)); [by apply Hb|].
      unfold later in Hl. by apply orb_false_iff in Hl as [? _].
  - destruct (IH _ _ Hf) as [Hc Hall]. split; [done|].
    intros c' [->|Hin]%elem_of_cons; [by apply Hc|by apply Hall].
Qed.
Lemma pick_later_max {K} `{CmpLaws K, EqDecision K} (key : Artifact → K) l a :
  pick (later key) l = Some a → ∀ c, c ∈ l → ltb (key a) (key c) = false.
Proof. intros Hp. by apply (later_not_below key l None a Hp). Qed.

Lemma elem_of_mine k lineage arts a :
  a ∈ of_art_kind k (in_lineage lineage arts) ↔
  a ∈ arts ∧ art_lineage a = lineage ∧ art_kind (envelope a) = k.
Proof.
  unfold of_art_kind, in_lineage, is_kind. rewrite !list_elem_of_filter, bool_decide_eq_true. tauto.
Qed.
Lemma nonempty_true {A} (l : list A) : nonempty l = true ↔ ∃ x, x ∈ l.
Proof.
  unfold nonempty. destruct l as [|a l]; simpl; [|by split; [exists a; left|]].
  split; [done|]. by intros (x & ?%elem_of_nil).
Qed.
Lemma nonempty_false {A} (l : list A) : nonempty l = false ↔ l = [].
Proof. by destruct l. Qed.

(** ** Fences *)

Lemma counter_ltb {t} (a b : BasicCounter t) : ltb a b = (value a <? value b).
Proof. unfold ltb, cmp, BasicCounter_cmp, cmp_on, cmp, N_cmp, N.ltb. by destruct (_ ?= _). Qed.

Lemma fence_fold_spec l : ∀ f0,
  let f := foldl (λ f a, if negb (fenced f) || ltb (fn_epoch f) (body_epoch (body a))
                then mkFence true (body_epoch (body a)) (fence_reason (body a)) else f) f0 l in
  (fenced f = true ↔ fenced f0 = true ∨ l ≠ []) ∧
  (fenced f0 = true → value (fn_epoch f0) ≤ value (fn_epoch f)) ∧
  (∀ a, a ∈ l → value (body_epoch (body a)) ≤ value (fn_epoch f)) ∧
  (fenced f = true → (fenced f0 = true ∧ fn_epoch f = fn_epoch f0) ∨
                     ∃ a, a ∈ l ∧ fn_epoch f = body_epoch (body a)).
Proof.
  induction l as [|c l IH]; intros f0; simpl.
  { split_and!; [tauto|lia|by intros a ?%elem_of_nil|by auto]. }
  match goal with |- context [foldl _ ?f l] => set (f1 := f) end. destruct (IH f1) as (H1 & H2 & H3 & H4).
  assert (fenced f1 = true ∧ (fenced f0 = true → value (fn_epoch f0) ≤ value (fn_epoch f1)) ∧
          value (body_epoch (body c)) ≤ value (fn_epoch f1) ∧
          (fn_epoch f1 = body_epoch (body c) ∨ fenced f0 = true ∧ fn_epoch f1 = fn_epoch f0))
    as (Hf1 & Hle0 & Hlec & Hor).
  { subst f1. rewrite counter_ltb. destruct (fenced f0) eqn:Hf0; simpl; [|by auto with lia].
    destruct (N.ltb_spec (value (fn_epoch f0)) (value (body_epoch (body c)))); simpl;
      rewrite ?Hf0; split_and!; auto with lia. }
  rewrite H1, Hf1. specialize (H2 Hf1). split_and!.
  - split; [by right|by left].
  - intros Hf0. specialize (Hle0 Hf0). lia.
  - intros a [->|Hin]%elem_of_cons; [lia|by apply H3].
  - intros _. destruct (H4 (proj2 H1 (or_introl Hf1))) as [[_ He]|(a & Ha & He)].
    + rewrite He. destruct Hor as [->|[? ->]]; [right; exists c; by split; [left|]|by left].
    + right. exists a. by split; [right|].
Qed.

(** A fence is in force exactly when one from the member or the coordinator is
    not older than every activation. *)
Lemma fence_in_force_iff m fences activations :
  fence_in_force (fence_of m fences) (latest_activation activations) = true ↔
  ∃ f, f ∈ fences ∧ (art_issuer f = m ∨ art_issuer f = nil_id) ∧
       ∀ a, a ∈ activations → value (body_epoch (body a)) ≤ value (body_epoch (body f)).
Proof.
  unfold fence_in_force, fence_of.
  pose proof (fence_fold_spec (filter (λ a, fence_accepted m a = true) fences)
    (mkFence false zero (wire ReasonCode.EvidenceUnknown))) as (H1 & _ & H3 & H4).
  simpl in H1, H4. cbv zeta in *. set (f := foldl _ _ _) in *. clearbody f.
  assert (∀ x, x ∈ filter (λ a, fence_accepted m a = true) fences ↔
          x ∈ fences ∧ (art_issuer x = m ∨ art_issuer x = nil_id)) as Hin.
  { intros x. rewrite list_elem_of_filter. unfold fence_accepted.
    rewrite orb_true_iff, !bool_decide_eq_true. tauto. }
  rewrite andb_true_iff. split.
  - intros [Hf Hact]. destruct (H4 Hf) as [[? _]|(x & Hx & He)]; [done|].
    apply Hin in Hx as [Hx Hiss]. exists x. split_and!; [done..|]. intros a Ha.
    destruct (latest_activation activations) as [b|] eqn:Hb.
    + rewrite negb_true_iff, counter_ltb, He in Hact. apply N.ltb_ge in Hact.
      pose proof (pick_later_max _ _ _ Hb a Ha) as Hmax.
      rewrite counter_ltb in Hmax. apply N.ltb_ge in Hmax. lia.
    + apply pick_None in Hb as ->. by apply elem_of_nil in Ha.
  - intros (x & Hx & Hiss & Hall).
    assert (x ∈ filter (λ a, fence_accepted m a = true) fences) as Hxf by by apply Hin.
    split; [apply H1; right; intros He; rewrite He in Hxf; by apply elem_of_nil in Hxf|].
    specialize (H3 x Hxf).
    destruct (latest_activation activations) as [b|] eqn:Hb; [|done].
    rewrite negb_true_iff, counter_ltb. apply N.ltb_ge.
    specialize (Hall b (pick_Some _ _ _ Hb)). lia.
Qed.

(** ** The lifecycle decision *)

(** Admitted, active or degraded: the member's standing is established. *)
Definition established_state (s : MemberLifecycleState.t) : bool :=
  bool_decide (s = MemberLifecycleState.Admitted_) || lifecycle_holds_federation_authority s.

Lemma derive_lifecycle_established i ctx :
  established_state (derive_lifecycle i ctx).1 = true →
  li_retired i = false ∧ li_left i = false ∧ li_known i = true ∧
  fence_in_force (li_fence i) (li_activation i) = false ∧ li_admitted i = true.
Proof.
  unfold derive_lifecycle.
  destruct (li_retired i); [done|]. destruct (li_left i); [done|].
  destruct (li_known i); [|done]. simpl.
  destruct (fence_in_force _ _); [done|]. by destruct (li_admitted i).
Qed.

Lemma derive_lifecycle_active i ctx :
  (derive_lifecycle i ctx).1 = MemberLifecycleState.Active ↔
  li_retired i = false ∧ li_left i = false ∧ li_known i = true ∧
  fence_in_force (li_fence i) (li_activation i) = false ∧ li_admitted i = true ∧
  li_activation i ≠ None ∧ li_matches i = true ∧ li_at_epoch i = true ∧ degradations i ctx = [].
Proof.
  split.
  - intros Hs. pose proof (derive_lifecycle_established i ctx) as He.
    rewrite Hs in He. destruct (He eq_refl) as (Hr & Hl & Hk & Hf & Ha).
    unfold derive_lifecycle in Hs. rewrite Hr, Hl, Hk, Hf, Ha in Hs. simpl in Hs.
    destruct (li_activation i); [|done].
    destruct (li_matches i); simpl in Hs; [|by destruct (li_generation_changed i && _)].
    destruct (li_at_epoch i); simpl in Hs; [|done].
    case_bool_decide as Hd; [|done]. by split_and!.
  - intros (Hr & Hl & Hk & Hf & Ha & Hact & Hm & He & Hd).
    unfold derive_lifecycle. rewrite Hr, Hl, Hk, Hf, Ha, Hm, He, Hd. simpl.
    by destruct (li_activation i).
Qed.

Lemma reason_if_nil b c d : reason_if b c d = [] ↔ b = false.
Proof. by destruct b. Qed.

Lemma degradations_nil i ctx :
  degradations i ctx = [] ↔
  (reconciling ctx = true → suspend_global_mutation_while_reconciling (ctx_policy ctx) = false) ∧
  (suspend_global_mutation_on_partition (ctx_policy ctx) = true →
     p_state (ctx_partition ctx) ≠ PartitionState.Split ∧
     p_state (ctx_partition ctx) ≠ PartitionState.Indeterminate) ∧
  (mandatory_capabilities (ctx_policy ctx) = [] ∨
   r_state (evaluate_compatibility (mandatory_capabilities (ctx_policy ctx))
              (li_capabilities i)) = CompatibilityState.Satisfied).
Proof.
  unfold degradations. cbv zeta. rewrite !app_nil, reason_if_nil, andb_false_iff.
  assert (∀ b s, (if bool_decide (s = PartitionState.Split) && b then
     [mkReason ReasonCode.PartitionSplitSuspendsGlobalMutation
        "the active set is partitioned; global-mutation authority is suspended for every component"]
   else if bool_decide (s = PartitionState.Indeterminate) && b then
     [mkReason ReasonCode.PartitionIndeterminateSuspendsGlobalMutation
        "reachability evidence is incomplete; global-mutation authority is suspended rather than assumed"]
   else []) = [] ↔ (b = true → s ≠ PartitionState.Split ∧ s ≠ PartitionState.Indeterminate)) as ->.
  { intros b s. by destruct b, s; simpl; naive_solver. }
  assert ((if bool_decide (mandatory_capabilities (ctx_policy ctx) = []) then []
           else reason_if (negb (bool_decide (r_state (evaluate_compatibility
                  (mandatory_capabilities (ctx_policy ctx)) (li_capabilities i)) =
                  CompatibilityState.Satisfied))) ReasonCode.MembershipDegradedObservationGap
                  ("mandatory capability evidence is " +s+ CompatibilityState.to_string
                    (r_state (evaluate_compatibility (mandatory_capabilities (ctx_policy ctx))
                                (li_capabilities i))) +s+ ": " +s+
                   summary (evaluate_compatibility (mandatory_capabilities (ctx_policy ctx))
                              (li_capabilities i)))) = [] ↔
          mandatory_capabilities (ctx_policy ctx) = [] ∨
          r_state (evaluate_compatibility (mandatory_capabilities (ctx_policy ctx))
                     (li_capabilities i)) = CompatibilityState.Satisfied) as ->.
  { case_bool_decide as Hm; [tauto|].
    rewrite reason_if_nil, negb_false_iff, bool_decide_eq_true. tauto. }
  destruct (reconciling ctx), (suspend_global_mutation_while_reconciling (ctx_policy ctx));
    naive_solver.
Qed.

(** ** What the derivation of a member relies on *)

(** [a] is an artefact of the kind in the member's current lineage. *)
Definition on_record (m : MemberId) (arts : list Artifact) (k : ArtifactKind.t) (a : Artifact) :
    Prop :=
  a ∈ arts ∧ art_lineage a = current_lineage m arts ∧ art_kind (envelope a) = k.

(** No fence of the member or of the coordinator outlives its activations. *)
Definition unfenced (m : MemberId) (arts : list Artifact) : Prop :=
  ∀ f, on_record m arts ArtifactKind.MembershipFence f →
    (art_issuer f = m ∨ art_issuer f = nil_id) →
    ∃ a, on_record m arts ArtifactKind.MembershipActivation a ∧
         value (body_epoch (body f)) < value (body_epoch (body a)).

Lemma fence_in_force_false m arts :
  let mine k := of_art_kind k (in_lineage (current_lineage m arts) arts) in
  fence_in_force (fence_of m (mine ArtifactKind.MembershipFence))
    (latest_activation (mine ArtifactKind.MembershipActivation)) = false ↔ unfenced m arts.
Proof.
  intros mine. unfold unfenced, on_record. rewrite <-not_true_iff_false, fence_in_force_iff. subst mine.
  split.
  - intros Hno f Hf Hiss.
    destruct (decide (Exists (λ a, value (body_epoch (body f)) < value (body_epoch (body a)))
      (of_art_kind ArtifactKind.MembershipActivation (in_lineage (current_lineage m arts) arts))))
      as [(a & Ha & Hlt)%Exists_exists|Hnone].
    + exists a. by rewrite elem_of_mine in Ha.
    + destruct Hno. exists f. split_and!; [by apply elem_of_mine|done|].
      intros a Ha. apply N.nlt_ge. intros Hlt. apply Hnone, Exists_exists. eauto.
  - intros Hall (f & Hf & Hiss & Hge). apply elem_of_mine in Hf.
    destruct (Hall f Hf Hiss) as (a & Ha & Hlt).
    specialize (Hge a (proj2 (elem_of_mine _ _ _ _) Ha)). lia.
Qed.

(** The proposal, the parties and the consent an admission rests on. *)
Record admission_warranted (m : MemberId) (arts : list Artifact) (ctx : MembershipContext)
    (p acceptance : Artifact) (endorsers parties : list MemberId) : Prop := {
  aw_proposal : on_record m arts ArtifactKind.MembershipProposal p;
  aw_sponsor : art_issuer p ≠ m ∧ art_issuer p ∈ established_members ctx;
  aw_acceptance : on_record m arts ArtifactKind.MembershipAcceptance acceptance;
  aw_consent : art_issuer acceptance = m ∧
    idn_constitution (declared_identity (body acceptance)) = declared_digest p;
  aw_endorsers : NoDup endorsers ∧ required_endorsements (ctx_policy ctx) ≤ size endorsers;
  aw_endorsed : ∀ e, e ∈ endorsers →
    e ≠ m ∧ e ≠ art_issuer p ∧ e ∈ established_members ctx ∧
    ∃ a, on_record m arts ArtifactKind.MembershipEndorsement a ∧ art_issuer a = e ∧
         idn_constitution (declared_identity (body a)) = declared_digest p;
  aw_parties : NoDup parties ∧ required_distinct_parties (ctx_policy ctx) ≤ size parties;
  aw_party : ∀ q, q ∈ parties →
    is_nil q = false ∧ (q = m ∨ q = art_issuer p ∨ q ∈ endorsers)
}.

Lemma assess_satisfied candidate proposer active endorsers policy :
  mp_satisfied (assess_multi_party candidate proposer active endorsers policy false) = true ↔
  proposer ≠ candidate ∧ active = true ∧
  required_distinct_parties policy ≤ size (multi_parties candidate proposer endorsers) ∧
  required_endorsements policy ≤ size (counted_endorsers candidate proposer endorsers).
Proof.
  unfold assess_multi_party. cbn [mp_satisfied].
  rewrite !andb_true_iff, !negb_true_iff, bool_decide_eq_false, !N.ltb_ge. tauto.
Qed.

Lemma elem_of_endorsers_of m p endorsements established e :
  e ∈ endorsers_of m p endorsements established ↔
  e ∈ established ∧ ∃ a, a ∈ endorsements ∧ art_issuer a = e ∧ e ≠ m ∧ e ≠ art_issuer p ∧
    idn_constitution (declared_identity (body a)) = declared_digest p.
Proof.
  unfold endorsers_of, third_party_endorsements, contains, echoes.
  rewrite elem_of_sort_unique, list_elem_of_filter, bool_decide_eq_true, list_elem_of_fmap.
  setoid_rewrite list_elem_of_filter. setoid_rewrite bool_decide_eq_true. naive_solver.
Qed.

(** An admission record is valid exactly when such a warrant exists. *)
Lemma admit_proposal_warranted m arts ctx p ids admissions :
  let mine k := of_art_kind k (in_lineage (current_lineage m arts) arts) in
  on_record m arts ArtifactKind.MembershipProposal p → art_issuer p ≠ m →
  let c := consent_of m ids p (mine ArtifactKind.MembershipAcceptance)
             (mine ArtifactKind.MembershipEndorsement) (established_members ctx) in
  ∀ ids', adm_valid (admit_proposal m (current_lineage m arts) p ids' (cn_consented c)
                       (cn_endorsers c) admissions ctx) = true →
  ∃ acceptance endorsers parties, admission_warranted m arts ctx p acceptance endorsers parties.
Proof.
  intros mine Hp Hsp c ids' Hv. subst c mine.
  unfold admit_proposal in Hv. cbn [consent_of cn_consented cn_endorsers] in Hv.
  destruct (record_outcome _ _ _) as [[??]?]. cbn [adm_valid] in Hv.
  apply andb_true_iff in Hv as [Hm Hc]. apply assess_satisfied in Hm as (_ & Hact & Hpar & Hend).
  unfold contains in Hact. apply bool_decide_eq_true in Hact. apply bool_decide_eq_true in Hc.
  destruct (matching_acceptance m (declared_digest p) (of_art_kind _ (in_lineage _ _)))
    as [acc|] eqn:Hacc; [|done].
  apply pick_Some, list_elem_of_filter in Hacc as [[Hai Hae] Hacc]. apply elem_of_mine in Hacc.
  apply bool_decide_eq_true in Hae.
  eexists acc, _, _. constructor; [done|done|done|done|split; [|exact Hend]| |split; [|exact Hpar]|].
  - apply NoDup_sort_unique.
  - intros e. unfold counted_endorsers. rewrite elem_of_sort_unique, list_elem_of_filter,
      elem_of_endorsers_of. setoid_rewrite elem_of_mine.
    intros [(_ & ? & ?) (? & a & ? & ? & _ & _ & ?)]. split_and!; [done..|]. by exists a.
  - apply NoDup_sort_unique.
  - intros q. unfold multi_parties, counted_endorsers.
    rewrite !elem_of_sort_unique, !elem_of_app, !list_elem_of_filter, elem_of_endorsers_of.
    intros [Hq|[Hq|[Hn Hq]]].
    + destruct (is_nil (art_issuer p)) eqn:En; [by apply elem_of_nil in Hq|].
      apply list_elem_of_singleton in Hq as ->. auto.
    + destruct (is_nil m) eqn:En; [by apply elem_of_nil in Hq|].
      apply list_elem_of_singleton in Hq as ->. auto.
    + split; [done|]. right; right. destruct Hq as (? & a & ? & ? & ? & ? & ?).
      split_and!; [done..|]. by exists a.
Qed.

(** The inputs [derive_membership] hands to the decision. *)
Lemma derive_membership_inputs m arts ctx :
  let d := derive_membership m arts ctx in
  let mine k := of_art_kind k (in_lineage (current_lineage m arts) arts) in
  ∃ i, lifecycle d = (derive_lifecycle i ctx).1 ∧
    li_retired i = has_retirement (facts d) ∧ li_left i = has_leave (facts d) ∧
    li_known i = has_proposal (facts d) || f_bootstrap (facts d) ∧
    li_fence i = fence_of m (mine ArtifactKind.MembershipFence) ∧
    li_activation i = latest_activation (mine ArtifactKind.MembershipActivation) ∧
    li_matches i = activation_matches_identity (facts d) ∧
    li_at_epoch i = activation_at_current_epoch (facts d) ∧
    li_capabilities i = capabilities (decl_constitution (f_declaration (facts d))) ∧
    (li_matches i = true → li_admitted i = true) ∧
    (li_admitted i = true → li_known i = true ∧
       (contains (bootstrap_members ctx) m = true ∨
        ∃ p acceptance endorsers parties,
          admission_warranted m arts ctx p acceptance endorsers parties)).
Proof.
  intros d mine. subst d. unfold derive_membership.
  destruct (activation_currency _ _ _ _) as [[ae at_] ac].
  match goal with |- context [derive_lifecycle ?i ctx] => set (i0 := i) end.
  destruct (derive_lifecycle i0 ctx) as [s rs] eqn:E. exists i0. rewrite E.
  cbn [lifecycle facts has_retirement has_leave has_proposal f_bootstrap
    activation_matches_identity activation_at_current_epoch f_declaration fst].
  subst i0. cbn [li_retired li_left li_known li_fence li_activation li_matches li_at_epoch
    li_capabilities li_admitted].
  split_and!; try reflexivity; [by intros [? _]%andb_true_iff|].
  destruct (operative_proposal _) as [p|] eqn:Hp.
  - intros Hv. apply pick_Some, list_elem_of_filter in Hp as [Hsp Hp].
    split; [apply orb_true_iff; left; apply nonempty_true; eauto|].
    right. exists p. apply elem_of_mine in Hp. by eapply admit_proposal_warranted.
  - destruct (contains (bootstrap_members ctx) m); [|done].
    intros _. rewrite orb_true_r. auto.
Qed.

(** C34: no member holds any standing (admitted, active or degraded) on its own
    word: unless the genesis record founded it, an established member sponsored
    it, it consented itself to exactly the proposed constitution, enough other
    established members endorsed that same constitution, and the distinct
    parties behind the admission are at least as many as the policy asks for,
    which is never less than two. *)
Theorem membership_needs_distinct_parties (m : MemberId) (arts : list Artifact)
    (ctx : MembershipContext) :
  established_state (lifecycle (derive_membership m arts ctx)) = true →
  contains (bootstrap_members ctx) m = false →
  ∃ p acceptance endorsers parties,
    admission_warranted m arts ctx p acceptance endorsers parties ∧ 2 ≤ size parties.
Proof.
  intros Hs Hb. destruct (derive_membership_inputs m arts ctx)
    as (i & Hl & _ & _ & _ & _ & _ & _ & _ & _ & _ & Hadm).
  rewrite Hl in Hs. apply derive_lifecycle_established in Hs as (_ & _ & _ & _ & Ha).
  destruct (Hadm Ha) as [_ [?|(p & acc & es & ps & Hw)]]; [congruence|].
  exists p, acc, es, ps. split; [done|].
  pose proof (aw_parties _ _ _ _ _ _ _ Hw) as [_ Hle].
  etransitivity; [|exact Hle]. unfold required_distinct_parties. cbv zeta.
  set (v := last_value _ _ _). unfold kMaxMembers.
  destruct (N.ltb_spec v 2); [by vm_compute|]. destruct (N.ltb_spec 1024 v); lia.
Qed.

(** The exact conditions under which a member is ACTIVE. *)
Theorem member_active_iff (m : MemberId) (arts : list Artifact) (ctx : MembershipContext) :
  let d := derive_membership m arts ctx in
  let f := facts d in
  let policy := ctx_policy ctx in
  lifecycle d = MemberLifecycleState.Active ↔
  has_retirement f = false ∧ has_leave f = false ∧ unfenced m arts ∧
  (∃ a, on_record m arts ArtifactKind.MembershipActivation a) ∧
  activation_matches_identity f = true ∧ activation_at_current_epoch f = true ∧
  (reconciling ctx = true → suspend_global_mutation_while_reconciling policy = false) ∧
  (suspend_global_mutation_on_partition policy = true →
     p_state (ctx_partition ctx) ≠ PartitionState.Split ∧
     p_state (ctx_partition ctx) ≠ PartitionState.Indeterminate) ∧
  (mandatory_capabilities policy = [] ∨
   r_state (evaluate_compatibility (mandatory_capabilities policy)
              (capabilities (decl_constitution (f_declaration f)))) = CompatibilityState.Satisfied).
Proof.
  intros d f policy.
  destruct (derive_membership_inputs m arts ctx)
    as (i & Hl & Hr & Hle & Hk & Hfe & Hac & Hm & He & Hc & Hma & Hadm).
  subst d f policy. rewrite Hl, derive_lifecycle_active, degradations_nil.
  rewrite <-Hr, <-Hle, <-Hm, <-He, <-Hc, Hfe, Hac, fence_in_force_false.
  assert (latest_activation (of_art_kind ArtifactKind.MembershipActivation
            (in_lineage (current_lineage m arts) arts)) ≠ None ↔
          ∃ a, on_record m arts ArtifactKind.MembershipActivation a) as ->.
  { unfold latest_activation. rewrite pick_None, <-nonempty_false, not_false_iff_true,
      nonempty_true. by setoid_rewrite elem_of_mine. }
  split; [naive_solver|]. intros (? & ? & ? & ? & Hmt & ? & ? & ? & ?).
  destruct (Hadm (Hma Hmt)) as [Hkn _]. rewrite (Hma Hmt). by split_and!.
Qed.

Lemma derive_lifecycle_closed i ctx :
  ((derive_lifecycle i ctx).1 = MemberLifecycleState.Retired ↔ li_retired i = true) ∧
  ((derive_lifecycle i ctx).1 = MemberLifecycleState.Leaving ↔
     li_retired i = false ∧ li_left i = true).
Proof.
  unfold derive_lifecycle. destruct (li_retired i); simpl; [by split; split; intros; naive_solver|].
  destruct (li_left i); simpl; [by split; split; intros; naive_solver|].
  destruct (li_known i); simpl; [|by split; split; intros; naive_solver].
  destruct (fence_in_force _ _); [by split; split; intros; naive_solver|].
  destruct (li_admitted i); simpl; [|by split; split; intros; naive_solver].
  destruct (li_activation i); [|by split; split; intros; naive_solver].
  destruct (li_matches i); simpl;
    [|by destruct (li_generation_changed i && _); split; split; intros; naive_solver].
  destruct (li_at_epoch i); simpl; [|by split; split; intros; naive_solver].
  by destruct (bool_decide _); split; split; intros; naive_solver.
Qed.

(** A retirement or a leave notice in the current lineage ends the
    membership, and nothing else produces those two states.  The leave notice
    counts whoever issued it: the derivation does not ask, as the lineage
    computation does, that it come from the member itself. *)
Theorem closing_records_end_membership (m : MemberId) (arts : list Artifact)
    (ctx : MembershipContext) :
  let s := lifecycle (derive_membership m arts ctx) in
  (s = MemberLifecycleState.Retired ↔
     ∃ a, on_record m arts ArtifactKind.MembershipRetirement a) ∧
  (s = MemberLifecycleState.Leaving ↔
     (∃ a, on_record m arts ArtifactKind.MembershipLeave a) ∧
     ¬ ∃ a, on_record m arts ArtifactKind.MembershipRetirement a).
Proof.
  intros s. destruct (derive_membership_inputs m arts ctx) as (i & Hl & Hr & Hle & _).
  subst s. rewrite Hl.
  assert (∀ k, nonempty (of_art_kind k (in_lineage (current_lineage m arts) arts)) = true ↔
               ∃ a, on_record m arts k a) as Hne.
  { intros k. rewrite nonempty_true. by setoid_rewrite elem_of_mine. }
  assert (li_retired i = nonempty (of_art_kind ArtifactKind.MembershipRetirement
            (in_lineage (current_lineage m arts) arts)) ∧
          li_left i = nonempty (of_art_kind ArtifactKind.MembershipLeave
            (in_lineage (current_lineage m arts) arts))) as [Hr' Hl'].
  { rewrite Hr, Hle. unfold derive_membership. destruct (activation_currency _ _ _ _) as [[??]?].
    match goal with |- context [derive_lifecycle ?j ctx] => destruct (derive_lifecycle j ctx) end.
    by split. }
  destruct (derive_lifecycle_closed i ctx) as [H1 H2].
  rewrite H1, H2, <-!Hne, <-Hr', <-Hl', not_true_iff_false. tauto.
Qed.

(** ** The lineage *)

Lemma lineage_loop_spec guard leaves present lineage :
  let l := lineage_loop guard leaves present lineage in
  lineage ≤ l ∧ (∀ k, lineage ≤ k → k < l → k ∈ leaves ∧ k + 1 ∈ present) ∧
  (l = lineage + N.of_nat guard ∨ l ∉ leaves ∨ l + 1 ∉ present).
Proof.
  revert lineage. induction guard as [|guard IH]; intros lineage; simpl.
  { split_and!; [lia|lia|left; lia]. }
  case_bool_decide as Hl; simpl; [|split_and!; [lia|lia|by right; left]].
  case_bool_decide as Hp; simpl; [|split_and!; [lia|lia|by right; right]].
  destruct (IH (lineage + 1)) as (Hle & Hall & Hend). split_and!; [lia| |].
  - intros k Hk Hlt. destruct (N.eq_dec k lineage) as [->|Hne]; [done|]. apply Hall; lia.
  - destruct Hend as [->|?]; [left; lia|by right].
Qed.

(** The loop over lineages ends by its own test, never by its guard, and
    finds the one lineage all of whose predecessors the member itself closed
    with a leave notice and followed by a later one; so a third party cannot
    move a member to another lineage. *)
Theorem current_lineage_exact (m : MemberId) (arts : list Artifact) (l : N) :
  l = current_lineage m arts ↔
  (∀ k, k < l →
     (∃ a, a ∈ arts ∧ art_kind (envelope a) = ArtifactKind.MembershipLeave ∧ art_issuer a = m ∧
           art_lineage a = k) ∧
     ∃ a, a ∈ arts ∧ art_lineage a = k + 1) ∧
  ¬ ((∃ a, a ∈ arts ∧ art_kind (envelope a) = ArtifactKind.MembershipLeave ∧ art_issuer a = m ∧
           art_lineage a = l) ∧
     ∃ a, a ∈ arts ∧ art_lineage a = l + 1).
Proof.
  assert (∀ k, (∃ a, a ∈ arts ∧ art_kind (envelope a) = ArtifactKind.MembershipLeave ∧
                     art_issuer a = m ∧ art_lineage a = k) ↔ k ∈ leave_lineages m arts) as Hleave.
  { intros k. unfold leave_lineages, is_kind. rewrite list_elem_of_fmap.
    setoid_rewrite list_elem_of_filter. setoid_rewrite bool_decide_eq_true. naive_solver. }
  assert (∀ k, (∃ a, a ∈ arts ∧ art_lineage a = k) ↔ k ∈ present_lineages arts) as Hpresent.
  { intros k. unfold present_lineages. rewrite list_elem_of_fmap. naive_solver. }
  setoid_rewrite Hleave. setoid_rewrite Hpresent.
  destruct (lineage_loop_spec (length arts + 1) (leave_lineages m arts) (present_lineages arts) 0)
    as (_ & Hall & Hend). fold (current_lineage m arts) in *.
  set (c := current_lineage m arts) in *. clearbody c.
  assert (¬ (c ∈ leave_lineages m arts ∧ c + 1 ∈ present_lineages arts)) as Hstop.
  { destruct Hend as [Hg|Hstop]; [|tauto]. intros _.
    assert ((λ i, N.of_nat i + 1) <$> seq 0 (length arts + 1) ⊆+ present_lineages arts) as Hsub.
    { apply NoDup_submseteq.
      - apply NoDup_fmap_2_strong; [intros; lia|apply NoDup_seq].
      - intros k (i & -> & Hi)%list_elem_of_fmap. apply elem_of_seq in Hi.
        apply Hall; lia. }
    apply submseteq_length in Hsub. unfold present_lineages in Hsub.
    rewrite !length_fmap, length_seq in Hsub. lia. }
  split.
  - intros ->. split; [|done]. intros k Hk. apply Hall; lia.
  - intros [Hl Hnl]. destruct (N.lt_trichotomy l c) as [Hlt|[?|Hgt]]; [|done|].
    + destruct Hnl. apply Hall; lia.
    + destruct Hstop. by apply Hl.
Qed.

(** A record that is no leave notice and does not open a lineage leaves the lineage
    as it is. *)
Lemma current_lineage_without m l g k :
  art_kind (envelope g) ≠ ArtifactKind.MembershipLeave →
  (art_lineage g = 0 ∨ ∃ a, a ∈ l ++ k ∧ art_lineage a = art_lineage g) →
  current_lineage m (l ++ k) = current_lineage m (l ++ g :: k).
Proof.
  intros Hkind Hopen. apply current_lineage_exact.
  assert (∀ a, a ∈ l ++ g :: k ↔ a = g ∨ a ∈ l ++ k) as Hin
    by (intros a; rewrite !elem_of_app, elem_of_cons; tauto).
  assert (∀ i, (∃ a, a ∈ l ++ g :: k ∧ art_kind (envelope a) = ArtifactKind.MembershipLeave ∧
      art_issuer a = m ∧ art_lineage a = i) ↔
    ∃ a, a ∈ l ++ k ∧ art_kind (envelope a) = ArtifactKind.MembershipLeave ∧
      art_issuer a = m ∧ art_lineage a = i) as Hleave
    by (intros i; setoid_rewrite Hin; naive_solver).
  assert (∀ i, (∃ a, a ∈ l ++ g :: k ∧ art_lineage a = i + 1) ↔
    ∃ a, a ∈ l ++ k ∧ art_lineage a = i + 1) as Hpresent.
  { intros i. setoid_rewrite Hin. split; [|naive_solver].
    intros (a & [->|Ha] & Hl); [|eauto]. destruct Hopen as [?|(b & Hb & Hbl)]; [lia|].
    exists b. by rewrite Hbl. }
  setoid_rewrite Hleave. setoid_rewrite Hpresent.
  by apply current_lineage_exact.
Qed.

(** A record of another kind is not among the records of a kind. *)
Lemma of_art_kind_without k lineage l g r :
  art_kind (envelope g) ≠ k →
  of_art_kind k (in_lineage lineage (l ++ g :: r)) = of_art_kind k (in_lineage lineage (l ++ r)).
Proof.
  intros Hk. unfold of_art_kind, in_lineage. rewrite !filter_app, filter_cons.
  destruct (decide _); [|done]. rewrite filter_cons_False; [done|].
  unfold is_kind. by rewrite bool_decide_eq_true.
Qed.

(** A fence that is not accepted is not among the fences that count. *)
Lemma fence_of_without m lineage l g r :
  fence_accepted m g = false →
  fence_of m (of_art_kind ArtifactKind.MembershipFence (in_lineage lineage (l ++ g :: r))) =
  fence_of m (of_art_kind ArtifactKind.MembershipFence (in_lineage lineage (l ++ r))).
Proof.
  intros Hg. unfold fence_of, of_art_kind, in_lineage. f_equal.
  rewrite !filter_app, filter_cons. destruct (decide _); [|done].
  rewrite filter_cons. destruct (decide _); [|done].
  rewrite filter_cons_False; [done|congruence].
Qed.

Lemma superseded_without l g r lineage :
  art_lineage g = lineage →
  superseded_reasons lineage (l ++ g :: r) = superseded_reasons lineage (l ++ r).
Proof.
  intros Hg. unfold superseded_reasons. by rewrite !filter_app, filter_cons_False by tauto.
Qed.

(** Everything that is derived of a member but for the flag that a fence is on record. *)
Definition conclusions (d : MembershipDerivation) :=
  let f := facts d in
  (lifecycle d, retained_local_authority d,
   (has_proposal f, has_acceptance f, has_admission f, has_activation f, has_leave f,
    has_retirement f, has_reattestation f, f_bootstrap f),
   (acceptance_matches_declaration f, activation_matches_identity f,
    activation_at_current_epoch f, generation_changed_since_admission f),
   (f_lineage f, endorsement_count f, f_distinct_parties f, f_endorsers f),
   (f_declaration f, current_identity f, admitted_identity f),
   (f_delegated_terms f, f_withdrawn_grants f, f_contributions f, f_reasons f, f_conflicts f,
    rejected_kinds f),
   (activation_epoch f, activation_tick f, admitted_epoch f, fence_epoch f,
    superseded_incarnations f, f_fence_reason f, admission_digest f, f_evidence f)).

Lemma foreign_fence_ignored m l g r ctx :
  on_record m (l ++ g :: r) ArtifactKind.MembershipFence g →
  (art_lineage g = 0 ∨ ∃ a, a ∈ l ++ r ∧ art_lineage a = art_lineage g) →
  fence_accepted m g = false →
  conclusions (derive_membership m (l ++ g :: r) ctx) = conclusions (derive_membership m (l ++ r) ctx).
Proof.
  intros (_ & Hl & Hk) Hopen Hg. unfold derive_membership.
  rewrite (current_lineage_without m l g r) by (done || by rewrite Hk).
  rewrite fence_of_without, superseded_without by done.
  repeat match goal with |- context [of_art_kind ?k (in_lineage ?n (l ++ g :: r))] =>
    rewrite (of_art_kind_without k n l g r) by (rewrite Hk; discriminate) end.
  destruct (activation_currency _ _ _ _) as [[??]?].
  by destruct (derive_lifecycle _ _).
Qed.

(** C35: a fence is sticky, and only those who may fence can: while a fence from the
    member itself or from the coordinator is on record and no activation of the lineage
    has a strictly later epoch, the member holds no standing (and so no federation
    authority), whatever else is on record and in whatever order; and a fence that any
    other member issued changes nothing: without it the same is derived of the member,
    lifecycle, identity, grants, reasons and all, but for the flag that a fence is on
    record (given that it is not the only record of a later lineage). *)
Theorem fence_is_sticky (m : MemberId) (arts : list Artifact) (ctx : MembershipContext)
    (f : Artifact) (Hf : on_record m arts ArtifactKind.MembershipFence f) :
  (art_issuer f = m ∨ art_issuer f = nil_id →
   (∀ a, on_record m arts ArtifactKind.MembershipActivation a →
         value (body_epoch (body a)) ≤ value (body_epoch (body f))) →
   established_state (lifecycle (derive_membership m arts ctx)) = false) ∧
  (art_issuer f ≠ m → art_issuer f ≠ nil_id → ∀ l r, arts = l ++ f :: r →
   (art_lineage f = 0 ∨ ∃ a, a ∈ l ++ r ∧ art_lineage a = art_lineage f) →
   conclusions (derive_membership m arts ctx) =
     conclusions (derive_membership m (l ++ r) ctx)).
Proof.
  split.
  - intros Hiss Hall. apply not_true_iff_false. intros Hs.
    destruct (derive_membership_inputs m arts ctx) as (i & Hl & _ & _ & _ & Hfe & Hac & _).
    rewrite Hl in Hs. apply derive_lifecycle_established in Hs as (_ & _ & _ & Hforce & _).
    rewrite Hfe, Hac in Hforce. apply fence_in_force_false in Hforce.
    destruct (Hforce f Hf Hiss) as (a & Ha & Hlt). specialize (Hall a Ha). lia.
  - intros Hm Hn l r -> Hopen. apply foreign_fence_ignored; [done..|].
    unfold fence_accepted. by rewrite !bool_decide_eq_false_2.
Qed.

(** ** Examples *)

(** A record of member [s] issued by member [i] (the coordinator when [None])
    that carries [s]'s declaration and an epoch. *)
Definition example_declaration (s : byte) : MemberDeclaration :=
  mkDeclaration (mkConstitution (mkId (replicate 16 s)) (example_member s) (mkCounter 1) 1 0 0
    [] [] [] [] "") (mkCounter 1) (mkId (replicate 16 s)) (mkCounter 1).
Definition example_record (k : ArtifactKind.t) (i : option byte) (s e : byte) (epoch : N) :
    Artifact :=
  let d := example_declaration s in
  mkArtifact
    (mkEnvelope (mkId (replicate 16 e)) k nil_id (example_member s)
       (mkProvenance (mkId (replicate 16 x09)) (from_option example_member nil_id i)
          (mkCounter 1) (mkCounter 1) Digest_zero (mkCounter epoch) (mkCounter 1)) Digest_zero)
    (mkBody d (declaration_identity d) no_genesis no_policy (mkCounter epoch) zero Digest_zero
       zero [] 0 0 [] [] nil_id no_identity [] zero zero zero zero [] [] Outcome.Unknown
       (wire ReasonCode.EvidenceUnknown) (wire ReasonCode.EvidenceUnknown) "" zero).
Definition example_context : MembershipContext :=
  mkContext nil_id (mkCounter 1) (mkCounter 1) default_policy []
    (mkAssessment PartitionState.Connected [] [] [] [] [] EvidenceState.Known "") false
    [example_member x01] [example_member x01] [example_declaration x01].

Lemma membership_needs_distinct_parties_witness :
  let m := example_member x02 in
  let arts := [example_record ArtifactKind.MembershipProposal (Some x01) x02 x0a 1;
               example_record ArtifactKind.MembershipAcceptance (Some x02) x02 x0b 1] in
  ∃ p acceptance endorsers parties,
    admission_warranted m arts example_context p acceptance endorsers parties ∧
    2 ≤ size parties.
Proof.
  intros m arts.
  apply (membership_needs_distinct_parties m arts example_context); vm_compute; reflexivity.
Defined.

Lemma fence_is_sticky_witness :
  let m := example_member x02 in
  let f := example_record ArtifactKind.MembershipFence None x02 x0c 4 in
  let g := example_record ArtifactKind.MembershipFence (Some x03) x02 x0e 9 in
  let arts := [f; example_record ArtifactKind.MembershipProposal (Some x01) x02 x0a 1;
               example_record ArtifactKind.MembershipAcceptance (Some x02) x02 x0b 1;
               example_record ArtifactKind.MembershipActivation None x02 x0d 4] in
  established_state (lifecycle (derive_membership m arts example_context)) = false ∧
  conclusions (derive_membership m (g :: tail arts) example_context) =
    conclusions (derive_membership m (tail arts) example_context) ∧
  established_state (lifecycle (derive_membership m (g :: tail arts) example_context)) = true.
Proof.
  intros m f g arts. split; [|split].
  - apply (fence_is_sticky m arts example_context f).
    + split_and!; [by left|by vm_compute|done].
    + by right.
    + assert (forallb (λ a, value (body_epoch (body a)) <=? value (body_epoch (body f))) arts = true)
        as Hall by by vm_compute.
      rewrite forallb_forall in Hall. intros a (Ha & _ & _).
      apply N.leb_le, Hall. by apply list_elem_of_In.
  - assert (on_record m (g :: tail arts) ArtifactKind.MembershipFence g) as Hg
      by (split_and!; [by left|by vm_compute|done]).
    apply (proj2 (fence_is_sticky m (g :: tail arts) example_context g Hg)
      ltac:(intros H; discriminate H) ltac:(intros H; discriminate H) [] (tail arts) eq_refl).
    left. vm_compute. reflexivity.
  - by vm_compute.
Defined.
