(* ===== verification/Journal.v ===== *)
(** * The journal

    Models include/fabric_federation/journal.hpp and src/journal.cpp: the file
    format, the recovery scan, appending and loading.  The file is the list of
    its bytes; which calls of the operating system fail is an argument. *)

From S2P Require Import Prelude Errors Sha256 Text Codec.

Module JournalRecordType.
Inductive t :=
  | FederationIdentity | FederationGenesis | Policy | Artifact | Lease
  | LeaseRevocation | RequestDecision | PartitionObservation | TickHighWater
  | CoordinatorIncarnation | EpochState.

(** The underlying integer of the enumerator. *)
Definition value (x : t) : N :=
  match x with
  | FederationIdentity => 1
  | FederationGenesis => 2
  | Policy => 3
  | Artifact => 4
  | Lease => 5
  | LeaseRevocation => 6
  | RequestDecision => 7
  | PartitionObservation => 8
  | TickHighWater => 9
  | CoordinatorIncarnation => 10
  | EpochState => 11
  end.

(** The enumerators in the order of their values. *)
Definition all : list t :=
  [FederationIdentity; FederationGenesis; Policy; Artifact; Lease; LeaseRevocation;
   RequestDecision; PartitionObservation; TickHighWater; CoordinatorIncarnation;
   EpochState].

Definition to_string (x : t) : string :=
  match x with
  | FederationIdentity => "federation-identity"
  | FederationGenesis => "federation-genesis"
  | Policy => "policy"
  | Artifact => "artifact"
  | Lease => "lease"
  | LeaseRevocation => "lease-revocation"
  | RequestDecision => "request-decision"
  | PartitionObservation => "partition-observation"
  | TickHighWater => "tick-high-water"
  | CoordinatorIncarnation => "coordinator-incarnation"
  | EpochState => "epoch-state"
  end.

End JournalRecordType.

Module RecoveryOutcome.
Inductive t :=
  | Clean | TornTailRecovered | CorruptRecord | UnsupportedRecord | InvalidHeader
  | Empty | BoundsExceeded.

(** The underlying integer of the enumerator. *)
Definition value (x : t) : N :=
  match x with
  | Clean => 0
  | TornTailRecovered => 1
  | CorruptRecord => 2
  | UnsupportedRecord => 3
  | InvalidHeader => 4
  | Empty => 5
  | BoundsExceeded => 6
  end.

(** The enumerators in the order of their values. *)
Definition all : list t :=
  [Clean; TornTailRecovered; CorruptRecord; UnsupportedRecord; InvalidHeader; Empty;
   BoundsExceeded].

Definition to_string (x : t) : string :=
  match x with
  | Clean => "CLEAN"
  | TornTailRecovered => "TORN_TAIL_RECOVERED"
  | CorruptRecord => "CORRUPT_RECORD"
  | UnsupportedRecord => "UNSUPPORTED_RECORD"
  | InvalidHeader => "INVALID_HEADER"
  | Empty => "EMPTY"
  | BoundsExceeded => "BOUNDS_EXCEEDED"
  end.

#[global] Instance enum : WireEnum t.
Proof. refine {| wire := value; enum_all := all |}. by intros []. Defined.
End RecoveryOutcome.

(** The range check and cast of a stored type. *)
Definition record_type_of (v : N) : option JournalRecordType.t :=
  List.find (λ t, JournalRecordType.value t =? v) JournalRecordType.all.
Definition parse_journal_record_type (text : string) : option JournalRecordType.t :=
  List.find (λ t, bool_decide (JournalRecordType.to_string t = text)) JournalRecordType.all.

(** ** Data *)

Record RecoveryDiagnostic := mkDiagnostic {
  rd_outcome : RecoveryOutcome.t;
  rd_offset : N;
  rd_detail : string
}.
Record JournalRecovery := mkRecovery {
  rv_outcome : RecoveryOutcome.t;
  good_bytes : N;
  file_bytes : N;
  record_count : N;
  rv_writable : bool;
  rv_detail : string;
  diagnostics : list RecoveryDiagnostic
}.
Record JournalOptions := mkOptions {
  max_bytes : N;
  max_records : N;
  max_payload_bytes : N;
  truncate_torn_tail : bool
}.
Definition default_options : JournalOptions :=
  mkOptions kMaxJournalBytes (kMaxArtifacts * 4) kMaxJournalRecordBytes true.

(** [rec_type] is the raw 16-bit value: [load] casts it without a check, since
    the scan has made one. *)
Record JournalRecord := mkRecord {
  rec_type : N;
  sequence : N;
  payload : list byte
}.
Definition payload_digest (r : JournalRecord) : Digest := hash (payload r).

(** An open journal together with the bytes of its file. *)
Record Journal := mkJournal {
  is_open : bool;
  file : list byte;
  options : JournalOptions;
  recovery : JournalRecovery;
  size_bytes : N;
  next_sequence : N
}.
Definition journal_writable (j : Journal) : bool := is_open j && rv_writable (recovery j).

Inductive JournalOpenMode := ReadOnlyExisting | OpenOrCreateReadWrite | CreateTruncating.

(** ** The file

    Every call of the operating system may fail; which ones do is an argument
    of the operations below.  A failed write may have written some bytes. *)

Definition slice (l : list byte) (offset count : N) : list byte :=
  firstn (N.to_nat count) (skipn (N.to_nat offset) l).
Definition overwrite (l : list byte) (offset : N) (data : list byte) : list byte :=
  let o := N.to_nat offset in
  firstn o (l ++ replicate (o - length l) x00) ++ data ++ skipn (o + length data) l.
Definition Fault : Type := option string.
(** [Some (k, e)]: [k] bytes reached the file before error [e]. *)
Definition WriteFault : Type := option (nat * string).
Definition write_at (w : WriteFault) (l : list byte) (offset : N) (data : list byte) :
    list byte * Fault :=
  match w with
  | None => (overwrite l offset data, None)
  | Some (k, e) => (overwrite l offset (firstn k data), Some e)
  end.

(** ** The format *)

Definition kMagic : list byte := bytes_of "FFEDJRNL".
Definition kJournalFormatVersion : N := 1.
Definition kRecordVersion : N := 1.
Definition kRecordTrailerMagicValue : N := 0x4a4e4452.
Definition kJournalHeaderBytes : N := 48.
Definition kJournalRecordHeaderBytes : N := 16.

Definition header_prefix : list byte := kMagic ++ store_le 4 kJournalFormatVersion ++ store_le 4 0.
Definition make_header_bytes : list byte := header_prefix ++ digest_bytes (hash header_prefix).

(** The two 16-bit fields are copied with [memcpy] from native integers; the
    supported hosts are little-endian. *)
Definition record_prefix (r : JournalRecord) : list byte :=
  store_le 4 (size (payload r) mod 2 ^ 32) ++ store_le 2 (rec_type r) ++
  store_le 2 kRecordVersion ++ store_le 8 (sequence r) ++ payload r.
Definition make_record_bytes (r : JournalRecord) : list byte :=
  record_prefix r ++ digest_bytes (hash (record_prefix r)) ++ store_le 4 kRecordTrailerMagicValue.

(** ** Opening: header and record scan *)

Record Scan := mkScan {
  sc_offset : N;
  sc_records : N;
  sc_previous : N;
  sc_outcome : RecoveryOutcome.t;
  sc_writable : bool;
  sc_detail : string;
  sc_diagnostics : list RecoveryDiagnostic
}.

(** [break] with its diagnostic. *)
Definition scan_stop (s : Scan) (o : RecoveryOutcome.t) (keep_writable : bool) (d : string) : Scan :=
  mkScan (sc_offset s) (sc_records s) (sc_previous s) o (sc_writable s && keep_writable) d
    (sc_diagnostics s ++ [mkDiagnostic o (sc_offset s) d]).

(** One iteration of the loop: [inl] leaves it. *)
Definition scan_step (l : list byte) (opt : JournalOptions) (s : Scan) : Scan + Scan :=
  let offset := sc_offset s in
  let left := size l - offset in
  if max_records opt <=? sc_records s then
    inl (scan_stop s RecoveryOutcome.BoundsExceeded false
           "journal holds more records than the configured bound")
  else if left <? kJournalRecordHeaderBytes then
    inl (scan_stop s RecoveryOutcome.TornTailRecovered true
           "trailing bytes are shorter than a record header")
  else
  let payload_length := load_le 4 (slice l offset 4) in
  if max_payload_bytes opt <? payload_length then
    inl (scan_stop s RecoveryOutcome.BoundsExceeded false
           "record declares a payload larger than the configured bound")
  else
  let total := payload_length + kJournalRecordHeaderBytes + 32 + 4 in
  if left <? total then
    inl (scan_stop s RecoveryOutcome.TornTailRecovered true "final record is incomplete")
  else
  let bytes := slice l offset total in
  let digest_offset := kJournalRecordHeaderBytes + payload_length in
  if negb (load_le 4 (slice bytes (digest_offset + 32) 4) =? kRecordTrailerMagicValue) then
    inl (scan_stop s RecoveryOutcome.CorruptRecord false "record trailer magic does not match")
  else if negb (bool_decide (mkDigest (slice bytes digest_offset 32) =
                             hash (slice bytes 0 digest_offset))) then
    inl (scan_stop s RecoveryOutcome.CorruptRecord false
           "record digest does not match its content")
  else
  let type_value := load_le 2 (slice bytes 4 2) in
  if (type_value <? JournalRecordType.value JournalRecordType.FederationIdentity) ||
     (JournalRecordType.value JournalRecordType.EpochState <? type_value) then
    inl (scan_stop s RecoveryOutcome.UnsupportedRecord false
           "record type is not implemented by this build")
  else
  let version := load_le 2 (slice bytes 6 2) in
  if kRecordVersion <? version then
    inl (scan_stop s RecoveryOutcome.UnsupportedRecord false
           ("record version " +s+ to_dec version +s+ " is newer than this build implements"))
  else
  let seq := load_le 8 (slice bytes 8 8) in
  if negb (sc_records s =? 0) && (seq <=? sc_previous s) then
    inl (scan_stop s RecoveryOutcome.CorruptRecord false
           "record sequence is not strictly increasing")
  else
    inr (mkScan (offset + total) (sc_records s + 1) seq RecoveryOutcome.Clean (sc_writable s)
           "all records verified" (sc_diagnostics s)).

(** [while (offset < file_size)].  Every record takes at least 52 bytes, so the
    size of the file is fuel enough. *)
Fixpoint scan_loop (fuel : nat) (l : list byte) (opt : JournalOptions) (s : Scan) : Scan :=
  match fuel with
  | O => s
  | S fuel =>
      if sc_offset s <? size l then
        match scan_step l opt s with
        | inl s => s
        | inr s => scan_loop fuel l opt s
        end
      else s
  end.
Definition scan_file (l : list byte) (opt : JournalOptions) (read_only : bool) : Scan :=
  scan_loop (length l) l opt
    (mkScan kJournalHeaderBytes 0 0 RecoveryOutcome.Empty (negb read_only) "no records" []).

(** The calls of [open] that may fail: opening the file, reading its size,
    writing a fresh header, discarding a torn tail (the flag: whether the file
    was truncated before the failure). *)
Record OpenFaults := mkOpenFaults {
  of_open : Fault;
  of_size : Fault;
  of_header : Fault;
  of_truncate : option (bool * string)
}.
Definition no_faults : OpenFaults := mkOpenFaults None None None None.

Definition unreadable (l : list byte) (opt : JournalOptions) (o : RecoveryOutcome.t) (at_ : N)
    (d : string) : Journal :=
  mkJournal true l opt (mkRecovery o 0 (size l) 0 false d [mkDiagnostic o at_ d]) 0 1.

Definition journal_scanned (f : OpenFaults) (l : list byte) (opt : JournalOptions)
    (read_only : bool) : Journal :=
  let s := scan_file l opt read_only in
  let good := sc_offset s in
  let next := (sc_previous s + 1) mod 2 ^ 64 in
  let recovered writable detail :=
    mkRecovery (sc_outcome s) good (size l) (sc_records s) writable detail (sc_diagnostics s) in
  let d := sc_detail s in
  if bool_decide (sc_outcome s = RecoveryOutcome.TornTailRecovered) then
    if sc_writable s && truncate_torn_tail opt then
      match of_truncate f with
      | None =>
          mkJournal true (firstn (N.to_nat good) l) opt
            (recovered true (d +s+ "; the incomplete tail was discarded")) good next
      | Some (truncated, e) =>
          mkJournal true (if truncated : bool then firstn (N.to_nat good) l else l) opt
            (recovered false (d +s+ "; the tail could not be discarded: " +s+ e)) (size l) next
      end
    else mkJournal true l opt
           (recovered false (d +s+ "; automatic truncation is disabled")) (size l) next
  else mkJournal true l opt (recovered (sc_writable s) d) (size l) next.

Definition journal_open (f : OpenFaults) (l : list byte) (mode : JournalOpenMode)
    (opt : JournalOptions) : Result Journal :=
  let read_only := match mode with ReadOnlyExisting => true | _ => false end in
  let truncate_existing := match mode with CreateTruncating => true | _ => false end in
  match of_open f with
  | Some e => fail (if read_only : bool then ErrorCode.NotFound else ErrorCode.IoError)
                   ("journal cannot be opened: " +s+ e)
  | None =>
  (* [CREATE_ALWAYS] and [O_TRUNC] empty the file before its size is read. *)
  let l := if truncate_existing : bool then [] else l in
  match of_size f with
  | Some e => fail ErrorCode.IoError ("journal size cannot be read: " +s+ e)
  | None =>
  if truncate_existing || (size l =? 0) then
    match of_header f with
    | Some e => fail ErrorCode.IoError ("journal header cannot be written: " +s+ e)
    | None =>
        Ok (mkJournal true make_header_bytes opt
              (mkRecovery RecoveryOutcome.Empty kJournalHeaderBytes (size l) 0 (negb read_only)
                 "fresh journal" []) kJournalHeaderBytes 1)
    end
  else if size l <? kJournalHeaderBytes then
    Ok (unreadable l opt RecoveryOutcome.InvalidHeader 0
          "file is shorter than the journal header")
  else if negb (bool_decide (slice l 0 8 = kMagic) &&
                bool_decide (mkDigest (slice l 16 32) = hash (slice l 0 16))) then
    Ok (unreadable l opt RecoveryOutcome.InvalidHeader 0
          "journal header magic or digest does not match")
  else
  let version := load_le 4 (slice l 8 4) in
  if negb (version =? kJournalFormatVersion) then
    Ok (unreadable l opt RecoveryOutcome.UnsupportedRecord 8
          ("journal format version " +s+ to_dec version +s+ " is not implemented by this build"))
  else Ok (journal_scanned f l opt read_only)
  end end.

(** ** Appending, loading, closing *)

(** The bound is checked before anything is written.  The sequence is advanced
    after the record reached the file, so a journal whose sequence is exhausted
    reports the overflow for a record that was stored. *)
Definition append (w : WriteFault) (flush : Fault) (j : Journal) (t : JournalRecordType.t)
    (data : list byte) : Journal * Result unit :=
  if negb (is_open j) then (j, fail ErrorCode.NotInitialized "journal is not open")
  else if negb (rv_writable (recovery j)) then
    (j, fail ErrorCode.Refused ("journal is not writable: " +s+ rv_detail (recovery j)))
  else if max_payload_bytes (options j) <? size data then
    (j, fail ErrorCode.BoundsExceeded "record payload exceeds the configured bound")
  else
  let bytes := make_record_bytes (mkRecord (JournalRecordType.value t) (next_sequence j) data) in
  match checked_add_u64 (size_bytes j) (size bytes) with
  | Some total =>
      if max_bytes (options j) <? total then
        (j, fail ErrorCode.CapacityExceeded
           "appending would exceed the configured journal size bound; compact the journal before writing more")
      else
      let '(l, failed) := write_at w (file j) (size_bytes j) bytes in
      let j' := mkJournal true l (options j) (recovery j) (size_bytes j) (next_sequence j) in
      match failed with
      | Some e => (j', fail ErrorCode.IoError ("journal append failed: " +s+ e))
      | None =>
      match flush with
      | Some e => (j', fail ErrorCode.IoError ("journal flush failed: " +s+ e))
      | None =>
      match checked_inc_u64 (next_sequence j) with
      | None => (mkJournal true l (options j) (recovery j) total (next_sequence j),
                 fail ErrorCode.Overflow "journal sequence is exhausted")
      | Some next => (mkJournal true l (options j) (recovery j) total next, Ok tt)
      end end end
  | None =>
      (j, fail ErrorCode.CapacityExceeded
         "appending would exceed the configured journal size bound; compact the journal before writing more")
  end.

(** The loop of [load] over the recovered prefix. *)
Fixpoint load_loop (fuel : nat) (l : list byte) (limit max_records max_payload : N) (offset : N)
    (records : list JournalRecord) : Result (list JournalRecord) :=
  match fuel with
  | O => Ok records
  | S fuel =>
  if offset <? limit then
    fail_if (max_records <=? size records) ErrorCode.BoundsExceeded
            "journal holds more records than the bound";;
    fail_if (size l <? offset + kJournalRecordHeaderBytes) ErrorCode.IoError
            "journal record header cannot be read: unexpected end of file";;
    let payload_length := load_le 4 (slice l offset 4) in
    fail_if (max_payload <? payload_length) ErrorCode.BoundsExceeded
            "record payload exceeds the load bound";;
    let total := payload_length + kJournalRecordHeaderBytes + 32 + 4 in
    fail_if (limit - offset <? total) ErrorCode.Truncated
            "journal record extends past the recovered prefix";;
    fail_if (size l <? offset + total) ErrorCode.IoError
            "journal record cannot be read: unexpected end of file";;
    let bytes := slice l offset total in
    load_loop fuel l limit max_records max_payload (offset + total)
      (records ++ [mkRecord (load_le 2 (slice bytes 4 2)) (load_le 8 (slice bytes 8 8))
                     (slice bytes kJournalRecordHeaderBytes payload_length)])
  else Ok records
  end.
Definition load (j : Journal) (max_records max_payload : N) : Result (list JournalRecord) :=
  if negb (is_open j) then fail ErrorCode.NotInitialized "journal is not open"
  else load_loop (length (file j)) (file j) (good_bytes (recovery j)) max_records max_payload
         kJournalHeaderBytes [].

Definition flush_journal (f : Fault) (j : Journal) : Result unit :=
  fail_if (negb (is_open j)) ErrorCode.NotInitialized "journal is not open";;
  match f with
  | Some e => fail ErrorCode.IoError ("journal flush failed: " +s+ e)
  | None => Ok tt
  end.
Definition close_journal (f : Fault) (j : Journal) : Journal * Result unit :=
  if negb (is_open j) then (j, Ok tt)
  else (mkJournal false (file j) (options j) (recovery j) (size_bytes j) (next_sequence j),
        match f with
        | Some e => fail ErrorCode.IoError ("journal flush on close failed: " +s+ e)
        | None => Ok tt
        end).

(** Which calls of [compact] fail.  A partial write of the temporary file does
    not matter, since the file is removed; [replace_file] replaces the whole file
    or fails. *)
Record CompactFaults := mkCompactFaults {
  cf_create : Fault;
  cf_header : Fault;
  cf_write : nat → Fault;
  cf_flush : Fault;
  cf_replace : Fault;
  cf_reopen : OpenFaults
}.
Fixpoint compact_records (write : nat → Fault) (opt : JournalOptions) (rs : list JournalRecord)
    (i : nat) (offset sequence : N) (out : list byte) : string + list byte :=
  match rs with
  | [] => inr out
  | r :: rs =>
      let bytes := make_record_bytes (mkRecord (rec_type r) sequence (payload r)) in
      match checked_add_u64 offset (size bytes) with
      | None => inl "compacted journal would exceed the configured size bound"
      | Some projected =>
          if max_bytes opt <? projected then
            inl "compacted journal would exceed the configured size bound"
          else
          match write i with
          | Some e => inl e
          | None => compact_records write opt rs (S i) (offset + size bytes)
                      ((sequence + 1) mod 2 ^ 64) (out ++ bytes)
          end
      end
  end.
Definition compact (cf : CompactFaults) (j : Journal) (rs : list JournalRecord) :
    Journal * Result unit :=
  if negb (is_open j) then (j, fail ErrorCode.NotInitialized "journal is not open")
  else if max_records (options j) <? size rs then
    (j, fail ErrorCode.BoundsExceeded "compacted journal would exceed the record bound")
  else
  match cf_create cf with
  | Some e => (j, fail ErrorCode.IoError ("compaction target cannot be created: " +s+ e))
  | None =>
  let written :=
    match cf_header cf with
    | Some e => inl e
    | None =>
        match compact_records (cf_write cf) (options j) rs 0 kJournalHeaderBytes 1 make_header_bytes with
        | inl e => inl e
        | inr out => match cf_flush cf with Some e => inl e | None => inr out end
        end
    end in
  match written with
  | inl e => (j, fail ErrorCode.IoError ("journal compaction failed: " +s+ e))
  | inr out =>
      let released l :=
        mkJournal false l (options j) (recovery j) (size_bytes j) (next_sequence j) in
      match cf_replace cf with
      | Some e => (released (file j), fail ErrorCode.IoError
                     ("compacted journal cannot replace the original: " +s+ e))
      | None =>
          match journal_open (cf_reopen cf) out OpenOrCreateReadWrite (options j) with
          | Ok j' => (j', Ok tt)
          | Err s => (released out, Err s)
          end
      end
  end end.

(** ** Slices *)

Lemma slice_app_skip a b o n : o = size a → slice (a ++ b) o n = slice b 0 n.
Proof.
  intros ->. unfold slice, size. rewrite Nat2N.id, drop_app_length. done.
Qed.
Lemma slice_app_take a b o n : o + n ≤ size a → slice (a ++ b) o n = slice a o n.
Proof.
  intros Hle. unfold slice, size in *.
  rewrite skipn_app, firstn_app, length_skipn.
  replace (N.to_nat n - (length a - N.to_nat o))%nat with 0%nat by lia.
  by rewrite firstn_O, app_nil_r.
Qed.
Lemma slice_whole a b n : n = size a → slice (a ++ b) 0 n = a.
Proof.
  intros ->. unfold slice, size. rewrite Nat2N.id. simpl. apply take_app_length.
Qed.
Lemma slice_mid a b c o n : o = size a → n = size b → slice (a ++ b ++ c) o n = b.
Proof. intros -> ->. rewrite slice_app_skip by done. by rewrite slice_whole. Qed.
Lemma size_store_le k v : size (store_le k v) = N.of_nat k.
Proof. unfold size. by rewrite length_store_le. Qed.
Lemma size_hash l : size (digest_bytes (hash l)) = 32.
Proof. unfold size. by rewrite length_hash. Qed.
Lemma load_store k v : v < 2 ^ (8 * N.of_nat k) → load_le k (store_le k v) = v.
Proof. intros Hv. by rewrite load_le_store, N.mod_small. Qed.

(** ** The frame of a record *)

#[global] Arguments record_prefix : simpl never.
#[global] Arguments make_record_bytes : simpl never.

(** What a record must satisfy to be stored and read back. *)
Record record_fits (opt : JournalOptions) (r : JournalRecord) : Prop := {
  fits_payload : size (payload r) ≤ max_payload_bytes opt;
  fits_length : size (payload r) < 2 ^ 32;
  fits_type : 1 ≤ rec_type r ∧ rec_type r ≤ 11;
  fits_sequence : sequence r < 2 ^ 64
}.

Lemma size_record_prefix r : size (record_prefix r) = 16 + size (payload r).
Proof. unfold record_prefix. rewrite !size_app, !size_store_le. lia. Qed.
Lemma size_record r : size (make_record_bytes r) = size (payload r) + 52.
Proof.
  unfold make_record_bytes. rewrite !size_app, size_record_prefix, size_hash, size_store_le. lia.
Qed.

Section frame.
Context (opt : JournalOptions) (r : JournalRecord) (Hfit : record_fits opt r) (rest : list byte).

Lemma frame_length : load_le 4 (slice (make_record_bytes r ++ rest) 0 4) = size (payload r).
Proof.
  unfold make_record_bytes, record_prefix. rewrite <-!app_assoc, slice_whole by by rewrite size_store_le.
  rewrite load_store by (apply N.mod_upper_bound; done).
  apply N.mod_small, Hfit.
Qed.
Lemma frame_trailer :
  load_le 4 (slice (make_record_bytes r) (16 + size (payload r) + 32) 4) = kRecordTrailerMagicValue.
Proof.
  unfold make_record_bytes. rewrite app_assoc, <-(app_nil_r (store_le 4 _)).
  rewrite slice_mid; [by rewrite load_store| |by rewrite size_store_le].
  rewrite size_app, size_record_prefix, size_hash. lia.
Qed.
Lemma frame_digest :
  mkDigest (slice (make_record_bytes r) (16 + size (payload r)) 32) =
  hash (slice (make_record_bytes r) 0 (16 + size (payload r))).
Proof.
  unfold make_record_bytes. rewrite slice_mid by (by rewrite ?size_record_prefix, ?size_hash).
  rewrite slice_whole by by rewrite size_record_prefix. by destruct (hash _).
Qed.
Lemma frame_type : load_le 2 (slice (make_record_bytes r) 4 2) = rec_type r.
Proof.
  unfold make_record_bytes, record_prefix. rewrite <-!app_assoc.
  rewrite slice_mid by by rewrite size_store_le. apply load_store.
  destruct (fits_type _ _ Hfit). change (2 ^ (8 * N.of_nat 2)) with 65536. lia.
Qed.
Lemma frame_version : load_le 2 (slice (make_record_bytes r) 6 2) = kRecordVersion.
Proof.
  unfold make_record_bytes, record_prefix. rewrite <-!app_assoc, (app_assoc (store_le 4 _)).
  rewrite slice_mid; [by rewrite load_store|by rewrite size_app, !size_store_le|
                      by rewrite size_store_le].
Qed.
Lemma frame_sequence : load_le 8 (slice (make_record_bytes r) 8 8) = sequence r.
Proof.
  unfold make_record_bytes, record_prefix.
  rewrite <-!app_assoc, (app_assoc (store_le 4 _)), (app_assoc (_ ++ _)).
  rewrite slice_mid; [|by rewrite !size_app, !size_store_le|by rewrite size_store_le].
  apply load_store, Hfit.
Qed.
Lemma frame_payload :
  slice (make_record_bytes r) kJournalRecordHeaderBytes (size (payload r)) = payload r.
Proof.
  unfold make_record_bytes, record_prefix.
  rewrite <-!app_assoc, (app_assoc (store_le 4 _)), (app_assoc (_ ++ _)), (app_assoc (_ ++ _)).
  apply slice_mid; [by rewrite !size_app, !size_store_le|done].
Qed.
End frame.

Lemma scan_step_record l opt s r pre rest :
  l = pre ++ make_record_bytes r ++ rest → sc_offset s = size pre → record_fits opt r →
  sc_records s < max_records opt → (sc_records s = 0 ∨ sc_previous s < sequence r) →
  scan_step l opt s =
    inr (mkScan (sc_offset s + size (make_record_bytes r)) (sc_records s + 1) (sequence r)
           RecoveryOutcome.Clean (sc_writable s) "all records verified" (sc_diagnostics s)).
Proof.
  intros -> Hoff Hfit Hrec Hseq. unfold scan_step. rewrite Hoff.
  rewrite (proj2 (N.leb_gt _ _) Hrec), !size_app, size_record.
  replace (size pre + (size (payload r) + 52 + size rest) - size pre)
    with (size (payload r) + 52 + size rest) by lia.
  rewrite !slice_app_skip by done. rewrite (frame_length opt r Hfit).
  unfold kJournalRecordHeaderBytes.
  destruct (N.ltb_spec (size (payload r) + 52 + size rest) 16); [lia|].
  destruct (N.ltb_spec (max_payload_bytes opt) (size (payload r)));
    [pose proof (fits_payload _ _ Hfit); lia|].
  replace (size (payload r) + 16 + 32 + 4) with (size (payload r) + 52) by lia.
  destruct (N.ltb_spec (size (payload r) + 52 + size rest) (size (payload r) + 52)); [lia|].
  rewrite (slice_mid pre (make_record_bytes r) rest) by by rewrite ?size_record.
  rewrite frame_trailer, N.eqb_refl. rewrite (frame_digest r).
  rewrite bool_decide_eq_true_2 by reflexivity. rewrite (frame_type opt r Hfit), frame_version,
    (frame_sequence opt r Hfit). simpl negb. cbv iota.
  destruct (fits_type _ _ Hfit) as [Ht1 Ht2].
  change (JournalRecordType.value JournalRecordType.FederationIdentity) with 1.
  change (JournalRecordType.value JournalRecordType.EpochState) with 11.
  destruct (N.ltb_spec (rec_type r) 1); [lia|]. destruct (N.ltb_spec 11 (rec_type r)); [lia|].
  simpl orb. cbv iota. rewrite N.ltb_irrefl.
  destruct Hseq as [->|Hlt]; simpl negb; simpl andb; cbv iota; [done|].
  destruct (N.leb_spec (sequence r) (sc_previous s)); [lia|]. by rewrite andb_false_r.
Qed.

(** ** Histories *)

Definition frames (rs : list JournalRecord) : list byte := concat (make_record_bytes <$> rs).
Definition history (rs : list JournalRecord) : list byte := make_header_bytes ++ frames rs.
Definition increasing : list JournalRecord → Prop :=
  StronglySorted (λ a b, sequence a < sequence b).

Definition scan_after : Scan → list JournalRecord → Scan :=
  foldl (λ s r, mkScan (sc_offset s + size (make_record_bytes r)) (sc_records s + 1) (sequence r)
                  RecoveryOutcome.Clean (sc_writable s) "all records verified" (sc_diagnostics s)).

Lemma scan_after_offset rs : ∀ s, sc_offset (scan_after s rs) = sc_offset s + size (frames rs).
Proof.
  unfold frames. induction rs as [|r rs IH]; intros s; [unfold size; simpl; lia|].
  cbn [scan_after foldl fmap list_fmap concat] in *. unfold scan_after in IH.
  rewrite IH, size_app. cbn [sc_offset]. lia.
Qed.
Lemma scan_after_records rs : ∀ s, sc_records (scan_after s rs) = sc_records s + size rs.
Proof.
  induction rs as [|r rs IH]; intros s; simpl; [unfold size; simpl; lia|].
  rewrite IH. unfold size. simpl. lia.
Qed.
Lemma scan_after_same rs : ∀ s,
  sc_writable (scan_after s rs) = sc_writable s ∧
  sc_diagnostics (scan_after s rs) = sc_diagnostics s ∧
  (rs = [] → scan_after s rs = s) ∧
  (∀ r k, rs = k ++ [r] → sc_outcome (scan_after s rs) = RecoveryOutcome.Clean ∧
                          sc_previous (scan_after s rs) = sequence r).
Proof.
  induction rs as [|r rs IH] using rev_ind; intros s.
  { split_and!; try done. by intros ? [|]. }
  unfold scan_after. rewrite foldl_app. simpl. destruct (IH s) as (Hw & Hd & _).
  split_and!; [done|done|by destruct rs|]. by intros r' k [_ [= ->]]%app_inj_2.
Qed.

Lemma length_frames rs : (52 * length rs ≤ length (frames rs))%nat.
Proof.
  unfold frames. induction rs as [|r rs IH]; cbn [fmap list_fmap concat length] in *; [lia|].
  rewrite length_app. pose proof (size_record r) as Hs. unfold size in Hs.
  set (n := length (make_record_bytes r)) in *. lia.
Qed.

Lemma scan_loop_frames opt rs : ∀ fuel l s pre rest,
  l = pre ++ frames rs ++ rest → sc_offset s = size pre → Forall (record_fits opt) rs →
  sc_records s + size rs ≤ max_records opt →
  (sc_records s = 0 ∨ Forall (λ r, sc_previous s < sequence r) rs) → increasing rs →
  scan_loop (length rs + fuel) l opt s = scan_loop fuel l opt (scan_after s rs).
Proof.
  induction rs as [|r rs IH]; intros fuel l s pre rest Hl Hoff Hfit Hmax Hseq Hinc; [done|].
  apply Forall_cons in Hfit as [Hr Hfit]. apply StronglySorted_cons in Hinc as [Hlt Hinc].
  unfold frames in Hl. cbn [fmap list_fmap concat] in Hl. rewrite <-app_assoc in Hl. unfold size in Hmax. simpl in Hmax.
  simpl length. cbn [Nat.add scan_loop].
  assert (sc_offset s <? size l = true) as ->.
  { apply N.ltb_lt. rewrite Hoff, Hl, !size_app, size_record. lia. }
  rewrite (scan_step_record l opt s r pre _ Hl Hoff Hr); [|lia|].
  2: { destruct Hseq as [?|Hs]; [by left|right]. by apply Forall_cons in Hs as [? _]. }
  apply (IH fuel l _ (pre ++ make_record_bytes r) rest); simpl;
    [by rewrite Hl, <-!app_assoc|by rewrite Hoff, size_app|done|unfold size; lia|by right|done].
Qed.

(** An incomplete record at the end is a torn tail. *)
Lemma scan_step_torn l opt s r pre k :
  l = pre ++ firstn k (make_record_bytes r) → sc_offset s = size pre → record_fits opt r →
  sc_records s < max_records opt → N.of_nat k < size (make_record_bytes r) →
  ∃ d, scan_step l opt s = inl (scan_stop s RecoveryOutcome.TornTailRecovered true d).
Proof.
  intros -> Hoff Hfit Hrec Hk. unfold scan_step. rewrite Hoff.
  rewrite (proj2 (N.leb_gt _ _) Hrec), size_app.
  assert (size (firstn k (make_record_bytes r)) = N.of_nat k) as Hsz.
  { unfold size in *. rewrite length_firstn. lia. }
  rewrite Hsz. replace (size pre + N.of_nat k - size pre) with (N.of_nat k) by lia.
  unfold kJournalRecordHeaderBytes. destruct (N.ltb_spec (N.of_nat k) 16); [by eexists|].
  rewrite slice_app_skip by done.
  assert (slice (firstn k (make_record_bytes r)) 0 4 = slice (make_record_bytes r ++ []) 0 4) as ->.
  { rewrite app_nil_r. unfold slice. change (N.to_nat 0) with 0%nat. rewrite !drop_0, take_take.
    f_equal. lia. }
  rewrite (frame_length opt r Hfit).
  destruct (N.ltb_spec (max_payload_bytes opt) (size (payload r)));
    [pose proof (fits_payload _ _ Hfit); lia|].
  rewrite size_record in Hk.
  destruct (N.ltb_spec (N.of_nat k) (size (payload r) + 16 + 32 + 4)); [by eexists|lia].
Qed.

(** The header of every journal this build writes. *)
Lemma header_accepted rest :
  slice (make_header_bytes ++ rest) 0 8 = kMagic ∧
  mkDigest (slice (make_header_bytes ++ rest) 16 32) =
    hash (slice (make_header_bytes ++ rest) 0 16) ∧
  load_le 4 (slice (make_header_bytes ++ rest) 8 4) = kJournalFormatVersion.
Proof.
  unfold make_header_bytes.
  assert (size header_prefix = 16) as Hp by (by vm_compute).
  pose proof (size_hash header_prefix) as Hh. split_and!.
  - rewrite <-app_assoc. unfold header_prefix. rewrite <-app_assoc. by rewrite slice_whole.
  - rewrite <-!app_assoc. rewrite slice_mid by done. rewrite slice_whole by done.
    by destruct (hash header_prefix).
  - rewrite <-app_assoc. rewrite slice_app_take by (rewrite Hp; lia). by vm_compute.
Qed.
Lemma size_header : size make_header_bytes = kJournalHeaderBytes.
Proof. unfold make_header_bytes. rewrite size_app, size_hash. by vm_compute. Qed.

Lemma load_loop_frames maxr maxp rs : ∀ fuel l pre rest acc,
  l = pre ++ frames rs ++ rest → Forall (λ r, size (payload r) ≤ maxp) rs →
  Forall (λ r, ∃ opt, record_fits opt r) rs → size acc + size rs ≤ maxr → (length rs ≤ fuel)%nat →
  load_loop fuel l (size pre + size (frames rs)) maxr maxp (size pre) acc = Ok (acc ++ rs).
Proof.
  induction rs as [|r rs IH]; intros fuel l pre rest acc Hl Hp Hfit Hmax Hfuel.
  { rewrite app_nil_r. destruct fuel; [done|]. simpl.
    destruct (N.ltb_spec (size pre) (size pre + size (frames []))) as [Hlt|]; [|done].
    unfold frames, size in Hlt. simpl in Hlt. lia. }
  apply Forall_cons in Hp as [Hpr Hp]. apply Forall_cons in Hfit as [[opt Hr] Hfit].
  destruct fuel as [|fuel]; [simpl in Hfuel; lia|]. simpl in Hfuel.
  unfold frames in *. cbn [fmap list_fmap concat] in *. set (fs := concat _) in *.
  rewrite <-app_assoc in Hl.
  pose proof (size_record r) as Hs. unfold kJournalRecordHeaderBytes in *.
  assert (size l = size pre + (size (payload r) + 52 + (size fs + size rest))) as Hsl
    by by rewrite Hl, !size_app, Hs.
  rewrite !size_app, Hs. cbn [load_loop]. unfold kJournalRecordHeaderBytes.
  destruct (N.ltb_spec (size pre) (size pre + (size (payload r) + 52 + size fs))); [|lia].
  assert (size acc + 1 + size rs ≤ maxr) as Hmax' by (unfold size in *; simpl in Hmax; lia).
  destruct (N.leb_spec maxr (size acc)); [lia|].
  destruct (N.ltb_spec (size l) (size pre + 16)); [lia|]. simpl.
  assert (load_le 4 (slice l (size pre) 4) = size (payload r)) as ->.
  { rewrite Hl, slice_app_skip by done. by apply (frame_length opt). }
  destruct (N.ltb_spec maxp (size (payload r))); [lia|]. simpl.
  replace (size (payload r) + 16 + 32 + 4) with (size (payload r) + 52) by lia.
  destruct (N.ltb_spec (size pre + (size (payload r) + 52 + size fs) - size pre)
              (size (payload r) + 52)); [lia|]. simpl.
  destruct (N.ltb_spec (size l) (size pre + (size (payload r) + 52))); [lia|]. simpl.
  assert (slice l (size pre) (size (payload r) + 52) = make_record_bytes r) as ->.
  { rewrite Hl. by rewrite (slice_mid pre (make_record_bytes r)). }
  rewrite (frame_type opt r Hr), (frame_sequence opt r Hr).
  fold kJournalRecordHeaderBytes. rewrite frame_payload.
  replace (mkRecord (rec_type r) (sequence r) (payload r)) with r by by destruct r.
  specialize (IH fuel l (pre ++ make_record_bytes r) rest (acc ++ [r])).
  rewrite (size_app pre), Hs, <-(app_assoc acc) in IH. cbn [app] in IH.
  replace (size pre + (size (payload r) + 52 + size fs))
    with (size pre + (size (payload r) + 52) + size fs) by lia.
  apply IH; [by rewrite Hl, <-!app_assoc|done|done| |lia].
  rewrite size_app. unfold size in *. simpl. lia.
Qed.

#[local] Opaque hash make_header_bytes.

(** ** Recovery of a written history *)

(** An open, writable journal whose file is exactly the history of [rs]. *)
Record journal_holds (opt : JournalOptions) (j : Journal) (rs : list JournalRecord) : Prop := {
  holds_open : is_open j = true;
  holds_writable : rv_writable (recovery j) = true;
  holds_options : options j = opt;
  holds_file : file j = history rs;
  holds_size : size_bytes j = size (history rs);
  holds_fits : Forall (record_fits opt) rs;
  holds_increasing : increasing rs;
  holds_before : Forall (λ r, sequence r < next_sequence j) rs;
  holds_next : next_sequence j < 2 ^ 64
}.

Lemma journal_holds_intro opt rec rs n :
  rv_writable rec = true → Forall (record_fits opt) rs → increasing rs →
  Forall (λ r, sequence r < n) rs → n < 2 ^ 64 →
  journal_holds opt (mkJournal true (history rs) opt rec (size (history rs)) n) rs.
Proof. intros. by constructor. Qed.
Lemma increasing_snoc rs r :
  increasing rs → Forall (λ x, sequence x < sequence r) rs → increasing (rs ++ [r]).
Proof.
  unfold increasing. induction 1 as [|a rs Hs IH Ha]; intros Hr; simpl; [by repeat constructor|].
  apply Forall_cons in Hr as [Har Hr]. constructor; [by apply IH|].
  apply Forall_app. split; [done|by constructor].
Qed.
Lemma history_snoc rs r : history (rs ++ [r]) = history rs ++ make_record_bytes r.
Proof.
  unfold history, frames. rewrite fmap_app, concat_app, <-app_assoc. simpl concat.
  by rewrite app_nil_r.
Qed.
Lemma size_history rs : size (history rs) = kJournalHeaderBytes + size (frames rs).
Proof. unfold history. by rewrite size_app, size_header. Qed.

Definition scan_start (read_only : bool) : Scan :=
  mkScan kJournalHeaderBytes 0 0 RecoveryOutcome.Empty (negb read_only) "no records" [].

Lemma scan_file_history opt rs tail read_only :
  Forall (record_fits opt) rs → increasing rs → size rs ≤ max_records opt →
  scan_file (history rs ++ tail) opt read_only =
    scan_loop (length (history rs ++ tail) - length rs) (history rs ++ tail) opt
      (scan_after (scan_start read_only) rs).
Proof.
  intros Hfit Hinc Hmax. unfold scan_file. fold (scan_start read_only).
  assert (length rs ≤ length (history rs ++ tail))%nat as Hlen.
  { rewrite length_app. unfold history. rewrite length_app. pose proof (length_frames rs). lia. }
  replace (length (history rs ++ tail))
    with (length rs + (length (history rs ++ tail) - length rs))%nat at 1 by lia.
  apply (scan_loop_frames opt rs _ _ _ make_header_bytes tail); try done.
  by left.
Qed.

(** The scan of a history followed by part of a record. *)
Lemma scan_history_torn opt rs r k read_only :
  Forall (record_fits opt) rs → increasing rs → (k ≠ 0%nat → record_fits opt r) → size rs ≤ max_records opt →
  (k = 0%nat ∨ size rs < max_records opt) →
  N.of_nat k < size (make_record_bytes r) →
  let l := history rs ++ firstn k (make_record_bytes r) in
  let s := scan_after (scan_start read_only) rs in
  scan_file l opt read_only = s ∧ (k = 0)%nat ∨
  (∃ d, k ≠ 0%nat ∧ scan_file l opt read_only = scan_stop s RecoveryOutcome.TornTailRecovered true d).
Proof.
  intros Hfit Hinc Hr Hmax Hroom Hk l s. subst l. rewrite scan_file_history by (done || lia). fold s.
  set (l := history rs ++ firstn k (make_record_bytes r)).
  assert (sc_offset s = size (history rs)) as Hoff.
  { subst s. rewrite scan_after_offset, size_history. done. }
  assert (length rs < length l)%nat as Hlen.
  { subst l. unfold history. rewrite !length_app. pose proof (length_frames rs).
    pose proof size_header as Hh. unfold size, kJournalHeaderBytes in Hh. lia. }
  destruct (length l - length rs)%nat as [|fuel] eqn:Ef; [lia|]. cbn [scan_loop].
  destruct (decide (k = 0%nat)) as [->|Hk0].
  { left. split; [|done]. subst l. rewrite firstn_O, app_nil_r, Hoff. by rewrite N.ltb_irrefl. }
  right. destruct Hroom as [|Hroom]; [done|]. assert (sc_offset s <? size l = true) as ->.
  { apply N.ltb_lt. subst l. rewrite Hoff, size_app. unfold size in *. rewrite length_firstn. lia. }
  specialize (Hr Hk0).
  destruct (scan_step_torn l opt s r (history rs) k) as (d & Hd); try done.
  - subst s. rewrite scan_after_records. cbn [sc_records scan_start]. lia.
  - exists d. split; [exact Hk0|]. by rewrite Hd.
Qed.

Lemma open_history_torn f opt rs r k :
  of_open f = None → of_size f = None → (k = 0%nat ∨ of_truncate f = None) →
  Forall (record_fits opt) rs → increasing rs → (k ≠ 0%nat → record_fits opt r) → size rs ≤ max_records opt →
  (k = 0%nat ∨ size rs < max_records opt) →
  N.of_nat k < size (make_record_bytes r) → (k = 0%nat ∨ truncate_torn_tail opt = true) →
  Forall (λ x, sequence x < u64_max) rs →
  ∃ j, journal_open f (history rs ++ firstn k (make_record_bytes r))
         OpenOrCreateReadWrite opt = Ok j ∧
       journal_holds opt j rs ∧ record_count (recovery j) = size rs ∧
       good_bytes (recovery j) = size (history rs) ∧
       next_sequence j = sc_previous (scan_after (scan_start false) rs) + 1.
Proof.
  intros Hfo Hfs Hft Hfit Hinc Hr Hmax Hroom Hk Htr Hseq. set (l := history rs ++ _).
  destruct (header_accepted (frames rs ++ firstn k (make_record_bytes r))) as (Hm & Hd & Hv).
  assert (l = make_header_bytes ++ frames rs ++ firstn k (make_record_bytes r)) as Hl
    by (subst l; unfold history; by rewrite <-app_assoc).
  rewrite <-Hl in Hm, Hd, Hv.
  assert (kJournalHeaderBytes ≤ size l) as Hsz by (rewrite Hl, size_app, size_header; lia).
  exists (journal_scanned f l opt false). split.
  { unfold journal_open. rewrite Hfo, Hfs. cbv iota. rewrite orb_false_l.
    unfold kJournalHeaderBytes in *.
    destruct (N.eqb_spec (size l) 0); [lia|]. destruct (N.ltb_spec (size l) 48); [lia|].
    rewrite Hm, Hd, Hv, !bool_decide_eq_true_2 by reflexivity. done. }
  assert (sc_previous (scan_after (scan_start false) rs) < u64_max ∧
          Forall (λ x, sequence x < sc_previous (scan_after (scan_start false) rs) + 1) rs)
    as [Hprev Hbefore].
  { destruct rs as [|x xs _] using rev_ind; [by split; [vm_compute|constructor]|].
    destruct (scan_after_same (xs ++ [x]) (scan_start false)) as (_ & _ & _ & Hlast).
    destruct (Hlast x xs eq_refl) as [_ ->].
    apply Forall_app in Hseq as [_ Hx]. apply Forall_cons in Hx as [Hx _]. split; [done|].
    apply Forall_app. split; [|repeat constructor; lia].
    apply Forall_forall. intros y Hy. unfold increasing in Hinc.
    apply StronglySorted_app in Hinc as [Hyx _].
    specialize (Hyx y x Hy ltac:(left)). simpl in Hyx. lia. }
  destruct (scan_after_same rs (scan_start false)) as (Hw & _ & Hnil & Hcons).
  assert (sc_offset (scan_after (scan_start false) rs) = size (history rs)) as Hoff
    by by rewrite scan_after_offset, size_history.
  pose proof (scan_after_records rs (scan_start false)) as Hcount. cbn [sc_records scan_start] in Hcount.
  assert ((sc_previous (scan_after (scan_start false) rs) + 1) mod 2 ^ 64 =
          sc_previous (scan_after (scan_start false) rs) + 1) as Hnext
    by (apply N.mod_small; unfold u64_max in Hprev; lia).
  assert (firstn (N.to_nat (size (history rs))) l = history rs) as Hfile
    by (subst l; unfold size; by rewrite Nat2N.id, take_app_length).
  unfold journal_scanned.
  destruct (scan_history_torn opt rs r k false Hfit Hinc Hr Hmax Hroom Hk) as [[Hs ->]|(d & Hk0 & Hs)];
    fold l in Hs; rewrite Hs.
  - assert (bool_decide (sc_outcome (scan_after (scan_start false) rs) =
              RecoveryOutcome.TornTailRecovered) = false) as ->.
    { apply bool_decide_eq_false. destruct rs as [|x xs _] using rev_ind; [done|].
      by destruct (Hcons x xs eq_refl) as [-> _]. }
    assert (l = history rs) as Hlh by (subst l; by rewrite firstn_O, app_nil_r).
    clear Hl. clearbody l. subst l.
    split_and!; cbn [recovery record_count good_bytes next_sequence]; [|by rewrite Hcount|done|exact Hnext].
    rewrite Hnext. apply journal_holds_intro; [exact Hw|exact Hfit|exact Hinc|exact Hbefore
      |unfold u64_max in Hprev; lia].
  - destruct Hft as [Hz|Hft]; [contradiction (Hk0 Hz)|]. destruct Htr as [Hz|Htr]; [contradiction (Hk0 Hz)|].
    cbn [scan_stop sc_offset sc_records sc_previous sc_outcome sc_writable sc_detail
      sc_diagnostics]. rewrite bool_decide_eq_true_2 by reflexivity. rewrite Hw, Htr, Hft.
    cbn [scan_start sc_writable negb andb]. cbv iota.
    rewrite Hoff, Hfile, Hcount.
    split_and!; cbn [recovery record_count good_bytes next_sequence]; [|done..|exact Hnext].
    rewrite Hnext. apply journal_holds_intro; [reflexivity|exact Hfit|exact Hinc|exact Hbefore
      |unfold u64_max in Hprev; lia].
Qed.

(** What such a journal returns when it is loaded. *)
Lemma load_history opt j rs :
  journal_holds opt j rs → good_bytes (recovery j) = size (history rs) →
  size rs ≤ max_records opt →
  load j (max_records opt) (max_payload_bytes opt) = Ok rs.
Proof.
  intros Hj Hgood Hmax. unfold load. rewrite (holds_open _ _ _ Hj), (holds_file _ _ _ Hj), Hgood.
  cbn [negb]. rewrite size_history, <-size_header.
  pose proof (holds_fits _ _ _ Hj) as Hfit.
  rewrite (load_loop_frames _ _ rs _ _ _ [] []); [done|unfold history; by rewrite app_nil_r| | | |].
  - eapply Forall_impl; [exact Hfit|]. intros x []. done.
  - eapply Forall_impl; [exact Hfit|]. intros x ?. by exists opt.
  - done.
  - unfold history. rewrite length_app. pose proof (length_frames rs). lia.
Qed.

(** ** Properties *)

Lemma overwrite_end l data : overwrite l (size l) data = l ++ data.
Proof.
  unfold overwrite, size. rewrite Nat2N.id, Nat.sub_diag. simpl replicate.
  rewrite app_nil_r, firstn_all, skipn_all2 by lia. by rewrite app_nil_r.
Qed.
Lemma record_type_range t : 1 ≤ JournalRecordType.value t ∧ JournalRecordType.value t ≤ 11.
Proof. destruct t; simpl; lia. Qed.

Lemma checked_add_Some a b c : b ≠ 0 → checked_add_u64 a b = Some c → c = a + b.
Proof.
  unfold checked_add_u64. intros Hb. destruct (N.ltb_spec (u64_max - a) b); [done|].
  intros [= <-]. apply N.mod_small. unfold u64_max in *. lia.
Qed.
Ltac nothing_written Hfile :=
  exists 0%nat; cbn [fst snd]; rewrite Hfile, firstn_O, app_nil_r;
  split_and!; [reflexivity|congruence|discriminate].

(** What an append leaves in the file: the history and some beginning of the new
    record, the whole of it when the call succeeds. *)
Lemma append_file opt w fl j t data rs :
  journal_holds opt j rs →
  let r := mkRecord (JournalRecordType.value t) (next_sequence j) data in
  ∃ k, file (fst (append w fl j t data)) = history rs ++ firstn k (make_record_bytes r) ∧
       (k ≠ 0%nat → size data ≤ max_payload_bytes opt) ∧
       (snd (append w fl j t data) = Ok tt →
          k = length (make_record_bytes r) ∧ k ≠ 0%nat ∧ next_sequence j < u64_max ∧
          fst (append w fl j t data) =
            mkJournal true (history rs ++ make_record_bytes r) opt (recovery j)
              (size (history rs ++ make_record_bytes r)) (next_sequence j + 1)).
Proof.
  intros Hj r. destruct Hj as [Ho Hw Hopt Hfile Hsize _ _ _ Hnext].
  unfold append. rewrite Ho, Hw, Hopt, Hfile. cbn [negb]. cbv iota zeta. fold r.
  destruct (N.ltb_spec (max_payload_bytes opt) (size data)) as [|Hfit]; [nothing_written Hfile|].
  rewrite Hsize. destruct (checked_add_u64 _ _) as [total|] eqn:Etotal; [|nothing_written Hfile].
  apply checked_add_Some in Etotal as ->; [|rewrite size_record; lia].
  destruct (max_bytes opt <? _); [nothing_written Hfile|].
  destruct w as [[k e]|]; cbn [write_at]; rewrite overwrite_end.
  { exists k. cbn [fst snd file]. split_and!; [reflexivity|intros _; exact Hfit|discriminate]. }
  exists (length (make_record_bytes r)). rewrite firstn_all.
  assert (length (make_record_bytes r) ≠ 0%nat) as Hne.
  { pose proof (size_record r). unfold size in *. lia. }
  destruct fl as [e|]; cbn [fst snd file];
    [split_and!; [reflexivity|intros _; exact Hfit|discriminate]|].
  unfold checked_inc_u64.
  destruct (N.eqb_spec (next_sequence j) u64_max) as [|Hlt]; cbn [fst snd file];
    [split_and!; [reflexivity|intros _; exact Hfit|discriminate]|].
  assert (next_sequence j < u64_max) as Hlt' by (unfold u64_max in *; lia).
  split_and!; [reflexivity|intros _; exact Hfit|]. intros _.
  split_and!; [reflexivity|exact Hne|exact Hlt'|].
  rewrite size_app, N.mod_small by (unfold u64_max in Hlt'; lia). reflexivity.
Qed.

(** C22: a commit is all or nothing: on an open journal whose file is exactly its
    records (so that no earlier append failed, whose leftover bytes the next one would
    keep) and which holds fewer records than [max_records], whatever the file system
    does to the write or the flush of an append, opening the file again finds a writable
    journal that holds exactly the records stored before or those and the new one, and
    it loads them; when the append reports success it is the latter, and the open journal
    is ready for the next append.  The bound on the records is one the scan and the load
    enforce and append does not: at the bound an append succeeds and the next open finds
    too many records.  Truncation of torn tails is the default; sequence numbers below
    2^64 - 1 and payloads below 2^32 bytes are what the header can express. *)
Theorem append_is_atomic opt j rs w fl t data
    (Hj : journal_holds opt j rs) (Htr : truncate_torn_tail opt = true)
    (Hroom : size rs < max_records opt) (Hnext : next_sequence j < u64_max)
    (Hbound : max_payload_bytes opt < 2 ^ 32) :
  let r := mkRecord (JournalRecordType.value t) (next_sequence j) data in
  ∃ rs' j', (rs' = rs ∨ rs' = rs ++ [r]) ∧
    (snd (append w fl j t data) = Ok tt →
       rs' = rs ++ [r] ∧ journal_holds opt (fst (append w fl j t data)) rs') ∧
    journal_open no_faults (file (fst (append w fl j t data))) OpenOrCreateReadWrite opt = Ok j' ∧
    journal_holds opt j' rs' ∧
    load j' (max_records opt) (max_payload_bytes opt) = Ok rs'.
Proof.
  intros r. destruct (append_file opt w fl j t data rs Hj) as (k & Hfile & Hfit & Hok). fold r in Hfile, Hok.
  destruct Hj as [_ Hw _ _ _ Hfits Hinc Hbefore _].
  assert (Forall (λ x, sequence x < u64_max) rs) as Hseq
    by (eapply Forall_impl; [exact Hbefore|]; cbv beta; intros; lia).
  assert (k ≠ 0%nat → record_fits opt r) as Hr.
  { intros Hk. specialize (Hfit Hk). constructor; cbn [r payload rec_type sequence];
      [exact Hfit|lia|apply record_type_range|unfold u64_max in Hnext; lia]. }
  destruct (decide (length (make_record_bytes r) ≤ k)%nat) as [Hall|Hpart].
  - assert (k ≠ 0%nat) as Hk by (pose proof (size_record r); unfold size in *; lia).
    specialize (Hr Hk). rewrite firstn_all2, <-history_snoc in Hfile by exact Hall.
    assert (Forall (record_fits opt) (rs ++ [r])) as Hfits'
      by (apply Forall_app; split; [exact Hfits|apply Forall_singleton; assumption]).
    assert (increasing (rs ++ [r])) as Hinc' by by apply increasing_snoc.
    assert (size (rs ++ [r]) ≤ max_records opt) as Hmax
      by (rewrite size_app; change (size [r]) with 1; lia).
    assert (Forall (λ x, sequence x < u64_max) (rs ++ [r])) as Hseq'
      by (apply Forall_app; split; [exact Hseq|apply Forall_singleton; assumption]).
    destruct (open_history_torn no_faults opt (rs ++ [r]) r 0 eq_refl eq_refl (or_intror eq_refl) Hfits' Hinc' (λ _, Hr) Hmax (or_introl eq_refl)
                ltac:(rewrite size_record; lia) (or_intror Htr) Hseq') as (j' & Hopen & Hj' & _ & Hgood & _).
    rewrite firstn_O, app_nil_r, <-Hfile in Hopen.
    exists (rs ++ [r]), j'. split_and!; [by right| |exact Hopen|exact Hj'|by apply load_history].
    intros Hres. split; [reflexivity|]. destruct (Hok Hres) as (_ & _ & _ & ->).
    rewrite <-history_snoc. apply journal_holds_intro; [exact Hw|exact Hfits'|exact Hinc'| |unfold u64_max in Hnext; lia].
    apply Forall_app. split; [|apply Forall_singleton; cbn [r sequence]; lia].
    eapply Forall_impl; [exact Hbefore|]. cbv beta. intros. lia.
  - assert (N.of_nat k < size (make_record_bytes r)) as Hk by (unfold size; lia).
    destruct (open_history_torn no_faults opt rs r k eq_refl eq_refl (or_intror eq_refl) Hfits Hinc Hr ltac:(lia) (or_intror Hroom) Hk (or_intror Htr) Hseq)
      as (j' & Hopen & Hj' & _ & Hgood & _).
    rewrite <-Hfile in Hopen.
    exists rs, j'. split_and!; [by left| |exact Hopen|exact Hj'|apply load_history; [done|done|lia]].
    intros Hres. destruct (Hok Hres) as [Hk' _]. lia.
Qed.

(** *** A journal that is not understood is preserved *)

Definition damaged (o : RecoveryOutcome.t) : bool :=
  match o with
  | RecoveryOutcome.CorruptRecord | RecoveryOutcome.UnsupportedRecord
  | RecoveryOutcome.InvalidHeader | RecoveryOutcome.BoundsExceeded => true
  | _ => false
  end.
Definition guarded (read_only : bool) (s : Scan) : Prop :=
  (damaged (sc_outcome s) = true → sc_writable s = false) ∧
  (read_only = true → sc_writable s = false).

Lemma scan_step_guarded l opt ro s :
  guarded ro s →
  match scan_step l opt s with inl s' | inr s' => guarded ro s' end.
Proof.
  intros [Hd Hr]. unfold scan_step. cbv zeta.
  assert (∀ o w d, (damaged o = true → w = false) → guarded ro (scan_stop s o w d)) as Hstop.
  { intros o w d Hw. split; cbn [scan_stop sc_outcome sc_writable].
    - intros Ho. by rewrite (Hw Ho), andb_false_r.
    - intros ->. by rewrite Hr. }
  repeat match goal with
  | |- match (if ?b then _ else _) with _ => _ end => destruct b; [by apply Hstop|]
  end.
  by split.
Qed.
Lemma scan_loop_guarded l opt ro fuel : ∀ s, guarded ro s → guarded ro (scan_loop fuel l opt s).
Proof.
  induction fuel as [|fuel IH]; intros s Hs; [done|]. cbn [scan_loop].
  destruct (_ <? _); [|done]. pose proof (scan_step_guarded l opt ro s Hs) as Hg.
  destruct (scan_step l opt s); [done|by apply IH].
Qed.
Lemma scan_file_guarded l opt ro : guarded ro (scan_file l opt ro).
Proof. apply scan_loop_guarded. by destruct ro. Qed.

Lemma append_refused w fl j t data :
  is_open j = true → rv_writable (recovery j) = false →
  append w fl j t data =
    (j, fail ErrorCode.Refused ("journal is not writable: " +s+ rv_detail (recovery j))).
Proof. intros Ho Hw. unfold append. by rewrite Ho, Hw. Qed.

(** Opening an existing file either leaves every byte of it in place, or it
    discards exactly the torn tail behind the last verified record, and that
    only in read-write mode with truncation enabled.  A file with a corrupt
    record, a record or format of a newer build, a bad header or too many
    records, and any file opened read-only, is left untouched and every later
    append is refused without writing. *)
Theorem damaged_journal_is_preserved f l mode opt j
    (Hmode : mode ≠ CreateTruncating) (Hl : l ≠ []) (Hopen : journal_open f l mode opt = Ok j) :
  (file j = l ∨
   rv_outcome (recovery j) = RecoveryOutcome.TornTailRecovered ∧
   mode = OpenOrCreateReadWrite ∧ truncate_torn_tail opt = true ∧
   file j = firstn (N.to_nat (good_bytes (recovery j))) l) ∧
  (damaged (rv_outcome (recovery j)) = true ∨ mode = ReadOnlyExisting →
     file j = l ∧ journal_writable j = false ∧
     ∀ w fl t data, append w fl j t data =
       (j, fail ErrorCode.Refused ("journal is not writable: " +s+ rv_detail (recovery j)))).
Proof.
  assert (file j = l ∧ is_open j = true ∧ rv_writable (recovery j) = false ∨
          (file j = l ∨ rv_outcome (recovery j) = RecoveryOutcome.TornTailRecovered ∧
           mode = OpenOrCreateReadWrite ∧ truncate_torn_tail opt = true ∧
           file j = firstn (N.to_nat (good_bytes (recovery j))) l) ∧
          damaged (rv_outcome (recovery j)) = false ∧ mode ≠ ReadOnlyExisting) as H.
  2: { destruct H as [(Hf & Ho & Hw)|(Hf & Hd & Hm)].
       - split; [by left|]. intros _. split_and!; [done|by unfold journal_writable; rewrite Hw, andb_false_r|].
         intros. by apply append_refused.
       - split; [exact Hf|]. rewrite Hd. by intros [?|?]. }
  revert Hopen. unfold journal_open. destruct (of_open f); [done|].
  replace (match mode with CreateTruncating => true | _ => false end) with false by by destruct mode.
  cbn [orb]. cbv iota zeta. destruct (of_size f); [done|].
  assert (size l =? 0 = false) as -> by (destruct l; [done|]; by apply N.eqb_neq).
  destruct (_ <? _); [intros [= <-]; by left|].
  destruct (negb _); [intros [= <-]; by left|].
  destruct (negb _); [intros [= <-]; by left|].
  set (ro := match mode with ReadOnlyExisting => true | _ => false end).
  intros [= <-]. unfold journal_scanned. cbv zeta.
  destruct (scan_file_guarded l opt ro) as [Hd Hr].
  destruct (bool_decide_reflect (sc_outcome (scan_file l opt ro) = RecoveryOutcome.TornTailRecovered)) as [Ht|Ht].
  - destruct (sc_writable _) eqn:Ew; cbn [andb]; [|by left].
    assert (mode = OpenOrCreateReadWrite) as -> by (destruct mode; [by discriminate Hr|done|done]).
    destruct (truncate_torn_tail opt) eqn:Etr; [|by left].
    right. destruct (of_truncate f) as [[[] e]|]; cbn; rewrite Ht; split_and!; try done;
      first [by left|by right].
  - cbn. destruct (sc_writable _) eqn:Ew; [|by left]. right. split_and!; [by left| |].
    + destruct (damaged _); [|done]. by specialize (Hd eq_refl).
    + intros ->. by specialize (Hr eq_refl).
Qed.

(** *** What the scan accepted, the load returns *)

(** The record framed at an offset, every check of the scan made. *)
Record frame_at (l : list byte) (opt : JournalOptions) (o : N) (r : JournalRecord) : Prop := {
  frame_inside : o + (size (payload r) + 52) ≤ size l;
  frame_bound : size (payload r) ≤ max_payload_bytes opt;
  frame_len : load_le 4 (slice l o 4) = size (payload r);
  frame_bytes : slice (slice l o (size (payload r) + 52)) 16 (size (payload r)) = payload r;
  frame_kind : load_le 2 (slice (slice l o (size (payload r) + 52)) 4 2) = rec_type r;
  frame_seq : load_le 8 (slice (slice l o (size (payload r) + 52)) 8 8) = sequence r;
  frame_known : 1 ≤ rec_type r ∧ rec_type r ≤ 11;
  frame_hashed :
    mkDigest (slice (slice l o (size (payload r) + 52)) (16 + size (payload r)) 32) =
    hash (slice (slice l o (size (payload r) + 52)) 0 (16 + size (payload r)))
}.
(** The records framed one after the other from [o] up to [e]. *)
Inductive framed (l : list byte) (opt : JournalOptions) : N → N → list JournalRecord → Prop :=
  | framed_nil o : framed l opt o o []
  | framed_cons o e r rs :
      frame_at l opt o r → framed l opt (o + (size (payload r) + 52)) e rs →
      framed l opt o e (r :: rs).

Lemma framed_snoc l opt o e r rs :
  framed l opt o e rs → frame_at l opt e r →
  framed l opt o (e + (size (payload r) + 52)) (rs ++ [r]).
Proof.
  induction 1 as [|o e r' rs H _ IH]; intros Hr; simpl.
  - eapply framed_cons; [exact Hr|constructor].
  - eapply framed_cons; [exact H|by apply IH].
Qed.
Lemma framed_end l opt o e rs : framed l opt o e rs → o + size rs ≤ e ∧ (o ≤ size l → e ≤ size l).
Proof.
  induction 1 as [|o e r rs H _ [IH1 IH2]]; [unfold size; simpl; lia|].
  pose proof (frame_inside _ _ _ _ H). unfold size in *. simpl length. lia.
Qed.

(** What the scan has established when it stands at [sc_offset s]. *)
Definition scanned (l : list byte) (opt : JournalOptions) (s : Scan) (rs : list JournalRecord) : Prop :=
  framed l opt kJournalHeaderBytes (sc_offset s) rs ∧ sc_records s = size rs ∧
  size rs ≤ max_records opt ∧ increasing rs ∧ Forall (λ r, sequence r ≤ sc_previous s) rs.

Lemma size_slice l o n : o + n ≤ size l → size (slice l o n) = n.
Proof. unfold slice, size. rewrite length_firstn, length_skipn. lia. Qed.

Lemma scan_step_scanned l opt s rs :
  scanned l opt s rs → sc_offset s < size l →
  match scan_step l opt s with
  | inl s' => scanned l opt s' rs
  | inr s' => ∃ r, scanned l opt s' (rs ++ [r])
  end.
Proof.
  intros (Hf & Hn & Hmax & Hinc & Hlast) Hoff. unfold scan_step. cbv zeta.
  assert (∀ o w d, scanned l opt (scan_stop s o w d) rs) as Hstop by done.
  destruct (N.leb_spec (max_records opt) (sc_records s)); [apply Hstop|].
  destruct (N.ltb_spec (size l - sc_offset s) kJournalRecordHeaderBytes); [apply Hstop|].
  set (n := load_le 4 _) in *. destruct (N.ltb_spec (max_payload_bytes opt) n); [apply Hstop|].
  unfold kJournalRecordHeaderBytes in *. replace (n + 16 + 32 + 4) with (n + 52) by lia.
  destruct (N.ltb_spec (size l - sc_offset s) (n + 52)) as [|Hin]; [apply Hstop|].
  set (bytes := slice l (sc_offset s) (n + 52)) in *.
  assert (size bytes = n + 52) as Hbytes by (apply size_slice; lia).
  destruct (negb _); [apply Hstop|].
  destruct (bool_decide_reflect (mkDigest (slice bytes (16 + n) 32) = hash (slice bytes 0 (16 + n))))
    as [Hdig|]; [|apply Hstop]. cbn [negb]. cbv iota.
  change (JournalRecordType.value JournalRecordType.FederationIdentity) with 1.
  change (JournalRecordType.value JournalRecordType.EpochState) with 11.
  destruct (N.ltb_spec (load_le 2 (slice bytes 4 2)) 1); [apply Hstop|].
  destruct (N.ltb_spec 11 (load_le 2 (slice bytes 4 2))); [apply Hstop|]. cbn [orb]. cbv iota.
  destruct (_ <? _); [apply Hstop|].
  destruct (negb (sc_records s =? 0) && _) eqn:Eseq; [apply Hstop|].
  set (r := mkRecord (load_le 2 (slice bytes 4 2)) (load_le 8 (slice bytes 8 8)) (slice bytes 16 n)).
  assert (size (payload r) = n) as Hp by (apply size_slice; lia).
  exists r. unfold scanned. cbn [sc_offset sc_records sc_previous]. rewrite size_app.
  change (size [r]) with 1. split_and!; [|lia|lia| |].
  - rewrite <-Hp. apply framed_snoc; [done|].
    constructor; rewrite ?Hp; try done; subst r; cbn [rec_type]; lia.
  - apply increasing_snoc; [done|]. destruct (N.eqb_spec (sc_records s) 0) as [Hz|Hz].
    + assert (rs = []) as -> by (destruct rs; [done|]; unfold size in Hn; simpl in Hn; lia).
      constructor.
    + cbn [negb andb] in Eseq. apply N.leb_gt in Eseq.
      eapply Forall_impl; [exact Hlast|]. subst r. cbn [sequence]. intros x Hx. cbv beta in Hx. lia.
  - apply Forall_app. split; [|apply Forall_singleton; subst r; cbn [sequence]; lia].
    destruct (N.eqb_spec (sc_records s) 0) as [Hz|Hz].
    + assert (rs = []) as -> by (destruct rs; [done|]; unfold size in Hn; simpl in Hn; lia).
      constructor.
    + cbn [negb andb] in Eseq. apply N.leb_gt in Eseq.
      eapply Forall_impl; [exact Hlast|]. cbv beta. intros x Hx. subst r. cbn [sequence]. lia.
Qed.

Lemma scan_loop_scanned l opt fuel : ∀ s rs,
  scanned l opt s rs → ∃ rs', scanned l opt (scan_loop fuel l opt s) rs'.
Proof.
  induction fuel as [|fuel IH]; intros s rs Hs; [by exists rs|]. cbn [scan_loop].
  destruct (N.ltb_spec (sc_offset s) (size l)) as [Hlt|]; [|by exists rs].
  pose proof (scan_step_scanned l opt s rs Hs Hlt) as Hstep.
  destruct (scan_step l opt s); [by exists rs|]. destruct Hstep as [r Hr]. by eapply IH.
Qed.

Lemma slice_firstn m l o n : o + n ≤ m → slice (firstn (N.to_nat m) l) o n = slice l o n.
Proof.
  intros H. unfold slice. rewrite skipn_firstn_comm, firstn_firstn. f_equal. lia.
Qed.

(** The loop of [load] over framed records, in the file or in what was kept of it. *)
Lemma load_loop_framed l l' opt o e rs :
  framed l opt o e rs → ∀ fuel acc,
  e ≤ size l' → (∀ p n, p + n ≤ e → slice l' p n = slice l p n) →
  size acc + size rs ≤ max_records opt → (length rs ≤ fuel)%nat →
  load_loop fuel l' e (max_records opt) (max_payload_bytes opt) o acc = Ok (acc ++ rs).
Proof.
  induction 1 as [o|o e r rs Hr Hrs IH]; intros fuel acc He Hsame Hmax Hfuel.
  { rewrite app_nil_r. destruct fuel; [done|]. cbn [load_loop]. by rewrite N.ltb_irrefl. }
  destruct fuel as [|fuel]; [simpl in Hfuel; lia|]. simpl in Hfuel.
  pose proof (framed_end _ _ _ _ _ Hrs) as [Hend _].
  destruct Hr as [Hin Hb Hlen Hbytes Hkind Hseq _ _].
  assert (size (r :: rs) = 1 + size rs) as Hcons by (unfold size; simpl length; lia).
  rewrite Hcons in Hmax. cbn [load_loop]. unfold kJournalRecordHeaderBytes.
  destruct (N.ltb_spec o e); [|lia]. destruct (N.leb_spec (max_records opt) (size acc)); [lia|].
  destruct (N.ltb_spec (size l') (o + 16)); [lia|]. simpl.
  rewrite (Hsame o 4), Hlen by lia.
  destruct (N.ltb_spec (max_payload_bytes opt) (size (payload r))); [lia|]. simpl.
  replace (size (payload r) + 16 + 32 + 4) with (size (payload r) + 52) by lia.
  destruct (N.ltb_spec (e - o) (size (payload r) + 52)); [lia|]. simpl.
  destruct (N.ltb_spec (size l') (o + (size (payload r) + 52))); [lia|]. simpl.
  rewrite (Hsame o (size (payload r) + 52)), Hkind, Hseq, Hbytes by lia.
  replace (mkRecord (rec_type r) (sequence r) (payload r)) with r by by destruct r.
  rewrite IH; [by rewrite <-app_assoc|done|done| |lia].
  rewrite size_app. change (size [r]) with 1. lia.
Qed.

(** Whatever bytes the file holds, when opening accepts it the recovered prefix
    loads completely: exactly the counted number of records, in strictly
    increasing sequence order, each of a known type, within the payload bound and
    with its digest over the stored bytes verified; nothing past the prefix is
    read. *)
Theorem recovered_prefix_loads f l mode opt j
    (Hmode : mode ≠ CreateTruncating) (Hl : l ≠ []) (Hopen : journal_open f l mode opt = Ok j) :
  ∃ rs, load j (max_records opt) (max_payload_bytes opt) = Ok rs ∧
    size rs = record_count (recovery j) ∧ size rs ≤ max_records opt ∧ increasing rs ∧
    (good_bytes (recovery j) = 0 ∧ rs = [] ∨
     framed l opt kJournalHeaderBytes (good_bytes (recovery j)) rs).
Proof.
  revert Hopen. unfold journal_open. destruct (of_open f); [done|].
  replace (match mode with CreateTruncating => true | _ => false end) with false by by destruct mode.
  cbn [orb]. cbv iota zeta. destruct (of_size f); [done|].
  assert (size l =? 0 = false) as -> by (destruct l; [done|]; by apply N.eqb_neq).
  assert (∀ o a d, ∃ rs, load (unreadable l opt o a d) (max_records opt) (max_payload_bytes opt) = Ok rs ∧
    size rs = 0 ∧ size rs ≤ max_records opt ∧ increasing rs ∧ (0 = 0 ∧ rs = [] ∨
      framed l opt kJournalHeaderBytes 0 rs)) as Hun.
  { intros o a d. exists []. split_and!; [|done|change (size []) with 0; lia|constructor|by left].
    unfold load, unreadable. cbn [is_open file recovery good_bytes negb]. cbv iota.
    by destruct l. }
  destruct (N.ltb_spec (size l) kJournalHeaderBytes) as [|Hsize]; [intros [= <-]; apply Hun|].
  destruct (negb _); [intros [= <-]; apply Hun|].
  destruct (negb _); [intros [= <-]; apply Hun|].
  set (ro := match mode with ReadOnlyExisting => true | _ => false end). intros [= <-].
  assert (scanned l opt (scan_start ro) []) as Hstart.
  { split_and!; [constructor|done|change (size []) with 0; lia|constructor|constructor]. }
  destruct (scan_loop_scanned l opt (length l) _ _ Hstart) as (rs & Hf & Hn & Hmax & Hinc & _).
  change (scan_loop _ l opt _) with (scan_file l opt ro) in Hf, Hn. exists rs.
  pose proof (framed_end _ _ _ _ _ Hf) as [Hlow Hhigh]. specialize (Hhigh Hsize).
  unfold journal_scanned. cbv zeta. set (s := scan_file l opt ro) in *.
  assert (∀ l' rec b n, (l' = l ∨ l' = firstn (N.to_nat (sc_offset s)) l) →
    good_bytes rec = sc_offset s →
    load (mkJournal true l' opt rec b n) (max_records opt) (max_payload_bytes opt) = Ok rs) as Hload.
  { intros l' rec b n Hl' Hg. unfold load. cbn [is_open file recovery negb]. cbv iota. rewrite Hg.
    assert (sc_offset s ≤ size l') as Hle.
    { destruct Hl' as [->| ->]; [done|]. unfold size in *. rewrite length_firstn.  lia. }
    eapply (load_loop_framed l l' opt _ _ rs Hf _ []); [done| | |].
    - intros p m Hpm. destruct Hl' as [->| ->]; [done|by apply slice_firstn].
    - change (size []) with 0. lia.
    -  unfold size in *. unfold kJournalHeaderBytes in *. lia. }
  destruct (bool_decide _); [|split_and!; [by apply Hload; [left|]|done..|by right]].
  destruct (_ && _); [|split_and!; [by apply Hload; [left|]|done..|by right]].
  destruct (of_truncate f) as [[[] e]|]; split_and!;
    first [done|by right|by apply Hload; [right|]|by apply Hload; [left|]].
Qed.

(** *** Compaction *)

Definition renumber (n : N) (rs : list JournalRecord) : list JournalRecord :=
  imap (λ i r, mkRecord (rec_type r) (n + N.of_nat i) (payload r)) rs.
Lemma renumber_cons n r rs :
  renumber n (r :: rs) = mkRecord (rec_type r) n (payload r) :: renumber (n + 1) rs.
Proof.
  unfold renumber. rewrite imap_cons. f_equal; [f_equal; lia|].
  apply imap_ext. intros i x _. simpl. f_equal. lia.
Qed.
Lemma renumber_range n rs :
  Forall (λ r, n ≤ sequence r ∧ sequence r < n + size rs) (renumber n rs) ∧ increasing (renumber n rs).
Proof.
  revert n. induction rs as [|r rs IH]; intros n; [by split; constructor|].
  rewrite renumber_cons. destruct (IH (n + 1)) as [Hr Hi].
  assert (size (r :: rs) = size rs + 1) as -> by (unfold size; simpl length; lia).
  split.
  - constructor; cbn [sequence]; [lia|]. eapply Forall_impl; [exact Hr|]. cbv beta. intros; lia.
  - constructor; [exact Hi|]. eapply Forall_impl; [exact Hr|]. cbv beta. cbn [sequence]. intros; lia.
Qed.
Lemma renumber_fits opt n rs :
  max_payload_bytes opt < 2 ^ 32 → n + size rs ≤ 2 ^ 64 →
  Forall (λ r, size (payload r) ≤ max_payload_bytes opt ∧ 1 ≤ rec_type r ∧ rec_type r ≤ 11) rs →
  Forall (record_fits opt) (renumber n rs).
Proof.
  intros Hopt. revert n. induction rs as [|r rs IH]; intros n Hn Hrs; [constructor|].
  apply Forall_cons in Hrs as [(Hp & Ht & Ht') Hrs]. rewrite renumber_cons.
  assert (size (r :: rs) = size rs + 1) as Hsz by (unfold size; simpl length; lia).
  rewrite Hsz in Hn. constructor; [|apply IH; [lia|exact Hrs]].
  constructor; cbn [payload rec_type sequence]; lia.
Qed.

Lemma compact_records_frames write opt rs : ∀ i offset n out out',
  n + size rs < 2 ^ 64 → compact_records write opt rs i offset n out = inr out' →
  out' = out ++ frames (renumber n rs).
Proof.
  induction rs as [|r rs IH]; intros i offset n out out' Hn H.
  { injection H as <-. unfold frames. cbn. by rewrite app_nil_r. }
  assert (size (r :: rs) = size rs + 1) as Hsz by (unfold size; simpl length; lia).
  rewrite Hsz in Hn. cbn [compact_records] in H.
  destruct (checked_add_u64 _ _); [|done]. destruct (_ <? _); [done|].
  destruct (write i); [done|]. rewrite N.mod_small in H by lia.
  apply IH in H as ->; [|lia]. rewrite renumber_cons. unfold frames.
  cbn [fmap list_fmap concat]. by rewrite <-app_assoc.
Qed.

(** Compaction replaces the file as a whole or not at all: whatever fails, the
    journal's file is the old one or the complete history of the given records,
    renumbered from 1; on success the journal is reopened on it, is writable and
    loads exactly those records. *)
Theorem compact_replaces_whole cf j rs
    (Hopt : max_payload_bytes (options j) < 2 ^ 32) (Hcount : size rs < u64_max)
    (Hrs : Forall (λ r, size (payload r) ≤ max_payload_bytes (options j) ∧
                        1 ≤ rec_type r ∧ rec_type r ≤ 11) rs) :
  let '(j', res) := compact cf j rs in
  (file j' = file j ∨ file j' = history (renumber 1 rs)) ∧
  (res = Ok tt →
     journal_holds (options j) j' (renumber 1 rs) ∧
     load j' (max_records (options j)) (max_payload_bytes (options j)) = Ok (renumber 1 rs)).
Proof.
  unfold compact. destruct (is_open j); cbn [negb]; cbv iota; [|by split; [left|]].
  destruct (N.ltb_spec (max_records (options j)) (size rs)) as [|Hmax]; [by split; [left|]|].
  destruct (cf_create cf); [by split; [left|]|]. cbv zeta.
  destruct (cf_header cf); [by split; [left|]|].
  destruct (compact_records _ _ _ _ _ _ _) as [e|out] eqn:Eout; [by split; [left|]|].
  destruct (cf_flush cf); [by split; [left|]|]. destruct (cf_replace cf); [by split; [left|]|].
  unfold u64_max in Hcount. apply compact_records_frames in Eout; [|lia].
  change (out = history (renumber 1 rs)) in Eout. subst out.
  assert (size (renumber 1 rs) = size rs) as Hsz by (unfold size, renumber; by rewrite length_imap).
  pose proof (renumber_fits (options j) 1 rs Hopt ltac:(lia) Hrs) as Hfits.
  destruct (renumber_range 1 rs) as [Hrange Hinc].
  assert (Forall (λ x, sequence x < u64_max) (renumber 1 rs)) as Hseq.
  { eapply Forall_impl; [exact Hrange|]. cbv beta. unfold u64_max. intros. lia. }
  destruct (journal_open _ _ _ _) as [j'|s] eqn:Eopen; [|split; [by right|done]].
  assert (of_open (cf_reopen cf) = None ∧ of_size (cf_reopen cf) = None) as [Ho Hs].
  { revert Eopen. unfold journal_open. destruct (of_open _); [done|]. by destruct (of_size _). }
  assert ((0 ≠ 0)%nat → record_fits (options j) (mkRecord 1 0 [])) as Hr by done.
  destruct (open_history_torn (cf_reopen cf) (options j) (renumber 1 rs) (mkRecord 1 0 []) 0 Ho Hs
    (or_introl eq_refl) Hfits Hinc Hr ltac:(lia) (or_introl eq_refl) ltac:(rewrite size_record; lia)
    (or_introl eq_refl) Hseq) as (j'' & Hopen & Hj & _ & Hgood & _).
  rewrite firstn_O, app_nil_r, Eopen in Hopen. injection Hopen as <-.
  split; [right; apply Hj|]. intros _. split; [exact Hj|]. apply load_history; [exact Hj|done|lia].
Qed.

(** *** A failed append leaves its bytes behind *)

Definition fresh_journal : Journal :=
  mkJournal true make_header_bytes default_options
    (mkRecovery RecoveryOutcome.Empty kJournalHeaderBytes 0 0 true "fresh journal" [])
    kJournalHeaderBytes 1.
(** A long record that the disk accepts only in part, then a short one. *)
Definition after_failed_append : Journal * Result unit * Result unit :=
  let '(j1, r1) := append (Some (150%nat, "no space left on device")) None fresh_journal
                     JournalRecordType.Artifact (replicate 100 x00) in
  let '(j2, r2) := append None None j1 JournalRecordType.Artifact (replicate 4 x00) in
  (j2, r1, r2).

(** The bytes of an append that failed halfway are not removed.  When the next
    append stores a shorter record it reports success, but the rest of the failed
    one follows it in the file, so the journal is found corrupt when it is opened
    again and is not writable any more, although no byte was damaged. *)
Theorem failed_append_leaves_garbage :
  let '(j, first, second) := after_failed_append in
  first = fail ErrorCode.IoError "journal append failed: no space left on device" ∧
  second = Ok tt ∧
  match journal_open no_faults (file j) OpenOrCreateReadWrite default_options with
  | Ok j' => rv_outcome (recovery j') = RecoveryOutcome.CorruptRecord ∧
             rv_writable (recovery j') = false ∧ record_count (recovery j') = 1
  | Err _ => False
  end.
Proof. vm_compute. repeat split. Qed.

(** Instances of the properties above. *)
Lemma fresh_holds : journal_holds default_options fresh_journal [].
Proof.
  assert (make_header_bytes = history []) as Hh
    by (unfold history; change (frames []) with (@nil byte); by rewrite app_nil_r).
  constructor; cbn [fresh_journal is_open recovery rv_writable options file size_bytes next_sequence];
    [reflexivity|reflexivity|reflexivity|exact Hh| |constructor|constructor|constructor|reflexivity].
  rewrite <-Hh. symmetry. apply size_header.
Qed.
Lemma append_is_atomic_witness :
  journal_holds default_options fresh_journal [] ∧ ∃ rs' j',
    journal_open no_faults (file (fst (append (Some (30%nat, "x")) None fresh_journal
      JournalRecordType.Policy [x00; x01]))) OpenOrCreateReadWrite default_options = Ok j' ∧
    journal_holds default_options j' rs'.
Proof.
  split; [exact fresh_holds|].
  destruct (append_is_atomic default_options fresh_journal [] (Some (30%nat, "x")) None
    JournalRecordType.Policy [x00; x01] fresh_holds eq_refl eq_refl eq_refl eq_refl)
    as (rs' & j' & _ & _ & Hopen & Hj & _).
  exists rs', j'. split; [exact Hopen|exact Hj].
Defined.
Lemma damaged_journal_is_preserved_witness :
  let l := bytes_of "not a journal" in
  journal_open no_faults l OpenOrCreateReadWrite default_options =
    Ok (unreadable l default_options RecoveryOutcome.InvalidHeader 0
          "file is shorter than the journal header") ∧
  journal_writable (unreadable l default_options RecoveryOutcome.InvalidHeader 0
          "file is shorter than the journal header") = false.
Proof.
  intros l.
  assert (journal_open no_faults l OpenOrCreateReadWrite default_options =
    Ok (unreadable l default_options RecoveryOutcome.InvalidHeader 0
          "file is shorter than the journal header")) as Hopen by (vm_compute; reflexivity).
  split; [exact Hopen|].
  destruct (damaged_journal_is_preserved no_faults l OpenOrCreateReadWrite default_options _
    ltac:(discriminate) ltac:(discriminate) Hopen) as [_ H].
  destruct (H (or_introl eq_refl)) as (_ & Hw & _). exact Hw.
Defined.
Definition unread : Journal :=
  unreadable (bytes_of "not a journal") default_options RecoveryOutcome.InvalidHeader 0
    "file is shorter than the journal header".
Lemma recovered_prefix_loads_witness :
  journal_open no_faults (bytes_of "not a journal") ReadOnlyExisting default_options = Ok unread ∧
  ∃ rs, load unread (max_records default_options) (max_payload_bytes default_options) = Ok rs.
Proof.
  assert (journal_open no_faults (bytes_of "not a journal") ReadOnlyExisting default_options =
    Ok unread) as Hopen by (vm_compute; reflexivity).
  split; [exact Hopen|].
  destruct (recovered_prefix_loads no_faults (bytes_of "not a journal") ReadOnlyExisting default_options
    unread ltac:(discriminate) ltac:(discriminate) Hopen) as (rs & Hload & _).
  exists rs. exact Hload.
Defined.
Lemma compact_replaces_whole_witness :
  let cf := mkCompactFaults None None (λ _, None) None None no_faults in
  let rs := [mkRecord 4 9 [x01]] in
  (Forall (λ r, size (payload r) ≤ max_payload_bytes (options fresh_journal) ∧
                1 ≤ rec_type r ∧ rec_type r ≤ 11) rs) ∧
  let '(j', res) := compact cf fresh_journal rs in
  (file j' = file fresh_journal ∨ file j' = history (renumber 1 rs)) ∧
  (res = Ok tt →
     journal_holds (options fresh_journal) j' (renumber 1 rs) ∧
     load j' (max_records (options fresh_journal)) (max_payload_bytes (options fresh_journal)) =
       Ok (renumber 1 rs)).
Proof.
  intros cf rs.
  assert (Forall (λ r, size (payload r) ≤ max_payload_bytes (options fresh_journal) ∧
                1 ≤ rec_type r ∧ rec_type r ≤ 11) rs) as Hrs
    by (repeat constructor; vm_compute; discriminate).
  split; [exact Hrs|].
  apply (compact_replaces_whole cf fresh_journal rs); [reflexivity|reflexivity|exact Hrs].
Defined.
