(* ===== verification/State.v ===== *)
(** * Derived federation state

    Models include/fabric_federation/state.hpp and src/state.cpp up to the
    renderers: the canonical encoding of a state, the preparation of the artefact
    set and [derive_state], whose sections are a definition each.  The
    properties are in Derivation.v. *)

From S2P Require Import Prelude Errors Sha256 Text Codec Ids Names Scope Capability Policy Identity.
From S2P Require Import Explanation Lease Partition Evidence Membership Journal.

(** ** Data *)

Record ReplayEntry := mkReplay { request : RequestId; decision : Digest; decided_at : Tick }.
#[export] Instance ReplayEntry_eq_dec : EqDecision ReplayEntry.
Proof. solve_decision. Defined.

Record LeaseView := mkView {
  lv_id : LeaseId;
  lv_holder : MemberId;
  lv_holder_incarnation : Incarnation;
  lv_holder_generation : Generation;
  lv_scopes : list ScopeGrant;
  lv_issued_epoch : Epoch;
  lv_not_after : Tick;
  lv_state : LeaseState.t;
  lv_reason : ReasonCode.t;
  lv_revoked : bool
}.

Record MemberState := mkMemberState {
  ms_member : MemberId;
  ms_domain : FabricDomainId;
  ms_lifecycle : MemberLifecycleState.t;
  ms_lineage : Lineage;
  ms_lineage_id : LineageId;
  ms_bootstrap : bool;
  ms_partition_state : PartitionState.t;
  ms_declaration : MemberDeclaration;
  ms_current_identity : MemberIdentity;
  ms_admitted_identity : MemberIdentity;
  admitted_identity_current : bool;
  activation_current : bool;
  contributing_parties : list Contribution;
  ms_reasons : list Reason;
  ms_conflicts : list ConflictRecord;
  ms_rejected_kinds : list ArtifactKind.t;
  ms_retained_local_authority : list ScopeGrant;
  ms_delegated_terms : list DelegationTerms;
  ms_withdrawn_grants : list ScopeGrant;
  federation_authority : list ScopeGrant;
  withheld_grants : list ScopeGrant;
  withheld_global_mutation : list ScopeGrant;
  fenced_incarnations : list Incarnation;
  lease_ids : list LeaseId;
  ms_admission_digest : Digest;
  activated_epoch : Epoch;
  activated_at : Tick;
  ms_admitted_epoch : Epoch;
  ms_evidence : EvidenceState.t;
  ms_limit_reached : bool
}.

Record FederationState := mkState {
  federation : FederationId;
  coordinator : NodeId;
  coordinator_incarnation : Incarnation;
  epoch : Epoch;
  s_reconciling : bool;
  s_policy_id : PolicyId;
  s_policy_generation : Generation;
  s_policy_digest : Digest;
  s_logical_time : Tick;
  genesis_digest : Digest;
  description : string;
  artifact_count : N;
  rejected_artifact_count : N;
  duplicate_artifact_count : N;
  members : list MemberState;
  s_leases : list LeaseView;
  s_conflicts : list ConflictRecord;
  replay_ledger : list ReplayEntry;
  s_partition : PartitionAssessment;
  global_reasons : list Reason;
  s_recovery : list RecoveryDiagnostic
}.

(** The policy and the catalogue are pointers, null when [None]. *)
Record DerivationInputs := mkDerivationInputs {
  in_federation : FederationId;
  in_coordinator : NodeId;
  in_coordinator_incarnation : Incarnation;
  in_logical_time : Tick;
  in_policy : option FederationPolicy;
  in_catalog : option ScopeCatalog;
  in_artifacts : list Artifact;
  in_observations : list MemberObservation;
  in_leases : list AuthorityLease;
  in_replay_ledger : list ReplayEntry;
  in_recovery : list RecoveryDiagnostic
}.
Record DerivationResult := mkResult { state : FederationState; rejected : list Reason }.

Definition find_member (s : FederationState) (m : MemberId) : option MemberState :=
  List.find (λ c, bool_decide (ms_member c = m)) (members s).
Definition active_member_count (s : FederationState) : N :=
  size (filter (λ m, bool_decide (ms_lifecycle m = MemberLifecycleState.Active) ||
                     bool_decide (ms_lifecycle m = MemberLifecycleState.Degraded) = true) (members s)).
Definition has_replay (s : FederationState) (r : RequestId) : bool :=
  existsb (λ e, bool_decide (request e = r)) (replay_ledger s).

(** ** The canonical encoding *)

Definition kCanonicalStateVersion : N := 1.

(** The sorting of enumerators is by their value. *)
Definition sorted_kinds (l : list ArtifactKind.t) : list ArtifactKind.t :=
  std_unique (sort_by ArtifactKind.value l).

Definition encode_reasons (l : list Reason) : Enc :=
  enc_list kMaxReasonsPerDecision encode (sort_unique l).

Definition encode_member_state (m : MemberState) : Enc :=
  encode (ms_member m) >+> encode (ms_domain m) >+> Writer.u8 (wire (ms_lifecycle m)) >+>
  encode (ms_lineage m) >+> encode (ms_lineage_id m) >+> Writer.boolean (ms_bootstrap m) >+>
  Writer.u8 (wire (ms_partition_state m)) >+> encode (ms_current_identity m) >+>
  encode (ms_admitted_identity m) >+> Writer.boolean (admitted_identity_current m) >+>
  Writer.boolean (activation_current m) >+>
  encode_grants (ms_retained_local_authority m) kMaxScopesPerMember >+>
  encode_terms (ms_delegated_terms m) kMaxDelegationTermsPerMember >+>
  encode_grants (ms_withdrawn_grants m) kMaxScopesPerMember >+>
  encode_grants (federation_authority m) kMaxScopesPerMember >+>
  encode_grants (withheld_grants m) kMaxScopesPerMember >+>
  encode_grants (withheld_global_mutation m) kMaxScopesPerMember >+>
  enc_list kMaxMembers encode (sort_unique (fenced_incarnations m)) >+>
  enc_list kMaxLeasesPerMember encode (sort_unique (lease_ids m)) >+>
  Writer.digest (ms_admission_digest m) >+> encode (activated_epoch m) >+>
  encode (ms_admitted_epoch m) >+> Writer.u8 (wire (ms_evidence m)) >+>
  encode_reasons (ms_reasons m) >+>
  enc_list kMaxArtifactsPerMember (λ k, Writer.u16 (wire k)) (sorted_kinds (ms_rejected_kinds m)).

Definition encode_lease_view (l : LeaseView) : Enc :=
  encode (lv_id l) >+> encode (lv_holder l) >+> encode (lv_holder_incarnation l) >+>
  encode (lv_holder_generation l) >+> encode_grants (lv_scopes l) kMaxScopesPerLease >+>
  encode (lv_issued_epoch l) >+> encode (lv_not_after l) >+> Writer.u8 (wire (lv_state l)) >+>
  Writer.boolean (lv_revoked l).

Definition encode_replay (e : ReplayEntry) : Enc :=
  encode (request e) >+> Writer.digest (decision e) >+> encode (decided_at e).

Definition encode_federation_state (s : FederationState) : Enc :=
  Writer.u32 kCanonicalStateVersion >+> encode (federation s) >+> encode (coordinator s) >+>
  encode (coordinator_incarnation s) >+> encode (epoch s) >+> Writer.boolean (s_reconciling s) >+>
  Writer.identifier (str (s_policy_id s)) >+> encode (s_policy_generation s) >+>
  Writer.digest (s_policy_digest s) >+> encode (s_logical_time s) >+>
  Writer.digest (genesis_digest s) >+> Writer.text (description s) kMaxTextLength >+>
  enc_list kMaxMembers encode_member_state (sort_by ms_member (members s)) >+>
  enc_list kMaxLeases encode_lease_view (sort_by lv_id (s_leases s)) >+>
  encode_conflicts (s_conflicts s) kMaxConflicts >+>
  enc_list kMaxReplayEntries encode_replay (std_unique (sort_by request (replay_ledger s))) >+>
  Writer.u8 (wire (p_state (s_partition s))) >+>
  enc_list kMaxMembers (λ c, enc_list kMaxMembers encode (std_sort c))
    (std_sort (components (s_partition s))) >+>
  encode_reasons (global_reasons s).

Definition state_digest (s : FederationState) : Digest := digest_of (encode_federation_state s).

(** ** Preparing the artefacts *)

Record PreparedArtifacts := mkPrepared {
  accepted : list Artifact;
  pr_rejected : list Reason;
  duplicates : N;
  pr_conflicts : list ConflictRecord
}.

(** The state of the first loop. *)
Record ArtifactIndex := mkIndex {
  by_id : smap EvidenceId Artifact;
  quarantined : list EvidenceId;
  ix_duplicates : N;
  ix_rejected : list Reason;
  ix_conflicts : list ConflictRecord
}.

(** The reason of a conflicting duplicate is given the text of the conflict
    record after that record was moved from: an empty string. *)
Definition index_step (s : ArtifactIndex) (a : Artifact) : ArtifactIndex :=
  let e := art_evidence a in
  match smap_find e (by_id s) with
  | None => mkIndex (smap_insert e a (by_id s)) (quarantined s) (ix_duplicates s) (ix_rejected s)
              (ix_conflicts s)
  | Some existing =>
      if bool_decide (artifact_digest existing = artifact_digest a) then
        mkIndex (by_id s) (quarantined s) (ix_duplicates s + 1)
          (ix_rejected s ++
            [mkReason ReasonCode.EvidenceDuplicateIdentical
               ("evidence " +s+ id_to_string e +s+ " arrived more than once with identical content")])
          (ix_conflicts s)
      else
        mkIndex (by_id s) (e :: quarantined s) (ix_duplicates s + 1)
          (ix_rejected s ++ [mkReason ReasonCode.EvidenceDuplicateConflicting ""])
          (ix_conflicts s ++
            [mkConflict no_grant ConflictKind.DuplicateEvidence [art_issuer existing; art_issuer a]
               ("evidence " +s+ id_to_string e +s+
                " was presented twice with different content; both copies are quarantined")])
  end.
Definition index_artifacts (l : list Artifact) : ArtifactIndex :=
  foldl index_step (mkIndex [] [] 0 [] []) l.

(** The second loop: why an indexed artefact is not accepted. *)
Definition artifact_refusal (federation : FederationId) (catalog : ScopeCatalog) (a : Artifact) :
    option Reason :=
  if negb (bool_decide (art_federation (envelope a) = federation)) then
    Some (mkReason ReasonCode.FederationIdentityMismatch
            ("evidence " +s+ id_to_string (art_evidence a) +s+ " belongs to federation " +s+
             id_to_string (art_federation (envelope a))))
  else match artifact_validate catalog a with
       | Ok _ => None
       | Err s => Some (mkReason ReasonCode.ArtifactMalformed
                          ("evidence " +s+ id_to_string (art_evidence a) +s+ ": " +s+
                           Status_to_string s))
       end.
Definition prepare_artifacts (federation : FederationId) (catalog : ScopeCatalog)
    (artifacts : list Artifact) : PreparedArtifacts :=
  let index := index_artifacts artifacts in
  let candidates := (snd <$> filter (λ p, p.1 ∉ quarantined index) (by_id index)) in
  mkPrepared
    (sort_by art_evidence (filter (λ a, artifact_refusal federation catalog a = None) candidates))
    (ix_rejected index ++ omap (artifact_refusal federation catalog) candidates)
    (ix_duplicates index)
    (canonicalize_conflicts (ix_conflicts index)).

(** ** Genesis, policy, clock *)

(** The list of refusals is cut at the bound, with a reason that says so. *)
Definition bounded_rejections (rejected : list Reason) : list Reason :=
  if kMaxReasonsPerDecision <? size rejected then
    firstn (N.to_nat kMaxReasonsPerDecision) rejected ++
    [mkReason ReasonCode.LimitExceeded "the rejection list was truncated at the configured bound"]
  else rejected.

Definition genesis_records (arts : list Artifact) : list Artifact :=
  of_art_kind ArtifactKind.FederationGenesis arts.
(** The genesis record, when there is exactly one. *)
Definition sole_genesis (arts : list Artifact) : option Artifact :=
  match genesis_records arts with [g] => Some g | _ => None end.
Definition genesis_of (arts : list Artifact) : option FederationGenesis :=
  (λ g, genesis (body g)) <$> sole_genesis arts.
Definition genesis_conflicts (arts : list Artifact) : list ConflictRecord :=
  match genesis_records arts with
  | _ :: _ :: _ as records =>
      [mkConflict no_grant ConflictKind.ConflictingIdentity
         ((λ r, subject (envelope r)) <$> records)
         "the federation carries more than one genesis record; the founder identity is ambiguous and no member is bootstrapped"]
  | _ => []
  end.

Definition newest_policy (arts : list Artifact) : option Artifact :=
  pick (later (λ a, body_policy_generation (body a))) (of_art_kind ArtifactKind.PolicyUpdate arts).
(** The policy in force and its generation. *)
Definition effective_policy (default : FederationPolicy) (arts : list Artifact) :
    FederationPolicy * Generation :=
  match newest_policy arts, genesis_of arts with
  | Some a, _ => (body_policy (body a), body_policy_generation (body a))
  | None, Some g => (genesis_policy g, policy_generation (genesis_policy g))
  | None, None => (default, policy_generation default)
  end.

Definition epoch_advances (arts : list Artifact) : list Artifact :=
  of_art_kind ArtifactKind.EpochAdvance arts.
Definition epoch_of (arts : list Artifact) : Epoch :=
  mkCounter (foldl (λ e a, if e <? value (body_epoch (body a)) then value (body_epoch (body a)) else e)
               1 (epoch_advances arts)).
(** Every accepted artefact may move the clock forward. *)
Definition clock_of (start : Tick) (arts : list Artifact) : Tick :=
  foldl (λ t a, if value t <? value (logical_time (body a)) then logical_time (body a) else t) start arts.

(** The latest epoch advance that followed a partition. *)
Definition follows_partition (a : Artifact) : bool :=
  bool_decide (body_reason_code (body a) = wire ReasonCode.PartitionSplitSuspendsGlobalMutation) ||
  bool_decide (body_reason_code (body a) = wire ReasonCode.PartitionIndeterminateSuspendsGlobalMutation).
Definition recovery_epoch (arts : list Artifact) : option Epoch :=
  foldl (λ r a, if follows_partition a
                then match r with
                     | Some e => if ltb e (body_epoch (body a)) then Some (body_epoch (body a)) else r
                     | None => Some (body_epoch (body a))
                     end
                else r) None (epoch_advances arts).
Definition reconciliation_recorded (arts : list Artifact) (recovery : Epoch) : bool :=
  existsb (λ a, is_kind ArtifactKind.ReconciliationComplete a &&
                negb (ltb (body_epoch (body a)) recovery)) arts.

(** ** The setting every member is derived in *)

Record Setting := mkSetting {
  st_federation : FederationId;
  st_catalog : ScopeCatalog;
  st_arts : list Artifact;
  st_policy : FederationPolicy;
  st_epoch : Epoch;
  st_now : Tick;
  st_founders : list MemberDeclaration;
  st_order : list MemberId
}.

Definition founders_of (arts : list Artifact) : list MemberDeclaration :=
  match genesis_of arts with Some g => [founder g] | None => [] end.
Definition founder_members (founders : list MemberDeclaration) : list MemberId :=
  (λ d, con_member (decl_constitution d)) <$> founders.
Definition member_order (arts : list Artifact) (founders : list MemberDeclaration)
    (leases : list AuthorityLease) : list MemberId :=
  sort_unique (filter (λ m, is_nil m = false) ((λ a, subject (envelope a)) <$> arts) ++
               founder_members founders ++
               filter (λ m, is_nil m = false) ((λ l, idn_member (holder l)) <$> leases)).
(** [by_member[m]]: artefacts without a subject are in no bucket. *)
Definition bucket (s : Setting) (m : MemberId) : list Artifact :=
  filter (λ a, subject (envelope a) = m ∧ is_nil (subject (envelope a)) = false) (st_arts s).

Definition context (s : Setting) (partition : PartitionAssessment) (reconciling : bool)
    (established : list MemberId) : MembershipContext :=
  mkContext (st_federation s) (st_epoch s) (st_now s) (st_policy s) (st_catalog s) partition
    reconciling established (founder_members (st_founders s)) (st_founders s).

Definition Derivations : Type := list (MemberId * MembershipDerivation).
Definition derive_all (s : Setting) (c : MembershipContext) : Derivations :=
  (λ m, (m, derive_membership m (bucket s m) c)) <$> st_order s.

(** ** The fixpoint of established membership *)

Definition kMaxDerivationRounds : N := kMaxMembers + 2.
Definition neutral : PartitionAssessment :=
  mkAssessment PartitionState.Connected [] [] [] [] [] EvidenceState.Known
    "partition influence withheld during the standing fixpoint".

Definition established_of (ds : Derivations) : list MemberId :=
  sort_unique (fst <$> filter (λ p, established_state (lifecycle p.2) = true) ds).
Definition standing_round (s : Setting) (established : list MemberId) : Derivations :=
  derive_all s (context s neutral false established).

(** The members, their derivations and whether the loop converged. *)
Fixpoint standing_loop (rounds : nat) (s : Setting) (established : list MemberId) (ds : Derivations) :
    list MemberId * Derivations * bool :=
  match rounds with
  | O => (established, ds, false)
  | S rounds =>
      let next := standing_round s established in
      let next_established := established_of next in
      if bool_decide (next_established = established) then (next_established, next, true)
      else standing_loop rounds s next_established next
  end.
Definition standing (s : Setting) : list MemberId * Derivations * bool :=
  standing_loop (N.to_nat kMaxDerivationRounds) s [] [].

Definition find_derivation (ds : Derivations) (m : MemberId) : option MembershipDerivation :=
  snd <$> List.find (λ p, bool_decide (p.1 = m)) ds.

(** ** Partition and reconciliation *)

Definition active_incarnations (ds : Derivations) (established : list MemberId) : list Incarnation :=
  (λ m, match find_derivation ds m with
        | Some d => idn_incarnation (current_identity (facts d))
        | None => zero
        end) <$> established.
Definition partition_reasons (p : PartitionAssessment) : list Reason :=
  if bool_decide (p_state p = PartitionState.Connected) then []
  else [mkReason (if bool_decide (p_state p = PartitionState.Split)
                  then ReasonCode.PartitionSplitSuspendsGlobalMutation
                  else ReasonCode.PartitionIndeterminateSuspendsGlobalMutation) (p_summary p)].

Definition all_reattested (ds : Derivations) (established : list MemberId) : bool :=
  forallb (λ m, match find_derivation ds m with
                | Some d => has_reattestation (facts d)
                | None => false
                end) established.
(** The flag and the reasons recorded for it. *)
Definition reconciliation (arts : list Artifact) (ds : Derivations) (established : list MemberId) :
    bool * list Reason :=
  match recovery_epoch arts with
  | None => (false, [])
  | Some e =>
      let started := mkReason ReasonCode.PartitionReconcilingSuspendsGlobalMutation
        ("the federation advanced to epoch " +s+ to_dec (value e) +s+
         " after a partition and is reconciling") in
      if reconciliation_recorded arts e then
        if all_reattested ds established then (false, [started])
        else (true, [started; mkReason ReasonCode.PartitionReattestationMissing
                       "a reconciliation record exists but not every active member has re-attested"])
      else (true, [started])
  end.

(** ** The final derivation of a member *)

Definition member_state (s : Setting) (partition : PartitionAssessment) (converged : bool)
    (p : MemberId * MembershipDerivation) : MemberState :=
  let '(m, d) := p in
  let f := facts d in
  mkMemberState m (con_domain (decl_constitution (f_declaration f))) (lifecycle d) (f_lineage f)
    (slot_lineage_id (slot_make m (f_lineage f))) (f_bootstrap f) (p_state partition)
    (f_declaration f) (current_identity f) (admitted_identity f)
    (bool_decide (idn_constitution (admitted_identity f) = idn_constitution (current_identity f)))
    (activation_matches_identity f && activation_at_current_epoch f)
    (f_contributions f)
    (f_reasons f ++
     reason_if (bool_decide (lifecycle d = MemberLifecycleState.Active) && negb converged)
       ReasonCode.EvidenceIndeterminate
       "the established-member fixpoint did not converge; this member's activation is treated as indeterminate")
    (f_conflicts f) (rejected_kinds f) (retained_local_authority d) (f_delegated_terms f)
    (f_withdrawn_grants f) [] [] [] (superseded_incarnations f) [] (admission_digest f)
    (if activation_at_current_epoch f then st_epoch s else zero) zero (admitted_epoch f)
    (f_evidence f) false.

(** ** Conflicts between live delegations *)

Definition GrantClaim : Type := MemberId * DelegationTerms.

Definition claims_of (ms : list MemberState) : list GrantClaim :=
  filter (λ m, lifecycle_holds_federation_authority (ms_lifecycle m) = true) ms ≫=
  λ m, (λ t, (ms_member m, t)) <$> ms_delegated_terms m.

Definition terms_equivalent (a b : DelegationTerms) : bool :=
  bool_decide (mode a = mode b) && (weight a =? weight b) &&
  bool_decide (not_after_ a = not_after_ b) && bool_decide (constraint a = constraint b).
Definition pair_conflict (a b : DelegationTerms) : option ConflictKind.t :=
  if negb (bool_decide (mode a = mode b)) then Some ConflictKind.ModeMismatch
  else if bool_decide (mode a = DelegationMode.Exclusive) then Some ConflictKind.OverlappingExclusive
  else if negb (terms_equivalent a b) then Some ConflictKind.AmbiguousPrecedence
  else None.
(** The two nested loops leave at the first pair that disagrees. *)
Fixpoint first_conflict (group : list GrantClaim) : option ConflictKind.t :=
  match group with
  | [] => None
  | a :: rest =>
      match omap (λ b, pair_conflict a.2 b.2) rest with
      | k :: _ => Some k
      | [] => first_conflict rest
      end
  end.

Definition group_of (claims : list GrantClaim) (g : ScopeGrant) : list GrantClaim :=
  filter (λ c, grant c.2 = g) claims.

(** How the claims on one grant are settled. *)
Inductive Resolution :=
  | Undisputed
  | Precedence (winner : MemberId)
  | Conflicted (record : ConflictRecord).
Definition resolve (policy : FederationPolicy) (claims : list GrantClaim) (g : ScopeGrant) : Resolution :=
  let group := group_of claims g in
  match first_conflict group with
  | None => Undisputed
  | Some k =>
      let claimants := sort_unique (fst <$> group) in
      match precedence_for policy g with
      | Some precedence =>
          match filter (λ m, m ∈ claimants) precedence with
          | [m] => Precedence m
          | matching =>
              Conflicted (mkConflict g ConflictKind.PrecedenceUnsatisfiable claimants
                ("configured precedence names " +s+ to_dec (size matching) +s+
                 " of the claimants, so it cannot order them"))
          end
      | None =>
          Conflicted (mkConflict g k claimants
            ("overlapping delegations of " +s+ grant_to_string g +s+
             " disagree; the grant is withheld from every claimant until a party changes its declaration or policy configures precedence"))
      end
  end.
(** The records, in the order of the grants. *)
Definition claim_conflicts (policy : FederationPolicy) (claims : list GrantClaim) : list ConflictRecord :=
  omap (λ g, match resolve policy claims g with Conflicted r => Some r | _ => None end)
       (sort_unique ((λ c, grant c.2) <$> claims)).

(** ** Effective authority *)

Inductive Disposition := Granted | Withheld | WithheldGlobal.
#[export] Instance Disposition_eq_dec : EqDecision Disposition.
Proof. solve_decision. Defined.

(** What the loop over the delegated terms does with one of them. *)
Section dispose.
Context (s : Setting) (partition : PartitionState.t) (reconciling : bool) (claims : list GrantClaim).

Definition suspended : bool :=
  (reconciling && suspend_global_mutation_while_reconciling (st_policy s)) ||
  ((bool_decide (partition = PartitionState.Split) ||
    bool_decide (partition = PartitionState.Indeterminate)) &&
   suspend_global_mutation_on_partition (st_policy s)).

Definition dispose (holds : bool) (m : MemberState) (t : DelegationTerms) :
    Disposition * list Reason :=
  let g := grant t in
  let '(scope_class, known) := classify (st_catalog s) (scope g) in
  if negb known || bool_decide (scope_class = ScopeClass.Local) then
    (Withheld, [mkReason ReasonCode.ScopeUnknownToCatalogue
                  (grant_to_string g +s+ " is not delegable in this build")])
  else if scope_delegation_forbidden (st_policy s) (scope g) then
    (Withheld, [mkReason ReasonCode.ScopeDelegationForbiddenByPolicy
                  ("policy forbids delegating " +s+ str (scope g))])
  else if grants_cover (ms_withdrawn_grants m) g then
    (Withheld, [mkReason ReasonCode.DelegationWithdrawn
                  (grant_to_string g +s+ " was withdrawn by the member")])
  else if negb (is_zero (not_after_ t)) && ltb (not_after_ t) (st_now s) then
    (Withheld, [mkReason ReasonCode.DelegationExpired
                  (grant_to_string g +s+ " expired at tick " +s+ to_dec (value (not_after_ t)))])
  else
  let last_checks reasons :=
    if negb holds then (Withheld, reasons)
    else if bool_decide (scope_class = ScopeClass.GlobalMutation) && suspended then
      (WithheldGlobal, reasons)
    else if bool_decide (ms_lifecycle m = MemberLifecycleState.Degraded) &&
            (bool_decide (verb g = AuthorityVerb.Mutate) ||
             bool_decide (verb g = AuthorityVerb.Administer)) then
      (Withheld, reasons)
    else (Granted, reasons) in
  match resolve (st_policy s) claims g with
  | Conflicted _ => (Withheld, [])
  | Precedence w =>
      if bool_decide (w = ms_member m) then
        last_checks [mkReason ReasonCode.DelegationPrecedenceConfigured
                       (grant_to_string g +s+
                        " is held by this member under the configured precedence order")]
      else (Withheld, [mkReason ReasonCode.DelegationPrecedenceConfigured
                         (grant_to_string g +s+ " is held by " +s+ id_to_string w +s+
                          " under the configured precedence order")])
  | Undisputed => last_checks []
  end.

Definition holds_authority (ds : Derivations) (m : MemberState) : bool :=
  let needs_reactivation :=
    match find_derivation ds (ms_member m) with
    | Some d => has_admission (facts d) && negb (activation_matches_identity (facts d))
    | None => false
    end in
  lifecycle_holds_federation_authority (ms_lifecycle m) &&
  negb (needs_reactivation && bool_decide (ms_lifecycle m = MemberLifecycleState.Admitted_)).

Definition with_authority (ds : Derivations) (m : MemberState) : MemberState :=
  let holds := holds_authority ds m in
  let disposed := (λ t, (grant t, dispose holds m t)) <$> ms_delegated_terms m in
  let having d := canonicalize_grants (fst <$> filter (λ p, p.2.1 = d) disposed) in
  mkMemberState (ms_member m) (ms_domain m) (ms_lifecycle m) (ms_lineage m) (ms_lineage_id m)
    (ms_bootstrap m) (ms_partition_state m) (ms_declaration m) (ms_current_identity m)
    (ms_admitted_identity m) (admitted_identity_current m) (activation_current m)
    (contributing_parties m) (ms_reasons m ++ (disposed ≫= λ p, p.2.2)) (ms_conflicts m)
    (ms_rejected_kinds m) (ms_retained_local_authority m) (ms_delegated_terms m)
    (ms_withdrawn_grants m) (having Granted) (having Withheld) (having WithheldGlobal)
    (fenced_incarnations m) (lease_ids m) (ms_admission_digest m) (activated_epoch m)
    (activated_at m) (ms_admitted_epoch m) (ms_evidence m) (ms_limit_reached m).
End dispose.

(** ** Leases, ledger, finishing *)

Definition lease_view (epoch : Epoch) (incarnation : Incarnation) (now : Tick) (l : AuthorityLease) :
    LeaseView :=
  let e := evaluate_lease_whole l epoch incarnation now in
  mkView (lease_id l) (idn_member (holder l)) (idn_incarnation (holder l))
    (idn_generation (holder l)) (scopes l) (issued_epoch l) (lease_not_after l) (le_state e)
    (le_reason e) (revoked l).

(** [resize] after [sort] and [unique]. *)
Definition ledger_of (entries : list ReplayEntry) : list ReplayEntry * list Reason :=
  let l := std_unique (sort_by request entries) in
  if kMaxReplayEntries <? size l then
    (firstn (N.to_nat kMaxReplayEntries) l,
     [mkReason ReasonCode.LimitExceeded "the replay ledger was truncated to the configured bound"])
  else (l, []).

(** The lease identifiers, the conflicts the member is a claimant of, and the
    canonical order of what was collected. *)
Definition finish_member (views : list LeaseView) (conflicts : list ConflictRecord) (m : MemberState) :
    MemberState :=
  mkMemberState (ms_member m) (ms_domain m) (ms_lifecycle m) (ms_lineage m) (ms_lineage_id m)
    (ms_bootstrap m) (ms_partition_state m) (ms_declaration m) (ms_current_identity m)
    (ms_admitted_identity m) (admitted_identity_current m) (activation_current m)
    (contributing_parties m) (sort_unique (ms_reasons m))
    (canonicalize_conflicts (ms_conflicts m ++ filter (λ c, ms_member m ∈ claimants c) conflicts))
    (ms_rejected_kinds m) (ms_retained_local_authority m) (ms_delegated_terms m)
    (ms_withdrawn_grants m) (federation_authority m) (withheld_grants m)
    (withheld_global_mutation m) (std_sort (fenced_incarnations m))
    (std_sort (lv_id <$> filter (λ v, lv_holder v = ms_member m) views))
    (ms_admission_digest m) (activated_epoch m) (activated_at m) (ms_admitted_epoch m)
    (ms_evidence m) (ms_limit_reached m).

(** ** [derive_state] *)

(** The members of the state and the reasons and conflicts found on the way. *)
Record Derived := mkDerived {
  dv_partition : PartitionAssessment;
  dv_reconciling : bool;
  dv_members : list MemberState;
  dv_conflicts : list ConflictRecord;
  dv_reasons : list Reason
}.
Definition derive_members (s : Setting) (observations : list MemberObservation) : Derived :=
  let '(established, ds, converged) := standing s in
  let partition := assess_partition established (active_incarnations ds established) observations
                     (st_epoch s) (st_now s) (observation_freshness_ticks (st_policy s)) in
  let '(reconciling, reconciliation_reasons) := reconciliation (st_arts s) ds established in
  let final := member_state s partition converged <$>
                 derive_all s (context s partition reconciling established) in
  let claims := claims_of final in
  mkDerived partition reconciling
    (with_authority s (p_state partition) reconciling claims ds <$> final)
    (claim_conflicts (st_policy s) claims)
    (reconciliation_reasons ++
     reason_if (negb converged) ReasonCode.LimitExceeded
       "the established-member fixpoint did not converge within the configured bound" ++
     partition_reasons partition).

Definition setting_of (i : DerivationInputs) (default : FederationPolicy) (catalog : ScopeCatalog)
    (arts : list Artifact) : Setting :=
  let founders := founders_of arts in
  mkSetting (in_federation i) catalog arts (effective_policy default arts).1 (epoch_of arts)
    (clock_of (in_logical_time i) arts) founders (member_order arts founders (in_leases i)).

Definition derive_state (i : DerivationInputs) : Result DerivationResult :=
  match in_policy i, in_catalog i with
  | None, _ => fail ErrorCode.InvalidArgument "derivation requires a policy"
  | Some _, None => fail ErrorCode.InvalidArgument "derivation requires a scope catalogue"
  | Some default, Some catalog =>
  let prepared := prepare_artifacts (in_federation i) catalog (in_artifacts i) in
  let arts := accepted prepared in
  let s := setting_of i default catalog arts in
  if kMaxMembers <? size (st_order s) then
    fail ErrorCode.BoundsExceeded "more members than the configured bound"
  else
  let d := derive_members s (in_observations i) in
  let views := sort_by lv_id
    (lease_view (st_epoch s) (in_coordinator_incarnation i) (st_now s) <$> in_leases i) in
  let '(ledger, ledger_reasons) := ledger_of (in_replay_ledger i) in
  let conflicts := canonicalize_conflicts
    (pr_conflicts prepared ++ genesis_conflicts arts ++ dv_conflicts d) in
  Ok (mkResult
    {| federation := in_federation i; coordinator := in_coordinator i;
       coordinator_incarnation := in_coordinator_incarnation i; epoch := st_epoch s;
       s_reconciling := dv_reconciling d; s_policy_id := policy_id (st_policy s);
       s_policy_generation := (effective_policy default arts).2;
       s_policy_digest := policy_digest (st_policy s);
       s_logical_time := st_now s;
       genesis_digest := from_option artifact_digest Digest_zero (sole_genesis arts);
       description := from_option genesis_description "" (genesis_of arts);
       artifact_count := size arts; rejected_artifact_count := size (pr_rejected prepared);
       duplicate_artifact_count := duplicates prepared;
       members := sort_by ms_member (finish_member views conflicts <$> dv_members d);
       s_leases := views; s_conflicts := conflicts; replay_ledger := ledger;
       s_partition := dv_partition d;
       global_reasons := sort_unique (bounded_rejections (pr_rejected prepared) ++
         reason_if (nonempty (genesis_conflicts arts)) ReasonCode.ArtifactRejected "" ++
         dv_reasons d ++ ledger_reasons);
       s_recovery := in_recovery i |}
    (pr_rejected prepared))
  end.
