(* ===== verification/Derivation.v ===== *)
(** * Properties of the derived state

    What src/state.cpp promises: the fixpoint of membership always converges and
    is rooted in the genesis record, authority is granted exactly under the
    conditions of the code, disputed grants have no two holders, and the result
    does not depend on the order in which evidence arrived. *)

From S2P Require Import Prelude Errors Sha256 Text Codec Ids Names Scope Capability Policy Identity.
From S2P Require Import Explanation Lease Partition Evidence Membership Journal State.

(** ** Standing depends on the established members only, and monotonically *)

Lemma size_sort_unique_mono {A} `{CmpLaws A, EqDecision A} (l k : list A) :
  l ⊆ k → size (sort_unique l) ≤ size (sort_unique k).
Proof.
  intros Hlk. unfold size.
  assert (length (sort_unique l) ≤ length (sort_unique k))%nat; [|lia].
  apply submseteq_length, NoDup_submseteq; [apply NoDup_sort_unique|].
  intros x. rewrite !elem_of_sort_unique. apply Hlk.
Qed.

Lemma assess_mono candidate proposer active active' endorsers endorsers' policy :
  endorsers ⊆ endorsers' → (active = true → active' = true) →
  mp_satisfied (assess_multi_party candidate proposer active endorsers policy false) = true →
  mp_satisfied (assess_multi_party candidate proposer active' endorsers' policy false) = true.
Proof.
  intros Hend Hact. rewrite !assess_satisfied. intros (? & ? & Hp & He). split_and!; [done|auto| |].
  - etransitivity; [exact Hp|]. apply size_sort_unique_mono.
    intros x. rewrite !elem_of_app, !list_elem_of_filter. set_solver.
  - etransitivity; [exact He|]. apply size_sort_unique_mono.
    intros x. rewrite !list_elem_of_filter. set_solver.
Qed.

(** Two contexts that differ in the assessment of the partition, and of which the
    second has at least the established members of the first. *)
Record grows (c c' : MembershipContext) : Prop := {
  grows_policy : ctx_policy c = ctx_policy c';
  grows_epoch : current_epoch c = current_epoch c';
  grows_founders : bootstrap_members c = bootstrap_members c';
  grows_declarations : bootstrap_declarations c = bootstrap_declarations c';
  grows_members : established_members c ⊆ established_members c'
}.

Lemma derive_lifecycle_established_iff i c :
  established_state (derive_lifecycle i c).1 = true ↔
  li_retired i = false ∧ li_left i = false ∧ li_known i = true ∧
  fence_in_force (li_fence i) (li_activation i) = false ∧ li_admitted i = true ∧
  (li_activation i = None ∨ li_matches i = true ∨
   li_generation_changed i && reconsent_on_generation_change (ctx_policy c) = false).
Proof.
  unfold derive_lifecycle.
  destruct (li_retired i); [naive_solver|]. destruct (li_left i); [naive_solver|].
  destruct (li_known i); [|naive_solver]. cbn [negb].
  destruct (fence_in_force _ _); [naive_solver|]. destruct (li_admitted i); [|naive_solver].
  cbn [negb]. destruct (li_activation i); [|naive_solver].
  destruct (li_matches i); cbn [negb].
  - destruct (li_at_epoch i); cbn [negb]; [|naive_solver].
    destruct (bool_decide _); naive_solver.
  - destruct (_ && _); naive_solver.
Qed.

Lemma endorsers_mono m p endorsements e e' :
  e ⊆ e' → endorsers_of m p endorsements e ⊆ endorsers_of m p endorsements e'.
Proof. intros He x. rewrite !elem_of_endorsers_of. intros [? ?]. auto. Qed.

Lemma admit_proposal_mono m lineage p ids acceptances endorsements admissions c c' ids1 :
  grows c c' →
  let cn e := consent_of m ids p acceptances endorsements e in
  adm_valid (admit_proposal m lineage p ids1 (cn_consented (cn (established_members c)))
               (cn_endorsers (cn (established_members c))) admissions c) = true →
  adm_valid (admit_proposal m lineage p ids1 (cn_consented (cn (established_members c')))
               (cn_endorsers (cn (established_members c'))) admissions c') = true.
Proof.
  intros [Hp _ _ _ He] cn. subst cn. unfold admit_proposal.
  cbn [consent_of cn_consented cn_endorsers]. rewrite <-Hp.
  destruct (record_outcome _ _ _) as [[??]?]. destruct (record_outcome _ _ _) as [[??]?].
  cbn [adm_valid]. rewrite !andb_true_iff. intros [Hs ?]. split; [|done].
  eapply assess_mono; [by apply endorsers_mono| |exact Hs].
  unfold contains. rewrite !bool_decide_eq_true. apply He.
Qed.

Lemma derive_membership_mono m arts c c' :
  grows c c' →
  established_state (lifecycle (derive_membership m arts c)) = true →
  established_state (lifecycle (derive_membership m arts c')) = true.
Proof.
  intros Hg. unfold derive_membership.
  pose proof Hg as [Hp Hep Hb Hd He]. rewrite <-Hep.
  unfold bootstrap_identities. rewrite <-Hb, <-Hd.
  destruct (activation_currency _ _ _ _) as [[ae at_] ac].
  match goal with |- context [derive_lifecycle ?i c] => set (i0 := i) end.
  match goal with |- context [derive_lifecycle ?i c'] => set (i1 := i) end.
  destruct (derive_lifecycle i0 c) as [s rs] eqn:E0.
  destruct (derive_lifecycle i1 c') as [s' rs'] eqn:E1.
  cbn [lifecycle].
  assert (s = (derive_lifecycle i0 c).1) as -> by by rewrite E0.
  assert (s' = (derive_lifecycle i1 c').1) as -> by by rewrite E1.
  clear E0 E1. rewrite !derive_lifecycle_established_iff.
  assert (li_admitted i0 = true → li_admitted i1 = true) as Hadm.
  { subst i0 i1. cbn [li_admitted]. destruct (operative_proposal _) as [p|]; [|done].
    by apply admit_proposal_mono. }
  intros (? & ? & ? & ? & Ha & Hact). specialize (Hadm Ha).
  split_and!; [done..|].
  revert Ha Hadm Hact. subst i0 i1.
  cbn [li_admitted li_activation li_matches li_generation_changed].
  intros -> ->. rewrite <-Hp. by destruct (operative_proposal _).
Qed.

(** ** The fixpoint *)

Section standing.
Context (s : Setting).

Definition next_standing (established : list MemberId) : list MemberId :=
  established_of (standing_round s established).

Lemma elem_of_next E m :
  m ∈ next_standing E ↔
  m ∈ st_order s ∧
  established_state (lifecycle (derive_membership m (bucket s m) (context s neutral false E))) = true.
Proof.
  unfold next_standing, established_of, standing_round, derive_all.
  rewrite elem_of_sort_unique, list_elem_of_fmap. split.
  - intros ([m' d] & -> & [Hd Hin]%list_elem_of_filter). apply list_elem_of_fmap in Hin as (m0 & [= -> ->] & Hin).
    done.
  - intros [Hin Hd]. eexists (m, _). split; [done|]. apply list_elem_of_filter.
    split; [exact Hd|]. apply list_elem_of_fmap. by exists m.
Qed.
Lemma next_mono E E' : E ⊆ E' → next_standing E ⊆ next_standing E'.
Proof.
  intros HE m. rewrite !elem_of_next. intros [? Hm]. split; [done|].
  eapply derive_membership_mono; [|exact Hm]. by constructor.
Qed.

(** Closed under the derivation: everyone it establishes is already in. *)
Definition closed_standing (X : list MemberId) : Prop := next_standing X ⊆ X.

Lemma standing_loop_fixpoint rounds : ∀ E ds,
  E ⊆ next_standing E → E ⊆ st_order s → sort_unique E = E →
  (length (st_order s) < length E + rounds)%nat →
  ∃ E', standing_loop rounds s E ds = (E', standing_round s E', true) ∧
    next_standing E' = E' ∧ E' ⊆ st_order s ∧
    (∀ X, closed_standing X → E ⊆ X → E' ⊆ X).
Proof.
  induction rounds as [|rounds IH]; intros E ds Hgrow Hord HE Hlen.
  { exfalso. assert (length E ≤ length (st_order s))%nat; [|lia].
    apply submseteq_length, NoDup_submseteq; [|exact Hord]. rewrite <-HE. apply NoDup_sort_unique. }
  cbn [standing_loop]. fold (next_standing E). case_bool_decide as Heq.
  { exists E. rewrite Heq. done. }
  assert (sort_unique (next_standing E) = next_standing E) as Hs by apply sort_unique_idemp.
  assert (next_standing E ⊆ st_order s) as Hn by (intros m Hm; apply elem_of_next in Hm; apply Hm).
  assert (length E < length (next_standing E))%nat as Hlt.
  { apply Nat.nle_gt. intros Hle. apply Heq. transitivity (sort_unique E); [|exact HE].
    rewrite <-Hs. apply sort_unique_ext.
    assert (NoDup E) as HdE by (rewrite <-HE; apply NoDup_sort_unique).
    assert (E ≡ₚ next_standing E) as Hperm.
    { apply submseteq_length_Permutation; [by apply NoDup_submseteq|done]. }
    intros x. by rewrite <-Hperm. }
  destruct (IH (next_standing E) (standing_round s E)) as (E' & Hl & Hfix & Ho & Hleast);
    [by apply next_mono|done|done|lia|].
  exists E'. split_and!; [done..|]. intros X HX HEX. apply Hleast; [done|].
  etransitivity; [by apply next_mono|]. exact HX.
Qed.

End standing.

Lemma rounds_enough {A} (l : list A) :
  size l ≤ kMaxMembers → (length l < N.to_nat kMaxDerivationRounds)%nat.
Proof. unfold kMaxDerivationRounds, size. generalize kMaxMembers. intros k. lia. Qed.

Lemma standing_fixpoint s :
  size (st_order s) ≤ kMaxMembers →
  ∃ E, standing s = (E, standing_round s E, true) ∧ next_standing s E = E ∧ E ⊆ st_order s ∧
    ∀ X, closed_standing s X → E ⊆ X.
Proof.
  intros Hsize%rounds_enough. unfold standing.
  revert Hsize. generalize (N.to_nat kMaxDerivationRounds). intros rounds Hsize.
  destruct (standing_loop_fixpoint s rounds [] []) as (E & H & Hfix & Ho & Hleast);
    [apply list_subseteq_nil|apply list_subseteq_nil|done|done|].
  exists E. split_and!; [done..|]. intros X HX. apply Hleast; [done|apply list_subseteq_nil].
Qed.

(** C33: the fixpoint of established membership is reached within the bound on
    the rounds for every set of at most [kMaxMembers] members, so the branch that
    reports that it did not converge is never taken; and what it computes is the
    least set that the derivation reproduces. *)
Theorem standing_is_least_fixpoint (s : Setting) :
  size (st_order s) ≤ kMaxMembers →
  ∃ established, standing s = (established, standing_round s established, true) ∧
    established_of (standing_round s established) = established ∧
    ∀ X, closed_standing s X → established ⊆ X.
Proof.
  intros Hsize. destruct (standing_fixpoint s Hsize) as (E & H & Hfix & _ & Hleast). by exists E.
Qed.

(** ** Standing is rooted in the genesis record *)

(** A member is rooted when the genesis founded it, or its admission is warranted
    by a sponsor and endorsers that are rooted themselves. *)
Inductive rooted (s : Setting) : MemberId → Prop :=
  | rooted_founder m : m ∈ founder_members (st_founders s) → rooted s m
  | rooted_admitted m established p acceptance endorsers parties :
      admission_warranted m (bucket s m) (context s neutral false established) p acceptance
        endorsers parties →
      rooted s (art_issuer p) → (∀ e, e ∈ endorsers → rooted s e) → rooted s m.

Lemma standing_loop_ind s (P : MemberId → Prop) :
  (∀ E, (∀ m, m ∈ E → P m) → ∀ m, m ∈ next_standing s E → P m) →
  ∀ rounds E ds, (∀ m, m ∈ E → P m) → ∀ m, m ∈ (standing_loop rounds s E ds).1.1 → P m.
Proof.
  intros Hstep. induction rounds as [|rounds IH]; intros E ds HE m; [apply HE|].
  cbn [standing_loop]. fold (next_standing s E).
  case_bool_decide; [by apply Hstep|]. apply IH. by apply Hstep.
Qed.

Lemma next_rooted s E :
  (∀ m, m ∈ E → rooted s m) → ∀ m, m ∈ next_standing s E → rooted s m.
Proof.
  intros HE m [_ Hm]%elem_of_next.
  destruct (derive_membership_inputs m (bucket s m) (context s neutral false E))
    as (i & Hl & _ & _ & _ & _ & _ & _ & _ & _ & _ & Hadm).
  rewrite Hl in Hm. apply derive_lifecycle_established in Hm as (_ & _ & _ & _ & Ha).
  destruct (Hadm Ha) as [_ [Hb|(p & acc & endorsers & parties & Hw)]].
  - apply rooted_founder. by apply bool_decide_eq_true in Hb.
  - eapply rooted_admitted; [exact Hw|apply HE, (aw_sponsor _ _ _ _ _ _ _ Hw)|].
    intros e He. apply HE, (aw_endorsed _ _ _ _ _ _ _ Hw e He).
Qed.

Lemma standing_rooted s m : m ∈ (standing s).1.1 → rooted s m.
Proof.
  apply standing_loop_ind; [apply next_rooted|]. by intros ? ?%elem_of_nil.
Qed.

Lemma rooted_needs_founder s m : rooted s m → st_founders s ≠ [].
Proof.
  induction 1 as [m Hm|]; [|done]. intros Hn. rewrite Hn in Hm. by apply elem_of_nil in Hm.
Qed.

(** ** What [derive_members] computes *)

Lemma established_context_irrelevant s m p r p' r' E :
  established_state (lifecycle (derive_membership m (bucket s m) (context s p r E))) =
  established_state (lifecycle (derive_membership m (bucket s m) (context s p' r' E))).
Proof. apply eq_true_iff_eq. split; apply derive_membership_mono; by constructor. Qed.

(** The members before their authority is settled. *)
Definition final_members (s : Setting) (partition : PartitionAssessment) (reconciling : bool)
    (established : list MemberId) : list MemberState :=
  member_state s partition true <$> derive_all s (context s partition reconciling established).

Lemma derive_members_spec s obs :
  size (st_order s) ≤ kMaxMembers →
  let d := derive_members s obs in
  ∃ E, E = (standing s).1.1 ∧ next_standing s E = E ∧
    let final := final_members s (dv_partition d) (dv_reconciling d) E in
    dv_members d = with_authority s (p_state (dv_partition d)) (dv_reconciling d) (claims_of final)
                     (standing_round s E) <$> final ∧
    dv_conflicts d = claim_conflicts (st_policy s) (claims_of final) ∧
    dv_reasons d = (reconciliation (st_arts s) (standing_round s E) E).2 ++
                   partition_reasons (dv_partition d) ∧
    dv_reconciling d = (reconciliation (st_arts s) (standing_round s E) E).1 ∧
    dv_partition d = assess_partition E (active_incarnations (standing_round s E) E) obs
                       (st_epoch s) (st_now s) (observation_freshness_ticks (st_policy s)).
Proof.
  intros Hsize d. subst d. destruct (standing_fixpoint s Hsize) as (E & Hst & Hfix & _ & _).
  exists E. unfold derive_members. rewrite Hst.
  destruct (reconciliation _ _ _) as [rc rs]. cbn [fst snd dv_partition dv_reconciling dv_members
    dv_conflicts dv_reasons negb reason_if app]. done.
Qed.

Lemma derive_state_Ok i r :
  derive_state i = Ok r →
  ∃ policy catalog, in_policy i = Some policy ∧ in_catalog i = Some catalog ∧
    let arts := accepted (prepare_artifacts (in_federation i) catalog (in_artifacts i)) in
    let s := setting_of i policy catalog arts in
    let d := derive_members s (in_observations i) in
    size (st_order s) ≤ kMaxMembers ∧
    members (state r) =
      sort_by ms_member (finish_member (s_leases (state r)) (s_conflicts (state r)) <$> dv_members d) ∧
    s_partition (state r) = dv_partition d ∧ s_reconciling (state r) = dv_reconciling d ∧
    epoch (state r) = st_epoch s ∧ s_logical_time (state r) = st_now s ∧
    (∀ c, c ∈ dv_conflicts d →
       mkConflict (conflict_grant c) (kind c) (sort_unique (claimants c)) (detail c)
         ∈ s_conflicts (state r)).
Proof.
  unfold derive_state. destruct (in_policy i) as [policy|]; [|done].
  destruct (in_catalog i) as [catalog|]; [|done]. cbv zeta.
  set (arts := accepted _). set (s := setting_of _ _ _ _).
  destruct (N.ltb_spec kMaxMembers (size (st_order s))) as [|Hsize]; [done|].
  destruct (ledger_of _) as [ledger rs]. intros [= <-]. exists policy, catalog.
  cbn [state members s_leases s_conflicts s_partition s_reconciling epoch s_logical_time].
  split_and!; [done..|]. intros c Hc. unfold canonicalize_conflicts.
  rewrite elem_of_sort_unique. apply list_elem_of_fmap. exists c. split; [done|].
  rewrite !elem_of_app. auto.
Qed.

(** ** Authority, term by term *)

Lemma holds_authority_iff ds m :
  holds_authority ds m = lifecycle_holds_federation_authority (ms_lifecycle m).
Proof.
  unfold holds_authority.
  destruct (ms_lifecycle m); cbn; rewrite ?andb_false_r; done.
Qed.

(** The conditions under which the code grants a delegated term. *)
Record grantable (s : Setting) (partition : PartitionState.t) (reconciling : bool)
    (claims : list GrantClaim) (m : MemberState) (t : DelegationTerms) : Prop := {
  gr_lifecycle : lifecycle_holds_federation_authority (ms_lifecycle m) = true;
  gr_class : (classify (st_catalog s) (scope (grant t))).2 = true ∧
    (classify (st_catalog s) (scope (grant t))).1 ≠ ScopeClass.Local;
  gr_policy : scope_delegation_forbidden (st_policy s) (scope (grant t)) = false;
  gr_kept : grants_cover (ms_withdrawn_grants m) (grant t) = false;
  gr_live : is_zero (not_after_ t) = true ∨ value (st_now s) ≤ value (not_after_ t);
  gr_undisputed : resolve (st_policy s) claims (grant t) = Undisputed ∨
    resolve (st_policy s) claims (grant t) = Precedence (ms_member m);
  gr_global : (classify (st_catalog s) (scope (grant t))).1 = ScopeClass.GlobalMutation →
    suspended s partition reconciling = false;
  gr_degraded : ms_lifecycle m = MemberLifecycleState.Degraded →
    verb (grant t) ≠ AuthorityVerb.Mutate ∧ verb (grant t) ≠ AuthorityVerb.Administer
}.

Lemma counter_expired {t} (na now : BasicCounter t) :
  negb (is_zero na) && ltb na now = false ↔ is_zero na = true ∨ value now ≤ value na.
Proof.
  unfold ltb, cmp, BasicCounter_cmp, cmp_on, cmp, N_cmp.
  destruct (is_zero na); cbn; [naive_solver|].
  destruct (N.compare_spec (value na) (value now)); naive_solver lia.
Qed.

Lemma dispose_granted s partition reconciling claims holds m t :
  holds = lifecycle_holds_federation_authority (ms_lifecycle m) →
  (dispose s partition reconciling claims holds m t).1 = Granted ↔
  grantable s partition reconciling claims m t.
Proof.
  intros ->. set (held := lifecycle_holds_federation_authority _). split.
  - unfold dispose. cbv zeta. destruct (classify _ _) as [c k] eqn:Ec.
    destruct k; [|done]. case_bool_decide as Hlocal; [done|]. cbn [negb orb].
    destruct (scope_delegation_forbidden _ _) eqn:Hp; [done|].
    destruct (grants_cover _ _) eqn:Hw; [done|].
    destruct (negb _ && ltb _ _) eqn:Hexp; [done|]. apply counter_expired in Hexp.
    assert (∀ rs : list Reason,
      (if negb held then (Withheld, rs)
       else if bool_decide (c = ScopeClass.GlobalMutation) && suspended s partition reconciling
       then (WithheldGlobal, rs)
       else if bool_decide (ms_lifecycle m = MemberLifecycleState.Degraded) &&
               (bool_decide (verb (grant t) = AuthorityVerb.Mutate) ||
                bool_decide (verb (grant t) = AuthorityVerb.Administer))
       then (Withheld, rs) else (Granted, rs)).1 = Granted → held = true ∧
      (c = ScopeClass.GlobalMutation → suspended s partition reconciling = false) ∧
      (ms_lifecycle m = MemberLifecycleState.Degraded →
       verb (grant t) ≠ AuthorityVerb.Mutate ∧ verb (grant t) ≠ AuthorityVerb.Administer)) as Hlast.
    { intros rs. destruct held; [|done]. cbn [negb].
      destruct (suspended _ _ _); repeat case_bool_decide; naive_solver. }
    destruct (resolve _ _ _) as [|w|rec] eqn:Hr; [| |done].
    + intros (? & ? & ?)%Hlast. constructor; rewrite ?Ec; auto.
    + destruct (bool_decide_reflect (w = ms_member m)) as [->|]; [|done].
      intros (? & ? & ?)%Hlast. constructor; rewrite ?Ec; auto.
  - intros [Hl [Hk Hc] Hp Hw Hexp%counter_expired Hr Hg Hd]. unfold dispose. cbv zeta.
    destruct (classify _ _) as [c k]. cbn [fst snd] in *. subst k.
    rewrite (bool_decide_eq_false_2 _ Hc), Hp, Hw, Hexp. cbn [negb orb].
    assert (bool_decide (c = ScopeClass.GlobalMutation) && suspended s partition reconciling = false) as ->
      by (case_bool_decide; [by rewrite Hg|done]).
    assert (bool_decide (ms_lifecycle m = MemberLifecycleState.Degraded) &&
      (bool_decide (verb (grant t) = AuthorityVerb.Mutate) ||
       bool_decide (verb (grant t) = AuthorityVerb.Administer)) = false) as ->.
    { case_bool_decide as Hm; [|done]. destruct (Hd Hm).
      by rewrite !bool_decide_eq_false_2. }
    subst held. rewrite Hl. cbn [negb].
    destruct Hr as [-> | ->]; [done|]. by rewrite bool_decide_eq_true_2.
Qed.

Lemma elem_of_federation_authority s partition reconciling claims ds m g :
  g ∈ federation_authority (with_authority s partition reconciling claims ds m) ↔
  ∃ t, t ∈ ms_delegated_terms m ∧ grant t = g ∧ grantable s partition reconciling claims m t.
Proof.
  cbn [with_authority federation_authority]. unfold canonicalize_grants.
  rewrite elem_of_sort_unique, list_elem_of_fmap. split.
  - intros ([g' d] & -> & [Hd (t & [= -> ->] & Ht)%list_elem_of_fmap]%list_elem_of_filter).
    exists t. split_and!; [done..|]. eapply dispose_granted; [apply holds_authority_iff|exact Hd].
  - intros (t & Ht & <- & Hg). eexists (grant t, _). split; [reflexivity|].
    apply list_elem_of_filter. split; [|apply list_elem_of_fmap; by exists t].
    cbn [fst snd]. apply dispose_granted; [apply holds_authority_iff|done].
Qed.

(** ** The members of the result *)

Lemma sort_by_sorted_id {A K} `{CmpLaws K} (key : A → K) (l : list A) :
  StronglySorted (λ a b, strictly_before (key a) (key b)) l → sort_by key l = l.
Proof.
  intros Hs. apply (Sorted_unique_strong (key_le key)).
  - intros x y Hx Hy Hxy Hyx. rewrite elem_of_sort_by in Hx.
    pose proof (not_after_antisymm _ _ Hxy Hyx) as Hk. clear Hxy Hyx.
    induction Hs as [|a l Hs IH Ha]; [by apply elem_of_nil in Hx|].
    rewrite Forall_forall in Ha. unfold strictly_before in Ha.
    apply elem_of_cons in Hx as [->|Hx]; apply elem_of_cons in Hy as [->|Hy]; [done| | |by apply IH].
    + specialize (Ha y Hy). by rewrite Hk, (cmp_refl (key y)) in Ha.
    + specialize (Ha x Hx). by rewrite Hk, (cmp_refl (key a)) in Ha.
  - apply (sort_by_sorted key).
  - apply StronglySorted_Sorted. induction Hs as [|a l Hs IH Ha]; constructor; [done|].
    eapply Forall_impl; [exact Ha|]. intros b Hb. unfold key_le, not_after, strictly_before in *.
    rewrite (cmp_opp (key a) (key b)), Hb. done.
  - apply sort_by_perm.
Qed.

(** What the later steps leave of a member untouched. *)
Record same_member (a b : MemberState) : Prop := {
  same_id : ms_member a = ms_member b;
  same_lifecycle : ms_lifecycle a = ms_lifecycle b;
  same_terms : ms_delegated_terms a = ms_delegated_terms b;
  same_withdrawn : ms_withdrawn_grants a = ms_withdrawn_grants b
}.
Lemma claims_of_fmap f l :
  (∀ m, same_member (f m) m) → claims_of (f <$> l) = claims_of l.
Proof.
  intros Hf. unfold claims_of. induction l as [|m l IH]; [done|].
  rewrite fmap_cons, !filter_cons. destruct (Hf m) as [Hi Hl Ht _]. rewrite Hl.
  case_decide; [|done]. rewrite !bind_cons, Hi, Ht. f_equal. done.
Qed.
Lemma sorted_by_member f l :
  (∀ m, same_member (f m) m) → StronglySorted strictly_before (ms_member <$> l) →
  sort_by ms_member (f <$> l) = f <$> l.
Proof.
  intros Hf Hs. apply sort_by_sorted_id. induction l as [|m l IH]; [constructor|].
  rewrite fmap_cons in *. apply StronglySorted_cons in Hs as [Hm Hs].
  constructor; [by apply IH|].
  change (Forall (strictly_before (ms_member m)) (ms_member <$> l)) in Hm.
  rewrite Forall_forall in Hm. apply Forall_forall. intros x (y & -> & Hy)%list_elem_of_fmap.
  specialize (Hm (ms_member y) (list_elem_of_fmap_2 ms_member l y Hy)).
  by rewrite !(same_id _ _ (Hf _)).
Qed.
Lemma grantable_same s p rc claims a b t :
  same_member a b → grantable s p rc claims a t ↔ grantable s p rc claims b t.
Proof. intros [Hi Hl _ Hw]. split; intros []; constructor; rewrite ?Hi, ?Hl, ?Hw in *; done. Qed.

(** The setting [derive_state] works in. *)
Definition derivation_setting (i : DerivationInputs) : option Setting :=
  match in_policy i, in_catalog i with
  | Some policy, Some catalog =>
      Some (setting_of i policy catalog
              (accepted (prepare_artifacts (in_federation i) catalog (in_artifacts i))))
  | _, _ => None
  end.

(** Everything the later theorems use of a successful derivation. *)
Record derived (i : DerivationInputs) (r : DerivationResult) (s : Setting)
    (established : list MemberId) (final : list MemberState) : Prop := {
  de_setting : derivation_setting i = Some s;
  de_standing : established = (standing s).1.1 ∧ next_standing s established = established;
  de_final : final = final_members s (s_partition (state r)) (s_reconciling (state r)) established;
  de_members : members (state r) =
    (λ m, finish_member (s_leases (state r)) (s_conflicts (state r))
            (with_authority s (p_state (s_partition (state r))) (s_reconciling (state r))
               (claims_of final) (standing_round s established) m)) <$> final;
  de_claims : claims_of (members (state r)) = claims_of final;
  de_conflicts : ∀ c, c ∈ claim_conflicts (st_policy s) (claims_of final) →
    mkConflict (conflict_grant c) (kind c) (sort_unique (claimants c)) (detail c)
      ∈ s_conflicts (state r)
}.

Lemma final_members_fst s p rc E : ms_member <$> final_members s p rc E = st_order s.
Proof.
  unfold final_members, derive_all. rewrite <-!list_fmap_compose.
  rewrite <-(list_fmap_id (st_order s)) at 2. done.
Qed.

Lemma derive_state_derived i r :
  derive_state i = Ok r → ∃ s E final, derived i r s E final.
Proof.
  intros (policy & catalog & Hp & Hc & H)%derive_state_Ok. revert H. cbv zeta.
  set (arts := accepted _). set (s := setting_of _ _ _ _).
  intros (Hsize & Hmem & Hpart & Hrec & _ & _ & Hconf).
  destruct (derive_members_spec s (in_observations i) Hsize) as (E & HE & Hfix & Hd).
  cbv zeta in Hd. destruct Hd as (Hdm & Hdc & _ & _ & _).
  exists s, E, (final_members s (s_partition (state r)) (s_reconciling (state r)) E).
  rewrite <-Hpart, <-Hrec in Hdm, Hdc. set (final := final_members _ _ _ _) in *.
  assert (members (state r) = (λ m, finish_member (s_leases (state r)) (s_conflicts (state r))
            (with_authority s (p_state (s_partition (state r))) (s_reconciling (state r))
               (claims_of final) (standing_round s E) m)) <$> final) as Hms.
  { rewrite Hmem, Hdm, <-list_fmap_compose. apply sorted_by_member; [done|].
    unfold final. rewrite final_members_fst. apply sort_unique_strict. }
  constructor; [|done|done|exact Hms| |].
  - unfold derivation_setting. by rewrite Hp, Hc.
  - rewrite Hms. by apply claims_of_fmap.
  - rewrite <-Hdc. exact Hconf.
Qed.

Lemma elem_of_members i r s E final ms :
  derived i r s E final → ms ∈ members (state r) →
  ∃ m0, m0 ∈ final ∧ same_member ms m0 ∧
    federation_authority ms =
      federation_authority (with_authority s (p_state (s_partition (state r)))
        (s_reconciling (state r)) (claims_of final) (standing_round s E) m0) ∧
    ms = finish_member (s_leases (state r)) (s_conflicts (state r))
            (with_authority s (p_state (s_partition (state r))) (s_reconciling (state r))
               (claims_of final) (standing_round s E) m0).
Proof.
  intros Hd. rewrite (de_members _ _ _ _ _ Hd). intros (m0 & -> & Hm0)%list_elem_of_fmap.
  exists m0. split_and!; done.
Qed.

(** C12: the authority of every member of a derived state is exact: a grant is in it
    if and only if the member delegates it and every condition of the code holds,
    in terms of the setting of the derivation and of the state itself. *)
Theorem authority_granted_iff i r s ms g :
  derive_state i = Ok r → derivation_setting i = Some s → ms ∈ members (state r) →
  g ∈ federation_authority ms ↔
  ∃ t, t ∈ ms_delegated_terms ms ∧ grant t = g ∧
    grantable s (p_state (s_partition (state r))) (s_reconciling (state r))
      (claims_of (members (state r))) ms t.
Proof.
  intros Hr Hs Hms. destruct (derive_state_derived i r Hr) as (s' & E & final & Hd).
  rewrite (de_setting _ _ _ _ _ Hd) in Hs. injection Hs as ->.
  destruct (elem_of_members _ _ _ _ _ _ Hd Hms) as (m0 & _ & Hsame & -> & _).
  rewrite elem_of_federation_authority, (de_claims _ _ _ _ _ Hd), (same_terms _ _ Hsame).
  by setoid_rewrite (grantable_same _ _ _ _ _ _ _ Hsame).
Qed.

(** ** Disputed grants *)

Lemma pair_conflict_None a b :
  pair_conflict a b = None ↔
  mode a = mode b ∧ mode a ≠ DelegationMode.Exclusive ∧ terms_equivalent a b = true.
Proof.
  unfold pair_conflict.
  destruct (bool_decide_reflect (mode a = mode b)); cbn [negb]; [|naive_solver].
  case_bool_decide; [naive_solver|]. destruct (terms_equivalent a b); naive_solver.
Qed.
Lemma pair_conflict_sym a b : pair_conflict a b = None → pair_conflict b a = None.
Proof.
  rewrite !pair_conflict_None. intros (Hm & He & Ht). split_and!; [done|congruence|].
  unfold terms_equivalent in *. rewrite !andb_true_iff, !bool_decide_eq_true, N.eqb_eq in *.
  naive_solver.
Qed.
Lemma first_conflict_None group :
  first_conflict group = None →
  ∀ a b, a ∈ group → b ∈ group → a ≠ b → pair_conflict a.2 b.2 = None.
Proof.
  induction group as [|c group IH]; intros Hn a b Ha Hb Hab; [by apply elem_of_nil in Ha|].
  cbn in Hn. destruct (omap (λ b, pair_conflict c.2 b.2) group) as [|k ks] eqn:Eo; [|done].
  assert (∀ d, d ∈ group → pair_conflict c.2 d.2 = None) as Hc.
  { intros d Hd. destruct (pair_conflict c.2 d.2) as [k|] eqn:E; [|done].
    assert (k ∈ omap (λ b, pair_conflict c.2 b.2) group) as Hk
      by (apply list_elem_of_omap; by exists d).
    rewrite Eo in Hk. by apply elem_of_nil in Hk. }
  apply elem_of_cons in Ha as [->|Ha]; apply elem_of_cons in Hb as [->|Hb]; [done| | |].
  - by apply Hc.
  - by apply pair_conflict_sym, Hc.
  - by apply IH.
Qed.

Lemma elem_of_claims ms m t :
  (m, t) ∈ claims_of ms ↔
  ∃ x, x ∈ ms ∧ ms_member x = m ∧ t ∈ ms_delegated_terms x ∧
       lifecycle_holds_federation_authority (ms_lifecycle x) = true.
Proof.
  unfold claims_of. rewrite list_elem_of_bind. split.
  - intros (x & Ht & [Hl Hx]%list_elem_of_filter).
    apply list_elem_of_fmap in Ht as (t' & [= -> ->] & Ht). by exists x.
  - intros (x & Hx & <- & Ht & Hl). exists x. split; [|by apply list_elem_of_filter].
    apply list_elem_of_fmap. by exists t.
Qed.
Lemma elem_of_group claims g c : c ∈ group_of claims g ↔ c ∈ claims ∧ grant c.2 = g.
Proof. unfold group_of. rewrite list_elem_of_filter. tauto. Qed.

Lemma derived_holders_agree i r a b g :
  derive_state i = Ok r → a ∈ members (state r) → b ∈ members (state r) → ms_member a ≠ ms_member b →
  g ∈ federation_authority a → g ∈ federation_authority b →
  ∀ t u, t ∈ ms_delegated_terms a → u ∈ ms_delegated_terms b → grant t = g → grant u = g →
    mode t = mode u ∧ mode t ≠ DelegationMode.Exclusive ∧ terms_equivalent t u = true.
Proof.
  intros Hr Ha Hb Hab Hga Hgb.
  destruct (derive_state_derived i r Hr) as (s & E & final & Hd).
  destruct (elem_of_members _ _ _ _ _ _ Hd Ha) as (a0 & Hfa & Hsa & Hauth & _).
  destruct (elem_of_members _ _ _ _ _ _ Hd Hb) as (b0 & Hfb & Hsb & Hbuth & _).
  rewrite Hauth in Hga. rewrite Hbuth in Hgb.
  apply elem_of_federation_authority in Hga as (ta & _ & Hgta & Hgra).
  apply elem_of_federation_authority in Hgb as (tb & _ & Hgtb & Hgrb).
  intros t u Ht Hu Hgt Hgu. apply pair_conflict_None.
  assert (resolve (st_policy s) (claims_of final) g = Undisputed) as Hres.
  { pose proof (gr_undisputed _ _ _ _ _ _ Hgra) as H1. pose proof (gr_undisputed _ _ _ _ _ _ Hgrb) as H2.
    rewrite Hgta in H1. rewrite Hgtb in H2. destruct H1 as [|H1]; [done|]. destruct H2 as [|H2]; [done|].
    rewrite H1 in H2. injection H2 as H2. by rewrite (same_id _ _ Hsa), (same_id _ _ Hsb) in Hab. }
  assert (first_conflict (group_of (claims_of final) g) = None) as Hnone.
  { unfold resolve in Hres. destruct (first_conflict _); [|done].
    destruct (precedence_for _ _); [|done]. by destruct (filter _ _) as [|? []]. }
  apply (first_conflict_None _ Hnone (ms_member a0, t) (ms_member b0, u)).
  - apply elem_of_group. split; [|done]. apply elem_of_claims. exists a0.
    rewrite <-(same_terms _ _ Hsa). split_and!; [done|done|done|apply (gr_lifecycle _ _ _ _ _ _ Hgra)].
  - apply elem_of_group. split; [|done]. apply elem_of_claims. exists b0.
    rewrite <-(same_terms _ _ Hsb). split_and!; [done|done|done|apply (gr_lifecycle _ _ _ _ _ _ Hgrb)].
  - intros [= Hm _]. by rewrite (same_id _ _ Hsa), (same_id _ _ Hsb) in Hab.
Qed.

(** C13: no grant is held by two parties that disagree about it: when two members of
    a derived state both hold a grant, all their live delegations of it have one
    and the same mode, that mode is not exclusive, and weight, expiry and
    constraint agree too; so an exclusive grant has at most one holder. *)
Theorem disputed_grant_has_one_holder i r a b g
    (Hr : derive_state i = Ok r) (Ha : a ∈ members (state r)) (Hb : b ∈ members (state r))
    (Hab : ms_member a ≠ ms_member b)
    (Hga : g ∈ federation_authority a) (Hgb : g ∈ federation_authority b) :
  ∀ t u, t ∈ ms_delegated_terms a → u ∈ ms_delegated_terms b → grant t = g → grant u = g →
    mode t = mode u ∧ mode t ≠ DelegationMode.Exclusive ∧ terms_equivalent t u = true.
Proof. exact (derived_holders_agree i r a b g Hr Ha Hb Hab Hga Hgb). Qed.

(** While the partition is split or cannot be determined, or the federation is
    reconciling after one, and the policy says so, no member of the derived state
    holds a global-mutation grant, whatever it delegates and whoever it is. *)
Theorem no_global_mutation_while_suspended i r s ms g
    (Hr : derive_state i = Ok r) (Hs : derivation_setting i = Some s)
    (Hms : ms ∈ members (state r))
    (Hsusp : suspend_global_mutation_on_partition (st_policy s) = true ∧
               p_state (s_partition (state r)) ∈ [PartitionState.Split; PartitionState.Indeterminate] ∨
             suspend_global_mutation_while_reconciling (st_policy s) = true ∧
               s_reconciling (state r) = true)
    (Hclass : (classify (st_catalog s) (scope g)).1 = ScopeClass.GlobalMutation) :
  g ∉ federation_authority ms.
Proof.
  destruct (derive_state_derived i r Hr) as (s' & E & final & Hd).
  rewrite (de_setting _ _ _ _ _ Hd) in Hs. injection Hs as ->.
  destruct (elem_of_members _ _ _ _ _ _ Hd Hms) as (m0 & _ & _ & -> & _).
  rewrite elem_of_federation_authority. intros (t & _ & <- & Hg).
  pose proof (gr_global _ _ _ _ _ _ Hg Hclass) as Hfree. unfold suspended in Hfree.
  destruct Hsusp as [[Hp [He|He%list_elem_of_singleton]%elem_of_cons]|[Hp He]];
    rewrite He, Hp, ?andb_true_r, ?orb_true_r in Hfree; discriminate.
Qed.

(** A disputed grant is reported, not dropped: when the live delegations of a
    grant disagree and no configured precedence settles them, the state carries a
    conflict record with exactly the claimants, every claimant carries that record
    itself, and none of the members is granted it. *)
Theorem dispute_is_reported i r s g c :
  derive_state i = Ok r → derivation_setting i = Some s →
  resolve (st_policy s) (claims_of (members (state r))) g = Conflicted c →
  let c' := mkConflict g (kind c) (claimants c) (detail c) in
  c' ∈ s_conflicts (state r) ∧
  (∀ ms, ms ∈ members (state r) → g ∉ federation_authority ms ∧
     (ms_member ms ∈ claimants c → c' ∈ ms_conflicts ms)).
Proof.
  intros Hr Hs Hres c'. destruct (derive_state_derived i r Hr) as (s' & E & final & Hd).
  rewrite (de_setting _ _ _ _ _ Hd) in Hs. injection Hs as ->.
  rewrite (de_claims _ _ _ _ _ Hd) in Hres.
  set (claimed := sort_unique (fst <$> group_of (claims_of final) g)).
  assert (conflict_grant c = g ∧ claimants c = claimed ∧
          first_conflict (group_of (claims_of final) g) ≠ None) as (Hcg & Hcl & Hfc).
  { unfold resolve in Hres. destruct (first_conflict _); [|done].
    destruct (precedence_for _ _); [|by injection Hres as <-].
    destruct (filter _ _) as [|? []]; try done; by injection Hres as <-. }
  assert (c' ∈ s_conflicts (state r)) as Hin.
  { subst c'. rewrite <-Hcg at 1.
    replace (claimants c) with (sort_unique (claimants c))
      by (rewrite Hcl; apply sort_unique_idemp).
    apply (de_conflicts _ _ _ _ _ Hd). unfold claim_conflicts. apply list_elem_of_omap.
    exists g. rewrite Hres. split; [|done]. rewrite elem_of_sort_unique.
    destruct (group_of (claims_of final) g) as [|x l] eqn:Eg; [done|].
    assert (x ∈ group_of (claims_of final) g) as [Hx <-]%elem_of_group by (rewrite Eg; left).
    apply list_elem_of_fmap. by exists x. }
  split; [exact Hin|]. intros ms Hms.
  destruct (elem_of_members _ _ _ _ _ _ Hd Hms) as (m0 & _ & Hsame & Hauth & Heq). split.
  - rewrite Hauth, elem_of_federation_authority. intros (t & _ & Ht & Hg).
    pose proof (gr_undisputed _ _ _ _ _ _ Hg) as Hu. rewrite Ht, Hres in Hu. by destruct Hu.
  - intros Hm. rewrite Heq. cbn [finish_member ms_conflicts]. unfold canonicalize_conflicts.
    rewrite elem_of_sort_unique. apply list_elem_of_fmap. exists c'. split.
    + subst c'. cbn [conflict_grant kind claimants detail]. f_equal. rewrite Hcl.
      symmetry. apply sort_unique_idemp.
    + rewrite elem_of_app, list_elem_of_filter. right. split; [|exact Hin].
      subst c'. cbn [claimants]. change (ms_member m0 ∈ claimants c). by rewrite <-(same_id _ _ Hsame).
Qed.

Lemma derived_member_rooted i r s established final ms :
  derived i r s established final → ms ∈ members (state r) →
  established_state (ms_lifecycle ms) = true → rooted s (ms_member ms).
Proof.
  intros Hd Hms Hst. destruct (elem_of_members _ _ _ _ _ _ Hd Hms) as (m0 & Hm0 & Hsame & _ & _).
  rewrite (same_id _ _ Hsame). rewrite (same_lifecycle _ _ Hsame) in Hst.
  destruct (de_standing _ _ _ _ _ Hd) as [HE Hfix].
  apply standing_rooted. rewrite <-HE, <-Hfix.
  rewrite (de_final _ _ _ _ _ Hd) in Hm0. unfold final_members, derive_all in Hm0.
  apply list_elem_of_fmap in Hm0 as (p & -> & Hp).
  apply list_elem_of_fmap in Hp as (m & -> & Hm). cbn [member_state ms_member ms_lifecycle] in *.
  apply elem_of_next. split; [done|]. etransitivity; [apply established_context_irrelevant|exact Hst].
Qed.

(** Authority needs a standing. *)
Lemma derived_authority_established i r s established final ms g :
  derived i r s established final → ms ∈ members (state r) → g ∈ federation_authority ms →
  established_state (ms_lifecycle ms) = true.
Proof.
  intros Hd Hms Hg. destruct (elem_of_members _ _ _ _ _ _ Hd Hms) as (m0 & _ & Hsame & Hauth & _).
  rewrite Hauth in Hg. apply elem_of_federation_authority in Hg as (t & _ & _ & Hg).
  apply gr_lifecycle in Hg. rewrite (same_lifecycle _ _ Hsame). by destruct (ms_lifecycle m0).
Qed.

(** C14: every standing and all authority in a derived state is rooted in the genesis
    record: a member that is admitted, active or degraded, and likewise one that holds
    any grant of the federation's authority, was founded by it, or was sponsored and
    endorsed, with its own consent, by members that are rooted themselves; authority is
    only held with such a standing; and without a single genesis record nobody has any
    standing or authority. *)
Theorem standing_is_rooted_in_genesis i r s ms
    (Hr : derive_state i = Ok r) (Hs : derivation_setting i = Some s)
    (Hms : ms ∈ members (state r)) :
  (established_state (ms_lifecycle ms) = true ∨ federation_authority ms ≠ [] →
     established_state (ms_lifecycle ms) = true ∧ rooted s (ms_member ms)) ∧
  (sole_genesis (st_arts s) = None →
     established_state (ms_lifecycle ms) = false ∧ federation_authority ms = []).
Proof.
  destruct (derive_state_derived i r Hr) as (s' & E & final & Hd).
  rewrite (de_setting _ _ _ _ _ Hd) in Hs. injection Hs as ->.
  assert (federation_authority ms ≠ [] → established_state (ms_lifecycle ms) = true) as Hauth.
  { destruct (federation_authority ms) as [|g l] eqn:E1; [done|]. intros _.
    apply (derived_authority_established _ _ _ _ _ _ g Hd Hms). rewrite E1. left. }
  assert (established_state (ms_lifecycle ms) = true → rooted s (ms_member ms)) as Hroot
    by by apply (derived_member_rooted _ _ _ _ _ _ Hd Hms).
  split; [by intros [?|?%Hauth]; auto|]. intros Hg.
  assert (established_state (ms_lifecycle ms) = false) as Hno.
  { apply not_true_iff_false. intros He. apply (rooted_needs_founder _ _ (Hroot He)).
    pose proof (de_setting _ _ _ _ _ Hd) as Hset. unfold derivation_setting in Hset.
    destruct (in_policy i); [|done]. destruct (in_catalog i); [|done]. injection Hset as <-.
    cbn [st_founders setting_of st_arts] in *. unfold founders_of, genesis_of. by rewrite Hg. }
  split; [done|]. destruct (federation_authority ms); [done|]. by rewrite Hauth in Hno.
Qed.

(** ** Independence of the order of arrival *)

Lemma elem_of_smap_insert_fresh {K V} `{CmpLaws K} (k : K) (v : V) m p :
  smap_find k m = None → p ∈ smap_insert k v m ↔ p = (k, v) ∨ p ∈ m.
Proof.
  induction m as [|[k' v'] m IH]; cbn; [set_solver|].
  destruct (cmp k k') eqn:E; [done|set_solver|]. intros Hf. rewrite !elem_of_cons, IH by done. tauto.
Qed.
Lemma smap_sorted_ext {K V} `{CmpLaws K} (m n : smap K V) :
  smap_sorted m → smap_sorted n → (∀ p, p ∈ m ↔ p ∈ n) → m = n.
Proof.
  assert (∀ m : smap K V, smap_sorted m → sort_by fst m = m ∧ NoDup m ∧
            ∀ x y, x ∈ m → y ∈ m → x.1 = y.1 → x = y) as Hs.
  { intros l Hl. split_and!.
    - apply sort_by_sorted_id. unfold smap_sorted in Hl. induction l as [|p l IH]; [constructor|].
      rewrite fmap_cons in Hl. apply StronglySorted_cons in Hl as [Hp Hl]. constructor; [by apply IH|].
      rewrite Forall_forall in Hp. apply Forall_forall. intros x Hx. apply Hp. by apply list_elem_of_fmap_2.
    - apply (NoDup_fmap_1 fst). revert Hl. unfold smap_sorted. intros Hl.
      by apply strictly_sorted_NoDup.
    - intros [k v] [k' v'] Hx Hy Hk. cbn in Hk. subst k'.
      apply smap_elem_find in Hx; [|done]. apply smap_elem_find in Hy; [|done]. congruence. }
  intros (Hm & Hdm & Hinj)%Hs (Hn & Hdn & _)%Hs Hmn. rewrite <-Hm, <-Hn.
  apply (sort_by_permutation fst); [apply Hinj|]. by apply NoDup_Permutation.
Qed.

Definition insert_artifact (m : smap EvidenceId Artifact) (a : Artifact) : smap EvidenceId Artifact :=
  smap_insert (art_evidence a) a m.

Lemma index_distinct l : ∀ s,
  NoDup (art_evidence <$> l) → (∀ a, a ∈ l → smap_find (art_evidence a) (by_id s) = None) →
  foldl index_step s l =
    mkIndex (foldl insert_artifact (by_id s) l) (quarantined s) (ix_duplicates s) (ix_rejected s)
      (ix_conflicts s).
Proof.
  induction l as [|a l IH]; intros s Hd Hf; [by destruct s|].
  rewrite fmap_cons in Hd. apply NoDup_cons in Hd as [Ha Hd]. cbn [foldl].
  unfold index_step at 2. rewrite (Hf a) by left. rewrite IH; [done|done|].
  intros b Hb. cbn [by_id]. rewrite smap_find_insert_ne; [apply Hf; by right|].
  intros Heq. apply Ha. rewrite <-Heq. by apply list_elem_of_fmap_2.
Qed.
Lemma insert_artifacts_spec l : ∀ m,
  NoDup (art_evidence <$> l) → (∀ a, a ∈ l → smap_find (art_evidence a) m = None) → smap_sorted m →
  smap_sorted (foldl insert_artifact m l) ∧
  ∀ p, p ∈ foldl insert_artifact m l ↔ p ∈ m ∨ ∃ a, a ∈ l ∧ p = (art_evidence a, a).
Proof.
  induction l as [|a l IH]; intros m Hd Hf Hm; cbn [foldl]; [set_solver|].
  rewrite fmap_cons in Hd. apply NoDup_cons in Hd as [Ha Hd].
  destruct (IH (insert_artifact m a) Hd) as [Hs Hp]; [|by apply smap_insert_sorted|].
  { intros b Hb. unfold insert_artifact. rewrite smap_find_insert_ne; [apply Hf; by right|].
    intros Heq. apply Ha. rewrite <-Heq. by apply list_elem_of_fmap_2. }
  split; [done|]. intros p. rewrite Hp. unfold insert_artifact.
  rewrite elem_of_smap_insert_fresh by (apply Hf; left). setoid_rewrite elem_of_cons. naive_solver.
Qed.

Lemma prepare_permutation federation catalog l k :
  NoDup (art_evidence <$> l) → l ≡ₚ k →
  prepare_artifacts federation catalog l = prepare_artifacts federation catalog k.
Proof.
  intros Hd Hlk. assert (NoDup (art_evidence <$> k)) as Hd' by by rewrite <-Hlk.
  unfold prepare_artifacts, index_artifacts.
  rewrite !index_distinct by done. cbn [by_id quarantined ix_duplicates ix_rejected ix_conflicts].
  assert (foldl insert_artifact [] l = foldl insert_artifact [] k) as ->; [|done].
  destruct (insert_artifacts_spec l [] Hd) as [Hsl Hpl]; [done|constructor|].
  destruct (insert_artifacts_spec k [] Hd') as [Hsk Hpk]; [done|constructor|].
  apply smap_sorted_ext; [done|done|]. intros p. rewrite Hpl, Hpk. by setoid_rewrite Hlk.
Qed.

(** Two presentations of the same evidence. *)
Record same_evidence (i j : DerivationInputs) : Prop := {
  se_federation : in_federation i = in_federation j;
  se_coordinator : in_coordinator i = in_coordinator j;
  se_incarnation : in_coordinator_incarnation i = in_coordinator_incarnation j;
  se_time : in_logical_time i = in_logical_time j;
  se_policy : in_policy i = in_policy j;
  se_catalog : in_catalog i = in_catalog j;
  se_observations : in_observations i = in_observations j;
  se_recovery : in_recovery i = in_recovery j;
  se_artifacts : in_artifacts i ≡ₚ in_artifacts j;
  se_leases : in_leases i ≡ₚ in_leases j;
  se_ledger : in_replay_ledger i ≡ₚ in_replay_ledger j
}.

Lemma sort_by_fmap_permutation {A B K} `{CmpLaws K} (f : A → B) (key : B → K) (g : A → K) (l k : list A) :
  (∀ a, key (f a) = g a) → NoDup (g <$> l) → l ≡ₚ k → sort_by key (f <$> l) = sort_by key (f <$> k).
Proof.
  intros Hfg Hd Hlk. apply (sort_by_permutation key); [|by rewrite Hlk].
  intros x y (a & -> & Ha)%list_elem_of_fmap (b & -> & Hb)%list_elem_of_fmap.
  rewrite !Hfg. intros Hk. f_equal.
  apply list_elem_of_lookup in Ha as [n Hn]. apply list_elem_of_lookup in Hb as [m Hm].
  assert (n = m) as ->; [|congruence].
  eapply NoDup_lookup; [exact Hd|by rewrite list_lookup_fmap, Hn|].
  by rewrite list_lookup_fmap, Hm, Hk.
Qed.

Lemma derivation_permutes i j
    (Hsame : same_evidence i j) (Harts : NoDup (art_evidence <$> in_artifacts i))
    (Hleases : NoDup (lease_id <$> in_leases i))
    (Hledger : NoDup (request <$> in_replay_ledger i)) :
  derive_state i = derive_state j.
Proof.
  destruct Hsame as [Hf Hc Hi Ht Hp Hcat Ho Hr Ha Hl Hg]. unfold derive_state.
  rewrite <-Hp, <-Hcat. destruct (in_policy i) as [policy|]; [|done].
  destruct (in_catalog i) as [catalog|]; [|done]. cbv zeta.
  rewrite <-Hf, <-(prepare_permutation _ _ _ _ Harts Ha).
  set (arts := accepted _).
  assert (setting_of j policy catalog arts = setting_of i policy catalog arts) as ->.
  { unfold setting_of. rewrite <-Hf, <-Ht. f_equal. unfold member_order. apply sort_unique_ext.
    intros m. by rewrite Hl. }
  set (s := setting_of i policy catalog arts).
  rewrite <-Ho, <-Hc, <-Hi, <-Hr.
  rewrite <-(sort_by_fmap_permutation (lease_view (st_epoch s) (in_coordinator_incarnation i) (st_now s))
    lv_id lease_id (in_leases i) (in_leases j) (λ _, eq_refl) Hleases Hl).
  assert (ledger_of (in_replay_ledger j) = ledger_of (in_replay_ledger i)) as ->; [|done].
  unfold ledger_of.
  pose proof (sort_by_fmap_permutation id request request _ _ (λ _, eq_refl) Hledger Hg) as Hs.
  rewrite !list_fmap_id in Hs. by rewrite Hs.
Qed.
(** C20: the derived state does not depend on the order in which its evidence
    arrived: permuting the artefacts, the leases and the replay ledger, whose
    identifiers are distinct, changes nothing of the result, its digest
    included. *)
Theorem derivation_is_order_independent i j
    (Hsame : same_evidence i j) (Harts : NoDup (art_evidence <$> in_artifacts i))
    (Hleases : NoDup (lease_id <$> in_leases i))
    (Hledger : NoDup (request <$> in_replay_ledger i)) :
  derive_state i = derive_state j.
Proof. exact (derivation_permutes i j Hsame Harts Hleases Hledger). Qed.

(** ** An example federation *)

(** Member [x01] founds the federation and sponsors [x02]; both share one grant,
    and only the founder delegates another. *)
Definition example_term (name : string) (v : AuthorityVerb.t) : DelegationTerms :=
  mkTerms (mkGrant (mkName name) v) DelegationMode.Shared 1 zero (mkName "").
Definition example_party (s : byte) (terms : list DelegationTerms) : MemberDeclaration :=
  mkDeclaration (mkConstitution (mkId (replicate 16 s)) (example_member s) (mkCounter 1) 1 0 0
    [] [] [] terms "") (mkCounter 1) (mkId (replicate 16 s)) (mkCounter 1).
Definition shared_term : DelegationTerms := example_term "federation.health.report" AuthorityVerb.Observe.
Definition founding_party : MemberDeclaration :=
  example_party x01 [example_term "federation.route.advertise" AuthorityVerb.Mutate; shared_term].
Definition joining_party (m : DelegationMode.t) : MemberDeclaration :=
  example_party x02 [mkTerms (grant shared_term) m 1 zero (mkName "")].
Definition example_federation : FederationId := mkId (replicate 16 xff).
Definition example_genesis : FederationGenesis :=
  mkGenesis example_federation (mkId (replicate 16 x09)) founding_party [] default_policy "" (mkCounter 1).

(** An artefact of member [i], or of the coordinator, about the party [d]. *)
Definition example_artifact (k : ArtifactKind.t) (i : option byte) (e : byte) (d : MemberDeclaration)
    (g : FederationGenesis) : Artifact :=
  Artifact_make
    (mkEnvelope (mkId (replicate 16 e)) k example_federation (con_member (decl_constitution d))
       (mkProvenance (mkId (replicate 16 x09)) (from_option example_member nil_id i)
          (mkCounter 1) (mkCounter 1) Digest_zero (mkCounter 1) (mkCounter 1)) Digest_zero)
    (mkBody d (declaration_identity d) g no_policy (mkCounter 1) zero Digest_zero
       zero [] 0 0 [] [] nil_id no_identity [] zero zero zero zero [] [] Outcome.Unknown
       (wire ReasonCode.EvidenceUnknown) (wire ReasonCode.EvidenceUnknown) "" zero).
(** The second party asks for the shared grant in the given mode. *)
Definition example_artifacts (m : DelegationMode.t) : list Artifact :=
  [example_artifact ArtifactKind.MembershipActivation None x25 (joining_party m) no_genesis;
   example_artifact ArtifactKind.MembershipAcceptance (Some x02) x24 (joining_party m) no_genesis;
   example_artifact ArtifactKind.MembershipProposal (Some x01) x23 (joining_party m) no_genesis;
   example_artifact ArtifactKind.MembershipActivation None x22 founding_party no_genesis;
   example_artifact ArtifactKind.FederationGenesis None x21 founding_party example_genesis].
Definition example_inputs (arts : list Artifact) : DerivationInputs :=
  mkDerivationInputs example_federation (mkId (replicate 16 x09)) (mkCounter 1) (mkCounter 1)
    (Some default_policy) (Some builtin) arts [] [] [] [].
Definition agreeing : DerivationInputs := example_inputs (example_artifacts DelegationMode.Shared).
Definition disputing : DerivationInputs := example_inputs (example_artifacts DelegationMode.Exclusive).
Definition setting_for (i : DerivationInputs) : Setting :=
  default (mkSetting nil_id [] [] default_policy zero zero [] []) (derivation_setting i).
Definition empty_state : FederationState :=
  mkState nil_id nil_id zero zero false (mkName "") zero Digest_zero zero Digest_zero "" 0 0 0
    [] [] [] [] neutral [] [].
Definition result_of (i : DerivationInputs) : DerivationResult :=
  match derive_state i with Ok r => r | Err _ => mkResult empty_state [] end.

Definition outline (m : MemberState) : MemberId * MemberLifecycleState.t * list ScopeGrant :=
  (ms_member m, ms_lifecycle m, federation_authority m).
(** What the examples look at, in one evaluation. *)
Definition observed (i : DerivationInputs) :=
  match derive_state i with
  | Ok r =>
      let st := state r in
      Some (outline <$> members st, ms_delegated_terms <$> members st,
            p_state (s_partition st),
            match resolve (st_policy (setting_for i)) (claims_of (members st)) (grant shared_term) with
            | Conflicted c => Some (kind c)
            | _ => None
            end)
  | Err _ => None
  end.
Lemma observed_Some i ms ts b c :
  observed i = Some (ms, ts, b, c) →
  let st := state (result_of i) in
  derive_state i = Ok (result_of i) ∧ derivation_setting i = Some (setting_for i) ∧
  outline <$> members st = ms ∧ ms_delegated_terms <$> members st = ts ∧
  p_state (s_partition st) = b ∧
  match resolve (st_policy (setting_for i)) (claims_of (members st)) (grant shared_term) with
  | Conflicted c => Some (kind c)
  | _ => None
  end = c.
Proof.
  intros Ho. assert (derivation_setting i = Some (setting_for i)) as Hs.
  { unfold setting_for. destruct (derivation_setting i) eqn:E; [done|]. exfalso. revert Ho.
    unfold observed, derive_state. unfold derivation_setting in E.
    destruct (in_policy i); [|done]. by destruct (in_catalog i). }
  revert Ho. unfold observed, result_of. destruct (derive_state i) as [r|]; [|done].
  intros [= <- <- <- <-]. by split_and!.
Qed.

Definition agreeing_view :=
  ([(example_member x01, MemberLifecycleState.Degraded, [grant shared_term]);
    (example_member x02, MemberLifecycleState.Degraded, [grant shared_term])],
   [[shared_term; example_term "federation.route.advertise" AuthorityVerb.Mutate]; [shared_term]],
   PartitionState.Indeterminate, @None ConflictKind.t).
Lemma agreeing_observed : observed agreeing = Some agreeing_view.
Proof. vm_cast_no_check (eq_refl (Some agreeing_view)). Qed.
Definition disputing_view :=
  ([(example_member x01, MemberLifecycleState.Degraded, @nil ScopeGrant);
    (example_member x02, MemberLifecycleState.Degraded, [])],
   [[shared_term; example_term "federation.route.advertise" AuthorityVerb.Mutate];
    [mkTerms (grant shared_term) DelegationMode.Exclusive 1 zero (mkName "")]],
   PartitionState.Indeterminate, Some ConflictKind.ModeMismatch).
Lemma disputing_observed : observed disputing = Some disputing_view.
Proof. vm_cast_no_check (eq_refl (Some disputing_view)). Qed.

Lemma agreeing_members :
  ∃ a b, members (state (result_of agreeing)) = [a; b] ∧
    outline a = (example_member x01, MemberLifecycleState.Degraded, [grant shared_term]) ∧
    outline b = (example_member x02, MemberLifecycleState.Degraded, [grant shared_term]) ∧
    ms_delegated_terms a = [shared_term; example_term "federation.route.advertise" AuthorityVerb.Mutate] ∧
    ms_delegated_terms b = [shared_term].
Proof.
  destruct (observed_Some _ _ _ _ _ agreeing_observed) as (_ & _ & Ho & Ht & _).
  destruct (members (state (result_of agreeing))) as [|a [|b [|c l]]]; [done|done| |done].
  cbn [fmap list_fmap] in Ho, Ht. exists a, b. split_and!; congruence.
Qed.
Lemma agreeing_ok :
  derive_state agreeing = Ok (result_of agreeing) ∧
  derivation_setting agreeing = Some (setting_for agreeing).
Proof.
  destruct (observed_Some _ _ _ _ _ agreeing_observed) as (H & Hs & _). exact (conj H Hs).
Qed.
Lemma disputing_ok :
  derive_state disputing = Ok (result_of disputing) ∧
  derivation_setting disputing = Some (setting_for disputing).
Proof.
  destruct (observed_Some _ _ _ _ _ disputing_observed) as (H & Hs & _). exact (conj H Hs).
Qed.

Lemma standing_is_least_fixpoint_witness :
  let s := mkSetting example_federation builtin [] default_policy (mkCounter 1) (mkCounter 1)
             [founding_party] [example_member x01; example_member x02] in
  size (st_order s) ≤ kMaxMembers ∧
  ∃ established, standing s = (established, standing_round s established, true).
Proof.
  intros s. assert (size (st_order s) ≤ kMaxMembers) as Hs by (vm_compute; discriminate).
  split; [exact Hs|].
  destruct (standing_is_least_fixpoint s Hs) as (E & H & _). exists E. exact H.
Defined.
Lemma authority_granted_iff_witness :
  ∃ ms t, ms ∈ members (state (result_of agreeing)) ∧ t ∈ ms_delegated_terms ms ∧
    grantable (setting_for agreeing) (p_state (s_partition (state (result_of agreeing))))
      (s_reconciling (state (result_of agreeing))) (claims_of (members (state (result_of agreeing)))) ms t.
Proof.
  destruct agreeing_members as (a & b & Hm & Ha & _).
  assert (a ∈ members (state (result_of agreeing))) as Hin by (rewrite Hm; left).
  assert (grant shared_term ∈ federation_authority a) as Hg
    by (injection Ha as _ _ ->; left).
  apply (authority_granted_iff agreeing (result_of agreeing) (setting_for agreeing) a (grant shared_term)
    (proj1 agreeing_ok) (proj2 agreeing_ok) Hin) in Hg as (t & Ht & _ & Hgr).
  exists a, t. split; [exact Hin|split; [exact Ht|exact Hgr]].
Defined.
Lemma disputed_grant_has_one_holder_witness :
  ∃ a b, members (state (result_of agreeing)) = [a; b] ∧
    grant shared_term ∈ federation_authority a ∧ grant shared_term ∈ federation_authority b ∧
    mode shared_term ≠ DelegationMode.Exclusive.
Proof.
  destruct agreeing_members as (a & b & Hm & Ha & Hb & Hta & Htb).
  assert (a ∈ members (state (result_of agreeing))) as Hia by (rewrite Hm; left).
  assert (b ∈ members (state (result_of agreeing))) as Hib by (rewrite Hm; right; left).
  injection Ha as Ha _ Hga. injection Hb as Hb _ Hgb.
  assert (ms_member a ≠ ms_member b) as Hne by (rewrite Ha, Hb; vm_compute; discriminate).
  assert (grant shared_term ∈ federation_authority a) as Hina by (rewrite Hga; left).
  assert (grant shared_term ∈ federation_authority b) as Hinb by (rewrite Hgb; left).
  exists a, b. split; [exact Hm|split; [exact Hina|split; [exact Hinb|]]].
  apply (disputed_grant_has_one_holder agreeing (result_of agreeing) a b (grant shared_term)
    (proj1 agreeing_ok)     Hia Hib Hne Hina Hinb shared_term shared_term);
    [rewrite Hta; left|rewrite Htb; left|reflexivity|reflexivity].
Defined.
Lemma no_global_mutation_while_suspended_witness :
  ∃ ms, ms ∈ members (state (result_of agreeing)) ∧
    example_term "federation.route.advertise" AuthorityVerb.Mutate ∈ ms_delegated_terms ms ∧
    mkGrant (mkName "federation.route.advertise") AuthorityVerb.Mutate ∉ federation_authority ms.
Proof.
  destruct agreeing_members as (a & b & Hm & _ & _ & Hta & _).
  assert (a ∈ members (state (result_of agreeing))) as Hin by (rewrite Hm; left).
  exists a. split; [exact Hin|split; [rewrite Hta; right; left|]].
  destruct (observed_Some _ _ _ _ _ agreeing_observed) as (_ & _ & _ & _ & Hs & _).
  assert (p_state (s_partition (state (result_of agreeing))) ∈
    [PartitionState.Split; PartitionState.Indeterminate]) as Hsplit by (rewrite Hs; right; left).
  assert (suspend_global_mutation_on_partition (st_policy (setting_for agreeing)) = true) as Hpol
    by (vm_compute; reflexivity).
  apply (no_global_mutation_while_suspended agreeing (result_of agreeing) (setting_for agreeing) a
    (mkGrant (mkName "federation.route.advertise") AuthorityVerb.Mutate) (proj1 agreeing_ok) (proj2 agreeing_ok) Hin
    (or_introl (conj Hpol Hsplit))).
  change (st_catalog (setting_for agreeing)) with builtin. vm_compute. reflexivity.
Defined.
Lemma dispute_is_reported_witness :
  ∃ c, resolve (st_policy (setting_for disputing)) (claims_of (members (state (result_of disputing))))
         (grant shared_term) = Conflicted c ∧
    mkConflict (grant shared_term) (kind c) (claimants c) (detail c) ∈ s_conflicts (state (result_of disputing)).
Proof.
  destruct (observed_Some _ _ _ _ _ disputing_observed) as (_ & _ & _ & _ & _ & Hc).
  destruct (resolve _ _ _) as [| |c] eqn:Hr; [discriminate Hc|discriminate Hc|].
  exists c. split; [reflexivity|].
  destruct (dispute_is_reported disputing (result_of disputing) (setting_for disputing)
    (grant shared_term) c (proj1 disputing_ok) (proj2 disputing_ok) Hr) as [H _]. exact H.
Defined.
Lemma standing_is_rooted_in_genesis_witness :
  ∃ ms, ms ∈ members (state (result_of agreeing)) ∧ ms_member ms = example_member x02 ∧
    rooted (setting_for agreeing) (example_member x02).
Proof.
  destruct agreeing_members as (a & b & Hm & _ & Hb & _).
  assert (b ∈ members (state (result_of agreeing))) as Hin by (rewrite Hm; right; left).
  injection Hb as Hb Hl _. exists b. split; [exact Hin|split; [exact Hb|]]. rewrite <-Hb.
  assert (established_state (ms_lifecycle b) = true) as He by (rewrite Hl; reflexivity).
  destruct (standing_is_rooted_in_genesis agreeing (result_of agreeing) (setting_for agreeing) b
    (proj1 agreeing_ok) (proj2 agreeing_ok) Hin) as [H _]. exact (proj2 (H (or_introl He))).
Defined.
Lemma derivation_is_order_independent_witness :
  let backwards := example_inputs (reverse (example_artifacts DelegationMode.Shared)) in
  in_artifacts backwards ≠ in_artifacts agreeing ∧ derive_state agreeing = derive_state backwards.
Proof.
  intros backwards. split.
  - intros H. apply (f_equal (fmap art_evidence)) in H. discriminate H.
  - apply derivation_is_order_independent; [|apply (bool_decide_eq_true_1 (NoDup (art_evidence <$> in_artifacts agreeing)));
    vm_compute; reflexivity|constructor|constructor].
    constructor; try reflexivity. cbn [in_artifacts agreeing backwards example_inputs].
    symmetry. apply reverse_Permutation.
Defined.
