(* ===== verification/Authority.v ===== *)
(** * Authority decisions

    Models include/fabric_federation/authority.hpp and src/authority.cpp: requests
    and decisions with their codecs, the evaluation of a request against a derived
    state as the sequence of its numbered checks, and the local evaluation. *)

From S2P Require Import Prelude Errors Sha256 Text Codec Ids Names Scope Capability Policy Identity.
From S2P Require Import Explanation Lease Partition Evidence Membership Journal State Derivation.

(** ** Requests and decisions *)

Record AuthorityRequest := mkRequest {
  rq_id : RequestId;
  rq_federation : FederationId;
  epoch_seen : Epoch;
  actor : MemberIdentity;
  requested : ScopeGrant;
  rq_lease : LeaseId;
  rq_issued_at : Tick;
  rq_constraint : ConstraintToken
}.
#[export] Instance AuthorityRequest_codec : Codec AuthorityRequest := {
  encode r :=
    encode (rq_id r) >+> encode (rq_federation r) >+> encode (epoch_seen r) >+> encode (actor r) >+>
    encode (requested r) >+> encode (rq_lease r) >+> encode (rq_issued_at r) >+>
    Writer.identifier (str (rq_constraint r));
  decode :=
    i ← decode; f ← decode; e ← decode; a ← decode; g ← decode; l ← decode; t ← decode;
    c ← dec_name_or_empty ConstraintTag "request constraint is malformed";
    mret (mkRequest i f e a g l t c);
  wire_ok r := wire_ok (rq_id r) ∧ wire_ok (rq_federation r) ∧ wire_ok (epoch_seen r) ∧
    wire_ok (actor r) ∧ wire_ok (requested r) ∧ wire_ok (rq_lease r) ∧ wire_ok (rq_issued_at r) ∧
    name_or_empty (rq_constraint r)
}.
#[export] Instance AuthorityRequest_codec_laws : CodecLaws AuthorityRequest.
Proof.
  intros [i f e a g l t c] bs rest (? & ? & ? & ? & ? & ? & ? & ?) Hbs.
  cbn [encode decode wire_ok AuthorityRequest_codec rq_id rq_federation epoch_seen actor requested
    rq_lease rq_issued_at rq_constraint] in *.
  split_enc. by read_fields.
Qed.
Definition request_digest (r : AuthorityRequest) : Digest := digest_of (encode r).
Definition request_to_string (r : AuthorityRequest) : string :=
  id_to_string (rq_id r) +s+ " actor=" +s+ identity_to_string (actor r) +s+ " grant=" +s+
  grant_to_string (requested r) +s+ " epoch_seen=" +s+ to_dec (value (epoch_seen r)) +s+
  (if is_nil (rq_lease r) then "" else " lease=" +s+ id_to_string (rq_lease r)).

Record AuthorityDecision := mkDecision {
  ad_request : RequestId;
  ad_outcome : Outcome.t;
  ad_federation : FederationId;
  ad_epoch_seen : Epoch;
  epoch_current : Epoch;
  ad_requested : ScopeGrant;
  actor_declared : MemberIdentity;
  actor_current : MemberIdentity;
  ad_lifecycle : MemberLifecycleState.t;
  effective_authority : list ScopeGrant;
  explanation : Explanation;
  ad_decided_at : Tick
}.
#[export] Instance AuthorityDecision_codec : Codec AuthorityDecision := {
  encode d :=
    encode (ad_request d) >+> Writer.u8 (wire (ad_outcome d)) >+> encode (ad_federation d) >+>
    encode (ad_epoch_seen d) >+> encode (epoch_current d) >+> encode (ad_requested d) >+>
    encode (actor_declared d) >+> encode (actor_current d) >+> Writer.u8 (wire (ad_lifecycle d)) >+>
    encode_grants (effective_authority d) kMaxEffectiveGrantsPerDecision >+>
    encode (explanation d) >+> encode (ad_decided_at d);
  decode :=
    i ← decode;
    o ← Reader.u8;
    o ← dec_enum o ErrorCode.InvalidArgument "decision outcome is out of range";
    f ← decode; e1 ← decode; e2 ← decode; g ← decode; a1 ← decode; a2 ← decode;
    s ← Reader.u8;
    s ← dec_enum s ErrorCode.InvalidArgument "lifecycle state is out of range";
    gs ← decode_grants kMaxEffectiveGrantsPerDecision;
    x ← decode;
    t ← decode;
    mret (mkDecision i o f e1 e2 g a1 a2 s gs x t);
  wire_ok d := wire_ok (ad_request d) ∧ wire_ok (ad_federation d) ∧ wire_ok (ad_epoch_seen d) ∧
    wire_ok (epoch_current d) ∧ wire_ok (ad_requested d) ∧ wire_ok (actor_declared d) ∧
    wire_ok (actor_current d) ∧ Forall wire_ok (effective_authority d) ∧
    wire_ok (explanation d) ∧ wire_ok (ad_decided_at d)
}.
#[export] Instance AuthorityDecision_codec_laws : CodecLaws AuthorityDecision.
Proof.
  intros [i o f e1 e2 g a1 a2 s gs x t] bs rest (? & ? & ? & ? & ? & ? & ? & ? & ? & ?) Hbs.
  cbn [encode decode wire_ok AuthorityDecision_codec ad_request ad_outcome ad_federation
    ad_epoch_seen epoch_current ad_requested actor_declared actor_current ad_lifecycle
    effective_authority explanation ad_decided_at] in *.
  unfold encode_grants, decode_grants in *. split_enc. by read_fields.
Qed.
Definition decision_digest (d : AuthorityDecision) : Digest := digest_of (encode d).
Definition decision_to_string (d : AuthorityDecision) : string :=
  Outcome.to_string (ad_outcome d) +s+ " request=" +s+ id_to_string (ad_request d) +s+ " grant=" +s+
  grant_to_string (ad_requested d) +s+ " lifecycle=" +s+
  MemberLifecycleState.to_string (ad_lifecycle d) +s+ " epoch=" +s+
  to_dec (value (epoch_current d)) +s+
  (if decide (effective_authority d = []) then ""
   else " effective=[" +s+ render_grants (effective_authority d) +s+ "]") +s+
  " digest=" +s+ hex16 (decision_digest d).

Definition withholding_reason (s : FederationState) : ReasonCode.t :=
  if s_reconciling s then ReasonCode.PartitionReconcilingSuspendsGlobalMutation
  else match p_state (s_partition s) with
  | PartitionState.Split => ReasonCode.PartitionSplitSuspendsGlobalMutation
  | PartitionState.Indeterminate => ReasonCode.PartitionIndeterminateSuspendsGlobalMutation
  | _ => ReasonCode.MembershipDegradedObservationGap
  end.

(** ** Building a decision *)

Definition with_explanation (d : AuthorityDecision) (x : Explanation) : AuthorityDecision :=
  mkDecision (ad_request d) (ad_outcome d) (ad_federation d) (ad_epoch_seen d) (epoch_current d)
    (ad_requested d) (actor_declared d) (actor_current d) (ad_lifecycle d) (effective_authority d) x
    (ad_decided_at d).
(** [explanation.add(code, detail)]. *)
Definition add_note (c : ReasonCode.t) (t : string) (d : AuthorityDecision) : AuthorityDecision :=
  with_explanation d (explanation_add c t (explanation d)).
(** The lambda [finish]. *)
Definition finish (o : Outcome.t) (ev : EvidenceState.t) (summary : string) (d : AuthorityDecision) :
    AuthorityDecision :=
  let x := explanation d in
  mkDecision (ad_request d) o (ad_federation d) (ad_epoch_seen d) (epoch_current d)
    (ad_requested d) (actor_declared d) (actor_current d) (ad_lifecycle d) (effective_authority d)
    (explanation_canonicalize
       (mkExplanation o ev (reasons x) (contributions x) (conflicts x) (considered_grants x)
          (effective_grants x) (limit_reached x) summary))
    (ad_decided_at d).
(** [explanation.effective_grants.push_back(grant)]. *)
Definition award (g : ScopeGrant) (d : AuthorityDecision) : AuthorityDecision :=
  let x := explanation d in
  with_explanation d
    (mkExplanation (outcome x) (e_evidence x) (reasons x) (contributions x) (conflicts x)
       (considered_grants x) (effective_grants x ++ [g]) (limit_reached x) (e_summary x)).

(** A check either returns the decision or goes on with it. *)
Definition Check : Type := AuthorityDecision → AuthorityDecision + AuthorityDecision.
Definition and_then (a b : Check) : Check := λ d,
  match a d with inl d => inl d | inr d => b d end.
Notation "a &> b" := (and_then a b) (at level 60, right associativity).
Definition stop (o : Outcome.t) (ev : EvidenceState.t) (summary : string) : Check :=
  λ d, inl (finish o ev summary d).
Definition go_on : Check := inr.
Definition noting (c : ReasonCode.t) (t : string) : Check := λ d, inr (add_note c t d).
(** [if (b) { ... }]. *)
Definition when (b : bool) (k : Check) : Check := if b then k else go_on.

(** ** [evaluate_authority] *)

Section evaluate.
Context (r : AuthorityRequest) (s : FederationState) (policy : FederationPolicy)
        (catalog : ScopeCatalog).
Let g := requested r.

Definition actor_contribution : Contribution :=
  mkContribution (idn_member (actor r)) ContributionRole.Actor (idn_generation (actor r))
    (idn_incarnation (actor r)) (idn_constitution (actor r)) (request_digest r) (epoch_seen r) false "".
Definition initial_decision : AuthorityDecision :=
  mkDecision (rq_id r) Outcome.Unknown (rq_federation r) (epoch_seen r) (epoch s) g (actor r)
    no_identity MemberLifecycleState.Absent []
    (mkExplanation (outcome no_explanation) (e_evidence no_explanation) [] [actor_contribution] []
       [g] [] false "")
    (s_logical_time s).

(** 1. *)
Definition check_federation : Check :=
  when (negb (bool_decide (rq_federation r = federation s)))
    (noting ReasonCode.FederationIdentityMismatch
       ("request names " +s+ id_to_string (rq_federation r) +s+ ", this coordinator serves " +s+
        id_to_string (federation s)) &>
     stop Outcome.Refused EvidenceState.Invalid
       "the request names a federation this coordinator does not serve").
(** 2. *)
Definition check_replay : Check :=
  when (has_replay s (rq_id r))
    (noting ReasonCode.RequestReplayed
       ("request " +s+ id_to_string (rq_id r) +s+
        " was already decided; a repeated identifier never grants fresh authority") &>
     stop Outcome.Replayed EvidenceState.Known
       "the request identifier is already in the replay ledger") &>
  noting ReasonCode.RequestFresh "request identifier has not been decided before".
(** 3. *)
Definition check_epoch : Check :=
  when (ltb (epoch s) (epoch_seen r))
    (noting ReasonCode.EpochAheadOfCoordinator
       ("request was made at epoch " +s+ to_dec (value (epoch_seen r)) +s+
        ", this coordinator is at epoch " +s+ to_dec (value (epoch s)) +s+
        "; authority is not granted on an epoch the coordinator cannot see") &>
     stop Outcome.Refused EvidenceState.Stale
       "the requester has seen a later epoch than this coordinator") &>
  when (ltb (epoch_seen r) (epoch s))
    (noting ReasonCode.EpochStale
       ("request was made at epoch " +s+ to_dec (value (epoch_seen r)) +s+ ", current epoch is " +s+
        to_dec (value (epoch s))) &>
     stop Outcome.Stale EvidenceState.Stale "the request belongs to a previous epoch") &>
  noting ReasonCode.EpochMatches ("epoch " +s+ to_dec (value (epoch s)) +s+ " matches").
(** 4. *)
Definition scope_class : ScopeClass.t := (classify catalog (scope g)).1.
Definition scope_known : bool := (classify catalog (scope g)).2.
Definition check_local : Check :=
  when (scope_known && bool_decide (scope_class = ScopeClass.Local))
    (noting ReasonCode.ScopeLocalAuthorityAlwaysGranted
       (grant_to_string g +s+ " is local authority; the federation neither grants nor removes it") &>
     (λ d, inr (mkDecision (ad_request d) (ad_outcome d) (ad_federation d) (ad_epoch_seen d)
                  (epoch_current d) (ad_requested d) (actor_declared d) (actor_current d)
                  (ad_lifecycle d) (effective_authority d ++ [g]) (explanation d) (ad_decided_at d))) &>
     (λ d, inr (award g d)) &>
     stop Outcome.Granted EvidenceState.Known
       "local authority; the federation has no standing over it") &>
  when (negb scope_known)
    (noting ReasonCode.ScopeUnknownToCatalogue
       ("scope " +s+ str (scope g) +s+ " is not in the federation scope catalogue of this build") &>
     stop Outcome.Unsupported EvidenceState.Unknown
       "the requested scope is not modelled by this build").
(** 5, when nothing is known of the member. *)
Definition unknown_member : Check :=
  noting ReasonCode.IdentityMemberUnknown
    ("no evidence about member " +s+ id_to_string (idn_member (actor r)) +s+
     " exists in this federation") &>
  stop Outcome.Unknown EvidenceState.Unknown
    "the federation holds no evidence about the requesting member".

Section member.
Context (m : MemberState).

(** 5: what is known of the member becomes part of the decision.  The reasons are
    pushed, not added: their number is not bounded here. *)
Definition refresh (c : Contribution) : Contribution :=
  mkContribution (c_member c) (c_role c) (c_generation c) (c_incarnation c) (c_constitution c)
    (c_evidence c) (c_epoch c)
    (bool_decide (c_member c = ms_member m) &&
     bool_decide (c_constitution c = idn_constitution (ms_current_identity m)))
    (Explanation.note c).
Definition load_member : Check := λ d,
  let x := explanation d in
  inr (mkDecision (ad_request d) (ad_outcome d) (ad_federation d) (ad_epoch_seen d)
    (epoch_current d) (ad_requested d) (actor_declared d) (ms_current_identity m) (ms_lifecycle m)
    (federation_authority m)
    (mkExplanation (outcome x) (e_evidence x) (reasons x ++ ms_reasons m)
       (refresh <$> contributions x ++ contributing_parties m) (conflicts x ++ ms_conflicts m)
       (considered_grants x) (effective_grants x) (limit_reached x) (e_summary x))
    (ad_decided_at d)).
(** 6. *)
Definition check_lifecycle : Check :=
  let ev := ms_evidence m in
  match ms_lifecycle m with
  | MemberLifecycleState.Absent =>
      stop Outcome.Unknown EvidenceState.Unknown "the member has no membership evidence at all"
  | MemberLifecycleState.Proposed =>
      stop Outcome.Incomplete EvidenceState.Incomplete "the member is proposed but not admitted"
  | MemberLifecycleState.Admitted_ =>
      stop Outcome.Incomplete EvidenceState.Incomplete
        "the member is admitted but not active at the current epoch"
  | MemberLifecycleState.Retired =>
      stop Outcome.Refused ev "the membership lineage has been retired"
  | MemberLifecycleState.Leaving =>
      noting ReasonCode.MembershipLeaving
        "the member has left; every federation-derived grant ended and local authority was untouched" &>
      stop Outcome.Fenced ev "the member has left the federation"
  | MemberLifecycleState.Fenced =>
      noting ReasonCode.MembershipFencedByOrder "a fence is in force for this member" &>
      stop Outcome.Fenced ev "federation authority is fenced for this member"
  | MemberLifecycleState.Active | MemberLifecycleState.Degraded => go_on
  end.
(** 7.  The two members of the conditional [authority_held] are written out. *)
Definition check_identity : Check :=
  let held := lifecycle_holds_federation_authority (ms_lifecycle m) in
  let current := ms_current_identity m in
  let superseded :=
    stop (if held then Outcome.Fenced else Outcome.Stale) EvidenceState.Stale
      (if held then "the presented identity no longer matches the authority that was granted; the authority is fenced"
       else "the presented identity is superseded") in
  match compare_identities current (actor r) with
  | IdentityMismatch.None => noting ReasonCode.IdentityMatches "generation, incarnation and digest match"
  | IdentityMismatch.Member | IdentityMismatch.Domain =>
      noting ReasonCode.IdentityMemberUnknown
        "presented member/domain does not match the recorded member" &>
      stop Outcome.Refused EvidenceState.Invalid "the presented identity names a different member"
  | IdentityMismatch.Generation =>
      noting ReasonCode.IdentityGenerationStale
        ("presented generation " +s+ to_dec (value (idn_generation (actor r))) +s+
         ", current generation " +s+ to_dec (value (idn_generation current))) &> superseded
  | IdentityMismatch.Constitution =>
      noting ReasonCode.IdentityConstitutionStale
        ("presented constitution " +s+ hex16 (idn_constitution (actor r)) +s+
         ", current constitution " +s+ hex16 (idn_constitution current)) &> superseded
  | IdentityMismatch.Incarnation =>
      noting ReasonCode.IdentityIncarnationStale
        ("presented incarnation " +s+ to_dec (value (idn_incarnation (actor r))) +s+
         ", current incarnation " +s+ to_dec (value (idn_incarnation current))) &> superseded
  | IdentityMismatch.Node =>
      noting ReasonCode.IdentityIncarnationStale
        ("presented node " +s+ id_to_string (idn_node (actor r)) +s+
         " is not the node recorded for the current incarnation") &> superseded
  end.
(** 8, first part: the first conflict about the requested grant decides. *)
Definition concerns (c : ConflictRecord) : bool := grants_cover [conflict_grant c] g.
Definition check_conflicts : Check :=
  match List.find concerns (ms_conflicts m) with
  | Some c =>
      noting ReasonCode.DelegationConflictContained
        ("overlapping delegations disagree about " +s+ grant_to_string (conflict_grant c) +s+
         "; no party is granted the grant while the disagreement stands") &>
      stop Outcome.Conflicting EvidenceState.Conflicting
        "overlapping delegations conflict; the grant is contained, not awarded"
  | None => go_on
  end.
(** 8, second part: why a grant the member does not hold is refused. *)
Definition not_held : Check :=
  if grants_cover (ms_withdrawn_grants m) g then
    noting ReasonCode.DelegationWithdrawn ("the member withdrew " +s+ grant_to_string g) &>
    stop Outcome.Refused EvidenceState.Known
      "the member withdrew this grant; withdrawal is not restored implicitly"
  else if scope_delegation_forbidden policy (scope g) then
    noting ReasonCode.ScopeDelegationForbiddenByPolicy ("policy forbids delegating " +s+ str (scope g)) &>
    stop Outcome.Refused EvidenceState.Known "federation policy forbids this delegation"
  else if bool_decide (g ∈ withheld_global_mutation m) then
    noting (withholding_reason s)
      ("global-mutation authority over " +s+ grant_to_string g +s+ " is suspended") &>
    stop Outcome.Fenced EvidenceState.Stale
      "global-mutation authority is suspended by the current partition state"
  else if bool_decide (g ∈ withheld_grants m) then
    noting ReasonCode.MembershipDegradedObservationGap
      "the grant is delegated but currently withheld from this member" &>
    stop Outcome.Degraded EvidenceState.Indeterminate
      "the grant is withheld while the federation is degraded"
  else if grants_cover (grant <$> ms_delegated_terms m) g then
    noting ReasonCode.ScopeVerbNotDelegated
      (grant_to_string g +s+ " is delegated for other verbs but not for this one") &>
    stop Outcome.Refused EvidenceState.Known
      "the member delegated the scope but not for this verb"
  else
    noting ReasonCode.ScopeNotDelegated
      ("the member never delegated " +s+ grant_to_string g +s+
       "; the authority remains local to the member") &>
    stop Outcome.Refused EvidenceState.Known
      "the member never delegated this grant to the federation".
Definition check_delegation : Check :=
  check_conflicts &>
  (if negb (grants_cover (federation_authority m) g) then not_held else go_on) &>
  noting ReasonCode.ScopeCoveredByDelegation
    (grant_to_string g +s+ " is covered by the member's delegation").
(** 9. *)
Definition check_lease_view (v : LeaseView) : Check :=
  let name := "lease " +s+ id_to_string (lv_id v) in
  when (negb (bool_decide (lv_holder v = idn_member (actor r))) ||
        negb (bool_decide (lv_holder_incarnation v = idn_incarnation (actor r))) ||
        negb (bool_decide (lv_holder_generation v = idn_generation (actor r))))
    (noting ReasonCode.LeaseHolderMismatch
       (name +s+ " is bound to " +s+ id_to_string (lv_holder v) +s+ " incarnation " +s+
        to_dec (value (lv_holder_incarnation v)) +s+ " generation " +s+
        to_dec (value (lv_holder_generation v))) &>
     stop Outcome.Fenced EvidenceState.Stale "the lease is bound to a different member identity") &>
  when (negb (bool_decide (lv_state v = LeaseState.Valid)))
    (noting (lv_reason v) (name +s+ " is " +s+ LeaseState.to_string (lv_state v)) &>
     stop (match lv_state v with
           | LeaseState.Revoked => Outcome.Fenced
           | LeaseState.ScopeNotCovered => Outcome.Refused
           | _ => Outcome.Stale
           end) EvidenceState.Stale
       ("the presented lease is " +s+ LeaseState.to_string (lv_state v))) &>
  when (negb (grants_cover (lv_scopes v) g))
    (noting ReasonCode.LeaseScopeNotCovered (name +s+ " does not cover " +s+ grant_to_string g) &>
     stop Outcome.Refused EvidenceState.Known "the lease does not cover the requested grant") &>
  noting ReasonCode.LeaseValid (name +s+ " is valid").
Definition check_lease : Check :=
  when (lease_required policy g)
    (noting ReasonCode.LeaseRequiredByPolicy ("policy requires a lease for " +s+ grant_to_string g) &>
     when (is_nil (rq_lease r))
       (noting ReasonCode.LeaseMissing "no lease was presented" &>
        stop Outcome.Refused EvidenceState.Incomplete
          "a lease is required for this grant and none was presented") &>
     match List.find (λ v, bool_decide (lv_id v = rq_lease r)) (s_leases s) with
     | None =>
         noting ReasonCode.LeaseMissing
           ("lease " +s+ id_to_string (rq_lease r) +s+ " is not known to this coordinator") &>
         stop Outcome.Refused EvidenceState.Unknown
           "the presented lease is unknown to this coordinator"
     | Some v => check_lease_view v
     end).
(** 10. *)
Definition check_partition : Check :=
  let state := p_state (s_partition s) in
  let on_partition := suspend_global_mutation_on_partition policy in
  when (bool_decide (scope_class = ScopeClass.GlobalMutation))
    (when (s_reconciling s && suspend_global_mutation_while_reconciling policy)
       (noting ReasonCode.PartitionReconcilingSuspendsGlobalMutation
          "the federation is reconciling after a partition" &>
        stop Outcome.Fenced EvidenceState.Stale
          "global-mutation authority is suspended while reconciling") &>
     when (bool_decide (state = PartitionState.Split) && on_partition)
       (noting ReasonCode.PartitionSplitSuspendsGlobalMutation
          ("the active set is split into " +s+ to_dec (size (components (s_partition s))) +s+
           " component(s); no side keeps global-mutation authority") &>
        stop Outcome.Fenced EvidenceState.Stale
          "global-mutation authority is suspended by the observed partition") &>
     when (bool_decide (state = PartitionState.Indeterminate) && on_partition)
       (noting ReasonCode.PartitionIndeterminateSuspendsGlobalMutation
          ("reachability evidence is incomplete: " +s+ p_summary (s_partition s)) &>
        stop Outcome.Fenced EvidenceState.Indeterminate
          "global-mutation authority is suspended because partition evidence is incomplete") &>
     noting ReasonCode.PartitionConnected "the active set is mutually reachable").
(** 11. *)
Definition check_degraded : Check :=
  when (bool_decide (ms_lifecycle m = MemberLifecycleState.Degraded) &&
        (bool_decide (verb g = AuthorityVerb.Mutate) ||
         bool_decide (verb g = AuthorityVerb.Administer)))
    (noting ReasonCode.MembershipDegradedObservationGap
       "the member is degraded; mutating authority is withheld while observation remains permitted" &>
     stop Outcome.Degraded EvidenceState.Indeterminate
       "the member is degraded: observation is permitted, mutation is withheld").
Definition grant_request : Check :=
  (λ d, inr (award g d)) &>
  stop Outcome.Granted (ms_evidence m)
    ("authority granted for " +s+ grant_to_string g +s+ " at epoch " +s+ to_dec (value (epoch s))).

Definition member_checks : Check :=
  load_member &> check_lifecycle &> check_identity &> check_delegation &> check_lease &>
  check_partition &> check_degraded &> grant_request.
End member.

Definition all_checks : Check :=
  check_federation &> check_replay &> check_epoch &> check_local &>
  match find_member s (idn_member (actor r)) with
  | None => unknown_member
  | Some m => member_checks m
  end.
(** Every sequence of checks ends in a [stop]. *)
Definition evaluate_authority : AuthorityDecision :=
  match all_checks initial_decision with inl d | inr d => d end.
End evaluate.

(** ** [evaluate_local_authority] *)

Definition evaluate_local_authority (c : MemberConstitution) (g : ScopeGrant) (now : Tick) :
    AuthorityDecision :=
  let held := grants_cover (retained c) g in
  let o := if held then Outcome.Granted else Outcome.Refused in
  let reason :=
    if held then mkReason ReasonCode.ScopeLocalAuthorityAlwaysGranted
      ("the member retains " +s+ grant_to_string g +s+
       "; the federation has no standing over local authority")
    else mkReason ReasonCode.ScopeRetainedLocalAuthority
      (grant_to_string g +s+
       " is not part of the member's retained local authority; federation authority must be requested from the coordinator") in
  let contribution :=
    mkContribution (con_member c) ContributionRole.Actor (con_generation c) zero
      (constitution_digest c) Digest_zero zero true "local authority" in
  mkDecision nil_id o nil_id zero zero g no_identity
    (mkIdentity (con_domain c) (con_member c) (con_generation c) zero (constitution_digest c) nil_id
       zero false)
    MemberLifecycleState.Active (if held then [g] else [])
    (explanation_canonicalize
       (mkExplanation o EvidenceState.Known [reason] [contribution] [] [g] (if held then [g] else [])
          false ("local authority evaluation for " +s+ grant_to_string g)))
    now.

(** ** What a check can do

    Each check either stops with an outcome or goes on, whatever the decision it
    is given; and it touches nothing but the outcome, what is known of the member
    and the explanation. *)

Inductive Verdict := Stops (o : Outcome.t) | Goes.
Definition then_verdict (v w : Verdict) : Verdict := match v with Stops o => Stops o | Goes => w end.

(** The parts of a decision that repeat the request and the state. *)
Record same_question (d d' : AuthorityDecision) : Prop := {
  sq_request : ad_request d' = ad_request d;
  sq_federation : ad_federation d' = ad_federation d;
  sq_epoch_seen : ad_epoch_seen d' = ad_epoch_seen d;
  sq_epoch_current : epoch_current d' = epoch_current d;
  sq_requested : ad_requested d' = ad_requested d;
  sq_declared : actor_declared d' = actor_declared d;
  sq_decided : ad_decided_at d' = ad_decided_at d
}.
#[export] Instance same_question_preorder : PreOrder same_question.
Proof. split; [by split|intros x y z [] []; split; congruence]. Qed.

(** The effective grants of the explanation say what the outcome says. *)
Definition awarded (g : ScopeGrant) (o : Outcome.t) : list ScopeGrant :=
  if bool_decide (o = Outcome.Granted) then [g] else [].
Definition gives (g : ScopeGrant) (k : Check) (v : Verdict) : Prop := ∀ d,
  effective_grants (explanation d) = [] →
  match k d, v with
  | inl d', Stops o =>
      same_question d d' ∧ ad_outcome d' = o ∧ outcome (explanation d') = o ∧
      effective_grants (explanation d') = awarded g o
  | inr d', Goes => same_question d d' ∧ effective_grants (explanation d') = []
  | _, _ => False
  end.

Lemma add_note_effective c t d :
  effective_grants (explanation (add_note c t d)) = effective_grants (explanation d).
Proof. unfold add_note, with_explanation, explanation_add. by destruct (add_reason _ _ _). Qed.
Lemma gives_noting g c t : gives g (noting c t) Goes.
Proof. intros d Hd. split; [by split|]. by rewrite add_note_effective. Qed.
Lemma gives_go_on g : gives g go_on Goes.
Proof. by intros d Hd. Qed.
Lemma gives_stop g o ev t : o ≠ Outcome.Granted → gives g (stop o ev t) (Stops o).
Proof.
  intros Ho d Hd. cbn. split_and!; [by split|done|done|]. unfold awarded.
  rewrite Hd, bool_decide_eq_false_2 by done. reflexivity.
Qed.
Lemma gives_award g ev t :
  gives g ((λ d, inr (award g d)) &> stop Outcome.Granted ev t) (Stops Outcome.Granted).
Proof. intros d Hd. cbn. rewrite Hd. split_and!; [by split|done..]. Qed.
Lemma gives_and_then g a b v w : gives g a v → gives g b w → gives g (a &> b) (then_verdict v w).
Proof.
  intros Ha Hb d Hd. specialize (Ha d Hd). unfold and_then.
  destruct (a d) as [d1|d1], v as [o|]; try done. destruct Ha as [Hq Hd1].
  specialize (Hb d1 Hd1). cbn [then_verdict].
  destruct (b d1) as [d2|d2], w as [o|]; try done.
  - destruct Hb as [? ?]. split; [by etransitivity|done].
  - destruct Hb as [? ?]. split; [by etransitivity|done].
Qed.
Lemma gives_when g (b : bool) k v : gives g k v → gives g (when b k) (if b then v else Goes).
Proof. intros Hk. destruct b; [done|apply gives_go_on]. Qed.
Lemma gives_load g m : gives g (load_member m) Goes.
Proof. intros d Hd. by split. Qed.

Lemma gives_and_then_if g a b v w :
  gives g a v → (v = Goes → gives g b w) → gives g (a &> b) (then_verdict v w).
Proof.
  intros Ha Hb. destruct v as [o|]; [|by apply gives_and_then, Hb].
  intros d Hd. specialize (Ha d Hd). unfold and_then. by destruct (a d).
Qed.
Lemma gives_stopped g a b o : gives g a (Stops o) → gives g (a &> b) (Stops o).
Proof. intros Ha d Hd. specialize (Ha d Hd). unfold and_then. by destruct (a d). Qed.
Lemma gives_stopped' g a b v : gives g a v → v ≠ Goes → gives g (a &> b) v.
Proof. destruct v; [intros ? _; by apply gives_stopped|done]. Qed.
Lemma gives_eq g k v w : gives g k v → v = w → gives g k w.
Proof. by intros Hk <-. Qed.
Lemma existsb_find_None {A} (f : A → bool) l : List.find f l = None → existsb f l = false.
Proof.
  intros Hf. apply not_true_iff_false. intros (x & Hx & Hfx)%existsb_exists.
  rewrite (List.find_none _ _ Hf _ Hx) in Hfx. discriminate.
Qed.

Create HintDb checks.
#[export] Hint Resolve gives_noting gives_go_on gives_award gives_load : checks.
(** The verdict of a composed check, one combinator at a time. *)
Ltac verdict_step :=
  match goal with
  | |- gives _ (stop _ _ _) _ => apply gives_stop; done
  | |- gives _ ((λ d, inr (award _ d)) &> _) _ => apply gives_award
  | |- gives _ (_ &> _) _ => eapply gives_and_then
  | |- gives _ (when _ _) _ => eapply gives_when
  | |- gives _ (let _ := _ in _) _ => cbv zeta
  | |- gives _ _ _ => solve [eauto with checks]
  end.
Ltac verdict := repeat verdict_step.

(** The same for a verdict that is known up to computation. *)
Ltac verdict_eq := solve [eapply gives_eq; [verdict|reflexivity]].

(** ** The decision table

    The outcome of every evaluation, without its explanation. *)

Definition lifecycle_verdict (l : MemberLifecycleState.t) : Verdict :=
  match l with
  | MemberLifecycleState.Absent => Stops Outcome.Unknown
  | MemberLifecycleState.Proposed | MemberLifecycleState.Admitted_ => Stops Outcome.Incomplete
  | MemberLifecycleState.Retired => Stops Outcome.Refused
  | MemberLifecycleState.Leaving | MemberLifecycleState.Fenced => Stops Outcome.Fenced
  | MemberLifecycleState.Active | MemberLifecycleState.Degraded => Goes
  end.
Definition identity_verdict (i : IdentityMismatch.t) : Verdict :=
  match i with
  | IdentityMismatch.None => Goes
  | IdentityMismatch.Member | IdentityMismatch.Domain => Stops Outcome.Refused
  | _ => Stops Outcome.Fenced
  end.

Section table.
Context (r : AuthorityRequest) (s : FederationState) (policy : FederationPolicy)
        (catalog : ScopeCatalog).
Notation g := (requested r).
Implicit Types m : MemberState.

Definition contested m : bool := existsb (concerns r) (ms_conflicts m).
Definition not_held_verdict m : Verdict :=
  if grants_cover (ms_withdrawn_grants m) g then Stops Outcome.Refused
  else if scope_delegation_forbidden policy (scope g) then Stops Outcome.Refused
  else if bool_decide (g ∈ withheld_global_mutation m) then Stops Outcome.Fenced
  else if bool_decide (g ∈ withheld_grants m) then Stops Outcome.Degraded
  else Stops Outcome.Refused.
Definition delegation_verdict m : Verdict :=
  if contested m then Stops Outcome.Conflicting
  else if grants_cover (federation_authority m) g then Goes else not_held_verdict m.
(** The lease of the request as the coordinator knows it. *)
Definition presented_lease : option LeaseView :=
  List.find (λ v, bool_decide (lv_id v = rq_lease r)) (s_leases s).
Definition lease_bound (v : LeaseView) : bool :=
  bool_decide (lv_holder v = idn_member (actor r)) &&
  bool_decide (lv_holder_incarnation v = idn_incarnation (actor r)) &&
  bool_decide (lv_holder_generation v = idn_generation (actor r)).
Definition view_verdict (v : LeaseView) : Verdict :=
  if negb (lease_bound v) then Stops Outcome.Fenced
  else match lv_state v with
       | LeaseState.Valid => if grants_cover (lv_scopes v) g then Goes else Stops Outcome.Refused
       | LeaseState.Revoked => Stops Outcome.Fenced
       | LeaseState.ScopeNotCovered => Stops Outcome.Refused
       | _ => Stops Outcome.Stale
       end.
Definition lease_verdict : Verdict :=
  if negb (lease_required policy g) then Goes
  else if is_nil (rq_lease r) then Stops Outcome.Refused
  else match presented_lease with
       | None => Stops Outcome.Refused
       | Some v => view_verdict v
       end.
Definition globally_suspended : bool :=
  (s_reconciling s && suspend_global_mutation_while_reconciling policy) ||
  ((bool_decide (p_state (s_partition s) = PartitionState.Split) ||
    bool_decide (p_state (s_partition s) = PartitionState.Indeterminate)) &&
   suspend_global_mutation_on_partition policy).
Definition partition_verdict : Verdict :=
  if bool_decide (scope_class r catalog = ScopeClass.GlobalMutation) && globally_suspended
  then Stops Outcome.Fenced else Goes.
Definition degraded_verdict m : Verdict :=
  if bool_decide (ms_lifecycle m = MemberLifecycleState.Degraded) &&
     (bool_decide (verb g = AuthorityVerb.Mutate) || bool_decide (verb g = AuthorityVerb.Administer))
  then Stops Outcome.Degraded else Goes.
Definition member_verdict m : Verdict :=
  then_verdict (lifecycle_verdict (ms_lifecycle m))
  (then_verdict (identity_verdict (compare_identities (ms_current_identity m) (actor r)))
  (then_verdict (delegation_verdict m)
  (then_verdict lease_verdict
  (then_verdict partition_verdict
  (then_verdict (degraded_verdict m) (Stops Outcome.Granted)))))).
Definition decision_table : Outcome.t :=
  if negb (bool_decide (rq_federation r = federation s)) then Outcome.Refused
  else if has_replay s (rq_id r) then Outcome.Replayed
  else match cmp (epoch_seen r) (epoch s) with
  | Gt => Outcome.Refused
  | Lt => Outcome.Stale
  | Eq =>
      if negb (scope_known r catalog) then Outcome.Unsupported
      else if bool_decide (scope_class r catalog = ScopeClass.Local) then Outcome.Granted
      else match find_member s (idn_member (actor r)) with
           | None => Outcome.Unknown
           | Some m => match member_verdict m with Stops o => o | Goes => Outcome.Granted end
           end
  end.

(** *** Every check gives its verdict *)

Lemma gives_lifecycle m : gives g (check_lifecycle m) (lifecycle_verdict (ms_lifecycle m)).
Proof.
  unfold check_lifecycle. destruct (ms_lifecycle m); cbn [lifecycle_verdict]; verdict_eq.
Qed.
Lemma gives_identity m :
  lifecycle_verdict (ms_lifecycle m) = Goes →
  gives g (check_identity r m)
    (identity_verdict (compare_identities (ms_current_identity m) (actor r))).
Proof.
  intros Hl. assert (lifecycle_holds_federation_authority (ms_lifecycle m) = true) as Hh
    by by destruct (ms_lifecycle m).
  unfold check_identity. rewrite Hh. cbv zeta.
  destruct (compare_identities _ _); cbn [identity_verdict]; verdict_eq.
Qed.
Lemma gives_not_held m : gives g (not_held r s policy m) (not_held_verdict m).
Proof. unfold not_held, not_held_verdict. repeat case_match; verdict_eq. Qed.
Lemma gives_delegation m : gives g (check_delegation r s policy m) (delegation_verdict m).
Proof.
  unfold check_delegation, check_conflicts, delegation_verdict, contested.
  destruct (List.find _ _) as [c|] eqn:Hf.
  - apply find_some in Hf. rewrite (proj2 (existsb_exists _ _)) by by exists c.
    apply gives_stopped. verdict_eq.
  - rewrite existsb_find_None by done. eapply gives_eq; [apply gives_and_then; [apply gives_go_on|]|reflexivity].
    destruct (grants_cover (federation_authority m) g); cbn [negb]; [verdict_eq|].
    apply gives_stopped'; [apply gives_not_held|]. unfold not_held_verdict. by repeat case_match.
Qed.
Lemma gives_lease_view v : gives g (check_lease_view r v) (view_verdict v).
Proof.
  unfold check_lease_view, view_verdict, lease_bound. cbv zeta.
  repeat case_bool_decide; cbn [negb orb andb when]; try (apply gives_stopped; verdict_eq).
  all: destruct (lv_state v); try done;
    try (apply gives_stopped; verdict_eq); destruct (grants_cover _ _); verdict_eq.
Qed.
Lemma gives_lease : gives g (check_lease r s policy) lease_verdict.
Proof.
  unfold check_lease, lease_verdict. destruct (lease_required _ _); [|apply gives_go_on].
  cbn [negb when]. eapply gives_eq; [apply gives_and_then; [verdict|apply gives_and_then_if]|].
  - verdict.
  - intros Hnil. instantiate (1 := match presented_lease with
      | None => Stops Outcome.Refused | Some v => view_verdict v end).
    unfold presented_lease. destruct (List.find _ _); [apply gives_lease_view|verdict_eq].
  - by destruct (is_nil _).
Qed.
Lemma gives_partition : gives g (check_partition r s policy catalog) partition_verdict.
Proof.
  unfold check_partition, partition_verdict, globally_suspended. cbv zeta.
  case_bool_decide; [|apply gives_go_on]. cbn [when andb].
  destruct (s_reconciling s && _); [verdict_eq|]. cbn [when orb].
  destruct (p_state _), (suspend_global_mutation_on_partition policy); cbn; verdict_eq.
Qed.
Lemma gives_degraded m : gives g (check_degraded r m) (degraded_verdict m).
Proof. unfold check_degraded, degraded_verdict. destruct (_ && _); verdict_eq. Qed.
Lemma gives_grant m : gives g (grant_request r s m) (Stops Outcome.Granted).
Proof. apply gives_award. Qed.
Lemma member_verdict_stops m : ∃ o, member_verdict m = Stops o.
Proof.
  unfold member_verdict. destruct (lifecycle_verdict _); [eauto|]. cbn [then_verdict].
  destruct (identity_verdict _); [eauto|]. cbn [then_verdict]. destruct (delegation_verdict _); [eauto|].
  cbn [then_verdict]. destruct lease_verdict; [eauto|]. cbn [then_verdict].
  destruct partition_verdict; [eauto|]. cbn [then_verdict]. destruct (degraded_verdict _); eauto.
Qed.
Lemma gives_member m : gives g (member_checks r s policy catalog m) (member_verdict m).
Proof.
  unfold member_checks, member_verdict. eapply gives_eq; [apply gives_and_then; [apply gives_load|]|reflexivity].
  apply gives_and_then_if; [apply gives_lifecycle|intros Hl].
  apply gives_and_then; [by apply gives_identity|].
  repeat apply gives_and_then;
    auto using gives_delegation, gives_lease, gives_partition, gives_degraded, gives_grant.
Qed.
Lemma cmp_counter_ltb {t} (a b : BasicCounter t) :
  ltb a b = match cmp a b with Lt => true | _ => false end ∧
  ltb b a = match cmp a b with Gt => true | _ => false end.
Proof. split; [done|]. unfold ltb. rewrite (cmp_opp a b). by destruct (cmp a b). Qed.
Lemma gives_all : gives g (all_checks r s policy catalog) (Stops decision_table).
Proof.
  unfold all_checks, decision_table.
  destruct (bool_decide (rq_federation r = federation s)) eqn:Ef;
    unfold check_federation at 1; rewrite Ef; [|apply gives_stopped; verdict_eq].
  eapply gives_eq; [apply gives_and_then; [apply gives_go_on|]|reflexivity].
  unfold check_replay at 1. destruct (has_replay s (rq_id r)); [apply gives_stopped, gives_stopped; verdict_eq|].
  eapply gives_eq; [apply gives_and_then; [apply gives_and_then; [apply gives_go_on|verdict]|]|reflexivity].
  unfold check_epoch at 1. destruct (cmp_counter_ltb (epoch_seen r) (epoch s)) as [-> ->].
  destruct (cmp (epoch_seen r) (epoch s)) eqn:Ee.
  2: { apply gives_stopped. eapply gives_eq; [apply gives_and_then; [apply gives_go_on|]|reflexivity].
       apply gives_stopped. verdict_eq. }
  2: { apply gives_stopped, gives_stopped. verdict_eq. }
  eapply gives_eq; [apply gives_and_then;
    [apply gives_and_then; [apply gives_go_on|apply gives_and_then; [apply gives_go_on|verdict]]|]|reflexivity].
  unfold check_local at 1. destruct (scope_known r catalog); cbn [andb negb].
  - destruct (bool_decide (scope_class r catalog = ScopeClass.Local)).
    + apply gives_stopped, gives_stopped.
      eapply gives_eq; [apply gives_and_then; [verdict|apply (gives_and_then _ _ _ Goes); [|apply gives_award]]|reflexivity].
      intros d Hd. by split.
    + eapply gives_eq; [apply gives_and_then; [apply gives_and_then; apply gives_go_on|]|reflexivity].
      destruct (find_member _ _) as [m|]; [|unfold unknown_member; verdict_eq].
      destruct (member_verdict_stops m) as [o Ho]. rewrite Ho, <-Ho. apply gives_member.
  - apply gives_stopped. eapply gives_eq; [apply gives_and_then; [apply gives_go_on|]|reflexivity]. verdict_eq.
Qed.

Lemma evaluation_shape :
  let d := evaluate_authority r s policy catalog in
  same_question (initial_decision r s) d ∧ ad_outcome d = decision_table ∧
  outcome (explanation d) = decision_table ∧
  effective_grants (explanation d) = awarded g decision_table.
Proof.
  unfold evaluate_authority. pose proof (gives_all (initial_decision r s) eq_refl) as H.
  by destruct (all_checks _ _ _ _ _).
Qed.

(** *** When the table grants *)

Record leased : Prop := {
  ls_named : is_nil (rq_lease r) = false;
  ls_view : ∃ v, presented_lease = Some v ∧ lease_bound v = true ∧ lv_state v = LeaseState.Valid ∧
    grants_cover (lv_scopes v) g = true
}.
Record entitled m : Prop := {
  en_lifecycle : ms_lifecycle m = MemberLifecycleState.Active ∨
                 ms_lifecycle m = MemberLifecycleState.Degraded;
  en_identity : compare_identities (ms_current_identity m) (actor r) = IdentityMismatch.None;
  en_uncontested : ∀ c, c ∈ ms_conflicts m → grants_cover [conflict_grant c] g = false;
  en_authority : grants_cover (federation_authority m) g = true;
  en_lease : lease_required policy g = true → leased;
  en_global : scope_class r catalog = ScopeClass.GlobalMutation → globally_suspended = false;
  en_degraded : ms_lifecycle m = MemberLifecycleState.Degraded →
    verb g ≠ AuthorityVerb.Mutate ∧ verb g ≠ AuthorityVerb.Administer
}.

(** A check that goes on exactly under [P] and never grants by itself. *)
Definition guards (v : Verdict) (P : Prop) : Prop :=
  match v with Goes => P | Stops o => ¬ P ∧ o ≠ Outcome.Granted end.
Lemma then_verdict_granted v w P :
  guards v P → then_verdict v w = Stops Outcome.Granted ↔ P ∧ w = Stops Outcome.Granted.
Proof. destruct v; cbn; naive_solver. Qed.

Lemma guards_lifecycle l :
  guards (lifecycle_verdict l) (l = MemberLifecycleState.Active ∨ l = MemberLifecycleState.Degraded).
Proof. destruct l; cbn; naive_solver. Qed.
Lemma guards_identity i : guards (identity_verdict i) (i = IdentityMismatch.None).
Proof. by destruct i. Qed.
Lemma contested_false m :
  contested m = false ↔ ∀ c, c ∈ ms_conflicts m → grants_cover [conflict_grant c] g = false.
Proof.
  unfold contested. rewrite <-not_true_iff_false, existsb_exists. split.
  - intros Hn c Hc. apply not_true_iff_false. intros Hg. apply Hn. exists c. split; [by apply list_elem_of_In|done].
  - intros Ha (c & Hc%list_elem_of_In & Hg). unfold concerns in Hg. rewrite (Ha c Hc) in Hg. discriminate.
Qed.
Lemma guards_delegation m :
  guards (delegation_verdict m)
    ((∀ c, c ∈ ms_conflicts m → grants_cover [conflict_grant c] g = false) ∧
     grants_cover (federation_authority m) g = true).
Proof.
  assert (guards (delegation_verdict m) (contested m = false ∧ grants_cover (federation_authority m) g = true))
    as H; [|revert H; pose proof (contested_false m); unfold guards; destruct (delegation_verdict m); naive_solver].
  unfold delegation_verdict. destruct (contested m); [cbn; naive_solver|].
  destruct (grants_cover (federation_authority m) g); [done|].
  unfold not_held_verdict. repeat case_match; cbn; naive_solver.
Qed.
Lemma guards_lease : guards lease_verdict (lease_required policy g = true → leased).
Proof.
  unfold lease_verdict. destruct (lease_required policy g); cbn [negb]; [|done].
  destruct (is_nil _) eqn:En; [cbn; split; [intros H; destruct (H eq_refl); congruence|done]|].
  assert (∀ o, (presented_lease = None ∨ ∃ v, presented_lease = Some v ∧
    (lease_bound v = false ∨ lv_state v ≠ LeaseState.Valid ∨ grants_cover (lv_scopes v) g = false)) →
    o ≠ Outcome.Granted → guards (Stops o) (true = true → leased)) as Hno.
  { intros o Hbad Ho. split; [|exact Ho]. intros H. destruct (H eq_refl) as [_ (v & Hv & Hb & Hs & Hg)].
    destruct Hbad as [Hb'|(v' & Hv' & Hb')]; [congruence|].
    assert (v = v') by congruence. subst v'. destruct Hb' as [|[|]]; congruence. }
  destruct presented_lease as [v|] eqn:Ep; [|by apply Hno; [left|]].
  unfold view_verdict. destruct (lease_bound v) eqn:Eb; cbn [negb]; [|apply Hno; [right; eauto|done]].
  destruct (lv_state v) eqn:Es; try (apply Hno; [right; exists v; split; [done|]; right; left; congruence|done]).
  destruct (grants_cover (lv_scopes v) g) eqn:Eg; [|apply Hno; [right; eauto 8|done]].
  intros _. split; [done|]. exists v. by split_and!.
Qed.
Lemma guards_if (b c : bool) o P :
  o ≠ Outcome.Granted → (b && c = false ↔ P) → guards (if b && c then Stops o else Goes) P.
Proof. destruct (b && c); cbn; naive_solver. Qed.
Lemma guards_partition :
  guards partition_verdict
    (scope_class r catalog = ScopeClass.GlobalMutation → globally_suspended = false).
Proof. apply guards_if; [done|]. case_bool_decide; destruct globally_suspended; naive_solver. Qed.
Lemma guards_degraded m :
  guards (degraded_verdict m)
    (ms_lifecycle m = MemberLifecycleState.Degraded →
     verb g ≠ AuthorityVerb.Mutate ∧ verb g ≠ AuthorityVerb.Administer).
Proof. apply guards_if; [done|]. repeat case_bool_decide; naive_solver. Qed.

Lemma member_verdict_granted m : member_verdict m = Stops Outcome.Granted ↔ entitled m.
Proof.
  unfold member_verdict.
  rewrite (then_verdict_granted _ _ _ (guards_lifecycle _)), (then_verdict_granted _ _ _ (guards_identity _)),
    (then_verdict_granted _ _ _ (guards_delegation m)), (then_verdict_granted _ _ _ guards_lease),
    (then_verdict_granted _ _ _ guards_partition), (then_verdict_granted _ _ _ (guards_degraded m)).
  split; [intros (? & ? & [? ?] & ? & ? & ? & _); by constructor|intros []; by split_and!].
Qed.

(** What every granted request has in common. *)
Record admissible : Prop := {
  ad_serves : rq_federation r = federation s;
  ad_fresh : has_replay s (rq_id r) = false;
  ad_same_epoch : epoch_seen r = epoch s;
  ad_modelled : scope_known r catalog = true
}.
Lemma decision_table_granted :
  decision_table = Outcome.Granted ↔
  admissible ∧ (scope_class r catalog = ScopeClass.Local ∨
    scope_class r catalog ≠ ScopeClass.Local ∧
    ∃ m, find_member s (idn_member (actor r)) = Some m ∧ entitled m).
Proof.
  unfold decision_table. case_bool_decide as Hf; cbn [negb]; [|split; [done|by intros [[] _]]].
  destruct (has_replay _ _) eqn:Hr; [split; [done|intros [[] _]; congruence]|].
  destruct (cmp (epoch_seen r) (epoch s)) eqn:He.
  - apply cmp_eq in He. destruct (scope_known r catalog) eqn:Hk; cbn [negb];
      [|split; [done|intros [[] _]; congruence]].
    case_bool_decide as Hl; [split; [split; [by split|by left]|done]|].
    destruct (find_member _ _) as [m|]; [|split; [done|naive_solver]].
    destruct (member_verdict_stops m) as [o Ho]. pose proof (member_verdict_granted m) as Hm.
    rewrite Ho in Hm |- *. split.
    + intros ->. split; [by split|]. right. split; [done|]. exists m. split; [done|]. by apply Hm.
    + intros [_ [|(_ & m' & [= <-] & Hen)]]; [done|]. apply Hm in Hen. congruence.
  - split; [done|]. intros [[_ _ H _] _]. rewrite H, cmp_refl in He. done.
  - split; [done|]. intros [[_ _ H _] _]. rewrite H, cmp_refl in He. done.
Qed.
End table.

(** ** What a decision promises *)

(** C1: a request is granted if and only if it is addressed to this federation,
    has not been decided before, was made at the current epoch and names a scope
    the catalogue knows, and the scope is either local to the member or the
    member exists and is entitled to it: it is active or degraded, its identity
    is the current one, no conflict concerns the grant, its authority covers it,
    a required lease is named, bound to it, valid and wide enough, global mutation
    is not suspended, and a degraded member asks for no mutation. *)
Theorem request_granted_iff r s policy catalog :
  ad_outcome (evaluate_authority r s policy catalog) = Outcome.Granted ↔
  admissible r s catalog ∧ (scope_class r catalog = ScopeClass.Local ∨
    scope_class r catalog ≠ ScopeClass.Local ∧
    ∃ m, find_member s (idn_member (actor r)) = Some m ∧ entitled r s policy catalog m).
Proof.
  destruct (evaluation_shape r s policy catalog) as (_ & -> & _). apply decision_table_granted.
Qed.

(** Every evaluation ends with the outcome of the decision table, whose rows
    are the numbered checks in their order; the decision repeats the question it
    answers, its explanation carries the same outcome, and the grants the
    explanation calls effective are the requested one when it was granted and
    none otherwise. *)
Theorem evaluation_follows_table r s policy catalog :
  let d := evaluate_authority r s policy catalog in
  ad_outcome d = decision_table r s policy catalog ∧ outcome (explanation d) = ad_outcome d ∧
  (ad_request d, ad_federation d, ad_epoch_seen d, epoch_current d, ad_requested d, actor_declared d,
   ad_decided_at d) =
  (rq_id r, rq_federation r, epoch_seen r, epoch s, requested r, actor r, s_logical_time s) ∧
  effective_grants (explanation d) =
    (if bool_decide (ad_outcome d = Outcome.Granted) then [requested r] else []).
Proof.
  pose proof (evaluation_shape r s policy catalog) as H. cbv zeta in H |- *.
  generalize dependent (evaluate_authority r s policy catalog). intros d ([] & Ho & Hx & He).
  rewrite Ho. split_and!; [done..| |exact He]. cbn in *. congruence.
Qed.

(** ** Decisions over a derived state *)

Lemma find_member_Some s m ms : find_member s m = Some ms → ms ∈ members s ∧ ms_member ms = m.
Proof.
  intros [Hin Hm]%find_some. apply bool_decide_eq_true in Hm. by rewrite list_elem_of_In.
Qed.
(** A pattern is no scope of the catalogue, so the authority of a member of a
    derived state covers exactly the grants it holds. *)
Lemma derived_cover_is_held i res s established final ms g :
  derived i res s established final → ms ∈ members (state res) →
  grants_cover (federation_authority ms) g = true →
  g ∈ federation_authority ms ∧
  ∃ t, t ∈ ms_delegated_terms ms ∧ grant t = g ∧
    grantable s (p_state (s_partition (state res))) (s_reconciling (state res))
      (claims_of (members (state res))) ms t.
Proof.
  intros Hd Hms Hc. apply existsb_exists in Hc as (h & Hh & Hcov). apply list_elem_of_In in Hh.
  apply andb_true_iff in Hcov as [Hv Hcov]. apply bool_decide_eq_true in Hv.
  destruct (elem_of_members _ _ _ _ _ _ Hd Hms) as (m0 & _ & Hsame & Ha & _).
  pose proof Hh as Hh'. rewrite Ha in Hh'.
  apply elem_of_federation_authority in Hh' as (t & Ht & <- & Hg).
  assert (is_wildcard (scope (grant t)) = false) as Hw.
  { destruct (gr_class _ _ _ _ _ _ Hg) as [Hk _]. unfold classify in Hk. by destruct (is_wildcard _). }
  assert (grant t = g) as <- by (destruct (grant t), g; cbn in *; f_equal; [by apply covers_concrete|done]).
  split; [done|]. exists t. rewrite (same_terms _ _ Hsame), (de_claims _ _ _ _ _ Hd).
  split_and!; [done..|]. by apply (grantable_same _ _ _ _ _ _ _ Hsame).
Qed.

Section derived.
Context (i : DerivationInputs) (res : DerivationResult) (s : Setting) (policy : FederationPolicy).
Context (Hres : derive_state i = Ok res) (Hset : derivation_setting i = Some s).

Lemma granted_entitled q :
  ad_outcome (evaluate_authority q (state res) policy (st_catalog s)) = Outcome.Granted →
  scope_class q (st_catalog s) ≠ ScopeClass.Local →
  ∃ ms, ms ∈ members (state res) ∧ ms_member ms = idn_member (actor q) ∧
    entitled q (state res) policy (st_catalog s) ms.
Proof.
  destruct (evaluation_shape q (state res) policy (st_catalog s)) as (_ & -> & _).
  intros [_ [?|(_ & ms & [Hin Hid]%find_member_Some & Hen)]]%decision_table_granted Hl; [done|].
  by exists ms.
Qed.

(** C2: nothing is granted over a derived state that is not delegated: behind every
    granted request for more than local authority stands a member with the
    requester's current identity, whose standing is rooted in the genesis
    record, and that itself delegated exactly the requested grant, by a term
    under which the derivation grants it. *)
Theorem granted_request_is_backed q
    (Hgranted : ad_outcome (evaluate_authority q (state res) policy (st_catalog s)) = Outcome.Granted)
    (Hshared : scope_class q (st_catalog s) ≠ ScopeClass.Local) :
  ∃ ms t, ms ∈ members (state res) ∧
    compare_identities (ms_current_identity ms) (actor q) = IdentityMismatch.None ∧
    rooted s (idn_member (actor q)) ∧
    t ∈ ms_delegated_terms ms ∧ grant t = requested q ∧
    grantable s (p_state (s_partition (state res))) (s_reconciling (state res))
      (claims_of (members (state res))) ms t.
Proof.
  destruct (granted_entitled q Hgranted Hshared) as (ms & Hin & Hid & Hen).
  destruct (derive_state_derived i res Hres) as (s' & E & final & Hd).
  assert (s' = s) as -> by (pose proof (de_setting _ _ _ _ _ Hd); congruence).
  destruct (derived_cover_is_held _ _ _ _ _ _ _ Hd Hin (en_authority _ _ _ _ _ Hen))
    as (_ & t & Ht & Hgt & Hg).
  exists ms, t. split_and!; [done|by destruct Hen| |done..].
  rewrite <-Hid. apply (derived_member_rooted _ _ _ _ _ _ Hd Hin).
  by destruct (en_lifecycle _ _ _ _ _ Hen) as [->| ->].
Qed.

End derived.

(** ** A member with many reasons cannot be decided about

    The reasons of the member are pushed without the bound every other reason is
    added under, so the explanation of a decision can outgrow what its encoder
    accepts. *)

Definition decided (d : AuthorityDecision + AuthorityDecision) : AuthorityDecision :=
  match d with inl d | inr d => d end.
Definition adds (k : Check) : Prop := ∀ d,
  reasons (explanation d) ⊆ reasons (explanation (decided (k d))).

Lemma adds_noting c t : adds (noting c t).
Proof.
  intros d. cbn. unfold add_note, with_explanation, explanation_add, add_reason.
  case_match; simplify_eq; cbn; repeat case_match; simplify_eq; set_solver.
Qed.
Lemma adds_stop o ev t : adds (stop o ev t).
Proof. intros d x Hx. cbn. by apply elem_of_sort_unique. Qed.
Lemma adds_and_then a b : adds a → adds b → adds (a &> b).
Proof.
  intros Ha Hb d. specialize (Ha d). unfold and_then. destruct (a d) as [d1|d1]; cbn in *; [done|].
  etransitivity; [exact Ha|apply Hb].
Qed.
Lemma adds_when b k : adds k → adds (when b k).
Proof. destruct b; [done|]. by intros _ d. Qed.
Lemma adds_go_on : adds go_on.
Proof. by intros d. Qed.
Lemma adds_award g : adds (λ d, inr (award g d)).
Proof. by intros d. Qed.
#[export] Hint Resolve adds_noting adds_stop adds_and_then adds_when adds_go_on adds_award : checks.
Ltac adds_step :=
  first [ progress auto with checks
        | apply adds_and_then | apply adds_when
        | match goal with
          | |- adds (match ?x with _ => _ end) => destruct x
          | |- adds (let _ := _ in _) => cbv zeta
          end ].

Section crowded.
Context (r : AuthorityRequest) (s : FederationState) (policy : FederationPolicy)
        (catalog : ScopeCatalog) (m : MemberState).

Lemma adds_member_checks :
  adds (check_lifecycle m &> check_identity r m &> check_delegation r s policy m &>
        check_lease r s policy &> check_partition r s policy catalog &> check_degraded r m &>
        grant_request r s m).
Proof.
  unfold check_lifecycle, check_identity, check_delegation, check_conflicts, not_held, check_lease,
    check_lease_view, check_partition, check_degraded, grant_request.
  repeat adds_step.
Qed.

Definition request_fresh : Reason :=
  mkReason ReasonCode.RequestFresh "request identifier has not been decided before".
Definition epoch_matches : Reason :=
  mkReason ReasonCode.EpochMatches ("epoch " +s+ to_dec (value (epoch s)) +s+ " matches").

Lemma admissible_reaches_member :
  admissible r s catalog → scope_class r catalog ≠ ScopeClass.Local →
  find_member s (idn_member (actor r)) = Some m →
  ∃ d, reasons (explanation d) = [request_fresh; epoch_matches] ∧
    evaluate_authority r s policy catalog = decided (member_checks r s policy catalog m d).
Proof.
  intros [Hf Hr He Hk] Hl Hm. unfold evaluate_authority, all_checks. rewrite Hm.
  unfold check_federation, check_replay, check_epoch, check_local.
  rewrite bool_decide_eq_true_2, Hr, Hk, (bool_decide_eq_false_2 _ Hl) by done.
  assert (∀ e : Epoch, ltb e e = false) as Hlt by (intros e; unfold ltb; by rewrite cmp_refl).
  rewrite He, Hlt.
  exists (add_note ReasonCode.EpochMatches ("epoch " +s+ to_dec (value (epoch s)) +s+ " matches")
           (add_note ReasonCode.RequestFresh "request identifier has not been decided before"
             (initial_decision r s))).
  split; [reflexivity|]. cbn [and_then when negb andb go_on noting]. by destruct (member_checks _ _ _ _ _ _).
Qed.

Lemma evaluation_keeps_reasons :
  admissible r s catalog → scope_class r catalog ≠ ScopeClass.Local →
  find_member s (idn_member (actor r)) = Some m →
  request_fresh :: epoch_matches :: ms_reasons m ⊆
    reasons (explanation (evaluate_authority r s policy catalog)).
Proof.
  intros Ha Hl Hm. destruct (admissible_reaches_member Ha Hl Hm) as (d & Hd & ->).
  unfold member_checks. etransitivity; [|apply adds_member_checks].
  cbn. by rewrite Hd.
Qed.
End crowded.

(** A decision that cannot be written down: the reasons recorded for a member
    all become reasons of every decision about it, so when there are more than
    an explanation may hold, two added on the way included, an admissible
    request of that member has a decision that no encoder accepts and whose
    digest is the zero digest. *)
Theorem crowded_member_has_no_record r s policy catalog m
    (Hadm : admissible r s catalog) (Hshared : scope_class r catalog ≠ ScopeClass.Local)
    (Hm : find_member s (idn_member (actor r)) = Some m)
    (Hmany : kMaxReasonsPerDecision <
               size (sort_unique (request_fresh :: epoch_matches s :: ms_reasons m))) :
  let d := evaluate_authority r s policy catalog in
  (∃ why, encode d = Err why) ∧ decision_digest d = Digest_zero.
Proof.
  intros d. assert (∃ why, encode d = Err why) as He.
  { pose proof (size_sort_unique_mono _ _ (evaluation_keeps_reasons r s policy catalog m Hadm Hshared Hm))
      as Hsize. fold d in Hsize.
    destruct (encode d) as [bs|why] eqn:Hbs; [exfalso|by exists why].
    cbn [encode AuthorityDecision_codec] in Hbs. split_enc.
    match goal with H : encode (explanation d) = Ok _ |- _ => rename H into Hx end.
    cbn [encode Explanation_codec] in Hx. cbv zeta in Hx. split_enc.
    match goal with H : enc_list kMaxReasonsPerDecision _ _ = Ok _ |- _ =>
      apply enc_app_Ok in H as (? & ? & Hc & _ & _) end.
    unfold Writer.count in Hc. split_enc.
    change (reasons (explanation_canonicalize (explanation d)))
      with (sort_unique (reasons (explanation d))) in *. lia. }
  split; [done|]. unfold decision_digest, digest_of. by destruct He as [why ->].
Qed.

(** ** Local authority *)

(** The federation neither grants nor removes local authority: what a member
    with a valid constitution holds by its own evaluation is granted to every
    fresh request of the current epoch too, whatever the lifecycle, fences,
    conflicts, leases, policy and partition of the federation say, and what it
    does not retain is refused by its own evaluation. *)
Theorem local_authority_is_untouchable (c : MemberConstitution) (r : AuthorityRequest)
    (s : FederationState) (policy : FederationPolicy) (now : Tick)
    (Hc : validate_constitution c builtin = Ok tt) (Hf : rq_federation r = federation s)
    (Hfresh : has_replay s (rq_id r) = false) (Hepoch : epoch_seen r = epoch s) :
  let d := evaluate_local_authority c (requested r) now in
  (grants_cover (retained c) (requested r) = true →
     ad_outcome d = Outcome.Granted ∧ effective_authority d = [requested r] ∧
     ad_outcome (evaluate_authority r s policy builtin) = Outcome.Granted) ∧
  (grants_cover (retained c) (requested r) = false →
     ad_outcome d = Outcome.Refused ∧ effective_authority d = []).
Proof.
  split; intros Hr; unfold evaluate_local_authority; rewrite Hr; cbn [ad_outcome effective_authority];
    split_and!; [done..| |done|done].
  destruct (evaluation_shape r s policy builtin) as (_ & -> & _). apply decision_table_granted.
  apply existsb_exists in Hr as (h & Hh & Hcov). apply list_elem_of_In in Hh.
  apply andb_true_iff in Hcov as [_ Hcov].
  destruct (validate_constitution_Ok _ _ Hc) as [_ Hret]. specialize (Hret h Hh).
  unfold validate_retained in Hret. destruct (classify builtin (scope h)) as [cl known] eqn:Ecl.
  apply bind_Ok in Hret as ([] & Hk & Hret). apply bind_Ok in Hret as ([] & Hl & _).
  apply fail_if_Ok in Hk, Hl. rewrite negb_false_iff in Hk, Hl. apply bool_decide_eq_true in Hl as ->.
  rewrite Hk in Ecl. clear Hk.
  assert (is_wildcard (scope h) = false) as Hw
    by by revert Ecl; unfold classify; destruct (is_wildcard (scope h)).
  apply (covers_concrete _ _ Hw) in Hcov.
  split; [split; try done; unfold scope_known; by rewrite <-Hcov, Ecl|].
  left. unfold scope_class. by rewrite <-Hcov, Ecl.
Qed.

(** ** Examples *)

Definition example_request (i : DerivationInputs) (b : byte) (g : ScopeGrant) : AuthorityRequest :=
  let st := state (result_of i) in
  mkRequest (mkId (replicate 16 b)) (federation st) (epoch st)
    (from_option ms_current_identity no_identity (find_member st (example_member b))) g nil_id zero
    (mkName "").
Lemma example_requested i b g : requested (example_request i b g) = g.
Proof. reflexivity. Qed.
Definition example_outcome (b : byte) : Outcome.t :=
  decision_table (example_request agreeing b (grant shared_term)) (state (result_of agreeing))
    default_policy builtin.
Lemma example_outcomes :
  (example_outcome x01, example_outcome x02,
   idn_member (actor (example_request agreeing x01 (grant shared_term))),
   idn_member (actor (example_request agreeing x02 (grant shared_term)))) =
  (Outcome.Granted, Outcome.Granted, example_member x01, example_member x02).
Proof.
  vm_cast_no_check (eq_refl (Outcome.Granted, Outcome.Granted, example_member x01, example_member x02)).
Qed.
Lemma pair4_eq {A B} (a b : A) (c d : B) (a' b' : A) (c' d' : B) :
  (a, b, c, d) = (a', b', c', d') → a = a' ∧ b = b' ∧ c = c' ∧ d = d'.
Proof. by intros [= -> -> -> ->]. Qed.
Lemma example_evaluated b :
  example_outcome b = Outcome.Granted →
  ad_outcome (evaluate_authority (example_request agreeing b (grant shared_term))
    (state (result_of agreeing)) default_policy (st_catalog (setting_for agreeing))) = Outcome.Granted.
Proof.
  unfold example_outcome. change (st_catalog (setting_for agreeing)) with builtin. intros H.
  destruct (evaluation_shape (example_request agreeing b (grant shared_term))
    (state (result_of agreeing)) default_policy builtin) as (_ & Ho & _). exact (eq_trans Ho H).
Qed.
Lemma example_shared b :
  scope_class (example_request agreeing b (grant shared_term)) (st_catalog (setting_for agreeing))
    ≠ ScopeClass.Local.
Proof.
  change (st_catalog (setting_for agreeing)) with builtin.
  unfold scope_class. cbn [requested example_request]. vm_compute. discriminate.
Qed.

(** Each of the two members may observe what both delegate as shared. *)
Record granted_example (b : byte) (q : AuthorityRequest) : Prop := {
  ge_requested : requested q = grant shared_term;
  ge_actor : idn_member (actor q) = example_member b;
  ge_granted : ad_outcome (evaluate_authority q (state (result_of agreeing)) default_policy
    (st_catalog (setting_for agreeing))) = Outcome.Granted;
  ge_shared : scope_class q (st_catalog (setting_for agreeing)) ≠ ScopeClass.Local
}.
Lemma granted_examples : (∃ p, granted_example x01 p) ∧ (∃ q, granted_example x02 q).
Proof.
  destruct (pair4_eq _ _ _ _ _ _ _ _ example_outcomes) as (H1 & H2 & H3 & H4). split.
  - exists (example_request agreeing x01 (grant shared_term)). constructor;
      [apply example_requested|exact H3|exact (example_evaluated x01 H1)|apply example_shared].
  - exists (example_request agreeing x02 (grant shared_term)). constructor;
      [apply example_requested|exact H4|exact (example_evaluated x02 H2)|apply example_shared].
Qed.

Lemma granted_request_is_backed_witness :
  ∃ ms t, ms ∈ members (state (result_of agreeing)) ∧ t ∈ ms_delegated_terms ms ∧
    grant t = grant shared_term.
Proof.
  destruct granted_examples as [(p & Hp) _].
  destruct (granted_request_is_backed agreeing (result_of agreeing) (setting_for agreeing)
    default_policy (proj1 agreeing_ok) (proj2 agreeing_ok) p (ge_granted _ _ Hp) (ge_shared _ _ Hp))
    as (ms & t & Hms & _ & _ & Ht & Hg & _).
  exists ms, t. rewrite Hg. split; [exact Hms|split; [exact Ht|exact (ge_requested _ _ Hp)]].
Defined.

(** A member about which as many reasons are recorded as an explanation may hold. *)
Definition crowded_member : MemberState :=
  mkMemberState (example_member x01) nil_id MemberLifecycleState.Active zero nil_id false
    PartitionState.Connected founding_party no_identity no_identity false false []
    ((λ n, mkReason ReasonCode.EvidenceUnknown (to_dec (N.of_nat n))) <$> seq 0 64)
    [] [] [] [] [] [] [] [] [] [] Digest_zero zero zero zero EvidenceState.Known false.
Definition crowded_state : FederationState :=
  mkState nil_id nil_id zero zero false (mkName "") zero Digest_zero zero Digest_zero "" 0 0 0
    [crowded_member] [] [] [] neutral [] [].
Definition crowded_request : AuthorityRequest :=
  mkRequest nil_id nil_id zero
    (mkIdentity nil_id (example_member x01) zero zero Digest_zero nil_id zero false)
    (grant shared_term) nil_id zero (mkName "").
Lemma crowded_member_has_no_record_witness :
  size (ms_reasons crowded_member) = kMaxReasonsPerDecision ∧
  decision_digest (evaluate_authority crowded_request crowded_state default_policy builtin) = Digest_zero.
Proof.
  split; [vm_compute; reflexivity|].
  assert (admissible crowded_request crowded_state builtin) as Ha
    by (constructor; vm_compute; reflexivity).
  assert (scope_class crowded_request builtin ≠ ScopeClass.Local) as Hs by (vm_compute; discriminate).
  assert (kMaxReasonsPerDecision <
    size (sort_unique (request_fresh :: epoch_matches crowded_state :: ms_reasons crowded_member))) as Hm
    by (vm_compute; reflexivity).
  destruct (crowded_member_has_no_record crowded_request crowded_state default_policy builtin
    crowded_member Ha Hs eq_refl Hm) as [_ H]. exact H.
Defined.

Lemma local_authority_is_untouchable_witness :
  let g := mkGrant (mkName "domain.storage") AuthorityVerb.Administer in
  let c := mkConstitution (mkId (replicate 16 x05)) (example_member x01) (mkCounter 1)
    1 0 0 [] [] [g] [] "" in
  let r := mkRequest nil_id nil_id zero no_identity g nil_id zero (mkName "") in
  validate_constitution c builtin = Ok tt ∧
  ad_outcome (evaluate_authority r empty_state default_policy builtin) = Outcome.Granted.
Proof.
  intros g c r. assert (validate_constitution c builtin = Ok tt) as Hc by (vm_compute; reflexivity).
  split; [exact Hc|].
  destruct (local_authority_is_untouchable c r empty_state default_policy zero Hc eq_refl eq_refl eq_refl)
    as [H _]. destruct (H eq_refl) as (_ & _ & Hg). exact Hg.
Defined.
