(* ===== verification/Coordinator.v ===== *)
(** * The coordinator

    Models the state and the operations of include/fabric_federation/coordinator.hpp
    and src/coordinator.cpp that change or read it: loading the journal, the
    genesis record, submission of artefacts, the decision records, requests,
    leases, observations, the clock and the lifecycle orders.  The sockets and
    the threads that call these operations are the components Server and Threads;
    every operation takes the one mutex, so it is one step. *)

From S2P Require Import Prelude Errors Sha256 Text Codec Ids Names Scope Capability Policy Identity.
From S2P Require Import Explanation Lease Partition Evidence Membership Journal State Authority.

(** ** Data *)

Module SubmissionDisposition.
Inductive t := Applied | Duplicate | Rejected | Invalid.
#[global] Instance t_eq_dec : EqDecision t.
Proof. solve_decision. Defined.
Definition to_string (x : t) : string :=
  match x with
  | Applied => "APPLIED"
  | Duplicate => "DUPLICATE"
  | Rejected => "REJECTED"
  | Invalid => "INVALID"
  end.
End SubmissionDisposition.

Record CoordinatorConfig := mkConfig {
  cfg_federation : FederationId;
  cfg_node : NodeId;
  cfg_description : string;
  cfg_policy : FederationPolicy;
  journal_path : string;
  listen_port : N;
  listen : bool;
  max_connections : N;
  worker_threads : N;
  max_pending_connections : N;
  initial_tick : Tick;
  bootstrap : bool;
  cfg_founder : MemberDeclaration;
  cfg_founder_grants : list ScopeGrant
}.
Record SubmissionOutcome := mkSubmission {
  disposition : SubmissionDisposition.t;
  so_reason : ReasonCode.t;
  so_detail : string;
  so_artifact_digest : Digest;
  so_state_digest : Digest;
  so_artifact_count : N;
  issued : list Artifact
}.
Record LeaseRequest := mkLeaseRequest {
  lr_holder : MemberId;
  lr_scopes : list ScopeGrant;
  lr_not_after_epoch : Epoch;
  lifetime_ticks : Tick
}.

(** What the mutex guards.  [os] is not a field of the code: it says what the
    operating system will do to the coming appends, nothing once it is empty. *)
Record Impl := mkImpl {
  config : CoordinatorConfig;
  catalog : ScopeCatalog;
  c_policy : FederationPolicy;
  artifacts : list Artifact;
  leases : smap LeaseId AuthorityLease;
  c_observations : smap MemberId MemberObservation;
  replay : list ReplayEntry;
  tick : Tick;
  c_incarnation : Incarnation;
  lease_sequence : N;
  duplicate_artifacts : N;
  rejected_artifacts : N;
  journal : Journal;
  durable : bool;
  recovery_detail : string;
  bootstrapped : bool;
  os : list (WriteFault * Fault)
}.

Definition with_artifacts (l : list Artifact) (c : Impl) : Impl :=
  mkImpl (config c) (catalog c) (c_policy c) l (leases c) (c_observations c) (replay c) (tick c)
    (c_incarnation c) (lease_sequence c) (duplicate_artifacts c) (rejected_artifacts c) (journal c)
    (durable c) (recovery_detail c) (bootstrapped c) (os c).
Definition with_leases (l : smap LeaseId AuthorityLease) (n : N) (c : Impl) : Impl :=
  mkImpl (config c) (catalog c) (c_policy c) (artifacts c) l (c_observations c) (replay c) (tick c)
    (c_incarnation c) n (duplicate_artifacts c) (rejected_artifacts c) (journal c)
    (durable c) (recovery_detail c) (bootstrapped c) (os c).
Definition with_observations (l : smap MemberId MemberObservation) (c : Impl) : Impl :=
  mkImpl (config c) (catalog c) (c_policy c) (artifacts c) (leases c) l (replay c) (tick c)
    (c_incarnation c) (lease_sequence c) (duplicate_artifacts c) (rejected_artifacts c) (journal c)
    (durable c) (recovery_detail c) (bootstrapped c) (os c).
Definition with_replay (l : list ReplayEntry) (c : Impl) : Impl :=
  mkImpl (config c) (catalog c) (c_policy c) (artifacts c) (leases c) (c_observations c) l (tick c)
    (c_incarnation c) (lease_sequence c) (duplicate_artifacts c) (rejected_artifacts c) (journal c)
    (durable c) (recovery_detail c) (bootstrapped c) (os c).
Definition with_tick (t : Tick) (c : Impl) : Impl :=
  mkImpl (config c) (catalog c) (c_policy c) (artifacts c) (leases c) (c_observations c) (replay c) t
    (c_incarnation c) (lease_sequence c) (duplicate_artifacts c) (rejected_artifacts c) (journal c)
    (durable c) (recovery_detail c) (bootstrapped c) (os c).
Definition with_counters (d r : N) (c : Impl) : Impl :=
  mkImpl (config c) (catalog c) (c_policy c) (artifacts c) (leases c) (c_observations c) (replay c)
    (tick c) (c_incarnation c) (lease_sequence c) d r (journal c) (durable c) (recovery_detail c)
    (bootstrapped c) (os c).
Definition with_journal (j : Journal) (f : list (WriteFault * Fault)) (c : Impl) : Impl :=
  mkImpl (config c) (catalog c) (c_policy c) (artifacts c) (leases c) (c_observations c) (replay c)
    (tick c) (c_incarnation c) (lease_sequence c) (duplicate_artifacts c) (rejected_artifacts c) j
    (durable c) (recovery_detail c) (bootstrapped c) f.
Definition with_bootstrapped (c : Impl) : Impl :=
  mkImpl (config c) (catalog c) (c_policy c) (artifacts c) (leases c) (c_observations c) (replay c)
    (tick c) (c_incarnation c) (lease_sequence c) (duplicate_artifacts c) (rejected_artifacts c)
    (journal c) (durable c) (recovery_detail c) true (os c).

(** An operation may have changed the state when it fails. *)
Definition Op (A : Type) : Type := Impl → Impl * Result A.
#[export] Instance Op_ret : MRet Op := λ A a c, (c, Ok a).
#[export] Instance Op_bind : MBind Op := λ A B k m c,
  match m c with
  | (c', Ok a) => k a c'
  | (c', Err s) => (c', Err s)
  end.
Definition get : Op Impl := λ c, (c, Ok c).
Definition modify (f : Impl → Impl) : Op unit := λ c, (f c, Ok tt).
Definition lift {A} (r : Result A) : Op A := λ c, (c, r).
(** [if (b) return Status::make(e, m);] *)
Definition refuse_if (b : bool) (e : ErrorCode.t) (m : string) : Op unit := lift (fail_if b e m).

(** ** Keys of the decision records *)

Definition decision_key (f : FederationId) (k : ArtifactKind.t) (m : MemberId) (e : Epoch) (l : Lineage)
    (identity extra : Digest) : Digest :=
  digest_of (encode f >+> Writer.u16 (wire k) >+> encode m >+> encode e >+> encode l >+>
             Writer.digest identity >+> Writer.digest extra).
Definition evidence_id_from (f : FederationId) (key : Digest) : EvidenceId :=
  mkId (take 16 (digest_bytes (digest_of (encode f >+> Writer.digest key)))).
Definition digest_of_parties (parties : list MemberId) : Digest :=
  digest_of (enc_list kMaxMembers encode (sort_unique parties)).

(** ** Helpers *)

(** The returned tick is ignored by every caller. *)
Definition next_tick : Op unit :=
  modify (λ c, with_tick (mkCounter ((value (tick c) + 1) mod 2 ^ 64)) c).
Definition journal_append (t : JournalRecordType.t) (data : list byte) : Op unit := λ c,
  if negb (durable c) then (c, Ok tt)
  else
    let '(w, f) := default (None, None) (head (os c)) in
    let '(j, r) := append w f (journal c) t data in
    (with_journal j (tail (os c)) c, r).
(** A writer is filled first; its failure is returned before anything is stored. *)
Definition journal_encoded (t : JournalRecordType.t) (e : Enc) : Op unit :=
  bs ← lift e; journal_append t bs.

Definition derivation_inputs (c : Impl) : DerivationInputs :=
  mkDerivationInputs (cfg_federation (config c)) (cfg_node (config c)) (c_incarnation c) (tick c)
    (Some (c_policy c)) (Some (catalog c)) (artifacts c) (snd <$> c_observations c)
    (snd <$> leases c) (replay c) [].
Definition derive_locked (c : Impl) : Result FederationState :=
  r ← derive_state (derivation_inputs c); mret (state r).
Definition derived : Op FederationState := λ c, (c, derive_locked c).

Definition has_evidence (c : Impl) (e : EvidenceId) : bool :=
  existsb (λ a, bool_decide (art_evidence a = e)) (artifacts c).

(** Whether the artefact was recorded; one whose identifier is known is not. *)
Definition record_decision (a : Artifact) : Op bool :=
  c ← get;
  lift (artifact_validate (catalog c) a);;
  if has_evidence c (art_evidence a) then mret false
  else
    journal_encoded JournalRecordType.Artifact (encode a);;
    modify (λ c, with_artifacts (artifacts c ++ [a]) c);;
    mret true.

(** ** The decision records the coordinator issues *)

Section decide.
Context (c : Impl) (s : FederationState).

Definition genesis_founders : list MemberDeclaration :=
  (λ a, founder (genesis (body a))) <$> of_art_kind ArtifactKind.FederationGenesis (artifacts c).
Definition active_members : list MemberId :=
  ms_member <$> filter (λ m, lifecycle_holds_federation_authority (ms_lifecycle m) = true) (members s).
Definition decision_context : MembershipContext :=
  mkContext (cfg_federation (config c)) (epoch s) (tick c) (c_policy c) (catalog c) (s_partition s)
    (s_reconciling s) active_members ((λ d, con_member (decl_constitution d)) <$> genesis_founders)
    genesis_founders.
Definition by_subject (m : MemberId) : list Artifact :=
  filter (λ a, subject (envelope a) = m ∧ is_nil (subject (envelope a)) = false) (artifacts c).

Definition decision_envelope (k : ArtifactKind.t) (m : MemberId) (key : Digest) : ArtifactEnvelope :=
  mkEnvelope (evidence_id_from (cfg_federation (config c)) key) k (cfg_federation (config c)) m
    (mkProvenance (cfg_node (config c)) nil_id zero zero Digest_zero (epoch s) (tick c)) Digest_zero.
(** The fields a decision about a member sets; the others keep their defaults. *)
Definition decision_body (f : MembershipFacts) (parties : list MemberId) (endorsements distinct : N)
    (reason : ReasonCode.t) (text : string) : ArtifactBody :=
  mkBody no_declaration (current_identity f) no_genesis no_policy (epoch s) (s_policy_generation s)
    (s_policy_digest s) (f_lineage f) parties endorsements distinct [] [] nil_id no_identity [] zero
    zero zero zero [] [] Outcome.Granted (wire reason)
    (wire ReasonCode.EvidenceUnknown) text (tick c).

(** The proposal with the smallest identifier; the first of equals. *)
Definition first_proposal (arts : list Artifact) : option Artifact :=
  foldl (λ best a, match best with
                   | Some b => if ltb (art_evidence a) (art_evidence b) then Some a else best
                   | None => Some a
                   end) None (of_art_kind ArtifactKind.MembershipProposal arts).

Definition admission_for (m : MemberId) (arts : list Artifact) (f : MembershipFacts) : option Artifact :=
  p ← first_proposal arts;
  let proposer := prov_member (issuer (envelope p)) in
  let multi := assess_multi_party m proposer (contains active_members proposer) (f_endorsers f)
                 (c_policy c) false in
  if negb (mp_satisfied multi) || negb (acceptance_matches_declaration f) then None
  else
    let key := decision_key (cfg_federation (config c)) ArtifactKind.MembershipAdmission m (epoch s)
      (f_lineage f) (idn_constitution (current_identity f)) (digest_of_parties (mp_parties multi)) in
    Some (Artifact_make (decision_envelope ArtifactKind.MembershipAdmission m key)
      (decision_body f (mp_parties multi) (required_endorsements (c_policy c))
         (required_distinct_parties (c_policy c)) ReasonCode.MultiPartySatisfied
         ("admitted by policy: " +s+ to_dec (mp_distinct_parties multi) +s+ " distinct parties, " +s+
          to_dec (mp_endorsements multi) +s+ " third-party endorsement(s)"))).
Definition activation_for (m : MemberId) (f : MembershipFacts) : Artifact :=
  let key := decision_key (cfg_federation (config c)) ArtifactKind.MembershipActivation m (epoch s)
    (f_lineage f) (idn_constitution (current_identity f)) (s_policy_digest s) in
  Artifact_make (decision_envelope ArtifactKind.MembershipActivation m key)
    (decision_body f [] 0 0 ReasonCode.MembershipActive
       ("activated at epoch " +s+ to_dec (value (epoch s)))).

Definition decision_for (m : MemberState) : option Artifact :=
  let arts := by_subject (ms_member m) in
  let d := derive_membership (ms_member m) arts decision_context in
  let f := facts d in
  match lifecycle d with
  | MemberLifecycleState.Proposed => admission_for (ms_member m) arts f
  | MemberLifecycleState.Admitted_ => Some (activation_for (ms_member m) f)
  | MemberLifecycleState.Degraded =>
      if has_reattestation f && negb (activation_at_current_epoch f)
      then Some (activation_for (ms_member m) f) else None
  | _ => None
  end.
Definition decision_batch : list Artifact := omap decision_for (members s).
End decide.

(** The batch is recorded one by one: what was issued, and whether any record
    call reported success, which one whose identifier is known does too. *)
Fixpoint record_batch (batch : list Artifact) (c : Impl) : Impl * list Artifact * bool :=
  match batch with
  | [] => (c, [], false)
  | a :: batch =>
      let '(c, r) := record_decision a c in
      let '(c, l, progressed) := record_batch batch c in
      match r with
      | Ok true => (c, a :: l, true)
      | Ok false => (c, l, true)
      | Err _ => (c, l, progressed)
      end
  end.
Fixpoint decide_loop (passes : nat) (c : Impl) : Impl * list Artifact :=
  match passes with
  | O => (c, [])
  | S passes =>
      match derive_locked c with
      | Err _ => (c, [])
      | Ok s =>
          let batch := decision_batch c s in
          if nonempty batch then
            let '(c, l, progressed) := record_batch batch c in
            if progressed : bool then
              let '(c, l') := decide_loop passes c in (c, l ++ l')
            else (c, l)
          else (c, [])
      end
  end.
Definition decide_locked (c : Impl) : Impl * list Artifact := decide_loop (N.to_nat (kMaxMembers + 2)) c.

(** ** Submission *)

(** The derived digest and count, left at their defaults when the derivation fails. *)
Definition submission (c : Impl) (d : SubmissionDisposition.t) (r : ReasonCode.t) (text : string)
    (digest : Digest) (derive : bool) (l : list Artifact) : SubmissionOutcome :=
  match derive, derive_locked c with
  | true, Ok s => mkSubmission d r text digest (state_digest s) (artifact_count s) l
  | _, _ => mkSubmission d r text digest Digest_zero 0 l
  end.

Definition same_present (c : Impl) (a : Artifact) : bool :=
  existsb (λ e, bool_decide (art_evidence e = art_evidence a) &&
                bool_decide (artifact_digest e = artifact_digest a)) (artifacts c).
Definition conflicting_present (c : Impl) (a : Artifact) : bool :=
  existsb (λ e, bool_decide (art_evidence e = art_evidence a) &&
                negb (bool_decide (artifact_digest e = artifact_digest a))) (artifacts c).

(** An artefact is recorded even if its identifier was used with other content. *)
Definition admit_locked (a : Artifact) : Op SubmissionOutcome := λ c,
  let digest := artifact_digest a in
  let refused d r t := (c, Ok (submission c d r t digest false [])) in
  match artifact_validate (catalog c) a with
  | Err s => refused SubmissionDisposition.Invalid ReasonCode.ArtifactMalformed (Status_to_string s)
  | Ok _ =>
  if negb (bool_decide (art_federation (envelope a) = cfg_federation (config c))) then
    refused SubmissionDisposition.Rejected ReasonCode.FederationIdentityMismatch
      ("artefact belongs to federation " +s+ id_to_string (art_federation (envelope a)))
  else if kMaxArtifacts <=? size (artifacts c) then
    refused SubmissionDisposition.Rejected ReasonCode.LimitExceeded
      "the evidence set has reached its configured bound"
  else if same_present c a then
    let c := with_counters ((duplicate_artifacts c + 1) mod 2 ^ 64) (rejected_artifacts c) c in
    (c, Ok (submission c SubmissionDisposition.Duplicate ReasonCode.EvidenceDuplicateIdentical
              "identical evidence was already accepted; applying it again changes nothing" digest
              true []))
  else
  match encode a with
  | Err s => refused SubmissionDisposition.Invalid ReasonCode.ArtifactMalformed (Status_to_string s)
  | Ok bs =>
  let conflicting := conflicting_present c a in
  match journal_append JournalRecordType.Artifact bs c with
  | (c, Err s) =>
      (c, Ok (submission c SubmissionDisposition.Rejected ReasonCode.LimitExceeded
                ("the artefact could not be persisted: " +s+ Status_to_string s) digest false []))
  | (c, Ok _) =>
      let c := with_artifacts (artifacts c ++ [a]) c in
      let c := if conflicting
               then with_counters (duplicate_artifacts c) ((rejected_artifacts c + 1) mod 2 ^ 64) c else c in
      let '(c, l) := decide_locked c in
      (c, Ok (if conflicting
              then submission c SubmissionDisposition.Rejected ReasonCode.EvidenceDuplicateConflicting
                     ("evidence " +s+ id_to_string (art_evidence a) +s+
                      " was already used with different content; both copies are quarantined")
                     digest true l
              else submission c SubmissionDisposition.Applied ReasonCode.ArtifactAccepted
                     "evidence accepted" digest true l))
  end end end.
Definition submit_artifact (a : Artifact) : Op SubmissionOutcome := admit_locked a.

(** ** Requests *)

Definition in_ledger (c : Impl) (r : RequestId) : bool :=
  existsb (λ e, bool_decide (request e = r)) (replay c).
(** A decision enters the ledger before it is answered. *)
Definition commit_decision (d : AuthorityDecision) : Op unit :=
  c ← get;
  if in_ledger c (ad_request d) then mret tt
  else
    refuse_if (kMaxReplayEntries <=? size (replay c)) ErrorCode.CapacityExceeded
              "the replay ledger has reached its configured bound";;
    journal_encoded JournalRecordType.RequestDecision (encode d);;
    modify (λ c, with_replay (replay c ++ [mkReplay (ad_request d) (decision_digest d)
                                             (ad_decided_at d)]) c).
Definition evaluate (r : AuthorityRequest) : Op AuthorityDecision :=
  refuse_if (is_nil (rq_federation r)) ErrorCode.InvalidArgument "the request names no federation";;
  s ← derived;
  c ← get;
  let d := evaluate_authority r s (c_policy c) (catalog c) in
  (if bool_decide (ad_outcome d = Outcome.Invalid) then mret tt
   else commit_decision d;; next_tick);;
  mret d.

(** ** Leases *)

Definition lease_digest_key (c : Impl) : Digest :=
  digest_of (encode (cfg_federation (config c)) >+> Writer.u64 (lease_sequence c)).
(** The first grant of the request that the member does not hold. *)
Definition uncovered (m : MemberState) (l : list ScopeGrant) : option ScopeGrant :=
  List.find (λ g, negb (grants_cover (federation_authority m) g)) l.

Definition issue_lease (r : LeaseRequest) : Op AuthorityLease :=
  s ← derived;
  c ← get;
  match find_member s (lr_holder r) with
  | None => lift (fail ErrorCode.NotFound "the lease holder is not a member of this federation")
  | Some m =>
  refuse_if (negb (lifecycle_holds_federation_authority (ms_lifecycle m))) ErrorCode.Refused
    ("the lease holder is " +s+ MemberLifecycleState.to_string (ms_lifecycle m) +s+
     " and holds no federation authority to lease");;
  refuse_if (negb (nonempty (lr_scopes r))) ErrorCode.InvalidArgument
    "a lease must cover at least one grant";;
  refuse_if (kMaxScopesPerLease <? size (lr_scopes r)) ErrorCode.BoundsExceeded
    "the lease covers too many grants";;
  match uncovered m (lr_scopes r) with
  | Some g => lift (fail ErrorCode.Refused ("the member does not hold " +s+ grant_to_string g +s+
                      "; a lease cannot grant authority that was never delegated"))
  | None =>
  let maximum := max_lease_lifetime_ticks (c_policy c) in
  let lifetime := if is_zero (lifetime_ticks r) then maximum else value (lifetime_ticks r) in
  refuse_if ((lifetime =? 0) || (maximum <? lifetime)) ErrorCode.OutOfRange
    ("the requested lease lifetime exceeds the policy bound of " +s+ to_dec maximum +s+ " ticks");;
  match checked_add_u64 (value (tick c)) lifetime with
  | None => lift (fail ErrorCode.Overflow "the lease deadline would overflow the logical clock")
  | Some deadline =>
  refuse_if (kMaxLeases <=? size (s_leases s)) ErrorCode.CapacityExceeded
    "the lease table has reached its bound";;
  let key := lease_digest_key c in
  refuse_if (Digest_is_zero key) ErrorCode.Internal "the lease identifier cannot be derived";;
  let until := if is_zero (lr_not_after_epoch r) then epoch s else lr_not_after_epoch r in
  refuse_if (ltb until (epoch s)) ErrorCode.InvalidArgument
    "a lease cannot expire in an epoch that has already passed";;
  let lease := mkLease (mkId (take 16 (digest_bytes key))) (cfg_federation (config c))
    (ms_current_identity m) (canonicalize_grants (lr_scopes r)) (epoch s) until (tick c)
    (mkCounter deadline) (cfg_node (config c)) (c_incarnation c) false zero
    (wire ReasonCode.EvidenceUnknown) "" in
  journal_encoded JournalRecordType.Lease (encode lease);;
  modify (λ c, with_leases (smap_insert (lease_id lease) lease (leases c))
                 ((lease_sequence c + 1) mod 2 ^ 64) c);;
  next_tick;;
  mret lease
  end end end.

Definition lease_revoked (l : AuthorityLease) (t : Tick) (reason : N) (detail : string) : AuthorityLease :=
  mkLease (lease_id l) (lease_federation l) (holder l) (scopes l) (issued_epoch l) (not_after_epoch l)
    (issued_at l) (lease_not_after l) (issuer_node l) (issuer_incarnation l) true t reason detail.
Definition encode_revocation (l : LeaseId) (reason : N) (detail : string) : Enc :=
  encode l >+> Writer.u16 reason >+> Writer.text detail kMaxTextLength.
(** The lease in memory is revoked before the revocation is encoded or stored. *)
Definition revoke_lease (l : LeaseId) (reason : N) (detail : string) : Op unit :=
  c ← get;
  match smap_find l (leases c) with
  | None => lift (fail ErrorCode.NotFound "no such lease")
  | Some found =>
      if revoked found then mret tt
      else
        modify (with_leases (smap_insert l (lease_revoked found (tick c) reason detail) (leases c))
                  (lease_sequence c));;
        journal_encoded JournalRecordType.LeaseRevocation (encode_revocation l reason detail);;
        next_tick
  end.

(** ** Observations and the clock *)

Definition report_observation (o : MemberObservation) : Op unit :=
  refuse_if (is_nil (observer o)) ErrorCode.InvalidArgument "an observation must name its observer";;
  refuse_if (kMaxMembersPerObservation <? size (peers o)) ErrorCode.BoundsExceeded
    "the observation covers too many peers";;
  journal_encoded JournalRecordType.PartitionObservation (encode o);;
  modify (λ c, with_observations (smap_insert (observer o) o (c_observations c)) c);;
  next_tick.
(** The clock in memory is moved before the new value is stored. *)
Definition advance_time (to : Tick) : Op unit :=
  c ← get;
  refuse_if (negb (ltb (tick c) to)) ErrorCode.OutOfRange
    ("the logical clock only moves forward: current tick is " +s+ to_dec (value (tick c)));;
  modify (with_tick to);;
  journal_encoded JournalRecordType.TickHighWater (encode to).

(** ** Lifecycle orders *)

Definition order_envelope (c : Impl) (k : ArtifactKind.t) (m : MemberId) (e : Epoch) (key : Digest) :
    ArtifactEnvelope :=
  mkEnvelope (evidence_id_from (cfg_federation (config c)) key) k (cfg_federation (config c)) m
    (mkProvenance (cfg_node (config c)) nil_id zero zero Digest_zero e (tick c)) Digest_zero.
Definition order_body (c : Impl) (s : FederationState) (l : Lineage) (e : Epoch) (o : Outcome.t)
    (reason fence : N) (text : string) : ArtifactBody :=
  mkBody no_declaration no_identity no_genesis no_policy e (s_policy_generation s) (s_policy_digest s)
    l [] 0 0 [] [] nil_id no_identity [] zero zero zero zero [] [] o reason fence text (tick c).
(** Recording an order and moving the clock. *)
Definition record_order (a : Artifact) : Op unit := record_decision a;; next_tick.

Definition make_lifecycle_record (c : Impl) (s : FederationState) (k : ArtifactKind.t) (m : MemberId)
    (l : Lineage) (e : Epoch) (reason : N) (detail : string) : Artifact :=
  let key := digest_of (encode (cfg_federation (config c)) >+> Writer.u16 (wire k) >+> encode m >+>
               encode e >+> Writer.u16 reason >+> encode l) in
  Artifact_make (order_envelope c k m e key) (order_body c s l e Outcome.Fenced reason reason detail).
Definition effective_lineage (l : Lineage) (m : MemberState) : Lineage :=
  if is_zero l then ms_lineage m else l.

Definition fence_member (m : MemberId) (l : Lineage) (reason : N) (detail : string) : Op unit :=
  s ← derived;
  c ← get;
  match find_member s m with
  | None => lift (fail ErrorCode.NotFound "no such member in this federation")
  | Some found =>
      record_order (make_lifecycle_record c s ArtifactKind.MembershipFence m
                      (effective_lineage l found) (epoch s) reason detail)
  end.
Definition retire_member (m : MemberId) (l : Lineage) (reason : N) (detail : string) : Op unit :=
  s ← derived;
  c ← get;
  match find_member s m with
  | None => lift (fail ErrorCode.NotFound "no such member in this federation")
  | Some found =>
      refuse_if (negb (bool_decide (ms_lifecycle found = MemberLifecycleState.Leaving)) &&
                 negb (bool_decide (ms_lifecycle found = MemberLifecycleState.Fenced)))
        ErrorCode.Refused
        ("a membership lineage is retired only after the member has left or been fenced; the member is currently " +s+
         MemberLifecycleState.to_string (ms_lifecycle found));;
      record_order (make_lifecycle_record c s ArtifactKind.MembershipRetirement m
                      (effective_lineage l found) (epoch s) reason detail)
  end.
Definition advance_epoch (e : Epoch) (reason : N) (detail : string) : Op unit :=
  s ← derived;
  c ← get;
  refuse_if (negb (ltb (epoch s) e)) ErrorCode.OutOfRange
    ("the federation epoch only moves forward: current epoch is " +s+ to_dec (value (epoch s)));;
  let key := digest_of (encode (cfg_federation (config c)) >+> encode e >+> Writer.u16 reason) in
  record_order (Artifact_make (order_envelope c ArtifactKind.EpochAdvance nil_id e key)
    (order_body c s zero e Outcome.Granted reason (wire ReasonCode.EvidenceUnknown) detail)).
Definition complete_reconciliation (e : Epoch) : Op unit :=
  s ← derived;
  c ← get;
  refuse_if (ltb (epoch s) e) ErrorCode.OutOfRange
    "reconciliation cannot complete for an epoch the federation has not reached";;
  let key := digest_of (encode (cfg_federation (config c)) >+> encode e) in
  record_order (Artifact_make (order_envelope c ArtifactKind.ReconciliationComplete nil_id e key)
    (order_body c s zero e Outcome.Granted (wire ReasonCode.PartitionReattestationComplete)
       (wire ReasonCode.EvidenceUnknown)
       ("reconciliation recorded for epoch " +s+ to_dec (value e)))).

(** ** Loading the journal *)

Definition closed_journal : Journal :=
  mkJournal false [] default_options (mkRecovery RecoveryOutcome.Empty 0 0 0 true "" []) 0 1.

(** The locals of the loop.  The lease sequence resumes from the sequence of the
    record, not of the lease. *)
Record Loading := mkLoading {
  ld_impl : Impl;
  ld_revocations : smap LeaseId (N * string);
  highest_incarnation : N;
  highest_tick : N;
  highest_lease_sequence : N
}.
Definition with_impl (f : Impl → Impl) (t : N) (l : Loading) : Loading :=
  mkLoading (f (ld_impl l)) (ld_revocations l) (highest_incarnation l) (N.max (highest_tick l) t)
    (highest_lease_sequence l).
Definition with_c_policy (p : FederationPolicy) (c : Impl) : Impl :=
  mkImpl (config c) (catalog c) p (artifacts c) (leases c) (c_observations c) (replay c) (tick c)
    (c_incarnation c) (lease_sequence c) (duplicate_artifacts c) (rejected_artifacts c) (journal c)
    (durable c) (recovery_detail c) (bootstrapped c) (os c).

(** [T::decode(reader)]: bytes after the value are not looked at. *)
Definition decode_prefix {A} `{Codec A} (bs : list byte) : Result A :=
  r ← decode bs; mret r.1.
(** [... cannot be decoded: ] with the status of the decoder. *)
Definition decode_record {A} `{Codec A} (what : string) (bs : list byte) : Result A :=
  match decode_prefix bs with
  | Ok a => Ok a
  | Err s => fail ErrorCode.Corrupt ("journal holds " +s+ what +s+ " that cannot be decoded: " +s+
                                     Status_to_string s)
  end.
Definition decode_revocation (bs : list byte) : Result (LeaseId * (N * string)) :=
  r ← (i ← decode; n ← Reader.u16; d ← Reader.text kMaxTextLength; mret (i, (n, d)) : Dec _) bs;
  mret r.1.

Definition load_record (l : Loading) (r : JournalRecord) : Result Loading :=
  match record_type_of (rec_type r) with
  | Some JournalRecordType.Artifact | Some JournalRecordType.FederationGenesis =>
      a ← decode_record "an artefact" (payload r);
      mret (with_impl (λ c, with_artifacts (artifacts c ++ [a]) c) 0 l)
  | Some JournalRecordType.Lease =>
      lease ← decode_record "a lease" (payload r);
      let l := with_impl (λ c, with_leases (smap_insert (lease_id lease) lease (leases c))
                                 (lease_sequence c) c) (value (issued_at lease)) l in
      mret (mkLoading (ld_impl l) (ld_revocations l) (highest_incarnation l) (highest_tick l)
              (N.max (highest_lease_sequence l) (sequence r)))
  | Some JournalRecordType.LeaseRevocation =>
      v ← decode_revocation (payload r);
      mret (mkLoading (ld_impl l) (smap_insert v.1 v.2 (ld_revocations l)) (highest_incarnation l)
              (highest_tick l) (highest_lease_sequence l))
  | Some JournalRecordType.RequestDecision =>
      d ← decode_record "a decision" (payload r);
      mret (with_impl (λ c, with_replay (replay c ++ [mkReplay (ad_request d) (decision_digest d)
                                                        (ad_decided_at d)]) c)
              (value (ad_decided_at d)) l)
  | Some JournalRecordType.CoordinatorIncarnation =>
      v ← Reader.u64 (payload r);
      mret (mkLoading (ld_impl l) (ld_revocations l) (N.max (highest_incarnation l) v.1)
              (highest_tick l) (highest_lease_sequence l))
  | Some JournalRecordType.TickHighWater =>
      v ← Reader.u64 (payload r);
      mret (with_impl id v.1 l)
  | Some JournalRecordType.PartitionObservation =>
      o ← decode_record "an observation" (payload r);
      mret (with_impl (λ c, with_observations (smap_insert (observer o) o (c_observations c)) c) 0 l)
  | Some JournalRecordType.Policy =>
      p ← decode_record "a policy" (payload r);
      mret (if ltb (policy_generation (c_policy (ld_impl l))) (policy_generation p)
            then with_impl (with_c_policy p) 0 l else l)
  | Some JournalRecordType.FederationIdentity | Some JournalRecordType.EpochState | None => mret l
  end.
Fixpoint load_records (rs : list JournalRecord) (l : Loading) : Result Loading :=
  match rs with
  | [] => Ok l
  | r :: rs => l ← load_record l r; load_records rs l
  end.
Fixpoint apply_revocations (rs : smap LeaseId (N * string)) (t : N) (m : smap LeaseId AuthorityLease) :
    Result (smap LeaseId AuthorityLease) :=
  match rs with
  | [] => Ok m
  | (id, (reason, detail)) :: rs =>
      match smap_find id m with
      | None => fail ErrorCode.Corrupt
                  "journal holds a revocation for a lease that is not in the history"
      | Some l => apply_revocations rs t
                    (smap_insert id (lease_revoked l (mkCounter t) reason detail) m)
      end
  end.

(** A coordinator with nothing but its configuration. *)
Definition initial (cfg : CoordinatorConfig) (f : list (WriteFault * Fault)) : Impl :=
  mkImpl cfg builtin (cfg_policy cfg) [] [] [] [] (initial_tick cfg) (mkCounter 1) 1 0 0 closed_journal
    false "" false f.
Definition opened (j : Journal) (d : bool) (detail : string) (c : Impl) : Impl :=
  mkImpl (config c) (catalog c) (c_policy c) (artifacts c) (leases c) (c_observations c) (replay c)
    (tick c) (c_incarnation c) (lease_sequence c) (duplicate_artifacts c) (rejected_artifacts c) j
    d detail (bootstrapped c) (os c).
(** The clock, the incarnation and the lease sequence after the loop. *)
Definition resumed (l : Loading) (m : smap LeaseId AuthorityLease) (detail : string) : Impl :=
  let c := ld_impl l in
  mkImpl (config c) (catalog c) (c_policy c) (artifacts c) m (c_observations c) (replay c)
    (mkCounter (highest_tick l)) (mkCounter ((highest_incarnation l + 1) mod 2 ^ 64))
    ((highest_lease_sequence l + 1) mod 2 ^ 64) (duplicate_artifacts c) (rejected_artifacts c)
    (journal c) (durable c) detail (bootstrapped c) (os c).

(** What [create] runs fails as a whole: a coordinator that cannot be loaded is
    discarded.  [disk] is the file at the configured path, if there is one. *)
Definition completed {A} (p : Impl * Result A) : Result Impl :=
  match p with (c, Ok _) => Ok c | (_, Err s) => Err s end.
Definition load_journal (disk : option (list byte)) (f : OpenFaults) (c : Impl) : Result Impl :=
  if bool_decide (journal_path (config c) = "") then
    Ok (opened (journal c) false "no journal configured: state does not survive a restart" c)
  else
    j ← journal_open f (default [] disk) OpenOrCreateReadWrite default_options;
    let detail := RecoveryOutcome.to_string (rv_outcome (recovery j)) +s+ ": " +s+
                  rv_detail (recovery j) in
    let c := opened j true detail c in
    fail_if (negb (rv_writable (recovery j))) ErrorCode.Refused
            ("recovered journal is not writable: " +s+ rv_detail (recovery j));;
    records ← load j (kMaxArtifacts * 4) kMaxJournalRecordBytes;
    l ← load_records records (mkLoading c [] 0 (value (initial_tick (config c))) 0);
    m ← apply_revocations (ld_revocations l) (highest_tick l) (leases (ld_impl l));
    let detail := match disk with None => "fresh journal created" | Some _ => detail end in
    let c := resumed l m detail in
    completed (journal_encoded JournalRecordType.CoordinatorIncarnation (encode (c_incarnation c)) c).

(** ** The genesis record *)

Definition genesis_artifact (c : Impl) : Artifact :=
  let cfg := config c in
  let founder_id := con_member (decl_constitution (cfg_founder cfg)) in
  let key := decision_key (cfg_federation cfg) ArtifactKind.FederationGenesis founder_id (mkCounter 1)
    zero (constitution_digest (decl_constitution (cfg_founder cfg))) Digest_zero in
  Artifact_make
    (mkEnvelope (evidence_id_from (cfg_federation cfg) key) ArtifactKind.FederationGenesis
       (cfg_federation cfg) founder_id
       (mkProvenance (cfg_node cfg) nil_id zero zero Digest_zero (mkCounter 1) (tick c)) Digest_zero)
    (mkBody no_declaration no_identity
       (mkGenesis (cfg_federation cfg) (cfg_node cfg) (cfg_founder cfg)
          (canonicalize_grants (cfg_founder_grants cfg)) (c_policy c) (cfg_description cfg) (tick c))
       no_policy (mkCounter 1) (policy_generation (c_policy c)) (policy_digest (c_policy c)) zero
       [] 0 0 [] [] nil_id no_identity [] zero zero zero zero [] [] Outcome.Unknown
       (wire ReasonCode.EvidenceUnknown) (wire ReasonCode.EvidenceUnknown) "" (tick c)).
Definition ensure_genesis (c : Impl) : Result Impl :=
  if existsb (λ a, bool_decide (art_kind (envelope a) = ArtifactKind.FederationGenesis)) (artifacts c)
  then Ok (with_bootstrapped c)
  else if negb (bootstrap (config c)) then Ok c
  else
    fail_if (is_nil (con_member (decl_constitution (cfg_founder (config c)))))
            ErrorCode.InvalidArgument "bootstrap requires a founder with a member identity";;
    let g := genesis_artifact c in
    artifact_validate (catalog c) g;;
    let c := with_bootstrapped (with_artifacts (artifacts c ++ [g]) c) in
    completed (journal_encoded JournalRecordType.Artifact (encode g) c).

(** ** Creation and closing *)

Definition kMaxConnections : N := 128.
Definition validate_config (cfg : CoordinatorConfig) : Result unit :=
  fail_if (is_nil (cfg_federation cfg)) ErrorCode.InvalidArgument
          "a coordinator requires a federation identity";;
  fail_if (is_nil (cfg_node cfg)) ErrorCode.InvalidArgument "a coordinator requires a node identity";;
  match validate_policy (cfg_policy cfg) with
  | Err s => fail ErrorCode.InvalidArgument ("the configured policy is not valid: " +s+
                                             Status_to_string s)
  | Ok _ => Ok tt
  end;;
  fail_if ((worker_threads cfg =? 0) || (64 <? worker_threads cfg)) ErrorCode.OutOfRange
          "worker thread count is out of range";;
  fail_if ((max_connections cfg =? 0) || (kMaxConnections <? max_connections cfg)) ErrorCode.OutOfRange
          "connection bound is out of range".
Definition create (cfg : CoordinatorConfig) (disk : option (list byte)) (f : OpenFaults)
    (w : list (WriteFault * Fault)) : Result Impl :=
  validate_config cfg;;
  c ← load_journal disk f (initial cfg w);
  c ← ensure_genesis c;
  mret (decide_locked c).1.
(** [stop] of a coordinator that does not listen. *)
Definition stop (f : Fault) : Op unit := λ c,
  if is_open (journal c) then
    let '(j, r) := close_journal f (journal c) in (with_journal j (os c) c, r)
  else (c, Ok tt).

(** ** Readers *)

Definition coordinator_state_digest (c : Impl) : Digest :=
  match derive_locked c with Ok s => state_digest s | Err _ => Digest_zero end.
Definition coordinator_epoch (c : Impl) : Epoch :=
  match derive_locked c with Ok s => epoch s | Err _ => zero end.
