(* ===== verification/Recovery.v ===== *)
(** * The coordinator as an event-sourced store

    The contract between src/coordinator.cpp and its journal: what the
    coordinator holds in memory is what its journal says happened.  The abstract
    specification is a list of events; every operation appends the events it
    makes true, and loading the journal makes them true again. *)

From stdpp Require Import relations.
From S2P Require Import Prelude Errors Sha256 Text Codec Ids Names Scope Capability Policy Identity.
From S2P Require Import Explanation Lease Partition Evidence Membership Journal State Derivation.
From S2P Require Import Authority Coordinator.

(** ** Maps and functions on their values *)

Section smap_fmap.
Context {K V W : Type} `{CmpLaws K} (f : V → W).
Definition smap_fmap (m : smap K V) : smap K W := (λ p, (p.1, f p.2)) <$> m.
Lemma smap_fmap_insert k v m : smap_insert k (f v) (smap_fmap m) = smap_fmap (smap_insert k v m).
Proof.
  induction m as [|[k' v'] m IH]; [done|]. cbn. destruct (cmp k k'); [done..|].
  cbn. f_equal. apply IH.
Qed.
Lemma smap_find_fmap k m : smap_find k (smap_fmap m) = f <$> smap_find k m.
Proof. induction m as [|[k' v'] m IH]; [done|]. cbn. by destruct (cmp k k'). Qed.
Lemma smap_fmap_sorted m : smap_sorted m → smap_sorted (smap_fmap m).
Proof.
  unfold smap_sorted. intros Hs. replace ((smap_fmap m).*1) with (m.*1); [done|].
  unfold smap_fmap. rewrite <-list_fmap_compose. by apply list_fmap_ext.
Qed.
End smap_fmap.

Section smap_ext.
Context {K V : Type} `{CmpLaws K}.
Lemma smap_find_None_below (k : K) (m : smap K V) :
  Forall (strictly_before k) (m.*1) → smap_find k m = None.
Proof.
  induction m as [|[k' v'] m IH]; [done|]. intros [Hk Hm]%Forall_cons. cbn in *.
  unfold strictly_before in Hk. rewrite Hk. by apply IH.
Qed.
Lemma smap_ext (m n : smap K V) :
  smap_sorted m → smap_sorted n → (∀ k, smap_find k m = smap_find k n) → m = n.
Proof.
  revert n. induction m as [|[k v] m IH]; intros [|[k' v'] n] Hm Hn Hf; [done| | |].
  - specialize (Hf k'). cbn in Hf. rewrite (cmp_refl k') in Hf. done.
  - specialize (Hf k). cbn in Hf. rewrite (cmp_refl k) in Hf. done.
  - apply StronglySorted_cons in Hm as [Hk Hm], Hn as [Hk' Hn].
    assert (k = k') as <-.
    { pose proof (Hf k) as H1. pose proof (Hf k') as H2. cbn in H1, H2.
      rewrite (cmp_refl k) in H1. rewrite (cmp_refl k') in H2.
      rewrite (cmp_opp k k') in H2. destruct (cmp k k') eqn:E; [by apply cmp_eq| |].
      - rewrite smap_find_None_below in H1; [done|].
        eapply Forall_impl; [exact Hk'|]. intros x Hx. by eapply cmp_lt_trans.
      - rewrite smap_find_None_below in H2; [done|].
        eapply Forall_impl; [exact Hk|]. intros x Hx. eapply cmp_lt_trans; [|exact Hx].
        by apply cmp_gt_lt. }
    assert (v = v') as <- by (specialize (Hf k); cbn in Hf; rewrite (cmp_refl k) in Hf; congruence).
    f_equal. apply IH; [done..|]. intros x. specialize (Hf x). cbn in Hf.
    destruct (cmp x k) eqn:E; [|done..]. apply cmp_eq in E as ->. by rewrite !smap_find_None_below.
Qed.
End smap_ext.

(** ** Events and the memory they make *)

Inductive Event :=
  | Recorded (a : Artifact)
  | Leased (l : AuthorityLease)
  | Revoked (l : LeaseId) (reason : N) (text : string)
  | Decided (d : AuthorityDecision)
  | Observed (o : MemberObservation)
  | Ticked (t : Tick)
  | Incarnated (i : Incarnation).

Definition event_type (e : Event) : JournalRecordType.t :=
  match e with
  | Recorded _ => JournalRecordType.Artifact
  | Leased _ => JournalRecordType.Lease
  | Revoked _ _ _ => JournalRecordType.LeaseRevocation
  | Decided _ => JournalRecordType.RequestDecision
  | Observed _ => JournalRecordType.PartitionObservation
  | Ticked _ => JournalRecordType.TickHighWater
  | Incarnated _ => JournalRecordType.CoordinatorIncarnation
  end.
Definition encode_event (e : Event) : Enc :=
  match e with
  | Recorded a => encode a
  | Leased l => encode l
  | Revoked l reason text => encode_revocation l reason text
  | Decided d => encode d
  | Observed o => encode o
  | Ticked t => encode t
  | Incarnated i => encode i
  end.
(** What a peer or a caller may hand in: every field within its width. *)
Definition event_ok (e : Event) : Prop :=
  match e with
  | Recorded a => wire_ok a
  | Leased l => wire_ok l
  | Revoked l reason _ => wire_ok l ∧ reason ≤ u16_max
  | Decided d => wire_ok d
  | Observed o => wire_ok o
  | Ticked t => wire_ok t
  | Incarnated i => value i < u64_max
  end.

(** When a lease was revoked is the one thing that is not stored. *)
Definition settled (l : AuthorityLease) : AuthorityLease :=
  if revoked l then lease_revoked l zero (revoke_reason l) (revoke_detail l) else l.
Record Memory := mkMemory {
  m_artifacts : list Artifact;
  m_leases : smap LeaseId AuthorityLease;
  m_observations : smap MemberId MemberObservation;
  m_replay : list ReplayEntry
}.
Definition memory_of (c : Impl) : Memory :=
  mkMemory (artifacts c) (smap_fmap settled (leases c)) (c_observations c) (replay c).
Definition replay_entry (d : AuthorityDecision) : ReplayEntry :=
  mkReplay (ad_request d) (decision_digest d) (ad_decided_at d).

(** A lease is issued once and only an issued lease is revoked. *)
Definition apply_event (m : Memory) (e : Event) : option Memory :=
  let '(mkMemory arts ls obs ledger) := m in
  match e with
  | Recorded a => Some (mkMemory (arts ++ [a]) ls obs ledger)
  | Leased l =>
      match smap_find (lease_id l) ls with
      | Some _ => None
      | None => Some (mkMemory arts (smap_insert (lease_id l) (settled l) ls) obs ledger)
      end
  | Revoked id reason text =>
      l ← smap_find id ls;
      Some (mkMemory arts (smap_insert id (lease_revoked l zero reason text) ls) obs ledger)
  | Decided d => Some (mkMemory arts ls obs (ledger ++ [replay_entry d]))
  | Observed o => Some (mkMemory arts ls (smap_insert (observer o) o obs) ledger)
  | Ticked _ | Incarnated _ => Some m
  end.
Definition nothing : Memory := mkMemory [] [] [] [].
Fixpoint remember (m : Memory) (es : list Event) : option Memory :=
  match es with
  | [] => Some m
  | e :: es => m ← apply_event m e; remember m es
  end.
Lemma remember_app m es fs : remember m (es ++ fs) = m' ← remember m es; remember m' fs.
Proof.
  revert m. induction es as [|e es IH]; intros m; [done|]. cbn.
  destruct (apply_event m e); [apply IH|done].
Qed.

(** ** What the journal holds *)

Definition stores (e : Event) (r : JournalRecord) : Prop :=
  rec_type r = JournalRecordType.value (event_type e) ∧ encode_event e = Ok (payload r).
(** The records of the events, numbered from one. *)
Record logs (j : Journal) (es : list Event) (rs : list JournalRecord) : Prop := {
  lg_holds : journal_holds default_options j rs;
  lg_stores : Forall2 stores es rs;
  lg_numbered : ∀ i r, rs !! i = Some r → sequence r = N.of_nat i + 1;
  lg_next : next_sequence j = size rs + 1;
  lg_bytes : size (history rs) ≤ kMaxJournalBytes
}.

Lemma logs_small j es rs : logs j es rs → size rs < 2 ^ 31 ∧ next_sequence j < u64_max.
Proof.
  intros [_ _ _ Hn Hb]. rewrite size_history in Hb. pose proof (length_frames rs) as Hf.
  unfold size, kMaxJournalBytes, u64_max in *. lia.
Qed.

(** An append that meets no fault stores the whole record or changes nothing. *)
Lemma append_clean opt j rs t data :
  journal_holds opt j rs → next_sequence j < u64_max →
  let r := mkRecord (JournalRecordType.value t) (next_sequence j) data in
  (∃ s, append None None j t data = (j, Err s)) ∨
  append None None j t data =
    (mkJournal true (history (rs ++ [r])) opt (recovery j) (size (history (rs ++ [r])))
       (next_sequence j + 1), Ok tt) ∧
  size data ≤ max_payload_bytes opt ∧ size (history (rs ++ [r])) ≤ max_bytes opt.
Proof.
  intros [Ho Hw Hopt Hfile Hsize _ _ _ _] Hnext r. rewrite history_snoc.
  unfold append. rewrite Ho, Hw, Hopt. cbn [negb]. cbv iota zeta. fold r.
  destruct (N.ltb_spec (max_payload_bytes opt) (size data)) as [|Hfit]; [left; by eexists|].
  destruct (checked_add_u64 _ _) as [total|] eqn:Et; [|left; by eexists].
  apply checked_add_Some in Et as ->; [|rewrite size_record; lia].
  destruct (N.ltb_spec (max_bytes opt) (size_bytes j + size (make_record_bytes r))) as [|Hb];
    [left; by eexists|].
  right. cbn [write_at]. unfold checked_inc_u64.
  destruct (N.eqb_spec (next_sequence j) u64_max); [lia|].
  rewrite Hsize, Hfile, overwrite_end, size_app in *.
  rewrite (N.mod_small (next_sequence j + 1)) by (unfold u64_max in Hnext; lia). by split_and!.
Qed.

Lemma append_logs j es rs e data :
  logs j es rs → encode_event e = Ok data →
  (∃ s, append None None j (event_type e) data = (j, Err s)) ∨
  (∃ j', append None None j (event_type e) data = (j', Ok tt) ∧
     logs j' (es ++ [e]) (rs ++ [mkRecord (JournalRecordType.value (event_type e)) (size rs + 1) data])).
Proof.
  intros Hl He. pose proof (logs_small _ _ _ Hl) as [Hsmall Hseq].
  destruct Hl as [Hh Hs Hnum Hn Hb].
  destruct (append_clean _ _ _ (event_type e) data Hh Hseq) as [?|(Ha & Hfit & Hbytes)]; [by left|right].
  eexists. split; [exact Ha|]. clear Ha. rewrite Hn in *. set (r := mkRecord _ _ data) in *.
  assert (record_fits default_options r) as Hr.
  { constructor; cbn [r payload rec_type sequence]; [exact Hfit| |apply record_type_range|lia].
    unfold default_options, kMaxJournalRecordBytes in Hfit. cbn in Hfit. lia. }
  destruct Hh as [_ Hw _ _ _ Hfits Hinc Hbefore _]. rewrite Hn in Hbefore. split; cbn [next_sequence].
  - apply journal_holds_intro; [exact Hw| | | |lia].
    + apply Forall_app. split; [done|by constructor].
    + by apply increasing_snoc.
    + apply Forall_app. split; [|apply Forall_singleton; cbn [r sequence]; lia].
      eapply Forall_impl; [exact Hbefore|]. cbv beta. intros. lia.
  - apply Forall2_app; [done|]. by repeat constructor.
  - intros i x. rewrite lookup_app. destruct (rs !! i) eqn:Ei; [intros [= <-]; by apply Hnum|].
    intros Hx. apply lookup_ge_None in Ei.
    apply list_lookup_singleton_Some in Hx as [Hi <-]. cbn [r sequence]. unfold size. lia.
  - rewrite size_app. unfold size. cbn. lia.
  - exact Hbytes.
Qed.

(** ** The invariant *)

Definition lease_id_at (f : FederationId) (n : N) : LeaseId :=
  mkId (take 16 (digest_bytes (digest_of (encode f >+> Writer.u64 n)))).

(** The journal holds the events, the memory is what they make true, and the
    lease sequence is ahead of every lease that was ever issued. *)
Record journaled (c : Impl) (es : list Event) : Prop := {
  jr_durable : durable c = true;
  jr_path : journal_path (config c) ≠ "";
  jr_os : os c = [];
  jr_log : ∃ rs, logs (journal c) es rs;
  jr_memory : remember nothing es = Some (memory_of c);
  jr_sorted : smap_sorted (leases c);
  jr_ledger : size (replay c) ≤ kMaxReplayEntries;
  jr_sequence : lease_sequence c ≤ next_sequence (journal c);
  jr_issued : ∀ i l, es !! i = Some (Leased l) →
    ∃ n, n ≤ N.of_nat i + 1 ∧ n < lease_sequence c ∧
         lease_id l = lease_id_at (cfg_federation (config c)) n;
  jr_current : Incarnated (c_incarnation c) ∈ es;
  jr_issuers : ∀ l, Leased l ∈ es → Incarnated (issuer_incarnation l) ∈ es
}.

Lemma lookup_snoc {A} (l : list A) x i y :
  (l ++ [x]) !! i = Some y → l !! i = Some y ∨ i = length l ∧ y = x.
Proof.
  rewrite lookup_app. destruct (l !! i) eqn:E; [intros [= <-]; by left|].
  apply lookup_ge_None in E. intros [Hi ->]%list_lookup_singleton_Some. right. split; [lia|done].
Qed.

(** An event that is no lease was stored and took its effect. *)
Lemma journaled_snoc c es e c' rs :
  journaled c es → (∀ l, e ≠ Leased l) → logs (journal c') (es ++ [e]) rs →
  config c' = config c → durable c' = true → os c' = [] → lease_sequence c' = lease_sequence c →
  c_incarnation c' = c_incarnation c → smap_sorted (leases c') →
  size (replay c') ≤ kMaxReplayEntries → apply_event (memory_of c) e = Some (memory_of c') →
  journaled c' (es ++ [e]).
Proof.
  intros [_ Hpath _ (rs0 & Hlog) Hmem _ _ Hseq Hiss Hcur Hissuers] He Hl Hc Hd Hos Hls Hi Hsorted Hledger Happly.
  split; try done.
  - by rewrite Hc.
  - by exists rs.
  - rewrite remember_app, Hmem. cbn -[apply_event memory_of]. by rewrite Happly.
  - rewrite Hls, (lg_next _ _ _ Hl), (lg_next _ _ _ Hlog) in *.
    pose proof (Forall2_length _ _ _ (lg_stores _ _ _ Hl)) as H1.
    pose proof (Forall2_length _ _ _ (lg_stores _ _ _ Hlog)) as H2.
    rewrite length_app in H1. cbn in H1. unfold size in *. lia.
  - intros i l [Hl'|[_ Heq]]%lookup_snoc; [|by subst e; destruct (He l)].
    rewrite Hc, Hls. by apply Hiss.
  - rewrite Hi. apply elem_of_app. by left.
  - intros l [Hin|Hin%list_elem_of_singleton]%elem_of_app; [|by subst e; destruct (He l)].
    apply elem_of_app. left. by apply Hissuers.
Qed.

(** Storing an event: nothing happened, or the journal took it. *)
Lemma journal_encoded_cases c es e :
  journaled c es →
  (∃ s, journal_encoded (event_type e) (encode_event e) c = (c, Err s)) ∨
  (∃ j rs, journal_encoded (event_type e) (encode_event e) c = (with_journal j [] c, Ok tt) ∧
     logs j (es ++ [e]) rs).
Proof.
  intros [Hd _ Hos (rs & Hlog) _ _ _ _ _ _ _]. unfold journal_encoded, lift, mbind, Op_bind.
  destruct (encode_event e) as [bs|s] eqn:He; [|left; by exists s].
  unfold journal_append. rewrite Hd, Hos. cbn [negb head default tail].
  destruct (append_logs _ _ _ _ _ Hlog He) as [(s & ->)|(j' & -> & Hl)].
  - left. exists s. f_equal. destruct c; cbn in *; by subst.
  - right. exists j'. eexists. split; [reflexivity|exact Hl].
Qed.

Definition keeps_at {A} (m : Op A) (c : Impl) : Prop :=
  ∀ es, journaled c es → ∃ new, journaled (m c).1 (es ++ new).
Definition pure_at {A} (m : Op A) (c : Impl) : Prop := (m c).1 = c.

Lemma keeps_nothing c es : journaled c es → ∃ new, journaled c (es ++ new).
Proof. intros Hj. exists []. by rewrite app_nil_r. Qed.
Lemma keeps_pure {A} (m : Op A) c : pure_at m c → keeps_at m c.
Proof. intros Hm es Hj. rewrite Hm. by apply keeps_nothing. Qed.
Lemma keeps_bind {A B} (m : Op A) (k : A → Op B) c :
  keeps_at m c → (∀ a c', m c = (c', Ok a) → keeps_at (k a) c') → keeps_at (m ≫= k) c.
Proof.
  intros Hm Hk es Hj. unfold mbind, Op_bind. specialize (Hm es Hj).
  destruct (m c) as [c' [a|s]] eqn:E; [|done]. destruct Hm as [new Hm].
  destruct (Hk a c' eq_refl _ Hm) as [more H]. exists (new ++ more). by rewrite app_assoc.
Qed.
Lemma keeps_bind_pure {A B} (m : Op A) (k : A → Op B) c :
  pure_at m c → (∀ a, (m c).2 = Ok a → keeps_at (k a) c) → keeps_at (m ≫= k) c.
Proof.
  unfold pure_at. intros Hm Hk es Hj. unfold mbind, Op_bind. destruct (m c) as [c' [a|s]]; cbn in *; subst c'.
  - by apply Hk.
  - by apply keeps_nothing.
Qed.
Lemma keeps_get {B} (k : Impl → Op B) c : keeps_at (k c) c → keeps_at (get ≫= k) c.
Proof. intros Hk. apply keeps_bind_pure; [done|]. by intros ? [= <-]. Qed.
Lemma pure_lift {A} (r : Result A) c : pure_at (lift r) c.
Proof. done. Qed.
Lemma pure_refuse b e m c : pure_at (refuse_if b e m) c.
Proof. done. Qed.
Lemma pure_derived c : pure_at derived c.
Proof. done. Qed.
Lemma pure_ret {A} (a : A) c : pure_at (mret a) c.
Proof. done. Qed.
Create HintDb keeps.
#[export] Hint Resolve pure_lift pure_refuse pure_derived pure_ret keeps_pure : keeps.
Lemma keeps_next_tick c : keeps_at next_tick c.
Proof. intros es [? ? ? ? ? ? ? ? ? ? ?]. exists []. rewrite app_nil_r. by split. Qed.
#[export] Hint Resolve keeps_next_tick : keeps.

(** The combinators of an operation, up to the parts that store something. *)
Ltac keeps_step :=
  match goal with
  | |- keeps_at (get ≫= _) _ => apply keeps_get
  | |- keeps_at (derived ≫= _) _ => apply keeps_bind_pure; [apply pure_derived|intros ? _]
  | |- keeps_at (lift _ ≫= _) _ => apply keeps_bind_pure; [apply pure_lift|intros ? _]
  | |- keeps_at (refuse_if _ _ _ ≫= _) _ => apply keeps_bind_pure; [apply pure_refuse|intros ? _]
  | |- keeps_at (match ?x with _ => _ end) _ => destruct x eqn:?
  | |- keeps_at (let _ := _ in _) _ => cbv zeta
  | |- keeps_at _ _ => solve [eauto with keeps]
  end.

(** ** Every operation keeps the invariant *)

(** Storing an event and then making its effect on the memory. *)
Lemma keeps_commit (e : Event) (f : Impl → Impl) c :
  (∀ l, e ≠ Leased l) →
  (∀ j, let c' := f (with_journal j [] c) in
     config c' = config c ∧ durable c' = durable c ∧ os c' = [] ∧ lease_sequence c' = lease_sequence c ∧
     c_incarnation c' = c_incarnation c ∧ journal c' = j ∧
     (smap_sorted (leases c) → smap_sorted (leases c')) ∧ size (replay c') ≤ kMaxReplayEntries ∧
     apply_event (memory_of c) e = Some (memory_of c')) →
  keeps_at (journal_encoded (event_type e) (encode_event e);; modify f) c.
Proof.
  intros Hne Hf es Hj. destruct (journal_encoded_cases c es e Hj) as [(s & H)|(j & rs & H & Hl)];
    unfold mbind, Op_bind; rewrite H; [by apply keeps_nothing|].
  destruct (Hf j) as (Hc & Hd & Hos & Hs & Hi & Hjo & Hsort & Hlen & Ha).
  exists [e]. apply (journaled_snoc c es e _ rs Hj Hne); cbn [fst modify];
    [by rewrite Hjo|done|rewrite Hd; apply (jr_durable _ _ Hj)|done..|apply Hsort, (jr_sorted _ _ Hj)|done|done].
Qed.

Lemma keeps_record_decision a c : keeps_at (record_decision a) c.
Proof.
  unfold record_decision. repeat keeps_step. unfold mbind, Op_bind.
  intros es Hj.
  destruct (keeps_commit (Recorded a) (λ c, with_artifacts (artifacts c ++ [a]) c) c) with es as [new Hnew];
    [done| |done|].
  - intros j. cbn. split_and!; try done. apply (jr_ledger _ _ Hj).
  - exists new. revert Hnew. unfold mbind, Op_bind. cbn [event_type encode_event].
    by destruct (journal_encoded _ _ c) as [c' [[]|s]].
Qed.
Lemma keeps_record_order a c : keeps_at (record_order a) c.
Proof.
  apply keeps_bind; [apply keeps_record_decision|]. intros. apply keeps_next_tick.
Qed.
#[export] Hint Resolve keeps_record_decision keeps_record_order : keeps.

Definition keeps_fn (f : Impl → Impl) : Prop :=
  ∀ c es, journaled c es → ∃ new, journaled (f c) (es ++ new).
Lemma keeps_record_batch batch : keeps_fn (λ c, (record_batch batch c).1.1).
Proof.
  induction batch as [|a batch IH]; intros c es Hj; [by apply keeps_nothing|]. cbn [record_batch].
  destruct (keeps_record_decision a c es Hj) as [new Hnew].
  destruct (record_decision a c) as [c1 r]. cbn in Hnew.
  destruct (IH c1 _ Hnew) as [more Hmore]. exists (new ++ more). rewrite app_assoc.
  destruct (record_batch batch c1) as [[c2 l] p]. destruct r as [[]|]; exact Hmore.
Qed.
Lemma keeps_decide_loop passes : keeps_fn (λ c, (decide_loop passes c).1).
Proof.
  induction passes as [|passes IH]; intros c es Hj; [by apply keeps_nothing|]. cbn [decide_loop].
  destruct (derive_locked c) as [s|]; [|by apply keeps_nothing].
  cbv zeta. destruct (nonempty _); [|by apply keeps_nothing].
  destruct (keeps_record_batch (decision_batch c s) c es Hj) as [new Hnew].
  destruct (record_batch _ c) as [[c1 l] p]. cbn in Hnew. destruct p; [|by exists new].
  destruct (IH c1 _ Hnew) as [more Hmore]. exists (new ++ more). rewrite app_assoc.
  destruct (decide_loop passes c1). exact Hmore.
Qed.
Lemma journaled_counters c es d r : journaled c es → journaled (with_counters d r c) es.
Proof. by intros []. Qed.

Lemma keeps_admit a c : keeps_at (admit_locked a) c.
Proof.
  intros es Hj. unfold admit_locked.
  destruct (artifact_validate _ _) as [[]|]; [|by apply keeps_nothing].
  destruct (negb _); [by apply keeps_nothing|]. destruct (_ <=? _); [by apply keeps_nothing|].
  destruct (same_present c a); [by apply keeps_nothing, journaled_counters|].
  destruct (encode a) as [bs|] eqn:He; [|by apply keeps_nothing]. cbv zeta.
  destruct (keeps_commit (Recorded a) (λ c, with_artifacts (artifacts c ++ [a]) c) c) with es as [new Hnew];
    [done|intros j; cbn; split_and!; try done; apply (jr_ledger _ _ Hj)|done|].
  revert Hnew. unfold mbind, Op_bind, journal_encoded, lift. cbn [encode_event event_type].
  rewrite He. unfold mbind, Op_bind.
  destruct (journal_append _ bs c) as [c1 [[]|s]] eqn:Ha; cbn [fst modify].
  - intros Hnew. set (c2 := with_artifacts (artifacts c1 ++ [a]) c1) in *.
    assert (∃ more, journaled (decide_locked (if conflicting_present c a then
      with_counters (duplicate_artifacts c2) ((rejected_artifacts c2 + 1) mod 2 ^ 64) c2 else c2)).1
      ((es ++ new) ++ more)) as [more Hmore].
    { apply keeps_decide_loop. destruct (conflicting_present c a); [by apply journaled_counters|done]. }
    exists (new ++ more). rewrite app_assoc.
    destruct (decide_locked _) as [c3 l]. destruct (conflicting_present c a); exact Hmore.
  - intros Hnew. exists new. exact Hnew.
Qed.

Lemma refuse_if_Ok b e m c a : (refuse_if b e m c).2 = Ok a → b = false.
Proof. destruct b; [discriminate|done]. Qed.

Lemma keeps_commit_decision d c : keeps_at (commit_decision d) c.
Proof.
  unfold commit_decision. apply keeps_get. destruct (in_ledger c (ad_request d)); [eauto with keeps|].
  apply keeps_bind_pure; [apply pure_refuse|]. intros [] Hfull%refuse_if_Ok.
  apply (keeps_commit (Decided d)
    (λ c, with_replay (replay c ++ [mkReplay (ad_request d) (decision_digest d) (ad_decided_at d)]) c));
    [done|]. intros j. cbn. split_and!; try done. rewrite size_app. unfold size in *. cbn. lia.
Qed.
Lemma keeps_evaluate r c : keeps_at (evaluate r) c.
Proof.
  unfold evaluate. keeps_step. keeps_step. keeps_step. cbv zeta.
  apply keeps_bind; [|eauto with keeps]. destruct (bool_decide _); [eauto with keeps|].
  apply keeps_bind; [apply keeps_commit_decision|eauto with keeps].
Qed.

Lemma lease_digest_key_id c :
  mkId (take 16 (digest_bytes (lease_digest_key c))) =
  lease_id_at (cfg_federation (config c)) (lease_sequence c).
Proof. done. Qed.
(** The identifier of the next lease is not in use. *)
Definition next_lease_free (c : Impl) : Prop :=
  smap_find (lease_id_at (cfg_federation (config c)) (lease_sequence c)) (leases c) = None.

(** The lease is stored, entered into the table and the sequence moved on. *)
Lemma commit_lease_journaled l c es :
  lease_id l = lease_id_at (cfg_federation (config c)) (lease_sequence c) →
  issuer_incarnation l = c_incarnation c → revoked l = false → next_lease_free c → journaled c es →
  let p := (journal_encoded JournalRecordType.Lease (encode l);;
            modify (λ c, with_leases (smap_insert (lease_id l) l (leases c))
                           ((lease_sequence c + 1) mod 2 ^ 64) c)) c in
  (∃ s, p = (c, Err s)) ∨ journaled p.1 (es ++ [Leased l]).
Proof.
  intros Hid Hinc Hrev Hfree Hj p. subst p.
  destruct (journal_encoded_cases c es (Leased l) Hj) as [(s & H)|(j & rs & H & Hl)];
    cbn [event_type encode_event] in H; unfold mbind, Op_bind; rewrite H; [left; by exists s|right].
  destruct Hj as [Hd Hpath Hos (rs0 & Hlog) Hmem Hsort Hled Hseq Hiss Hcur Hissuers].
  assert (next_sequence (journal c) + 1 = next_sequence j) as Hnext.
  { rewrite (lg_next _ _ _ Hl), (lg_next _ _ _ Hlog).
    pose proof (Forall2_length _ _ _ (lg_stores _ _ _ Hl)) as H1.
    pose proof (Forall2_length _ _ _ (lg_stores _ _ _ Hlog)) as H2.
    rewrite length_app in H1. cbn in H1. unfold size. lia. }
  pose proof (logs_small _ _ _ Hlog) as [_ Hsmall]. unfold u64_max in Hsmall.
  assert ((lease_sequence c + 1) mod 2 ^ 64 = lease_sequence c + 1) as Hplus
    by (apply N.mod_small; lia).
  assert (N.of_nat (length es) + 1 = next_sequence (journal c)) as Hlen.
  { rewrite (lg_next _ _ _ Hlog), (Forall2_length _ _ _ (lg_stores _ _ _ Hlog)). done. }
  split; cbn [fst modify with_leases with_journal durable os journal lease_sequence replay config
    c_incarnation leases]; try done.
  - by exists rs.
  - rewrite remember_app, Hmem. cbn -[smap_find smap_insert smap_fmap].
    rewrite smap_find_fmap. unfold next_lease_free in Hfree. rewrite Hid, Hfree. cbn -[smap_find smap_insert smap_fmap].
    rewrite smap_fmap_insert. done.
  - by apply smap_insert_sorted.
  - rewrite Hplus. lia.
  - rewrite Hplus. intros i l' [Hl'|[-> [= ->]]]%lookup_snoc.
    + destruct (Hiss i l' Hl') as (n & ? & ? & ?). exists n. split_and!; [done|lia|done].
    + exists (lease_sequence c). split_and!; [lia|lia|done].
  - apply elem_of_app. by left.
  - intros l' [Hin|[= ->]%list_elem_of_singleton]%elem_of_app; apply elem_of_app; left; [by apply Hissuers|].
    by rewrite Hinc.
Qed.
Lemma keeps_commit_lease l c :
  lease_id l = lease_id_at (cfg_federation (config c)) (lease_sequence c) →
  issuer_incarnation l = c_incarnation c → revoked l = false → next_lease_free c →
  keeps_at (journal_encoded JournalRecordType.Lease (encode l);;
            modify (λ c, with_leases (smap_insert (lease_id l) l (leases c))
                           ((lease_sequence c + 1) mod 2 ^ 64) c)) c.
Proof.
  intros Hid Hinc Hrev Hfree es Hj.
  destruct (commit_lease_journaled l c es Hid Hinc Hrev Hfree Hj) as [(s & ->)|H]; [by apply keeps_nothing|].
  by exists [Leased l].
Qed.
Lemma op_bind_assoc {A B C} (m : Op A) (k : A → Op B) (h : B → Op C) c :
  (m ≫= λ a, k a ≫= h) c = ((m ≫= k) ≫= h) c.
Proof. unfold mbind, Op_bind. by destruct (m c) as [c' [a|s]]. Qed.
Lemma keeps_assoc {A B C} (m : Op A) (k : A → Op B) (h : B → Op C) c :
  keeps_at ((m ≫= k) ≫= h) c → keeps_at (m ≫= λ a, k a ≫= h) c.
Proof. intros Hk es Hj. rewrite op_bind_assoc. by apply Hk. Qed.
Lemma keeps_issue_lease r c : next_lease_free c → keeps_at (issue_lease r) c.
Proof.
  intros Hfree. unfold issue_lease. repeat keeps_step.
  apply keeps_assoc, keeps_bind; [|eauto using keeps_bind with keeps].
  apply keeps_commit_lease; [done..|exact Hfree].
Qed.

Lemma journal_encoded_same c c' t e :
  durable c' = durable c → os c' = os c → journal c' = journal c →
  (journal_encoded t e c').2 = (journal_encoded t e c).2 ∧
  (journal_encoded t e c').1 =
    with_journal (journal (journal_encoded t e c).1) (os (journal_encoded t e c).1) c'.
Proof.
  intros Hd Ho Hj. assert (with_journal (journal c) (os c) c' = c') as Hc'
    by (rewrite <-Hj, <-Ho; by destruct c').
  unfold journal_encoded, lift, mbind, Op_bind. destruct e; [|split; [done|exact (eq_sym Hc')]].
  unfold journal_append. rewrite Hd, Ho, Hj. destruct (negb _); [split; [done|exact (eq_sym Hc')]|].
  destruct (default _ _). by destruct (append _ _ _ _ _).
Qed.
(** The effect on the memory first, then the record: all is well when the
    record was stored. *)
Lemma late_commit c es e c1 :
  journaled c es → (∀ l, e ≠ Leased l) → journal c1 = journal c → config c1 = config c →
  durable c1 = durable c → os c1 = os c → lease_sequence c1 = lease_sequence c →
  c_incarnation c1 = c_incarnation c → smap_sorted (leases c1) →
  size (replay c1) ≤ kMaxReplayEntries → apply_event (memory_of c) e = Some (memory_of c1) →
  let p := journal_encoded (event_type e) (encode_event e) c1 in
  p.2 = Ok tt → journaled p.1 (es ++ [e]).
Proof.
  intros Hj Hne Hjo Hc Hd Ho Hs Hi Hsort Hled Ha p.
  destruct (journal_encoded_same c c1 (event_type e) (encode_event e) Hd Ho Hjo) as [Hres Hst].
  subst p. rewrite Hres, Hst.
  destruct (journal_encoded_cases c es e Hj) as [(s & H)|(j & rs & H & Hl)]; rewrite H; [done|].
  intros _. apply (journaled_snoc c es e _ rs Hj Hne); try done.
  cbn [with_journal durable]. rewrite Hd. apply (jr_durable _ _ Hj).
Qed.

(** What [revoke_lease] does, written out. *)
Definition revoked_in (l : LeaseId) (found : AuthorityLease) (reason : N) (text : string)
    (c : Impl) : Impl :=
  with_leases (smap_insert l (lease_revoked found (tick c) reason text) (leases c))
    (lease_sequence c) c.
Lemma revoke_lease_eq l reason text c :
  revoke_lease l reason text c =
  match smap_find l (leases c) with
  | None => (c, fail ErrorCode.NotFound "no such lease")
  | Some found =>
      if revoked found then (c, Ok tt)
      else match journal_encoded JournalRecordType.LeaseRevocation (encode_revocation l reason text)
                   (revoked_in l found reason text c) with
           | (c', Ok _) => next_tick c'
           | (c', Err s) => (c', Err s)
           end
  end.
Proof.
  unfold revoke_lease, get, mbind at 1, Op_bind at 1. cbv iota beta.
  destruct (smap_find l (leases c)) as [found|]; [|done]. by destruct (revoked found).
Qed.
(** A revocation that reports success; see [failed_revocation_is_forgotten]. *)
Lemma keeps_revoke_lease l reason text c es :
  journaled c es → (revoke_lease l reason text c).2 = Ok tt →
  ∃ new, journaled (revoke_lease l reason text c).1 (es ++ new).
Proof.
  intros Hj. rewrite revoke_lease_eq.
  destruct (smap_find l (leases c)) as [found|] eqn:Hf; [|done].
  destruct (revoked found) eqn:Hr; [intros _; by apply keeps_nothing|].
  assert (apply_event (memory_of c) (Revoked l reason text) =
    Some (memory_of (revoked_in l found reason text c))) as Ha.
  { cbn -[smap_find smap_insert smap_fmap]. rewrite smap_find_fmap, Hf.
    unfold memory_of. cbn -[smap_find smap_insert smap_fmap]. rewrite <-smap_fmap_insert.
    unfold settled at 1. by rewrite Hr. }
  pose proof (late_commit c es (Revoked l reason text) (revoked_in l found reason text c) Hj
    (λ _, ltac:(done)) eq_refl eq_refl eq_refl eq_refl eq_refl eq_refl
    (smap_insert_sorted _ _ _ (jr_sorted _ _ Hj)) (jr_ledger _ _ Hj) Ha) as Hlate.
  cbn [event_type encode_event] in Hlate.
  destruct (journal_encoded _ _ _) as [c2 [[]|s]]; [|done]. intros _. specialize (Hlate eq_refl).
  destruct (keeps_next_tick _ _ Hlate) as [new Hnew]. exists (Revoked l reason text :: new).
  change (Revoked l reason text :: new) with ([Revoked l reason text] ++ new). rewrite app_assoc. exact Hnew.
Qed.

Lemma keeps_report_observation o c : keeps_at (report_observation o) c.
Proof.
  unfold report_observation. repeat keeps_step. intros es Hj.
  revert es Hj. apply (keeps_assoc _ (λ _, modify _) (λ _, next_tick)).
  apply keeps_bind; [|eauto with keeps]. intros es Hj. revert es Hj.
  intros es Hj. apply (keeps_commit (Observed o)
    (λ c, with_observations (smap_insert (observer o) o (c_observations c)) c)); [done| |done].
  intros j. cbn. split_and!; try done. apply (jr_ledger _ _ Hj).
Qed.
Lemma keeps_advance_time t c : keeps_at (advance_time t) c.
Proof.
  unfold advance_time. repeat keeps_step.
  intros es Hj. assert (journaled (with_tick t c) es) as Hj' by by destruct Hj.
  destruct (journal_encoded_cases _ es (Ticked t) Hj') as [(s & H)|(j & rs & H & Hl)];
    cbn [event_type encode_event] in H; unfold modify, mbind, Op_bind; rewrite H; [by apply keeps_nothing|].
  exists [Ticked t]. apply (journaled_snoc _ es (Ticked t) _ rs Hj'); try done; apply Hj'.
Qed.
Lemma keeps_fence_member m l reason text c : keeps_at (fence_member m l reason text) c.
Proof. unfold fence_member. by repeat keeps_step. Qed.
Lemma keeps_retire_member m l reason text c : keeps_at (retire_member m l reason text) c.
Proof. unfold retire_member. by repeat keeps_step. Qed.
Lemma keeps_advance_epoch e reason text c : keeps_at (advance_epoch e reason text) c.
Proof. unfold advance_epoch. by repeat keeps_step. Qed.
Lemma keeps_complete_reconciliation e c : keeps_at (complete_reconciliation e) c.
Proof. unfold complete_reconciliation. by repeat keeps_step. Qed.

(** ** Loading makes the events true again *)

Lemma decode_prefix_encode {A} `{CodecLaws A} (a : A) bs :
  wire_ok a → encode a = Ok bs → decode_prefix bs = Ok a.
Proof.
  intros Ha Hbs. unfold decode_prefix. pose proof (roundtrip a bs [] Ha Hbs) as Hr.
  rewrite app_nil_r in Hr. by rewrite Hr.
Qed.
Lemma decode_record_encode {A} `{CodecLaws A} what (a : A) bs :
  wire_ok a → encode a = Ok bs → decode_record what bs = Ok a.
Proof. intros Ha Hbs. unfold decode_record. by rewrite (decode_prefix_encode a bs). Qed.
Lemma decode_revocation_encode l reason text bs :
  wire_ok l → reason ≤ u16_max → encode_revocation l reason text = Ok bs →
  decode_revocation bs = Ok (l, (reason, text)).
Proof.
  intros Hl Hreason Hbs. unfold encode_revocation in Hbs. split_enc. unfold decode_revocation.
  match goal with |- mbind _ (?d (?a ++ ?b ++ ?c)) = _ =>
    assert (d (a ++ b ++ c) = Ok ((l, (reason, text)), [])) as -> end; [|done].
  rewrite <-(app_nil_r (_ ++ _ ++ _)). rewrite <-!app_assoc.
  by read_fields.
Qed.
Lemma record_type_of_value t : record_type_of (JournalRecordType.value t) = Some t.
Proof. by destruct t. Qed.

(** A lease as it is after the loop: its revocation, if any, is still to come. *)
Definition pending (R : smap LeaseId (N * string)) (id : LeaseId) (l : AuthorityLease) : AuthorityLease :=
  match smap_find id R with
  | Some (n, text) => lease_revoked l zero n text
  | None => settled l
  end.
Lemma settled_revoked l t n text : settled (lease_revoked l t n text) = lease_revoked l zero n text.
Proof. done. Qed.

Lemma pending_revoked R id l t n text :
  lease_revoked (pending R id l) t n text = lease_revoked l t n text.
Proof.
  unfold pending, settled. destruct (smap_find id R) as [[n' text']|]; [done|]. by destruct (revoked l).
Qed.

(** The state of the loop after the events that make the memory [m], from [c0]. *)
Record loaded (c0 : Impl) (es : list Event) (m : Memory) (l : Loading) : Prop := {
  ld_artifacts : artifacts (ld_impl l) = m_artifacts m;
  ld_observations : c_observations (ld_impl l) = m_observations m;
  ld_replay : replay (ld_impl l) = m_replay m;
  ld_leases : ∀ id, smap_find id (m_leases m) =
    pending (ld_revocations l) id <$> smap_find id (leases (ld_impl l));
  ld_revoked : ∀ id v, smap_find id (ld_revocations l) = Some v →
    is_Some (smap_find id (leases (ld_impl l)));
  ld_sorted : smap_sorted (leases (ld_impl l)) ∧ smap_sorted (m_leases m) ∧
    smap_sorted (ld_revocations l);
  ld_rest : config (ld_impl l) = config c0 ∧ durable (ld_impl l) = durable c0 ∧
    os (ld_impl l) = os c0 ∧ journal (ld_impl l) = journal c0;
  ld_incarnation : (∀ i, Incarnated i ∈ es → value i ≤ highest_incarnation l) ∧
    highest_incarnation l < u64_max;
  ld_sequence : (∀ i x, es !! i = Some (Leased x) → N.of_nat i + 1 ≤ highest_lease_sequence l) ∧
    highest_lease_sequence l ≤ size es
}.

(** A step that changes neither leases nor revocations. *)
Lemma loaded_other c0 es m l e c' n m' :
  loaded c0 es m l → (∀ x, e ≠ Leased x) → (∀ i, e ≠ Incarnated i) →
  artifacts c' = m_artifacts m' → c_observations c' = m_observations m' → replay c' = m_replay m' →
  leases c' = leases (ld_impl l) → m_leases m' = m_leases m →
  config c' = config (ld_impl l) → durable c' = durable (ld_impl l) → os c' = os (ld_impl l) →
  journal c' = journal (ld_impl l) →
  loaded c0 (es ++ [e]) m'
    (mkLoading c' (ld_revocations l) (highest_incarnation l) n (highest_lease_sequence l)).
Proof.
  intros [_ _ _ Hl Hr Hs (H1 & H2 & H3 & H4) [Hi1 Hi2] [Hq1 Hq2]] Hne Hni Ha Ho Hp Hls Hml Hc Hd Hos Hj.
  split; cbn; rewrite ?Hls, ?Hml; try done.
  - split_and!; congruence.
  - split; [|done]. intros i [Hin|Hin%list_elem_of_singleton]%elem_of_app; [by apply Hi1|].
    by destruct (Hni i).
  - split; [|rewrite size_app; unfold size in *; cbn; lia].
    intros i x [Hx|[_ Hx]]%lookup_snoc; [by eapply Hq1|]. by destruct (Hne x).
Qed.

Lemma loaded_lease c0 es m l x seq m' :
  loaded c0 es m l → seq = size es + 1 → apply_event m (Leased x) = Some m' →
  let l1 := with_impl (λ c, with_leases (smap_insert (lease_id x) x (leases c)) (lease_sequence c) c)
              (value (issued_at x)) l in
  loaded c0 (es ++ [Leased x]) m'
    (mkLoading (ld_impl l1) (ld_revocations l1) (highest_incarnation l1) (highest_tick l1)
       (N.max (highest_lease_sequence l1) seq)).
Proof.
  intros [H1 H2 H3 Hl Hr (Hs1 & Hs2 & Hs3) H7 [Hi1 Hi2] [Hq1 Hq2]] -> Ha.
  destruct m as [arts ls obs ledger]. cbn -[smap_find smap_insert] in Ha, H1, H2, H3, Hl, Hs2.
  destruct (smap_find (lease_id x) ls) eqn:Hfree; [done|]. injection Ha as <-.
  assert (smap_find (lease_id x) (leases (ld_impl l)) = None) as Hnone.
  { rewrite Hl in Hfree. by destruct (smap_find _ (leases _)). }
  assert (smap_find (lease_id x) (ld_revocations l) = None) as Hunrevoked.
  { destruct (smap_find _ (ld_revocations l)) eqn:E; [|done].
    destruct (Hr _ _ E) as [? H]. congruence. }
  split; cbn -[smap_find smap_insert size]; try done.
  - intros id. destruct (decide (id = lease_id x)) as [->|Hne].
    + rewrite !smap_find_insert. cbn -[smap_find]. unfold pending. by rewrite Hunrevoked.
    + by rewrite !smap_find_insert_ne.
  - intros id v Hv. destruct (decide (id = lease_id x)) as [->|Hne]; [congruence|].
    rewrite smap_find_insert_ne by done. by eapply Hr.
  - split_and!; try done; by apply smap_insert_sorted.
  - split; [|done]. intros i [Hin|Hin%list_elem_of_singleton]%elem_of_app; [by apply Hi1|done].
  - split; [|rewrite size_app; unfold size in *; cbn; lia].
    intros i y [Hy|[-> [= <-]]]%lookup_snoc; [specialize (Hq1 i y Hy); lia|unfold size; lia].
Qed.

Lemma loaded_revocation c0 es m l id reason text m' :
  loaded c0 es m l → apply_event m (Revoked id reason text) = Some m' →
  loaded c0 (es ++ [Revoked id reason text]) m'
    (mkLoading (ld_impl l) (smap_insert id (reason, text) (ld_revocations l))
       (highest_incarnation l) (highest_tick l) (highest_lease_sequence l)).
Proof.
  intros [H1 H2 H3 Hl Hr (Hs1 & Hs2 & Hs3) H7 [Hi1 Hi2] [Hq1 Hq2]] Ha.
  destruct m as [arts ls obs ledger]. cbn -[smap_find smap_insert] in Ha, H1, H2, H3, Hl, Hs2.
  destruct (smap_find id ls) as [x|] eqn:Hx; [|done]. injection Ha as <-.
  assert (∃ y, smap_find id (leases (ld_impl l)) = Some y ∧ x = pending (ld_revocations l) id y)
    as (y & Hy & ->).
  { rewrite Hl in Hx. destruct (smap_find id (leases _)) as [y|]; [|done]. injection Hx as <-. eauto. }
  split; cbn -[smap_find smap_insert size]; try done.
  - intros k. destruct (decide (k = id)) as [->|Hne].
    + rewrite smap_find_insert, Hy. cbn -[smap_find smap_insert]. unfold pending at 2.
      rewrite smap_find_insert. by rewrite pending_revoked.
    + rewrite !smap_find_insert_ne, Hl by done. destruct (smap_find k (leases _)); [|done].
      cbn -[smap_find smap_insert]. unfold pending. by rewrite smap_find_insert_ne.
  - intros k v. destruct (decide (k = id)) as [->|Hne]; [by rewrite Hy|].
    rewrite smap_find_insert_ne by done. apply Hr.
  - split_and!; try done; by apply smap_insert_sorted.
  - split; [|done]. intros i [Hin|Hin%list_elem_of_singleton]%elem_of_app; [by apply Hi1|done].
  - split; [|rewrite size_app; unfold size in *; cbn; lia].
    intros i y' [Hy'|[_ Hy']]%lookup_snoc; [by eapply Hq1|done].
Qed.

Lemma read_counter {t} (c : BasicCounter t) bs :
  encode c = Ok bs → value c ≤ u64_max → Reader.u64 bs = Ok (value c, []).
Proof.
  intros Hbs Hc. rewrite <-(app_nil_r bs). by apply read_u64.
Qed.

Lemma load_record_loaded c0 es m l e r m' :
  loaded c0 es m l → stores e r → event_ok e → sequence r = size es + 1 →
  apply_event m e = Some m' →
  ∃ l', load_record l r = Ok l' ∧ loaded c0 (es ++ [e]) m' l'.
Proof.
  intros Hl [Ht He] Hok Hseq Ha. unfold load_record. rewrite Ht, record_type_of_value.
  pose proof (ld_artifacts _ _ _ _ Hl) as H1. pose proof (ld_observations _ _ _ _ Hl) as H2.
  pose proof (ld_replay _ _ _ _ Hl) as H3. destruct m as [arts ls obs ledger]. cbn in H1, H2, H3.
  destruct e as [a|x|id reason text|d|o|t|i]; cbn [event_type encode_event event_ok] in *.
  - rewrite (decode_record_encode _ a) by done. eexists. split; [reflexivity|]. injection Ha as <-.
    apply (loaded_other c0 es _ l (Recorded a) _ _ _ Hl); try done. cbn. by rewrite H1.
  - rewrite (decode_record_encode _ x) by done. eexists. split; [reflexivity|]. by eapply loaded_lease.
  - destruct Hok as [Hid Hreason].
    rewrite (decode_revocation_encode id reason text) by done. eexists. split; [reflexivity|].
    by eapply loaded_revocation.
  - rewrite (decode_record_encode _ d) by done. eexists. split; [reflexivity|]. injection Ha as <-.
    apply (loaded_other c0 es _ l (Decided d) _ _ _ Hl); try done. cbn. by rewrite H3.
  - rewrite (decode_record_encode _ o) by done. eexists. split; [reflexivity|]. injection Ha as <-.
    apply (loaded_other c0 es _ l (Observed o) _ _ _ Hl); try done. cbn. by rewrite H2.
  - rewrite (read_counter t) by done. eexists. split; [reflexivity|]. injection Ha as <-.
    by apply (loaded_other c0 es _ l (Ticked t) _ _ _ Hl).
  - rewrite (read_counter i) by (try done; lia). eexists. split; [reflexivity|]. injection Ha as <-.
    destruct Hl as [_ _ _ Hl Hr Hs H7 [Hi1 Hi2] [Hq1 Hq2]]. split; cbn -[size]; try done.
    + split; [|lia]. intros j [Hin|[= ->]%list_elem_of_singleton]%elem_of_app; [|lia].
      specialize (Hi1 j Hin). lia.
    + split; [|rewrite size_app; unfold size in *; cbn; lia].
      intros j y [Hy|[_ Hy]]%lookup_snoc; [by eapply Hq1|done].
Qed.

Lemma load_records_loaded c0 : ∀ es fs rs m l m',
  loaded c0 es m l → Forall2 stores fs rs → Forall event_ok fs →
  (∀ i r, rs !! i = Some r → sequence r = size es + N.of_nat i + 1) →
  remember m fs = Some m' →
  ∃ l', load_records rs l = Ok l' ∧ loaded c0 (es ++ fs) m' l'.
Proof.
  intros es fs. revert es. induction fs as [|e fs IH]; intros es rs m l m' Hl Hst Hok Hseq Hm.
  - apply Forall2_nil_inv_l in Hst as ->. injection Hm as <-. exists l. by rewrite app_nil_r.
  - apply Forall2_cons_inv_l in Hst as (r & rs' & Hr & Hrs & ->).
    apply Forall_cons in Hok as [He Hfs]. cbn [remember] in Hm.
    destruct (apply_event m e) as [m1|] eqn:Ha; [|done].
    destruct (load_record_loaded c0 es m l e r m1 Hl Hr He) as (l1 & Hl1 & Hload); [|done|].
    { specialize (Hseq 0%nat r eq_refl). lia. }
    destruct (IH (es ++ [e]) rs' m1 l1 m' Hload Hrs Hfs) as (l2 & Hl2 & Hload2); [|done|].
    { intros i x Hx. specialize (Hseq (S i) x Hx). rewrite size_app. unfold size in *. cbn. lia. }
    exists l2. cbn [load_records]. rewrite Hl1. unfold mbind, Result_bind. rewrite Hl2.
    by rewrite <-app_assoc in Hload2.
Qed.

(** The revocations applied at the end. *)
Lemma apply_revocations_Ok R : ∀ t m,
  smap_sorted R → smap_sorted m → (∀ id v, smap_find id R = Some v → is_Some (smap_find id m)) →
  ∃ m', apply_revocations R t m = Ok m' ∧ smap_sorted m' ∧
    ∀ id, smap_find id m' = (λ l, match smap_find id R with
                                  | Some (n, text) => lease_revoked l (mkCounter t) n text
                                  | None => l
                                  end) <$> smap_find id m.
Proof.
  induction R as [|[k [n text]] R IH]; intros t m Hs Hm Hdom.
  { exists m. split_and!; [done..|]. intros id. cbn. by destruct (smap_find id m). }
  apply StronglySorted_cons in Hs as [Hbelow Hs].
  pose proof (smap_find_None_below k R Hbelow) as HkR.
  destruct (Hdom k (n, text)) as [x Hx]; [cbn; by rewrite (cmp_refl k)|].
  cbn [apply_revocations]. rewrite Hx.
  destruct (IH t (smap_insert k (lease_revoked x (mkCounter t) n text) m)) as (m' & Hm' & Hs' & Hf).
  - exact Hs.
  - by apply smap_insert_sorted.
  - intros id v Hv. destruct (decide (id = k)) as [->|Hne]; [congruence|].
    rewrite smap_find_insert_ne by done. apply (Hdom id v). cbn.
    destruct (cmp id k) eqn:E; [by apply cmp_eq in E|done..].
  - exists m'. split_and!; [done..|]. intros id. rewrite Hf. cbn [smap_find].
    destruct (decide (id = k)) as [->|Hne].
    + by rewrite smap_find_insert, HkR, Hx, (cmp_refl k).
    + rewrite smap_find_insert_ne by done.
      destruct (cmp id k) eqn:E; [by apply cmp_eq in E|done..].
Qed.

(** ** Restarting *)

Lemma scan_after_previous rs n :
  (∀ i r, rs !! i = Some r → sequence r = n + N.of_nat i + 1) → ∀ s,
  sc_previous s = n → sc_previous (scan_after s rs) = n + size rs.
Proof.
  revert n. induction rs as [|r rs IH]; intros n Hseq s Hs; [cbn; unfold size; cbn; lia|].
  cbn. rewrite (IH (n + 1)).
  - unfold size. cbn. lia.
  - intros i x Hx. specialize (Hseq (S i) x Hx). lia.
  - cbn. specialize (Hseq 0%nat r eq_refl). lia.
Qed.

(** Opening the file again finds the same log. *)
Lemma reopen_logs j es rs :
  logs j es rs → size es ≤ max_records default_options →
  ∃ j', journal_open no_faults (file j) OpenOrCreateReadWrite default_options = Ok j' ∧
    logs j' es rs ∧ rv_writable (recovery j') = true ∧
    load j' (kMaxArtifacts * 4) kMaxJournalRecordBytes = Ok rs.
Proof.
  intros Hl Hmax. pose proof (logs_small _ _ _ Hl) as [Hsmall Hseq].
  destruct Hl as [Hh Hs Hnum Hn Hb]. destruct Hh as [_ _ _ Hfile _ Hfits Hinc Hbefore _].
  assert (size rs = size es) as Hlen by (unfold size; by rewrite (Forall2_length _ _ _ Hs)).
  assert ((0 ≠ 0)%nat → record_fits default_options (mkRecord 1 0 [])) as Hr by done.
  assert (Forall (λ x, sequence x < u64_max) rs) as Hseq'
    by (eapply Forall_impl; [exact Hbefore|]; cbv beta; intros; lia).
  destruct (open_history_torn no_faults default_options rs (mkRecord 1 0 []) 0 eq_refl eq_refl
    (or_introl eq_refl) Hfits Hinc Hr ltac:(lia) (or_introl eq_refl) ltac:(rewrite size_record; lia)
    (or_introl eq_refl) Hseq') as (j' & Hopen & Hj' & _ & Hgood & Hnext).
  rewrite firstn_O, app_nil_r, <-Hfile in Hopen. exists j'. split; [exact Hopen|].
  split; [|split; [by destruct Hj'|]].
  - split; try done. rewrite Hnext, (scan_after_previous rs 0); [lia| |done].
    intros i r Hi. specialize (Hnum i r Hi). lia.
  - change (load j' (max_records default_options) (max_payload_bytes default_options) = Ok rs).
    apply load_history; [done|done|lia].
Qed.

Lemma append_room j es rs t data :
  logs j es rs → size data ≤ kMaxJournalRecordBytes →
  size_bytes j + (size data + 52) ≤ kMaxJournalBytes → (append None None j t data).2 = Ok tt.
Proof.
  intros Hl Hdata Hroom. pose proof (logs_small _ _ _ Hl) as [_ Hseq].
  destruct (lg_holds _ _ _ Hl) as [Ho Hw Hopt _ _ _ _ _ _].
  unfold append. rewrite Ho, Hw, Hopt. cbn [negb]. cbv iota zeta.
  destruct (N.ltb_spec (max_payload_bytes default_options) (size data)) as [Hbig|_];
    [unfold default_options in Hbig; cbn in Hbig; lia|].
  rewrite size_record. cbn [payload]. unfold checked_add_u64.
  destruct (N.ltb_spec (u64_max - size_bytes j) (size data + 52)) as [Hbig|_];
    [unfold u64_max, kMaxJournalBytes, kMaxJournalRecordBytes in *; lia|].
  rewrite (N.mod_small (size_bytes j + _)) by (unfold kMaxJournalBytes in *; lia).
  destruct (N.ltb_spec (max_bytes default_options) (size_bytes j + (size data + 52))) as [Hbig|_];
    [unfold default_options in Hbig; cbn in Hbig; lia|].
  cbn [write_at]. unfold checked_inc_u64. destruct (N.eqb_spec (next_sequence j) u64_max); [lia|done].
Qed.

Lemma loaded_start c0 : artifacts c0 = [] → leases c0 = [] → c_observations c0 = [] → replay c0 = [] →
  loaded c0 [] nothing (mkLoading c0 [] 0 (value (initial_tick (config c0))) 0).
Proof.
  intros Ha Hl Ho Hr. split; cbn; rewrite ?Ha, ?Hl, ?Ho, ?Hr; try done.
  - split_and!; constructor.
  - split; [|done]. by intros i ?%elem_of_nil.
Qed.

(** What the memory of a finished load is. *)
Lemma loaded_memory c0 es m l leases' t :
  loaded c0 es m l → smap_sorted leases' →
  (∀ id, smap_find id leases' = (λ x, match smap_find id (ld_revocations l) with
     | Some (n, text) => lease_revoked x (mkCounter t) n text | None => x end) <$>
       smap_find id (leases (ld_impl l))) →
  smap_fmap settled leases' = m_leases m.
Proof.
  intros Hl Hs Hf. destruct (ld_sorted _ _ _ _ Hl) as (_ & Hm & _).
  apply smap_ext; [by apply smap_fmap_sorted|done|]. intros id.
  rewrite smap_find_fmap, Hf, (ld_leases _ _ _ _ Hl).
  destruct (smap_find id (leases (ld_impl l))); [|done]. cbn -[smap_find]. f_equal. unfold pending.
  by destruct (smap_find id (ld_revocations l)) as [[]|].
Qed.

Lemma apply_incarnated m i : apply_event m (Incarnated i) = Some m.
Proof. by destruct m. Qed.

(** The coordinator that runs the loop of [load_journal] over an open journal. *)
Definition reopened (j : Journal) (cfg : CoordinatorConfig) : Impl :=
  opened j true (RecoveryOutcome.to_string (rv_outcome (recovery j)) +s+ ": " +s+
                 rv_detail (recovery j)) (initial cfg []).
Lemma load_journal_eq cfg file j rs l m' :
  journal_path cfg ≠ "" → journal_open no_faults file OpenOrCreateReadWrite default_options = Ok j →
  rv_writable (recovery j) = true → load j (kMaxArtifacts * 4) kMaxJournalRecordBytes = Ok rs →
  load_records rs (mkLoading (reopened j cfg) [] 0 (value (initial_tick cfg)) 0) = Ok l →
  apply_revocations (ld_revocations l) (highest_tick l) (leases (ld_impl l)) = Ok m' →
  let c1 := resumed l m' (recovery_detail (reopened j cfg)) in
  load_journal (Some file) no_faults (initial cfg []) =
    completed (journal_encoded JournalRecordType.CoordinatorIncarnation (encode (c_incarnation c1)) c1).
Proof.
  intros Hpath Hopen Hwr Hload Hl Hm' c1. subst c1. unfold reopened in *.
  unfold load_journal. cbn [config initial]. rewrite bool_decide_eq_false_2 by done.
  change (default [] (Some file)) with file. rewrite Hopen. unfold mbind at 1, Result_bind at 1. cbv zeta.
  set (c0 := opened j true _ _) in *. rewrite Hwr. cbn [negb fail_if]. unfold mbind at 1, Result_bind at 1.
  rewrite Hload. unfold mbind at 1, Result_bind at 1. change (config c0) with cfg. rewrite Hl.
  unfold mbind at 1, Result_bind at 1. by rewrite Hm'.
Qed.

(** What the loop leaves is the coordinator of before with a new incarnation. *)
Lemma loaded_resumes c es c0 l m' detail :
  journaled c es → loaded c0 es (memory_of c) l →
  config c0 = config c → durable c0 = true → os c0 = [] → size es < 2 ^ 31 →
  apply_revocations (ld_revocations l) (highest_tick l) (leases (ld_impl l)) = Ok m' →
  let c1 := resumed l m' detail in
  memory_of c1 = memory_of c ∧ durable c1 = true ∧ os c1 = [] ∧ journal c1 = journal c0 ∧
  (∀ i, Incarnated i ∈ es → value i < value (c_incarnation c1)) ∧
  ∀ j rs, logs j (es ++ [Incarnated (c_incarnation c1)]) rs →
    journaled (with_journal j [] c1) (es ++ [Incarnated (c_incarnation c1)]).
Proof.
  intros [_ Hpath _ (rs0 & Hlog) Hmem _ Hled _ Hiss _ Hissuers] Hloaded Hc0 Hd0 Ho0 Hsmall Hm' c1.
  destruct (apply_revocations_Ok (ld_revocations l) (highest_tick l) (leases (ld_impl l)))
    as (m & Hm & Hsorted & Hfind); [apply Hloaded|apply Hloaded|apply Hloaded|].
  rewrite Hm' in Hm. injection Hm as <-.
  destruct (ld_rest _ _ _ _ Hloaded) as (Hcfg & Hdur & Hosl & Hjl).
  destruct (ld_incarnation _ _ _ _ Hloaded) as [Hinc1 Hinc2].
  destruct (ld_sequence _ _ _ _ Hloaded) as [Hsq1 Hsq2].
  assert (memory_of c1 = memory_of c) as Hmem1.
  { unfold memory_of at 1. cbn [c1 resumed artifacts leases c_observations replay].
    by rewrite (loaded_memory _ _ _ _ _ _ Hloaded Hsorted Hfind), (ld_artifacts _ _ _ _ Hloaded),
      (ld_observations _ _ _ _ Hloaded), (ld_replay _ _ _ _ Hloaded). }
  assert (value (c_incarnation c1) = highest_incarnation l + 1) as Hinc
    by (cbn; apply N.mod_small; unfold u64_max in Hinc2; lia).
  assert (lease_sequence c1 = highest_lease_sequence l + 1) as Hls
    by (cbn; apply N.mod_small; lia).
  split_and!; [done|cbn; congruence..| |].
  { intros i Hi. specialize (Hinc1 i Hi). lia. }
  intros j rs Hl. assert (config c1 = config c) as Hc1 by (cbn; congruence).
  split; cbn [with_journal durable os journal leases replay lease_sequence config c_incarnation].
  - cbn. congruence.
  - by rewrite Hc1.
  - done.
  - by exists rs.
  - rewrite remember_app, Hmem. unfold mbind, option_bind. cbn [remember].
    rewrite apply_incarnated. unfold mbind, option_bind. cbn [remember].
    change (memory_of (with_journal j [] c1)) with (memory_of c1). by rewrite Hmem1.
  - done.
  - change (replay c1) with (m_replay (memory_of c1)). rewrite Hmem1. exact Hled.
  - rewrite Hls, (lg_next _ _ _ Hl).
    pose proof (Forall2_length _ _ _ (lg_stores _ _ _ Hl)) as Hlen. rewrite length_app in Hlen.
    cbn in Hlen. unfold size in *. lia.
  - rewrite Hc1. intros i x [Hx|[_ Hx]]%lookup_snoc; [|done].
    destruct (Hiss i x Hx) as (n & Hn & _ & Hid). exists n. specialize (Hsq1 i x Hx). rewrite Hls.
    split_and!; [done|lia|done].
  - apply elem_of_app. right. by left.
  - intros x [Hx|[=]%list_elem_of_singleton]%elem_of_app. apply elem_of_app. left. by apply Hissuers.
Qed.

(** The outcome of loading the file of a journaled coordinator. *)
Record reloaded (c : Impl) (es : list Event) (c' : Impl) : Prop := {
  rl_memory : memory_of c' = memory_of c;
  rl_journaled : journaled c' (es ++ [Incarnated (c_incarnation c')]);
  rl_incarnation : ∀ i, Incarnated i ∈ es → value i < value (c_incarnation c')
}.
Lemma reload c es :
  journaled c es → Forall event_ok es → size es ≤ max_records default_options →
  let r := load_journal (Some (file (journal c))) no_faults (initial (config c) []) in
  (∃ c', r = Ok c' ∧ reloaded c es c') ∨
  (∃ s, r = Err s) ∧ kMaxJournalBytes < size_bytes (journal c) + 60.
Proof.
  intros Hj Hok Hmax r. pose proof Hj as [_ Hpath _ (rs & Hlog) Hmem _ _ _ _ _ _].
  destruct (reopen_logs _ _ _ Hlog Hmax) as (j & Hopen & Hlog' & Hwr & Hload).
  set (c0 := reopened j (config c)).
  destruct (load_records_loaded c0 [] es rs nothing
    (mkLoading c0 [] 0 (value (initial_tick (config c))) 0) (memory_of c))
    as (l & Hl & Hloaded); [by apply (loaded_start c0)|by destruct Hlog|done| |done|].
  { intros i x Hi. rewrite (lg_numbered _ _ _ Hlog i x Hi). unfold size. cbn. lia. }
  cbn [app] in Hloaded.
  destruct (apply_revocations_Ok (ld_revocations l) (highest_tick l) (leases (ld_impl l)))
    as (m' & Hm' & _); [apply Hloaded|apply Hloaded|apply Hloaded|].
  pose proof (logs_small _ _ _ Hlog') as [Hsmall _].
  assert (size rs = size es) as Hlen
    by (unfold size; by rewrite (Forall2_length _ _ _ (lg_stores _ _ _ Hlog'))).
  destruct (loaded_resumes c es c0 l m' (recovery_detail c0) Hj Hloaded eq_refl eq_refl eq_refl
    ltac:(lia) Hm') as (H1 & H2 & H3 & H4 & H5 & H6).
  subst r. rewrite (load_journal_eq _ _ _ _ _ _ Hpath Hopen Hwr Hload Hl Hm').
  fold c0. set (c1 := resumed l m' (recovery_detail c0)) in *. change (journal c0) with j in H4.
  set (ev := Incarnated (c_incarnation c1)) in *.
  assert (encode_event ev = Ok (store_le 8 (value (c_incarnation c1)))) as Henc by done.
  assert (journal_encoded JournalRecordType.CoordinatorIncarnation (encode (c_incarnation c1)) c1 =
    let '(j', r) := append None None j (event_type ev) (store_le 8 (value (c_incarnation c1))) in
    (with_journal j' [] c1, r)) as ->.
  { unfold journal_encoded, lift, mbind, Op_bind. change (encode (c_incarnation c1)) with (encode_event ev).
    rewrite Henc. unfold journal_append. by rewrite H2, H3, H4. }
  destruct (append_logs j es rs ev _ Hlog' Henc) as [(s & Ha)|(j' & Ha & Hlog1)]; rewrite Ha.
  - right. split; [by exists s|]. apply N.nle_gt. intros Hroom.
    pose proof (append_room j es rs (event_type ev) (store_le 8 (value (c_incarnation c1))) Hlog') as Hr.
    rewrite Ha in Hr. rewrite size_store_le in Hr.
    assert (size_bytes j = size_bytes (journal c)) as Hbytes by
      by rewrite (holds_size _ _ _ (lg_holds _ _ _ Hlog')), (holds_size _ _ _ (lg_holds _ _ _ Hlog)).
    discriminate Hr; unfold kMaxJournalRecordBytes; lia.
  - left. exists (with_journal j' [] c1). split; [done|]. split; [done|by apply (H6 j' _ Hlog1)|done].
Qed.

(** C3: restarting gives the coordinator its memory back: when the file of a coordinator
    holds its events, loading it succeeds and the artefacts, the leases with their
    revocations, the observations and the replay ledger are those of before, while the
    incarnation is later than every earlier one.  Three conditions are needed: there is
    room in the file for one more record; there are no more records than the journal
    may hold when it is opened (appending does not check that bound); and every event is
    one the loader can read ([event_ok]: fields within their widths, reason codes that
    exist, no incarnation of 2^64 - 1), which [one_message_blocks_restart] shows a
    running coordinator can violate. *)
Theorem restart_restores_memory c es
    (Hj : journaled c es) (Hok : Forall event_ok es)
    (Hmax : size es ≤ max_records default_options)
    (Hroom : size_bytes (journal c) + 60 ≤ kMaxJournalBytes) :
  ∃ c', load_journal (Some (file (journal c))) no_faults (initial (config c) []) = Ok c' ∧
    memory_of c' = memory_of c ∧
    journaled c' (es ++ [Incarnated (c_incarnation c')]) ∧
    ∀ i, Incarnated i ∈ es → value i < value (c_incarnation c').
Proof.
  destruct (reload c es Hj Hok Hmax) as [(c' & Hc' & [])|[_ Hfull]]; [|lia]. by exists c'.
Qed.

(** ** The life of a coordinator *)

(** The operations a caller or a connection may invoke. *)
Inductive Call :=
  | Submit (a : Artifact)
  | Evaluate (r : AuthorityRequest)
  | IssueLease (r : LeaseRequest)
  | RevokeLease (l : LeaseId) (reason : N) (text : string)
  | ReportObservation (o : MemberObservation)
  | AdvanceTime (t : Tick)
  | FenceMember (m : MemberId) (l : Lineage) (reason : N) (text : string)
  | RetireMember (m : MemberId) (l : Lineage) (reason : N) (text : string)
  | AdvanceEpoch (e : Epoch) (reason : N) (text : string)
  | CompleteReconciliation (e : Epoch).

Definition ignoring {A} (m : Op A) : Op unit := _ ← m; mret tt.
Definition run (k : Call) : Op unit :=
  match k with
  | Submit a => ignoring (submit_artifact a)
  | Evaluate r => ignoring (evaluate r)
  | IssueLease r => ignoring (issue_lease r)
  | RevokeLease l reason text => revoke_lease l reason text
  | ReportObservation o => report_observation o
  | AdvanceTime t => advance_time t
  | FenceMember m l reason text => fence_member m l reason text
  | RetireMember m l reason text => retire_member m l reason text
  | AdvanceEpoch e reason text => advance_epoch e reason text
  | CompleteReconciliation e => complete_reconciliation e
  end.
(** A call that leaves the coordinator as it is, and every call but two: a lease
    whose identifier is taken, which takes a collision of the truncated digests, and
    a revocation that changes memory and is then not stored, of which
    [failed_revocation] says what it leaves. *)
Definition regular (k : Call) (c : Impl) : Prop :=
  (run k c).1 = c ∨
  match k with
  | IssueLease _ => next_lease_free c
  | RevokeLease _ _ _ => (run k c).2 = Ok tt
  | _ => True
  end.

Lemma ignoring_state {A} (m : Op A) c : (ignoring m c).1 = (m c).1.
Proof. unfold ignoring, mbind, Op_bind. by destruct (m c) as [c' []]. Qed.
Lemma run_journaled k c es :
  journaled c es → regular k c → ∃ new, journaled (run k c).1 (es ++ new).
Proof.
  intros Hj [->|Hk]; [by apply keeps_nothing|]. destruct k; cbn [run]; rewrite ?ignoring_state.
  - by apply keeps_admit.
  - by apply keeps_evaluate.
  - by apply keeps_issue_lease.
  - by apply keeps_revoke_lease.
  - by apply keeps_report_observation.
  - by apply keeps_advance_time.
  - by apply keeps_fence_member.
  - by apply keeps_retire_member.
  - by apply keeps_advance_epoch.
  - by apply keeps_complete_reconciliation.
Qed.

(** A revocation that fails did not find the lease and leaves everything as it was, or
    it found it, not yet revoked, and could not store the revocation: the lease is then revoked in
    memory and nowhere else. *)
Lemma failed_revocation l reason text c es s :
  journaled c es → (revoke_lease l reason text c).2 = Err s →
  smap_find l (leases c) = None ∧ (revoke_lease l reason text c).1 = c ∨
  ∃ x, smap_find l (leases c) = Some x ∧ revoked x = false ∧
       (revoke_lease l reason text c).1 = revoked_in l x reason text c.
Proof.
  intros Hj. rewrite revoke_lease_eq. destruct (smap_find l (leases c)) as [x|]; [|by left].
  destruct (revoked x) eqn:Hr; [done|]. intros Hfail. right. exists x. split_and!; [done..|].
  destruct (journal_encoded_same c (revoked_in l x reason text c) JournalRecordType.LeaseRevocation
    (encode_revocation l reason text)) as [Hres Hst]; [done..|].
  destruct (journal_encoded_cases c es (Revoked l reason text) Hj) as [(s' & H)|(j & rs & H & _)];
    cbn [event_type encode_event] in H; rewrite H in Hres, Hst; cbn [fst snd] in Hres, Hst;
    destruct (journal_encoded _ _ (revoked_in _ _ _ _ _)) as [c' [[]|]]; try done.
Qed.

(** C4: the coordinator is an event-sourced store, as long as the file takes what is
    written ([journaled]: no write or flush is going to fail; what a failing one leaves
    behind is the subject of Files and of the findings): after any regular call,
    successful or refused, the journal holds the earlier events and some new ones, and
    the artefacts, leases, observations and the replay ledger in memory are what those
    events make true (the clock is not among them).  A call is regular unless it draws
    a lease identifier that is already taken, or it is a revocation that changes memory
    and reports an error; after that one the lease is revoked in memory, and nothing
    else changed: not the journal, which does not hold the revocation. *)
Theorem operations_are_journaled k c es (Hj : journaled c es) :
  (regular k c → ∃ new, journaled (run k c).1 (es ++ new) ∧
     remember (memory_of c) new = Some (memory_of (run k c).1)) ∧
  (∀ l reason text, k = RevokeLease l reason text → ¬ regular k c →
     ∃ x, smap_find l (leases c) = Some x ∧ revoked x = false ∧
          (run k c).1 = revoked_in l x reason text c).
Proof.
  split.
  - intros Hk. destruct (run_journaled k c es Hj Hk) as [new Hnew]. exists new. split; [done|].
    pose proof (jr_memory _ _ Hnew) as Hm. rewrite remember_app, (jr_memory _ _ Hj) in Hm. exact Hm.
  - intros l reason text -> Hirr. destruct (revoke_lease l reason text c).2 as [[]|s] eqn:E.
    + destruct Hirr. by right.
    + destruct (failed_revocation l reason text c es s Hj E) as [[_ Heq]|H]; [|exact H].
      destruct Hirr. by left.
Qed.

(** A restart: the same configuration over the file of the coordinator that ended,
    with no more events than the journal may hold, all within their widths. *)
Record restartable (c : Impl) (es : list Event) : Prop := {
  rs_journaled : journaled c es;
  rs_ok : Forall event_ok es;
  rs_count : size es ≤ max_records default_options
}.
Inductive step : Impl → Impl → Prop :=
  | step_call k c : regular k c → step c (run k c).1
  | step_restart c es c' :
      restartable c es → create (config c) (Some (file (journal c))) no_faults [] = Ok c' → step c c'.

Lemma keeps_ensure_genesis c es c' :
  journaled c es → ensure_genesis c = Ok c' → ∃ new, journaled c' (es ++ new).
Proof.
  intros Hj. unfold ensure_genesis.
  destruct (existsb _ _).
  { intros [= <-]. exists []. rewrite app_nil_r. by destruct Hj. }
  destruct (negb _); [intros [= <-]; by apply keeps_nothing|].
  intros Hr. apply bind_Ok in Hr as ([] & _ & Hr). apply bind_Ok in Hr as ([] & _ & Hr).
  set (g := genesis_artifact c) in *. set (c1 := with_bootstrapped _) in *.
  pose proof (late_commit c es (Recorded g) c1 Hj (λ _, ltac:(done)) eq_refl eq_refl eq_refl eq_refl
    eq_refl eq_refl (jr_sorted _ _ Hj) (jr_ledger _ _ Hj) eq_refl) as Hlate.
  cbn [event_type encode_event] in Hlate.
  destruct (journal_encoded _ _ c1) as [c2 [[]|s]]; [|done]. injection Hr as <-.
  exists [Recorded g]. by apply Hlate.
Qed.
Lemma restart_reloads c es c' :
  restartable c es → create (config c) (Some (file (journal c))) no_faults [] = Ok c' →
  ∃ c1 c2 new, reloaded c es c1 ∧ ensure_genesis c1 = Ok c2 ∧ c' = (decide_locked c2).1 ∧
    journaled c' ((es ++ [Incarnated (c_incarnation c1)]) ++ new).
Proof.
  intros [Hj Hok Hmax] Hc. unfold create in Hc.
  apply bind_Ok in Hc as ([] & _ & Hc). apply bind_Ok in Hc as (c1 & Hload & Hc).
  apply bind_Ok in Hc as (c2 & Hgen & Hc). injection Hc as <-.
  destruct (reload c es Hj Hok Hmax) as [(c1' & Hc1 & Hr)|[(s & Hs) _]]; [|congruence].
  assert (c1' = c1) as -> by congruence. exists c1, c2.
  destruct (keeps_ensure_genesis c1 _ c2 (rl_journaled _ _ _ Hr) Hgen) as [g Hg].
  destruct (keeps_decide_loop (N.to_nat (kMaxMembers + 2)) c2 _ Hg) as [new Hnew].
  exists (g ++ new). split_and!; [done..|]. by rewrite app_assoc.
Qed.

(** ** What lasts *)

(** Nothing is forgotten: artefacts and decisions stay, in their order, and a lease
    stays with its issuer, revoked if it was. *)
Record grows (m m' : Memory) : Prop := {
  gw_artifacts : m_artifacts m `prefix_of` m_artifacts m';
  gw_replay : m_replay m `prefix_of` m_replay m';
  gw_leases : ∀ id l, smap_find id (m_leases m) = Some l → ∃ l', smap_find id (m_leases m') = Some l' ∧
    (revoked l = true → revoked l' = true) ∧ issuer_incarnation l' = issuer_incarnation l
}.
#[export] Instance grows_preorder : PreOrder grows.
Proof.
  split; [intros m; split; [done..|by eauto]|]. intros a b c [A1 R1 L1] [A2 R2 L2].
  split; [by etransitivity..|]. intros id l Hl.
  destruct (L1 id l Hl) as (l1 & Hl1 & Hr1 & Hi1). destruct (L2 id l1 Hl1) as (l2 & Hl2 & Hr2 & Hi2).
  exists l2. split_and!; [done|auto|congruence].
Qed.
Lemma apply_event_grows m e m' : apply_event m e = Some m' → grows m m'.
Proof.
  destruct m as [arts ls obs ledger]. destruct e; cbn -[smap_find smap_insert]; intros Ha;
    try (injection Ha as <-; split; cbn -[smap_find smap_insert];
         [by try apply prefix_app_r|by try apply prefix_app_r|by eauto]).
  - destruct (smap_find (lease_id l) ls) eqn:Hf; [done|]. injection Ha as <-.
    split; cbn -[smap_find smap_insert]; [done..|]. intros id x Hx.
    rewrite smap_find_insert_ne by congruence. eauto.
  - destruct (smap_find l ls) as [y|] eqn:Hf; [|done]. injection Ha as <-.
    split; cbn -[smap_find smap_insert]; [done..|]. intros id x Hx.
    destruct (decide (id = l)) as [->|Hne].
    + rewrite smap_find_insert. eexists. split; [done|]. split; [done|]. cbn. congruence.
    + rewrite smap_find_insert_ne by done. eauto.
Qed.
Lemma remember_grows es : ∀ m m', remember m es = Some m' → grows m m'.
Proof.
  induction es as [|e es IH]; intros m m' Hm; [by injection Hm as <-|].
  cbn [remember] in Hm. destruct (apply_event m e) as [m1|] eqn:Ha; [|done].
  transitivity m1; [by eapply apply_event_grows|by apply IH].
Qed.
Lemma journaled_grows c es c' new :
  journaled c es → journaled c' (es ++ new) → grows (memory_of c) (memory_of c').
Proof.
  intros Hj Hnew. pose proof (jr_memory _ _ Hnew) as Hm.
  rewrite remember_app, (jr_memory _ _ Hj) in Hm. by eapply remember_grows.
Qed.
Lemma step_journaled c es c' :
  journaled c es → step c c' → ∃ es', journaled c' es' ∧ grows (memory_of c) (memory_of c').
Proof.
  intros Hj Hs. destruct Hs as [k c Hk|c es' c1 Hrs Hc].
  - destruct (run_journaled k c es Hj Hk) as [new Hnew]. exists (es ++ new).
    split; [done|by eapply journaled_grows].
  - destruct (restart_reloads _ _ _ Hrs Hc) as (c2 & _ & new & [Hm Hj2 _] & _ & _ & Hnew).
    eexists. split; [exact Hnew|]. rewrite <-Hm. by eapply journaled_grows.
Qed.
Lemma steps_journaled c c' :
  rtc step c c' → ∀ es, journaled c es → ∃ es', journaled c' es' ∧ grows (memory_of c) (memory_of c').
Proof.
  induction 1 as [c|c c1 c2 Hs _ IH]; intros es Hj; [by exists es|].
  destruct (step_journaled _ _ _ Hj Hs) as (es1 & Hj1 & Hg1).
  destruct (IH _ Hj1) as (es2 & Hj2 & Hg2). exists es2. split; [done|by etransitivity].
Qed.

Lemma settled_same l :
  revoked (settled l) = revoked l ∧ issuer_incarnation (settled l) = issuer_incarnation l.
Proof. unfold settled. by destruct (revoked l) eqn:H. Qed.
Lemma grows_lease c c' id l :
  grows (memory_of c) (memory_of c') → smap_find id (leases c) = Some l →
  ∃ l', smap_find id (leases c') = Some l' ∧
    (revoked l = true → revoked l' = true) ∧ issuer_incarnation l' = issuer_incarnation l.
Proof.
  intros [_ _ Hl] Hf. specialize (Hl id (settled l)). cbn [memory_of m_leases] in Hl.
  rewrite !smap_find_fmap, Hf in Hl. destruct (Hl eq_refl) as (l' & Hl' & H1 & H2).
  destruct (smap_find id (leases c')) as [x|]; [|done]. injection Hl' as <-. exists x.
  destruct (settled_same l) as [Hl1 Hl2], (settled_same x) as [Hx1 Hx2].
  rewrite Hl1, Hx1 in H1. by rewrite Hl2, Hx2 in H2.
Qed.


(** ** A request is decided once *)

Lemma has_replay_state i r e :
  derive_state i = Ok r → size (in_replay_ledger i) ≤ kMaxReplayEntries →
  e ∈ in_replay_ledger i →
  has_replay (state r) (request e) = true ∧ federation (state r) = in_federation i.
Proof.
  intros Hr Hsize Hin.
  assert (e ∈ replay_ledger (state r) ∧ federation (state r) = in_federation i) as [Hl ?].
  2: { split; [|done]. unfold has_replay. apply existsb_exists. exists e.
       split; [by apply list_elem_of_In|by apply bool_decide_eq_true]. }
  unfold derive_state in Hr. destruct (in_policy i); [|done]. destruct (in_catalog i); [|done].
  cbv zeta in Hr. destruct (kMaxMembers <? _); [done|].
  unfold ledger_of in Hr.
  pose proof (length_std_unique (sort_by request (in_replay_ledger i))) as Hlen.
  rewrite length_sort_by in Hlen.
  destruct (N.ltb_spec kMaxReplayEntries (size (std_unique (sort_by request (in_replay_ledger i)))))
    as [Hbig|_]; [unfold size in *; lia|].
  injection Hr as <-. cbn [state replay_ledger federation]. by rewrite elem_of_std_unique, elem_of_sort_by.
Qed.

Definition meaningful (v : Verdict) : Prop := v ≠ Stops Outcome.Invalid.
Lemma then_verdict_meaningful v w : meaningful v → meaningful w → meaningful (then_verdict v w).
Proof. by destruct v. Qed.
Lemma member_verdict_meaningful r s p cat m : meaningful (member_verdict r s p cat m).
Proof.
  unfold member_verdict. repeat apply then_verdict_meaningful; unfold meaningful.
  - by destruct (ms_lifecycle m).
  - by destruct (compare_identities _ _).
  - unfold delegation_verdict, not_held_verdict. by repeat case_match.
  - unfold lease_verdict, view_verdict. by repeat case_match.
  - unfold partition_verdict. by case_match.
  - unfold degraded_verdict. by case_match.
  - done.
Qed.
Lemma decision_table_valid r s p cat : decision_table r s p cat ≠ Outcome.Invalid.
Proof.
  unfold decision_table. destruct (negb _); [done|]. destruct (has_replay _ _); [done|].
  destruct (cmp _ _); [|done..]. destruct (negb _); [done|]. destruct (bool_decide _); [done|].
  destruct (find_member _ _) as [m|]; [|done].
  pose proof (member_verdict_meaningful r s p cat m) as Hm. unfold meaningful in Hm.
  destruct (member_verdict _ _ _ _ m); congruence.
Qed.
Lemma evaluate_Ok r c c1 d :
  evaluate r c = (c1, Ok d) →
  ∃ s c2, derive_locked c = Ok s ∧ d = evaluate_authority r s (c_policy c) (catalog c) ∧
    commit_decision d c = (c2, Ok tt) ∧ c1 = (next_tick c2).1.
Proof.
  unfold evaluate, derived, get, refuse_if, lift, fail_if. unfold mbind at 1, Op_bind at 1.
  destruct (is_nil _); [discriminate|]. cbv iota beta. unfold mbind at 1, Op_bind at 1.
  destruct (derive_locked c) as [s|]; [|discriminate]. cbv iota beta.
  unfold mbind at 1, Op_bind at 1. cbv iota beta zeta.
  destruct (evaluation_shape r s (c_policy c) (catalog c)) as (_ & Ho & _).
  rewrite Ho, bool_decide_eq_false_2 by apply decision_table_valid.
  unfold mbind, Op_bind. set (d' := evaluate_authority _ _ _ _).
  destruct (commit_decision d' c) as [c2 [[]|]] eqn:Hc; [|discriminate].
  intros [= <- <-]. by exists s, c2.
Qed.
Lemma commit_decision_ledger d c c' :
  commit_decision d c = (c', Ok tt) → ad_request d ∈ request <$> replay c'.
Proof.
  unfold commit_decision, get, refuse_if, lift, fail_if. unfold mbind at 1, Op_bind at 1. cbv iota beta.
  unfold in_ledger. destruct (existsb _ _) eqn:He.
  - intros [= <-]. apply existsb_exists in He as (e & He & Heq). apply bool_decide_eq_true in Heq.
    apply list_elem_of_fmap. exists e. by rewrite list_elem_of_In.
  - unfold mbind at 1, Op_bind at 1. destruct (kMaxReplayEntries <=? _); [discriminate|]. cbv iota beta.
    unfold mbind, Op_bind. destruct (journal_encoded _ _ c) as [c2 [[]|]]; [|discriminate].
    intros [= <-]. cbn. rewrite fmap_app. apply elem_of_app. right. by left.
Qed.

(** C5: a request identifier obtains authority at most once, in this run or any
    later one: once a request was answered, every other request that carries its
    identifier is answered with REPLAYED, or refused when it names another
    federation, whatever was called in between and however often the coordinator
    was restarted from its journal. *)
Theorem request_is_decided_once r r' c c1 c2 c3 es d d'
    (Hj : journaled c es) (Hfirst : evaluate r c = (c1, Ok d)) (Hlater : rtc step c1 c2)
    (Hsecond : evaluate r' c2 = (c3, Ok d')) (Hid : rq_id r' = rq_id r) :
  ad_outcome d' = Outcome.Replayed ∨
  ad_outcome d' = Outcome.Refused ∧ rq_federation r' ≠ cfg_federation (config c2).
Proof.
  destruct (keeps_evaluate r c es Hj) as [new Hj1]. rewrite Hfirst in Hj1. cbn [fst] in Hj1.
  destruct (evaluate_Ok _ _ _ _ Hfirst) as (s & c0 & _ & Hd & Hcommit & Hc1).
  apply commit_decision_ledger in Hcommit.
  assert (ad_request d = rq_id r) as Hreq.
  { rewrite Hd. destruct (evaluation_shape r s (c_policy c) (catalog c)) as ([Hq _ _ _ _ _ _] & _). exact Hq. }
  destruct (steps_journaled _ _ Hlater _ Hj1) as (es2 & Hj2 & [_ [l Hl] _]).
  cbn [memory_of m_replay] in Hl.
  assert (rq_id r ∈ request <$> replay c2) as Hin.
  { rewrite Hl, fmap_app. apply elem_of_app. left. rewrite Hc1, <-Hreq. exact Hcommit. }
  apply list_elem_of_fmap in Hin as (e & He & Hin).
  destruct (evaluate_Ok _ _ _ _ Hsecond) as (s2 & _ & Hs2 & -> & _).
  unfold derive_locked in Hs2. apply bind_Ok in Hs2 as (res & Hres & [= <-]).
  destruct (has_replay_state _ _ e Hres (jr_ledger _ _ Hj2) Hin) as [Hrep Hfed].
  destruct (evaluation_shape r' (state res) (c_policy c2) (catalog c2)) as (_ & -> & _).
  unfold decision_table. rewrite Hid, He, Hrep, Hfed. cbn [in_federation derivation_inputs].
  case_bool_decide; [by left|by right].
Qed.

(** ** Leases over time *)

(** C15: a revocation that was stored is never undone: on a coordinator whose memory
    is what its journal holds (so that no earlier revocation failed, see
    [failed_revocation_is_forgotten]), once [revoke_lease] reported success the lease
    is known and evaluates to REVOKED in every later state, whatever regular calls
    come in between, without write faults, and however often the coordinator is
    restarted from its journal. *)
Theorem revocation_is_never_undone l reason text c c1 c2 es
    (Hj : journaled c es) (Hrevoke : revoke_lease l reason text c = (c1, Ok tt))
    (Hlater : rtc step c1 c2) :
  ∃ x, smap_find l (leases c2) = Some x ∧
    ∀ e now, le_state (evaluate_lease_whole x e (c_incarnation c2) now) = LeaseState.Revoked.
Proof.
  destruct (keeps_revoke_lease l reason text c es Hj) as [new Hj1]; [by rewrite Hrevoke|].
  assert (∃ y, smap_find l (leases c1) = Some y ∧ revoked y = true) as (y & Hy & Hr).
  { rewrite revoke_lease_eq in Hrevoke.
    destruct (smap_find l (leases c)) as [found|] eqn:Hf; [|discriminate].
    destruct (revoked found) eqn:Hr; [injection Hrevoke as <-; by exists found|].
    destruct (journal_encoded_same (revoked_in l found reason text c) (revoked_in l found reason text c)
      JournalRecordType.LeaseRevocation (encode_revocation l reason text)) as [_ Hframe]; [done..|].
    destruct (journal_encoded _ _ _) as [c' [[]|]]; [|discriminate]. cbn [fst] in Hframe.
    injection Hrevoke as <-. rewrite Hframe. cbn [next_tick modify fst with_tick leases with_journal
      revoked_in with_leases]. rewrite smap_find_insert. by eexists. }
  rewrite Hrevoke in Hj1. destruct (steps_journaled _ _ Hlater _ Hj1) as (es2 & _ & Hgrows).
  destruct (grows_lease _ _ l y Hgrows Hy) as (x & Hx & Hrx & _). exists x. split; [done|].
  intros e now. unfold evaluate_lease_whole, evaluate_common. by rewrite (Hrx Hr).
Qed.

(** What every recorded decision preserves, the whole loop preserves. *)
Section decide_rel.
Context (R : Impl → Impl → Prop) `{!PreOrder R} (HR : ∀ a c, R c (record_decision a c).1).
Lemma record_batch_rel batch : ∀ c, R c (record_batch batch c).1.1.
Proof.
  induction batch as [|a batch IH]; intros c; [done|]. cbn [record_batch].
  pose proof (HR a c) as H1. destruct (record_decision a c) as [c1 r]. cbn in H1.
  specialize (IH c1). destruct (record_batch batch c1) as [[c2 l] p]. cbn in IH.
  destruct r as [[]|]; by transitivity c1.
Qed.
Lemma decide_loop_rel passes : ∀ c, R c (decide_loop passes c).1.
Proof.
  induction passes as [|passes IH]; intros c; [done|]. cbn [decide_loop].
  destruct (derive_locked c); [|done]. cbv zeta. destruct (nonempty _); [|done].
  pose proof (record_batch_rel (decision_batch c a) c) as H1.
  destruct (record_batch _ c) as [[c1 l] p]. cbn in H1. destruct p; [|done].
  specialize (IH c1). destruct (decide_loop passes c1). by transitivity c1.
Qed.
End decide_rel.

(** What recording decisions leaves alone. *)
Definition same_run (c c' : Impl) : Prop :=
  leases c' = leases c ∧ c_incarnation c' = c_incarnation c ∧ tick c' = tick c ∧ replay c' = replay c.
#[export] Instance same_run_preorder : PreOrder same_run.
Proof. split; [done|]. intros a b c (? & ? & ? & ?) (? & ? & ? & ?). repeat split; congruence. Qed.
Lemma journal_encoded_run t e c : same_run c (journal_encoded t e c).1.
Proof.
  destruct (journal_encoded_same c c t e) as [_ ->]; [done..|]. done.
Qed.
Lemma record_decision_run a c : same_run c (record_decision a c).1.
Proof.
  unfold record_decision, get, lift. unfold mbind at 1, Op_bind at 1. cbv iota beta.
  unfold mbind at 1, Op_bind at 1. destruct (artifact_validate _ _); [|done].
  destruct (has_evidence _ _); [done|]. unfold mbind, Op_bind.
  pose proof (journal_encoded_run JournalRecordType.Artifact (encode a) c) as Hr.
  by destruct (journal_encoded _ _ c) as [c' [[]|]].
Qed.
Lemma decide_loop_run passes c : same_run c (decide_loop passes c).1.
Proof. apply (decide_loop_rel same_run), record_decision_run. Qed.
Lemma ensure_genesis_run c c' : ensure_genesis c = Ok c' → same_run c c'.
Proof.
  unfold ensure_genesis. destruct (existsb _ _); [by intros [= <-]|].
  destruct (negb _); [by intros [= <-]|]. intros Hr.
  apply bind_Ok in Hr as ([] & _ & Hr). apply bind_Ok in Hr as ([] & _ & Hr).
  set (c1 := with_bootstrapped _) in *.
  pose proof (journal_encoded_run JournalRecordType.Artifact (encode (genesis_artifact c)) c1) as H.
  destruct (journal_encoded _ _ c1) as [c2 [[]|]]; [|done]. by injection Hr as <-.
Qed.

Lemma leased_before m es m' id x :
  remember m es = Some m' → smap_find id (m_leases m') = Some x →
  (∃ y, smap_find id (m_leases m) = Some y ∧ issuer_incarnation x = issuer_incarnation y) ∨
  ∃ l, Leased l ∈ es ∧ issuer_incarnation x = issuer_incarnation l.
Proof.
  revert m. induction es as [|e es IH]; intros m Hm Hx; [injection Hm as <-; left; eauto|].
  cbn [remember] in Hm. destruct (apply_event m e) as [m1|] eqn:Ha; [|done].
  destruct (IH m1 Hm Hx) as [(y & Hy & Hi)|(l & Hl & Hi)]; [|right; exists l; split; [by right|done]].
  destruct m as [arts ls obs ledger]. destruct e; cbn -[smap_find smap_insert] in *;
    try (injection Ha as <-; left; by eauto).
  - destruct (smap_find (lease_id l) ls) eqn:Hf; [done|]. injection Ha as <-.
    cbn -[smap_find smap_insert] in Hy. destruct (decide (id = lease_id l)) as [->|Hne].
    + rewrite smap_find_insert in Hy. injection Hy as <-. right. exists l. split; [by left|].
      rewrite Hi. apply (settled_same l).
    + rewrite smap_find_insert_ne in Hy by done. left. eauto.
  - destruct (smap_find l ls) as [z|] eqn:Hf; [|done]. injection Ha as <-.
    cbn -[smap_find smap_insert] in Hy. destruct (decide (id = l)) as [->|Hne].
    + rewrite smap_find_insert in Hy. injection Hy as <-. left. by exists z.
    + rewrite smap_find_insert_ne in Hy by done. left. eauto.
Qed.

(** C16: no lease outlives the run that issued it: after a restart every lease in
    the table is historical, since its issuer is an earlier incarnation, and none
    of them evaluates to VALID at any epoch and time. *)
Theorem leases_end_with_the_run c es c' id l e now
    (Hr : restartable c es)
    (Hrestart : create (config c) (Some (file (journal c))) no_faults [] = Ok c')
    (Hl : smap_find id (leases c') = Some l) :
  value (issuer_incarnation l) < value (c_incarnation c') ∧
  le_state (evaluate_lease_whole l e (c_incarnation c') now) ≠ LeaseState.Valid.
Proof.
  assert (value (issuer_incarnation l) < value (c_incarnation c')) as Hlt.
  { pose proof (rs_journaled _ _ Hr) as Hj.
    destruct (restart_reloads _ _ _ Hr Hrestart) as (c1 & c2 & new & [Hmem _ Hinc] & Hgen & -> & _).
    destruct (decide_loop_run (N.to_nat (kMaxMembers + 2)) c2) as (HL & HI & _).
    destruct (ensure_genesis_run _ _ Hgen) as (HL2 & HI2 & _).
    unfold decide_locked in *. rewrite HI, HI2. rewrite HL, HL2 in Hl.
    assert (smap_find id (m_leases (memory_of c)) = Some (settled l)) as Hm.
    { rewrite <-Hmem. cbn [memory_of m_leases]. by rewrite smap_find_fmap, Hl. }
    destruct (leased_before nothing es _ _ _ (jr_memory _ _ Hj) Hm) as [(y & Hy & _)|(x & Hx & Hi)]; [done|].
    rewrite <-(proj2 (settled_same l)), Hi. by apply Hinc, (jr_issuers _ _ Hj). }
  split; [done|]. unfold evaluate_lease_whole, evaluate_common.
  destruct (revoked l); [done|]. rewrite bool_decide_eq_false_2; [done|]. intros Heq. rewrite Heq in Hlt. lia.
Qed.
