(* ===== verification/Operations.v ===== *)
(** * What the operations of the coordinator promise

    Properties of src/coordinator.cpp beyond its store: a fresh coordinator is
    journaled, repeated submissions change nothing, admissions are warranted,
    and where a reported success or failure says less than it seems to. *)

From stdpp Require Import relations.
From S2P Require Import Prelude Errors Sha256 Text Codec Ids Names Scope Capability Policy Identity.
From S2P Require Import Explanation Lease Partition Evidence Membership Journal State Derivation.
From S2P Require Import Authority Coordinator Recovery.

(** ** The first start *)

Lemma history_nil : make_header_bytes = history [].
Proof. unfold history. change (frames []) with (@nil byte). symmetry. apply app_nil_r. Qed.
Definition first_journal : Journal :=
  mkJournal true make_header_bytes default_options
    (mkRecovery RecoveryOutcome.Empty kJournalHeaderBytes 0 0 true "fresh journal" [])
    kJournalHeaderBytes 1.
Lemma first_journal_holds : journal_holds default_options first_journal [].
Proof.
  constructor; cbn [first_journal is_open recovery rv_writable options file size_bytes next_sequence];
    [reflexivity|reflexivity|reflexivity|exact history_nil| |constructor|constructor|constructor|reflexivity].
  rewrite <-history_nil. symmetry. apply size_header.
Qed.
Lemma first_journal_logs : logs first_journal [] [].
Proof.
  constructor; [exact first_journal_holds|constructor|intros i r [=]|reflexivity|].
  rewrite <-history_nil, size_header. vm_compute. discriminate.
Qed.
Lemma first_journal_loads :
  load first_journal (kMaxArtifacts * 4) kMaxJournalRecordBytes = Ok [].
Proof.
  apply (load_history default_options first_journal [] first_journal_holds).
  - rewrite <-history_nil. symmetry. apply size_header.
  - vm_compute. discriminate.
Qed.
Lemma first_journal_opens :
  journal_open no_faults [] OpenOrCreateReadWrite default_options = Ok first_journal.
Proof. reflexivity. Qed.
(** The coordinator before it stores its first incarnation. *)
Definition unstarted (cfg : CoordinatorConfig) : Impl :=
  resumed (mkLoading (opened first_journal true "x" (initial cfg [])) [] 0 (value (initial_tick cfg)) 0) []
    "fresh journal created".

Lemma load_fresh cfg :
  journal_path cfg ≠ "" →
  load_journal None no_faults (initial cfg []) =
    completed (journal_encoded JournalRecordType.CoordinatorIncarnation
                 (encode (c_incarnation (unstarted cfg))) (unstarted cfg)).
Proof.
  intros Hpath. unfold load_journal. cbn [config initial]. rewrite bool_decide_eq_false_2 by exact Hpath.
  change (default [] None) with (@nil byte). rewrite first_journal_opens.
  unfold mbind at 1, Result_bind at 1. cbv zeta. cbn [recovery first_journal rv_writable].
  cbn [negb fail_if]. unfold mbind at 1, Result_bind at 1.
  rewrite first_journal_loads. reflexivity.
Qed.

Lemma loaded_fresh cfg c :
  journal_path cfg ≠ "" → load_journal None no_faults (initial cfg []) = Ok c →
  (config c = cfg ∧ c_incarnation c = mkCounter 1 ∧ lease_sequence c = 1 ∧ leases c = []) ∧
  journaled c [Incarnated (mkCounter 1)].
Proof.
  intros Hpath. rewrite (load_fresh cfg Hpath). set (c1 := unstarted cfg).
  set (e := Incarnated (c_incarnation c1)).
  assert (encode_event e = Ok (store_le 8 (value (c_incarnation c1)))) as Henc by reflexivity.
  change (encode (c_incarnation c1)) with (encode_event e).
  unfold journal_encoded, lift, mbind, Op_bind. rewrite Henc. unfold journal_append.
  change (durable c1) with true. change (os c1) with (@nil (WriteFault * Fault)).
  change (journal c1) with first_journal. cbn [negb head default tail].
  change JournalRecordType.CoordinatorIncarnation with (event_type e).
  destruct (append_logs first_journal [] [] e _ first_journal_logs Henc) as [(s & ->)|(j & -> & Hl)];
    [discriminate|].
  intros [= <-]. split; [repeat split|].
  constructor; cbn [with_journal durable os journal leases replay lease_sequence config c_incarnation];
    [reflexivity|exact Hpath|reflexivity|eexists; exact Hl|reflexivity|apply SSorted_nil
    |vm_compute; discriminate| | | |].
  - rewrite (lg_next _ _ _ Hl). vm_compute. discriminate.
  - intros i l Hi. apply list_lookup_singleton_Some in Hi as [_ Hi]. discriminate Hi.
  - by left.
  - intros l Hin%list_elem_of_singleton. discriminate Hin.
Qed.

Lemma fresh_journaled cfg c :
  journal_path cfg ≠ "" → create cfg None no_faults [] = Ok c → ∃ es, journaled c es.
Proof.
  intros Hpath Hc. unfold create in Hc. apply bind_Ok in Hc as ([] & _ & Hc).
  apply bind_Ok in Hc as (c1 & Hload & Hc). apply bind_Ok in Hc as (c2 & Hgen & [= <-]).
  destruct (loaded_fresh cfg c1 Hpath Hload) as [_ Hj].
  destruct (keeps_ensure_genesis c1 _ c2 Hj Hgen) as [g Hg].
  destruct (keeps_decide_loop (N.to_nat (kMaxMembers + 2)) c2 _ Hg) as [new Hnew]. eauto.
Qed.

(** C19: the store invariant is an invariant of the program: a coordinator that was
    created over a new journal that takes every write is, after any sequence of regular
    calls and of restarts, at every moment the memory its journal would bring back.  The
    calls that are not regular are those of [operations_are_journaled]: a lease whose
    identifier collides, and a revocation that reports an error after it changed
    memory, which breaks the invariant. *)
Theorem coordinator_is_journaled cfg c c'
    (Hpath : journal_path cfg ≠ "") (Hfresh : create cfg None no_faults [] = Ok c)
    (Hsteps : rtc step c c') :
  ∃ es, journaled c' es ∧ remember nothing es = Some (memory_of c').
Proof.
  destruct (fresh_journaled cfg c Hpath Hfresh) as [es Hj].
  destruct (steps_journaled c c' Hsteps es Hj) as (es' & Hj' & _).
  exists es'. split; [exact Hj'|exact (jr_memory _ _ Hj')].
Qed.

(** ** What an operation leaves alone *)

Record grown (c c' : Impl) : Prop := {
  gr_config : config c' = config c;
  gr_catalog : catalog c' = catalog c;
  gr_policy : c_policy c' = c_policy c;
  gr_artifacts : artifacts c `prefix_of` artifacts c'
}.
#[export] Instance grown_preorder : PreOrder grown.
Proof.
  split; [by split|]. intros a b c [A1 A2 A3 A4] [B1 B2 B3 B4]. split; [congruence..|by etransitivity].
Qed.
Lemma grown_journal j f c : grown c (with_journal j f c).
Proof. by split. Qed.
Lemma journal_encoded_grown t e c : grown c (journal_encoded t e c).1.
Proof. destruct (journal_encoded_same c c t e) as [_ ->]; [done..|]. by split. Qed.
Lemma record_decision_grown a c : grown c (record_decision a c).1.
Proof.
  unfold record_decision, get, lift. unfold mbind at 1, Op_bind at 1. cbv iota beta.
  unfold mbind at 1, Op_bind at 1. destruct (artifact_validate _ _); [|done].
  destruct (has_evidence _ _); [done|]. unfold mbind, Op_bind.
  pose proof (journal_encoded_grown JournalRecordType.Artifact (encode a) c) as Hr.
  destruct (journal_encoded _ _ c) as [c' [[]|]]; [|done]. cbn in *.
  transitivity c'; [done|]. split; try done. by apply prefix_app_r.
Qed.
Lemma decide_locked_grown c : grown c (decide_locked c).1.
Proof. apply (decide_loop_rel grown), record_decision_grown. Qed.

(** ** Submitting twice *)

Lemma same_present_elem c a : a ∈ artifacts c → same_present c a = true.
Proof.
  intros Ha. apply existsb_exists. exists a. split; [by apply list_elem_of_In|].
  by rewrite !bool_decide_eq_true_2.
Qed.
Lemma derive_counters d r c : derive_locked (with_counters d r c) = derive_locked c.
Proof. reflexivity. Qed.

(** What is true of a submission that was applied. *)
Lemma admit_applied a c c1 o :
  admit_locked a c = (c1, Ok o) → disposition o = SubmissionDisposition.Applied →
  artifact_validate (catalog c) a = Ok tt ∧ art_federation (envelope a) = cfg_federation (config c) ∧
  ∃ c0 l, decide_locked c0 = (c1, l) ∧ grown c c0 ∧ a ∈ artifacts c0 ∧
    o = submission c1 SubmissionDisposition.Applied ReasonCode.ArtifactAccepted "evidence accepted"
          (artifact_digest a) true l.
Proof.
  unfold admit_locked. destruct (artifact_validate _ _) as [[]|]; [|by intros [= <- <-]].
  case_bool_decide as Hf; cbn [negb]; [|by intros [= <- <-]].
  destruct (_ <=? _); [by intros [= <- <-]|].
  destruct (same_present c a).
  { cbv zeta. intros [= <- <-]. unfold submission. by destruct (derive_locked _). }
  destruct (encode a) as [bs|]; [|by intros [= <- <-]]. cbv zeta.
  pose proof (journal_encoded_grown JournalRecordType.Artifact (Ok bs) c) as Hg.
  unfold journal_encoded, lift, mbind, Op_bind in Hg.
  destruct (journal_append _ bs c) as [c2 [[]|]]; [|by intros [= <- <-]]. cbn [fst] in Hg.
  destruct (conflicting_present c a); destruct (decide_locked _) as [c3 l] eqn:Hd; intros [= <- <-] Ha.
  - unfold submission in Ha. by destruct (derive_locked c3).
  - split_and!; [done..|]. eexists _, l. split; [exact Hd|]. split; [|split; [|done]].
    + destruct Hg as [A1 A2 A3 A4]. split; [done..|]. cbn [with_artifacts artifacts].
      by apply prefix_app_r.
    + cbn. apply elem_of_app. right. by left.
Qed.

Lemma admit_duplicate a c :
  artifact_validate (catalog c) a = Ok tt → art_federation (envelope a) = cfg_federation (config c) →
  size (artifacts c) < kMaxArtifacts → a ∈ artifacts c →
  admit_locked a c =
    let c1 := with_counters ((duplicate_artifacts c + 1) mod 2 ^ 64) (rejected_artifacts c) c in
    (c1, Ok (submission c1 SubmissionDisposition.Duplicate ReasonCode.EvidenceDuplicateIdentical
               "identical evidence was already accepted; applying it again changes nothing"
               (artifact_digest a) true [])).
Proof.
  intros Hv Hf Hs Ha. unfold admit_locked. rewrite Hv, (bool_decide_eq_true_2 _ Hf). cbn [negb].
  rewrite (proj2 (N.leb_gt _ _) Hs), (same_present_elem c a Ha). reflexivity.
Qed.

(** Submitting is idempotent: an artefact that was applied, submitted again
    to the coordinator it left, is answered as a duplicate with the same state
    digest and count; nothing is issued, and the coordinator differs from before
    in the counter of duplicates and in nothing else, its journal included. *)
Theorem resubmission_is_idempotent a c c1 o
    (Hfirst : submit_artifact a c = (c1, Ok o))
    (Happlied : disposition o = SubmissionDisposition.Applied)
    (Hroom : size (artifacts c1) < kMaxArtifacts) :
  ∃ o', submit_artifact a c1 =
      (with_counters ((duplicate_artifacts c1 + 1) mod 2 ^ 64) (rejected_artifacts c1) c1, Ok o') ∧
    disposition o' = SubmissionDisposition.Duplicate ∧ issued o' = [] ∧
    so_artifact_digest o' = so_artifact_digest o ∧
    so_state_digest o' = so_state_digest o ∧ so_artifact_count o' = so_artifact_count o.
Proof.
  destruct (admit_applied a c c1 o Hfirst Happlied) as (Hv & Hf & c0 & l & Hd & Hg0 & Ha & ->).
  pose proof (decide_locked_grown c0) as Hg1. rewrite Hd in Hg1. cbn [fst] in Hg1.
  destruct (transitivity Hg0 Hg1) as [G1 G2 _ _]. destruct Hg1 as [_ _ _ Hpre].
  eexists. unfold submit_artifact. rewrite (admit_duplicate a c1); cycle 1.
  { by rewrite G2. } { by rewrite G1. } { exact Hroom. } { eapply elem_of_prefix; [exact Ha|exact Hpre]. }
  split; [reflexivity|]. unfold submission. rewrite derive_counters.
  by destruct (derive_locked c1).
Qed.

(** ** What the coordinator issues *)

Lemma record_batch_issued batch : ∀ c c' l p b,
  record_batch batch c = (c', l, p) → b ∈ l → b ∈ batch ∧ b ∈ artifacts c'.
Proof.
  induction batch as [|a batch IH]; intros c c' l p b; cbn [record_batch]; [by intros [= _ <- _] ?%elem_of_nil|].
  destruct (record_decision a c) as [c1 r] eqn:Hr.
  pose proof (record_batch_rel grown record_decision_grown batch c1) as Hg.
  specialize (IH c1). destruct (record_batch batch c1) as [[c2 l2] p2]. cbn [fst] in Hg.
  assert (b ∈ l2 → b ∈ a :: batch ∧ b ∈ artifacts c2) as Hlater.
  { intros Hb. destruct (IH _ _ _ b eq_refl Hb). split; [by right|done]. }
  destruct r as [[]|]; intros [= <- <- <-]; [|exact Hlater..].
  intros [->|Hb]%elem_of_cons; [|by apply Hlater]. split; [by left|].
  eapply elem_of_prefix; [|apply Hg]. revert Hr. unfold record_decision, get, lift.
  unfold mbind at 1, Op_bind at 1. cbv iota beta. unfold mbind at 1, Op_bind at 1.
  destruct (artifact_validate _ _); [|done]. destruct (has_evidence _ _); [done|].
  unfold mbind, Op_bind. destruct (journal_encoded _ _ c) as [c0 [[]|]]; [|done].
  intros [= <-]. cbn. apply elem_of_app. right. by left.
Qed.

(** A record that was issued was decided in some state on the way. *)
Lemma decide_loop_issued passes : ∀ c c' l b,
  decide_loop passes c = (c', l) → b ∈ l →
  b ∈ artifacts c' ∧ ∃ c0 s, grown c c0 ∧ grown c0 c' ∧ derive_locked c0 = Ok s ∧ b ∈ decision_batch c0 s.
Proof.
  induction passes as [|passes IH]; intros c c' l b; cbn [decide_loop]; [by intros [= _ <-] ?%elem_of_nil|].
  destruct (derive_locked c) as [s|] eqn:Hs; [|by intros [= _ <-] ?%elem_of_nil]. cbv zeta.
  destruct (nonempty _); [|by intros [= _ <-] ?%elem_of_nil].
  pose proof (record_batch_rel grown record_decision_grown (decision_batch c s) c) as Hg1.
  destruct (record_batch (decision_batch c s) c) as [[c1 l1] p] eqn:Hb1. cbn [fst] in Hg1.
  assert (∀ c2, grown c1 c2 → b ∈ l1 →
    b ∈ artifacts c2 ∧ ∃ c0 s, grown c c0 ∧ grown c0 c2 ∧ derive_locked c0 = Ok s ∧
      b ∈ decision_batch c0 s) as Hnow.
  { intros c2 Hg2 Hb. destruct (record_batch_issued _ _ _ _ _ b Hb1 Hb) as [Hin Ha].
    split; [eapply elem_of_prefix; [exact Ha|apply Hg2]|]. exists c, s. split_and!; [done| |done..].
    by transitivity c1. }
  destruct p; [|intros [= <- <-]; by apply Hnow].
  pose proof (decide_loop_rel grown record_decision_grown passes c1) as Hg2.
  destruct (decide_loop passes c1) as [c2 l2] eqn:Hl2. cbn [fst] in Hg2.
  intros [= <- <-] [Hb|Hb]%elem_of_app; [by apply Hnow|].
  destruct (IH _ _ _ b Hl2 Hb) as (Ha & c0 & s0 & H1 & H2 & H3 & H4). split; [done|].
  exists c0, s0. split_and!; [by transitivity c1|done..].
Qed.

Lemma first_proposal_elem arts p :
  first_proposal arts = Some p → p ∈ of_art_kind ArtifactKind.MembershipProposal arts.
Proof. apply pick_Some. Qed.
Lemma admission_for_Some c s m arts f b :
  admission_for c s m arts f = Some b →
  ∃ p, first_proposal arts = Some p ∧ p ∈ of_art_kind ArtifactKind.MembershipProposal arts ∧
    mp_satisfied (assess_multi_party m (art_issuer p) (contains (active_members s) (art_issuer p))
                   (f_endorsers f) (c_policy c) false) = true ∧
    acceptance_matches_declaration f = true.
Proof.
  unfold admission_for. intros Hb. apply bind_Some in Hb as (p & Hp & Hb). exists p.
  cbv zeta in Hb. destruct (negb _ || negb _) eqn:Hn; [done|].
  apply orb_false_iff in Hn as [H1%negb_false_iff H2%negb_false_iff].
  split_and!; [done|by apply first_proposal_elem|exact H1|exact H2].
Qed.

(** The consent and the endorsers among the facts come from the record. *)
Lemma derivation_consent m arts ctx :
  let f := facts (derive_membership m arts ctx) in
  (acceptance_matches_declaration f = true → ∃ a, on_record m arts ArtifactKind.MembershipAcceptance a ∧
     art_issuer a = m) ∧
  ∀ e, e ∈ f_endorsers f → e ∈ established_members ctx.
Proof.
  intros f. subst f. unfold derive_membership.
  destruct (activation_currency _ _ _ _) as [[ae at_] ac]. destruct (derive_lifecycle _ _) as [s rs].
  cbn [facts acceptance_matches_declaration f_endorsers].
  destruct (operative_proposal _) as [p|]; cbn [consent_of no_consent cn_consented cn_endorsers];
    [|split; [done|by intros e ?%elem_of_nil]].
  split; [|by intros e [? _]%elem_of_endorsers_of].
  intros Hc. apply bool_decide_eq_true in Hc.
  destruct (matching_acceptance _ _ _) as [a|] eqn:Ha; [|done].
  apply pick_Some, list_elem_of_filter in Ha as [[Hi _] Ha]. apply elem_of_mine in Ha. by exists a.
Qed.

(** A consented proposal that leaves the candidate proposed is not satisfied. *)
Lemma derivation_proposed m arts ctx :
  let d := derive_membership m arts ctx in
  lifecycle d = MemberLifecycleState.Proposed → acceptance_matches_declaration (facts d) = true →
  ∃ q, operative_proposal (sponsored m (of_art_kind ArtifactKind.MembershipProposal
         (in_lineage (current_lineage m arts) arts))) = Some q ∧
    mp_satisfied (assess_multi_party m (art_issuer q) (contains (established_members ctx) (art_issuer q))
      (f_endorsers (facts d)) (ctx_policy ctx) false) = false.
Proof.
  intros d. subst d. unfold derive_membership.
  destruct (activation_currency _ _ _ _) as [[ae at_] ac].
  match goal with |- context [derive_lifecycle ?i ctx] => set (i0 := i) end.
  destruct (derive_lifecycle i0 ctx) as [s rs] eqn:E.
  cbn [lifecycle facts acceptance_matches_declaration f_endorsers]. intros -> Hc.
  assert (li_admitted i0 = false) as Ha.
  { clear -E. unfold derive_lifecycle in E. repeat (case_match; try discriminate E); try done.
    all: by apply negb_true_iff. }
  subst i0. cbn [li_admitted] in Ha.
  destruct (operative_proposal _) as [q|]; [|discriminate Hc]. exists q. split; [reflexivity|].
  unfold admit_proposal in Ha. destruct (record_outcome _ _ _) as [[??]?]. cbn [adm_valid] in Ha.
  rewrite Hc, andb_true_r in Ha. exact Ha.
Qed.

(** Which member a decision is about, and what was derived of it. *)
Lemma decision_for_shape c s x b :
  decision_for c s x = Some b →
  let arts := by_subject c (ms_member x) in
  let d := derive_membership (ms_member x) arts (decision_context c s) in
  (art_kind (envelope b) = ArtifactKind.MembershipAdmission ∧ lifecycle d = MemberLifecycleState.Proposed ∧
     admission_for c s (ms_member x) arts (facts d) = Some b) ∨
  art_kind (envelope b) = ArtifactKind.MembershipActivation ∧ subject (envelope b) = ms_member x ∧
    established_state (lifecycle d) = true.
Proof.
  unfold decision_for. cbv zeta. destruct (lifecycle _) eqn:Hl; try discriminate.
  - intros Hb. left. split_and!; [|done..]. revert Hb. unfold admission_for. intros Hb.
    apply bind_Some in Hb as (p & _ & Hb). cbv zeta in Hb. destruct (_ || _); [discriminate Hb|].
    by injection Hb as <-.
  - intros [= <-]. by right.
  - destruct (_ && _); [|discriminate]. intros [= <-]. by right.
Qed.

Lemma admit_issued a c c1 o b :
  admit_locked a c = (c1, Ok o) → b ∈ issued o →
  b ∈ artifacts c1 ∧
  ∃ c0 s x, grown c c0 ∧ grown c0 c1 ∧ derive_locked c0 = Ok s ∧ x ∈ members s ∧ decision_for c0 s x = Some b.
Proof.
  unfold admit_locked.
  assert (∀ c0 c d r t g v, (c0, Ok (submission c d r t g v [])) = (c1, Ok o) → b ∈ issued o → False) as Hnone.
  { intros c0 c' d r t g v [= _ <-]. unfold submission.
    destruct v; [destruct (derive_locked c')|]; by intros ?%elem_of_nil. }
  destruct (artifact_validate _ _) as [[]|]; [|intros H Hb; destruct (Hnone _ _ _ _ _ _ _ H Hb)].
  destruct (negb _); [intros H Hb; destruct (Hnone _ _ _ _ _ _ _ H Hb)|]. destruct (_ <=? _); [intros H Hb; destruct (Hnone _ _ _ _ _ _ _ H Hb)|].
  destruct (same_present c a); [cbv zeta; intros H Hb; destruct (Hnone _ _ _ _ _ _ _ H Hb)|].
  destruct (encode a) as [bs|]; [|intros H Hb; destruct (Hnone _ _ _ _ _ _ _ H Hb)]. cbv zeta.
  pose proof (journal_encoded_grown JournalRecordType.Artifact (Ok bs) c) as Hg.
  unfold journal_encoded, lift, mbind, Op_bind in Hg.
  destruct (journal_append _ bs c) as [c2 [[]|]]; [|intros H Hb; destruct (Hnone _ _ _ _ _ _ _ H Hb)]. cbn [fst] in Hg.
  set (c3 := if conflicting_present c a then _ else _).
  assert (grown c c3) as Hg3.
  { destruct Hg as [A1 A2 A3 A4]. subst c3. destruct (conflicting_present c a); split; try done;
      cbn [with_counters with_artifacts artifacts]; by apply prefix_app_r. }
  destruct (decide_locked c3) as [c4 l] eqn:Hd. intros Ho Hb.
  assert (c4 = c1 ∧ b ∈ l) as [-> Hl].
  { destruct (conflicting_present c a); injection Ho as <- <-; (split; [done|]); unfold submission in Hb;
      by destruct (derive_locked c4). }
  destruct (decide_loop_issued _ _ _ _ b Hd Hl) as (Ha & c0 & s & H1 & H2 & H3 & H4). split; [done|].
  apply list_elem_of_omap in H4 as (x & Hx & H4). exists c0, s, x. split_and!; [by transitivity c3|done..].
Qed.

(** C18: what an activation rests on: a MembershipActivation that a submission made the
    coordinator issue was decided in a state derived from the evidence at hand, and its
    subject had been sponsored by another established member, had consented itself, and
    was endorsed by as many distinct established parties as the policy asks for, or it is
    the founder named by a genesis record among the evidence.  The code asks no more of
    that record, neither that it is the only one nor that the coordinator issued it, so
    on that branch one party's word is enough. *)
Theorem issued_activation_is_warranted a c c1 o b
    (Hsubmit : submit_artifact a c = (c1, Ok o)) (Hb : b ∈ issued o)
    (Hkind : art_kind (envelope b) = ArtifactKind.MembershipActivation) :
  let m := subject (envelope b) in
  b ∈ artifacts c1 ∧
  ∃ c0 s, derive_locked c0 = Ok s ∧ artifacts c `prefix_of` artifacts c0 ∧
    artifacts c0 `prefix_of` artifacts c1 ∧
    ((∃ g, g ∈ artifacts c0 ∧ art_kind (envelope g) = ArtifactKind.FederationGenesis ∧
           con_member (decl_constitution (founder (genesis (body g)))) = m) ∨
     ∃ p acceptance endorsers parties,
       admission_warranted m (by_subject c0 m) (decision_context c0 s) p acceptance endorsers parties).
Proof.
  intros m. destruct (admit_issued a c c1 o b Hsubmit Hb) as (Hin & c0 & s & x & Hg0 & Hg1 & Hs & _ & Hd).
  split; [done|]. exists c0, s. split_and!; [done|apply Hg0|apply Hg1|].
  apply decision_for_shape in Hd as [(Hk & _)|(_ & Hsub & He)]; [congruence|].
  fold m in Hsub. rewrite <-Hsub in He.
  destruct (derive_membership_inputs m (by_subject c0 m) (decision_context c0 s))
    as (i & Hl & _ & _ & _ & _ & _ & _ & _ & _ & _ & Hadm).
  rewrite Hl in He. apply derive_lifecycle_established in He as (_ & _ & _ & _ & Ha).
  destruct (Hadm Ha) as [_ [Hboot|Hw]]; [left|by right].
  unfold contains in Hboot. apply bool_decide_eq_true, list_elem_of_fmap in Hboot as (d & -> & Hd).
  apply list_elem_of_fmap in Hd as (g & -> & Hg). apply list_elem_of_filter in Hg as [Hk Hg].
  exists g. split_and!; [done|by apply bool_decide_eq_true in Hk|done].
Qed.

(** An admission record is not the audit entry of an admission: whenever the
    coordinator decides one, the candidate is still only proposed in the state it
    is decided in, since the multi-party rules are not satisfied for the proposal
    that counts; what satisfied them is a different proposal of lower identifier.
    A candidate with a single proposal never gets an admission record. *)
Theorem admission_record_needs_another_proposal c s x b
    (Hd : decision_for c s x = Some b)
    (Hkind : art_kind (envelope b) = ArtifactKind.MembershipAdmission) :
  let m := ms_member x in
  let arts := by_subject c m in
  lifecycle (derive_membership m arts (decision_context c s)) = MemberLifecycleState.Proposed ∧
  ∃ p q, p ≠ q ∧ p ∈ arts ∧ q ∈ arts ∧
    art_kind (envelope p) = ArtifactKind.MembershipProposal ∧
    art_kind (envelope q) = ArtifactKind.MembershipProposal ∧ first_proposal arts = Some p.
Proof.
  intros m arts. apply decision_for_shape in Hd as [(_ & Hl & Hd)|(Hk & _)]; [|congruence].
  fold m arts in Hl, Hd. split; [done|].
  apply admission_for_Some in Hd as (p & Hfirst & Hp & Hmulti & Hmatch).
  destruct (derivation_proposed m arts _ Hl Hmatch) as (q & Hq & Hno).
  exists p, q. apply pick_Some, list_elem_of_filter in Hq as [_ Hq]. apply elem_of_mine in Hq as (Hq & _ & Hqk).
  apply list_elem_of_filter in Hp as [Hpk Hp]. apply bool_decide_eq_true in Hpk.
  split_and!; [|done..]. intros ->. cbn [decision_context established_members ctx_policy] in Hno. congruence.
Qed.

(** ** Where success and failure say less than they seem to *)

(** A revocation that fails is only half undone: when [revoke_lease] reports an
    error for a lease that was not revoked, the lease is revoked in memory all the
    same, the journal is the old one, and a second attempt reports success
    without storing anything; so after a restart the lease is not revoked, as if
    neither call had been made. *)
Theorem failed_revocation_is_forgotten l reason text c es x c1 s
    (Hj : journaled c es) (Hok : Forall event_ok es) (Hmax : size es ≤ max_records default_options)
    (Hroom : size_bytes (journal c) + 60 ≤ kMaxJournalBytes)
    (Hx : smap_find l (leases c) = Some x) (Hlive : revoked x = false)
    (Hfail : revoke_lease l reason text c = (c1, Err s)) :
  (∃ y, smap_find l (leases c1) = Some y ∧ revoked y = true) ∧ journal c1 = journal c ∧
  (∀ reason' text', revoke_lease l reason' text' c1 = (c1, Ok tt)) ∧
  ∃ c2 y, load_journal (Some (file (journal c1))) no_faults (initial (config c1) []) = Ok c2 ∧
    smap_find l (leases c2) = Some y ∧ revoked y = false.
Proof.
  assert (c1 = revoked_in l x reason text c) as Hc1.
  { pose proof (failed_revocation l reason text c es s Hj) as H. rewrite Hfail in H.
    destruct (H eq_refl) as [[? _]|(y & Hy & _ & Heq)]; cbn [fst] in *; congruence. }
  assert (smap_find l (leases c1) = Some (lease_revoked x (tick c) reason text)) as Hl
    by (rewrite Hc1; apply smap_find_insert).
  split; [by eexists|]. split; [by rewrite Hc1|]. split; [intros; by rewrite revoke_lease_eq, Hl|].
  destruct (reload c es Hj Hok Hmax) as [(c2 & Hc2 & [Hmem _ _])|[_ Hfull]]; [|lia].
  exists c2. replace (file (journal c1)) with (file (journal c)) by (by rewrite Hc1).
  replace (config c1) with (config c) by (by rewrite Hc1).
  assert (smap_find l (m_leases (memory_of c2)) = Some (settled x)) as Hs
    by (rewrite Hmem; cbn [memory_of m_leases]; by rewrite smap_find_fmap, Hx).
  cbn [memory_of m_leases] in Hs. rewrite smap_find_fmap in Hs.
  destruct (smap_find l (leases c2)) as [y|] eqn:Hy; [|done]. injection Hs as Hs. exists y.
  split_and!; [exact Hc2|done|]. by rewrite <-(proj1 (settled_same y)), Hs, (proj1 (settled_same x)).
Qed.

Lemma record_known a c :
  artifact_validate (catalog c) a = Ok tt → has_evidence c (art_evidence a) = true →
  record_order a c = next_tick c.
Proof.
  intros Hv Hk. unfold record_order, record_decision, get, lift, mbind, Op_bind. cbv iota beta.
  by rewrite Hv, Hk.
Qed.
(** A fence can be pre-empted: the identifier of the record is computed from
    the federation, the member, the epoch, the reason and the lineage, all public;
    if any artefact of the evidence set bears it, whatever it says, the order
    to fence the member reports success, records nothing and only moves the clock. *)
Theorem fence_can_be_preempted m l reason text c s found
    (Hs : derive_locked c = Ok s) (Hm : find_member s m = Some found)
    (Hv : artifact_validate (catalog c) (make_lifecycle_record c s ArtifactKind.MembershipFence m
            (effective_lineage l found) (epoch s) reason text) = Ok tt)
    (Hknown : has_evidence c (evidence_id_from (cfg_federation (config c))
       (digest_of (encode (cfg_federation (config c)) >+> Writer.u16 (wire ArtifactKind.MembershipFence) >+>
          encode m >+> encode (epoch s) >+> Writer.u16 reason >+>
          encode (effective_lineage l found)))) = true) :
  fence_member m l reason text c = next_tick c ∧
  artifacts (fence_member m l reason text c).1 = artifacts c ∧
  journal (fence_member m l reason text c).1 = journal c.
Proof.
  assert (fence_member m l reason text c = next_tick c) as ->; [|done].
  unfold fence_member, derived. unfold mbind at 1, Op_bind at 1. rewrite Hs.
  unfold get, mbind, Op_bind. rewrite Hm. by apply record_known.
Qed.

(** ** Instances *)

Definition op_ok {A} (m : Op A) (c : Impl) : bool :=
  match (m c).2 with Ok _ => true | Err _ => false end.
Lemma op_ok_true {A} (m : Op A) c : op_ok m c = true → ∃ c' a, m c = (c', Ok a).
Proof. unfold op_ok. destruct (m c) as [c' [a|s]]; [by exists c', a|done]. Qed.
Lemma op_ok_false {A} (m : Op A) c : op_ok m c = false → ∃ c' s, m c = (c', Err s).
Proof. unfold op_ok. destruct (m c) as [c' [a|s]]; [done|by exists c', s]. Qed.

Lemma op_ok_twice {A B} (m : Op A) (m' : Op B) c :
  op_ok m c = true → op_ok m' (m c).1 = true →
  ∃ c1 a c2 b, m c = (c1, Ok a) ∧ m' c1 = (c2, Ok b).
Proof.
  intros H1 H2. destruct (op_ok_true _ _ H1) as (c1 & a & Ha). rewrite Ha in H2.
  destruct (op_ok_true _ _ H2) as (c2 & b & Hb). by exists c1, a, c2, b.
Qed.

(** A federation that is not bootstrapped, over a new journal. *)
Definition example_config : CoordinatorConfig :=
  mkConfig example_federation (mkId (replicate 16 x09)) "" default_policy "journal" 0 false 64 4 128
    zero false founding_party [].
Definition first_load (cfg : CoordinatorConfig) : Result Impl :=
  load_journal None no_faults (initial cfg []).
Definition started_with (cfg : CoordinatorConfig) : Impl :=
  match first_load cfg with Ok c => c | Err _ => initial cfg [] end.
Notation started := (started_with example_config).
(** A lease as [issue_lease] makes it, and the coordinator that stored it. *)
Definition example_lease : AuthorityLease :=
  mkLease (lease_id_at example_federation 1) example_federation
    (mkIdentity nil_id (example_member x01) zero zero Digest_zero nil_id zero false)
    [grant shared_term] (mkCounter 1) (mkCounter 1) zero (mkCounter 10) (mkId (replicate 16 x09))
    (mkCounter 1) false zero 0 "".
Definition store_lease (l : AuthorityLease) : Op unit :=
  journal_encoded JournalRecordType.Lease (encode l);;
  modify (λ c, with_leases (smap_insert (lease_id l) l (leases c)) ((lease_sequence c + 1) mod 2 ^ 64) c).
Definition with_lease (l : AuthorityLease) (c : Impl) : Impl := (store_lease l c).1.
Notation leased := (with_lease example_lease started).
Definition an_observation : MemberObservation :=
  mkObservation (example_member x01) (mkCounter 1) (mkCounter 1) (mkCounter 1) [].
Definition a_request : AuthorityRequest :=
  mkRequest (mkId (replicate 16 x33)) example_federation (mkCounter 1)
    (mkIdentity nil_id (example_member x01) zero zero Digest_zero nil_id zero false)
    (grant shared_term) nil_id zero (mkName "").
Definition long_text : string := String.concat "" (replicate 500 "revoked..").
Definition restart (c : Impl) : Result Impl := create (config c) (Some (file (journal c))) no_faults [].

(** A federation of one founder, kept in memory only. *)
Definition founder_config : CoordinatorConfig :=
  mkConfig example_federation (mkId (replicate 16 x09)) "" default_policy "" 0 false 64 4 128
    (mkCounter 1) true founding_party [].
Definition holding (l : list Artifact) : Impl := with_artifacts l (initial founder_config []).
Definition founding : list Artifact :=
  drop 3 (example_artifacts DelegationMode.Shared).
Definition a_consent : Artifact :=
  example_artifact ArtifactKind.MembershipAcceptance (Some x02) x24 (joining_party DelegationMode.Shared)
    no_genesis.
(** The founder has proposed a second member. *)
Definition proposed : Impl :=
  holding (example_artifact ArtifactKind.MembershipProposal (Some x01) x23
             (joining_party DelegationMode.Shared) no_genesis :: founding).

(** The identifier of the order that fences the founder at the first epoch. *)
Definition fence_id : EvidenceId :=
  evidence_id_from example_federation
    (digest_of (encode example_federation >+> Writer.u16 (wire ArtifactKind.MembershipFence) >+>
       encode (example_member x01) >+> encode (mkCounter 1 : Epoch) >+>
       Writer.u16 (wire ReasonCode.EvidenceUnknown) >+> encode (zero : Lineage))).
Definition squatter : Artifact :=
  let a := a_consent in
  let e := envelope a in
  Artifact_make (mkEnvelope fence_id (art_kind e) (art_federation e) (subject e) (issuer e) Digest_zero)
    (body a).
Definition squatted : Impl := holding (squatter :: founding).
(** Two proposals of one candidate: a later generation by a party of no standing. *)
Definition renewed_party : MemberDeclaration :=
  mkDeclaration (mkConstitution (mkId (replicate 16 x02)) (example_member x02) (mkCounter 2) 1 0 0
    [] [] [] [] "") (mkCounter 1) (mkId (replicate 16 x02)) (mkCounter 1).
Definition twice_proposed : Impl :=
  holding [example_artifact ArtifactKind.MembershipAcceptance (Some x02) x24 renewed_party no_genesis;
           example_artifact ArtifactKind.MembershipProposal (Some x03) x23 renewed_party no_genesis;
           example_artifact ArtifactKind.MembershipProposal (Some x01) x22
             (joining_party DelegationMode.Shared) no_genesis].
Definition candidate : MemberState :=
  mkMemberState (example_member x02) nil_id MemberLifecycleState.Proposed zero nil_id false
    PartitionState.Connected renewed_party no_identity no_identity false false [] [] [] [] [] [] [] [] [] [] [] []
    Digest_zero zero zero zero EvidenceState.Known false.
Definition sponsor_state : FederationState :=
  mkState nil_id nil_id (mkCounter 1) zero false (mkName "") zero Digest_zero zero Digest_zero "" 0 0 0
    [crowded_member] [] [] [] neutral [] [].

(** What the examples come to, each computed once. *)
Definition is_ok {A} (r : Result A) : bool := match r with Ok _ => true | Err _ => false end.
Lemma is_ok_true {A} (r : Result A) : is_ok r = true → ∃ a, r = Ok a.
Proof. destruct r; [by eexists|done]. Qed.
Lemma journal_examples :
  (is_ok (first_load example_config) && is_ok (create example_config None no_faults []) &&
   op_ok (store_lease example_lease) started &&
   op_ok (revoke_lease (lease_id example_lease) (wire ReasonCode.EvidenceUnknown) "no") leased &&
   negb (op_ok (revoke_lease (lease_id example_lease) (wire ReasonCode.EvidenceUnknown) long_text) leased) &&
   op_ok (evaluate a_request) started && op_ok (evaluate a_request) (evaluate a_request started).1 &&
   (size_bytes (journal leased) =? 401) &&
   bool_decide (smap_find (lease_id example_lease) (leases leased) = Some example_lease)) = true.
Proof. vm_cast_no_check (eq_refl true). Qed.
Definition survives (c : Impl) (id : LeaseId) (l : AuthorityLease) : bool :=
  match restart c with
  | Ok c' => bool_decide (smap_find id (leases c') = Some l)
  | Err _ => false
  end.
Lemma restart_found c id l :
  survives c id l = true →
  ∃ c', create (config c) (Some (file (journal c))) no_faults [] = Ok c' ∧ smap_find id (leases c') = Some l.
Proof.
  unfold survives, restart. destruct (create _ _ _ _) as [c'|]; [|done]. intros H%bool_decide_eq_true. by exists c'.
Qed.
Lemma restart_example : survives leased (lease_id example_lease) example_lease = true.
Proof. vm_cast_no_check (eq_refl true). Qed.
(** What submitting the consent does, as far as the properties need it. *)
Record applied_with (a : Artifact) (c c1 : Impl) (o : SubmissionOutcome) (b : Artifact) : Prop := {
  aw_submit : submit_artifact a c = (c1, Ok o);
  aw_applied : disposition o = SubmissionDisposition.Applied;
  aw_issued : b ∈ issued o;
  aw_kind : art_kind (envelope b) = ArtifactKind.MembershipActivation;
  aw_room : size (artifacts c1) < kMaxArtifacts
}.
Definition applies (a : Artifact) (c : Impl) : bool :=
  match submit_artifact a c with
  | (c1, Ok o) =>
      match issued o with
      | b :: _ => bool_decide (disposition o = SubmissionDisposition.Applied) &&
                  bool_decide (art_kind (envelope b) = ArtifactKind.MembershipActivation)
      | [] => false
      end && (size (artifacts c1) <? kMaxArtifacts)
  | (_, Err _) => false
  end.
Lemma applies_true a c : applies a c = true → ∃ c1 o b, applied_with a c c1 o b.
Proof.
  unfold applies. destruct (submit_artifact a c) as [c1 [o|]] eqn:Hs; [|done].
  destruct (issued o) as [|b l] eqn:Hi; [done|]. rewrite !andb_true_iff, !bool_decide_eq_true, N.ltb_lt.
  intros [[H1 H2] H3]. exists c1, o, b. constructor; try done. rewrite Hi. by left.
Qed.
Lemma consent_example : applies a_consent proposed = true.
Proof. vm_cast_no_check (eq_refl true). Qed.

(** A member that holds authority, and the order to fence it that is squatted. *)
Record fence_ready (m : MemberId) (c : Impl) (s : FederationState) (x : MemberState) : Prop := {
  fr_derived : derive_locked c = Ok s;
  fr_found : find_member s m = Some x;
  fr_holds : lifecycle_holds_federation_authority (ms_lifecycle x) = true;
  fr_valid : artifact_validate (catalog c) (make_lifecycle_record c s ArtifactKind.MembershipFence m
               (effective_lineage zero x) (epoch s) (wire ReasonCode.EvidenceUnknown) "") = Ok tt;
  fr_known : has_evidence c (evidence_id_from (cfg_federation (config c))
       (digest_of (encode (cfg_federation (config c)) >+> Writer.u16 (wire ArtifactKind.MembershipFence) >+>
          encode m >+> encode (epoch s) >+> Writer.u16 (wire ReasonCode.EvidenceUnknown) >+>
          encode (effective_lineage zero x)))) = true
}.
Definition fence_check (m : MemberId) (c : Impl) : bool :=
  match derive_locked c with
  | Ok s =>
      match find_member s m with
      | Some x =>
          lifecycle_holds_federation_authority (ms_lifecycle x) &&
          is_ok (artifact_validate (catalog c) (make_lifecycle_record c s ArtifactKind.MembershipFence m
                   (effective_lineage zero x) (epoch s) (wire ReasonCode.EvidenceUnknown) "")) &&
          has_evidence c (evidence_id_from (cfg_federation (config c))
            (digest_of (encode (cfg_federation (config c)) >+> Writer.u16 (wire ArtifactKind.MembershipFence) >+>
               encode m >+> encode (epoch s) >+> Writer.u16 (wire ReasonCode.EvidenceUnknown) >+>
               encode (effective_lineage zero x))))
      | None => false
      end
  | Err _ => false
  end.
Lemma fence_check_true m c : fence_check m c = true → ∃ s x, fence_ready m c s x.
Proof.
  unfold fence_check. destruct (derive_locked c) as [s|] eqn:Hs; [|done].
  destruct (find_member s m) as [x|] eqn:Hx; [|done]. rewrite !andb_true_iff. intros [[H1 H2] H3].
  apply is_ok_true in H2 as [[] H2]. exists s, x. by constructor.
Qed.
Lemma squatted_example : fence_check (example_member x01) squatted = true.
Proof. vm_cast_no_check (eq_refl true). Qed.

Definition admission_check (c : Impl) (s : FederationState) (x : MemberState) : bool :=
  match decision_for c s x with
  | Some b => bool_decide (art_kind (envelope b) = ArtifactKind.MembershipAdmission)
  | None => false
  end.
Lemma admission_check_true c s x : admission_check c s x = true →
  ∃ b, decision_for c s x = Some b ∧ art_kind (envelope b) = ArtifactKind.MembershipAdmission.
Proof.
  unfold admission_check. destruct (decision_for c s x) as [b|]; [|done].
  intros H%bool_decide_eq_true. by exists b.
Qed.
Lemma proposals_example : admission_check twice_proposed sponsor_state candidate = true.
Proof. vm_cast_no_check (eq_refl true). Qed.
Record journal_checked : Prop := {
  jc_load : is_ok (first_load example_config) = true;
  jc_create : is_ok (create example_config None no_faults []) = true;
  jc_store : op_ok (store_lease example_lease) started = true;
  jc_revoke : op_ok (revoke_lease (lease_id example_lease) (wire ReasonCode.EvidenceUnknown) "no") leased = true;
  jc_fail : op_ok (revoke_lease (lease_id example_lease) (wire ReasonCode.EvidenceUnknown) long_text) leased = false;
  jc_first : op_ok (evaluate a_request) started = true;
  jc_second : op_ok (evaluate a_request) (evaluate a_request started).1 = true;
  jc_size : size_bytes (journal leased) = 401;
  jc_found : smap_find (lease_id example_lease) (leases leased) = Some example_lease
}.
Lemma journal_checks : journal_checked.
Proof.
  pose proof journal_examples as H. rewrite !andb_true_iff, negb_true_iff, N.eqb_eq in H.
  destruct H as ((((((((H1 & H2) & H3) & H4) & H5) & H6) & H7) & H8) & H9).
  constructor; try assumption. exact (bool_decide_eq_true_1 _ H9).
Qed.
Lemma example_lease_ok : wire_ok example_lease.
Proof.
  cbn [wire_ok AuthorityLease_codec example_lease lease_id lease_federation holder scopes
    issued_epoch not_after_epoch issued_at lease_not_after issuer_node issuer_incarnation revoked_at
    revoke_reason].
  assert (Forall wire_ok [grant shared_term]) as Hg
    by (apply Forall_singleton; right; vm_compute; reflexivity).
  split_and!; try (vm_compute; reflexivity); try (vm_compute; discriminate); [|exact Hg].
  cbn [wire_ok MemberIdentity_codec idn_domain idn_member idn_generation idn_incarnation idn_constitution
    idn_node started_at].
  split_and!; try (vm_compute; reflexivity); vm_compute; discriminate.
Qed.
Lemma started_with_eq cfg : is_ok (first_load cfg) = true → first_load cfg = Ok (started_with cfg).
Proof. unfold started_with. by destruct (first_load cfg). Qed.
Lemma started_with_fresh cfg :
  journal_path cfg ≠ "" → is_ok (first_load cfg) = true →
  (config (started_with cfg) = cfg ∧ c_incarnation (started_with cfg) = mkCounter 1 ∧
   lease_sequence (started_with cfg) = 1 ∧ leases (started_with cfg) = []) ∧
  journaled (started_with cfg) [Incarnated (mkCounter 1)].
Proof. intros Hp Hl. exact (loaded_fresh cfg _ Hp (started_with_eq cfg Hl)). Qed.
Lemma started_fresh :
  (config started = example_config ∧ c_incarnation started = mkCounter 1 ∧ lease_sequence started = 1 ∧
   leases started = []) ∧ journaled started [Incarnated (mkCounter 1)].
Proof.
  apply started_with_fresh; [discriminate|exact (jc_load journal_checks)].
Qed.
Lemma with_lease_journaled l c es :
  lease_id l = lease_id_at (cfg_federation (config c)) (lease_sequence c) →
  issuer_incarnation l = c_incarnation c → revoked l = false → leases c = [] → journaled c es →
  op_ok (store_lease l) c = true → journaled (with_lease l c) (es ++ [Leased l]).
Proof.
  intros Hid Hi Hr Hl Hj Hok. apply op_ok_true in Hok as (c' & [] & Hok).
  assert (next_lease_free c) as Hfree by (unfold next_lease_free; by rewrite Hl).
  destruct (commit_lease_journaled l c es Hid Hi Hr Hfree Hj) as [(s & H)|H]; [|exact H].
  unfold store_lease in Hok. congruence.
Qed.
Lemma leased_restartable : restartable leased [Incarnated (mkCounter 1); Leased example_lease].
Proof.
  destruct started_fresh as [(Hc & Hi & Hs & Hl) Hj].
  constructor; [| |vm_compute; discriminate].
  - apply (with_lease_journaled example_lease started [Incarnated (mkCounter 1)]);
      [by rewrite Hc, Hs|by rewrite Hi|reflexivity|exact Hl|exact Hj|exact (jc_store journal_checks)].
  - repeat apply Forall_cons_2; [vm_compute; reflexivity|exact example_lease_ok|constructor].
Qed.

Lemma leased_room : size_bytes (journal leased) + 60 ≤ kMaxJournalBytes.
Proof. rewrite (jc_size journal_checks). vm_compute. discriminate. Qed.

Lemma restart_restores_memory_witness :
  ∃ c', load_journal (Some (file (journal leased))) no_faults (initial (config leased) []) = Ok c' ∧
    memory_of c' = memory_of leased.
Proof.
  destruct leased_restartable as [Hj Hok Hmax].
  destruct (restart_restores_memory leased _ Hj Hok Hmax leased_room) as (c' & Hc & Hm & _).
  exists c'. split; [exact Hc|exact Hm].
Defined.
Lemma operations_are_journaled_witness :
  ∃ new, remember (memory_of leased) new =
    Some (memory_of (run (ReportObservation an_observation) leased).1).
Proof.
  destruct (proj1 (operations_are_journaled (ReportObservation an_observation) leased _
    (rs_journaled _ _ leased_restartable)) (or_intror I)) as (new & _ & H). exists new. exact H.
Defined.
Lemma request_is_decided_once_witness :
  ∃ c1 c2 d d', evaluate a_request started = (c1, Ok d) ∧ evaluate a_request c1 = (c2, Ok d') ∧
    (ad_outcome d' = Outcome.Replayed ∨
     ad_outcome d' = Outcome.Refused ∧ rq_federation a_request ≠ cfg_federation (config c1)).
Proof.
  destruct (op_ok_twice _ _ _ (jc_first journal_checks) (jc_second journal_checks))
    as (c1 & d & c2 & d' & Hd & Hd').
  exists c1, c2, d, d'. split; [exact Hd|split; [exact Hd'|]].
  exact (request_is_decided_once a_request a_request started c1 c1 c2 _ d d' (proj2 started_fresh) Hd
    (rtc_refl step c1) Hd' eq_refl).
Defined.
Lemma revocation_is_never_undone_witness :
  ∃ c1 x, let c2 := (run (AdvanceTime (mkCounter 9)) c1).1 in
    revoke_lease (lease_id example_lease) (wire ReasonCode.EvidenceUnknown) "no" leased = (c1, Ok tt) ∧
    smap_find (lease_id example_lease) (leases c2) = Some x ∧
    ∀ e now, le_state (evaluate_lease_whole x e (c_incarnation c2) now) = LeaseState.Revoked.
Proof.
  destruct (op_ok_true _ _ (jc_revoke journal_checks)) as (c1 & [] & Hc1). exists c1.
  destruct (revocation_is_never_undone (lease_id example_lease) (wire ReasonCode.EvidenceUnknown) "no" leased c1 _ _
    (rs_journaled _ _ leased_restartable) Hc1
    (rtc_once (R := step) _ _ (step_call (AdvanceTime (mkCounter 9)) c1 (or_intror I)))) as (x & Hx & Hr).
  exists x. split; [exact Hc1|split; [exact Hx|exact Hr]].
Defined.
Lemma leases_end_with_the_run_witness :
  ∃ c', create (config leased) (Some (file (journal leased))) no_faults [] = Ok c' ∧
    smap_find (lease_id example_lease) (leases c') = Some example_lease ∧
    le_state (evaluate_lease_whole example_lease (mkCounter 1) (c_incarnation c') zero) ≠ LeaseState.Valid.
Proof.
  destruct (restart_found leased _ _ restart_example) as (c' & Hc & Hx).
  exists c'. split; [exact Hc|split; [exact Hx|]].
  destruct (leases_end_with_the_run leased _ c' _ example_lease (mkCounter 1) zero leased_restartable Hc Hx)
    as [_ H]. exact H.
Defined.
Lemma failed_revocation_is_forgotten_witness :
  ∃ c1 c2 y, revoke_lease (lease_id example_lease) (wire ReasonCode.EvidenceUnknown) "again" c1 = (c1, Ok tt) ∧
    load_journal (Some (file (journal c1))) no_faults (initial (config c1) []) = Ok c2 ∧
    smap_find (lease_id example_lease) (leases c2) = Some y ∧ revoked y = false.
Proof.
  destruct leased_restartable as [Hj Hok Hmax].
  destruct (op_ok_false _ _ (jc_fail journal_checks)) as (c1 & s & Hc1).
  destruct (failed_revocation_is_forgotten (lease_id example_lease) (wire ReasonCode.EvidenceUnknown) long_text
    leased _ example_lease c1 s Hj Hok Hmax leased_room (jc_found journal_checks) eq_refl Hc1)
    as (_ & _ & Hagain & c2 & y & H2 & Hy & Hr).
  exists c1, c2, y. split; [apply Hagain|split; [exact H2|split; [exact Hy|exact Hr]]].
Defined.
Lemma coordinator_is_journaled_witness :
  ∃ c es, create example_config None no_faults [] = Ok c ∧
    journaled (run (ReportObservation an_observation) c).1 es.
Proof.
  destruct (is_ok_true _ (jc_create journal_checks)) as [c Hc]. exists c.
  destruct (coordinator_is_journaled example_config c _ ltac:(discriminate) Hc
    (rtc_once (R := step) _ _ (step_call (ReportObservation an_observation) c (or_intror I)))) as (es & Hes & _).
  exists es. split; [exact Hc|exact Hes].
Defined.
Lemma resubmission_is_idempotent_witness :
  ∃ c1 o o', submit_artifact a_consent proposed = (c1, Ok o) ∧
    (submit_artifact a_consent c1).2 = Ok o' ∧ disposition o' = SubmissionDisposition.Duplicate ∧
    so_state_digest o' = so_state_digest o.
Proof.
  destruct (applies_true _ _ consent_example) as (c1 & o & b & [Hs Ha _ _ Hr]). exists c1, o.
  destruct (resubmission_is_idempotent a_consent proposed c1 o Hs Ha Hr) as (o' & Ho & Hd & _ & _ & Hst & _).
  exists o'. split; [exact Hs|]. rewrite Ho. split; [reflexivity|split; [exact Hd|exact Hst]].
Defined.
Lemma issued_activation_is_warranted_witness :
  ∃ c1 o b, submit_artifact a_consent proposed = (c1, Ok o) ∧ b ∈ issued o ∧ b ∈ artifacts c1.
Proof.
  destruct (applies_true _ _ consent_example) as (c1 & o & b & [Hs _ Hb Hk _]). exists c1, o, b.
  destruct (issued_activation_is_warranted a_consent proposed c1 o b Hs Hb Hk) as [Hin _].
  split; [exact Hs|split; [exact Hb|exact Hin]].
Defined.
Lemma admission_record_needs_another_proposal_witness :
  ∃ p q, p ≠ q ∧ p ∈ by_subject twice_proposed (ms_member candidate) ∧
    q ∈ by_subject twice_proposed (ms_member candidate).
Proof.
  destruct (admission_check_true _ _ _ proposals_example) as (b & Hb & Hk).
  destruct (admission_record_needs_another_proposal twice_proposed sponsor_state candidate b Hb Hk)
    as (_ & p & q & Hne & Hp & Hq & _).
  exists p, q. split; [exact Hne|split; [exact Hp|exact Hq]].
Defined.
Lemma fence_can_be_preempted_witness :
  ∃ s x, derive_locked squatted = Ok s ∧ find_member s (example_member x01) = Some x ∧
    lifecycle_holds_federation_authority (ms_lifecycle x) = true ∧
    fence_member (example_member x01) zero (wire ReasonCode.EvidenceUnknown) "" squatted = next_tick squatted.
Proof.
  destruct (fence_check_true _ _ squatted_example) as (s & x & [Hs Hx Hh Hv Hk]). exists s, x.
  split; [exact Hs|split; [exact Hx|split; [exact Hh|]]].
  exact (proj1 (fence_can_be_preempted (example_member x01) zero (wire ReasonCode.EvidenceUnknown) "" squatted s x
    Hs Hx Hv Hk)).
Defined.

(** A restart sets the logical clock back: an observation moves the clock and
    is stored, but the new tick is not, and loading takes the highest tick of
    the leases, the decisions and the explicit clock records; so after a restart the
    observation is there and the clock is where it was before it was made. *)
Theorem restart_sets_clock_back :
  let c := (report_observation an_observation started).1 in
  (value (tick started), value (tick c)) = (0, 1) ∧
  match restart c with
  | Ok c' => c_observations c' = c_observations c ∧ smap_find (example_member x01) (c_observations c') =
               Some an_observation ∧ value (tick c') = 0
  | Err _ => False
  end.
Proof. vm_compute. repeat split. Qed.
