(* ===== verification/Admission.v ===== *)
(** * The evidence set of the coordinator

    What src/coordinator.cpp may assume when it derives: every artefact in memory
    was validated and belongs to the federation, whichever operation put it
    there and however often the coordinator was restarted.  Also: a coordinator
    that ran can be started again, if the loader accepts what its journal holds. *)

From stdpp Require Import relations.
From S2P Require Import Prelude Errors Sha256 Text Codec Ids Names Scope Capability Policy Identity.
From S2P Require Import Explanation Lease Partition Evidence Membership Journal State Derivation.
From S2P Require Import Authority Coordinator Recovery Operations.

(** ** Sound evidence *)

Record sound (c : Impl) : Prop := {
  sd_catalog : catalog c = builtin;
  sd_evidence : Forall (λ a, artifact_validate builtin a = Ok tt ∧
    art_federation (envelope a) = cfg_federation (config c)) (artifacts c)
}.
Record same_evidence (c c' : Impl) : Prop := {
  se_config : config c' = config c;
  se_catalog : catalog c' = catalog c;
  se_artifacts : artifacts c' = artifacts c
}.
#[export] Instance same_evidence_preorder : PreOrder same_evidence.
Proof. split; [done|]. intros a b c [A1 A2 A3] [B1 B2 B3]. split; congruence. Qed.
Lemma sound_same c c' : same_evidence c c' → sound c → sound c'.
Proof. intros [H1 H2 H3] [S1 S2]. split; [rewrite H2; exact S1|]. rewrite H1, H3. exact S2. Qed.
Lemma sound_snoc c a :
  sound c → artifact_validate (catalog c) a = Ok tt →
  art_federation (envelope a) = cfg_federation (config c) → sound (with_artifacts (artifacts c ++ [a]) c).
Proof.
  intros [S1 S2] Hv Hf. rewrite S1 in Hv. split; [exact S1|]. cbn [with_artifacts artifacts config].
  apply Forall_app. split; [exact S2|]. apply Forall_singleton. split; [exact Hv|exact Hf].
Qed.

(** ** Operations that leave the evidence alone *)

Definition quiet {A} (m : Op A) : Prop := ∀ c, same_evidence c (m c).1.
Lemma quiet_bind {A B} (m : Op A) (k : A → Op B) : quiet m → (∀ a, quiet (k a)) → quiet (m ≫= k).
Proof.
  intros Hm Hk c. unfold mbind, Op_bind. specialize (Hm c).
  destruct (m c) as [c' [a|]]; [|done]. cbn in Hm. transitivity c'; [done|apply Hk].
Qed.
Lemma quiet_lift {A} (r : Result A) : quiet (lift r).
Proof. by intros c. Qed.
Lemma quiet_refuse b e t : quiet (refuse_if b e t).
Proof. by intros c. Qed.
Lemma quiet_get : quiet get.
Proof. by intros c. Qed.
Lemma quiet_derived : quiet derived.
Proof. by intros c. Qed.
Lemma quiet_ret {A} (a : A) : quiet (mret a).
Proof. by intros c. Qed.
Lemma quiet_modify f : (∀ c, same_evidence c (f c)) → quiet (modify f).
Proof. intros Hf c. apply Hf. Qed.
Lemma quiet_append t bs : quiet (journal_append t bs).
Proof.
  intros c. unfold journal_append. destruct (negb _); [done|].
  destruct (default _ _) as [w f]. by destruct (append _ _ _ _ _).
Qed.
Lemma quiet_encoded t e : quiet (journal_encoded t e).
Proof. apply quiet_bind; [apply quiet_lift|intros bs; apply quiet_append]. Qed.
Create HintDb quiet.
#[export] Hint Resolve quiet_lift quiet_refuse quiet_get quiet_derived quiet_ret quiet_append quiet_encoded : quiet.
Ltac quiet :=
  repeat first
    [ apply quiet_bind; [|intros ?]
    | progress cbv zeta
    | match goal with |- quiet (match ?x with _ => _ end) => destruct x end
    | solve [eauto with quiet]
    | apply quiet_modify; by intros ? ].

Lemma quiet_next_tick : quiet next_tick.
Proof. unfold next_tick. quiet. Qed.
#[export] Hint Resolve quiet_next_tick : quiet.
Lemma quiet_evaluate r : quiet (evaluate r).
Proof. unfold evaluate, commit_decision. quiet. Qed.
Lemma quiet_issue_lease r : quiet (issue_lease r).
Proof. unfold issue_lease. quiet. Qed.
Lemma quiet_revoke_lease l r t : quiet (revoke_lease l r t).
Proof. unfold revoke_lease. quiet. Qed.
Lemma quiet_report_observation o : quiet (report_observation o).
Proof. unfold report_observation. quiet. Qed.
Lemma quiet_advance_time t : quiet (advance_time t).
Proof. unfold advance_time. quiet. Qed.

(** ** Recording *)

Lemma record_decision_eq a c :
  record_decision a c =
  match artifact_validate (catalog c) a with
  | Err s => (c, Err s)
  | Ok _ =>
      if has_evidence c (art_evidence a) then (c, Ok false)
      else match journal_encoded JournalRecordType.Artifact (encode a) c with
           | (c1, Ok _) => (with_artifacts (artifacts c1 ++ [a]) c1, Ok true)
           | (c1, Err s) => (c1, Err s)
           end
  end.
Proof.
  unfold record_decision, get, lift, mbind, Op_bind. cbv iota beta.
  destruct (artifact_validate _ _) as [[]|]; [|reflexivity]. by destruct (has_evidence _ _).
Qed.
Lemma record_decision_cases a c :
  same_evidence c (record_decision a c).1 ∨
  artifact_validate (catalog c) a = Ok tt ∧
    ∃ c1, same_evidence c c1 ∧ (record_decision a c).1 = with_artifacts (artifacts c1 ++ [a]) c1.
Proof.
  rewrite record_decision_eq. destruct (artifact_validate _ _) as [[]|] eqn:Hv; [|by left].
  destruct (has_evidence _ _); [by left|].
  pose proof (quiet_encoded JournalRecordType.Artifact (encode a) c) as Hq.
  destruct (journal_encoded _ _ c) as [c1 [[]|]]; [right|by left]. cbn [fst] in Hq.
  split; [reflexivity|]. exists c1. split; [exact Hq|reflexivity].
Qed.
Lemma sound_record a c :
  art_federation (envelope a) = cfg_federation (config c) → sound c → sound (record_decision a c).1.
Proof.
  intros Hf Hs. destruct (record_decision_cases a c) as [Hq|(Hv & c1 & Hq & ->)]; [by eapply sound_same|].
  apply sound_snoc; [by eapply sound_same| |].
  - rewrite (se_catalog _ _ Hq). exact Hv.
  - rewrite (se_config _ _ Hq). exact Hf.
Qed.
Lemma sound_order a c :
  art_federation (envelope a) = cfg_federation (config c) → sound c → sound (record_order a c).1.
Proof.
  intros Hf Hs. unfold record_order, mbind, Op_bind. pose proof (sound_record a c Hf Hs) as H.
  destruct (record_decision a c) as [c1 [b|]]; [|exact H]. cbn [fst] in H.
  eapply sound_same; [apply quiet_next_tick|exact H].
Qed.

Lemma decision_for_federation c s x b :
  decision_for c s x = Some b → art_federation (envelope b) = cfg_federation (config c).
Proof.
  unfold decision_for. cbv zeta. destruct (lifecycle _); try discriminate.
  - unfold admission_for. intros Hb. apply bind_Some in Hb as (p & _ & Hb). cbv zeta in Hb.
    destruct (_ || _); [discriminate Hb|]. by injection Hb as <-.
  - by intros [= <-].
  - destruct (_ && _); [|discriminate]. by intros [= <-].
Qed.
Lemma sound_batch batch : ∀ c,
  Forall (λ b, art_federation (envelope b) = cfg_federation (config c)) batch → sound c →
  sound (record_batch batch c).1.1.
Proof.
  induction batch as [|a batch IH]; intros c Hb Hs; [done|]. cbn [record_batch].
  apply Forall_cons in Hb as [Ha Hb]. pose proof (sound_record a c Ha Hs) as H1.
  pose proof (record_decision_grown a c) as Hg. destruct (record_decision a c) as [c1 r]. cbn [fst] in H1, Hg.
  specialize (IH c1). rewrite (gr_config _ _ Hg) in IH. specialize (IH Hb H1).
  destruct (record_batch batch c1) as [[c2 l] p]. by destruct r as [[]|].
Qed.
Lemma sound_decide_loop passes : ∀ c, sound c → sound (decide_loop passes c).1.
Proof.
  induction passes as [|passes IH]; intros c Hs; [done|]. cbn [decide_loop].
  destruct (derive_locked c) as [s|]; [|done]. cbv zeta. destruct (nonempty _); [|done].
  assert (sound (record_batch (decision_batch c s) c).1.1) as H1.
  { apply sound_batch; [|done]. apply Forall_forall. intros b Hb.
    apply list_elem_of_omap in Hb as (x & _ & Hb). by eapply decision_for_federation. }
  destruct (record_batch _ c) as [[c1 l] p]. cbn [fst] in H1. destruct p; [|done].
  specialize (IH c1 H1). by destruct (decide_loop passes c1).
Qed.

Lemma sound_counters d r c : sound c → sound (with_counters d r c).
Proof. intros [S1 S2]. split; [exact S1|exact S2]. Qed.
Lemma sound_admit a c : sound c → sound (admit_locked a c).1.
Proof.
  intros Hs. unfold admit_locked. destruct (artifact_validate _ _) as [[]|] eqn:Hv; [|exact Hs].
  case_bool_decide as Hf; cbn [negb]; [|exact Hs]. destruct (_ <=? _); [exact Hs|].
  destruct (same_present c a); [by apply sound_counters|]. destruct (encode a) as [bs|]; [|exact Hs].
  cbv zeta. pose proof (quiet_append JournalRecordType.Artifact bs c) as Hq.
  destruct (journal_append _ bs c) as [c1 [[]|]]; cbn [fst] in Hq; [|by eapply sound_same].
  assert (sound (with_artifacts (artifacts c1 ++ [a]) c1)) as H1.
  { apply sound_snoc; [by eapply sound_same| |].
    - rewrite (se_catalog _ _ Hq). exact Hv.
    - rewrite (se_config _ _ Hq). exact Hf. }
  assert (∀ c2, sound c2 → sound (decide_locked c2).1) as Hd by (intros; by apply sound_decide_loop).
  destruct (conflicting_present c a).
  - match goal with |- context [decide_locked ?x] => specialize (Hd x (sound_counters _ _ _ H1)) end.
    by destruct (decide_locked _).
  - specialize (Hd _ H1). by destruct (decide_locked _).
Qed.

(** The orders: checks first, then one record of this federation. *)
Definition orders {A} (m : Op A) : Prop := ∀ c, sound c → sound (m c).1.
Lemma orders_bind {A B} (m : Op A) (k : A → Op B) c :
  quiet m → (∀ a c', m c = (c', Ok a) → sound c' → sound (k a c').1) → sound c → sound ((m ≫= k) c).1.
Proof.
  intros Hm Hk Hs. unfold mbind, Op_bind. pose proof (sound_same _ _ (Hm c) Hs) as H1.
  destruct (m c) as [c' [a|]] eqn:E; [by apply (Hk a c' eq_refl)|exact H1].
Qed.
Ltac orders :=
  intros c Hs; repeat first
    [ apply orders_bind; [solve [eauto with quiet]|intros ? ? [= <- <-] ?|assumption]
    | apply orders_bind; [solve [eauto with quiet]|intros ? ? [= <- ?] ?|assumption]
    | match goal with |- sound ((match ?x with _ => _ end) _).1 => destruct x end
    | progress cbv zeta
    | apply sound_order; [reflexivity|assumption]
    | assumption ].
Lemma orders_fence m l r t : orders (fence_member m l r t).
Proof. unfold fence_member. orders. Qed.
Lemma orders_retire m l r t : orders (retire_member m l r t).
Proof. unfold retire_member. orders. Qed.
Lemma orders_epoch e r t : orders (advance_epoch e r t).
Proof. unfold advance_epoch. orders. Qed.
Lemma orders_reconciliation e : orders (complete_reconciliation e).
Proof. unfold complete_reconciliation. orders. Qed.

(** ** Loading *)

(** Loading changes neither the configuration nor the catalogue. *)
Definition same_setting (c c' : Impl) : Prop := config c' = config c ∧ catalog c' = catalog c.
Lemma load_record_setting l r l' : load_record l r = Ok l' → same_setting (ld_impl l) (ld_impl l').
Proof.
  unfold load_record, same_setting. destruct (record_type_of _) as [[]|]; intros H;
    try (injection H as <-; done);
    apply bind_Ok in H as (v & _ & H); try (injection H as <-; done).
  destruct (ltb _ _); by injection H as <-.
Qed.
Lemma load_records_setting rs : ∀ l l', load_records rs l = Ok l' → same_setting (ld_impl l) (ld_impl l').
Proof.
  induction rs as [|r rs IH]; intros l l' H; cbn [load_records] in H; [by injection H as <-|].
  apply bind_Ok in H as (l1 & H1 & H). apply load_record_setting in H1 as [A1 A2].
  apply IH in H as [B1 B2]. split; congruence.
Qed.
Lemma load_journal_setting disk f c c' : load_journal disk f c = Ok c' → same_setting c c'.
Proof.
  unfold load_journal. case_bool_decide; [by intros [= <-]|]. intros H'.
  apply bind_Ok in H' as (j & _ & H'). apply bind_Ok in H' as ([] & _ & H').
  apply bind_Ok in H' as (rs & _ & H'). apply bind_Ok in H' as (l & Hl & H').
  apply bind_Ok in H' as (m & _ & H'). apply load_records_setting in Hl as [A1 A2].
  cbn [ld_impl opened config catalog] in A1, A2. cbv zeta in H'.
  set (c1 := resumed l m _) in H'.
  pose proof (quiet_encoded JournalRecordType.CoordinatorIncarnation (encode (c_incarnation c1)) c1) as Hq.
  destruct (journal_encoded _ _ c1) as [c2 [[]|]]; [|discriminate H']. injection H' as <-.
  cbn [fst] in Hq. destruct Hq as [Q1 Q2 _]. split; [by rewrite Q1|by rewrite Q2].
Qed.

Lemma sound_genesis c c' : sound c → ensure_genesis c = Ok c' → sound c'.
Proof.
  intros Hs. unfold ensure_genesis. destruct (existsb _ _).
  { intros [= <-]. destruct Hs as [S1 S2]. split; [exact S1|exact S2]. }
  destruct (negb _); [by intros [= <-]|]. intros Hr.
  apply bind_Ok in Hr as ([] & _ & Hr). apply bind_Ok in Hr as ([] & Hv & Hr).
  set (c1 := with_bootstrapped _) in *. assert (sound c1) as H1.
  { destruct (sound_snoc c (genesis_artifact c) Hs Hv eq_refl) as [S1 S2]. split; [exact S1|exact S2]. }
  pose proof (quiet_encoded JournalRecordType.Artifact (encode (genesis_artifact c)) c1) as Hq.
  destruct (journal_encoded _ _ c1) as [c2 [[]|]]; [|discriminate Hr]. injection Hr as <-.
  by eapply sound_same.
Qed.
(** What [create] makes of a coordinator that was loaded with sound evidence. *)
Lemma sound_create cfg disk f w c :
  create cfg disk f w = Ok c →
  (∀ c1, load_journal disk f (initial cfg w) = Ok c1 → same_setting (initial cfg w) c1 → sound c1) →
  sound c.
Proof.
  intros Hc Hload. unfold create in Hc. apply bind_Ok in Hc as ([] & _ & Hc).
  apply bind_Ok in Hc as (c1 & Hl & Hc). apply bind_Ok in Hc as (c2 & Hg & [= <-]).
  apply sound_decide_loop. eapply sound_genesis; [|exact Hg].
  apply Hload; [exact Hl|by eapply load_journal_setting].
Qed.

Lemma sound_run k c : sound c → sound (run k c).1.
Proof.
  intros Hs. destruct k; cbn [run]; rewrite ?ignoring_state.
  - by apply sound_admit.
  - eapply sound_same; [apply quiet_evaluate|exact Hs].
  - eapply sound_same; [apply quiet_issue_lease|exact Hs].
  - eapply sound_same; [apply quiet_revoke_lease|exact Hs].
  - eapply sound_same; [apply quiet_report_observation|exact Hs].
  - eapply sound_same; [apply quiet_advance_time|exact Hs].
  - by apply orders_fence.
  - by apply orders_retire.
  - by apply orders_epoch.
  - by apply orders_reconciliation.
Qed.
Lemma sound_step c c' : sound c → step c c' → sound c'.
Proof.
  intros Hs Hstep. destruct Hstep as [k c _|c es c1 [Hj Hok Hmax] Hc]; [by apply sound_run|].
  apply (sound_create _ _ _ _ _ Hc). intros c2 Hl [H1 H2].
  destruct (reload c es Hj Hok Hmax) as [(c3 & Hc3 & [Hm _ _])|[(s & Hf) _]]; [|congruence].
  assert (c3 = c2) as -> by congruence. injection Hm as Ha _ _ _.
  destruct Hs as [S1 S2]. split; [exact H2|]. rewrite Ha, H1. exact S2.
Qed.

Lemma sound_created cfg c :
  journal_path cfg ≠ "" → create cfg None no_faults [] = Ok c → sound c.
Proof.
  intros Hpath Hfresh. apply (sound_create _ _ _ _ _ Hfresh). intros c1 Hl [H1 H2]. split; [exact H2|].
  destruct (loaded_fresh cfg c1 Hpath Hl) as [_ Hj]. pose proof (jr_memory _ _ Hj) as Hm.
  injection Hm as Hm _ _ _. rewrite <-Hm. constructor.
Qed.
(** C24: every artefact a coordinator holds is well formed: from a new journal on,
    whatever is called and however often it is restarted, each artefact in the
    evidence set passes validation against the built-in catalogue and belongs to
    the federation of the configuration. *)
Theorem evidence_stays_valid cfg c c' a
    (Hpath : journal_path cfg ≠ "") (Hfresh : create cfg None no_faults [] = Ok c)
    (Hsteps : rtc step c c') (Ha : a ∈ artifacts c') :
  artifact_validate builtin a = Ok tt ∧ art_federation (envelope a) = cfg_federation (config c').
Proof.
  pose proof (sound_created cfg c Hpath Hfresh) as Hs.
  assert (sound c') as [_ Hall].
  { clear -Hs Hsteps. induction Hsteps as [|x y z Hxy _ IH]; [exact Hs|]. by apply IH, (sound_step x). }
  rewrite Forall_forall in Hall. by apply Hall.
Qed.

(** C25: a coordinator that ran can be started again: from the file it left, with the
    configuration it had, creation succeeds and brings back its evidence and its replay
    ledger under a later incarnation, provided that the file holds its events
    ([journaled]: no write failed), that every event can be read back ([event_ok]: widths
    and reason codes, which a message can violate, see [one_message_blocks_restart]),
    that there are no more of them than the journal may hold when it is opened, that
    there is room for one more record, and that the federation was founded if the
    configuration says it should be. *)
Theorem restart_succeeds c es
    (Hr : restartable c es) (Hconfig : validate_config (config c) = Ok tt)
    (Hroom : size_bytes (journal c) + 60 ≤ kMaxJournalBytes)
    (Hgenesis : bootstrap (config c) = true →
       ∃ g, g ∈ artifacts c ∧ art_kind (envelope g) = ArtifactKind.FederationGenesis) :
  ∃ c', create (config c) (Some (file (journal c))) no_faults [] = Ok c' ∧
    artifacts c `prefix_of` artifacts c' ∧ replay c' = replay c ∧
    value (c_incarnation c) < value (c_incarnation c').
Proof.
  destruct Hr as [Hj Hok Hmax].
  destruct (reload c es Hj Hok Hmax) as [(c1 & Hl & [Hmem _ Hinc])|[_ Hfull]]; [|lia].
  destruct (load_journal_setting _ _ _ _ Hl) as [Hc1 _]. injection Hmem as Ha _ _ Hrep.
  assert (∃ c2, ensure_genesis c1 = Ok c2 ∧ artifacts c2 = artifacts c1) as (c2 & Hg & He).
  { unfold ensure_genesis. destruct (existsb _ _) eqn:Hex; [by eexists|].
    rewrite Hc1. cbn [initial config]. destruct (bootstrap (config c)) eqn:Hb; [|by eexists].
    destruct (Hgenesis eq_refl) as (g & Hgin & Hk). exfalso.
    assert (existsb (λ a, bool_decide (art_kind (envelope a) = ArtifactKind.FederationGenesis))
      (artifacts c1) = true) as Ht; [|congruence].
    apply existsb_exists. exists g. rewrite Ha. split; [by apply list_elem_of_In|by apply bool_decide_eq_true]. }
  exists (decide_locked c2).1. unfold create. rewrite Hconfig. unfold mbind at 1, Result_bind at 1.
  rewrite Hl. unfold mbind at 1, Result_bind at 1. rewrite Hg.
  split; [reflexivity|]. destruct (decide_locked_grown c2) as [_ _ _ Hgr].
  destruct (ensure_genesis_run _ _ Hg) as (_ & Hi1 & _ & Hr1).
  destruct (decide_loop_run (N.to_nat (kMaxMembers + 2)) c2) as (_ & Hi2 & _ & Hr2).
  unfold decide_locked in *. split; [by rewrite <-Ha, <-He|]. split.
  - by rewrite Hr2, Hr1.
  - rewrite Hi2, Hi1. apply Hinc, (jr_current _ _ Hj).
Qed.

(** ** A journal that cannot be loaded *)

(** An artefact whose reason is no enumerator: it is stored and never read back. *)
Definition unreadable (a : Artifact) : Prop :=
  wire_ok (envelope a) ∧ body_widths_ok (body a) ∧ canonicalize_body (body a) = body a ∧
  ¬ listed (body_reason_code (body a)).
Lemma read_unreadable a bs : unreadable a → encode a = Ok bs →
  ∃ s, decode_record (A:=Artifact) "an artefact" bs = Err s ∧ code s = ErrorCode.Corrupt.
Proof.
  intros (He & Hb & Hc & Hl) Hbs. cbn [encode Artifact_codec] in Hbs.
  apply enc_app_Ok in Hbs as (x & y & Hx & Hy & ->).
  destruct (read_unlisted _ y [] Hb Hc Hl Hy) as [s Hs]. rewrite app_nil_r in Hs.
  assert (decode_prefix (A:=Artifact) (x ++ y) = Err s) as Hd.
  { unfold decode_prefix. cbn [decode Artifact_codec].
    erewrite dec_bind_Ok by (by apply roundtrip).
    unfold mbind at 2, Dec_bind. by rewrite Hs. }
  unfold decode_record. rewrite Hd. by eexists.
Qed.

Lemma load_records_fail rs l l1 r s rest :
  load_records rs l = Ok l1 → load_record l1 r = Err s → load_records (rs ++ r :: rest) l = Err s.
Proof.
  intros Hl Hr. revert l Hl. induction rs as [|x rs IH]; intros l Hl.
  - injection Hl as ->. cbn. by rewrite Hr.
  - cbn [app load_records] in *. apply bind_Ok in Hl as (l2 & Hx & Hl). rewrite Hx. by apply IH.
Qed.

Lemma load_blocked c es a more rs m :
  journal_path (config c) ≠ "" → logs (journal c) (es ++ Recorded a :: more) rs →
  Forall event_ok es → remember nothing es = Some m → unreadable a →
  size (es ++ Recorded a :: more) ≤ max_records default_options →
  ∃ s, load_journal (Some (file (journal c))) no_faults (initial (config c) []) = Err s ∧
    code s = ErrorCode.Corrupt.
Proof.
  intros Hpath Hlog Hok Hm Ha Hmax.
  destruct (reopen_logs _ _ _ Hlog Hmax) as (j & Hopen & Hlog' & Hwr & Hload).
  set (c0 := reopened j (config c)). set (l0 := mkLoading c0 [] 0 (value (initial_tick (config c))) 0).
  destruct (proj1 (Forall2_app_inv_l _ _ _ _) (lg_stores _ _ _ Hlog)) as (rs1 & rs2 & Hs1 & Hs2 & ->).
  apply Forall2_cons_inv_l in Hs2 as (r & rs3 & [Ht He] & Hs3 & ->).
  destruct (load_records_loaded c0 [] es rs1 nothing l0 m) as (l & Hl & _);
    [by apply (loaded_start c0)|done|done| |done|].
  { intros i x Hi. rewrite (lg_numbered _ _ _ Hlog i x); [unfold size; cbn; lia|].
    rewrite lookup_app. by rewrite Hi. }
  destruct (read_unreadable a (payload r) Ha He) as (s & Hs & Hcode).
  exists s. split; [|exact Hcode].
  assert (load_record l r = Err s) as Hr.
  { unfold load_record. rewrite Ht, record_type_of_value. cbn [event_type]. by rewrite Hs. }
  pose proof (load_records_fail rs1 l0 l r s rs3 Hl Hr) as Hfail.
  unfold load_journal. cbn [config initial]. rewrite bool_decide_eq_false_2 by done.
  change (default [] (Some ?f)) with f. rewrite Hopen. unfold mbind at 1, Result_bind at 1. cbv zeta.
  fold (reopened j (config c)). fold c0. rewrite Hwr. cbn [negb fail_if].
  unfold mbind at 1, Result_bind at 1. rewrite Hload. unfold mbind at 1, Result_bind at 1.
  change (config c0) with (config c). fold l0. by rewrite Hfail.
Qed.

(** What was recorded is the last event of the journal. *)
Lemma record_decision_journaled a c es c1 :
  journaled c es → has_evidence c (art_evidence a) = false → record_decision a c = (c1, Ok true) →
  config c1 = config c ∧ journaled c1 (es ++ [Recorded a]).
Proof.
  intros Hj Hn. unfold record_decision, get, lift, mbind, Op_bind. cbv iota beta.
  destruct (artifact_validate (catalog c) a) as [[]|]; [|done]. rewrite Hn.
  destruct (journal_encoded_cases c es (Recorded a) Hj) as [(s & H)|(j & rs & H & Hl)];
    cbn [event_type encode_event] in H; rewrite H; [done|].
  intros [= <-]. split; [done|]. pose proof Hj as [Hd _ _ _ _ Hsort Hled _ _ _ _].
  by apply (journaled_snoc c es (Recorded a) _ rs Hj).
Qed.
Lemma record_order_stored a c es c1 :
  journaled c es → has_evidence c (art_evidence a) = false → record_order a c = (c1, Ok tt) →
  config c1 = config c ∧ ∃ rs, logs (journal c1) (es ++ [Recorded a]) rs.
Proof.
  intros Hj Hn. unfold record_order. unfold mbind at 1, Op_bind.
  destruct (record_decision a c) as [c' [b|e]] eqn:Hd; [|done]. intros [= <-].
  assert (b = true) as ->.
  { revert Hd. unfold record_decision, get, lift, mbind, Op_bind. cbv iota beta.
    destruct (artifact_validate _ _); [|done]. rewrite Hn.
    destruct (journal_encoded _ _ _) as [? []]; [|done]. by intros [= _ <-]. }
  destruct (record_decision_journaled a c es c' Hj Hn Hd) as [Hc Hj'].
  split; [exact Hc|exact (jr_log _ _ Hj')].
Qed.

(** The reason of an order is a 16-bit value that the coordinator does not check.
    Once a member has been fenced for a reason that is no enumerator, the order is
    in the journal, and every later start with this file fails. *)
Lemma fence_blocks_restart m l reason text c es c1 s found
    (Hr : restartable c es) (Hroom : size es < max_records default_options)
    (Hconfig : validate_config (config c) = Ok tt)
    (Hs : derive_locked c = Ok s) (Hm : find_member s m = Some found)
    (Hreason : ¬ listed reason)
    (a := make_lifecycle_record c s ArtifactKind.MembershipFence m (effective_lineage l found)
            (epoch s) reason text)
    (Hwire : wire_ok (envelope a) ∧ body_widths_ok (body a))
    (Hnew : has_evidence c (art_evidence a) = false)
    (Hrun : fence_member m l reason text c = (c1, Ok tt)) :
  ∃ e, create (config c1) (Some (file (journal c1))) no_faults [] = Err e ∧
    code e = ErrorCode.Corrupt.
Proof.
  destruct Hr as [Hj Hok _]. assert (record_order a c = (c1, Ok tt)) as Hrec.
  { revert Hrun. unfold fence_member, derived. unfold mbind at 1, Op_bind at 1. rewrite Hs.
    unfold get, mbind, Op_bind. by rewrite Hm. }
  destruct (record_order_stored a c es c1 Hj Hnew Hrec) as (Hc & rs & Hlog).
  destruct (load_blocked c1 es a [] rs (memory_of c)) as (e & He & Hcode); try done.
  - rewrite Hc. apply (jr_path _ _ Hj).
  - apply (jr_memory _ _ Hj).
  - destruct Hwire. by split_and!.
  - rewrite size_app. unfold size in *. cbn [length]. lia.
  - exists e. split; [|exact Hcode]. unfold create. rewrite Hc in *. rewrite Hconfig.
    unfold mbind at 1, Result_bind at 1. by rewrite He.
Qed.

(** ** Instances *)

Definition holds_after (a : Artifact) (cfg : CoordinatorConfig) : bool :=
  match create cfg None no_faults [] with
  | Ok c => bool_decide (a ∈ artifacts (run (Submit a) c).1)
  | Err _ => false
  end.
Lemma holds_after_true a cfg : holds_after a cfg = true →
  ∃ c, create cfg None no_faults [] = Ok c ∧ a ∈ artifacts (run (Submit a) c).1.
Proof.
  unfold holds_after. destruct (create _ _ _ _) as [c|]; [|done].
  intros H%bool_decide_eq_true. by exists c.
Qed.
Lemma submitted_example : holds_after a_consent example_config = true.
Proof. vm_cast_no_check (eq_refl true). Qed.
Lemma leased_config :
  validate_config (config leased) = Ok tt ∧ bootstrap (config leased) = false.
Proof. split; [vm_cast_no_check (eq_refl (Ok tt : Result unit))|vm_cast_no_check (eq_refl false)]. Qed.

Lemma evidence_stays_valid_witness :
  ∃ c, a_consent ∈ artifacts (run (Submit a_consent) c).1 ∧
    artifact_validate builtin a_consent = Ok tt.
Proof.
  destruct (holds_after_true _ _ submitted_example) as (c & Hc & Ha). exists c. split; [exact Ha|].
  exact (proj1 (evidence_stays_valid example_config c _ a_consent ltac:(discriminate) Hc
    (rtc_once (R := step) _ _ (step_call (Submit a_consent) c (or_intror I))) Ha)).
Defined.
Lemma restart_succeeds_witness :
  ∃ c', create (config leased) (Some (file (journal leased))) no_faults [] = Ok c' ∧
    value (c_incarnation leased) < value (c_incarnation c').
Proof.
  destruct leased_config as [Hv Hb].
  destruct (restart_succeeds leased _ leased_restartable Hv leased_room) as (c' & Hc & _ & _ & Hi);
    [rewrite Hb; discriminate|].
  exists c'. split; [exact Hc|exact Hi].
Defined.

(** A departure with an empty body, and the coordinator that recorded it. *)
Definition a_leave : Artifact :=
  Artifact_make
    (mkEnvelope (mkId (replicate 16 x44)) ArtifactKind.MembershipLeave example_federation
       (example_member x01)
       (mkProvenance (mkId (replicate 16 x09)) (example_member x01) (mkCounter 1) (mkCounter 1)
          Digest_zero (mkCounter 1) (mkCounter 1)) Digest_zero) no_body.
Definition recorded (a : Artifact) (c : Impl) : Impl := (record_decision a c).1.
Definition stored (a : Artifact) (c : Impl) : bool :=
  negb (has_evidence c (art_evidence a)) &&
  match (record_decision a c).2 with Ok b => b | Err _ => false end.
Lemma stored_true a c es : journaled c es → stored a c = true →
  config (recorded a c) = config c ∧ journaled (recorded a c) (es ++ [Recorded a]).
Proof.
  intros Hj. unfold stored, recorded. rewrite andb_true_iff, negb_true_iff. intros [Hn Hr].
  destruct (record_decision a c) as [c1 [[]|]] eqn:Hd; try done.
  exact (record_decision_journaled a c es c1 Hj Hn Hd).
Qed.
Lemma a_leave_ok : wire_ok a_leave.
Proof.
  split; [|split].
  - unfold a_leave. cbn. split_and!; try reflexivity; vm_compute; try reflexivity; discriminate.
  - exact no_body_ok.
  - exact no_body_canonical.
Qed.

(** An order about a member whose fields are within their widths, for a reason
    that is no enumerator. *)
Record order_ready (m : MemberId) (reason : N) (c c1 : Impl) (s : FederationState) (x : MemberState)
    (a : Artifact) : Prop := {
  or_derived : derive_locked c = Ok s;
  or_found : find_member s m = Some x;
  or_artifact : a = make_lifecycle_record c s ArtifactKind.MembershipFence m (effective_lineage zero x)
                      (epoch s) reason "";
  or_wire : wire_ok (envelope a) ∧ body_widths_ok (body a);
  or_new : has_evidence c (art_evidence a) = false;
  or_run : fence_member m zero reason "" c = (c1, Ok tt)
}.
Definition sized (n : nat) (l : list byte) : bool := bool_decide (length l = n).
Definition envelope_sized (e : ArtifactEnvelope) : bool :=
  sized 16 (id_bytes (evidence e)) && sized 16 (id_bytes (art_federation e)) &&
  sized 16 (id_bytes (subject e)) && sized 16 (id_bytes (prov_node (issuer e))) &&
  sized 16 (id_bytes (prov_member (issuer e))) && (value (prov_generation (issuer e)) <=? u64_max) &&
  (value (prov_incarnation (issuer e)) <=? u64_max) &&
  sized kDigestSize (digest_bytes (prov_constitution (issuer e))) &&
  (value (prov_epoch (issuer e)) <=? u64_max) && (value (prov_issued_at (issuer e)) <=? u64_max) &&
  sized kDigestSize (digest_bytes (body_digest e)).
Lemma envelope_sized_ok e : envelope_sized e = true → wire_ok e.
Proof.
  unfold envelope_sized, sized. rewrite !andb_true_iff, !bool_decide_eq_true, !N.leb_le.
  cbn [wire_ok ArtifactEnvelope_codec Provenance_codec]. naive_solver.
Qed.
Definition order_sized (c : Impl) (s : FederationState) (l : Lineage) (e : Epoch) (reason : N) : bool :=
  (value e <=? u64_max) && (value (s_policy_generation s) <=? u64_max) &&
  sized kDigestSize (digest_bytes (s_policy_digest s)) && (value l <=? u64_max) &&
  (reason <=? u16_max) && (value (tick c) <=? u64_max).
Lemma order_sized_ok c s l e o reason fence text :
  order_sized c s l e reason = true → body_widths_ok (order_body c s l e o reason fence text).
Proof.
  unfold order_sized, sized. rewrite !andb_true_iff, !bool_decide_eq_true, !N.leb_le. intros H.
  pose proof (proj1 no_body_ok) as Hb. unfold body_widths_ok in *. cbn in *. naive_solver.
Qed.
Definition order_check (m : MemberId) (reason : N) (c : Impl) : bool :=
  match derive_locked c with
  | Ok s =>
      match find_member s m with
      | Some x =>
          let a := make_lifecycle_record c s ArtifactKind.MembershipFence m (effective_lineage zero x)
                     (epoch s) reason "" in
          envelope_sized (envelope a) && order_sized c s (effective_lineage zero x) (epoch s) reason &&
          negb (has_evidence c (art_evidence a)) && op_ok (fence_member m zero reason "") c
      | None => false
      end
  | Err _ => false
  end.
Lemma order_check_true m reason c : order_check m reason c = true →
  ∃ c1 s x a, order_ready m reason c c1 s x a.
Proof.
  unfold order_check. destruct (derive_locked c) as [s|] eqn:Hs; [|done].
  destruct (find_member s m) as [x|] eqn:Hx; [|done].
  rewrite !andb_true_iff, negb_true_iff. intros [[[He Hb] Hn] Hr].
  apply op_ok_true in Hr as (c1 & [] & Hr). exists c1, s, x. eexists.
  split; [exact Hs|exact Hx|reflexivity| |exact Hn|exact Hr]. split; [by apply envelope_sized_ok|].
  unfold make_lifecycle_record, Artifact_make. cbn [body].
  change (canonicalize_body ?b) with b. by apply order_sized_ok.
Qed.
Notation departed := (recorded a_leave started).
Lemma order_example :
  (stored a_leave started && order_check (example_member x01) 9999 departed &&
   is_ok (validate_config (config departed)) &&
   negb (bool_decide (listed 9999))) = true.
Proof. vm_cast_no_check (eq_refl true). Qed.
Lemma four_checks a b c d : a && b && c && negb d = true → a = true ∧ b = true ∧ c = true ∧ d = false.
Proof. by destruct a, b, c, d. Qed.
Lemma departed_restartable : restartable departed [Incarnated (mkCounter 1); Recorded a_leave].
Proof.
  destruct (four_checks _ _ _ _ order_example) as (Hst & _).
  constructor; [| |vm_compute; discriminate].
  - exact (proj2 (stored_true a_leave started _ (proj2 started_fresh) Hst)).
  - repeat apply Forall_cons_2; [vm_compute; reflexivity|exact a_leave_ok|constructor].
Qed.
