(* ===== verification/Net.v ===== *)
(** * The framed loopback transport

    Models include/fabric_federation/net.hpp and src/net.cpp: sockets as the
    byte streams the operating system keeps for them.  What a system call does is
    an input of the model: how many bytes [::recv] and [::send] move at a time,
    when the peer closes and when a call fails.  Theorems here: reading an exact
    number of bytes depends on the bytes of the stream only, never on how they
    arrive, and both loops end. *)

From S2P Require Import Prelude Errors Text.

(** ** Endpoints *)

Record Endpoint := mkEndpoint { host : string; ep_port : N }.
#[export] Instance Endpoint_eq_dec : EqDecision Endpoint.
Proof. solve_decision. Defined.
Definition endpoint_to_string (e : Endpoint) : string := host e +s+ ":" +s+ to_dec (ep_port e).
Definition transport_description : string :=
  "REAL: TCP over the loopback interface (AF_INET, 127.0.0.1) via POSIX sockets".

(** ** Sockets *)

(** [segments] is what the operating system has for [::recv], in the portions it
    hands out; afterwards [::recv] returns zero if the peer closed the
    connection and fails otherwise.  [accepts] says how many bytes each call of
    [::send] takes, with zero for a failure; afterwards each takes all it is given.
    [errno_text] is the text of the error of the last failing call. *)
Record Socket := mkSocket {
  handle_valid : bool;
  segments : list (list byte);
  peer_closed : bool;
  sent : list byte;
  accepts : list N;
  errno_text : string
}.
Definition no_socket : Socket := mkSocket false [] true [] [] "".
Definition with_segments (l : list (list byte)) (s : Socket) : Socket :=
  mkSocket (handle_valid s) l (peer_closed s) (sent s) (accepts s) (errno_text s).
Definition with_sent (bs : list byte) (l : list N) (s : Socket) : Socket :=
  mkSocket (handle_valid s) (segments s) (peer_closed s) bs l (errno_text s).
Definition last_socket_error (s : Socket) : string := "socket error: " +s+ errno_text s.

(** Operations on a socket that may fail. *)
Definition IO (A : Type) : Type := Socket → Socket * Result A.
#[export] Instance IO_ret : MRet IO := λ A a s, (s, Ok a).
#[export] Instance IO_bind : MBind IO := λ A B k m s,
  match m s with
  | (s, Ok a) => k a s
  | (s, Err e) => (s, Err e)
  end.
Definition io_lift {A} (r : Result A) : IO A := λ s, (s, r).
Definition io_check (bad : bool) (c : ErrorCode.t) (m : string) : IO unit := io_lift (fail_if bad c m).
Lemma io_bind_Ok {A B} (m : IO A) (k : A → IO B) s s' a :
  m s = (s', Ok a) → (m ≫= k) s = k a s'.
Proof. unfold mbind, IO_bind. by intros ->. Qed.
Lemma io_bind_Err {A B} (m : IO A) (k : A → IO B) s s' e :
  m s = (s', Err e) → (m ≫= k) s = (s', Err e).
Proof. unfold mbind, IO_bind. by intros ->. Qed.

(** The most bytes one system call is asked for. *)
Definition kIoChunk : N := 1048576.
Definition release (s : Socket) : Socket :=
  mkSocket false (segments s) (peer_closed s) (sent s) (accepts s) (errno_text s).
Definition socket_close : IO unit := λ s, (release s, Ok tt).

(** *** Sending *)

(** One call of [::send]; zero bytes stand for a failure. *)
Definition os_send (chunk : list byte) (s : Socket) : Socket * N :=
  let n := N.min (default (size chunk) (head (accepts s))) (size chunk) in
  (with_sent (sent s ++ take (N.to_nat n) chunk) (tail (accepts s)) s, n).
Fixpoint send_loop (fuel : nat) (data : list byte) (s : Socket) : Socket * Result unit :=
  match fuel with
  | O => (s, fail ErrorCode.Internal "fuel")
  | S fuel =>
      if nonempty data then
        let '(s, n) := os_send (take (N.to_nat (N.min (size data) kIoChunk)) data) s in
        if n =? 0 then (s, fail ErrorCode.NetworkError ("send failed: " +s+ last_socket_error s))
        else send_loop fuel (drop (N.to_nat n) data) s
      else (s, Ok tt)
  end.
Definition send_all (data : list byte) : IO unit := λ s,
  if negb (handle_valid s) then (s, fail ErrorCode.NotInitialized "socket is closed")
  else send_loop (S (length data)) data s.

(** *** Receiving *)

(** One call of [::recv] with room for [n] bytes: some of the next portion. *)
Fixpoint os_recv (n : nat) (l : list (list byte)) : list byte * list (list byte) :=
  match l with
  | [] => ([], [])
  | [] :: l => os_recv n l
  | seg :: l => (take n seg, drop n seg :: l)
  end.
Definition recv_some (room : N) : IO (list byte) := λ s,
  if negb (handle_valid s) then (s, fail ErrorCode.NotInitialized "socket is closed")
  else if room =? 0 then (s, Ok [])
  else
    let '(bs, l) := os_recv (N.to_nat (N.min room kIoChunk)) (segments s) in
    if nonempty bs || peer_closed s then (with_segments l s, Ok bs)
    else (with_segments l s, fail ErrorCode.NetworkError ("recv failed: " +s+ last_socket_error s)).
(** The bytes received so far, of [total]. *)
Fixpoint recv_loop (fuel : nat) (received : list byte) (total : N) (s : Socket) :
    Socket * Result (list byte) :=
  match fuel with
  | O => (s, fail ErrorCode.Internal "fuel")
  | S fuel =>
      if size received <? total then
        match recv_some (total - size received) s with
        | (s, Err e) => (s, Err e)
        | (s, Ok chunk) =>
            if negb (nonempty chunk) then
              (s, fail ErrorCode.Truncated
                    ("peer closed the connection after " +s+ to_dec (size received) +s+ " of " +s+
                     to_dec total +s+ " bytes"))
            else recv_loop fuel (received ++ chunk) total s
        end
      else (s, Ok received)
  end.
Definition recv_exact (total : N) : IO (list byte) := λ s, recv_loop (S (N.to_nat total)) [] total s.

(** ** Connecting and listening

    The outcomes of the system calls are inputs: which of them succeed, the
    socket that [::connect] or [::accept] gives and the port that was bound. *)

(** The POSIX build has nothing to start. *)
Definition initialize_networking : Result unit := Ok tt.
Record ConnectOs := mkConnectOs {
  co_socket : bool;
  co_address : bool;
  co_connect : bool;
  co_peer : Socket
}.
Definition connect (os : ConnectOs) (e : Endpoint) : Result Socket :=
  initialize_networking;;
  fail_if (negb (bool_decide (host e = "127.0.0.1")) && negb (bool_decide (host e = "localhost")))
          ErrorCode.UnsupportedVersion "only loopback endpoints are supported by this runtime";;
  fail_if (negb (co_socket os)) ErrorCode.NetworkError
          ("socket() failed: " +s+ last_socket_error (co_peer os));;
  fail_if (negb (co_address os)) ErrorCode.NetworkError "loopback address could not be encoded";;
  fail_if (negb (co_connect os)) ErrorCode.NetworkError
          ("connect to " +s+ endpoint_to_string e +s+ " failed: " +s+ last_socket_error (co_peer os));;
  Ok (co_peer os).

Record Listener := mkListener { listening : bool; port : N }.
Record BindOs := mkBindOs {
  bo_socket : bool;
  bo_address : bool;
  bo_bind : bool;
  bo_listen : bool;
  bo_name : option N;
  bo_error : string
}.
Definition bind_loopback (os : BindOs) : Result Listener :=
  let error := "socket error: " +s+ bo_error os in
  initialize_networking;;
  fail_if (negb (bo_socket os)) ErrorCode.NetworkError ("socket() failed: " +s+ error);;
  fail_if (negb (bo_address os)) ErrorCode.NetworkError "loopback address could not be encoded";;
  fail_if (negb (bo_bind os)) ErrorCode.NetworkError ("bind failed: " +s+ error);;
  fail_if (negb (bo_listen os)) ErrorCode.NetworkError ("listen failed: " +s+ error);;
  match bo_name os with
  | None => fail ErrorCode.NetworkError ("getsockname failed: " +s+ error)
  | Some p => Ok (mkListener true p)
  end.
(** The connection the operating system has, or the text of its error. *)
Definition accept (os : Socket + string) (l : Listener) : Result Socket :=
  fail_if (negb (listening l)) ErrorCode.NotInitialized "listener is closed";;
  match os with
  | inl s => Ok s
  | inr error => fail ErrorCode.NetworkError ("accept failed: socket error: " +s+ error)
  end.

(** ** The loops, in terms of the stream *)

Definition stream (s : Socket) : list byte := mjoin (segments s).
(** What two sockets agree on that differ in how the bytes arrive. *)
Record same_socket (s s' : Socket) : Prop := {
  ss_stream : stream s = stream s';
  ss_rest : handle_valid s = handle_valid s' ∧ peer_closed s = peer_closed s' ∧ sent s = sent s' ∧
    accepts s = accepts s' ∧ errno_text s = errno_text s'
}.
#[export] Instance same_socket_equiv : Equivalence same_socket.
Proof.
  split; [done| |].
  - intros s s' [H (? & ? & ? & ? & ?)]. by split.
  - intros s1 s2 s3 [H (? & ? & ? & ? & ?)] [H' (? & ? & ? & ? & ?)]. split; [congruence|].
    split_and!; congruence.
Qed.

Lemma os_recv_stream n l :
  (0 < n)%nat → mjoin (os_recv n l).2 = drop (length (os_recv n l).1) (mjoin l) ∧
  (os_recv n l).1 = take (length (os_recv n l).1) (mjoin l) ∧
  (length (os_recv n l).1 ≤ n)%nat ∧ (nonempty (os_recv n l).1 = nonempty (mjoin l)).
Proof.
  intros Hn. induction l as [|[|b seg] l IH]; [cbn; split_and!; (done || lia)|exact IH|].
  cbn [os_recv fst snd]. change (mjoin ((b :: seg) :: l)) with ((b :: seg) ++ mjoin l).
  change (mjoin (drop n (b :: seg) :: l)) with (drop n (b :: seg) ++ mjoin l).
  rewrite length_take. split_and!; [| |lia|].
  - destruct (decide (n ≤ length (b :: seg))%nat).
    + rewrite Nat.min_l by done. by rewrite drop_app_le.
    + rewrite Nat.min_r by lia. rewrite drop_ge by lia. rewrite drop_app_length. done.
  - destruct (decide (n ≤ length (b :: seg))%nat).
    + rewrite Nat.min_l by done. by rewrite take_app_le.
    + rewrite Nat.min_r, take_ge by lia. by rewrite take_app_length.
  - by destruct n; [lia|].
Qed.

(** Reading as a function of the bytes still to come. *)
Definition recv_result (total : N) (s : Socket) : Result (list byte) :=
  if size (stream s) <? total then
    if peer_closed s then
      fail ErrorCode.Truncated ("peer closed the connection after " +s+ to_dec (size (stream s)) +s+
                                " of " +s+ to_dec total +s+ " bytes")
    else fail ErrorCode.NetworkError ("recv failed: " +s+ last_socket_error s)
  else Ok (take (N.to_nat total) (stream s)).
Record advanced (n : nat) (s s' : Socket) : Prop := {
  av_stream : stream s' = drop n (stream s);
  av_rest : handle_valid s' = handle_valid s ∧ peer_closed s' = peer_closed s ∧ sent s' = sent s ∧
    accepts s' = accepts s ∧ errno_text s' = errno_text s
}.
Lemma advanced_trans n m s s' s'' : advanced n s s' → advanced m s' s'' → advanced (n + m) s s''.
Proof.
  intros [H (? & ? & ? & ? & ?)] [H' (? & ? & ? & ? & ?)]. split.
  - by rewrite H', H, drop_drop.
  - split_and!; congruence.
Qed.

Lemma recv_some_advanced room s :
  handle_valid s = true → 0 < room →
  ∃ n s', (N.of_nat n ≤ room) ∧ advanced n s s' ∧ (n ≤ length (stream s))%nat ∧
    ((stream s = [] ∧ recv_some room s =
        (s', if peer_closed s then Ok [] else fail ErrorCode.NetworkError ("recv failed: " +s+ last_socket_error s))) ∨
     (0 < n)%nat ∧ recv_some room s = (s', Ok (take n (stream s)))).
Proof.
  intros Hv Hroom. unfold recv_some. rewrite Hv. cbn [negb].
  destruct (N.eqb_spec room 0); [lia|]. set (k := N.to_nat (N.min room kIoChunk)).
  assert (0 < k)%nat as Hk by (unfold k, kIoChunk; lia).
  destruct (os_recv_stream k (segments s) Hk) as (H1 & H2 & H3 & H4).
  destruct (os_recv k (segments s)) as [bs l]. cbn [fst snd] in *.
  exists (length bs), (with_segments l s). split; [unfold k, kIoChunk in *; lia|].
  split; [by split|]. split.
  { pose proof (f_equal length H2) as Hl. rewrite length_take in Hl. unfold stream. lia. }
  unfold stream. destruct bs as [|b bs].
  - left. destruct (mjoin (segments s)); [|done]. cbn [nonempty negb orb].
    split; [done|]. by destruct (peer_closed s).
  - right. split; [cbn; lia|]. change (nonempty (b :: bs)) with true. cbn [orb]. by rewrite <-H2.
Qed.

Lemma recv_loop_stream fuel : ∀ received total s,
  handle_valid s = true → size received ≤ total → total - size received < N.of_nat fuel →
  let n := Nat.min (N.to_nat (total - size received)) (length (stream s)) in
  advanced n s (recv_loop fuel received total s).1 ∧
  (recv_loop fuel received total s).2 =
    if size received + size (stream s) <? total then
      if peer_closed s then
        fail ErrorCode.Truncated ("peer closed the connection after " +s+
          to_dec (size received + size (stream s)) +s+ " of " +s+ to_dec total +s+ " bytes")
      else fail ErrorCode.NetworkError ("recv failed: " +s+ last_socket_error s)
    else Ok (received ++ take n (stream s)).
Proof.
  induction fuel as [|fuel IH]; intros received total s Hv Hle Hfuel n; [lia|].
  cbn [recv_loop]. destruct (N.ltb_spec (size received) total) as [Hlt|Hge].
  - destruct (recv_some_advanced (total - size received) s Hv) as (m & s1 & Hm & Hadv & Hlen & H); [lia|].
    destruct H as [[Hnil H]|[Hpos H]]; rewrite H.
    + subst n. rewrite Hnil in *. cbn [length] in *. assert (m = 0%nat) as -> by lia.
      rewrite Nat.min_0_r. change (size []) with 0. rewrite N.add_0_r.
      destruct (N.ltb_spec (size received) total); [|lia]. by destruct (peer_closed s).
    + pose proof Hadv as [Hs1 (Hv1 & Hp1 & _ & _ & He1)].
      assert (length (take m (stream s)) = m) as Htake by (rewrite length_take; lia).
      assert (nonempty (take m (stream s)) = true) as ->
        by (unfold nonempty; rewrite Htake; by destruct m; [lia|]).
      cbn [negb]. assert (size (received ++ take m (stream s)) = size received + N.of_nat m) as Hsz
        by (unfold size; rewrite length_app, Htake; lia).
      assert (length (stream s1) = length (stream s) - m)%nat as Hlen1 by (by rewrite Hs1, length_drop).
      destruct (IH (received ++ take m (stream s)) total s1) as [IH1 IH2];
        [congruence|lia|lia|]. rewrite Hsz in *.
      assert (m + Nat.min (N.to_nat (total - (size received + N.of_nat m))) (length (stream s1)) = n)%nat
        as Hn by (unfold n; rewrite Hlen1; lia).
      split; [rewrite <-Hn; by eapply advanced_trans|].
      rewrite IH2, Hp1. unfold last_socket_error. rewrite He1.
      replace (size received + N.of_nat m + size (stream s1)) with (size received + size (stream s))
        by (unfold size; lia).
      destruct (size received + size (stream s) <? total); [reflexivity|]. f_equal. rewrite <-app_assoc. f_equal.
      rewrite <-Hn, <-take_take_drop. by rewrite Hs1 at 2.
  - assert (total = size received) as -> by lia. replace n with 0%nat by (unfold n; lia).
    split; [by split|]. destruct (N.ltb_spec (size received + size (stream s)) (size received)); [lia|].
    by rewrite take_0, app_nil_r.
Qed.

Lemma recv_exact_stream total s :
  handle_valid s = true →
  advanced (Nat.min (N.to_nat total) (length (stream s))) s (recv_exact total s).1 ∧
  (recv_exact total s).2 = recv_result total s.
Proof.
  intros Hv. unfold recv_exact, recv_result.
  destruct (recv_loop_stream (S (N.to_nat total)) [] total s Hv) as [H1 H2];
    [unfold size; cbn; lia..|].
  change (size []) with 0 in *. rewrite N.sub_0_r in *. split; [exact H1|].
  rewrite H2, N.add_0_l. destruct (N.ltb_spec (size (stream s)) total); [done|].
  rewrite app_nil_l, Nat.min_l by (unfold size in *; lia). done.
Qed.
(** Sockets that hold the same bytes cannot be told apart by reading. *)
Lemma recv_exact_same total s s' :
  handle_valid s = true → same_socket s s' →
  (recv_exact total s).2 = (recv_exact total s').2 ∧
  same_socket (recv_exact total s).1 (recv_exact total s').1.
Proof.
  intros Hv [Hs (Hv' & Hp & Hsent & Ha & He)].
  destruct (recv_exact_stream total s Hv) as [[A1 (A2 & A3 & A4 & A5 & A6)] B].
  destruct (recv_exact_stream total s') as [[A1' (A2' & A3' & A4' & A5' & A6')] B']; [congruence|].
  split.
  - rewrite B, B'. unfold recv_result, last_socket_error. by rewrite Hs, Hp, He.
  - split; [by rewrite A1, A1', Hs|]. split_and!; congruence.
Qed.

Lemma take_min {A} n (l : list A) : take (N.to_nat (N.min n (size l))) l = take (N.to_nat n) l.
Proof.
  destruct (N.le_gt_cases n (size l)) as [H|H]; [by rewrite N.min_l|].
  rewrite N.min_r by lia. unfold size in *. rewrite Nat2N.id, firstn_all, take_ge by lia. done.
Qed.
Lemma io_chunk_pos {A} (a : A) l : (0 < N.to_nat (N.min (size (a :: l)) kIoChunk))%nat.
Proof. unfold kIoChunk, size. cbn [length]. lia. Qed.
(** What the loop has sent when it stops. *)
Lemma send_loop_sent fuel : ∀ data s,
  (length data < fuel)%nat →
  ∃ n s', advanced 0 s (with_sent (sent s) (accepts s) s') ∧ sent s' = sent s ++ take n data ∧
    ((send_loop fuel data s = (s', Ok tt) ∧ take n data = data) ∨
     send_loop fuel data s =
       (s', fail ErrorCode.NetworkError ("send failed: " +s+ last_socket_error s)) ∧
     Exists (λ k, k = 0) (accepts s)).
Proof.
  induction fuel as [|fuel IH]; intros data s Hfuel; [lia|].
  cbn [send_loop]. destruct data as [|b data].
  { exists 0%nat, s. rewrite app_nil_r. split; [by split|]. split; [done|]. by left. }
  set (d := b :: data) in *. change (nonempty d) with true. cbv iota. unfold os_send.
  pose proof (io_chunk_pos b data) as HK. fold d in HK. revert HK.
  generalize (N.to_nat (N.min (size d) kIoChunk)). intros K HK.
  set (c := take K d).
  set (k := N.min (default (size c) (head (accepts s))) (size c)).
  assert (0 < size c) as Hc by (unfold c, d, size; rewrite length_take; cbn [length]; lia).
  set (s1 := with_sent _ _ s). destruct (N.eqb_spec k 0) as [Hk|Hk].
  { exists 0%nat, s1. split; [by split|]. split; [cbn; by rewrite Hk|]. right. split; [done|].
    unfold k in Hk. destruct (accepts s) as [|a l]; [cbn in Hk; lia|]. cbn in Hk. left. lia. }
  assert (k ≤ size c) as Hkc by (unfold k; lia).
  assert (size c ≤ size d) as Hcd by (unfold c, size; rewrite length_take; lia).
  assert (take (N.to_nat k) c = take (N.to_nat k) d) as Htake.
  { unfold c. rewrite take_take. f_equal. unfold c, size in Hkc. rewrite length_take in Hkc. lia. }
  destruct (IH (drop (N.to_nat k) d) s1) as (n & s' & Hadv & Hsent & H).
  { rewrite length_drop. unfold size in *. lia. }
  exists (N.to_nat k + n)%nat, s'. split; [|split].
  - destruct Hadv as [A (B1 & B2 & B3 & B4 & B5)]. by split.
  - rewrite Hsent. cbn [s1 with_sent sent]. rewrite Htake, <-app_assoc. by rewrite take_take_drop.
  - destruct H as [[H Hn]|[H Hex]]; rewrite H.
    + left. split; [done|]. rewrite <-take_take_drop, Hn. apply take_drop.
    + right. split; [done|]. cbn [s1 with_sent accepts] in Hex.
      destruct (accepts s); [by inversion Hex|]. by right.
Qed.

(** Sending: all of the data is sent, or a prefix of it and the call fails. *)
Lemma send_all_sent data s :
  handle_valid s = true →
  ∃ n s', stream s' = stream s ∧ handle_valid s' = true ∧ sent s' = sent s ++ take n data ∧
    ((send_all data s = (s', Ok tt) ∧ take n data = data) ∨
     (send_all data s = (s', fail ErrorCode.NetworkError ("send failed: " +s+ last_socket_error s)) ∧
      Exists (λ k, k = 0) (accepts s))).
Proof.
  intros Hv. unfold send_all. rewrite Hv. cbn [negb].
  destruct (send_loop_sent (S (length data)) data s) as (n & s' & [Hs (Hv' & _)] & Hsent & H); [lia|].
  exists n, s'. split; [exact Hs|]. split; [cbn in Hv'; congruence|]. by split.
Qed.
(** The outcomes of the calls are used up from the front. *)
Lemma send_loop_kept fuel : ∀ data s, ∃ l, accepts s = l ++ accepts (send_loop fuel data s).1.
Proof.
  induction fuel as [|fuel IH]; intros data s; [by exists []|]. cbn [send_loop].
  destruct (nonempty data); [|by exists []]. unfold os_send.
  set (s1 := with_sent _ _ s). assert (∃ l, accepts s = l ++ accepts s1) as [l Hl].
  { cbn [s1 with_sent accepts]. destruct (accepts s) as [|k l]; [by exists []|by exists [k]]. }
  destruct (_ =? 0); [by exists l|].
  edestruct IH as [k Hk]; [..|exists (l ++ k); rewrite <-app_assoc, <-Hk; exact Hl].
Qed.
Lemma send_all_kept data s : ∃ l, accepts s = l ++ accepts (send_all data s).1.
Proof. unfold send_all. destruct (negb _); [by exists []|apply send_loop_kept]. Qed.
Lemma send_all_accepts data s :
  handle_valid s = true → Forall (λ k, k ≠ 0) (accepts s) →
  ∃ s', send_all data s = (s', Ok tt) ∧ handle_valid s' = true ∧ Forall (λ k, k ≠ 0) (accepts s').
Proof.
  intros Hv Ha. destruct (send_all_kept data s) as [l Hl].
  destruct (send_all_sent data s Hv) as (n & s' & _ & Hv' & _ & [[H _]|[_ Hex]]).
  - exists s'. split; [done|]. split; [done|]. rewrite H in Hl. cbn [fst] in Hl.
    rewrite Hl in Ha. by apply Forall_app in Ha as [_ ?].
  - exfalso. apply Exists_exists in Hex as (k & Hk & ->). rewrite Forall_forall in Ha. by apply (Ha 0).
Qed.
