(* ===== verification/Protocol.v ===== *)
(** * The wire protocol

    Models include/fabric_federation/protocol.hpp and src/protocol.cpp: the frame
    around a message, its reader, and the payloads of the messages with their
    codecs.  The type of a message is its 16-bit value: the reader accepts the
    whole range between the first and the last enumerator, and the numbers seven
    to nine in it are not enumerators. *)

From S2P Require Import Prelude Errors Sha256 Text Codec Ids Names Scope Capability Identity.
From S2P Require Import Explanation Lease Partition Evidence Membership Journal State Authority Net.

(** ** Message types *)

Definition kWireProtocolVersion : N := 1.
Definition kFrameMagic : N := 0x46454446.
Definition kFrameHeaderBytes : N := 16.
Definition kFrameTrailerBytes : N := 32.
Definition kMaxFramePayloadBytes : N := 1048576.
Definition kMaxSnapshotChunkBytes : N := 1048576.

Module MessageType.
Inductive t :=
  | Hello | Welcome | ErrorMessage | Ping | Pong | Goodbye
  | SubmitArtifact | SubmitArtifactResult | QueryDigest | DigestValue | QueryState | StateValue
  | AuthorityQuery | AuthorityResult | IssueLease | LeaseResult | RevokeLease | ReportObservation
  | AdvanceTime | FenceMember | AdvanceEpoch | CompleteReconciliation | QueryArtifacts
  | ArtifactListValue | QueryLeases | LeaseListValue | StatsQuery | StatsValue | SimpleResult
  | ProbeRequest | ProbeResult.

(** The underlying integer of the enumerator. *)
Definition value (x : t) : N :=
  match x with
  | Hello => 1 | Welcome => 2 | ErrorMessage => 3 | Ping => 4 | Pong => 5 | Goodbye => 6
  | SubmitArtifact => 10 | SubmitArtifactResult => 11 | QueryDigest => 12 | DigestValue => 13
  | QueryState => 14 | StateValue => 15 | AuthorityQuery => 16 | AuthorityResult => 17
  | IssueLease => 18 | LeaseResult => 19 | RevokeLease => 20 | ReportObservation => 21
  | AdvanceTime => 22 | FenceMember => 23 | AdvanceEpoch => 24 | CompleteReconciliation => 25
  | QueryArtifacts => 26 | ArtifactListValue => 27 | QueryLeases => 28 | LeaseListValue => 29
  | StatsQuery => 30 | StatsValue => 31 | SimpleResult => 32 | ProbeRequest => 33
  | ProbeResult => 34
  end.
Definition all : list t :=
  [Hello; Welcome; ErrorMessage; Ping; Pong; Goodbye; SubmitArtifact; SubmitArtifactResult;
   QueryDigest; DigestValue; QueryState; StateValue; AuthorityQuery; AuthorityResult; IssueLease;
   LeaseResult; RevokeLease; ReportObservation; AdvanceTime; FenceMember; AdvanceEpoch;
   CompleteReconciliation; QueryArtifacts; ArtifactListValue; QueryLeases; LeaseListValue;
   StatsQuery; StatsValue; SimpleResult; ProbeRequest; ProbeResult].
Definition name (x : t) : string :=
  match x with
  | Hello => "hello" | Welcome => "welcome" | ErrorMessage => "error" | Ping => "ping"
  | Pong => "pong" | Goodbye => "goodbye" | SubmitArtifact => "submit-artifact"
  | SubmitArtifactResult => "submit-artifact-result" | QueryDigest => "query-digest"
  | DigestValue => "digest-value" | QueryState => "query-state" | StateValue => "state-value"
  | AuthorityQuery => "authority-query" | AuthorityResult => "authority-result"
  | IssueLease => "issue-lease" | LeaseResult => "lease-result" | RevokeLease => "revoke-lease"
  | ReportObservation => "report-observation" | AdvanceTime => "advance-time"
  | FenceMember => "fence-member" | AdvanceEpoch => "advance-epoch"
  | CompleteReconciliation => "complete-reconciliation" | QueryArtifacts => "query-artifacts"
  | ArtifactListValue => "artifact-list-value" | QueryLeases => "query-leases"
  | LeaseListValue => "lease-list-value" | StatsQuery => "stats-query"
  | StatsValue => "stats-value" | SimpleResult => "simple-result"
  | ProbeRequest => "probe-request" | ProbeResult => "probe-result"
  end.
#[global] Instance eq_dec : EqDecision t.
Proof. solve_decision. Defined.

(** The enumerator with the given value, if there is one. *)
Definition of_value (v : N) : option t := List.find (λ x, value x =? v) all.
(** [to_string] of a value that was cast to the enumeration. *)
Definition to_string (v : N) : string :=
  match of_value v with Some x => name x | None => "unknown" end.
End MessageType.
Definition kMaxMessageType : N := MessageType.value MessageType.ProbeResult.

(** The loop tries every number of the range. *)
Definition parse_message_type (text : string) : option N :=
  List.find (λ v, bool_decide (MessageType.to_string v = text))
    (N.of_nat <$> seq 1 (N.to_nat kMaxMessageType)).

(** ** Frames *)

Record Message := mkMessage { msg_type : N; msg_payload : list byte }.
#[export] Instance Message_eq_dec : EqDecision Message.
Proof. solve_decision. Defined.

(** Magic, version, type, length and payload: what the digest covers. *)
Definition frame_content (t : N) (p : list byte) : list byte :=
  store_le 4 kFrameMagic ++ store_le 2 kWireProtocolVersion ++ store_le 2 t ++ store_le 4 (size p) ++ p.
Definition frame_bytes (t : N) (p : list byte) : list byte :=
  store_le 4 (12 + size p + kFrameTrailerBytes) ++ frame_content t p ++
  digest_bytes (hash (frame_content t p)).
Definition write_message (t : N) (p : list byte) : IO unit := λ s,
  if kMaxFramePayloadBytes <? size p then
    (s, fail ErrorCode.BoundsExceeded "outgoing payload exceeds the frame bound")
  else send_all (frame_bytes t p) s.

(** The checks on a frame that was received whole, in the order of the code. *)
Definition parse_frame (frame : list byte) : Result Message :=
  fail_if (negb (load_le 4 (slice frame 0 4) =? kFrameMagic)) ErrorCode.ProtocolViolation
          "frame magic does not match";;
  let version := load_le 2 (slice frame 4 2) in
  fail_if (negb (version =? kWireProtocolVersion)) ErrorCode.UnsupportedVersion
          ("frame declares protocol version " +s+ to_dec version);;
  let type_value := load_le 2 (slice frame 6 2) in
  let payload_length := load_le 4 (slice frame 8 4) in
  fail_if (negb (payload_length + 12 + kFrameTrailerBytes =? size frame)) ErrorCode.ProtocolViolation
          "declared payload length does not match the frame length";;
  fail_if (negb (bool_decide (mkDigest (slice frame (12 + payload_length) 32) =
                              hash (slice frame 0 (12 + payload_length)))))
          ErrorCode.ChecksumMismatch "frame digest does not match its content";;
  fail_if ((type_value <? MessageType.value MessageType.Hello) || (kMaxMessageType <? type_value))
          ErrorCode.ProtocolViolation
          ("frame declares message type " +s+ to_dec type_value +s+
           " which this build does not implement");;
  Ok (mkMessage type_value (slice frame 12 payload_length)).
Definition read_message (limit : N) : IO Message :=
  length_bytes ← recv_exact 4;
  let frame_length := load_le 4 length_bytes in
  io_check (frame_length <? 12 + kFrameTrailerBytes) ErrorCode.ProtocolViolation
           "frame length is smaller than the header";;
  io_check ((limit + 12) mod 2 ^ 32 + kFrameTrailerBytes <? frame_length) ErrorCode.BoundsExceeded
           "frame length exceeds the configured bound";;
  frame ← recv_exact frame_length;
  io_lift (parse_frame frame).

(** ** Payloads

    Codes and reasons that the decoder casts without a range check are 16-bit
    values here. *)

Record HelloRequest := mkHello {
  h_federation : FederationId;
  h_node : NodeId;
  h_incarnation : Incarnation;
  h_protocol_version : N;
  product : string
}.
#[export] Instance HelloRequest_codec : Codec HelloRequest := {
  encode r := encode (h_federation r) >+> encode (h_node r) >+> encode (h_incarnation r) >+>
    Writer.u16 (h_protocol_version r) >+> Writer.text (product r) kMaxShortTextLength;
  decode := f ← decode; n ← decode; i ← decode; v ← Reader.u16;
    p ← Reader.text kMaxShortTextLength; mret (mkHello f n i v p);
  wire_ok r := wire_ok (h_federation r) ∧ wire_ok (h_node r) ∧ wire_ok (h_incarnation r) ∧
    h_protocol_version r ≤ u16_max
}.
#[export] Instance HelloRequest_laws : CodecLaws HelloRequest.
Proof.
  intros [f n i v p] bs rest (? & ? & ? & ?) Hbs.
  cbn [encode decode wire_ok HelloRequest_codec h_federation h_node h_incarnation h_protocol_version
    product] in *. split_enc. by read_fields.
Qed.

(** A policy identifier that does not parse is left empty. *)
Record WelcomeResponse := mkWelcome {
  w_federation : FederationId;
  w_coordinator : NodeId;
  coordinator_incarnation : Incarnation;
  w_epoch : Epoch;
  w_logical_time : Tick;
  w_state_digest : Digest;
  w_policy_id : PolicyId;
  w_policy_generation : Generation;
  w_protocol_version : N;
  w_detail : string
}.
#[export] Instance WelcomeResponse_codec : Codec WelcomeResponse := {
  encode r := encode (w_federation r) >+> encode (w_coordinator r) >+>
    encode (coordinator_incarnation r) >+> encode (w_epoch r) >+> encode (w_logical_time r) >+>
    encode (w_state_digest r) >+> Writer.identifier (str (w_policy_id r)) >+>
    encode (w_policy_generation r) >+> Writer.u16 (w_protocol_version r) >+>
    Writer.text (w_detail r) kMaxTextLength;
  decode := f ← decode; c ← decode; i ← decode; e ← decode; t ← decode; d ← decode;
    p ← Reader.identifier;
    let p := match name_parse PolicyIdTag p with Ok p => p | Err _ => mkName "" end in
    g ← decode; v ← Reader.u16; x ← Reader.text kMaxTextLength;
    mret (mkWelcome f c i e t d p g v x);
  wire_ok r := wire_ok (w_federation r) ∧ wire_ok (w_coordinator r) ∧
    wire_ok (coordinator_incarnation r) ∧ wire_ok (w_epoch r) ∧ wire_ok (w_logical_time r) ∧
    wire_ok (w_state_digest r) ∧ name_or_empty (w_policy_id r) ∧ wire_ok (w_policy_generation r) ∧
    w_protocol_version r ≤ u16_max
}.
Lemma parse_or_empty (n : PolicyId) : name_or_empty n →
  match name_parse PolicyIdTag (str n) with Ok p => p | Err _ => mkName "" end = n.
Proof.
  destruct n as [s]. intros [Hs|Hs]; cbn [str] in *.
  - subst s. by vm_compute.
  - by rewrite (name_parse_wire PolicyIdTag (mkName s) Hs : name_parse _ s = _).
Qed.
#[export] Instance WelcomeResponse_laws : CodecLaws WelcomeResponse.
Proof.
  intros [f c i e t d p g v x] bs rest (? & ? & ? & ? & ? & ? & Hp & ? & ?) Hbs.
  cbn [encode decode wire_ok WelcomeResponse_codec w_federation w_coordinator coordinator_incarnation
    w_epoch w_logical_time w_state_digest w_policy_id w_policy_generation w_protocol_version
    w_detail] in *. split_enc. read_fields. by rewrite parse_or_empty.
Qed.

Record ErrorResponse := mkErrorResponse { er_code : ErrorCode.t; er_message : string }.
#[export] Instance ErrorResponse_codec : Codec ErrorResponse := {
  encode r := Writer.u16 (wire (er_code r)) >+> Writer.text (er_message r) kMaxTextLength;
  decode := c ← Reader.u16;
    c ← dec_enum c ErrorCode.ProtocolViolation "error code is out of range";
    m ← Reader.text kMaxTextLength; mret (mkErrorResponse c m);
  wire_ok _ := True
}.
#[export] Instance ErrorResponse_laws : CodecLaws ErrorResponse.
Proof.
  intros [c m] bs rest _ Hbs. cbn [encode decode ErrorResponse_codec er_code er_message] in *.
  split_enc. by read_fields.
Qed.

Record DigestResponse := mkDigestResponse {
  dr_state_digest : Digest;
  dr_epoch : Epoch;
  dr_logical_time : Tick;
  dr_artifact_count : N;
  dr_member_count : N;
  dr_active_member_count : N;
  dr_reconciling : bool
}.
#[export] Instance DigestResponse_codec : Codec DigestResponse := {
  encode r := encode (dr_state_digest r) >+> encode (dr_epoch r) >+> encode (dr_logical_time r) >+>
    Writer.u64 (dr_artifact_count r) >+> Writer.u64 (dr_member_count r) >+>
    Writer.u64 (dr_active_member_count r) >+> Writer.boolean (dr_reconciling r);
  decode := d ← decode; e ← decode; t ← decode; a ← Reader.u64; m ← Reader.u64; c ← Reader.u64;
    r ← Reader.boolean; mret (mkDigestResponse d e t a m c r);
  wire_ok r := wire_ok (dr_state_digest r) ∧ wire_ok (dr_epoch r) ∧ wire_ok (dr_logical_time r) ∧
    dr_artifact_count r ≤ u64_max ∧ dr_member_count r ≤ u64_max ∧ dr_active_member_count r ≤ u64_max
}.
#[export] Instance DigestResponse_laws : CodecLaws DigestResponse.
Proof.
  intros [d e t a m c r] bs rest (? & ? & ? & ? & ? & ?) Hbs.
  cbn [encode decode wire_ok DigestResponse_codec dr_state_digest dr_epoch dr_logical_time
    dr_artifact_count dr_member_count dr_active_member_count dr_reconciling] in *.
  split_enc. by read_fields.
Qed.

Record StateResponse := mkStateResponse { sr_state_digest : Digest; json : string }.
#[export] Instance StateResponse_codec : Codec StateResponse := {
  encode r := encode (sr_state_digest r) >+> Writer.text (json r) kMaxSnapshotChunkBytes;
  decode := d ← decode; j ← Reader.text kMaxSnapshotChunkBytes; mret (mkStateResponse d j);
  wire_ok r := wire_ok (sr_state_digest r)
}.
#[export] Instance StateResponse_laws : CodecLaws StateResponse.
Proof.
  intros [d j] bs rest ? Hbs. cbn [encode decode wire_ok StateResponse_codec sr_state_digest json] in *.
  split_enc. by read_fields.
Qed.

Record AuthorityResponse := mkAuthorityResponse { decision : AuthorityDecision }.
#[export] Instance AuthorityResponse_codec : Codec AuthorityResponse := {
  encode r := encode (decision r);
  decode := d ← decode; mret (mkAuthorityResponse d);
  wire_ok r := wire_ok (decision r)
}.
#[export] Instance AuthorityResponse_laws : CodecLaws AuthorityResponse.
Proof.
  intros [d] bs rest ? Hbs. cbn [encode decode wire_ok AuthorityResponse_codec decision] in *.
  by read_fields.
Qed.

Record ArtifactResponse := mkArtifactResponse {
  ar_code : ErrorCode.t;
  ar_detail : string;
  ar_artifact_digest : Digest;
  ar_state_digest : Digest;
  ar_outcome : Outcome.t;
  already_present : bool;
  rejected : bool;
  ar_artifact_count : N
}.
#[export] Instance ArtifactResponse_codec : Codec ArtifactResponse := {
  encode r := Writer.u16 (wire (ar_code r)) >+> Writer.text (ar_detail r) kMaxTextLength >+>
    encode (ar_artifact_digest r) >+> encode (ar_state_digest r) >+> Writer.u8 (wire (ar_outcome r)) >+>
    Writer.boolean (already_present r) >+> Writer.boolean (rejected r) >+>
    Writer.u64 (ar_artifact_count r);
  decode := c ← Reader.u16;
    c ← dec_enum c ErrorCode.ProtocolViolation "error code is out of range";
    t ← Reader.text kMaxTextLength; d ← decode; s ← decode;
    o ← Reader.u8;
    o ← dec_enum o ErrorCode.ProtocolViolation "outcome is out of range";
    a ← Reader.boolean; r ← Reader.boolean; n ← Reader.u64;
    mret (mkArtifactResponse c t d s o a r n);
  wire_ok r := wire_ok (ar_artifact_digest r) ∧ wire_ok (ar_state_digest r) ∧
    ar_artifact_count r ≤ u64_max
}.
#[export] Instance ArtifactResponse_laws : CodecLaws ArtifactResponse.
Proof.
  intros [c t d s o a r n] bs rest (? & ? & ?) Hbs.
  cbn [encode decode wire_ok ArtifactResponse_codec ar_code ar_detail ar_artifact_digest
    ar_state_digest ar_outcome already_present rejected ar_artifact_count] in *.
  split_enc. by read_fields.
Qed.

Record LeaseIssueRequest := mkLeaseIssue {
  li_holder : MemberId;
  li_scopes : list ScopeGrant;
  li_not_after_epoch : Epoch;
  li_lifetime_ticks : Tick
}.
#[export] Instance LeaseIssueRequest_codec : Codec LeaseIssueRequest := {
  encode r := encode (li_holder r) >+> encode_grants (li_scopes r) kMaxScopesPerLease >+>
    encode (li_not_after_epoch r) >+> encode (li_lifetime_ticks r);
  decode := h ← decode; s ← decode_grants kMaxScopesPerLease; e ← decode; t ← decode;
    mret (mkLeaseIssue h s e t);
  wire_ok r := wire_ok (li_holder r) ∧ Forall wire_ok (li_scopes r) ∧
    wire_ok (li_not_after_epoch r) ∧ wire_ok (li_lifetime_ticks r)
}.
#[export] Instance LeaseIssueRequest_laws : CodecLaws LeaseIssueRequest.
Proof.
  intros [h s e t] bs rest (? & ? & ? & ?) Hbs.
  cbn [encode decode wire_ok LeaseIssueRequest_codec li_holder li_scopes li_not_after_epoch
    li_lifetime_ticks] in *. unfold encode_grants, decode_grants in *. split_enc. by read_fields.
Qed.

Record LeaseResponse := mkLeaseResponse { lp_code : N; lp_detail : string; lp_lease : AuthorityLease }.
#[export] Instance LeaseResponse_codec : Codec LeaseResponse := {
  encode r := Writer.u16 (lp_code r) >+> Writer.text (lp_detail r) kMaxTextLength >+>
    encode (lp_lease r);
  decode := c ← Reader.u16; d ← Reader.text kMaxTextLength; l ← decode; mret (mkLeaseResponse c d l);
  wire_ok r := lp_code r ≤ u16_max ∧ wire_ok (lp_lease r)
}.
#[export] Instance LeaseResponse_laws : CodecLaws LeaseResponse.
Proof.
  intros [c d l] bs rest (? & ?) Hbs.
  cbn [encode decode wire_ok LeaseResponse_codec lp_code lp_detail lp_lease] in *.
  split_enc. by read_fields.
Qed.

Record LeaseRevokeRequest := mkLeaseRevoke { rv_lease : LeaseId; rv_reason : N; rv_text : string }.
#[export] Instance LeaseRevokeRequest_codec : Codec LeaseRevokeRequest := {
  encode r := encode (rv_lease r) >+> Writer.u16 (rv_reason r) >+> Writer.text (rv_text r) kMaxTextLength;
  decode := l ← decode; n ← Reader.u16; t ← Reader.text kMaxTextLength; mret (mkLeaseRevoke l n t);
  wire_ok r := wire_ok (rv_lease r) ∧ rv_reason r ≤ u16_max
}.
#[export] Instance LeaseRevokeRequest_laws : CodecLaws LeaseRevokeRequest.
Proof.
  intros [l n t] bs rest (? & ?) Hbs.
  cbn [encode decode wire_ok LeaseRevokeRequest_codec rv_lease rv_reason rv_text] in *.
  split_enc. by read_fields.
Qed.

Record ObservationRequest := mkObservationRequest { observation : MemberObservation }.
#[export] Instance ObservationRequest_codec : Codec ObservationRequest := {
  encode r := encode (observation r);
  decode := o ← decode; mret (mkObservationRequest o);
  wire_ok r := wire_ok (observation r)
}.
#[export] Instance ObservationRequest_laws : CodecLaws ObservationRequest.
Proof.
  intros [o] bs rest ? Hbs. cbn [encode decode wire_ok ObservationRequest_codec observation] in *.
  by read_fields.
Qed.

Record TimeAdvanceRequest := mkTimeAdvance { ta_to : Tick }.
#[export] Instance TimeAdvanceRequest_codec : Codec TimeAdvanceRequest := {
  encode r := encode (ta_to r);
  decode := t ← decode; mret (mkTimeAdvance t);
  wire_ok r := wire_ok (ta_to r)
}.
#[export] Instance TimeAdvanceRequest_laws : CodecLaws TimeAdvanceRequest.
Proof.
  intros [t] bs rest ? Hbs. cbn [encode decode wire_ok TimeAdvanceRequest_codec ta_to] in *.
  by read_fields.
Qed.

Record MemberActionRequest := mkMemberAction {
  ma_subject : MemberId;
  ma_lineage : Lineage;
  ma_epoch : Epoch;
  ma_reason : N;
  ma_detail : string
}.
#[export] Instance MemberActionRequest_codec : Codec MemberActionRequest := {
  encode r := encode (ma_subject r) >+> encode (ma_lineage r) >+> encode (ma_epoch r) >+>
    Writer.u16 (ma_reason r) >+> Writer.text (ma_detail r) kMaxTextLength;
  decode := s ← decode; l ← decode; e ← decode; n ← Reader.u16; t ← Reader.text kMaxTextLength;
    mret (mkMemberAction s l e n t);
  wire_ok r := wire_ok (ma_subject r) ∧ wire_ok (ma_lineage r) ∧ wire_ok (ma_epoch r) ∧
    ma_reason r ≤ u16_max
}.
#[export] Instance MemberActionRequest_laws : CodecLaws MemberActionRequest.
Proof.
  intros [s l e n t] bs rest (? & ? & ? & ?) Hbs.
  cbn [encode decode wire_ok MemberActionRequest_codec ma_subject ma_lineage ma_epoch ma_reason
    ma_detail] in *. split_enc. by read_fields.
Qed.

Record SimpleResponse := mkSimpleResponse { sp_code : N; sp_detail : string; sp_state_digest : Digest }.
#[export] Instance SimpleResponse_codec : Codec SimpleResponse := {
  encode r := Writer.u16 (sp_code r) >+> Writer.text (sp_detail r) kMaxTextLength >+>
    encode (sp_state_digest r);
  decode := c ← Reader.u16; t ← Reader.text kMaxTextLength; d ← decode; mret (mkSimpleResponse c t d);
  wire_ok r := sp_code r ≤ u16_max ∧ wire_ok (sp_state_digest r)
}.
#[export] Instance SimpleResponse_laws : CodecLaws SimpleResponse.
Proof.
  intros [c t d] bs rest (? & ?) Hbs.
  cbn [encode decode wire_ok SimpleResponse_codec sp_code sp_detail sp_state_digest] in *.
  split_enc. by read_fields.
Qed.

Record ArtifactListResponse := mkArtifactList { al_artifacts : list Artifact; al_state_digest : Digest }.
#[export] Instance ArtifactListResponse_codec : Codec ArtifactListResponse := {
  encode r := enc_list kMaxArtifacts encode (al_artifacts r) >+> encode (al_state_digest r);
  decode := l ← dec_list kMaxArtifacts decode; d ← decode; mret (mkArtifactList l d);
  wire_ok r := Forall wire_ok (al_artifacts r) ∧ wire_ok (al_state_digest r)
}.
#[export] Instance ArtifactListResponse_laws : CodecLaws ArtifactListResponse.
Proof.
  intros [l d] bs rest (? & ?) Hbs.
  cbn [encode decode wire_ok ArtifactListResponse_codec al_artifacts al_state_digest] in *.
  apply enc_app_Ok in Hbs as (x & y & Hx & Hy & ->). by read_fields.
Qed.

Record LeaseListResponse := mkLeaseList { ll_leases : list AuthorityLease }.
#[export] Instance LeaseListResponse_codec : Codec LeaseListResponse := {
  encode r := enc_list kMaxLeases encode (ll_leases r);
  decode := l ← dec_list kMaxLeases decode; mret (mkLeaseList l);
  wire_ok r := Forall wire_ok (ll_leases r)
}.
#[export] Instance LeaseListResponse_laws : CodecLaws LeaseListResponse.
Proof.
  intros [l] bs rest ? Hbs. cbn [encode decode wire_ok LeaseListResponse_codec ll_leases] in *.
  by read_fields.
Qed.

Record ProbeResponse := mkProbe {
  pb_federation : FederationId;
  pb_member : MemberId;
  pb_incarnation : Incarnation;
  pb_node : NodeId;
  pb_epoch : Epoch;
  pb_logical_time : Tick;
  pb_constitution : Digest
}.
#[export] Instance ProbeResponse_codec : Codec ProbeResponse := {
  encode r := encode (pb_federation r) >+> encode (pb_member r) >+> encode (pb_incarnation r) >+>
    encode (pb_node r) >+> encode (pb_epoch r) >+> encode (pb_logical_time r) >+>
    encode (pb_constitution r);
  decode := f ← decode; m ← decode; i ← decode; n ← decode; e ← decode; t ← decode; c ← decode;
    mret (mkProbe f m i n e t c);
  wire_ok r := wire_ok (pb_federation r) ∧ wire_ok (pb_member r) ∧ wire_ok (pb_incarnation r) ∧
    wire_ok (pb_node r) ∧ wire_ok (pb_epoch r) ∧ wire_ok (pb_logical_time r) ∧
    wire_ok (pb_constitution r)
}.
#[export] Instance ProbeResponse_laws : CodecLaws ProbeResponse.
Proof.
  intros [f m i n e t c] bs rest (? & ? & ? & ? & ? & ? & ?) Hbs.
  cbn [encode decode wire_ok ProbeResponse_codec pb_federation pb_member pb_incarnation pb_node
    pb_epoch pb_logical_time pb_constitution] in *. split_enc. by read_fields.
Qed.

(** [counters] are the eleven numbers that travel in one loop: artefacts,
    rejected and duplicate ones, members, active members, leases, replay entries,
    connections, protocol errors, journal records and journal bytes. *)
Record StatsResponse := mkStatsResponse {
  st_state_digest : Digest;
  st_stats_epoch : Epoch;
  st_logical_time : Tick;
  counters : list N;
  st_reconciling : bool;
  partition_state : string;
  transport : string
}.
#[export] Instance StatsResponse_codec : Codec StatsResponse := {
  encode r := encode (st_state_digest r) >+> encode (st_stats_epoch r) >+>
    encode (st_logical_time r) >+> enc_each Writer.u64 (counters r) >+>
    Writer.boolean (st_reconciling r) >+> Writer.text (partition_state r) kMaxShortTextLength >+>
    Writer.text (transport r) kMaxTextLength;
  decode := d ← decode; e ← decode; t ← decode; l ← dec_repeat 11 Reader.u64;
    r ← Reader.boolean; p ← Reader.text kMaxShortTextLength; x ← Reader.text kMaxTextLength;
    mret (mkStatsResponse d e t l r p x);
  wire_ok r := wire_ok (st_state_digest r) ∧ wire_ok (st_stats_epoch r) ∧
    wire_ok (st_logical_time r) ∧ length (counters r) = 11%nat ∧ Forall (λ n, n ≤ u64_max) (counters r)
}.
#[export] Instance StatsResponse_laws : CodecLaws StatsResponse.
Proof.
  intros [d e t l r p x] bs rest (? & ? & ? & Hl & Hf) Hbs.
  cbn [encode decode wire_ok StatsResponse_codec st_state_digest st_stats_epoch st_logical_time counters
    st_reconciling partition_state transport] in *.
  split_enc. read_fields.
  erewrite dec_bind_Ok; cycle 1.
  { rewrite <-Hl. eapply (read_repeat Writer.u64); [|exact Hf|done].
    intros n b y _ Hn Hb. by apply read_u64. }
  by read_fields.
Qed.

Definition encode_payload {A} `{Codec A} (a : A) : Enc := encode a.
Definition decode_payload {A} `{Codec A} (bs : list byte) : Result A := decode_exact bs.

(** ** Frames in bytes *)

#[global] Arguments frame_content : simpl never.
#[global] Arguments frame_bytes : simpl never.

Lemma slice_app_le a b o n : o + n ≤ size a → slice (a ++ b) o n = slice a o n.
Proof.
  intros H. unfold slice, size in *. rewrite skipn_app, firstn_app, length_skipn.
  replace (N.to_nat n - (length a - N.to_nat o))%nat with 0%nat by lia.
  by rewrite firstn_O, app_nil_r.
Qed.
Lemma slice_split l o n m : slice l o (n + m) = slice l o n ++ slice l (o + n) m.
Proof.
  unfold slice. rewrite !N2Nat.inj_add, <-(take_take_drop (drop (N.to_nat o) l)).
  by rewrite drop_drop.
Qed.
Lemma slice_all l : slice l 0 (size l) = l.
Proof. unfold slice, size. rewrite Nat2N.id. apply firstn_all. Qed.

(** The bytes of a loaded integer. *)
Definition load_step (bs : list byte) (v : N) (i : nat) : N :=
  N.lor v (N.shiftl (Byte.to_N (nth i bs x00)) (N.of_nat i * 8)).
Lemma load_step_add bs v j :
  v < 2 ^ (8 * N.of_nat j) →
  load_step bs v j = v + Byte.to_N (nth j bs x00) * 2 ^ (8 * N.of_nat j).
Proof.
  intros Hv. unfold load_step. replace (N.of_nat j * 8) with (8 * N.of_nat j) by lia.
  rewrite N.lor_comm, lor_shiftl_add by done. apply N.add_comm.
Qed.
Lemma byte_above v b i j :
  (i < j)%nat → (v + b * 2 ^ (8 * N.of_nat j)) / 2 ^ (8 * N.of_nat i) mod 256 =
                v / 2 ^ (8 * N.of_nat i) mod 256.
Proof.
  intros Hi.
  replace (8 * N.of_nat j) with (8 * N.of_nat i + 8 + 8 * (N.of_nat j - N.of_nat i - 1)) by lia.
  rewrite !N.pow_add_r. change (2 ^ 8) with 256.
  set (p := 2 ^ (8 * N.of_nat i)). set (q := 2 ^ (8 * (N.of_nat j - N.of_nat i - 1))).
  assert (p ≠ 0) as Hp by (apply N.pow_nonzero; lia).
  replace (b * (p * 256 * q)) with ((b * q * 256) * p) by lia.
  rewrite N.div_add by done. by rewrite N.Div0.mod_add.
Qed.
Lemma load_le_bytes bs j :
  foldl (load_step bs) 0 (seq 0 j) < 2 ^ (8 * N.of_nat j) ∧
  ∀ i, (i < j)%nat →
    foldl (load_step bs) 0 (seq 0 j) / 2 ^ (8 * N.of_nat i) mod 256 = Byte.to_N (nth i bs x00).
Proof.
  induction j as [|j [Hlt Hbytes]]; [split; [done|lia]|].
  rewrite seq_S, foldl_app. cbn [foldl Nat.add]. set (v := foldl _ 0 (seq 0 j)) in *.
  rewrite load_step_add by done. set (b := Byte.to_N (nth j bs x00)).
  assert (b < 256) as Hb by (pose proof (Byte.to_N_bounded (nth j bs x00)); unfold b; lia).
  split.
  - replace (8 * N.of_nat (S j)) with (8 * N.of_nat j + 8) by lia.
    rewrite (N.pow_add_r 2 (8 * N.of_nat j) 8). change (2 ^ 8) with 256. nia.
  - intros i Hi. destruct (decide (i = j)) as [->|Hne]; [|rewrite byte_above by lia; apply Hbytes; lia].
    rewrite N.div_add by (apply N.pow_nonzero; lia).
    rewrite N.div_small by done. rewrite N.add_0_l. by apply N.mod_small.
Qed.
(** Storing what was loaded gives the bytes back. *)
Lemma store_load k bs : length bs = k → store_le k (load_le k bs) = bs.
Proof.
  intros Hk. destruct (load_le_bytes bs k) as [_ Hbytes].
  apply list_eq. intros i. unfold store_le.
  destruct (decide (i < k)%nat) as [Hi|Hi]; cycle 1.
  { rewrite !lookup_ge_None_2; [done|lia|rewrite length_fmap, length_seq; lia]. }
  rewrite list_lookup_fmap, lookup_seq_lt by done. cbn [fmap option_fmap option_map Nat.add].
  destruct (lookup_lt_is_Some_2 bs i) as [b Hb]; [lia|]. rewrite Hb. f_equal. apply to_byte_eq.
  change 0xff with (N.ones 8). rewrite land_mask, N.shiftr_div_pow2. change (2 ^ 8) with 256.
  replace (N.of_nat i * 8) with (8 * N.of_nat i) by lia.
  specialize (Hbytes i Hi). rewrite (nth_lookup_Some bs i x00 b Hb) in Hbytes. exact Hbytes.
Qed.
Lemma load_le_bound k bs : load_le k bs < 2 ^ (8 * N.of_nat k).
Proof. exact (proj1 (load_le_bytes bs k)). Qed.

Lemma size_frame_content t p : size (frame_content t p) = 12 + size p.
Proof. unfold frame_content. rewrite !size_app, !size_store_le. lia. Qed.
Lemma size_frame_bytes t p : size (frame_bytes t p) = size p + 48.
Proof. unfold frame_bytes. rewrite !size_app, size_store_le, size_frame_content, size_hash. lia. Qed.

(** *** A frame that was written passes the checks *)

Definition known_type (t : N) : Prop := 1 ≤ t ∧ t ≤ kMaxMessageType.
Definition frame_head (t n : N) : list byte :=
  store_le 4 kFrameMagic ++ store_le 2 kWireProtocolVersion ++ store_le 2 t ++ store_le 4 n.
Lemma frame_content_head t p : frame_content t p = frame_head t (size p) ++ p.
Proof. unfold frame_content, frame_head. by rewrite <-!app_assoc. Qed.
Lemma size_frame_head t n : size (frame_head t n) = 12.
Proof. unfold frame_head. by rewrite !size_app, !size_store_le. Qed.
Lemma head_fields t n :
  t ≤ u16_max → n ≤ u32_max →
  load_le 4 (slice (frame_head t n) 0 4) = kFrameMagic ∧
  load_le 2 (slice (frame_head t n) 4 2) = kWireProtocolVersion ∧
  load_le 2 (slice (frame_head t n) 6 2) = t ∧ load_le 4 (slice (frame_head t n) 8 4) = n.
Proof.
  intros Ht Hn. unfold frame_head. split_and!.
  - rewrite slice_whole by (rewrite ?size_store_le; reflexivity). by apply load_store.
  - rewrite slice_mid by (rewrite ?size_store_le; reflexivity). by apply load_store.
  - rewrite app_assoc, slice_mid by (rewrite ?size_app, ?size_store_le; reflexivity). apply load_store.
    unfold u16_max in Ht. by apply N.lt_succ_r in Ht.
  - rewrite !app_assoc, <-(app_nil_r (_ ++ store_le 4 n)), <-app_assoc.
    rewrite slice_mid by (rewrite ?size_app, ?size_store_le; reflexivity). apply load_store.
    unfold u32_max in Hn. by apply N.lt_succ_r in Hn.
Qed.
(** The slices of head, payload and digest laid out one after the other. *)
Lemma frame_slices h p d :
  size h = 12 → size d = 32 →
  (∀ o n, o + n ≤ 12 → slice (h ++ p ++ d) o n = slice h o n) ∧
  slice (h ++ p ++ d) 12 (size p) = p ∧ slice (h ++ p ++ d) (12 + size p) 32 = d ∧
  slice (h ++ p ++ d) 0 (12 + size p) = h ++ p ∧ size (h ++ p ++ d) = size p + 44.
Proof.
  intros Hh Hd. split_and!.
  - intros o n Hon. apply slice_app_le. lia.
  - by apply slice_mid.
  - rewrite app_assoc. rewrite <-(app_nil_r d) at 1. rewrite slice_mid; [done|rewrite size_app; lia|done].
  - rewrite app_assoc, slice_whole; [done|rewrite size_app; lia].
  - rewrite !size_app. lia.
Qed.
Lemma parse_frame_written t p :
  known_type t → size p ≤ u32_max →
  parse_frame (frame_content t p ++ digest_bytes (hash (frame_content t p))) = Ok (mkMessage t p).
Proof.
  intros [Ht1 Ht2] Hp. set (d := hash (frame_content t p)).
  destruct (head_fields t (size p)) as (H1 & H2 & H3 & H4);
    [unfold kMaxMessageType, u16_max in *; cbn in Ht2; lia|done|].
  rewrite frame_content_head, <-app_assoc.
  destruct (frame_slices (frame_head t (size p)) p (digest_bytes d) (size_frame_head _ _) (size_hash _))
    as (S1 & S2 & S3 & S4 & S5).
  unfold parse_frame. cbv zeta. rewrite (S1 0 4), (S1 4 2), (S1 6 2), (S1 8 4) by lia.
  rewrite H1, H2, H3, H4, S2, S3, S4, S5.
  unfold kFrameTrailerBytes. rewrite !N.eqb_refl, <-frame_content_head. fold d.
  replace (size p + 12 + 32) with (size p + 44) by lia. rewrite N.eqb_refl.
  rewrite bool_decide_eq_true_2 by by destruct d.
  unfold MessageType.value at 1. destruct (N.ltb_spec t 1); [lia|].
  destruct (N.ltb_spec kMaxMessageType t); [lia|]. done.
Qed.

(** *** A frame that passes the checks was written *)

Lemma frame_fields frame n :
  size frame = n + 44 →
  frame = (slice frame 0 4 ++ slice frame 4 2 ++ slice frame 6 2 ++ slice frame 8 4 ++ slice frame 12 n) ++
          slice frame (12 + n) 32.
Proof.
  intros Hs. rewrite <-(slice_all frame) at 1. rewrite Hs.
  replace (n + 44) with (4 + (2 + (2 + (4 + (n + 32))))) by lia. rewrite !slice_split.
  rewrite <-!app_assoc. reflexivity.
Qed.
Lemma slice_content frame n :
  slice frame 0 (12 + n) =
  slice frame 0 4 ++ slice frame 4 2 ++ slice frame 6 2 ++ slice frame 8 4 ++ slice frame 12 n.
Proof.
  replace (12 + n) with (4 + (2 + (2 + (4 + n)))) by lia. by rewrite !slice_split.
Qed.
Lemma store_load_slice frame o k n :
  o + n ≤ size frame → n = N.of_nat k → store_le k (load_le k (slice frame o n)) = slice frame o n.
Proof.
  intros Hs ->. apply store_load. pose proof (size_slice frame o (N.of_nat k) Hs) as H.
  unfold size in H. lia.
Qed.
Lemma parse_frame_Ok frame m :
  44 ≤ size frame → parse_frame frame = Ok m →
  known_type (msg_type m) ∧ size frame = size (msg_payload m) + 44 ∧
  frame = frame_content (msg_type m) (msg_payload m) ++
          digest_bytes (hash (frame_content (msg_type m) (msg_payload m))).
Proof.
  intros Hs. unfold parse_frame. cbv zeta. rewrite !seq_Ok, !fail_if_Ok, !negb_false_iff, !N.eqb_eq.
  rewrite bool_decide_eq_true, orb_false_iff, !N.ltb_ge.
  intros (Hmagic & Hversion & Hlen & Hhash & [Ht1 Ht2] & [= <-]). cbn [msg_type msg_payload].
  set (n := load_le 4 (slice frame 8 4)) in *. unfold kFrameTrailerBytes in Hlen.
  assert (size (slice frame 12 n) = n) as Hn by (apply size_slice; lia).
  split; [by split|]. split; [lia|].
  assert (frame_content (load_le 2 (slice frame 6 2)) (slice frame 12 n) = slice frame 0 (12 + n)) as Hc.
  { rewrite slice_content. unfold frame_content. rewrite <-Hmagic, <-Hversion, Hn. unfold n at 1.
    by rewrite !store_load_slice by (done || lia). }
  rewrite Hc, <-Hhash. cbn [digest_bytes]. rewrite slice_content. apply frame_fields. lia.
Qed.

(** *** Reading a frame from a stream *)

(** A limit with which the length of a frame fits 32 bits. *)
Definition limit_ok (limit : N) : Prop := limit + 44 < 2 ^ 32.
Lemma limit_exact limit : limit_ok limit → (limit + 12) mod 2 ^ 32 = limit + 12.
Proof. unfold limit_ok. intros H. apply N.mod_small. lia. Qed.

Lemma recv_exact_Ok total s s' bs :
  handle_valid s = true → recv_exact total s = (s', Ok bs) →
  size bs = total ∧ stream s = bs ++ stream s' ∧ advanced (N.to_nat total) s s'.
Proof.
  intros Hv H. destruct (recv_exact_stream total s Hv) as [Hadv Hres]. rewrite H in *. cbn [fst snd] in *.
  unfold recv_result in Hres. destruct (N.ltb_spec (size (stream s)) total) as [|Hle].
  { by destruct (peer_closed s). }
  injection Hres as ->. rewrite Nat.min_l in Hadv by (unfold size in *; lia).
  split; [unfold size in *; rewrite length_take; lia|]. split; [|exact Hadv].
  by rewrite (av_stream _ _ _ Hadv), take_drop.
Qed.
Lemma recv_exact_available total s bs rest :
  handle_valid s = true → stream s = bs ++ rest → size bs = total →
  ∃ s', recv_exact total s = (s', Ok bs) ∧ stream s' = rest ∧ handle_valid s' = true.
Proof.
  intros Hv Hs Hb. destruct (recv_exact_stream total s Hv) as [[Hadv (Hv' & _)] Hres].
  destruct (recv_exact total s) as [s' r]. cbn [fst snd] in *. exists s'.
  assert (N.to_nat total = length bs) as Hn by (unfold size in Hb; lia).
  unfold recv_result in Hres. rewrite Hs, size_app, Hn in Hres.
  destruct (N.ltb_spec (size bs + size rest) total); [lia|].
  rewrite take_app_length in Hres. split; [by rewrite Hres|]. split; [|congruence].
  rewrite Hadv, Hs, length_app, Nat.min_l by lia. by rewrite Hn, drop_app_length.
Qed.

Definition sendable (m : Message) : Prop :=
  known_type (msg_type m) ∧ size (msg_payload m) ≤ kMaxFramePayloadBytes.
Lemma read_written limit s m rest :
  handle_valid s = true → limit_ok limit → known_type (msg_type m) → size (msg_payload m) ≤ limit →
  stream s = frame_bytes (msg_type m) (msg_payload m) ++ rest →
  ∃ s', read_message limit s = (s', Ok m) ∧ stream s' = rest ∧ handle_valid s' = true.
Proof.
  intros Hv Hl Ht Hp Hs. destruct m as [t p]. cbn [msg_type msg_payload] in *.
  assert (size p + 44 < 2 ^ 32) as Hsmall by (unfold limit_ok in Hl; lia).
  set (frame := frame_content t p ++ digest_bytes (hash (frame_content t p))).
  assert (size frame = size p + 44) as Hf
    by (unfold frame; rewrite size_app, size_frame_content, size_hash; lia).
  assert (frame_bytes t p = store_le 4 (size p + 44) ++ frame) as Hfb.
  { unfold frame_bytes, kFrameTrailerBytes. by replace (12 + size p + 32) with (size p + 44) by lia. }
  rewrite Hfb, <-app_assoc in Hs.
  destruct (recv_exact_available 4 s _ _ Hv Hs) as (s1 & H1 & Hs1 & Hv1); [by rewrite size_store_le|].
  destruct (recv_exact_available (size p + 44) s1 frame rest Hv1 Hs1 Hf) as (s2 & H2 & Hs2 & Hv2).
  exists s2. split; [|done]. unfold read_message. rewrite (io_bind_Ok _ _ _ _ _ H1).
  rewrite load_store by exact Hsmall. rewrite limit_exact by done. unfold kFrameTrailerBytes, io_check.
  destruct (N.ltb_spec (size p + 44) (12 + 32)) as [Hshort|_]; [clear - Hshort; lia|].
  destruct (N.ltb_spec (limit + 12 + 32) (size p + 44)) as [Hlong|_]; [clear - Hlong Hp; lia|]. unfold fail_if.
  rewrite (io_bind_Ok _ _ s1 s1 tt) by done. rewrite (io_bind_Ok _ _ s1 s1 tt) by done.
  rewrite (io_bind_Ok _ _ _ _ _ H2). unfold io_lift, frame. rewrite parse_frame_written; [done|done|].
  change (2 ^ 32) with 4294967296 in Hsmall. unfold u32_max. lia.
Qed.

Lemma io_check_Ok bad c m s s' u : io_check bad c m s = (s', Ok u) → s' = s ∧ bad = false.
Proof. unfold io_check, io_lift. intros [= -> H]. by apply fail_if_Ok in H. Qed.
Lemma io_bind_inv {A B} (m : IO A) (k : A → IO B) s s' b :
  (m ≫= k) s = (s', Ok b) → ∃ s1 a, m s = (s1, Ok a) ∧ k a s1 = (s', Ok b).
Proof. unfold mbind, IO_bind. destruct (m s) as [s1 [a|e]]; naive_solver. Qed.

Lemma read_message_inv limit s s' m :
  handle_valid s = true → limit_ok limit → read_message limit s = (s', Ok m) →
  stream s = frame_bytes (msg_type m) (msg_payload m) ++ stream s' ∧
  known_type (msg_type m) ∧ size (msg_payload m) ≤ limit ∧ sent s' = sent s ∧ handle_valid s' = true ∧
  accepts s' = accepts s.
Proof.
  intros Hv Hl Hr.
  apply io_bind_inv in Hr as (s1 & hd & H1 & Hr).
  destruct (recv_exact_Ok 4 s s1 hd Hv H1) as (Hhd & Hs & [_ (Hv1 & _ & Hsent1 & Hacc1 & _)]).
  set (len := load_le 4 hd) in *.
  apply io_bind_inv in Hr as (s2 & [] & [-> Hmin]%io_check_Ok & Hr).
  apply io_bind_inv in Hr as (s3 & [] & [-> Hmax]%io_check_Ok & Hr).
  apply io_bind_inv in Hr as (s4 & frame & H4 & Hr). unfold io_lift in Hr. injection Hr as -> Hr.
  rewrite Hv in Hv1. destruct (recv_exact_Ok len s1 s' frame Hv1 H4) as (Hf & Hs1 & [_ (Hv2 & _ & Hsent & Hacc & _)]).
  unfold kFrameTrailerBytes in *. apply N.ltb_ge in Hmin, Hmax. rewrite limit_exact in Hmax by done.
  destruct (parse_frame_Ok frame m) as (Ht & Hsz & Hfr); [lia|done|].
  split; [|split; [exact Ht|split; [lia|split_and!; congruence]]].
  rewrite Hs, Hs1, app_assoc. f_equal. rewrite Hfr at 1. unfold frame_bytes. f_equal.
  unfold kFrameTrailerBytes. replace (12 + size (msg_payload m) + 32) with len by lia.
  symmetry. apply store_load. unfold size in Hhd. lia.
Qed.

(** A frame is accepted only if it was written: when the reader returns a
    message, the stream began with exactly the bytes [write_message] sends for
    it, nothing more was consumed, its type is in the range of the enumeration
    and its payload is within the limit; so no damaged, truncated or padded frame
    is accepted unless its SHA-256 collides. *)
Theorem accepted_frame_was_written limit s s' m
    (Hv : handle_valid s = true) (Hl : limit_ok limit) (Hr : read_message limit s = (s', Ok m)) :
  stream s = frame_bytes (msg_type m) (msg_payload m) ++ stream s' ∧
  known_type (msg_type m) ∧ size (msg_payload m) ≤ limit ∧ sent s' = sent s.
Proof. destruct (read_message_inv limit s s' m Hv Hl Hr) as (? & ? & ? & ? & _). done. Qed.

Lemma read_message_eq limit s : limit_ok limit →
  read_message limit s =
    match recv_exact 4 s with
    | (s1, Err e) => (s1, Err e)
    | (s1, Ok hd) =>
        if load_le 4 hd <? 44 then
          (s1, fail ErrorCode.ProtocolViolation "frame length is smaller than the header")
        else if limit + 44 <? load_le 4 hd then
          (s1, fail ErrorCode.BoundsExceeded "frame length exceeds the configured bound")
        else
          match recv_exact (load_le 4 hd) s1 with
          | (s2, Err e) => (s2, Err e)
          | (s2, Ok frame) => (s2, parse_frame frame)
          end
    end.
Proof.
  intros Hl. unfold read_message, io_check, io_lift, mbind, IO_bind, fail_if, kFrameTrailerBytes.
  rewrite limit_exact by done. replace (limit + 12 + 32) with (limit + 44) by lia.
  change (12 + 32) with 44. destruct (recv_exact 4 s) as [s1 [hd|]]; [|done].
  destruct (_ <? 44); [done|]. destruct (_ <? load_le 4 hd); [done|].
  by destruct (recv_exact _ s1) as [s2 []].
Qed.
(** C39: a peer cannot make the reader take more than its limit: whatever the
    stream holds and however it ends, one call reads at most the limit plus the
    forty-eight bytes of the frame around it; and when the announced length is
    too long it is refused after the four bytes that announce it. *)
Theorem reading_is_bounded limit s (Hv : handle_valid s = true) (Hl : limit_ok limit) :
  (∃ n, N.of_nat n ≤ limit + 48 ∧ advanced n s (read_message limit s).1) ∧
  ∀ hd rest, stream s = hd ++ rest → size hd = 4 → limit + 44 < load_le 4 hd →
    advanced 4 s (read_message limit s).1 ∧
    (read_message limit s).2 =
      fail ErrorCode.BoundsExceeded "frame length exceeds the configured bound".
Proof.
  rewrite read_message_eq by done. destruct (recv_exact_stream 4 s Hv) as [Hadv Hres].
  destruct (recv_exact 4 s) as [s1 [hd|e]] eqn:H4; cbn [fst snd] in *; cycle 1.
  { split; [eexists; split; [|exact Hadv]; lia|]. intros hd rest Hs Hhd _. exfalso.
    destruct (recv_exact_available 4 s hd rest Hv Hs Hhd) as (s1' & H & _). congruence. }
  destruct (recv_exact_Ok 4 s s1 hd Hv H4) as (Hhd & Hs & Hadv4).
  pose proof (proj1 (av_rest _ _ _ Hadv4)) as Hv1. rewrite Hv in Hv1.
  change (N.to_nat 4) with 4%nat in Hadv4. set (len := load_le 4 hd). split.
  - destruct (N.ltb_spec len 44); [exists 4%nat; split; [lia|exact Hadv4]|].
    destruct (N.ltb_spec (limit + 44) len); [exists 4%nat; split; [lia|exact Hadv4]|].
    destruct (recv_exact_stream len s1 Hv1) as [Hadv' _].
    exists (4 + Nat.min (N.to_nat len) (length (stream s1)))%nat. split; [lia|].
    destruct (recv_exact len s1) as [s2 [frame|e]]; by eapply advanced_trans.
  - intros hd' rest Hs' Hhd' Hlong. assert (hd' = hd) as ->.
    { rewrite Hs in Hs'. apply app_inj_1 in Hs' as [? _]; [done|]. unfold size in *. lia. }
    fold len in Hlong. destruct (N.ltb_spec len 44); [lia|].
    destruct (N.ltb_spec (limit + 44) len); [|lia]. split; [exact Hadv4|reflexivity].
Qed.

(** *** A channel *)

Fixpoint write_messages (ms : list Message) : IO unit :=
  match ms with
  | [] => mret tt
  | m :: ms => write_message (msg_type m) (msg_payload m);; write_messages ms
  end.
Fixpoint read_messages (limit : N) (n : nat) : IO (list Message) :=
  match n with
  | O => mret []
  | S n => m ← read_message limit; ms ← read_messages limit n; mret (m :: ms)
  end.
Definition wire_of (ms : list Message) : list byte :=
  mjoin ((λ m, frame_bytes (msg_type m) (msg_payload m)) <$> ms).

Lemma send_all_Ok data s s' u : send_all data s = (s', Ok u) →
  handle_valid s = true ∧ handle_valid s' = true ∧ sent s' = sent s ++ data.
Proof.
  intros H. destruct (handle_valid s) eqn:Hv; [|unfold send_all in H; by rewrite Hv in H].
  destruct (send_all_sent data s Hv) as (n & s1 & _ & Hv' & Hs & [[H' Ht]|[H' _]]);
    [|rewrite H in H'; discriminate H'].
  rewrite H in H'. injection H' as -> _. by rewrite Ht in Hs.
Qed.
Lemma write_messages_sent ms : ∀ s s' u,
  write_messages ms s = (s', Ok u) →
  sent s' = sent s ++ wire_of ms ∧ Forall (λ m, size (msg_payload m) ≤ kMaxFramePayloadBytes) ms.
Proof.
  induction ms as [|m ms IH]; intros s s' u H.
  - injection H as <- _. by rewrite app_nil_r.
  - apply io_bind_inv in H as (s1 & [] & H1 & H). apply IH in H as [Hs Hf].
    unfold write_message in H1. destruct (N.ltb_spec kMaxFramePayloadBytes (size (msg_payload m))); [done|].
    apply send_all_Ok in H1 as (_ & _ & H1). split; [|by constructor].
    rewrite Hs, H1, <-app_assoc. done.
Qed.
Lemma read_messages_written limit ms : ∀ s rest,
  handle_valid s = true → limit_ok limit →
  Forall (λ m, known_type (msg_type m) ∧ size (msg_payload m) ≤ limit) ms →
  stream s = wire_of ms ++ rest →
  ∃ s', read_messages limit (length ms) s = (s', Ok ms) ∧ stream s' = rest ∧ handle_valid s' = true.
Proof.
  induction ms as [|m ms IH]; intros s rest Hv Hl Hf Hs; [by exists s|].
  apply Forall_cons in Hf as [[Ht Hp] Hf]. change (wire_of (m :: ms)) with
    (frame_bytes (msg_type m) (msg_payload m) ++ wire_of ms) in Hs. rewrite <-app_assoc in Hs.
  destruct (read_written limit s m _ Hv Hl Ht Hp Hs) as (s1 & H1 & Hs1 & Hv1).
  destruct (IH s1 rest Hv1 Hl Hf Hs1) as (s2 & H2 & Hs2 & Hv2). exists s2. split; [|done].
  cbn [length read_messages]. by rewrite (io_bind_Ok _ _ _ _ _ H1), (io_bind_Ok _ _ _ _ _ H2).
Qed.

(** C31: the framed connection is a first-in first-out channel of messages: when
    the messages were written without an error, a reader that gets the bytes,
    in whatever portions they arrive, reads the same messages in the same order,
    and what follows them stays on the stream. *)
Theorem channel_is_fifo ms limit a a' b rest
    (Hms : Forall (λ m, known_type (msg_type m)) ms)
    (Hw : write_messages ms a = (a', Ok tt)) (Hfresh : sent a = [])
    (Hl : limit_ok limit) (Hlimit : kMaxFramePayloadBytes ≤ limit)
    (Hb : handle_valid b = true) (Hs : stream b = sent a' ++ rest) :
  ∃ b', read_messages limit (length ms) b = (b', Ok ms) ∧ stream b' = rest.
Proof.
  destruct (write_messages_sent ms a a' tt Hw) as [Hsent Hp]. rewrite Hfresh in Hsent.
  rewrite Hsent in Hs. destruct (read_messages_written limit ms b rest Hb Hl) as (b' & H & Hr & _);
    [|exact Hs|by exists b'].
  rewrite Forall_forall in *. intros m Hm. split; [by apply Hms|].
  transitivity kMaxFramePayloadBytes; [by apply Hp|done].
Qed.

(** Writing succeeds when no call of the operating system fails. *)
Lemma write_messages_succeed ms : ∀ s,
  handle_valid s = true → Forall (λ k, k ≠ 0) (accepts s) →
  Forall (λ m, size (msg_payload m) ≤ kMaxFramePayloadBytes) ms →
  ∃ s', write_messages ms s = (s', Ok tt).
Proof.
  induction ms as [|m ms IH]; intros s Hv Ha Hf; [by eexists|].
  apply Forall_cons in Hf as [Hm Hf]. cbn [write_messages].
  assert (∃ s1, write_message (msg_type m) (msg_payload m) s = (s1, Ok tt) ∧ handle_valid s1 = true ∧
    Forall (λ k, k ≠ 0) (accepts s1)) as (s1 & H1 & Hv1 & Ha1).
  { unfold write_message. destruct (N.ltb_spec kMaxFramePayloadBytes (size (msg_payload m))); [lia|].
    destruct (send_all_accepts (frame_bytes (msg_type m) (msg_payload m)) s Hv Ha) as (s1 & H1 & H2 & H3).
    by exists s1. }
  destruct (IH s1 Hv1 Ha1 Hf) as [s2 H2]. exists s2. by rewrite (io_bind_Ok _ _ _ _ _ H1).
Qed.

(** A payload survives its journey: whatever its type, a value that was
    encoded, framed, sent, received and decoded with [decode_payload] is the value
    that was encoded, under the message type it was sent with. *)
Theorem payload_arrives {A} `{CodecLaws A} (x : A) t bs limit a a' b rest
    (Hx : wire_ok x) (Henc : encode_payload x = Ok bs) (Ht : known_type t)
    (Hw : write_message t bs a = (a', Ok tt)) (Hfresh : sent a = [])
    (Hl : limit_ok limit) (Hlimit : kMaxFramePayloadBytes ≤ limit)
    (Hb : handle_valid b = true) (Hs : stream b = sent a' ++ rest) :
  ∃ b', read_message limit b = (b', Ok (mkMessage t bs)) ∧ stream b' = rest ∧
    decode_payload bs = Ok x.
Proof.
  unfold write_message in Hw. destruct (N.ltb_spec kMaxFramePayloadBytes (size bs)); [done|].
  apply send_all_Ok in Hw as (_ & _ & Hsent). rewrite Hfresh in Hsent. rewrite Hsent in Hs.
  destruct (read_written limit b (mkMessage t bs) rest Hb Hl Ht) as (b' & Hr & Hrest & _);
    [cbn; lia|exact Hs|].
  exists b'. split; [exact Hr|]. split; [exact Hrest|]. by apply decode_exact_encode.
Qed.

(** *** Names of message types *)

Lemma parse_message_type_name x :
  parse_message_type (MessageType.name x) = Some (MessageType.value x).
Proof. by destruct x; vm_compute. Qed.
(** The parser of message types accepts a text that names none: the loop
    tries the numbers seven to nine, which are no enumerators and print as
    [unknown], so this text parses; and the frame reader accepts them too. *)
Theorem unknown_type_is_parsed :
  parse_message_type "unknown" = Some 7 ∧ MessageType.of_value 7 = None ∧
  Forall (λ t, known_type t ∧ MessageType.of_value t = None) [7; 8; 9].
Proof.
  split; [by vm_compute|]. split; [done|].
  repeat (apply Forall_cons_2; [split; [split; vm_compute; discriminate|done]|]). constructor.
Qed.

(** ** Instances *)

Definition a_socket : Socket := mkSocket true [] true [] [1; 3] "".
Definition receiving (bs : list byte) : Socket := mkSocket true [take 1 bs; drop 1 bs] true [] [] "".
Lemma stream_receiving bs : stream (receiving bs) = bs.
Proof. unfold stream. cbn. rewrite app_nil_r. apply (take_drop 1). Qed.
Lemma default_limit_ok : limit_ok kMaxFramePayloadBytes.
Proof. by vm_compute. Qed.
Definition a_ping : list byte := frame_bytes 4 [x2a].
Definition accepted (bs : list byte) (m : Message) : bool :=
  match read_message kMaxFramePayloadBytes (receiving bs) with
  | (_, Ok m') => bool_decide (m' = m)
  | _ => false
  end.
Lemma accepted_true bs m : accepted bs m = true →
  ∃ s', read_message kMaxFramePayloadBytes (receiving bs) = (s', Ok m).
Proof.
  unfold accepted. destruct (read_message _ _) as [s' [m'|e]]; [|done].
  intros ->%bool_decide_eq_true. by exists s'.
Qed.
Lemma accepted_ping : accepted a_ping (mkMessage 4 [x2a]) = true.
Proof. vm_cast_no_check (eq_refl true). Qed.

Lemma accepted_frame_was_written_witness :
  ∃ s', stream (receiving a_ping) = frame_bytes 4 [x2a] ++ stream s'.
Proof.
  destruct (accepted_true _ _ accepted_ping) as [s' H]. exists s'.
  exact (proj1 (accepted_frame_was_written kMaxFramePayloadBytes (receiving a_ping) s' _ eq_refl
    default_limit_ok H)).
Defined.
Lemma reading_is_bounded_witness :
  (read_message kMaxFramePayloadBytes (receiving [xff; xff; xff; xff; x00; x00])).2 =
    fail ErrorCode.BoundsExceeded "frame length exceeds the configured bound".
Proof.
  exact (proj2 (proj2 (reading_is_bounded kMaxFramePayloadBytes
    (receiving [xff; xff; xff; xff; x00; x00]) eq_refl default_limit_ok)
    [xff; xff; xff; xff] [x00; x00] eq_refl eq_refl ltac:(vm_compute; reflexivity))).
Defined.
Lemma channel_is_fifo_witness :
  ∃ a' b', write_messages [mkMessage 4 []; mkMessage 5 [x01]] a_socket = (a', Ok tt) ∧
    read_messages kMaxFramePayloadBytes 2 (receiving (sent a')) =
      (b', Ok [mkMessage 4 []; mkMessage 5 [x01]]).
Proof.
  destruct (write_messages_succeed [mkMessage 4 []; mkMessage 5 [x01]] a_socket eq_refl) as [a' Ha];
    [by repeat constructor|repeat (apply Forall_cons_2; [vm_compute; discriminate|]); constructor|].
  destruct (channel_is_fifo [mkMessage 4 []; mkMessage 5 [x01]] kMaxFramePayloadBytes a_socket a'
    (receiving (sent a')) []) as (b' & Hb & _);
    [repeat (apply Forall_cons_2; [split; vm_compute; discriminate|]); constructor
    |exact Ha|reflexivity|exact default_limit_ok|reflexivity|reflexivity
    |rewrite app_nil_r; apply stream_receiving|].
  exists a', b'. split; [exact Ha|exact Hb].
Defined.
Definition an_action : MemberActionRequest :=
  mkMemberAction (mkId (replicate 16 x01)) zero (mkCounter 2) 9999 "fence".
Lemma payload_arrives_witness :
  ∃ bs a' b', encode_payload an_action = Ok bs ∧ write_message 23 bs a_socket = (a', Ok tt) ∧
    read_message kMaxFramePayloadBytes (receiving (sent a')) = (b', Ok (mkMessage 23 bs)) ∧
    decode_payload bs = Ok an_action.
Proof.
  assert (∃ bs, encode_payload an_action = Ok bs ∧ size bs = 43) as (bs & Henc & Hsize)
    by (eexists; split; [vm_compute; reflexivity|reflexivity]).
  destruct (write_messages_succeed [mkMessage 23 bs] a_socket eq_refl) as [a' Ha];
    [by repeat constructor|apply Forall_cons_2; [cbn; rewrite Hsize; vm_compute; discriminate|constructor]|].
  assert (write_message 23 bs a_socket = (a', Ok tt)) as Hw.
  { apply io_bind_inv in Ha as (s1 & [] & H1 & H2). injection H2 as <-. exact H1. }
  destruct (payload_arrives an_action 23 bs kMaxFramePayloadBytes a_socket a' (receiving (sent a')) [])
    as (b' & Hb & _ & Hd);
    [by split_and!|exact Henc|by split|exact Hw|reflexivity|exact default_limit_ok|reflexivity|reflexivity
    |rewrite app_nil_r; apply stream_receiving|].
  exists bs, a', b'. split; [exact Henc|split; [exact Hw|split; [exact Hb|exact Hd]]].
Defined.
