(* ===== verification/Json.v ===== *)
(** * The JSON writer

    Models include/fabric_federation/json.hpp and src/json.cpp: the writer as a
    record of its members and one function per member function; the overload for
    floating-point numbers is not modelled.  The writer is compared with a
    reference printer of documents, and what it writes reads back. *)

From Stdlib Require Import DecimalString DecimalN DecimalPos.
From S2P Require Import Prelude Errors Text.

(** ** The writer *)

Record JsonWriter := mkJson {
  out : list byte;
  pretty : bool;
  need_comma : bool;
  depth : Z;
  after_key : bool
}.
Definition json_writer (p : bool) : JsonWriter := mkJson [] p false 0 false.
Definition put (bs : list byte) (w : JsonWriter) : JsonWriter :=
  mkJson (out w ++ bs) (pretty w) (need_comma w) (depth w) (after_key w).
Definition with_comma (b : bool) (w : JsonWriter) : JsonWriter :=
  mkJson (out w) (pretty w) b (depth w) (after_key w).
Definition with_after_key (b : bool) (w : JsonWriter) : JsonWriter :=
  mkJson (out w) (pretty w) (need_comma w) (depth w) b.
Definition nest (d : Z) (w : JsonWriter) : JsonWriter :=
  mkJson (out w) (pretty w) (need_comma w) (depth w + d) (after_key w).

Definition indent (w : JsonWriter) : JsonWriter :=
  if pretty w then put (x0a :: mjoin (replicate (Z.to_nat (depth w)) [x20; x20])) w else w.
Definition indent_inside (w : JsonWriter) : JsonWriter := if (0 <? depth w)%Z then indent w else w.
Definition comma (w : JsonWriter) : JsonWriter := if need_comma w then put [x2c] w else w.
Definition prepare_value (w : JsonWriter) : JsonWriter :=
  if after_key w then with_after_key false w
  else with_comma true (indent_inside (comma w)).
Definition begin_object (w : JsonWriter) : JsonWriter :=
  with_comma false (nest 1 (put [x7b] (prepare_value w))).
Definition close (bs : list byte) (w : JsonWriter) : JsonWriter :=
  let w := nest (-1) w in
  let w := if need_comma w then indent w else w in
  with_comma true (put bs w).
Definition end_object (w : JsonWriter) : JsonWriter := close [x7d] w.
Definition begin_array (w : JsonWriter) : JsonWriter :=
  with_comma false (nest 1 (put [x5b] (prepare_value w))).
Definition end_array (w : JsonWriter) : JsonWriter := close [x5d] w.
Definition key (name : string) (w : JsonWriter) : JsonWriter :=
  let w := put (json_escape (bytes_of name)) (indent_inside (comma w)) in
  let w := put [x3a] w in
  let w := if pretty w then put [x20] w else w in
  with_after_key true (with_comma true w).
Definition json_string (value : string) (w : JsonWriter) : JsonWriter :=
  put (json_escape (bytes_of value)) (prepare_value w).
Definition number (value : N) (w : JsonWriter) : JsonWriter :=
  put (bytes_of (to_dec value)) (prepare_value w).
Definition number_signed (value : Z) (w : JsonWriter) : JsonWriter :=
  put (bytes_of ((if (value <? 0)%Z then "-" else "") +s+ to_dec (Z.abs_N value))) (prepare_value w).
Definition boolean (value : bool) (w : JsonWriter) : JsonWriter :=
  put (bytes_of (if value then "true" else "false")) (prepare_value w).
Definition null_value (w : JsonWriter) : JsonWriter := put (bytes_of "null") (prepare_value w).

(** ** Documents *)

Inductive Json :=
  | JNull
  | JBool (b : bool)
  | JNumber (n : N)
  | JString (s : string)
  | JArray (l : list Json)
  | JObject (l : list (string * Json)).

Section json_ind.
Context (P : Json → Prop).
Hypothesis Hnull : P JNull.
Hypothesis Hbool : ∀ b, P (JBool b).
Hypothesis Hnumber : ∀ n, P (JNumber n).
Hypothesis Hstring : ∀ s, P (JString s).
Hypothesis Harray : ∀ l, Forall P l → P (JArray l).
Hypothesis Hobject : ∀ l, Forall (λ p, P p.2) l → P (JObject l).

Fixpoint json_nested_ind (v : Json) : P v :=
  match v with
  | JNull => Hnull
  | JBool b => Hbool b
  | JNumber n => Hnumber n
  | JString s => Hstring s
  | JArray l => Harray l ((fix go l : Forall P l :=
      match l with
      | [] => Forall_nil_2 P
      | v :: l => Forall_cons_2 P v l (json_nested_ind v) (go l)
      end) l)
  | JObject l => Hobject l ((fix go l : Forall (λ p, P p.2) l :=
      match l with
      | [] => Forall_nil_2 _
      | p :: l => Forall_cons_2 (λ p, P p.2) p l (json_nested_ind p.2) (go l)
      end) l)
  end.
End json_ind.

(** Writing a document with the operations of the writer. *)
Fixpoint write (v : Json) (w : JsonWriter) : JsonWriter :=
  match v with
  | JNull => null_value w
  | JBool b => boolean b w
  | JNumber n => number n w
  | JString s => json_string s w
  | JArray l => end_array (foldl (λ w v, write v w) (begin_array w) l)
  | JObject l => end_object (foldl (λ w p, write p.2 (key p.1 w)) (begin_object w) l)
  end.

(** The reference printer. *)
Section print.
Context (pretty_ : bool).
Definition new_line (d : nat) : list byte :=
  if pretty_ then x0a :: mjoin (replicate d [x20; x20]) else [].
(** The items of a container, separated by commas, each on its line. *)
Fixpoint items (d : nat) (first : bool) (l : list (list byte)) : list byte :=
  match l with
  | [] => if first then [] else new_line (d - 1)
  | i :: l => (if first then [] else [x2c]) ++ new_line d ++ i ++ items d false l
  end.
Fixpoint print (d : nat) (v : Json) : list byte :=
  match v with
  | JNull => bytes_of "null"
  | JBool b => bytes_of (if b then "true" else "false")
  | JNumber n => bytes_of (to_dec n)
  | JString s => json_escape (bytes_of s)
  | JArray l => [x5b] ++ items (S d) true (print (S d) <$> l) ++ [x5d]
  | JObject l =>
      [x7b] ++ items (S d) true
        ((λ p, json_escape (bytes_of p.1) ++ [x3a] ++ (if pretty_ then [x20] else []) ++ print (S d) p.2) <$> l) ++
      [x7d]
  end.
End print.

(** ** The writer prints documents *)

(** What precedes a value: nothing after a key; otherwise the comma of a further
    item and, inside a container, a new line. *)
Definition lead (w : JsonWriter) : list byte :=
  if after_key w then []
  else (if need_comma w then [x2c] else []) ++
       (if (0 <? depth w)%Z then new_line (pretty w) (Z.to_nat (depth w)) else []).
Definition after_value (bs : list byte) (w : JsonWriter) : JsonWriter :=
  mkJson (out w ++ bs) (pretty w) true (depth w) false.
(** A key leaves a comma due. *)
Definition ready (w : JsonWriter) : Prop := after_key w = true → need_comma w = true.

Lemma put_after w bs cs : put cs (after_value bs w) = after_value (bs ++ cs) w.
Proof. unfold put, after_value. cbn. by rewrite <-app_assoc. Qed.
Lemma indent_put w : indent w = put (new_line (pretty w) (Z.to_nat (depth w))) w.
Proof.
  unfold indent, new_line. destruct (pretty w) eqn:H; [done|].
  destruct w. cbn in *. unfold put. cbn. by rewrite app_nil_r.
Qed.
Lemma prepare_value_lead w : ready w → prepare_value w = after_value (lead w) w.
Proof.
  destruct w as [o p c d k]. unfold ready, prepare_value, lead, indent_inside, comma, after_value.
  cbn [after_key need_comma depth pretty out]. intros Hr. destruct k.
  { rewrite (Hr eq_refl). unfold with_after_key. cbn. by rewrite app_nil_r. }
  destruct c; cbn [put depth]; (destruct (0 <? d)%Z; [rewrite indent_put|]); unfold with_comma, put;
    cbn; by rewrite ?app_nil_r, <-?app_assoc.
Qed.

Section fold.
Context {A : Type} (f : A → JsonWriter → JsonWriter) (g : A → list byte) (p : bool) (d : nat).
Definition writes_item (a : A) : Prop :=
  ∀ w, pretty w = p → depth w = Z.of_nat (S d) → after_key w = false →
    f a w = after_value ((if need_comma w then [x2c] else []) ++ new_line p (S d) ++ g a) w.
Lemma close_items l bs : ∀ w,
  Forall writes_item l → pretty w = p → depth w = Z.of_nat (S d) → after_key w = false →
  close bs (foldl (λ w a, f a w) w l) =
    mkJson (out w ++ items p (S d) (negb (need_comma w)) (g <$> l) ++ bs) p true (Z.of_nat d) false.
Proof.
  induction l as [|a l IH]; intros w Hl Hp Hd Hk.
  - cbn [foldl fmap list_fmap items]. unfold close. destruct w as [o q c dp k]. cbn in Hp, Hd, Hk. subst.
    unfold nest. cbn [out pretty need_comma depth after_key].
    replace (Z.of_nat (S d) + -1)%Z with (Z.of_nat d) by lia.
    destruct c; cbn [negb].
    + rewrite indent_put. unfold with_comma, put. cbn [out pretty need_comma depth after_key].
      rewrite Nat2Z.id, Nat.sub_succ, Nat.sub_0_r, <-app_assoc. done.
    + by unfold with_comma, put.
  - apply Forall_cons in Hl as [Ha Hl]. cbn [foldl fmap list_fmap items].
    rewrite (Ha w Hp Hd Hk). rewrite IH by done. cbn [after_value out need_comma negb].
    rewrite <-!app_assoc. do 2 f_equal. by destruct (need_comma w).
Qed.
End fold.

Lemma lead_item w d : depth w = Z.of_nat (S d) → after_key w = false →
  lead w = (if need_comma w then [x2c] else []) ++ new_line (pretty w) (S d).
Proof.
  intros Hd Hk. unfold lead. rewrite Hk, Hd. destruct (Z.ltb_spec 0 (Z.of_nat (S d))); [|lia].
  by rewrite Nat2Z.id.
Qed.
Lemma key_written name w d : depth w = Z.of_nat (S d) → after_key w = false →
  key name w = mkJson (out w ++ ((if need_comma w then [x2c] else []) ++ new_line (pretty w) (S d) ++
    json_escape (bytes_of name) ++ [x3a] ++ (if pretty w then [x20] else []))) (pretty w) true (depth w) true.
Proof.
  intros Hd Hk. destruct w as [o q c dp k]. cbn in Hd, Hk. subst. unfold key, indent_inside, comma.
  cbn [need_comma pretty out depth after_key].
  assert (depth (if c then put [x2c] (mkJson o q c (Z.of_nat (S d)) false)
                 else mkJson o q c (Z.of_nat (S d)) false) = Z.of_nat (S d)) as -> by by destruct c.
  destruct (Z.ltb_spec 0 (Z.of_nat (S d))); [|lia]. rewrite indent_put.
  destruct c, q; unfold with_after_key, with_comma, put; cbn [out pretty need_comma depth after_key];
    rewrite ?Nat2Z.id, <-?app_assoc, ?app_nil_r; done.
Qed.

Lemma write_document v w :
  ready w → (0 ≤ depth w)%Z →
  write v w = mkJson (out w ++ lead w ++ print (pretty w) (Z.to_nat (depth w)) v) (pretty w) true
                (depth w) false.
Proof.
  revert w. induction v as [| | | |l IH|l IH] using json_nested_ind; intros w Hr Hd;
    cbn [write print].
  1-4: unfold null_value, boolean, number, json_string; rewrite prepare_value_lead, put_after by done;
       reflexivity.
  - set (d := Z.to_nat (depth w)). assert (depth w = Z.of_nat d) as Hd' by (unfold d; lia).
    unfold begin_array, end_array. rewrite prepare_value_lead, put_after by done.
    rewrite (close_items write (print (pretty w) (S d)) (pretty w) d); cycle 1.
    { eapply Forall_impl; [exact IH|]. cbn beta. intros v Hv w' Hp Hd1 Hk.
      rewrite Hv by (first [lia|intros ?; congruence]). rewrite (lead_item w' d) by done.
      unfold after_value. by rewrite Hd1, Nat2Z.id, Hp, <-app_assoc. }
    1-3: cbn; (done || lia).
    cbn [with_comma nest after_value out need_comma negb]. rewrite <-!app_assoc. by rewrite Hd'.
  - set (d := Z.to_nat (depth w)). assert (depth w = Z.of_nat d) as Hd' by (unfold d; lia).
    unfold begin_object, end_object. rewrite prepare_value_lead, put_after by done.
    rewrite (close_items (λ p w, write p.2 (key p.1 w))
      (λ p, json_escape (bytes_of p.1) ++ [x3a] ++ (if pretty w then [x20] else []) ++
            print (pretty w) (S d) p.2) (pretty w) d); cycle 1.
    { eapply Forall_impl; [exact IH|]. cbn beta. intros p Hv w' Hp Hd1 Hk.
      rewrite (key_written _ _ d) by done. rewrite Hv by (cbn; first [done|lia]).
      unfold after_value, lead. cbn [out pretty need_comma depth after_key].
      rewrite Hd1, Nat2Z.id, Hp, <-!app_assoc. cbn [app]. done. }
    1-3: cbn; (done || lia).
    cbn [with_comma nest after_value out need_comma negb]. rewrite <-!app_assoc. by rewrite Hd'.
Qed.
Lemma write_fresh v p : out (write v (json_writer p)) = print p 0 v.
Proof. rewrite write_document; [done|done|cbn; lia]. Qed.

(** The JSON writer prints the document it is driven through: whatever was
    written before, writing a document appends the comma and the line break that are
    due and then the text of the reference printer, and leaves the writer
    ready for the next item at the same depth. *)
Theorem writer_prints_document v w
    (Hr : ready w) (Hd : (0 ≤ depth w)%Z) :
  write v w = mkJson (out w ++ lead w ++ print (pretty w) (Z.to_nat (depth w)) v) (pretty w) true
                (depth w) false.
Proof. by apply write_document. Qed.


(** ** Reading a document back *)

(** The reference reader skips blanks before every token. *)
Definition blank (b : byte) : bool := bool_decide (b = x20) || bool_decide (b = x0a).
Fixpoint skip_blanks (l : list byte) : list byte :=
  match l with
  | b :: l' => if blank b then skip_blanks l' else l
  | [] => []
  end.
Definition is_digit (b : byte) : bool := (48 <=? Byte.to_N b) && (Byte.to_N b <=? 57).
Fixpoint span_digits (l : list byte) : list byte * list byte :=
  match l with
  | b :: l' => if is_digit b then let r := span_digits l' in (b :: r.1, r.2) else ([], l)
  | [] => ([], [])
  end.
Definition text_of (bs : list byte) : string := String.string_of_list_byte bs.
Definition read_digits (ds : list byte) : option N := N.of_uint <$> NilZero.uint_of_string (text_of ds).
Definition read_literal (l : list byte) : option (string * list byte) :=
  match skip_blanks l with
  | x22 :: l => (λ r, (text_of r.1, r.2)) <$> json_read_tail (length l) l
  | _ => None
  end.

(** Items separated by commas, up to the closing byte: every item takes fuel. *)
Fixpoint read_items {B} (item : list byte → option (B * list byte)) (closing : byte) (fuel : nat)
    (l : list byte) : option (list B * list byte) :=
  match fuel with
  | O => None
  | S fuel =>
      p ← item l;
      match skip_blanks p.2 with
      | b :: l' =>
          if bool_decide (b = x2c) then q ← read_items item closing fuel l'; Some (p.1 :: q.1, q.2)
          else if bool_decide (b = closing) then Some ([p.1], l') else None
      | [] => None
      end
  end.
Definition read_container {B} (item : list byte → option (B * list byte)) (closing : byte)
    (l : list byte) : option (list B * list byte) :=
  match skip_blanks l with
  | b :: l' => if bool_decide (b = closing) then Some ([], l') else read_items item closing (length l) l
  | [] => None
  end.
Definition read_member {B} (value : list byte → option (B * list byte)) (l : list byte) :
    option ((string * B) * list byte) :=
  k ← read_literal l;
  match skip_blanks k.2 with
  | x3a :: l' => v ← value l'; Some ((k.1, v.1), v.2)
  | _ => None
  end.
(** The fuel is the depth of the document. *)
Fixpoint read_value (fuel : nat) (l : list byte) : option (Json * list byte) :=
  match fuel with
  | O => None
  | S fuel =>
      match skip_blanks l with
      | [] => None
      | b :: l' =>
          if is_digit b then
            n ← read_digits (span_digits (b :: l')).1; Some (JNumber n, (span_digits (b :: l')).2)
          else
            match b, l' with
            | x22, _ => r ← read_literal (b :: l'); Some (JString r.1, r.2)
            | x5b, _ => r ← read_container (read_value fuel) x5d l'; Some (JArray r.1, r.2)
            | x7b, _ => r ← read_container (read_member (read_value fuel)) x7d l'; Some (JObject r.1, r.2)
            | x6e, x75 :: x6c :: x6c :: l' => Some (JNull, l')
            | x74, x72 :: x75 :: x65 :: l' => Some (JBool true, l')
            | x66, x61 :: x6c :: x73 :: x65 :: l' => Some (JBool false, l')
            | _, _ => None
            end
      end
  end.
(** The whole input is one value, read with the length of the input as fuel. *)
Definition read_json (l : list byte) : option Json :=
  match read_value (S (length l)) l with
  | Some (v, rest) => if decide (skip_blanks rest = []) then Some v else None
  | None => None
  end.

(** The document with its strings as they were written: invalid bytes replaced. *)
Definition sanitized (s : string) : string := text_of (utf8_sanitize (bytes_of s)).
Fixpoint sanitize (v : Json) : Json :=
  match v with
  | JString s => JString (sanitized s)
  | JArray l => JArray (sanitize <$> l)
  | JObject l => JObject ((λ p, (sanitized p.1, sanitize p.2)) <$> l)
  | v => v
  end.
Fixpoint nesting (v : Json) : nat :=
  match v with
  | JArray l => S (max_list_with nesting l)
  | JObject l => S (max_list_with (λ p, nesting p.2) l)
  | _ => 1
  end.

Lemma skip_new_line p d l : skip_blanks (new_line p d ++ l) = skip_blanks l.
Proof.
  destruct p; [|done]. cbn [new_line app skip_blanks].
  change (blank x0a) with true. cbv iota. induction d as [|d IH]; [done|]. exact IH.
Qed.
Lemma read_value_skip fuel l l' : skip_blanks l = skip_blanks l' → read_value fuel l = read_value fuel l'.
Proof. intros H. destruct fuel; [done|]. cbn [read_value]. by rewrite H. Qed.

(** *** Numbers *)

Lemma digits_of_uint d : Forall (λ b, is_digit b = true) (bytes_of (NilEmpty.string_of_uint d)).
Proof. induction d; cbn; [constructor|constructor; [done|exact IHd]..]. Qed.
Lemma digits_of_dec n : Forall (λ b, is_digit b = true) (bytes_of (to_dec n)).
Proof.
  unfold to_dec, NilZero.string_of_uint. destruct (N.to_uint n) eqn:E; try apply digits_of_uint.
  by constructor.
Qed.
Lemma dec_nonempty n : ∃ b bs, bytes_of (to_dec n) = b :: bs.
Proof.
  unfold to_dec, NilZero.string_of_uint. destruct (N.to_uint n); cbn; eauto.
Qed.
Lemma read_digits_dec n : read_digits (bytes_of (to_dec n)) = Some n.
Proof.
  unfold read_digits, text_of, bytes_of. rewrite String.string_of_list_byte_of_string.
  unfold to_dec. rewrite NilZero.usu by (destruct n; [done|apply DecimalPos.Unsigned.to_uint_nonnil]).
  cbn. f_equal. apply DecimalN.Unsigned.of_to.
Qed.
(** What may follow a number. *)
Definition stops (l : list byte) : Prop := match l with b :: _ => is_digit b = false | [] => True end.
Lemma span_digits_app ds rest :
  Forall (λ b, is_digit b = true) ds → stops rest → span_digits (ds ++ rest) = (ds, rest).
Proof.
  intros Hd Hs. induction Hd as [|b ds Hb Hd IH]; cbn [app span_digits].
  - destruct rest as [|b rest]; [done|]. cbn in *. by rewrite Hs.
  - by rewrite Hb, IH.
Qed.

(** *** Values *)

(** The first byte of a printed value. *)
Definition starts_value (l : list byte) : Prop :=
  ∃ b bs, l = b :: bs ∧ blank b = false ∧ b ≠ x5d ∧ b ≠ x7d.
Lemma digit_facts b : is_digit b = true →
  blank b = false ∧ b ≠ x5d ∧ b ≠ x7d ∧ b ≠ x22 ∧ b ≠ x5b ∧ b ≠ x7b ∧ b ≠ x6e ∧ b ≠ x74 ∧ b ≠ x66.
Proof. destruct b; try discriminate; intros _; split_and!; (reflexivity || discriminate). Qed.
Lemma print_starts p d v rest : starts_value (print p d v ++ rest).
Proof.
  destruct v as [|b|n|s|l|l]; cbn [print]; try (eexists _, _; split; [reflexivity|done]).
  - destruct b; eexists _, _; split; [reflexivity|done|reflexivity|done].
  - destruct (dec_nonempty n) as (b & bs & Hb). rewrite Hb. exists b, (bs ++ rest). split; [done|].
    pose proof (digits_of_dec n) as Hd. rewrite Hb in Hd. apply Forall_cons in Hd as [Hd _].
    destruct (digit_facts b Hd) as (? & ? & ? & _). done.
Qed.
Lemma skip_starts l : starts_value l → skip_blanks l = l.
Proof. intros (b & bs & -> & Hb & _). cbn. by rewrite Hb. Qed.

Lemma read_literal_skip l l' : skip_blanks l = skip_blanks l' → read_literal l = read_literal l'.
Proof. unfold read_literal. by intros ->. Qed.
Lemma read_literal_escape s rest :
  read_literal (json_escape (bytes_of s) ++ rest) = Some (sanitized s, rest).
Proof.
  unfold json_escape. rewrite <-app_comm_cons, <-app_assoc. cbn [app].
  unfold read_literal. change (skip_blanks (x22 :: ?l)) with (x22 :: l). cbv iota.
  rewrite json_read_escape_loop by (done || (rewrite length_app; cbn; lia)). done.
Qed.
Lemma read_number_value fuel n rest :
  stops rest → read_value (S fuel) (bytes_of (to_dec n) ++ rest) = Some (JNumber n, rest).
Proof.
  intros Hs. pose proof (read_digits_dec n) as Hr. pose proof (digits_of_dec n) as Hd.
  destruct (dec_nonempty n) as (b & bs & Hb).
  pose proof (span_digits_app _ rest Hd Hs) as Hspan. rewrite Hb in *.
  apply Forall_cons in Hd as [Hb' _]. destruct (digit_facts b Hb') as (Hblank & _).
  rewrite <-app_comm_cons in *. cbn [read_value skip_blanks]. rewrite Hblank, Hb', Hspan.
  cbn [fst snd]. by rewrite Hr.
Qed.

(** *** Containers *)

Section container.
Context {A B : Type} (item : list byte → option (B * list byte)) (g : A → list byte) (h : A → B).
Context (p : bool) (d : nat) (closing : byte).
Hypothesis Hclosing : blank closing = false ∧ closing ≠ x2c ∧ is_digit closing = false.
(** The item reads back what was printed for [a]. *)
Definition reads_item (a : A) : Prop :=
  (∃ b bs, g a = b :: bs ∧ blank b = false ∧ b ≠ closing) ∧
  ∀ rest, stops rest → item (new_line p (S d) ++ g a ++ rest) = Some (h a, rest).

Lemma stops_items l rest : stops (items p (S d) false (g <$> l) ++ closing :: rest).
Proof.
  destruct Hclosing as (_ & _ & Hd). destruct l; cbn [fmap list_fmap items].
  - rewrite Nat.sub_succ, Nat.sub_0_r. by destruct p.
  - done.
Qed.
Lemma read_items_printed l rest : ∀ a fuel,
  reads_item a → Forall reads_item l → (length l < fuel)%nat →
  read_items item closing fuel
    (new_line p (S d) ++ g a ++ items p (S d) false (g <$> l) ++ closing :: rest) =
    Some (h <$> a :: l, rest).
Proof.
  destruct Hclosing as (Hb & Hc & Hd).
  induction l as [|a' l IH]; intros a fuel [_ Ha] Hl Hfuel; (destruct fuel as [|fuel]; [cbn in Hfuel; lia|]);
    cbn [read_items]; rewrite Ha by apply stops_items.
  - cbn [fmap list_fmap items mbind option_bind fst snd]. rewrite skip_new_line. cbn [skip_blanks].
    rewrite Hb, bool_decide_eq_false_2, bool_decide_eq_true_2 by done. done.
  - apply Forall_cons in Hl as [Ha' Hl]. cbn [mbind option_bind fst snd].
    change (items p (S d) false (g <$> a' :: l)) with
      ([x2c] ++ new_line p (S d) ++ g a' ++ items p (S d) false (g <$> l)).
    rewrite <-!app_assoc. cbn [app skip_blanks]. change (blank x2c) with false. cbv iota.
    rewrite bool_decide_eq_true_2 by done. rewrite IH by (done || (cbn in Hfuel; lia)). done.
Qed.
Lemma items_length l : (length l ≤ length (items p (S d) false (g <$> l)))%nat.
Proof.
  induction l as [|a l IH]; [cbn; lia|]. cbn [fmap list_fmap items]. rewrite !length_app. cbn [length]. lia.
Qed.
Lemma read_container_printed l rest :
  Forall reads_item l →
  read_container item closing (items p (S d) true (g <$> l) ++ closing :: rest) = Some (h <$> l, rest).
Proof.
  destruct Hclosing as (Hb & _). intros Hl. unfold read_container. destruct l as [|a l].
  - cbn [fmap list_fmap items app skip_blanks]. rewrite Hb. by rewrite bool_decide_eq_true_2.
  - apply Forall_cons in Hl as [Ha Hl]. pose proof Ha as [(b & bs & Hg & Hblank & Hne) _].
    change (items p (S d) true (g <$> a :: l)) with
      (new_line p (S d) ++ g a ++ items p (S d) false (g <$> l)).
    rewrite <-!app_assoc, skip_new_line. rewrite Hg at 1. cbn [app skip_blanks]. rewrite Hblank.
    rewrite bool_decide_eq_false_2 by done. apply read_items_printed; [done|done|].
    pose proof (items_length l). rewrite !length_app. cbn [length]. lia.
Qed.
End container.

(** *** The whole document *)

Lemma read_value_container b fuel l :
  b = x5b ∨ b = x7b → read_value (S fuel) (b :: l) =
    if bool_decide (b = x5b) then r ← read_container (read_value fuel) x5d l; Some (JArray r.1, r.2)
    else r ← read_container (read_member (read_value fuel)) x7d l; Some (JObject r.1, r.2).
Proof. by intros [->| ->]. Qed.

Lemma max_list_elem {A} (f : A → nat) (l : list A) a : a ∈ l → (f a ≤ max_list_with f l)%nat.
Proof.
  induction l as [|b l IH]; [by intros ?%elem_of_nil|]. cbn [max_list_with].
  intros [->|H]%elem_of_cons; [lia|]. specialize (IH H). lia.
Qed.
Lemma read_print v p : ∀ d fuel rest,
  (nesting v ≤ fuel)%nat → stops rest →
  read_value fuel (print p d v ++ rest) = Some (sanitize v, rest).
Proof.
  induction v as [| b | n | s |l IH|l IH] using json_nested_ind; intros d fuel rest Hf Hs;
    (destruct fuel as [|fuel]; [cbn in Hf; lia|]); cbn [print sanitize].
  - done.
  - by destruct b.
  - by apply read_number_value.
  - pose proof (read_literal_escape s rest) as Hr. cbn [read_value]. unfold json_escape in *.
    cbn [app] in *. change (skip_blanks (x22 :: ?l)) with (x22 :: l).
    change (is_digit x22) with false. cbv iota. by rewrite Hr.
  - cbn [app]. rewrite read_value_container by by left.
    rewrite bool_decide_eq_true_2 by done. rewrite <-app_assoc. cbn [app].
    rewrite (read_container_printed (read_value fuel) (print p (S d)) sanitize p d x5d); [done|done|].
    apply Forall_forall. intros v Hv. rewrite Forall_forall in IH. split.
    { destruct (print_starts p (S d) v []) as (b & bs & Hb & ? & ? & ?). rewrite app_nil_r in Hb.
      by exists b, bs. }
    intros rest' Hs'. erewrite read_value_skip by apply skip_new_line. apply IH; [done| |done].
    cbn [nesting] in Hf. pose proof (max_list_elem nesting l v Hv). lia.
  - cbn [app]. rewrite read_value_container by by right.
    rewrite bool_decide_eq_false_2 by done. rewrite <-app_assoc. cbn [app].
    rewrite (read_container_printed (read_member (read_value fuel)) _
      (λ q, (sanitized q.1, sanitize q.2)) p d x7d); [done|done|].
    apply Forall_forall. intros q Hq. rewrite Forall_forall in IH. split.
    { by eexists x22, _. }
    intros rest' Hs'. unfold read_member. rewrite (read_literal_skip _ _ (skip_new_line _ _ _)).
    rewrite <-app_assoc.
    rewrite read_literal_escape. cbn [mbind option_bind fst snd app].
    change (skip_blanks (x3a :: ?l)) with (x3a :: l). cbv iota. rewrite <-app_assoc.
    rewrite (read_value_skip fuel _ (print p (S d) q.2 ++ rest')) by by destruct p.
    rewrite IH; [done|done| |done].
    cbn [nesting] in Hf. pose proof (max_list_elem (λ q, nesting q.2) l q Hq). cbn in H. lia.
Qed.

Lemma items_max_length p d first (l : list (list byte)) :
  (max_list_with length l ≤ length (items p d first l))%nat.
Proof.
  revert first. induction l as [|i l IH]; intros first; cbn [max_list_with items]; [lia|].
  rewrite !length_app. specialize (IH false). lia.
Qed.
Lemma nesting_print p v : ∀ d, (nesting v ≤ length (print p d v))%nat.
Proof.
  assert (∀ {A} (f : A → nat) (g : A → list byte) (l : list A), Forall (λ a, f a ≤ length (g a))%nat l →
    (max_list_with f l ≤ max_list_with length (g <$> l))%nat) as Hmax.
  { intros A f g l. induction 1; cbn [max_list_with fmap list_fmap]; lia. }
  induction v as [| b | n | s |l IH|l IH] using json_nested_ind; intros d; cbn [nesting print].
  - cbn. lia.
  - destruct b; cbn; lia.
  - destruct (dec_nonempty n) as (b & bs & ->). cbn. lia.
  - cbn. lia.
  - rewrite !length_app. pose proof (items_max_length p (S d) true (print p (S d) <$> l)).
    pose proof (Hmax _ nesting (print p (S d)) l (Forall_impl _ _ _ IH (λ v H, H (S d)))). cbn [length]. lia.
  - rewrite !length_app. match goal with |- context [items p (S d) true (?g' <$> l)] => set (g := g') end.
    pose proof (items_max_length p (S d) true (g <$> l)).
    assert (max_list_with (λ q, nesting q.2) l ≤ max_list_with length (g <$> l))%nat; [|cbn [length]; lia].
    apply Hmax. eapply Forall_impl; [exact IH|]. cbn beta. intros q Hq. unfold g. rewrite !length_app.
    specialize (Hq (S d)). lia.
Qed.

Lemma read_printed p v : read_json (print p 0 v) = Some (sanitize v).
Proof.
  unfold read_json. rewrite <-(app_nil_r (print p 0 v)) at 2. rewrite read_print; [done| |done].
  pose proof (nesting_print p v 0). lia.
Qed.
(** What the JSON writer produces is well-formed JSON: a document written by
    a fresh writer, in either layout, reads back with the reference reader as
    the same document, where every string reads as its sanitised text. *)
Theorem written_document_reads_back p v :
  read_json (out (write v (json_writer p))) = Some (sanitize v).
Proof.
  rewrite write_fresh. apply read_printed.
Qed.
