(* ===== verification/Render.v ===== *)
(** * Rendering a federation state

    Models the renderers of src/state.cpp: the one-line summary, the text and the
    JSON document that QueryState sends.  The JSON is the document
    [state_document] printed by the writer, so it reads back. *)

From S2P Require Import Prelude Errors Sha256 Text Codec Ids Names Scope Capability Policy Identity.
From S2P Require Import Explanation Lease Partition Evidence Membership Journal State Json.

Definition digest_hex (s : FederationState) : string := Digest_to_hex (state_digest s).

Definition summarize_state (s : FederationState) : string :=
  "federation=" +s+ id_to_string (federation s) +s+ " epoch=" +s+ to_dec (value (epoch s)) +s+
  " members=" +s+ to_dec (size (members s)) +s+ " active=" +s+ to_dec (active_member_count s) +s+
  " partition=" +s+ PartitionState.to_string (p_state (s_partition s)) +s+
  (if s_reconciling s then " reconciling" else "") +s+ " digest=" +s+ hex16 (state_digest s).

(** ** Text *)

Definition concat_map {A} (f : A → string) (l : list A) : string := String.concat "" (f <$> l).
(** A section of lines, or the line that says there is none. *)
Definition lines_or_none {A} (f : A → string) (l : list A) : string :=
  (if nonempty l then "" else "  (none)" +s+ nl) +s+ concat_map f l.
Definition render_contribution (c : Contribution) : string :=
  "        * " +s+ id_to_string (c_member c) +s+ " as " +s+ ContributionRole.to_string (c_role c) +s+
  " gen=" +s+ to_dec (value (c_generation c)) +s+ " inc=" +s+ to_dec (value (c_incarnation c)) +s+
  " digest=" +s+ hex16 (c_constitution c) +s+ nl.
Definition render_member (m : MemberState) : string :=
  "  - " +s+ id_to_string (ms_member m) +s+ " [" +s+ MemberLifecycleState.to_string (ms_lifecycle m) +s+
  "] lineage=" +s+ to_dec (value (ms_lineage m)) +s+ (if ms_bootstrap m then " bootstrap" else "") +s+ nl +s+
  "      identity: gen=" +s+ to_dec (value (idn_generation (ms_current_identity m))) +s+
  " inc=" +s+ to_dec (value (idn_incarnation (ms_current_identity m))) +s+
  " digest=" +s+ hex16 (idn_constitution (ms_current_identity m)) +s+ nl +s+
  "      local authority: " +s+ render_grants (ms_retained_local_authority m) +s+ nl +s+
  "      federation authority: " +s+ render_grants (federation_authority m) +s+ nl +s+
  (if nonempty (withheld_grants m)
   then "      withheld: " +s+ render_grants (withheld_grants m) +s+ nl else "") +s+
  (if nonempty (withheld_global_mutation m)
   then "      withheld (global mutation): " +s+ render_grants (withheld_global_mutation m) +s+ nl else "") +s+
  (if nonempty (fenced_incarnations m)
   then "      fenced incarnations:" +s+
        concat_map (λ i, " " +s+ to_dec (value i)) (fenced_incarnations m) +s+ nl else "") +s+
  (if nonempty (contributing_parties m)
   then "      contributing parties:" +s+ nl +s+ concat_map render_contribution (contributing_parties m)
   else "").
Definition render_lease (l : LeaseView) : string :=
  "  - " +s+ id_to_string (lv_id l) +s+ " holder=" +s+ id_to_string (lv_holder l) +s+ " [" +s+
  LeaseState.to_string (lv_state l) +s+ "] scopes=" +s+ render_grants (lv_scopes l) +s+ nl.
Definition render_state_text (s : FederationState) : string :=
  "federation:        " +s+ id_to_string (federation s) +s+ nl +s+
  "coordinator:       " +s+ id_to_string (coordinator s) +s+ " incarnation " +s+
  to_dec (value (coordinator_incarnation s)) +s+ nl +s+
  "epoch:             " +s+ to_dec (value (epoch s)) +s+
  (if s_reconciling s then " (reconciling)" else "") +s+ nl +s+
  "policy:            " +s+ str (s_policy_id s) +s+ " generation " +s+
  to_dec (value (s_policy_generation s)) +s+ " digest " +s+ hex16 (s_policy_digest s) +s+ nl +s+
  "logical tick:      " +s+ to_dec (value (s_logical_time s)) +s+ nl +s+
  "partition:         " +s+ PartitionState.to_string (p_state (s_partition s)) +s+ " - " +s+
  p_summary (s_partition s) +s+ nl +s+
  "artefacts:         " +s+ to_dec (artifact_count s) +s+ " applied, " +s+
  to_dec (rejected_artifact_count s) +s+ " rejected, " +s+
  to_dec (duplicate_artifact_count s) +s+ " duplicate" +s+ nl +s+
  "state digest:      " +s+ digest_hex s +s+ nl +s+
  nl +s+ "members:" +s+ nl +s+ lines_or_none render_member (members s) +s+
  nl +s+ "conflicts:" +s+ nl +s+
  lines_or_none (λ c, "  - " +s+ conflict_to_string c +s+ nl) (s_conflicts s) +s+
  nl +s+ "leases:" +s+ nl +s+ lines_or_none render_lease (s_leases s) +s+
  (if nonempty (global_reasons s)
   then nl +s+ "federation reasons:" +s+ nl +s+
        concat_map (λ r, "  - " +s+ reason_to_string r +s+ nl) (global_reasons s) else "").

(** ** JSON *)

(** The calls in the order the code makes them, composed from left to right. *)
Notation "f >> g" := (λ w : JsonWriter, g (f w)) (at level 60, right associativity).
Definition each {A} (f : A → JsonWriter → JsonWriter) (l : list A) (w : JsonWriter) : JsonWriter :=
  foldl (λ w a, f a w) w l.
Definition render_strings {A} (name : string) (f : A → string) (l : list A) : JsonWriter → JsonWriter :=
  key name >> begin_array >> each (λ a, json_string (f a)) l >> end_array.
Definition field_text (name text : string) : JsonWriter → JsonWriter := key name >> json_string text.
Definition field_number (name : string) (n : N) : JsonWriter → JsonWriter := key name >> number n.
Definition field_flag (name : string) (b : bool) : JsonWriter → JsonWriter := key name >> boolean b.

Definition contributor_json (c : Contribution) : JsonWriter → JsonWriter :=
  begin_object >>
  field_text "member" (id_to_string (c_member c)) >>
  field_text "role" (ContributionRole.to_string (c_role c)) >>
  field_number "generation" (value (c_generation c)) >>
  field_number "incarnation" (value (c_incarnation c)) >>
  field_text "constitution_digest" (Digest_to_hex (c_constitution c)) >>
  end_object.
Definition member_json (m : MemberState) : JsonWriter → JsonWriter :=
  begin_object >>
  field_text "member" (id_to_string (ms_member m)) >>
  field_text "domain" (id_to_string (ms_domain m)) >>
  field_text "lifecycle" (MemberLifecycleState.to_string (ms_lifecycle m)) >>
  field_number "lineage" (value (ms_lineage m)) >>
  field_flag "bootstrap" (ms_bootstrap m) >>
  field_number "generation" (value (idn_generation (ms_current_identity m))) >>
  field_number "incarnation" (value (idn_incarnation (ms_current_identity m))) >>
  field_text "constitution_digest" (Digest_to_hex (idn_constitution (ms_current_identity m))) >>
  field_flag "current" (activation_current m) >>
  field_text "evidence" (EvidenceState.to_string (ms_evidence m)) >>
  render_strings "local_authority" grant_to_string (ms_retained_local_authority m) >>
  render_strings "federation_authority" grant_to_string (federation_authority m) >>
  render_strings "withheld" grant_to_string (withheld_grants m) >>
  render_strings "withheld_global_mutation" grant_to_string (withheld_global_mutation m) >>
  key "contributors" >> begin_array >> each contributor_json (contributing_parties m) >> end_array >>
  end_object.
Definition conflict_json (c : ConflictRecord) : JsonWriter → JsonWriter :=
  begin_object >>
  field_text "grant" (grant_to_string (conflict_grant c)) >>
  field_text "kind" (ConflictKind.to_string (kind c)) >>
  render_strings "claimants" id_to_string (claimants c) >>
  field_text "detail" (detail c) >>
  end_object.
Definition lease_json (l : LeaseView) : JsonWriter → JsonWriter :=
  begin_object >>
  field_text "id" (id_to_string (lv_id l)) >>
  field_text "holder" (id_to_string (lv_holder l)) >>
  field_text "state" (LeaseState.to_string (lv_state l)) >>
  field_number "issued_epoch" (value (lv_issued_epoch l)) >>
  field_number "not_after_tick" (value (lv_not_after l)) >>
  field_flag "revoked" (lv_revoked l) >>
  render_strings "scopes" grant_to_string (lv_scopes l) >>
  end_object.
Definition reason_json (r : Reason) : JsonWriter → JsonWriter :=
  begin_object >>
  field_text "code" (ReasonCode.to_string (reason_code r)) >>
  field_text "detail" (reason_detail r) >>
  end_object.
Definition partition_json (p : PartitionAssessment) : JsonWriter → JsonWriter :=
  begin_object >>
  field_text "state" (PartitionState.to_string (p_state p)) >>
  field_text "summary" (p_summary p) >>
  field_number "components" (size (components p)) >>
  end_object.
Definition render_state_json (s : FederationState) : JsonWriter → JsonWriter :=
  begin_object >>
  field_text "federation" (id_to_string (federation s)) >>
  field_text "coordinator" (id_to_string (coordinator s)) >>
  field_number "coordinator_incarnation" (value (coordinator_incarnation s)) >>
  field_number "epoch" (value (epoch s)) >>
  field_flag "reconciling" (s_reconciling s) >>
  field_text "policy_id" (str (s_policy_id s)) >>
  field_number "policy_generation" (value (s_policy_generation s)) >>
  field_text "policy_digest" (Digest_to_hex (s_policy_digest s)) >>
  field_number "logical_tick" (value (s_logical_time s)) >>
  field_text "state_digest" (digest_hex s) >>
  field_number "artifact_count" (artifact_count s) >>
  field_number "rejected_artifact_count" (rejected_artifact_count s) >>
  field_number "duplicate_artifact_count" (duplicate_artifact_count s) >>
  key "partition" >> partition_json (s_partition s) >>
  key "members" >> begin_array >> each member_json (members s) >> end_array >>
  key "conflicts" >> begin_array >> each conflict_json (s_conflicts s) >> end_array >>
  key "leases" >> begin_array >> each lease_json (s_leases s) >> end_array >>
  key "reasons" >> begin_array >> each reason_json (global_reasons s) >> end_array >>
  end_object.

(** ** The document *)

Definition strings_document {A} (f : A → string) (l : list A) : Json := JArray ((λ a, JString (f a)) <$> l).
Definition contributor_document (c : Contribution) : Json := JObject
  [("member", JString (id_to_string (c_member c)));
   ("role", JString (ContributionRole.to_string (c_role c)));
   ("generation", JNumber (value (c_generation c)));
   ("incarnation", JNumber (value (c_incarnation c)));
   ("constitution_digest", JString (Digest_to_hex (c_constitution c)))].
Definition member_document (m : MemberState) : Json := JObject
  [("member", JString (id_to_string (ms_member m)));
   ("domain", JString (id_to_string (ms_domain m)));
   ("lifecycle", JString (MemberLifecycleState.to_string (ms_lifecycle m)));
   ("lineage", JNumber (value (ms_lineage m)));
   ("bootstrap", JBool (ms_bootstrap m));
   ("generation", JNumber (value (idn_generation (ms_current_identity m))));
   ("incarnation", JNumber (value (idn_incarnation (ms_current_identity m))));
   ("constitution_digest", JString (Digest_to_hex (idn_constitution (ms_current_identity m))));
   ("current", JBool (activation_current m));
   ("evidence", JString (EvidenceState.to_string (ms_evidence m)));
   ("local_authority", strings_document grant_to_string (ms_retained_local_authority m));
   ("federation_authority", strings_document grant_to_string (federation_authority m));
   ("withheld", strings_document grant_to_string (withheld_grants m));
   ("withheld_global_mutation", strings_document grant_to_string (withheld_global_mutation m));
   ("contributors", JArray (contributor_document <$> contributing_parties m))].
Definition conflict_document (c : ConflictRecord) : Json := JObject
  [("grant", JString (grant_to_string (conflict_grant c)));
   ("kind", JString (ConflictKind.to_string (kind c)));
   ("claimants", strings_document id_to_string (claimants c));
   ("detail", JString (detail c))].
Definition lease_document (l : LeaseView) : Json := JObject
  [("id", JString (id_to_string (lv_id l)));
   ("holder", JString (id_to_string (lv_holder l)));
   ("state", JString (LeaseState.to_string (lv_state l)));
   ("issued_epoch", JNumber (value (lv_issued_epoch l)));
   ("not_after_tick", JNumber (value (lv_not_after l)));
   ("revoked", JBool (lv_revoked l));
   ("scopes", strings_document grant_to_string (lv_scopes l))].
Definition reason_document (r : Reason) : Json := JObject
  [("code", JString (ReasonCode.to_string (reason_code r))); ("detail", JString (reason_detail r))].
Definition state_document (s : FederationState) : Json := JObject
  [("federation", JString (id_to_string (federation s)));
   ("coordinator", JString (id_to_string (coordinator s)));
   ("coordinator_incarnation", JNumber (value (coordinator_incarnation s)));
   ("epoch", JNumber (value (epoch s)));
   ("reconciling", JBool (s_reconciling s));
   ("policy_id", JString (str (s_policy_id s)));
   ("policy_generation", JNumber (value (s_policy_generation s)));
   ("policy_digest", JString (Digest_to_hex (s_policy_digest s)));
   ("logical_tick", JNumber (value (s_logical_time s)));
   ("state_digest", JString (digest_hex s));
   ("artifact_count", JNumber (artifact_count s));
   ("rejected_artifact_count", JNumber (rejected_artifact_count s));
   ("duplicate_artifact_count", JNumber (duplicate_artifact_count s));
   ("partition", JObject
     [("state", JString (PartitionState.to_string (p_state (s_partition s))));
      ("summary", JString (p_summary (s_partition s)));
      ("components", JNumber (size (components (s_partition s))))]);
   ("members", JArray (member_document <$> members s));
   ("conflicts", JArray (conflict_document <$> s_conflicts s));
   ("leases", JArray (lease_document <$> s_leases s));
   ("reasons", JArray (reason_document <$> global_reasons s))].

Lemma each_write {A} (f : A → JsonWriter → JsonWriter) (doc : A → Json) l w :
  (∀ a w, f a w = write (doc a) w) →
  each f l w = foldl (λ w v, write v w) w (doc <$> l).
Proof.
  intros Hf. revert w. induction l as [|a l IH]; intros w; [done|].
  change (each f (a :: l) w) with (each f l (f a w)). rewrite IH, Hf. reflexivity.
Qed.
Lemma array_write {A} name (f : A → JsonWriter → JsonWriter) (doc : A → Json) l w :
  (∀ a w, f a w = write (doc a) w) →
  (key name >> begin_array >> each f l >> end_array) w = write (JArray (doc <$> l)) (key name w).
Proof. intros Hf. cbv beta. cbn [write]. by rewrite (each_write f doc). Qed.
Lemma strings_write {A} name (f : A → string) l w :
  render_strings name f l w = write (strings_document f l) (key name w).
Proof. by apply (array_write name (λ a, json_string (f a)) (λ a, JString (f a))). Qed.

#[local] Opaque begin_object end_object begin_array end_array key json_string number boolean.
Lemma contributor_write c w : contributor_json c w = write (contributor_document c) w.
Proof. reflexivity. Qed.
Lemma reason_write r w : reason_json r w = write (reason_document r) w.
Proof. reflexivity. Qed.
Lemma conflict_write c w : conflict_json c w = write (conflict_document c) w.
Proof. unfold conflict_json. cbv beta. rewrite strings_write. reflexivity. Qed.
Lemma lease_write l w : lease_json l w = write (lease_document l) w.
Proof. unfold lease_json. cbv beta. rewrite strings_write. reflexivity. Qed.
Lemma member_write m w : member_json m w = write (member_document m) w.
Proof.
  unfold member_json. cbv beta. rewrite !strings_write, (each_write _ _ _ _ contributor_write). reflexivity.
Qed.
Lemma state_write s w : render_state_json s w = write (state_document s) w.
Proof.
  unfold render_state_json. cbv beta.
  rewrite (each_write _ _ _ _ member_write), (each_write _ _ _ _ conflict_write),
    (each_write _ _ _ _ lease_write), (each_write _ _ _ _ reason_write). reflexivity.
Qed.

(** The text of [json.str()] after [render_state_json]. *)
Definition state_json (s : FederationState) : string :=
  text_of (out (render_state_json s (json_writer false))).

(** C37: the JSON a coordinator sends for its state is well formed and says what the
    state says: it reads back as the document of the state, whose strings are
    those of the state with invalid bytes replaced. *)
Theorem state_json_reads_back s :
  read_json (bytes_of (state_json s)) = Some (sanitize (state_document s)).
Proof.
  unfold state_json, text_of, bytes_of. rewrite String.list_byte_of_string_of_list_byte, state_write.
  rewrite write_fresh. apply read_printed.
Qed.
