(* ===== verification/Server.v ===== *)
(** * The coordinator's server

    Models the connections of src/coordinator.cpp: the statistics, the answer to a
    message ([handle_message]), one connection from its hello to its end ([serve])
    and the coordinator with all its connections as a step relation.  An operation
    runs under the mutex of the coordinator, so serving one message is one
    step; reading a frame and writing a reply touch the connection only.  The
    properties: a message changes the coordinator by at most one call, nothing
    happens before a valid hello, every request gets its reply or an error after which
    the connection is closed, every session ends. *)

From stdpp Require Import relations.
From S2P Require Import Prelude Errors Sha256 Text Codec Ids Names Scope Capability Policy Identity.
From S2P Require Import Explanation Lease Partition Evidence Membership Journal State Derivation.
From S2P Require Import Authority Coordinator Recovery Operations Admission Net Protocol Json Render.

(** ** Readers *)

Record CoordinatorStats := mkStats {
  cs_state_digest : Digest;
  cs_epoch : Epoch;
  cs_logical_time : Tick;
  cs_incarnation : Incarnation;
  cs_artifacts : N;
  cs_rejected_artifacts : N;
  cs_duplicate_artifacts : N;
  cs_members : N;
  cs_active_members : N;
  cs_leases : N;
  cs_replay_entries : N;
  cs_connections_accepted : N;
  cs_protocol_errors : N;
  cs_journal_records : N;
  cs_journal_bytes : N;
  cs_durable : bool;
  cs_reconciling : bool;
  cs_partition_state : string;
  cs_transport : string;
  cs_recovery : string
}.
(** [accepted] and [errors] are the counters of the server; what comes from the
    derived state keeps its default when the derivation fails. *)
Definition stats (accepted errors : N) (c : Impl) : CoordinatorStats :=
  let leases_ := size (leases c) in let entries := size (replay c) in
  let records := (next_sequence (journal c) + (2 ^ 64 - 1)) mod 2 ^ 64 in
  match derive_locked c with
  | Ok s =>
      mkStats (state_digest s) (epoch s) (s_logical_time s) (c_incarnation c) (artifact_count s)
        (rejected_artifact_count s) (duplicate_artifact_count s) (size (members s))
        (active_member_count s) leases_ entries accepted errors records (size_bytes (journal c))
        (durable c) (s_reconciling s) (PartitionState.to_string (p_state (s_partition s)))
        transport_description (recovery_detail c)
  | Err _ =>
      mkStats Digest_zero zero zero (c_incarnation c) 0 0 0 0 0 leases_ entries accepted errors records
        (size_bytes (journal c)) (durable c) false "" transport_description (recovery_detail c)
  end.
Definition describe (bound_port : N) (c : Impl) : string :=
  "coordinator " +s+ id_to_string (cfg_node (config c)) +s+ " for federation " +s+
  id_to_string (cfg_federation (config c)) +s+
  (if listen (config c) then " listening on 127.0.0.1:" +s+ to_dec bound_port
   else " (not listening)") +s+
  (if durable c then " durable at " +s+ journal_path (config c) else " (in-memory only)").

(** ** The answer to a message *)

(** The reply: its type and its payload. *)
Definition Reply : Type := N * list byte.
Definition reply {A} `{Codec A} (t : MessageType.t) (a : A) : Op Reply :=
  bs ← lift (encode_payload a); mret (MessageType.value t, bs).
(** An operation whose failure is reported in the reply. *)
Definition attempt {A} (m : Op A) : Op (Result A) := λ c, let '(c, r) := m c in (c, Ok r).

Definition artifact_response (o : SubmissionOutcome) : ArtifactResponse :=
  let was d := bool_decide (disposition o = d) in
  mkArtifactResponse
    (if was SubmissionDisposition.Invalid then ErrorCode.InvalidArgument else ErrorCode.Ok)
    (SubmissionDisposition.to_string (disposition o) +s+ ": " +s+ so_detail o)
    (so_artifact_digest o) (so_state_digest o)
    (if was SubmissionDisposition.Applied then Outcome.Granted else Outcome.Refused)
    (was SubmissionDisposition.Duplicate)
    (was SubmissionDisposition.Rejected || was SubmissionDisposition.Invalid) (so_artifact_count o).
Definition digest_response (s : CoordinatorStats) : DigestResponse :=
  mkDigestResponse (cs_state_digest s) (cs_epoch s) (cs_logical_time s) (cs_artifacts s) (cs_members s)
    (cs_active_members s) (cs_reconciling s).
Definition stats_response (s : CoordinatorStats) : StatsResponse :=
  mkStatsResponse (cs_state_digest s) (cs_epoch s) (cs_logical_time s)
    [cs_artifacts s; cs_rejected_artifacts s; cs_duplicate_artifacts s; cs_members s; cs_active_members s;
     cs_leases s; cs_replay_entries s; cs_connections_accepted s; cs_protocol_errors s;
     cs_journal_records s; cs_journal_bytes s]
    (cs_reconciling s) (cs_partition_state s) (cs_transport s).
(** The lease of a failed request is a default one. *)
Definition default_lease : AuthorityLease :=
  mkLease nil_id nil_id no_identity [] zero zero zero zero nil_id zero false zero
    (wire ReasonCode.EvidenceUnknown) "".
Definition lease_response (r : Result AuthorityLease) : LeaseResponse :=
  match r with
  | Ok l => mkLeaseResponse (wire ErrorCode.Ok) "lease issued" l
  | Err s => mkLeaseResponse (wire (code s)) (message s) default_lease
  end.
(** The state digest of these responses is never set. *)
Definition simple_response (success : string) (r : Result unit) : SimpleResponse :=
  match r with
  | Ok _ => mkSimpleResponse (wire ErrorCode.Ok) success Digest_zero
  | Err s => mkSimpleResponse (wire (code s)) (message s) Digest_zero
  end.
Definition lease_request (r : LeaseIssueRequest) : LeaseRequest :=
  mkLeaseRequest (li_holder r) (li_scopes r) (li_not_after_epoch r) (li_lifetime_ticks r).

Section answer.
Context (accepted errors : N).
Definition answer_submit (p : list byte) : Op Reply :=
  a ← lift (decode_payload p);
  o ← submit_artifact a;
  reply MessageType.SubmitArtifactResult (artifact_response o).
Definition answer_state : Op Reply :=
  s ← derived;
  reply MessageType.StateValue (mkStateResponse (state_digest s) (state_json s)).
Definition answer_authority (p : list byte) : Op Reply :=
  r ← lift (decode_payload p);
  d ← evaluate r;
  reply MessageType.AuthorityResult (mkAuthorityResponse d).
Definition answer_issue (p : list byte) : Op Reply :=
  r ← lift (decode_payload p);
  l ← attempt (issue_lease (lease_request r));
  reply MessageType.LeaseResult (lease_response l).
Definition answer_simple (success : string) (m : Op unit) : Op Reply :=
  r ← attempt m;
  reply MessageType.SimpleResult (simple_response success r).
Definition answer_revoke (p : list byte) : Op Reply :=
  r ← lift (decode_payload p);
  answer_simple "lease revoked" (revoke_lease (rv_lease r) (rv_reason r) (rv_text r)).
Definition answer_observation (p : list byte) : Op Reply :=
  r ← lift (decode_payload p);
  answer_simple "observation recorded" (report_observation (observation r)).
Definition answer_time (p : list byte) : Op Reply :=
  r ← lift (decode_payload p);
  answer_simple "logical clock advanced" (advance_time (ta_to r)).
(** The operation of the three messages that share a payload. *)
Definition member_action (t : MessageType.t) (r : MemberActionRequest) : Op unit :=
  match t with
  | MessageType.FenceMember => fence_member (ma_subject r) (ma_lineage r) (ma_reason r) (ma_detail r)
  | MessageType.AdvanceEpoch => advance_epoch (ma_epoch r) (ma_reason r) (ma_detail r)
  | _ => complete_reconciliation (ma_epoch r)
  end.
Definition answer_action (t : MessageType.t) (p : list byte) : Op Reply :=
  r ← lift (decode_payload p);
  answer_simple "accepted" (member_action t r).
Definition answer_artifacts : Op Reply :=
  c ← get;
  reply MessageType.ArtifactListValue (mkArtifactList (artifacts c) (coordinator_state_digest c)).
Definition answer_leases : Op Reply :=
  c ← get;
  reply MessageType.LeaseListValue (mkLeaseList (snd <$> leases c)).

(** [handle_message] up to the write of the reply. *)
Definition answer (m : Message) : Op Reply :=
  match MessageType.of_value (msg_type m) with
  | Some MessageType.Ping => mret (MessageType.value MessageType.Pong, [])
  | Some MessageType.SubmitArtifact => answer_submit (msg_payload m)
  | Some MessageType.QueryDigest =>
      c ← get; reply MessageType.DigestValue (digest_response (stats accepted errors c))
  | Some MessageType.QueryState => answer_state
  | Some MessageType.AuthorityQuery => answer_authority (msg_payload m)
  | Some MessageType.IssueLease => answer_issue (msg_payload m)
  | Some MessageType.RevokeLease => answer_revoke (msg_payload m)
  | Some MessageType.ReportObservation => answer_observation (msg_payload m)
  | Some MessageType.AdvanceTime => answer_time (msg_payload m)
  | Some ((MessageType.FenceMember | MessageType.AdvanceEpoch | MessageType.CompleteReconciliation) as t) =>
      answer_action t (msg_payload m)
  | Some MessageType.QueryArtifacts => answer_artifacts
  | Some MessageType.QueryLeases => answer_leases
  | Some MessageType.StatsQuery =>
      c ← get; reply MessageType.StatsValue (stats_response (stats accepted errors c))
  | _ => lift (fail ErrorCode.ProtocolViolation
            ("message type " +s+ MessageType.to_string (msg_type m) +s+
             " is not accepted by this coordinator"))
  end.
End answer.

(** ** A connection *)

(** The server: the coordinator behind its mutex and the atomics beside it. *)
Record Server := mkServer {
  impl : Impl;
  stopping : bool;
  connections_accepted : N;
  protocol_errors : N
}.
Definition with_impl (c : Impl) (v : Server) : Server :=
  mkServer c (stopping v) (connections_accepted v) (protocol_errors v).
Definition count_error (v : Server) : Server :=
  mkServer (impl v) (stopping v) (connections_accepted v) ((protocol_errors v + 1) mod 2 ^ 64).

Definition kDefaultLimit : N := kMaxFramePayloadBytes.
(** The local [fail] of [serve]: an error message, if it can be encoded. *)
Definition send_error (e : Status) (s : Socket) : Socket :=
  match encode_payload (mkErrorResponse (code e) (message e)) with
  | Ok bs => (write_message (MessageType.value MessageType.ErrorMessage) bs s).1
  | Err _ => s
  end.
Definition welcome (c : Impl) : WelcomeResponse :=
  let d := derive_locked c in
  mkWelcome (cfg_federation (config c)) (cfg_node (config c)) (c_incarnation c)
    (match d with Ok s => epoch s | Err _ => zero end) (tick c)
    (match d with Ok s => state_digest s | Err _ => Digest_zero end)
    (policy_id (c_policy c)) (policy_generation (c_policy c)) kWireProtocolVersion
    (if durable c then "durable" else "in-memory").

(** Where a connection stands. *)
Inductive Phase := Greeting | Serving | Done.
#[export] Instance Phase_eq_dec : EqDecision Phase.
Proof. solve_decision. Defined.

(** The checks on the first message. *)
Definition check_hello (c : Impl) (m : Message) : Result HelloRequest :=
  fail_if (negb (msg_type m =? MessageType.value MessageType.Hello)) ErrorCode.ProtocolViolation
          "the first message on a connection must be a hello";;
  h ← decode_payload (msg_payload m);
  fail_if (negb (bool_decide (h_federation h = cfg_federation (config c)))) ErrorCode.Refused
          "the connection names a different federation";;
  fail_if (negb (h_protocol_version h =? kWireProtocolVersion)) ErrorCode.UnsupportedVersion
          "the connection declares an unsupported protocol version";;
  Ok h.
(** [serve] up to its loop. *)
Definition greet (v : Server) (s : Socket) : Server * Socket * Phase :=
  let refuse e s := (count_error v, send_error e s, Done) in
  match read_message kDefaultLimit s with
  | (s, Err e) => refuse e s
  | (s, Ok m) =>
      match check_hello (impl v) m with
      | Err e => refuse e s
      | Ok _ =>
          match encode_payload (welcome (impl v)) with
          | Err _ => (v, s, Done)
          | Ok bs =>
              match write_message (MessageType.value MessageType.Welcome) bs s with
              | (s, Err _) => (v, s, Done)
              | (s, Ok _) => (v, s, Serving)
              end
          end
      end
  end.
Definition handle_message (v : Server) (m : Message) (s : Socket) : Server * Socket * Result unit :=
  match answer (connections_accepted v) (protocol_errors v) m (impl v) with
  | (c, Err e) => (with_impl c v, s, Err e)
  | (c, Ok r) => let '(s, w) := write_message r.1 r.2 s in (with_impl c v, s, w)
  end.
(** One iteration of the loop of [serve]. *)
Definition serve_one (v : Server) (s : Socket) : Server * Socket * Phase :=
  if stopping v then (v, s, Done)
  else
    match read_message kDefaultLimit s with
    | (s, Err _) => (v, s, Done)
    | (s, Ok m) =>
        if msg_type m =? MessageType.value MessageType.Goodbye then (v, s, Done)
        else
          match handle_message v m s with
          | (v, s, Ok _) => (v, s, Serving)
          | (v, s, Err e) => (count_error v, send_error e s, Done)
          end
    end.
Definition turn (v : Server) (s : Socket) (p : Phase) : Server * Socket * Phase :=
  match p with
  | Greeting => greet v s
  | Serving => serve_one v s
  | Done => (v, s, Done)
  end.
Fixpoint turns (n : nat) (v : Server) (s : Socket) (p : Phase) : Server * Socket * Phase :=
  match n with
  | O => (v, s, p)
  | S n => let '(v, s, p) := turn v s p in turns n v s p
  end.
(** [serve]: every message takes at least forty-eight bytes of the stream. *)
Definition serve (v : Server) (s : Socket) : Server * Socket * Phase :=
  turns (S (S (length (stream s)))) v s Greeting.

(** ** All connections *)

(** The threads: a connection takes a turn, a connection is accepted, the program
    that embeds the coordinator makes a call, or the server is told to stop. *)
Inductive server_step : Server * list (Socket * Phase) → Server * list (Socket * Phase) → Prop :=
  | step_turn v l i s p v' s' p' :
      l !! i = Some (s, p) → turn v s p = (v', s', p') →
      server_step (v, l) (v', <[i := (s', p')]> l)
  | step_accept v l s :
      stopping v = false →
      server_step (v, l)
        (mkServer (impl v) (stopping v) ((connections_accepted v + 1) mod 2 ^ 64) (protocol_errors v),
         l ++ [(s, Greeting)])
  | step_local v l k : server_step (v, l) (with_impl (run k (impl v)).1 v, l)
  | step_stop v l :
      server_step (v, l)
        (mkServer (impl v) true (connections_accepted v) (protocol_errors v), l).

(** ** A message is at most one call *)

(** The call a message asks for. *)
Definition decoded {A} `{Codec A} (p : list byte) (f : A → Call) : option Call :=
  match decode_payload p with Ok a => Some (f a) | Err _ => None end.
Definition call_of (m : Message) : option Call :=
  let p := msg_payload m in
  match MessageType.of_value (msg_type m) with
  | Some MessageType.SubmitArtifact => decoded p Submit
  | Some MessageType.AuthorityQuery => decoded p Evaluate
  | Some MessageType.IssueLease => decoded p (λ r, IssueLease (lease_request r))
  | Some MessageType.RevokeLease => decoded p (λ r, RevokeLease (rv_lease r) (rv_reason r) (rv_text r))
  | Some MessageType.ReportObservation => decoded p (λ r, ReportObservation (observation r))
  | Some MessageType.AdvanceTime => decoded p (λ r, AdvanceTime (ta_to r))
  | Some MessageType.FenceMember =>
      decoded p (λ r, FenceMember (ma_subject r) (ma_lineage r) (ma_reason r) (ma_detail r))
  | Some MessageType.AdvanceEpoch => decoded p (λ r, AdvanceEpoch (ma_epoch r) (ma_reason r) (ma_detail r))
  | Some MessageType.CompleteReconciliation => decoded p (λ r, CompleteReconciliation (ma_epoch r))
  | _ => None
  end.
Definition after_call (k : option Call) (c : Impl) : Impl :=
  match k with Some k => (run k c).1 | None => c end.

Lemma then_pure {A B} (m : Op A) (k : A → Op B) c :
  (∀ a c, (k a c).1 = c) → ((m ≫= k) c).1 = (m c).1.
Proof. intros Hk. unfold mbind, Op_bind. destruct (m c) as [c' [a|e]]; [apply Hk|done]. Qed.
Lemma reply_pure {A} `{Codec A} t (a : A) c : (reply t a c).1 = c.
Proof. unfold reply, lift, mbind, Op_bind. by destruct (encode_payload a). Qed.
Lemma attempt_state {A} (m : Op A) c : (attempt m c).1 = (m c).1.
Proof. unfold attempt. by destruct (m c). Qed.
Lemma answer_simple_state t m c : (answer_simple t m c).1 = (m c).1.
Proof. unfold answer_simple. rewrite then_pure by (intros; apply reply_pure). apply attempt_state. Qed.
Lemma decoded_state {A} `{Codec A} p (f : A → Call) (m : A → Op Reply) c :
  (∀ a, (m a c).1 = (run (f a) c).1) →
  ((a ← lift (decode_payload p); m a) c).1 = after_call (decoded p f) c.
Proof.
  intros Hm. unfold decoded, lift. unfold mbind at 1, Op_bind.
  destruct (decode_payload p); [apply Hm|done].
Qed.
Lemma answer_state_is n e m c : (answer n e m c).1 = after_call (call_of m) c.
Proof.
  unfold answer, call_of. destruct (MessageType.of_value (msg_type m)) as [t|]; [|done].
  destruct t; try done.
  1: { apply decoded_state. intros a. rewrite then_pure by (intros; apply reply_pure).
       cbn [run]. by rewrite ignoring_state. }
  all: try (unfold get; cbn; apply reply_pure).
  all: try (apply decoded_state; intros a; apply answer_simple_state).
  - unfold answer_state. rewrite then_pure by (intros; apply reply_pure). apply pure_derived.
  - apply decoded_state. intros a. rewrite then_pure by (intros; apply reply_pure).
    cbn [run]. by rewrite ignoring_state.
  - apply decoded_state. intros a. rewrite then_pure by (intros; apply reply_pure).
    rewrite attempt_state. cbn [run]. by rewrite ignoring_state.
Qed.

Lemma handle_message_impl v m s :
  impl (handle_message v m s).1.1 = after_call (call_of m) (impl v).
Proof.
  unfold handle_message. pose proof (answer_state_is (connections_accepted v) (protocol_errors v) m (impl v)) as H.
  destruct (answer _ _ m (impl v)) as [c [r|e]]; [|done]. by destruct (write_message _ _ s).
Qed.
Lemma greet_impl v s : impl (greet v s).1.1 = impl v.
Proof.
  unfold greet. destruct (read_message _ s) as [s1 [m|]]; [|done].
  destruct (check_hello _ m); [|done]. destruct (encode_payload _); [|done].
  by destruct (write_message _ _ s1) as [s2 []].
Qed.
Lemma serve_one_impl v s : ∃ k, impl (serve_one v s).1.1 = after_call k (impl v).
Proof.
  unfold serve_one. destruct (stopping v); [by exists None|].
  destruct (read_message _ s) as [s1 [m|]]; [|by exists None].
  destruct (_ =? _); [by exists None|]. exists (call_of m). pose proof (handle_message_impl v m s1) as H.
  by destruct (handle_message v m s1) as [[v' s'] [|]].
Qed.
Lemma turn_impl v s p : ∃ k, impl (turn v s p).1.1 = after_call k (impl v).
Proof.
  destruct p; cbn [turn]; [exists None; apply greet_impl|apply serve_one_impl|by exists None].
Qed.
Lemma server_step_impl x y : server_step x y → ∃ k, impl y.1 = after_call k (impl x.1).
Proof.
  destruct 1 as [v l i s p v' s' p' _ Ht|v l s _|v l k|v l]; cbn [fst].
  - destruct (turn_impl v s p) as [k Hk]. rewrite Ht in Hk. by exists k.
  - by exists None.
  - by exists (Some k).
  - by exists None.
Qed.

(** ** Sessions *)

Lemma read_message_Ok limit s s' m :
  handle_valid s = true → limit_ok limit → read_message limit s = (s', Ok m) →
  stream s = frame_bytes (msg_type m) (msg_payload m) ++ stream s' ∧ known_type (msg_type m) ∧
  handle_valid s' = true.
Proof. intros Hv Hl H. destruct (read_message_inv limit s s' m Hv Hl H) as (? & ? & _ & _ & ? & _). done. Qed.
Lemma default_limit : limit_ok kDefaultLimit.
Proof. exact default_limit_ok. Qed.
Lemma write_message_stream t p s :
  stream (write_message t p s).1 = stream s ∧ handle_valid (write_message t p s).1 = handle_valid s.
Proof.
  unfold write_message. destruct (_ <? size p); [done|].
  destruct (handle_valid s) eqn:Hv; [|unfold send_all; by rewrite Hv].
  destruct (send_all_sent (frame_bytes t p) s Hv) as (n & s' & Hs & Hv' & _ & [[H _]|[H _]]); by rewrite H.
Qed.
Lemma handle_message_stream v m s :
  stream (handle_message v m s).1.2 = stream s ∧ handle_valid (handle_message v m s).1.2 = handle_valid s.
Proof.
  unfold handle_message. destruct (answer _ _ m (impl v)) as [c [r|e]]; [|done].
  pose proof (write_message_stream r.1 r.2 s) as H. by destruct (write_message r.1 r.2 s).
Qed.

(** A turn that goes on has taken a whole frame from the stream. *)
Lemma turn_consumes v s p v' s' :
  turn v s p = (v', s', Serving) → handle_valid s = true →
  handle_valid s' = true ∧ (p ≠ Done → (length (stream s') + 48 ≤ length (stream s))%nat).
Proof.
  intros Ht Hv. assert (∀ m s1, read_message kDefaultLimit s = (s1, Ok m) →
    handle_valid s1 = true ∧ (length (stream s1) + 48 ≤ length (stream s))%nat) as Hread.
  { intros m s1 Hr. destruct (read_message_Ok _ _ _ _ Hv default_limit Hr) as (Hs & _ & Hv1).
    split; [done|]. rewrite Hs, length_app. pose proof (size_frame_bytes (msg_type m) (msg_payload m)) as Hf.
    unfold size in Hf. lia. }
  destruct p; cbn [turn] in Ht; [| |done].
  - unfold greet in Ht. destruct (read_message _ s) as [s1 [m|]] eqn:Hr; [|done].
    destruct (Hread m s1 eq_refl) as [Hv1 Hlen].
    destruct (check_hello _ m); [|done]. destruct (encode_payload _) as [bs|]; [|done].
    pose proof (write_message_stream (MessageType.value MessageType.Welcome) bs s1) as [Hs2 Hv2].
    destruct (write_message _ bs s1) as [s2 [|]]; [|done]. injection Ht as <- <-. cbn [fst] in *.
    split; [congruence|]. by rewrite Hs2.
  - unfold serve_one in Ht. destruct (stopping v); [done|].
    destruct (read_message _ s) as [s1 [m|]] eqn:Hr; [|done].
    destruct (Hread m s1 eq_refl) as [Hv1 Hlen]. destruct (_ =? _); [done|].
    pose proof (handle_message_stream v m s1) as [Hs2 Hv2].
    destruct (handle_message v m s1) as [[v2 s2] [|]]; [|done]. injection Ht as <- <-. cbn [fst snd] in *.
    split; [congruence|]. by rewrite Hs2.
Qed.

Lemma turn_never_greets v s p : (turn v s p).2 ≠ Greeting.
Proof.
  destruct p; cbn [turn]; [| |done].
  - unfold greet. destruct (read_message _ s) as [s1 [m|]]; [|done]. destruct (check_hello _ m); [|done].
    destruct (encode_payload _); [|done]. by destruct (write_message _ _ s1) as [s2 []].
  - unfold serve_one. destruct (stopping v); [done|]. destruct (read_message _ s) as [s1 [m|]]; [|done].
    destruct (_ =? _); [done|]. by destruct (handle_message v m s1) as [[? ?] []].
Qed.
Lemma turns_done n v s : turns n v s Done = (v, s, Done).
Proof. induction n; [done|exact IHn]. Qed.
Lemma turns_end n : ∀ v s p,
  handle_valid s = true → (length (stream s) / 48 + 1 < n)%nat → (turns n v s p).2 = Done.
Proof.
  induction n as [|n IH]; intros v s p Hv Hn; [lia|]. cbn [turns].
  destruct (turn v s p) as [[v' s'] p'] eqn:Ht. destruct (decide (p = Done)) as [->|Hp].
  { injection Ht as <- <- <-. by rewrite turns_done. }
  pose proof (turn_never_greets v s p) as Hng. rewrite Ht in Hng.
  destruct p'; [done| |by rewrite turns_done].
  destruct (turn_consumes v s p v' s' Ht Hv) as [Hv' Hlen]. specialize (Hlen Hp).
  apply IH; [done|]. 
  assert (length (stream s') / 48 + 1 ≤ length (stream s) / 48)%nat; [|lia].
  replace (length (stream s)) with (length (stream s) - 48 + 1 * 48)%nat by lia.
  rewrite Nat.div_add by lia. apply Nat.add_le_mono_r, Nat.Div0.div_le_mono. lia.
Qed.
Lemma turns_more k n : ∀ v s p, (turns n v s p).2 = Done → turns (n + k) v s p = turns n v s p.
Proof.
  induction n as [|n IH]; intros v s p H; cbn [turns Nat.add] in *.
  - cbn in H. subst. apply turns_done.
  - destruct (turn v s p) as [[v1 s1] p1]. by apply IH.
Qed.
Lemma serve_at v s n : handle_valid s = true → (turns n v s Greeting).2 = Done →
  serve v s = turns n v s Greeting.
Proof.
  intros Hv Hn. assert ((serve v s).2 = Done) as Hd by (apply turns_end; [done|pose proof (Nat.Div0.div_le_upper_bound (length (stream s)) 48 (length (stream s))); lia]).
  unfold serve in *. set (m := S (S (length (stream s)))) in *.
  destruct (decide (n ≤ m)%nat).
  - replace m with (n + (m - n))%nat by lia. by apply turns_more.
  - symmetry. replace n with (m + (n - m))%nat by lia. by apply turns_more.
Qed.

(** C32: every session ends: whatever a peer sends and however its connection ends,
    the loop that serves it stops, after at most one turn for every forty-eight
    bytes it sent; no peer can keep a worker busy with a finite stream. *)
Theorem session_ends v s (Hv : handle_valid s = true) :
  (serve v s).2 = Done ∧
  ∀ n, (length (stream s) / 48 + 2 ≤ n)%nat → turns n v s Greeting = serve v s.
Proof.
  split; [apply turns_end; [done|pose proof (Nat.Div0.div_le_upper_bound (length (stream s)) 48 (length (stream s))); lia]|]. intros n Hn. symmetry. apply serve_at; [done|].
  apply turns_end; [done|lia].
Qed.

(** C29: nothing happens before a valid hello: if serving a connection changed the
    coordinator, then the first bytes of the connection were the frame of a hello
    that decodes, names the federation of the coordinator and declares the
    protocol version of this build. *)
Theorem nothing_before_hello v s
    (Hv : handle_valid s = true) (Hchanged : impl (serve v s).1.1 ≠ impl v) :
  ∃ p rest h, stream s = frame_bytes (MessageType.value MessageType.Hello) p ++ rest ∧
    decode_payload p = Ok h ∧ h_federation h = cfg_federation (config (impl v)) ∧
    h_protocol_version h = kWireProtocolVersion.
Proof.
  unfold serve in Hchanged. cbn [turns turn] in Hchanged. pose proof (greet_impl v s) as Hg.
  destruct (greet v s) as [[v1 s1] p1] eqn:Hgreet. cbn [fst] in Hg.
  destruct (decide (p1 = Serving)) as [->|Hp]; cycle 1.
  { assert (p1 = Done) as ->.
    { pose proof (turn_never_greets v s Greeting) as Hn. cbn [turn] in Hn. rewrite Hgreet in Hn. by destruct p1. }
    cbn [turn] in Hchanged. rewrite turns_done in Hchanged. by destruct Hchanged. }
  unfold greet in Hgreet. destruct (read_message _ s) as [s2 [m|]] eqn:Hr; [|done].
  destruct (check_hello (impl v) m) as [h|] eqn:Hh; [|done].
  destruct (read_message_Ok _ _ _ _ Hv default_limit Hr) as (Hs & _).
  unfold check_hello in Hh. apply seq_Ok in Hh as [Ht Hh]. apply bind_Ok in Hh as (h' & Hd & Hh).
  apply seq_Ok in Hh as [Hfed Hh]. apply seq_Ok in Hh as [Hver [= ->]].
  apply fail_if_Ok in Ht, Hfed, Hver. apply negb_false_iff in Ht, Hfed, Hver.
  apply N.eqb_eq in Ht, Hver. apply bool_decide_eq_true in Hfed.
  exists (msg_payload m), (stream s2), h. rewrite <-Ht. done.
Qed.

(** ** Conversations *)

(** The reply to a message as a frame can carry it; what is too large for a frame is
    refused by [write_message], like an error of the operation itself. *)
Definition respond (n e : N) (m : Message) (c : Impl) : Impl * Result Message :=
  match answer n e m c with
  | (c, Ok r) =>
      (c, if kMaxFramePayloadBytes <? size r.2
          then fail ErrorCode.BoundsExceeded "outgoing payload exceeds the frame bound"
          else Ok (mkMessage r.1 r.2))
  | (c, Err x) => (c, Err x)
  end.
(** What a list of requests calls for: the state after them, the replies to those that
    succeed, and the error of the first that does not, at which the session ends. *)
Fixpoint transcript (n e : N) (ms : list Message) (c : Impl) : Impl * list Message * option Status :=
  match ms with
  | [] => (c, [], None)
  | m :: ms =>
      match respond n e m c with
      | (c, Ok r) => let '(c, l, x) := transcript n e ms c in (c, r :: l, x)
      | (c, Err x) => (c, [], Some x)
      end
  end.
(** The message that reports an error, if it can be encoded and fits a frame. *)
Definition error_message (x : Status) : option Message :=
  match encode_payload (mkErrorResponse (code x) (message x)) with
  | Ok bs => if kMaxFramePayloadBytes <? size bs then None
             else Some (mkMessage (MessageType.value MessageType.ErrorMessage) bs)
  | Err _ => None
  end.
Definition error_bytes (x : option Status) : list byte :=
  match x ≫= error_message with Some m => wire_of [m] | None => [] end.
(** The server when the session is over: an error is counted. *)
Definition ended (v : Server) (c : Impl) (x : option Status) : Server :=
  match x with None => with_impl c v | Some _ => count_error (with_impl c v) end.

(** A connection on which nothing fails. *)
Definition sound_socket (s : Socket) : Prop :=
  handle_valid s = true ∧ Forall (λ k, k ≠ 0) (accepts s).

Lemma read_sound limit s m rest :
  sound_socket s → limit_ok limit → known_type (msg_type m) → size (msg_payload m) ≤ limit →
  stream s = frame_bytes (msg_type m) (msg_payload m) ++ rest →
  ∃ s', read_message limit s = (s', Ok m) ∧ stream s' = rest ∧ sound_socket s' ∧ sent s' = sent s.
Proof.
  intros [Hv Ha] Hl Ht Hp Hs. destruct (read_written limit s m rest Hv Hl Ht Hp Hs) as (s' & H & Hr & Hv').
  destruct (read_message_inv limit s s' m Hv Hl H) as (_ & _ & _ & Hsent & _ & Hacc).
  exists s'. split; [done|]. split; [done|]. split; [split; [done|by rewrite Hacc]|done].
Qed.
Lemma write_sound t p s :
  sound_socket s → size p ≤ kMaxFramePayloadBytes →
  ∃ s', write_message t p s = (s', Ok tt) ∧ stream s' = stream s ∧ sound_socket s' ∧
    sent s' = sent s ++ frame_bytes t p.
Proof.
  intros [Hv Ha] Hp. unfold write_message.
  destruct (N.ltb_spec kMaxFramePayloadBytes (size p)) as [|Hfit]; [lia|].
  destruct (send_all_accepts (frame_bytes t p) s Hv Ha) as (s' & H & Hv' & Ha').
  destruct (send_all_Ok _ _ _ _ H) as (_ & _ & Hsent).
  pose proof (write_message_stream t p s) as [Hs _]. unfold write_message in Hs.
  destruct (N.ltb_spec kMaxFramePayloadBytes (size p)) as [|_]; [lia|]. rewrite H in Hs. cbn [fst] in Hs.
  exists s'. by split_and!.
Qed.

(** A request: a message of the protocol that is no goodbye and fits a frame. *)
Definition is_request (m : Message) : Prop :=
  sendable m ∧ msg_type m ≠ MessageType.value MessageType.Goodbye.
Lemma wire_of_one m : wire_of [m] = frame_bytes (msg_type m) (msg_payload m).
Proof. apply app_nil_r. Qed.
Lemma wire_of_cons m ms : wire_of (m :: ms) = wire_of [m] ++ wire_of ms.
Proof. by rewrite wire_of_one. Qed.
Lemma send_error_sound x s : sound_socket s →
  sent (send_error x s) = sent s ++ error_bytes (Some x).
Proof.
  intros Hs. unfold send_error, error_bytes, error_message. cbn [mbind option_bind].
  destruct (encode_payload _) as [bs|]; [|by rewrite app_nil_r].
  destruct (N.ltb_spec kMaxFramePayloadBytes (size bs)) as [Hbig|Hfit].
  - unfold write_message. rewrite (proj2 (N.ltb_lt _ _)) by lia. by rewrite app_nil_r.
  - destruct (write_sound (MessageType.value MessageType.ErrorMessage) bs s Hs Hfit) as (s' & -> & _ & _ & Hsent).
    cbn [fst]. rewrite Hsent. by rewrite wire_of_one.
Qed.
(** One turn of the loop, for a request that was received whole. *)
Lemma serve_request m v s rest :
  sound_socket s → stopping v = false → is_request m → stream s = wire_of [m] ++ rest →
  match respond (connections_accepted v) (protocol_errors v) m (impl v) with
  | (c, Ok r) => ∃ s', serve_one v s = (with_impl c v, s', Serving) ∧ stream s' = rest ∧
      sound_socket s' ∧ sent s' = sent s ++ wire_of [r]
  | (c, Err x) => ∃ s', serve_one v s = (count_error (with_impl c v), s', Done) ∧
      sent s' = sent s ++ error_bytes (Some x)
  end.
Proof.
  intros Hsk Hstop [[Ht Hp] Hg] Hs. rewrite wire_of_one in *.
  destruct (read_sound kDefaultLimit s m rest Hsk default_limit Ht Hp Hs) as (s1 & H1 & Hs1 & Hsk1 & Hsent1).
  unfold respond, serve_one. rewrite Hstop, H1.
  destruct (N.eqb_spec (msg_type m) (MessageType.value MessageType.Goodbye)); [done|].
  unfold handle_message. destruct (answer _ _ m (impl v)) as [c [r|x]].
  - destruct (N.ltb_spec kMaxFramePayloadBytes (size r.2)) as [Hbig|Hfit].
    + unfold write_message. rewrite (proj2 (N.ltb_lt _ _)) by lia.
      eexists. split; [reflexivity|]. by rewrite send_error_sound, Hsent1.
    + destruct (write_sound r.1 r.2 s1 Hsk1 Hfit) as (s2 & H2 & Hs2 & Hsk2 & Hsent2). rewrite H2.
      exists s2. split_and!; [done|congruence|done|]. rewrite wire_of_one. cbn [msg_type msg_payload]. by rewrite Hsent2, Hsent1.
  - eexists. split; [reflexivity|]. by rewrite send_error_sound, Hsent1.
Qed.
Lemma serve_requests ms : ∀ v s c' rs x n rest,
  sound_socket s → stopping v = false → Forall is_request ms → stream s = wire_of ms ++ rest →
  transcript (connections_accepted v) (protocol_errors v) ms (impl v) = (c', rs, x) →
  ∃ s', sent s' = sent s ++ wire_of rs ++ error_bytes x ∧
    match x with
    | None => turns (length ms + n) v s Serving = turns n (with_impl c' v) s' Serving ∧
        length rs = length ms ∧ stream s' = rest ∧ sound_socket s'
    | Some _ => turns (length ms + n) v s Serving = (count_error (with_impl c' v), s', Done)
    end.
Proof.
  induction ms as [|m ms IH]; intros v s c' rs x n rest Hsk Hstop Hms Hs Ht.
  { injection Ht as <- <- <-. exists s. rewrite app_nil_r. split; [done|]. split_and!; try done. by destruct v. }
  apply Forall_cons in Hms as [Hm Hms]. rewrite wire_of_cons, <-app_assoc in Hs.
  pose proof (serve_request m v s _ Hsk Hstop Hm Hs) as Hone. cbn [transcript] in Ht.
  cbn [length Nat.add turns turn].
  destruct (respond _ _ m (impl v)) as [c1 [r|y]].
  - destruct Hone as (s1 & -> & Hs1 & Hsk1 & Hsent1).
    destruct (transcript _ _ ms c1) as [[c2 l] z] eqn:Hrest. injection Ht as <- <- <-.
    destruct (IH (with_impl c1 v) s1 c2 l z n rest) as (s2 & Hsent2 & H2); [done..|].
    exists s2. split; [by rewrite Hsent2, Hsent1, (wire_of_cons r l), <-!app_assoc|].
    destruct z; [exact H2|]. destruct H2 as (H2 & Hlen & Hs2 & Hsk2). split_and!; [exact H2|cbn; lia|done|done].
  - destruct Hone as (s1 & -> & Hsent1). injection Ht as <- <- <-.
    exists s1. split; [by rewrite Hsent1|]. apply turns_done.
Qed.

Lemma conversation_served v s h w ms rest c' rs x
    (Hsk : sound_socket s) (Hstop : stopping v = false)
    (Hhello : ∃ x, check_hello (impl v) (mkMessage (MessageType.value MessageType.Hello) h) = Ok x)
    (Hh : size h ≤ kMaxFramePayloadBytes)
    (Hw : encode_payload (welcome (impl v)) = Ok w) (Hwsize : size w ≤ kMaxFramePayloadBytes)
    (Hms : Forall is_request ms)
    (Hs : stream s = frame_bytes (MessageType.value MessageType.Hello) h ++ wire_of ms ++ rest)
    (Hrest : ∃ bye, rest = frame_bytes (MessageType.value MessageType.Goodbye) bye ∧
               size bye ≤ kMaxFramePayloadBytes)
    (Ht : transcript (connections_accepted v) (protocol_errors v) ms (impl v) = (c', rs, x)) :
  ∃ s', serve v s = (ended v c' x, s', Done) ∧
    sent s' = sent s ++ frame_bytes (MessageType.value MessageType.Welcome) w ++ wire_of rs ++ error_bytes x ∧
    (x = None → length rs = length ms ∧ stream s' = []).
Proof.
  destruct (read_sound kDefaultLimit s (mkMessage (MessageType.value MessageType.Hello) h)
    (wire_of ms ++ rest) Hsk default_limit) as (s1 & H1 & Hs1 & Hsk1 & Hsent1); [by split|done|exact Hs|].
  destruct (write_sound (MessageType.value MessageType.Welcome) w s1 Hsk1 Hwsize)
    as (s2 & H2 & Hs2 & Hsk2 & Hsent2).
  rewrite Hs1 in Hs2.
  destruct (serve_requests ms v s2 c' rs x 1 rest Hsk2 Hstop Hms Hs2 Ht) as (s3 & Hsent3 & H3).
  assert (∀ n, turns (S n) v s Greeting = turns n v s2 Serving) as Hgreet.
  { intros n. cbn [turns turn]. unfold greet. rewrite H1. destruct Hhello as [hello Hhello].
    by rewrite Hhello, Hw, H2. }
  assert (sent s3 = sent s ++ frame_bytes (MessageType.value MessageType.Welcome) w ++ wire_of rs ++ error_bytes x)
    as Hsent by by rewrite Hsent3, Hsent2, Hsent1, <-!app_assoc.
  destruct x as [y|].
  - exists s3. split; [|split; [exact Hsent|done]].
    cbn [ended]. rewrite <-H3, <-Hgreet. apply serve_at; [apply Hsk|]. by rewrite Hgreet, H3.
  - destruct H3 as (H3 & Hlen & Hs3 & Hsk3). destruct Hrest as (bye & -> & Hbye).
    destruct (read_sound kDefaultLimit s3 (mkMessage (MessageType.value MessageType.Goodbye) bye) []
      Hsk3 default_limit) as (s4 & H4 & Hs4 & Hsk4 & Hsent4); [by split|done|by rewrite app_nil_r|].
    exists s4. split; [|split; [by rewrite Hsent4|done]].
    assert (turns 1 (with_impl c' v) s3 Serving = (with_impl c' v, s4, Done)) as Hbyeturn.
    { cbn [turns turn]. unfold serve_one. change (stopping (with_impl c' v)) with (stopping v).
      by rewrite Hstop, H4. }
    cbn [ended]. rewrite <-Hbyeturn, <-H3, <-Hgreet. apply serve_at; [apply Hsk|].
    by rewrite Hgreet, H3, Hbyeturn.
Qed.

(** C6: a conversation is served: a peer that sends a valid hello, any requests and a
    goodbye gets the welcome and then one reply to every request, in their order and with
    nothing else in between, up to the first request that fails: one whose operation
    reports an error to the connection, that is not accepted, or whose reply does not fit
    a frame.  Instead of a reply to that one it gets an error message (if it can be
    encoded), the session ends there and the error is counted.  When none fails, there
    is a reply to each, all was read, and the session ends at the goodbye.  The replies
    are those of the coordinator after the earlier requests, and it is left in the state
    after all that were handled.  The connection takes every write ([sound_socket]), the
    welcome can be encoded and fits a frame, and the coordinator is not being stopped. *)
Theorem conversation_is_answered v s h w ms bye
    (Hsk : sound_socket s) (Hstop : stopping v = false)
    (Hhello : ∃ x, check_hello (impl v) (mkMessage (MessageType.value MessageType.Hello) h) = Ok x)
    (Hh : size h ≤ kMaxFramePayloadBytes)
    (Hw : encode_payload (welcome (impl v)) = Ok w) (Hwsize : size w ≤ kMaxFramePayloadBytes)
    (Hms : Forall is_request ms) (Hbye : size bye ≤ kMaxFramePayloadBytes)
    (Hs : stream s = frame_bytes (MessageType.value MessageType.Hello) h ++ wire_of ms ++
                     frame_bytes (MessageType.value MessageType.Goodbye) bye) :
  let '(c', rs, x) := transcript (connections_accepted v) (protocol_errors v) ms (impl v) in
  ∃ s', serve v s = (ended v c' x, s', Done) ∧
    sent s' = sent s ++ frame_bytes (MessageType.value MessageType.Welcome) w ++ wire_of rs ++ error_bytes x ∧
    (x = None → length rs = length ms ∧ stream s' = []).
Proof.
  destruct (transcript _ _ ms (impl v)) as [[c' rs] x] eqn:Ht.
  eapply conversation_served; [exact Hsk|exact Hstop|exact Hhello|exact Hh|exact Hw|exact Hwsize|exact Hms|exact Hs| |exact Ht].
  by exists bye.
Qed.

(** ** The whole server *)

Lemma sound_server x y : rtc server_step x y → sound (impl x.1) → sound (impl y.1).
Proof.
  induction 1 as [|x y z Hxy _ IH]; [done|]. intros Hs. apply IH.
  destruct (server_step_impl x y Hxy) as [k ->]. destruct k as [k|]; [by apply sound_run|done].
Qed.

(** No traffic can spoil the evidence: from a new coordinator on, whatever
    connections are made, whatever bytes they send and in whatever order they are
    served, every artefact the coordinator holds passes validation and belongs
    to its federation. *)
Theorem served_evidence_is_valid cfg c y a
    (Hpath : journal_path cfg ≠ "") (Hfresh : create cfg None no_faults [] = Ok c)
    (Hsteps : rtc server_step (mkServer c false 0 0, []) y) (Ha : a ∈ artifacts (impl y.1)) :
  artifact_validate builtin a = Ok tt ∧
  art_federation (envelope a) = cfg_federation (config (impl y.1)).
Proof.
  destruct (sound_server _ _ Hsteps (sound_created cfg c Hpath Hfresh)) as [_ Hall].
  rewrite Forall_forall in Hall. by apply Hall.
Qed.

(** The reply to an order that was carried out. *)
Lemma answer_fence_Ok n e p r c c1 :
  decode_payload p = Ok r →
  fence_member (ma_subject r) (ma_lineage r) (ma_reason r) (ma_detail r) c = (c1, Ok tt) →
  answer n e (mkMessage (MessageType.value MessageType.FenceMember) p) c =
    reply MessageType.SimpleResult (mkSimpleResponse (wire ErrorCode.Ok) "accepted" Digest_zero) c1.
Proof.
  intros Hd Hf. unfold answer. change (MessageType.of_value _) with (Some MessageType.FenceMember).
  cbn [msg_payload]. unfold answer_action, lift. unfold mbind at 1, Op_bind at 1. rewrite Hd.
  unfold answer_simple, attempt, member_action. unfold mbind, Op_bind. by rewrite Hf.
Qed.

(** C7: one message can make a coordinator impossible to restart: the reason in an
    order to fence a member is a 16-bit value that neither the decoder of the
    message nor the operation checks, while the decoder of the stored record does;
    a peer that sends a reason that is no enumerator is told the order was
    accepted, and from then on every start from the journal fails as corrupt. *)
Theorem one_message_blocks_restart n e p r c es s found
    (Hr : restartable c es) (Hroom : size es < max_records default_options)
    (Hconfig : validate_config (config c) = Ok tt)
    (Hp : decode_payload p = Ok r) (Hreason : ¬ listed (ma_reason r))
    (Hs : derive_locked c = Ok s) (Hm : find_member s (ma_subject r) = Some found)
    (a := make_lifecycle_record c s ArtifactKind.MembershipFence (ma_subject r)
            (effective_lineage (ma_lineage r) found) (epoch s) (ma_reason r) (ma_detail r))
    (Hwire : wire_ok (envelope a) ∧ body_widths_ok (body a))
    (Hnew : has_evidence c (art_evidence a) = false)
    (Hrun : (fence_member (ma_subject r) (ma_lineage r) (ma_reason r) (ma_detail r) c).2 = Ok tt) :
  let '(c1, told) := answer n e (mkMessage (MessageType.value MessageType.FenceMember) p) c in
  (∃ bs, told = Ok (MessageType.value MessageType.SimpleResult, bs) ∧
     decode_payload bs = Ok (mkSimpleResponse (wire ErrorCode.Ok) "accepted" Digest_zero)) ∧
  ∃ err, create (config c1) (Some (file (journal c1))) no_faults [] = Err err ∧
    code err = ErrorCode.Corrupt.
Proof.
  destruct (fence_member _ _ _ _ c) as [c1 res] eqn:Hf. cbn [snd] in Hrun. subst res.
  rewrite (answer_fence_Ok n e p r c c1 Hp Hf).
  pose proof (fence_blocks_restart _ _ _ _ _ _ _ _ _ Hr Hroom Hconfig Hs Hm Hreason Hwire Hnew Hf) as Herr.
  change (reply _ _ c1) with (c1, Ok (A := Reply) (MessageType.value MessageType.SimpleResult,
    [x00; x00; x08; x00; x00; x00; x61; x63; x63; x65; x70; x74; x65; x64] ++ replicate 32 x00)).
  split; [|exact Herr]. eexists. split; [reflexivity|]. by vm_compute.
Qed.

(** ** Instances *)

Definition example_server : Server := mkServer (initial founder_config []) false 0 0.
Definition payload_of {A} `{Codec A} (a : A) : list byte :=
  match encode_payload a with Ok bs => bs | Err _ => [] end.
Definition a_hello : list byte :=
  payload_of (mkHello (cfg_federation founder_config) (cfg_node founder_config) zero kWireProtocolVersion "test").
Definition two_requests : list Message :=
  [mkMessage (MessageType.value MessageType.Ping) [];
   mkMessage (MessageType.value MessageType.AdvanceTime) (payload_of (mkTimeAdvance (mkCounter 7)))].
Definition example_stream : list byte :=
  frame_bytes (MessageType.value MessageType.Hello) a_hello ++ wire_of two_requests ++
  frame_bytes (MessageType.value MessageType.Goodbye) [].

Definition small (bs : list byte) : bool := size bs <=? kMaxFramePayloadBytes.
Lemma small_true bs : small bs = true → size bs ≤ kMaxFramePayloadBytes.
Proof. apply N.leb_le. Qed.
(** The conditions of a conversation, with what is replied and how it ends. *)
Record answered (v : Server) (h : list byte) (ms : list Message) (w : list byte) (failed : bool) : Prop := {
  an_hello : ∃ x, check_hello (impl v) (mkMessage (MessageType.value MessageType.Hello) h) = Ok x;
  an_size : size h ≤ kMaxFramePayloadBytes;
  an_welcome : encode_payload (welcome (impl v)) = Ok w;
  an_wsize : size w ≤ kMaxFramePayloadBytes;
  an_end : bool_decide ((transcript (connections_accepted v) (protocol_errors v) ms (impl v)).2 = None) = negb failed
}.
Definition answered_check (v : Server) (h : list byte) (ms : list Message) (failed : bool) : bool :=
  is_ok (check_hello (impl v) (mkMessage (MessageType.value MessageType.Hello) h)) && small h &&
  match encode_payload (welcome (impl v)) with Ok w => small w | Err _ => false end &&
  bool_decide (bool_decide ((transcript (connections_accepted v) (protocol_errors v) ms (impl v)).2 = None) = negb failed).
Lemma answered_check_true v h ms failed :
  answered_check v h ms failed = true → ∃ w, answered v h ms w failed.
Proof.
  unfold answered_check. destruct (encode_payload (welcome _)) as [w|] eqn:Hw.
  2: { rewrite andb_false_r. done. }
  rewrite !andb_true_iff, bool_decide_eq_true. intros [[[Hh Hs] Hws] Hx].
  exists w. split; try by apply small_true.
  - by apply is_ok_true in Hh as [x ?]; exists x.
  - done.
  - exact Hx.
Qed.

Lemma example_conversation :
  answered_check example_server a_hello two_requests false &&
  negb (bool_decide (tick (impl (serve example_server (receiving example_stream)).1.1) =
                     tick (impl example_server))) = true.
Proof. vm_cast_no_check (eq_refl true). Qed.
(** The second of these requests is not one the coordinator accepts. *)
Definition refused_requests : list Message :=
  [mkMessage (MessageType.value MessageType.Ping) [];
   mkMessage (MessageType.value MessageType.Welcome) [];
   mkMessage (MessageType.value MessageType.Ping) []].
Definition refused_stream : list byte :=
  frame_bytes (MessageType.value MessageType.Hello) a_hello ++ wire_of refused_requests ++
  frame_bytes (MessageType.value MessageType.Goodbye) [].
Lemma refused_conversation : answered_check example_server a_hello refused_requests true = true.
Proof. vm_cast_no_check (eq_refl true). Qed.
Lemma and_both a b : a && negb b = true → a = true ∧ b = false.
Proof. by destruct a, b. Qed.
Lemma receiving_sound bs : sound_socket (receiving bs).
Proof. split; [done|constructor]. Qed.
Lemma requests_ok : Forall is_request two_requests ∧ Forall is_request refused_requests.
Proof.
  split; repeat apply Forall_cons_2; try apply Forall_nil_2;
    (split; [split; [split; vm_compute; discriminate|vm_compute; discriminate]|vm_compute; discriminate]).
Qed.

Lemma session_ends_witness :
  (serve example_server (receiving example_stream)).2 = Done ∧
  handle_valid (receiving example_stream) = true.
Proof.
  exact (conj (proj1 (session_ends example_server (receiving example_stream) eq_refl)) eq_refl).
Defined.
Lemma nothing_before_hello_witness :
  ∃ p rest h, example_stream = frame_bytes (MessageType.value MessageType.Hello) p ++ rest ∧
    decode_payload p = Ok h ∧ h_federation h = cfg_federation founder_config.
Proof.
  destruct (nothing_before_hello example_server (receiving example_stream) eq_refl) as (p & rest & h & Hs & Hd & Hf & _).
  - intros Heq. destruct (and_both _ _ example_conversation) as [_ Ht].
    exact (bool_decide_eq_false_1 _ Ht (f_equal tick Heq)).
  - exists p, rest, h. rewrite stream_receiving in Hs. done.
Defined.
Lemma conversation_is_answered_witness :
  (∃ c' s' w rs, serve example_server (receiving example_stream) = (with_impl c' example_server, s', Done) ∧
    sent s' = frame_bytes (MessageType.value MessageType.Welcome) w ++ wire_of rs ++ error_bytes None ∧
    length rs = 2%nat) ∧
  (∃ c' s', serve example_server (receiving refused_stream) = (count_error (with_impl c' example_server), s', Done)).
Proof.
  split.
  - destruct (answered_check_true _ _ _ _ (proj1 (and_both _ _ example_conversation))) as (w & [H1 H2 H3 H4 H5]).
    pose proof (conversation_is_answered example_server (receiving example_stream) a_hello w two_requests []
      (receiving_sound _) eq_refl H1 H2 H3 H4 (proj1 requests_ok) ltac:(vm_compute; discriminate)
      (stream_receiving _)) as H.
    destruct (transcript _ _ two_requests _) as [[c' rs] [y|]]; [discriminate H5|].
    destruct H as (s' & Hs & Hsent & Hlen). exists c', s', w, rs.
    split; [exact Hs|split; [exact Hsent|exact (proj1 (Hlen eq_refl))]].
  - destruct (answered_check_true _ _ _ _ refused_conversation) as (w & [H1 H2 H3 H4 H5]).
    pose proof (conversation_is_answered example_server (receiving refused_stream) a_hello w refused_requests []
      (receiving_sound _) eq_refl H1 H2 H3 H4 (proj2 requests_ok) ltac:(vm_compute; discriminate)
      (stream_receiving _)) as H.
    destruct (transcript _ _ refused_requests _) as [[c' rs] [y|]]; [|discriminate H5].
    destruct H as (s' & Hs & _). exists c', s'. exact Hs.
Defined.
Lemma served_evidence_is_valid_witness :
  ∃ c, create example_config None no_faults [] = Ok c ∧ artifact_validate builtin a_consent = Ok tt.
Proof.
  destruct (holds_after_true _ _ submitted_example) as (c & Hc & Ha). exists c. split; [exact Hc|].
  exact (proj1 (served_evidence_is_valid example_config c _ a_consent ltac:(discriminate) Hc
    (rtc_once (R := server_step) _ _ (step_local (mkServer c false 0 0) [] (Submit a_consent))) Ha)).
Defined.

Definition fence_order : MemberActionRequest := mkMemberAction (example_member x01) zero zero 9999 "".
Lemma fence_order_read : decode_payload (payload_of fence_order) = Ok fence_order.
Proof. vm_compute. reflexivity. Qed.
Lemma one_message_blocks_restart_witness :
  ∃ c1 bs err, answer 0 0 (mkMessage (MessageType.value MessageType.FenceMember) (payload_of fence_order)) departed =
      (c1, Ok (MessageType.value MessageType.SimpleResult, bs)) ∧
    create (config c1) (Some (file (journal c1))) no_faults [] = Err err ∧ code err = ErrorCode.Corrupt.
Proof.
  destruct (four_checks _ _ _ _ order_example) as (_ & Ho & Hc & Hl).
  destruct (order_check_true _ _ _ Ho) as (c1 & s & x & a & [Hs Hx -> Hwire Hnew Hrun]).
  destruct (is_ok_true _ Hc) as [[] Hconfig].
  pose proof (one_message_blocks_restart 0 0 (payload_of fence_order) fence_order departed _ s x
    departed_restartable ltac:(vm_compute; reflexivity) Hconfig fence_order_read
    (bool_decide_eq_false_1 _ Hl) Hs Hx Hwire Hnew (f_equal snd Hrun)) as H.
  destruct (answer 0 0 _ departed) as [c2 told]. destruct H as [(bs & -> & _) (err & He & Hcode)].
  exists c2, bs, err. split; [reflexivity|]. split; [exact He|exact Hcode].
Defined.
