(* ===== verification/Threads.v ===== *)
(** * Accepting, serving and stopping

    Models the threads of src/coordinator.cpp: [accept_loop], the [worker_loop] of
    every worker with the bounded queue and the condition variable between them,
    the registration of connections in [serve], and [stop].  An action is one
    critical section, one access to an atomic or one blocking call; what the
    peers, the operating system and the program that embeds the coordinator do are
    actions of their own.  The content of a session is the component Server; here a
    session only ends or goes on.  The properties: a connection has one owner, the
    queue is bounded, [stop] leaves nothing behind, and what it can wait for. *)

From stdpp Require Import relations.
From S2P Require Import Prelude Errors.

(** ** State *)

(** Where a thread is.  A connection is named by the order in which it was
    accepted. *)
Inductive AcceptAt := AcceptCheck | Accepting | AcceptFailed | Pushing (c : nat) | Notifying | AcceptExit.
(** [Checked]: the predicate of the wait was false and the queue is still locked;
    [Asleep]: in the wait; [Handled]: a message of the peer has been answered. *)
Inductive WorkerAt :=
  | AtQueue | Checked | Asleep
  | Registering (c : nat) | Reading (c : nat) | Handled (c : nat) | Unregistering (c : nat)
  | WorkerExit.
Inductive StopAt :=
  | NotStopping | SetFlag | CloseListener | JoinAccept | NotifyFirst | Collect
  | ShutDown (l : list nat) | NotifyAgain | JoinWorkers | ClearQueue | Stopped.
#[export] Instance AcceptAt_eq_dec : EqDecision AcceptAt.
Proof. solve_decision. Defined.
#[export] Instance WorkerAt_eq_dec : EqDecision WorkerAt.
Proof. solve_decision. Defined.
#[export] Instance StopAt_eq_dec : EqDecision StopAt.
Proof. solve_decision. Defined.

Record Threads := mkThreads {
  stopping : bool;
  listening : bool;
  queue : list nat;
  active_sockets : list nat;
  shut : list nat;
  closed : list nat;
  next_connection : nat;
  consecutive_failures : nat;
  acceptor : AcceptAt;
  workers : list WorkerAt;
  stopper : StopAt
}.
Definition with_acceptor (a : AcceptAt) (s : Threads) : Threads :=
  mkThreads (stopping s) (listening s) (queue s) (active_sockets s) (shut s) (closed s)
    (next_connection s) (consecutive_failures s) a (workers s) (stopper s).
Definition with_failures (n : nat) (s : Threads) : Threads :=
  mkThreads (stopping s) (listening s) (queue s) (active_sockets s) (shut s) (closed s)
    (next_connection s) n (acceptor s) (workers s) (stopper s).
Definition with_next (n : nat) (s : Threads) : Threads :=
  mkThreads (stopping s) (listening s) (queue s) (active_sockets s) (shut s) (closed s)
    n (consecutive_failures s) (acceptor s) (workers s) (stopper s).
Definition with_queue (q : list nat) (s : Threads) : Threads :=
  mkThreads (stopping s) (listening s) q (active_sockets s) (shut s) (closed s)
    (next_connection s) (consecutive_failures s) (acceptor s) (workers s) (stopper s).
Definition with_active (l : list nat) (s : Threads) : Threads :=
  mkThreads (stopping s) (listening s) (queue s) l (shut s) (closed s)
    (next_connection s) (consecutive_failures s) (acceptor s) (workers s) (stopper s).
Definition with_shut (l : list nat) (s : Threads) : Threads :=
  mkThreads (stopping s) (listening s) (queue s) (active_sockets s) l (closed s)
    (next_connection s) (consecutive_failures s) (acceptor s) (workers s) (stopper s).
Definition with_closed (l : list nat) (s : Threads) : Threads :=
  mkThreads (stopping s) (listening s) (queue s) (active_sockets s) (shut s) l
    (next_connection s) (consecutive_failures s) (acceptor s) (workers s) (stopper s).
Definition with_workers (l : list WorkerAt) (s : Threads) : Threads :=
  mkThreads (stopping s) (listening s) (queue s) (active_sockets s) (shut s) (closed s)
    (next_connection s) (consecutive_failures s) (acceptor s) l (stopper s).
Definition with_stopper (p : StopAt) (s : Threads) : Threads :=
  mkThreads (stopping s) (listening s) (queue s) (active_sockets s) (shut s) (closed s)
    (next_connection s) (consecutive_failures s) (acceptor s) (workers s) p.
Definition with_flags (f l : bool) (s : Threads) : Threads :=
  mkThreads f l (queue s) (active_sockets s) (shut s) (closed s)
    (next_connection s) (consecutive_failures s) (acceptor s) (workers s) (stopper s).

(** The state after [start] with a listener. *)
Definition start (worker_threads : nat) : Threads :=
  mkThreads false true [] [] [] [] 0 0 AcceptCheck (replicate worker_threads AtQueue) NotStopping.

(** ** Steps *)

(** Nobody holds [queue_mutex] between two actions but a worker about to sleep. *)
Definition queue_free (s : Threads) : bool := bool_decide (Checked ∉ workers s).
Definition kMaxConsecutiveFailures : nat := 64.

Section steps.
Context (max_pending : nat).

(** The thread of [accept_loop]; [None]: it waits.  It waits in [accept] until the
    operating system has a connection or a failure for it; closing the listener is
    such a failure. *)
Definition accept_step (s : Threads) : option Threads :=
  match acceptor s with
  | AcceptCheck =>
      Some (with_acceptor (if negb (stopping s) && listening s then Accepting else AcceptExit) s)
  | Accepting => if listening s then None else Some (with_acceptor AcceptFailed s)
  | AcceptFailed =>
      Some (if stopping s || negb (listening s) then with_acceptor AcceptExit s
            else
              let n := S (consecutive_failures s) in
              with_failures n
                (with_acceptor (if bool_decide (kMaxConsecutiveFailures < n)%nat then AcceptExit else AcceptCheck) s))
  | Pushing c =>
      if queue_free s then
        Some (if bool_decide (max_pending ≤ length (queue s))%nat
              then with_closed (closed s ++ [c]) (with_acceptor AcceptCheck s)
              else with_queue (queue s ++ [c]) (with_acceptor Notifying s))
      else None
  | Notifying | AcceptExit => None
  end.
Definition wake (w : WorkerAt) : WorkerAt := match w with Asleep => AtQueue | w => w end.
(** [notify_one]: wakes one sleeping worker, any of them, if there is one. *)
Definition notify_step (who : option nat) (s : Threads) : option Threads :=
  if bool_decide (acceptor s = Notifying) then
    match who with
    | None => if bool_decide (Asleep ∈ workers s) then None else Some (with_acceptor AcceptCheck s)
    | Some i =>
        if bool_decide (workers s !! i = Some Asleep)
        then Some (with_workers (<[i := AtQueue]> (workers s)) (with_acceptor AcceptCheck s))
        else None
    end
  else None.
(** A worker: [worker_loop] and the frame of [serve]. *)
Definition worker_step (i : nat) (s : Threads) : option Threads :=
  let at_ w := with_workers (<[i := w]> (workers s)) in
  match workers s !! i with
  | Some AtQueue =>
      if queue_free s then
        Some (match queue s with
              | c :: q => at_ (Registering c) (with_queue q s)
              | [] => at_ (if stopping s then WorkerExit else Checked) s
              end)
      else None
  | Some Checked => Some (at_ Asleep s)
  | Some (Registering c) => Some (at_ (Reading c) (with_active (active_sockets s ++ [c]) s))
  | Some (Reading c) => if bool_decide (c ∈ shut s) then Some (at_ (Unregistering c) s) else None
  | Some (Handled c) => Some (at_ (if stopping s then Unregistering c else Reading c) s)
  | Some (Unregistering c) =>
      Some (at_ AtQueue (with_closed (closed s ++ [c]) (with_active (filter (.≠ c) (active_sockets s)) s)))
  | Some Asleep | Some WorkerExit | None => None
  end.
(** [stop], with [shutdown_connections] between the two notifications. *)
Definition stop_step (s : Threads) : option Threads :=
  match stopper s with
  | NotStopping | Stopped => None
  | SetFlag => Some (with_stopper CloseListener (with_flags true (listening s) s))
  | CloseListener => Some (with_stopper JoinAccept (with_flags (stopping s) false s))
  | JoinAccept => if bool_decide (acceptor s = AcceptExit) then Some (with_stopper NotifyFirst s) else None
  | NotifyFirst => Some (with_stopper Collect (with_workers (wake <$> workers s) s))
  | Collect => Some (with_stopper (ShutDown (active_sockets s)) (with_active [] s))
  | ShutDown l => Some (with_stopper NotifyAgain (with_shut (shut s ++ l) s))
  | NotifyAgain => Some (with_stopper JoinWorkers (with_workers (wake <$> workers s) s))
  | JoinWorkers =>
      if bool_decide (Forall (.= WorkerExit) (workers s)) then Some (with_stopper ClearQueue s) else None
  | ClearQueue => Some (with_stopper Stopped (with_closed (closed s ++ queue s) (with_queue [] s)))
  end.

(** The actions of the program. *)
Inductive Action := Accept | NotifyOne (who : option nat) | Worker (i : nat) | Stop.
Definition act (a : Action) (s : Threads) : option Threads :=
  match a with
  | Accept => accept_step s
  | NotifyOne who => notify_step who s
  | Worker i => worker_step i s
  | Stop => stop_step s
  end.
(** What happens around it: a peer connects, sends a message or ends its side of a
    connection (or breaks the protocol, which ends the session as well), [accept]
    fails, a sleeping worker wakes for no reason, somebody calls [stop]. *)
Inductive Event := Connects | AcceptFails | Sends (i : nat) | Ends (i : nat) | Wakes (i : nat) | CallStop.
Definition at_worker (i : nat) (f : WorkerAt → option WorkerAt) (s : Threads) : option Threads :=
  w ← workers s !! i; w' ← f w; Some (with_workers (<[i := w']> (workers s)) s).
Definition occur (e : Event) (s : Threads) : option Threads :=
  match e with
  | Connects =>
      if bool_decide (acceptor s = Accepting) && listening s then
        Some (with_next (S (next_connection s))
                (with_failures 0 (with_acceptor (Pushing (next_connection s)) s)))
      else None
  | AcceptFails => if bool_decide (acceptor s = Accepting) then Some (with_acceptor AcceptFailed s) else None
  | Sends i => at_worker i (λ w, match w with Reading c => Some (Handled c) | _ => None end) s
  | Ends i =>
      at_worker i (λ w, match w with Reading c | Handled c => Some (Unregistering c) | _ => None end) s
  | Wakes i => at_worker i (λ w, match w with Asleep => Some AtQueue | _ => None end) s
  | CallStop => if bool_decide (stopper s = NotStopping) then Some (with_stopper SetFlag s) else None
  end.

Definition acts (s s' : Threads) : Prop := ∃ a, act a s = Some s'.
Inductive moves (s s' : Threads) : Prop :=
  | move_act a : act a s = Some s' → moves s s'
  | move_event e : occur e s = Some s' → moves s s'.
End steps.

(** ** Sums over the workers *)

Lemma sum_insert {A} (f : A → nat) l i x y :
  l !! i = Some x → (sum_list_with f (<[i := y]> l) + f x = sum_list_with f l + f y)%nat.
Proof.
  revert i. induction l as [|z l IH]; intros [|i] H; try done.
  - injection H as ->. simpl. lia.
  - specialize (IH i H). simpl. lia.
Qed.
Lemma sum_wake (f : WorkerAt → nat) l :
  (∀ w, f (wake w) ≤ f w)%nat → (sum_list_with f (wake <$> l) ≤ sum_list_with f l)%nat.
Proof. intros Hf. induction l as [|w l IH]; [done|]. pose proof (Hf w). simpl in *. change (list_fmap _ _ ?g ?k) with (g <$> k) in *. lia. Qed.

(** ** Invariants *)

Definition held (w : WorkerAt) : list nat :=
  match w with Registering c | Reading c | Handled c | Unregistering c => [c] | _ => [] end.
Definition registered (w : WorkerAt) : list nat :=
  match w with Reading c | Handled c | Unregistering c => [c] | _ => [] end.
Definition arriving (a : AcceptAt) : list nat := match a with Pushing c => [c] | _ => [] end.
(** Every connection that was accepted, once for each place where it is. *)
Definition owned (s : Threads) : list nat :=
  queue s ++ mjoin (held <$> workers s) ++ arriving (acceptor s) ++ closed s.

Definition times (c : nat) (l : list nat) : nat := count_occ Nat.eq_dec l c.
Arguments times : simpl never.
Lemma times_app c l k : times c (l ++ k) = (times c l + times c k)%nat.
Proof. apply count_occ_app. Qed.
Lemma times_nil c : times c [] = 0%nat.
Proof. done. Qed.
Lemma times_cons c d l : times c (d :: l) = (times c [d] + times c l)%nat.
Proof. apply (times_app c [d]). Qed.
Lemma times_join {A} (f : A → list nat) c l :
  times c (mjoin (f <$> l)) = sum_list_with (λ x, times c (f x)) l.
Proof.
  induction l as [|x l IH]; [done|].
  change (mjoin (f <$> x :: l)) with (f x ++ mjoin (f <$> l)). rewrite times_app, IH. done.
Qed.
Lemma times_perm l k : (∀ c, times c l = times c k) → l ≡ₚ k.
Proof. intros H. by apply (Permutation_count_occ Nat.eq_dec). Qed.
Lemma perm_times c l k : l ≡ₚ k → times c l = times c k.
Proof. intros H. by apply (Permutation_count_occ Nat.eq_dec). Qed.

Ltac tally := rewrite ?times_app, ?times_nil; lia.

(** What has happened when [stop] has come to a place. *)
Definition stop_progress (s : Threads) : Prop :=
  let told := stopping s = true ∧ listening s = false in
  match stopper s with
  | NotStopping | SetFlag => stopping s = false ∧ listening s = true
  | CloseListener => stopping s = true
  | JoinAccept => told
  | NotifyFirst | Collect | ShutDown _ | NotifyAgain | JoinWorkers => told ∧ acceptor s = AcceptExit
  | ClearQueue => told ∧ acceptor s = AcceptExit ∧ Forall (.= WorkerExit) (workers s)
  | Stopped => told ∧ acceptor s = AcceptExit ∧ Forall (.= WorkerExit) (workers s) ∧ queue s = []
  end.
Record threads_ok (max_pending : nat) (s : Threads) : Prop := {
  to_owned c : times c (owned s) = times c (seq 0 (next_connection s));
  to_queue : (length (queue s) ≤ max_pending)%nat;
  to_active c : c ∈ active_sockets s → ∃ i w, workers s !! i = Some w ∧ c ∈ registered w;
  to_stop : stop_progress s
}.

Section invariant.
Context (max_pending : nat).
Implicit Types s : Threads.

Lemma times_owned c s :
  times c (owned s) =
    (times c (queue s) + sum_list_with (λ w, times c (held w)) (workers s) +
     times c (arriving (acceptor s)) + times c (closed s))%nat.
Proof. unfold owned. rewrite !times_app, times_join. lia. Qed.

Lemma start_ok n : threads_ok max_pending (start n).
Proof.
  split; [|cbn; lia| |done].
  - intros c. rewrite times_owned. cbn. induction n as [|n IH]; [done|]. simpl in *. exact IH.
  - intros c Hc. cbn in Hc. set_solver.
Qed.

(** A worker that still runs keeps [stop] before the end of its joins. *)
Lemma stop_progress_worker s i w l :
  stop_progress s → workers s !! i = Some w → w ≠ WorkerExit → stop_progress (with_workers l s).
Proof.
  unfold stop_progress. intros H Hi Hw. cbn. destruct (stopper s); try done;
    exfalso; destruct H as (_ & _ & H); try destruct H as [H _]; rewrite Forall_lookup in H;
    by apply Hw, (H i).
Qed.
Lemma active_insert (A A' : list nat) (ws : list WorkerAt) i w w' :
  (∀ c, c ∈ A → ∃ j x, ws !! j = Some x ∧ c ∈ registered x) →
  ws !! i = Some w →
  (∀ c, c ∈ A' → (c ∈ A ∧ c ∉ registered w) ∨ c ∈ registered w') →
  ∀ c, c ∈ A' → ∃ j x, <[i := w']> ws !! j = Some x ∧ c ∈ registered x.
Proof.
  intros HA Hi Hsub c Hc. apply lookup_lt_Some in Hi as Hlt. destruct (Hsub c Hc) as [[Hc' Hn]|Hr].
  - destruct (HA c Hc') as (j & x & Hj & Hx). exists j, x. split; [|done].
    destruct (decide (i = j)) as [->|Hij]; [congruence|]. by rewrite list_lookup_insert_ne.
  - exists i, w'. split; [|done]. by rewrite list_lookup_insert_eq.
Qed.
(** A worker moves and nothing else changes. *)
Lemma worker_moves s i w w' :
  threads_ok max_pending s → workers s !! i = Some w → w ≠ WorkerExit →
  held w = held w' → registered w ⊆ registered w' →
  threads_ok max_pending (with_workers (<[i := w']> (workers s)) s).
Proof.
  intros [Ho Hq Ha Hs] Hi Hw Hh Hr. split; [|done| |by apply (stop_progress_worker _ i w)].
  - intros c. rewrite times_owned. cbn. rewrite <-Ho, times_owned.
    pose proof (sum_insert (λ w, times c (held w)) _ _ _ w' Hi) as H. cbn in H. rewrite Hh in H. lia.
  - cbn. apply (active_insert _ _ _ _ w _ Ha Hi). intros c Hc.
    destruct (decide (c ∈ registered w)); [right; by apply Hr|by left].
Qed.

Lemma accept_step_ok s s' : threads_ok max_pending s → accept_step max_pending s = Some s' →
  threads_ok max_pending s'.
Proof.
  intros [Ho Hq Ha Hs] H. unfold accept_step in H.
  assert (∀ a, arriving a = arriving (acceptor s) → acceptor s ≠ AcceptExit →
    threads_ok max_pending (with_acceptor a s)) as Hsame.
  { intros a Harr Hne. split; [|done|done|].
    - intros c. rewrite <-Ho, !times_owned. cbn. by rewrite Harr.
    - revert Hs. unfold stop_progress. cbn. destruct (stopper s); tauto. }
  destruct (acceptor s) as [| | |x| |] eqn:Hacc; try done.
  - injection H as <-. apply Hsame; [by case_match|done].
  - destruct (listening s); [done|]. injection H as <-. by apply Hsame.
  - injection H as <-. destruct (stopping s || negb (listening s)); [by apply Hsame|].
    assert (∀ n t, threads_ok max_pending t → threads_ok max_pending (with_failures n t)) as Hf.
    { intros n t [? ? ? ?]. by split. }
    apply Hf, Hsame; [by case_match|done].
  - destruct (queue_free s); [|done]. injection H as <-.
    assert (∀ t, stopper t = stopper s → stopping t = stopping s → listening t = listening s →
      stop_progress t) as Hst.
    { intros t H1 H2 H3. revert Hs. unfold stop_progress. rewrite H1, H2, H3, Hacc.
      destruct (stopper s); [done..| | | | | | |]; intros Hs; exfalso; by destruct Hs as (? & ? & ?) || by destruct Hs. }
    case_bool_decide; (split; [| |done|by apply Hst]).
    + intros c. rewrite <-Ho, !times_owned, Hacc. cbn. tally.
    + done.
    + intros c. rewrite <-Ho, !times_owned, Hacc. cbn. tally.
    + cbn. rewrite length_app. cbn. lia.
Qed.

Lemma notify_step_ok who s s' : threads_ok max_pending s → notify_step who s = Some s' →
  threads_ok max_pending s'.
Proof.
  intros Hok H. unfold notify_step in H. case_bool_decide as Hacc; [|done].
  assert (∀ t, threads_ok max_pending t → acceptor t = Notifying →
    threads_ok max_pending (with_acceptor AcceptCheck t)) as Hsame.
  { intros t [Ho Hq Ha Hs] Hat. split; [|done|done|].
    - intros c. rewrite <-Ho, !times_owned, Hat. done.
    - revert Hs. unfold stop_progress. cbn. rewrite Hat. destruct (stopper t); naive_solver. }
  destruct who as [i|].
  - case_bool_decide as Hi; [|done]. injection H as <-.
    apply (Hsame (with_workers (<[i:=AtQueue]> (workers s)) s)); [|done].
    by apply (worker_moves s i Asleep).
  - case_bool_decide; [done|]. injection H as <-. by apply Hsame.
Qed.

(** What a worker does to the queue and to the registered connections. *)
Lemma worker_step_ok i s s' : threads_ok max_pending s → worker_step i s = Some s' →
  threads_ok max_pending s'.
Proof.
  intros Hok H. unfold worker_step in H. destruct (workers s !! i) as [w|] eqn:Hi; [|done].
  pose proof (λ w', worker_moves s i w w' Hok Hi) as Hmove. destruct Hok as [Ho Hq Ha Hs].
  destruct w as [| | |x|x|x|x|]; try done.
  - destruct (queue_free s); [|done]. injection H as <-.
    destruct (queue s) as [|x q] eqn:Hqs; [by apply Hmove; try done; destruct (stopping s)|].
    split; [|cbn in *; lia| |].
    + intros c. rewrite <-Ho, !times_owned, Hqs. cbn. rewrite (times_cons c x q).
      pose proof (sum_insert (λ w, times c (held w)) _ _ _ (Registering x) Hi) as Hsum. cbn in Hsum.
      revert Hsum. rewrite times_nil. lia.
    + cbn. apply (active_insert _ _ _ _ AtQueue _ Ha Hi). intros c Hc. left. split; [done|]. cbn. set_solver.
    + apply (stop_progress_worker (with_queue q s) i AtQueue); [|done|done].
      revert Hs. unfold stop_progress. cbn. destruct (stopper s); try done. rewrite Hqs. naive_solver.
  - injection H as <-. by apply Hmove.
  - injection H as <-. split; [|done| |].
    + intros c. rewrite <-Ho, !times_owned. cbn.
      pose proof (sum_insert (λ w, times c (held w)) _ _ _ (Reading x) Hi) as Hsum. cbn in Hsum. lia.
    + cbn. apply (active_insert _ _ _ _ (Registering x) _ Ha Hi). intros c [Hc|Hc]%elem_of_app; [|by right].
      left. split; [done|]. cbn. set_solver.
    + by apply (stop_progress_worker (with_active _ s) i (Registering x)).
  - case_bool_decide; [|done]. injection H as <-. by apply Hmove.
  - injection H as <-. apply Hmove; [done|by destruct (stopping s)..].
  - injection H as <-. split; [|done| |].
    + intros c. rewrite <-Ho, !times_owned. cbn. rewrite times_app.
      pose proof (sum_insert (λ w, times c (held w)) _ _ _ AtQueue Hi) as Hsum. cbn in Hsum.
      revert Hsum. rewrite times_nil. lia.
    + cbn. apply (active_insert _ _ _ _ (Unregistering x) _ Ha Hi). intros c Hc.
      apply list_elem_of_filter in Hc as [Hne Hc]. left. split; [done|]. cbn. set_solver.
    + by apply (stop_progress_worker (with_closed _ (with_active _ s)) i (Unregistering x)).
Qed.

Lemma held_wake w : held (wake w) = held w.
Proof. by destruct w. Qed.
Lemma held_woken (l : list WorkerAt) : held <$> (wake <$> l) = held <$> l.
Proof. rewrite <-list_fmap_compose. apply list_fmap_ext. intros _ w _. apply held_wake. Qed.
Lemma wake_ok s : threads_ok max_pending s → threads_ok max_pending (with_workers (wake <$> workers s) s).
Proof.
  intros [Ho Hq Ha Hs]. split; [|done| |].
  - intros c. rewrite <-Ho. unfold owned. cbn [workers with_workers queue acceptor closed].
    by rewrite held_woken.
  - intros c Hc. destruct (Ha c Hc) as (i & w & Hi & Hw). exists i, (wake w). split; [|by destruct w].
    cbn. by rewrite list_lookup_fmap, Hi.
  - assert (Forall (.= WorkerExit) (workers s) → Forall (.= WorkerExit) (wake <$> workers s)) as Hexit.
    { rewrite Forall_fmap. intros H. apply (Forall_impl _ _ _ H). by intros w ->. }
    revert Hs. unfold stop_progress. cbn. destruct (stopper s); naive_solver.
Qed.

Lemma stop_step_ok s s' : threads_ok max_pending s → stop_step s = Some s' → threads_ok max_pending s'.
Proof.
  intros Hok H. pose proof (wake_ok s Hok) as [Ho' Hq' Ha' Hs']. destruct Hok as [Ho Hq Ha Hs].
  unfold stop_step in H. unfold stop_progress in Hs, Hs'. cbn in Hs'.
  destruct (stopper s) as [| | | | | |l| | | |] eqn:Hst; try done;
    try (case_bool_decide as Hb; [|done]); injection H as <-; unfold stop_progress;
    try (split; [done|done|done|]; unfold stop_progress; cbn; naive_solver).
  - split; [done|done| |]; [cbn; set_solver|unfold stop_progress; cbn; naive_solver].
  - split; [|cbn; lia|done|].
    + intros c. rewrite <-Ho, !times_owned. cbn. tally.
    + unfold stop_progress. cbn. naive_solver.
Qed.

Lemma occur_ok e s s' : threads_ok max_pending s → occur e s = Some s' → threads_ok max_pending s'.
Proof.
  intros Hok H. pose proof Hok as [Ho Hq Ha Hs].
  assert (∀ i f, at_worker i f s = Some s' →
    (∀ w w', f w = Some w' → w ≠ WorkerExit ∧ held w = held w' ∧ registered w ⊆ registered w') →
    threads_ok max_pending s') as Hat.
  { intros i f Hf Hw. unfold at_worker in Hf. destruct (workers s !! i) as [w|] eqn:Hi; [|done]. cbn in Hf.
    destruct (f w) as [w'|] eqn:Hfw; [|done]. injection Hf as <-. destruct (Hw w w' Hfw) as (? & ? & ?).
    by apply (worker_moves s i w). }
  destruct e as [| |i|i|i|]; cbn in H;
    try (apply (Hat _ _ H); intros [] w'; try done; intros [= <-]; done).
  - destruct (bool_decide_reflect (acceptor s = Accepting)) as [Hacc|]; [|done].
    destruct (listening s) eqn:Hl; [|done]. injection H as <-. split; [|done|done|].
    + intros c. cbn [next_connection with_next]. rewrite seq_S, times_app, <-Ho, !times_owned, Hacc. cbn. tally.
    + revert Hs. unfold stop_progress. cbn. rewrite Hacc, Hl. destruct (stopper s); naive_solver.
  - case_bool_decide as Hacc; [|done]. injection H as <-. split; [|done|done|].
    + intros c. rewrite <-Ho, !times_owned, Hacc. done.
    + revert Hs. unfold stop_progress. cbn. rewrite Hacc. destruct (stopper s); naive_solver.
  - case_bool_decide as Hst; [|done]. injection H as <-. split; [done|done|done|].
    revert Hs. unfold stop_progress. cbn. by rewrite Hst.
Qed.
Lemma act_ok a s s' : threads_ok max_pending s → act max_pending a s = Some s' → threads_ok max_pending s'.
Proof.
  destruct a as [|who|i|]; cbn.
  - apply accept_step_ok.
  - apply notify_step_ok.
  - apply worker_step_ok.
  - apply stop_step_ok.
Qed.
Lemma moves_ok s s' : threads_ok max_pending s → moves max_pending s s' → threads_ok max_pending s'.
Proof. intros Hok [a H|e H]; [by apply (act_ok a s)|by apply (occur_ok e s)]. Qed.
Lemma run_ok s s' : rtc (moves max_pending) s s' → threads_ok max_pending s → threads_ok max_pending s'.
Proof. induction 1 as [|x y z Hxy _ IH]; [done|]. intros Hx. by apply IH, (moves_ok x). Qed.
Lemma reachable_ok n s : rtc (moves max_pending) (start n) s → threads_ok max_pending s.
Proof. intros H. apply (run_ok _ _ H), start_ok. Qed.
End invariant.

(** C26: every connection the coordinator accepts has one owner: at every moment it is
    in the queue, with one worker, in the hands of the accept thread or closed, and
    in one of these places only, so that no connection is lost and none is served
    twice; and the queue never holds more than the configured number. *)
Theorem connection_has_one_owner max_pending n s (Hreach : rtc (moves max_pending) (start n) s) :
  owned s ≡ₚ seq 0 (next_connection s) ∧ NoDup (owned s) ∧ (length (queue s) ≤ max_pending)%nat.
Proof.
  destruct (reachable_ok _ _ _ Hreach) as [Ho Hq _ _].
  assert (owned s ≡ₚ seq 0 (next_connection s)) as Hp by (by apply times_perm).
  split; [done|]. split; [|done]. rewrite Hp. apply NoDup_seq.
Qed.

(** When [stop] returns nothing is left: the accept thread and every worker have
    ended, no connection waits or is registered, and every connection that was
    ever accepted has been closed, once. *)
Theorem stop_leaves_nothing max_pending n s
    (Hreach : rtc (moves max_pending) (start n) s) (Hstop : stopper s = Stopped) :
  acceptor s = AcceptExit ∧ Forall (.= WorkerExit) (workers s) ∧ queue s = [] ∧
  active_sockets s = [] ∧ closed s ≡ₚ seq 0 (next_connection s).
Proof.
  destruct (reachable_ok _ _ _ Hreach) as [Ho _ Ha Hs]. unfold stop_progress in Hs. rewrite Hstop in Hs.
  destruct Hs as (_ & Hacc & Hw & Hq). do 3 (split; [done|]). rewrite Forall_lookup in Hw. split.
  - destruct (active_sockets s) as [|c l]; [done|]. destruct (Ha c) as (i & w & Hi & Hc); [left|].
    rewrite (Hw i w Hi) in Hc. by apply not_elem_of_nil in Hc.
  - apply times_perm. intros c. rewrite <-Ho, times_owned, Hacc, Hq. cbn. rewrite times_nil.
    assert (sum_list_with (λ w, times c (held w)) (workers s) = 0%nat) as ->; [|lia].
    clear -Hw. induction (workers s) as [|w l IH]; [done|]. simpl. rewrite IH.
    + by rewrite (Hw 0%nat w eq_refl).
    + intros i w' Hi. by apply (Hw (S i)).
Qed.

(** ** What [stop] waits for *)

(** Once the flag is set, every action of the program brings its end nearer. *)
Definition stop_rank (p : StopAt) : nat :=
  match p with
  | NotStopping | Stopped => 0 | SetFlag => 9 | CloseListener => 8 | JoinAccept => 7 | NotifyFirst => 6
  | Collect => 5 | ShutDown _ => 4 | NotifyAgain => 3 | JoinWorkers => 2 | ClearQueue => 1
  end.
Definition accept_rank (a : AcceptAt) : nat :=
  match a with
  | AcceptExit => 0 | AcceptCheck | AcceptFailed => 1 | Accepting | Notifying => 2 | Pushing _ => 7
  end.
Definition worker_rank (w : WorkerAt) : nat :=
  match w with
  | WorkerExit => 0 | AtQueue => 1 | Asleep | Unregistering _ => 2 | Checked | Reading _ | Handled _ => 3
  | Registering _ => 4
  end.
Definition remaining (s : Threads) : nat :=
  stop_rank (stopper s) + accept_rank (acceptor s) + sum_list_with worker_rank (workers s) +
  4 * length (queue s).

Section stopping.
Context (max_pending : nat).

Lemma rank_wake w : (worker_rank (wake w) ≤ worker_rank w)%nat.
Proof. destruct w; cbn; lia. Qed.
Lemma act_stopping a s s' : stopping s = true → act max_pending a s = Some s' →
  stopping s' = true ∧ (remaining s' < remaining s)%nat.
Proof.
  intros Hs H. unfold remaining. destruct a as [|who|i|]; cbn in H.
  - unfold accept_step in H. rewrite Hs in H. cbn in H.
    destruct (acceptor s) as [| | |x| |]; try done;
      [|destruct (listening s); [done|]| |destruct (queue_free s); [|done]; case_bool_decide];
      injection H as <-; (split; [done|]); cbn; rewrite ?length_app; cbn; lia.
  - unfold notify_step in H. case_bool_decide as Hacc; [|done]. destruct who as [i|].
    + case_bool_decide as Hi; [|done]. injection H as <-. split; [done|]. cbn. rewrite Hacc.
      pose proof (sum_insert worker_rank _ _ _ AtQueue Hi) as Hsum. cbn in *. lia.
    + case_bool_decide; [done|]. injection H as <-. split; [done|]. cbn. rewrite Hacc. cbn. lia.
  - unfold worker_step in H. rewrite Hs in H. destruct (workers s !! i) as [w|] eqn:Hi; [|done].
    pose proof (λ w', sum_insert worker_rank _ _ _ w' Hi) as Hsum.
    destruct w as [| | |x|x|x|x|]; try done;
      [destruct (queue_free s); [|done]; destruct (queue s) as [|x q] eqn:Hq| | |case_bool_decide; [|done]| |];
      injection H as <-; (split; [done|]); cbn; rewrite ?Hq; cbn;
      match goal with |- context [<[i := ?w']> _] => specialize (Hsum w'); cbn in Hsum end; lia.
  - pose proof (sum_wake worker_rank (workers s) rank_wake) as Hwake.
    unfold stop_step in H. destruct (stopper s) as [| | | | | |l| | | |] eqn:Hst; try done;
      try (case_bool_decide; [|done]); injection H as <-; (split; [done|]); cbn in *; lia.
Qed.
Lemma steps_bounded k s s' : stopping s = true → nsteps (acts max_pending) k s s' →
  stopping s' = true ∧ (k + remaining s' ≤ remaining s)%nat.
Proof.
  intros Hs H. induction H as [|k x y z [a Ha] _ IH]; [split; [done|lia]|].
  destruct (act_stopping a x y Hs Ha) as [Hy Hlt]. destruct (IH Hy) as [Hz Hle]. split; [done|lia].
Qed.

(** A worker that only somebody else can wake: it reads from a connection that
    [stop] did not shut down, or it went to sleep after the last notification. *)
Definition waits (s : Threads) (w : WorkerAt) : Prop :=
  w = Asleep ∨ ∃ c, w = Reading c ∧ c ∉ shut s.
Lemma stuck s : threads_ok max_pending s → stopping s = true → stopper s ≠ Stopped →
  (∀ a, act max_pending a s = None) →
  stopper s = JoinWorkers ∧ ∃ i w, workers s !! i = Some w ∧ waits s w.
Proof.
  intros [_ _ _ Hs] Hf Hns Hnone. unfold stop_progress in Hs.
  assert (Checked ∉ workers s) as Hfree.
  { intros [i Hi]%list_elem_of_lookup. pose proof (Hnone (Worker i)) as H. cbn in H. unfold worker_step in H.
    by rewrite Hi in H. }
  assert (queue_free s = true) as Hq by (by apply bool_decide_eq_true).
  assert (listening s = false → acceptor s = AcceptExit) as Hacc.
  { intros Hl. pose proof (Hnone Accept) as H. cbn in H. unfold accept_step in H. rewrite Hl, Hq in H.
    destruct (acceptor s) eqn:Ha; try done. exfalso.
    destruct (decide (Asleep ∈ workers s)) as [[i Hi]%list_elem_of_lookup|Hno].
    - pose proof (Hnone (NotifyOne (Some i))) as Hn. cbn in Hn. unfold notify_step in Hn.
      by rewrite !bool_decide_eq_true_2 in Hn.
    - pose proof (Hnone (NotifyOne None)) as Hn. cbn in Hn. unfold notify_step in Hn.
      by rewrite bool_decide_eq_true_2, bool_decide_eq_false_2 in Hn. }
  pose proof (Hnone Stop) as Hstop. cbn in Hstop. unfold stop_step in Hstop.
  destruct (stopper s) eqn:Hst; try done.
  - destruct Hs as [Hs _]. congruence.
  - destruct Hs as [_ Hl]. by rewrite bool_decide_eq_true_2 in Hstop by auto.
  - split; [done|]. case_bool_decide as Hall; [done|].
    apply not_Forall_Exists in Hall; [|intros w; apply _]. apply Exists_exists in Hall as (w & Hin & Hw).
    apply list_elem_of_lookup in Hin as [i Hi]. exists i, w. split; [done|].
    pose proof (Hnone (Worker i)) as H. cbn in H. unfold worker_step in H. rewrite Hi, Hq in H.
    destruct w as [| | |x|x|x|x|]; try done; [by left| |by destruct Hw]. right. exists x. by case_bool_decide.
Qed.
End stopping.

(** What [stop] can wait for: once it has set its flag, the program takes at most
    [remaining] more actions, whatever the peers did before, and when it can take
    none either [stop] has returned, or it waits for a worker that reads from a
    connection that was not shut down or that missed the last notification. *)
Theorem stop_returns_or_waits max_pending n s
    (Hreach : rtc (moves max_pending) (start n) s) (Hflag : stopping s = true) :
  (∀ k s', nsteps (acts max_pending) k s s' → (k ≤ remaining s)%nat) ∧
  ∀ s', rtc (acts max_pending) s s' → (∀ a, act max_pending a s' = None) →
    stopper s' = Stopped ∨
    (stopper s' = JoinWorkers ∧ ∃ i w, workers s' !! i = Some w ∧ waits s' w).
Proof.
  split.
  - intros k s' Hk. destruct (steps_bounded _ _ _ _ Hflag Hk). lia.
  - intros s' Hs' Hnone. destruct (decide (stopper s' = Stopped)) as [Hst|Hst]; [by left|right].
    apply (stuck max_pending); [|apply rtc_nsteps in Hs' as [k Hk]; apply (steps_bounded _ _ _ _ Hflag Hk)|done|done].
    apply (run_ok _ s); [|by apply (reachable_ok _ n)]. clear -Hs'.
    induction Hs' as [|x y z [a Ha] _ IH]; [constructor|]. eapply rtc_l; [|exact IH]. by eapply move_act.
Qed.

(** ** Two ways to wait forever *)

Fixpoint perform (max_pending : nat) (l : list (Action + Event)) (s : Threads) : option Threads :=
  match l with
  | [] => Some s
  | inl a :: l => s' ← act max_pending a s; perform max_pending l s'
  | inr e :: l => s' ← occur e s; perform max_pending l s'
  end.
Lemma perform_reaches max_pending l : ∀ s s',
  perform max_pending l s = Some s' → rtc (moves max_pending) s s'.
Proof.
  induction l as [|[a|e] l IH]; intros s s' H; cbn in H; [injection H as ->; constructor| |].
  - apply bind_Some in H as (x & Hx & H). eapply rtc_l; [by eapply move_act|by apply IH].
  - apply bind_Some in H as (x & Hx & H). eapply rtc_l; [by eapply move_event|by apply IH].
Qed.
(** Connections for [n] workers and one more, then [stop]. *)
Definition connection_arrives : list (Action + Event) :=
  [inl Accept; inr Connects; inl Accept; inl (NotifyOne None)].
Definition crowded_stop (n : nat) : list (Action + Event) :=
  concat ((λ i, connection_arrives ++ [inl (Worker i); inl (Worker i)]) <$> seq 0 n) ++ connection_arrives ++
  [inr CallStop; inl Stop; inl Stop; inl Accept; inl Stop; inl Stop; inl Stop; inl Stop; inl Stop] ++
  concat ((λ i, [inl (Worker i); inl (Worker i); inl (Worker i)]) <$> seq 0 n) ++ [inl (Worker 0)].
(** [stop] as a whole while one worker is between the test of the wait and the wait. *)
Definition unheard_stop : list (Action + Event) :=
  [inl (Worker 0); inr CallStop; inl Stop; inl Stop; inl Accept; inl Stop; inl Stop; inl Stop; inl Stop; inl Stop;
   inl (Worker 0); inl (Worker 1); inl (Worker 2); inl (Worker 3)].

(** C10: [stop] can wait forever, with the configuration of a default coordinator.
    Five peers that connect and say nothing are enough: when [stop] shuts down the
    four connections that are being served, a worker takes the fifth one from the
    queue and reads from it, and only that peer can end this.  And without any
    connection: a worker that has found the flag clear, but does not yet sleep when
    [stop] sets it and notifies, sleeps through both notifications. *)
Theorem stop_can_wait_forever :
  (∃ s, rtc (moves 128) (start 4) s ∧ stopper s = JoinWorkers ∧ workers s !! 0%nat = Some (Reading 4) ∧
     shut s = [0; 1; 2; 3]%nat ∧ (∀ a, act 128 a s = None) ∧
     ∀ e s', occur e s = Some s' → e = Sends 0 ∨ e = Ends 0) ∧
  (∃ s, rtc (moves 128) (start 4) s ∧ stopper s = JoinWorkers ∧ workers s !! 0%nat = Some Asleep ∧
     next_connection s = 0%nat ∧ (∀ a, act 128 a s = None) ∧
     ∀ e s', occur e s = Some s' → e = Wakes 0).
Proof.
  split.
  - eexists. split; [apply (perform_reaches 128 (crowded_stop 4)); vm_compute; reflexivity|].
    do 3 (split; [done|]). split.
    + intros [|[i|]|i|]; try done. by destruct i as [|[|[|[|i]]]].
    + intros [| |i|i|i|] s'; try done; destruct i as [|[|[|[|i]]]]; try done; auto.
  - eexists. split; [apply (perform_reaches 128 unheard_stop); vm_compute; reflexivity|].
    do 3 (split; [done|]). split.
    + intros [|[i|]|i|]; try done. by destruct i as [|[|[|[|i]]]].
    + intros [| |i|i|i|] s'; try done; destruct i as [|[|[|[|i]]]]; try done; auto.
Qed.

(** ** Instances *)

(** A connection that is served, ended by its peer, and a [stop] after it. *)
Definition quiet_stop : list (Action + Event) :=
  connection_arrives ++ [inl (Worker 0); inl (Worker 0); inr (Ends 0); inl (Worker 0)] ++
  [inr CallStop; inl Stop; inl Stop; inl Accept; inl Stop; inl Stop; inl Stop; inl Stop; inl Stop;
   inl (Worker 0); inl Stop; inl Stop].
Lemma quiet_example : ∃ s, rtc (moves 1) (start 1) s ∧ stopper s = Stopped ∧ stopping s = true ∧
  next_connection s = 1%nat.
Proof.
  eexists. split; [apply (perform_reaches 1 quiet_stop); vm_compute; reflexivity|]. by split_and!.
Qed.
Lemma connection_has_one_owner_witness :
  ∃ s, stopper s = Stopped ∧ owned s ≡ₚ [0%nat].
Proof.
  destruct quiet_example as (s & Hs & Hst & _ & Hn). exists s. split; [exact Hst|].
  pose proof (proj1 (connection_has_one_owner 1 1 s Hs)) as H. rewrite Hn in H. exact H.
Defined.
Lemma stop_leaves_nothing_witness :
  ∃ s, stopper s = Stopped ∧ closed s ≡ₚ [0%nat].
Proof.
  destruct quiet_example as (s & Hs & Hst & _ & Hn). exists s. split; [exact Hst|].
  destruct (stop_leaves_nothing 1 1 s Hs Hst) as (_ & _ & _ & _ & H). rewrite Hn in H. exact H.
Defined.
Lemma stop_returns_or_waits_witness :
  ∃ s, stopping s = true ∧ (∀ k s', nsteps (acts 1) k s s' → (k ≤ remaining s)%nat).
Proof.
  destruct quiet_example as (s & Hs & _ & Hf & _). exists s. split; [exact Hf|].
  exact (proj1 (stop_returns_or_waits 1 1 s Hs Hf)).
Defined.
