(* ===== verification/Client.v ===== *)
(** * The client of the coordinator

    Models include/fabric_federation/client.hpp and src/client.cpp.  A client holds
    one connection and makes one request at a time, so what it does is a [Conv]: a
    tree of exchanges, each a request and the continuation for its answer: [over] runs it
    on a socket, [direct] on the message handler of a coordinator without a connection
    between.  Each call of the client stands for a function of the coordinator ([local]);
    the theorem: over a connection that does not fail, a program of such calls has the
    results of those functions, and leaves the coordinator as they do. *)

From S2P Require Import Prelude Errors Sha256 Text Codec Ids Names Scope Capability Policy Identity.
From S2P Require Import Explanation Lease Partition Evidence Membership Journal State Derivation.
From S2P Require Import Authority Coordinator Recovery Operations Admission Net Protocol Json Render Server.

(** ** Exchanges *)

Inductive Conv (A : Type) : Type :=
  | Return (a : A)
  | Exchange (type : N) (payload : list byte) (k : Result Message → Conv A).
Arguments Return {_} _.
Arguments Exchange {_} _ _ _.
#[export] Instance Conv_ret : MRet Conv := @Return.
#[export] Instance Conv_bind : MBind Conv := λ A B f,
  fix go (c : Conv A) : Conv B :=
    match c with
    | Return a => f a
    | Exchange t p k => Exchange t p (λ r, go (k r))
    end.

(** [CoordinatorClient::exchange]. *)
Definition exchange (t : N) (p : list byte) : IO Message := write_message t p;; read_message kDefaultLimit.
Fixpoint over {A} (c : Conv A) (s : Socket) : Socket * A :=
  match c with
  | Return a => (s, a)
  | Exchange t p k => let '(s, r) := exchange t p s in over (k r) s
  end.

(** ** Requests *)

Definition decode_expected {A} `{Codec A} (expected : MessageType.t) (m : Message) : Result A :=
  if msg_type m =? MessageType.value MessageType.ErrorMessage then
    match decode_payload (msg_payload m) with
    | Ok e => Err (Status_make (er_code e) (er_message e))
    | Err _ => fail ErrorCode.ProtocolViolation "the coordinator reported an error"
    end
  else if negb (msg_type m =? MessageType.value expected) then
    fail ErrorCode.ProtocolViolation
      ("expected " +s+ MessageType.to_string (MessageType.value expected) +s+ ", received " +s+
       MessageType.to_string (msg_type m))
  else decode_payload (msg_payload m).

Section request.
Context {A} `{Codec A}.
(** Encode, exchange, decode: the body of most operations. *)
Definition request (t : MessageType.t) (payload : Enc) (expected : MessageType.t) : Conv (Result A) :=
  match payload with
  | Err e => Return (Err e)
  | Ok p => Exchange (MessageType.value t) p (λ r, Return (m ← r; decode_expected expected m))
  end.
End request.
Definition no_payload : Enc := Ok [].

(** The hello of [CoordinatorClient::connect]; the client's state is the welcome. *)
Definition kProductName : string := "Fabric Federation".
Definition kVersionString : string := "1.0.0".
Definition hello (f : FederationId) (n : NodeId) (i : Incarnation) : HelloRequest :=
  mkHello f n i kWireProtocolVersion (kProductName +s+ " " +s+ kVersionString).
Definition check_welcome (f : FederationId) (w : WelcomeResponse) : Result WelcomeResponse :=
  fail_if (negb (bool_decide (w_federation w = f))) ErrorCode.Refused
    ("the coordinator serves a different federation: " +s+ id_to_string (w_federation w));;
  Ok w.
Definition handshake (f : FederationId) (n : NodeId) (i : Incarnation) : Conv (Result WelcomeResponse) :=
  r ← request MessageType.Hello (encode_payload (hello f n i)) MessageType.Welcome;
  mret (w ← r; check_welcome f w).
(** [CoordinatorClient::connect]: an error leaves no client behind. *)
Definition client_connect (os : ConnectOs) (e : Endpoint) (f : FederationId) (n : NodeId) (i : Incarnation) :
    Result (Socket * WelcomeResponse) :=
  s ← connect os e;
  let '(s, r) := over (handshake f n i) s in
  w ← r; Ok (s, w).

(** [query_digest] also brings the welcome up to date. *)
Definition with_digest (d : DigestResponse) (w : WelcomeResponse) : WelcomeResponse :=
  mkWelcome (w_federation w) (w_coordinator w) (coordinator_incarnation w) (dr_epoch d) (dr_logical_time d)
    (dr_state_digest d) (w_policy_id w) (w_policy_generation w) (w_protocol_version w) (w_detail w).
Definition query_digest (w : WelcomeResponse) : Conv (WelcomeResponse * Result DigestResponse) :=
  r ← request MessageType.QueryDigest no_payload MessageType.DigestValue;
  mret (match r with Ok d => with_digest d w | Err _ => w end, r).
Definition query_state : Conv (Result StateResponse) :=
  request MessageType.QueryState no_payload MessageType.StateValue.
Definition query_stats : Conv (Result StatsResponse) :=
  request MessageType.StatsQuery no_payload MessageType.StatsValue.
Definition query_authority (r : AuthorityRequest) : Conv (Result AuthorityDecision) :=
  d ← request (A := AuthorityResponse) MessageType.AuthorityQuery (encode_payload r) MessageType.AuthorityResult;
  mret (x ← d; Ok (decision x)).
Definition submit (a : Artifact) : Conv (Result ArtifactResponse) :=
  request MessageType.SubmitArtifact (encode_payload a) MessageType.SubmitArtifactResult.
(** The code of a lease response is what the peer sent: the status of a refusal
    can carry a value that is no enumerator. *)
Inductive LeaseAnswer :=
  | Leased (l : AuthorityLease)
  | RefusedWith (code : N) (detail : string)
  | NoAnswer (s : Status).
Definition issue_lease (r : LeaseIssueRequest) : Conv LeaseAnswer :=
  r ← request (A := LeaseResponse) MessageType.IssueLease (encode_payload r) MessageType.LeaseResult;
  mret (match r with
        | Ok l => if negb (lp_code l =? wire ErrorCode.Ok) then RefusedWith (lp_code l) (lp_detail l)
                  else Leased (lp_lease l)
        | Err e => NoAnswer e
        end).
Definition simple {A} `{Codec A} (t : MessageType.t) (r : A) : Conv (Result SimpleResponse) :=
  request t (encode_payload r) MessageType.SimpleResult.
Definition revoke_lease (l : LeaseId) (reason : N) (text : string) : Conv (Result SimpleResponse) :=
  simple MessageType.RevokeLease (mkLeaseRevoke l reason text).
Definition report_observation (o : MemberObservation) : Conv (Result SimpleResponse) :=
  simple MessageType.ReportObservation (mkObservationRequest o).
Definition advance_time (to : Tick) : Conv (Result SimpleResponse) :=
  simple MessageType.AdvanceTime (mkTimeAdvance to).
Definition fence_member (m : MemberId) (l : Lineage) (reason : N) (text : string) :
    Conv (Result SimpleResponse) :=
  simple MessageType.FenceMember (mkMemberAction m l zero reason text).
Definition advance_epoch (e : Epoch) (reason : N) (text : string) : Conv (Result SimpleResponse) :=
  simple MessageType.AdvanceEpoch (mkMemberAction nil_id zero e reason text).
Definition complete_reconciliation (e : Epoch) : Conv (Result SimpleResponse) :=
  simple MessageType.CompleteReconciliation
    (mkMemberAction nil_id zero e (wire ReasonCode.PartitionReattestationComplete) "").
Definition query_artifacts : Conv (Result ArtifactListResponse) :=
  request MessageType.QueryArtifacts no_payload MessageType.ArtifactListValue.
Definition query_leases : Conv (Result LeaseListResponse) :=
  request MessageType.QueryLeases no_payload MessageType.LeaseListValue.
Definition ping : Conv (Result unit) :=
  Exchange (MessageType.value MessageType.Ping) [] (λ r, Return (m ← r;
    fail_if (negb (msg_type m =? MessageType.value MessageType.Pong)) ErrorCode.ProtocolViolation
      "the coordinator did not answer a ping")).
(** [close]: the goodbye may fail. *)
Definition client_close (s : Socket) : Socket * Result unit :=
  if negb (handle_valid s) then (s, Ok tt)
  else socket_close (write_message (MessageType.value MessageType.Goodbye) [] s).1.

Lemma decode_expected_Ok {A} `{CodecLaws A} t (a : A) bs :
  t ≠ MessageType.ErrorMessage → wire_ok a → encode_payload a = Ok bs →
  decode_expected t (mkMessage (MessageType.value t) bs) = Ok a.
Proof.
  intros Ht Ha Hbs. unfold decode_expected. cbn [msg_type msg_payload].
  rewrite N.eqb_refl. destruct (N.eqb_spec (MessageType.value t) (MessageType.value MessageType.ErrorMessage)) as [He|].
  - by destruct t.
  - by apply decode_exact_encode.
Qed.
(** ** Over a connection and directly *)

(** What a client is told that reads from a connection the coordinator has closed, and
    what [write_message] says of a payload that does not fit a frame. *)
Definition kClosed : Status :=
  Status_make ErrorCode.Truncated "peer closed the connection after 0 of 4 bytes".
Definition kTooLarge : Status :=
  Status_make ErrorCode.BoundsExceeded "outgoing payload exceeds the frame bound".

(** The coordinator at the other end of a connection, and whether it still serves it. *)
Definition Link : Type := Impl * bool.
(** One exchange without a connection between: the new state, what the client is told
    and the message it sent. *)
Definition exchange_direct (n e t : N) (p : list byte) (st : Link) : Link * Result Message * list Message :=
  if kMaxFramePayloadBytes <? size p then (st, Err kTooLarge, [])
  else
    let m := mkMessage t p in
    if negb st.2 then (st, Err kClosed, [m])
    else match respond n e m st.1 with
         | (c, Ok r) => ((c, true), Ok r, [m])
         | (c, Err x) => ((c, false), match error_message x with Some r => Ok r | None => Err kClosed end, [m])
         end.
Fixpoint direct {A} (n e : N) (cv : Conv A) (st : Link) : Link * A * list Message :=
  match cv with
  | Return a => (st, a, [])
  | Exchange t p k =>
      let '(st, r, l) := exchange_direct n e t p st in
      let '(st, a, ms) := direct n e (k r) st in (st, a, l ++ ms)
  end.
(** A program that only makes requests. *)
Definition request_type (t : N) : Prop := known_type t ∧ t ≠ MessageType.value MessageType.Goodbye.
Fixpoint requests_only {A} (cv : Conv A) : Prop :=
  match cv with
  | Return _ => True
  | Exchange t p k => request_type t ∧ ∀ r, requests_only (k r)
  end.
(** What the coordinator sends for these messages. *)
Definition replies_to (n e : N) (ms : list Message) (st : Link) : list byte :=
  if st.2 then let '(_, rs, x) := transcript n e ms st.1 in wire_of rs ++ error_bytes x else [].

Lemma requests_bind {A B} (cv : Conv A) (f : A → Conv B) :
  requests_only cv → (∀ a, requests_only (f a)) → requests_only (cv ≫= f).
Proof. induction cv as [a|t p k IH]; [intros _ Hf; apply Hf|]. intros [Ht Hk] Hf. split; [done|]. intros r. by apply IH. Qed.
Lemma direct_bind {A B} n e (cv : Conv A) (f : A → Conv B) : ∀ st,
  direct n e (cv ≫= f) st =
  let '(st, a, ms) := direct n e cv st in let '(st, b, ms') := direct n e (f a) st in (st, b, ms ++ ms').
Proof.
  induction cv as [a|t p k IH]; intros st.
  - cbn. by destruct (direct n e (f a) st) as [[? ?] ?].
  - change (Exchange t p k ≫= f) with (Exchange t p (λ r, k r ≫= f)). cbn [direct].
    destruct (exchange_direct n e t p st) as [[st1 r] l]. rewrite IH.
    destruct (direct n e (k r) st1) as [[st2 a] ms]. destruct (direct n e (f a) st2) as [[st3 b] ms'].
    by rewrite app_assoc.
Qed.
Lemma direct_down {A} n e (cv : Conv A) : ∀ c, (direct n e cv (c, false)).1.1 = (c, false).
Proof.
  induction cv as [a|t p k IH]; intros c; [done|]. cbn [direct]. unfold exchange_direct. cbn [snd negb].
  destruct (_ <? _).
  - specialize (IH (Err kTooLarge) c). by destruct (direct n e (k (Err kTooLarge)) (c, false)) as [[? ?] ?].
  - specialize (IH (Err kClosed) c). by destruct (direct n e (k (Err kClosed)) (c, false)) as [[? ?] ?].
Qed.

(** Every answer has a type of the protocol. *)
Definition answers_known (m : Op Reply) : Prop := ∀ c c' r, m c = (c', Ok r) → known_type r.1.
Lemma value_known t : known_type (MessageType.value t).
Proof. by destruct t. Qed.
Lemma reply_known {A} `{Codec A} t (a : A) : answers_known (reply t a).
Proof.
  intros c c' r. unfold reply, lift, mbind, Op_bind. destruct (encode_payload a) as [bs|]; [|done].
  intros [= _ <-]. apply value_known.
Qed.
Lemma bind_known {A} (m : Op A) (k : A → Op Reply) : (∀ a, answers_known (k a)) → answers_known (m ≫= k).
Proof. intros Hk c c' r. unfold mbind, Op_bind. destruct (m c) as [c1 [a|]]; [|done]. apply Hk. Qed.
Lemma answer_known n e m : answers_known (answer n e m).
Proof.
  unfold answer. destruct (MessageType.of_value (msg_type m)) as [t|]; [|done].
  destruct t; try (intros c c' r H; discriminate H);
    try (intros c c' r [= _ <-]; exact (value_known MessageType.Pong));
    repeat (apply reply_known || (apply bind_known; intros)).
Qed.
Lemma respond_known n e m c c' r : respond n e m c = (c', Ok r) →
  known_type (msg_type r) ∧ size (msg_payload r) ≤ kMaxFramePayloadBytes.
Proof.
  unfold respond. pose proof (answer_known n e m c) as Hk. destruct (answer n e m c) as [c1 [x|]]; [|done].
  destruct (N.ltb_spec kMaxFramePayloadBytes (size x.2)); [done|]. intros [= _ <-]. split; [by eapply Hk|done].
Qed.
Lemma error_message_known x m : error_message x = Some m →
  known_type (msg_type m) ∧ size (msg_payload m) ≤ kMaxFramePayloadBytes.
Proof.
  unfold error_message. destruct (encode_payload _) as [bs|]; [|done].
  destruct (N.ltb_spec kMaxFramePayloadBytes (size bs)); [done|]. intros [= <-]. split; [apply (value_known MessageType.ErrorMessage)|done].
Qed.

(** The messages a program sends are requests, and the coordinator is left in the state
    after their transcript. *)
Lemma direct_requests {A} n e (cv : Conv A) : ∀ st, requests_only cv →
  Forall is_request (direct n e cv st).2.
Proof.
  induction cv as [a|t p k IH]; intros st Hr; [constructor|]. destruct Hr as [[Ht Hg] Hk]. cbn [direct].
  assert (Forall is_request (exchange_direct n e t p st).2) as Hone.
  { unfold exchange_direct. destruct (N.ltb_spec kMaxFramePayloadBytes (size p)); [constructor|].
    assert (Forall is_request [mkMessage t p]) as H1 by (apply Forall_singleton; by split).
    destruct (negb st.2); [exact H1|]. destruct (respond _ _ _ _) as [? []]; exact H1. }
  destruct (exchange_direct n e t p st) as [[st1 r] l]. specialize (IH r st1 (Hk r)).
  destruct (direct n e (k r) st1) as [[st2 a] ms]. by apply Forall_app.
Qed.
Lemma direct_transcript {A} n e (cv : Conv A) : ∀ c,
  let '(st, _, ms) := direct n e cv (c, true) in
  ∃ rs x, transcript n e ms c = (st.1, rs, x) ∧ st.2 = bool_decide (x = None).
Proof.
  induction cv as [a|t p k IH]; intros c; [by exists [], None|]. cbn [direct]. unfold exchange_direct. cbn [fst snd negb].
  destruct (_ <? _).
  { specialize (IH (Err kTooLarge) c). by destruct (direct n e (k _) (c, true)) as [[st a] ms]. }
  destruct (respond n e (mkMessage t p) c) as [c1 [r|x]] eqn:Hr.
  - specialize (IH (Ok r) c1). destruct (direct n e (k (Ok r)) (c1, true)) as [[st a] ms].
    destruct IH as (rs & x & Ht & Hx). exists (r :: rs), x. cbn [app transcript]. by rewrite Hr, Ht.
  - set (y := match error_message x with Some _ => _ | None => _ end).
    pose proof (direct_down n e (k y) c1) as Hd. destruct (direct n e (k y) (c1, false)) as [[st a] ms].
    cbn [fst] in Hd. subst st. exists [], (Some x). cbn [app transcript]. by rewrite Hr.
Qed.

(** *** Sockets whose peer closes in an orderly way *)

Definition keeps_peer {A} (m : IO A) : Prop :=
  ∀ s, handle_valid s = true → handle_valid (m s).1 = true ∧ peer_closed (m s).1 = peer_closed s.
Lemma peer_bind {A B} (m : IO A) (k : A → IO B) :
  keeps_peer m → (∀ a, keeps_peer (k a)) → keeps_peer (m ≫= k).
Proof.
  intros Hm Hk s Hv. unfold mbind, IO_bind. destruct (Hm s Hv) as [H1 H2].
  destruct (m s) as [s' [a|x]]; [|done]. cbn [fst] in *. destruct (Hk a s' H1). split; congruence.
Qed.
Lemma peer_lift {A} (r : Result A) : keeps_peer (io_lift r).
Proof. done. Qed.
Lemma peer_recv total : keeps_peer (recv_exact total).
Proof. intros s Hv. destruct (recv_exact_stream total s Hv) as [[_ (H1 & H2 & _)] _]. split; congruence. Qed.
Lemma peer_read limit : keeps_peer (read_message limit).
Proof.
  unfold read_message, io_check.
  repeat (apply peer_bind; [first [apply peer_recv|apply peer_lift]|intros ?]). apply peer_lift.
Qed.
Lemma peer_write t p : keeps_peer (write_message t p).
Proof.
  intros s Hv. unfold write_message. destruct (_ <? _); [done|]. unfold send_all. rewrite Hv. cbn [negb].
  destruct (send_loop_sent (S (length (frame_bytes t p))) (frame_bytes t p) s) as (n & s' & [_ (H1 & H2 & _)] & _ & H); [lia|].
  cbn in H1, H2. destruct H as [[-> _]|[-> _]]; cbn [fst]; split; congruence.
Qed.
Lemma read_closed limit s :
  handle_valid s = true → peer_closed s = true → stream s = [] →
  ∃ s', read_message limit s = (s', Err kClosed) ∧ stream s' = [] ∧ accepts s' = accepts s ∧ sent s' = sent s ∧
    handle_valid s' = true ∧ peer_closed s' = true.
Proof.
  intros Hv Hp Hs. destruct (recv_exact_stream 4 s Hv) as [[H1 (H2 & H3 & H4 & H5 & _)] Hr].
  destruct (recv_exact 4 s) as [s' r] eqn:E. cbn [fst snd] in *.
  unfold recv_result in Hr. rewrite Hs, Hp in Hr. cbn in Hr. subst r.
  exists s'. split; [exact (io_bind_Err _ _ _ _ _ E)|]. rewrite Hs in H1. by rewrite H2, H3.
Qed.

(** Over a connection that takes every write and brings exactly what the coordinator
    sends, a program has the result it has directly. *)
Lemma over_direct {A} n e (cv : Conv A) : ∀ st s, requests_only cv →
  sound_socket s → peer_closed s = true → stream s = replies_to n e (direct n e cv st).2 st →
  ∃ s', over cv s = (s', (direct n e cv st).1.2) ∧ sound_socket s' ∧
    sent s' = sent s ++ wire_of (direct n e cv st).2.
Proof.
  induction cv as [a|t p k IH]; intros st s Hr Hs Hp Hst; cbn [direct over] in *.
  { exists s. by rewrite app_nil_r. }
  destruct Hr as [[Ht Hg] Hk]. unfold exchange, exchange_direct in *.
  destruct (N.ltb_spec kMaxFramePayloadBytes (size p)) as [Hbig|Hfit].
  { assert (write_message t p s = (s, Err kTooLarge)) as Hw
      by (unfold write_message; by rewrite (proj2 (N.ltb_lt _ _))).
    rewrite (io_bind_Err _ _ _ _ _ Hw). specialize (IH (Err kTooLarge) st s (Hk _) Hs Hp).
    destruct (direct n e (k (Err kTooLarge)) st) as [[st' a] ms]. by apply IH. }
  destruct (write_sound t p s Hs Hfit) as (s1 & Hw & Hst1 & Hs1 & Hsent1). rewrite Hst in Hst1.
  destruct (peer_write t p s (proj1 Hs)) as [_ Hp1]. rewrite Hw in Hp1. cbn [fst] in Hp1. rewrite Hp in Hp1.
  rewrite (io_bind_Ok _ _ _ _ _ Hw).
  assert (∀ r st2 s2, read_message kDefaultLimit s1 = (s2, r) → sound_socket s2 → peer_closed s2 = true →
    sent s2 = sent s1 → stream s2 = replies_to n e (direct n e (k r) st2).2 st2 →
    ∃ s', (let '(s, r) := read_message kDefaultLimit s1 in over (k r) s) = (s', (direct n e (k r) st2).1.2) ∧
      sound_socket s' ∧ sent s' = sent s ++ wire_of ([mkMessage t p] ++ (direct n e (k r) st2).2)) as Hgo.
  { intros r st2 s2 Hrd Hs2 Hp2 Hsent2 Hst2. rewrite Hrd.
    destruct (IH r st2 s2 (Hk r) Hs2 Hp2 Hst2) as (s' & Ho & Hs' & Hsent'). exists s'.
    split_and!; [exact Ho|done|]. cbn [app]. rewrite Hsent', Hsent2, Hsent1, (wire_of_cons (mkMessage t p)), wire_of_one.
    by rewrite <-app_assoc. }
  destruct st as [c []]; cbn [snd fst negb] in *.
  2: { (* the connection is closed already *)
    destruct (read_closed kDefaultLimit s1 (proj1 Hs1) Hp1) as (s2 & Hrd & Hst2 & Hacc & Hsent2 & Hv2 & Hp2).
    { rewrite Hst1. by destruct (direct n e (k (Err kClosed)) (c, false)) as [[? ?] ?]. }
    specialize (Hgo _ (c, false) s2 Hrd ltac:(split; [done|rewrite Hacc; apply Hs1]) Hp2 Hsent2).
    destruct (direct n e (k (Err kClosed)) (c, false)) as [[st' a] ms]. apply Hgo. by rewrite Hst2. }
  destruct (respond n e (mkMessage t p) c) as [c1 [r|x]] eqn:Hresp.
  - assert (known_type (msg_type r) ∧ size (msg_payload r) ≤ kMaxFramePayloadBytes) as [Hkn Hsz]
      by by eapply respond_known.
    specialize (Hgo (Ok r) (c1, true)).
    destruct (direct n e (k (Ok r)) (c1, true)) as [[st' a] ms] eqn:Hd. cbn [fst snd] in *.
    unfold replies_to in Hst1. cbn [fst snd app transcript] in Hst1. rewrite Hresp in Hst1.
    destruct (transcript n e ms c1) as [[c2 rs] x] eqn:Htr.
    rewrite wire_of_cons, wire_of_one, <-app_assoc in Hst1.
    destruct (read_sound kDefaultLimit s1 r (wire_of rs ++ error_bytes x) Hs1 default_limit Hkn Hsz Hst1)
      as (s2 & Hrd & Hst2 & Hs2 & Hsent2).
    apply (Hgo s2 Hrd Hs2); [|done|].
    + destruct (peer_read kDefaultLimit s1 (proj1 Hs1)) as [_ H]. rewrite Hrd in H. cbn [fst] in H. congruence.
    + rewrite Hst2. unfold replies_to. cbn [fst snd]. by rewrite Htr.
  - set (y := match error_message x with Some _ => _ | None => _ end) in *.
    specialize (Hgo y (c1, false)).
    destruct (direct n e (k y) (c1, false)) as [[st' a] ms] eqn:Hd. cbn [fst snd] in *.
    unfold replies_to in Hst1. cbn [fst snd app transcript] in Hst1. rewrite Hresp in Hst1.
    unfold error_bytes in Hst1. cbn [mbind option_bind] in Hst1. subst y.
    destruct (error_message x) as [r|] eqn:Hx.
    + destruct (error_message_known _ _ Hx) as [Hkn Hsz]. rewrite wire_of_one in Hst1.
      destruct (read_sound kDefaultLimit s1 r [] Hs1 default_limit Hkn Hsz) as (s2 & Hrd & Hst2 & Hs2 & Hsent2);
        [by rewrite Hst1, app_nil_r|].
      apply (Hgo s2 Hrd Hs2); [|done|done].
      destruct (peer_read kDefaultLimit s1 (proj1 Hs1)) as [_ H]. rewrite Hrd in H. cbn [fst] in H. congruence.
    + destruct (read_closed kDefaultLimit s1 (proj1 Hs1) Hp1 Hst1) as (s2 & Hrd & Hst2 & Hacc & Hsent2 & Hv2 & Hp2).
      apply (Hgo s2 Hrd); [split; [done|rewrite Hacc; apply Hs1]|done|done|done].
Qed.


(** ** The calls of a client and the functions of the coordinator *)

(** The calls, with the type of what they return. *)
Inductive ClientCall : Type → Type :=
  | CDigest (w : WelcomeResponse) : ClientCall (WelcomeResponse * Result DigestResponse)
  | CState : ClientCall (Result StateResponse)
  | CStats : ClientCall (Result StatsResponse)
  | CAuthority (r : AuthorityRequest) : ClientCall (Result AuthorityDecision)
  | CSubmit (a : Artifact) : ClientCall (Result ArtifactResponse)
  | CIssue (r : LeaseIssueRequest) : ClientCall LeaseAnswer
  | CRevoke (l : LeaseId) (reason : N) (text : string) : ClientCall (Result SimpleResponse)
  | CObserve (o : MemberObservation) : ClientCall (Result SimpleResponse)
  | CTime (to : Tick) : ClientCall (Result SimpleResponse)
  | CFence (m : MemberId) (l : Lineage) (reason : N) (text : string) : ClientCall (Result SimpleResponse)
  | CEpoch (to : Epoch) (reason : N) (text : string) : ClientCall (Result SimpleResponse)
  | CReconcile (to : Epoch) : ClientCall (Result SimpleResponse)
  | CArtifacts : ClientCall (Result ArtifactListResponse)
  | CLeases : ClientCall (Result LeaseListResponse)
  | CPing : ClientCall (Result unit).
(** The function of the client. *)
Definition remote {B} (q : ClientCall B) : Conv B :=
  match q with
  | CDigest w => query_digest w
  | CState => query_state
  | CStats => query_stats
  | CAuthority r => query_authority r
  | CSubmit a => submit a
  | CIssue r => issue_lease r
  | CRevoke l reason text => revoke_lease l reason text
  | CObserve o => report_observation o
  | CTime to => advance_time to
  | CFence m l reason text => fence_member m l reason text
  | CEpoch to reason text => advance_epoch to reason text
  | CReconcile to => complete_reconciliation to
  | CArtifacts => query_artifacts
  | CLeases => query_leases
  | CPing => ping
  end.

(** What the client is told of an error that ends the session. *)
Definition told_error (x : Status) : Status :=
  match error_message x with Some _ => x | None => kClosed end.
(** A function of the coordinator behind a link: the arguments are sent as [q], the
    result, as a response, is [op]. *)
Definition behind {C} `{Codec C} (q : Enc) (op : Impl → Impl * Result C) (st : Link) : Link * Result C :=
  match q with
  | Err x => (st, Err x)
  | Ok p =>
      if kMaxFramePayloadBytes <? size p then (st, Err kTooLarge)
      else if negb st.2 then (st, Err kClosed)
      else match op st.1 with
           | (c, Err x) => ((c, false), Err (told_error x))
           | (c, Ok b) =>
               match encode_payload b with
               | Err x => ((c, false), Err (told_error x))
               | Ok bs => if kMaxFramePayloadBytes <? size bs then ((c, false), Err (told_error kTooLarge))
                          else ((c, true), Ok b)
               end
           end
  end.
(** An operation whose failure is part of the response. *)
Definition reported {A C} (f : Result A → C) (m : Op A) : Impl → Impl * Result C :=
  λ c, let '(c, r) := m c in (c, Ok (f r)).
(** One whose failure is not. *)
Definition responded {A C} (f : A → C) (m : Op A) : Impl → Impl * Result C :=
  λ c, let '(c, r) := m c in (c, a ← r; Ok (f a)).
Definition mapped {C B} (f : C → B) (p : Link * C) : Link * B := (p.1, f p.2).

(** The function of the coordinator that a call stands for. *)
Section local.
Context (n e : N).
Definition local {B} (q : ClientCall B) : Link → Link * B :=
  match q with
  | CDigest w => λ st, mapped (λ r, (match r with Ok d => with_digest d w | Err _ => w end, r))
      (behind no_payload (λ c, (c, Ok (digest_response (stats n e c)))) st)
  | CState => behind no_payload (λ c, (c, s ← derive_locked c; Ok (mkStateResponse (state_digest s) (state_json s))))
  | CStats => behind no_payload (λ c, (c, Ok (stats_response (stats n e c))))
  | CAuthority r => λ st, mapped (λ d, x ← d; Ok (decision x))
      (behind (encode_payload r) (responded mkAuthorityResponse (evaluate r)) st)
  | CSubmit a => behind (encode_payload a) (responded artifact_response (submit_artifact a))
  | CIssue r => λ st, mapped (λ r, match r with
        | Ok l => if negb (lp_code l =? wire ErrorCode.Ok) then RefusedWith (lp_code l) (lp_detail l)
                  else Leased (lp_lease l)
        | Err e => NoAnswer e
        end)
      (behind (encode_payload r) (reported lease_response (Coordinator.issue_lease (lease_request r))) st)
  | CRevoke l reason text => behind (encode_payload (mkLeaseRevoke l reason text))
      (reported (simple_response "lease revoked") (Coordinator.revoke_lease l reason text))
  | CObserve o => behind (encode_payload (mkObservationRequest o))
      (reported (simple_response "observation recorded") (Coordinator.report_observation o))
  | CTime to => behind (encode_payload (mkTimeAdvance to))
      (reported (simple_response "logical clock advanced") (Coordinator.advance_time to))
  | CFence m l reason text => behind (encode_payload (mkMemberAction m l zero reason text))
      (reported (simple_response "accepted") (Coordinator.fence_member m l reason text))
  | CEpoch to reason text => behind (encode_payload (mkMemberAction nil_id zero to reason text))
      (reported (simple_response "accepted") (Coordinator.advance_epoch to reason text))
  | CReconcile to => behind (encode_payload (mkMemberAction nil_id zero to (wire ReasonCode.PartitionReattestationComplete) ""))
      (reported (simple_response "accepted") (Coordinator.complete_reconciliation to))
  | CArtifacts => behind no_payload (λ c, (c, Ok (mkArtifactList (artifacts c) (coordinator_state_digest c))))
  | CLeases => behind no_payload (λ c, (c, Ok (mkLeaseList (snd <$> leases c))))
  | CPing => λ st, (st, if st.2 then Ok tt else Err kClosed)
  end.

(** The arguments and the response are values the wire can carry as they are. *)
Definition carried_call {B} (q : ClientCall B) (c : Impl) : Prop :=
  match q with
  | CDigest _ => wire_ok (digest_response (stats n e c))
  | CState => ∀ s, derive_locked c = Ok s → wire_ok (mkStateResponse (state_digest s) (state_json s))
  | CStats => wire_ok (stats_response (stats n e c))
  | CAuthority r => wire_ok r ∧ ∀ d, (evaluate r c).2 = Ok d → wire_ok (mkAuthorityResponse d)
  | CSubmit a => wire_ok a ∧ ∀ o, (submit_artifact a c).2 = Ok o → wire_ok (artifact_response o)
  | CIssue r => wire_ok r ∧ wire_ok (lease_response (Coordinator.issue_lease (lease_request r) c).2)
  | CRevoke l reason text => wire_ok (mkLeaseRevoke l reason text)
  | CObserve o => wire_ok (mkObservationRequest o)
  | CTime to => wire_ok (mkTimeAdvance to)
  | CFence m l reason text => wire_ok (mkMemberAction m l zero reason text)
  | CEpoch to reason text => wire_ok (mkMemberAction nil_id zero to reason text)
  | CReconcile to => wire_ok to
  | CArtifacts => wire_ok (mkArtifactList (artifacts c) (coordinator_state_digest c))
  | CLeases => wire_ok (mkLeaseList (snd <$> leases c))
  | CPing => True
  end.
End local.

Lemma error_expected {C} `{Codec C} t x m : error_message x = Some m → decode_expected (A := C) t m = Err x.
Proof.
  unfold error_message. destruct (encode_payload _) as [bs|] eqn:Hbs; [|done]. destruct (_ <? _); [done|].
  intros [= <-]. unfold decode_expected. cbn [msg_type msg_payload]. rewrite N.eqb_refl.
  unfold decode_payload. rewrite (decode_exact_encode (mkErrorResponse (code x) (message x)) bs); [by destruct x|done|exact Hbs].
Qed.
Lemma error_told {C} `{Codec C} t x :
  (m ← match error_message x with Some r => Ok r | None => Err kClosed end; decode_expected (A := C) t m) =
  Err (told_error x).
Proof.
  unfold told_error. destruct (error_message x) as [m|] eqn:Hm; [|done]. by apply error_expected.
Qed.
(** One request: when the message handler performs [op] and replies with what it gives,
    the exchange has the result of [op] behind the link. *)
Lemma request_direct {C} `{CodecLaws C} n e t expected (q : Enc) (op : Impl → Impl * Result C) st :
  expected ≠ MessageType.ErrorMessage →
  (∀ p, q = Ok p → ∀ c, answer n e (mkMessage (MessageType.value t) p) c =
     let '(c', r) := op c in match r with Ok b => reply expected b c' | Err x => (c', Err x) end) →
  (st.2 = true → ∀ b, (op st.1).2 = Ok b → wire_ok b) →
  (direct n e (request t q expected) st).1 = behind q op st.
Proof.
  intros Hex Hans Hok. unfold request, behind. destruct q as [p|x]; [|done]. specialize (Hans p eq_refl).
  cbn [direct]. unfold exchange_direct. destruct (_ <? size p); [done|].
  destruct st as [c []]; cbn [fst snd negb] in *; [|done]. specialize (Hok eq_refl).
  unfold respond. rewrite Hans. destruct (op c) as [c' [b|x]]; cbn [snd] in Hok.
  2: { cbn [fst]. by rewrite error_told. }
  unfold reply, lift. unfold mbind at 1, Op_bind at 1. destruct (encode_payload b) as [bs|x] eqn:Hbs.
  2: { cbn [fst]. by rewrite error_told. }
  cbn [mret Op_ret fst snd]. destruct (_ <? size bs).
  - change (fail ErrorCode.BoundsExceeded "outgoing payload exceeds the frame bound") with (Err (A := Message) kTooLarge).
    cbn [fst]. by rewrite error_told.
  - cbn [fst]. unfold mbind at 1, Result_bind at 1. by rewrite (decode_expected_Ok expected b bs Hex (Hok b eq_refl) Hbs).
Qed.
Lemma request_down {C} `{Codec C} n e t expected (q : Enc) (op : Impl → Impl * Result C) c :
  (direct n e (request t q expected) (c, false)).1 = behind q op (c, false).
Proof.
  unfold request, behind. destruct q as [p|]; [|done]. cbn [direct]. unfold exchange_direct. by destruct (_ <? _).
Qed.
Lemma direct_mapped {B C} n e (cv : Conv C) (f : C → B) st :
  (direct n e (c ← cv; mret (f c)) st).1 = mapped f (direct n e cv st).1.
Proof. rewrite direct_bind. by destruct (direct n e cv st) as [[st' c] ms]. Qed.

(** The handler of each message performs the function the call stands for. *)
Lemma decoded_arg {A} `{CodecLaws A} (a : A) p (k : A → Op Reply) c :
  wire_ok a → encode_payload a = Ok p → (r ← lift (decode_payload p); k r) c = k a c.
Proof.
  intros Ha Hp. unfold lift, mbind, Op_bind, decode_payload. by rewrite (decode_exact_encode _ _ Ha Hp).
Qed.
Lemma answer_simple_reported text (m : Op unit) c :
  answer_simple text m c = let '(c', r) := reported (simple_response text) m c in
    match r with Ok b => reply MessageType.SimpleResult b c' | Err x => (c', Err x) end.
Proof. unfold answer_simple, attempt, reported, mbind, Op_bind. by destruct (m c). Qed.
Lemma then_responded {A C} `{Codec C} (m : Op A) (f : A → C) t c :
  (o ← m; reply t (f o)) c = let '(c', r) := responded f m c in
    match r with Ok b => reply t b c' | Err x => (c', Err x) end.
Proof. unfold responded, mbind at 1, Op_bind. destruct (m c) as [c' [a|x]]; done. Qed.
Lemma simple_carried text m c b : (reported (simple_response text) m c).2 = Ok b → wire_ok b.
Proof.
  unfold reported. destruct (m c) as [c' [[]|x]]; intros [= <-]; (split; [|reflexivity]); cbn.
  - vm_compute. discriminate.
  - destruct (code x); vm_compute; discriminate.
Qed.
Lemma reconcile_carried to : wire_ok to →
  wire_ok (mkMemberAction nil_id zero to (wire ReasonCode.PartitionReattestationComplete) "").
Proof. intros Hto. split_and!; [reflexivity|vm_compute; discriminate|exact Hto|vm_compute; discriminate]. Qed.

(** A call that reports an operation's failure in a simple response. *)
Lemma simple_direct {A} `{CodecLaws A} n e t (a : A) text (m : Op unit) st :
  (st.2 = true → wire_ok a) →
  (wire_ok a → ∀ p, encode_payload a = Ok p → ∀ c,
     answer n e (mkMessage (MessageType.value t) p) c = answer_simple text m c) →
  (direct n e (simple t a) st).1 = behind (encode_payload a) (reported (simple_response text) m) st.
Proof.
  intros Ha Hans. destruct st as [c []]; cbn [snd] in *; [|apply request_down].
  specialize (Ha eq_refl). apply request_direct; [done| |].
  - intros p Hp c1. rewrite (Hans Ha p Hp c1). apply answer_simple_reported.
  - intros _ b. apply simple_carried.
Qed.
Lemma remote_is_local {B} n e (q : ClientCall B) st :
  (st.2 = true → carried_call n e q st.1) →
  (direct n e (remote q) st).1 = local n e q st.
Proof.
  intros Hq. destruct q; cbn [remote local carried_call] in *.
  - unfold query_digest. rewrite (direct_mapped _ _ _ (λ r, (match r with Ok d => with_digest d w | Err _ => w end, r))).
    f_equal. apply request_direct; [done|by intros p [= <-] c|]. intros Hup b [= <-]. by apply Hq.
  - apply request_direct; [done| |].
    + intros p [= <-] c. change (answer_state c = let '(c', r) := (c, s ← derive_locked c; Ok (mkStateResponse (state_digest s) (state_json s))) in
        match r with Ok b => reply MessageType.StateValue b c' | Err x => (c', Err x) end).
      unfold answer_state, derived, mbind at 1, Op_bind. by destruct (derive_locked c).
    + intros Hup b. cbn [snd]. destruct (derive_locked st.1) as [s|] eqn:Hs; [|done]. intros [= <-]. by apply Hq.
  - apply request_direct; [done|by intros p [= <-] c|]. intros Hup b [= <-]. by apply Hq.
  - unfold query_authority. rewrite (direct_mapped _ _ _ (λ d, x ← d; Ok (decision x))). f_equal.
    destruct st as [c []]; cbn [fst snd] in *; [|apply request_down].
    destruct (Hq eq_refl) as [Hr Hd]. apply request_direct; [done| |].
    + intros p Hp c1. change (answer_authority p c1 = let '(c', x) := responded mkAuthorityResponse (evaluate r) c1 in
        match x with Ok b => reply MessageType.AuthorityResult b c' | Err x => (c', Err x) end).
      unfold answer_authority. rewrite (decoded_arg r p) by done. apply then_responded.
    + intros _ b. unfold responded. cbn [fst]. destruct (evaluate r c) as [c1 [d|]]; [|done]. intros [= <-]. by apply Hd.
  - destruct st as [c []]; cbn [fst snd] in *; [|apply request_down].
    destruct (Hq eq_refl) as [Ha Ho]. apply request_direct; [done| |].
    + intros p Hp c1. change (answer_submit p c1 = let '(c', x) := responded artifact_response (submit_artifact a) c1 in
        match x with Ok b => reply MessageType.SubmitArtifactResult b c' | Err x => (c', Err x) end).
      unfold answer_submit. rewrite (decoded_arg a p) by done. apply then_responded.
    + intros _ b. unfold responded. cbn [fst]. destruct (submit_artifact a c) as [c1 [o|]]; [|done]. intros [= <-]. by apply Ho.
  - unfold issue_lease. rewrite (direct_mapped _ _ _ (λ r, match r with
        | Ok l => if negb (lp_code l =? wire ErrorCode.Ok) then RefusedWith (lp_code l) (lp_detail l)
                  else Leased (lp_lease l)
        | Err e => NoAnswer e
        end)). f_equal.
    destruct st as [c []]; cbn [fst snd] in *; [|apply request_down].
    destruct (Hq eq_refl) as [Hr Hl]. apply request_direct; [done| |].
    + intros p Hp c1. change (answer_issue p c1 = let '(c', x) := reported lease_response (Coordinator.issue_lease (lease_request r)) c1 in
        match x with Ok b => reply MessageType.LeaseResult b c' | Err x => (c', Err x) end).
      unfold answer_issue. rewrite (decoded_arg r p) by done.
      unfold attempt, reported, mbind, Op_bind. by destruct (Coordinator.issue_lease _ c1).
    + intros _ b. unfold reported. cbn [fst]. destruct (Coordinator.issue_lease _ c) as [c1 x]. by intros [= <-].
  - apply (simple_direct n e MessageType.RevokeLease (mkLeaseRevoke l reason text)); [exact Hq|]. intros Ha p Hp c.
    exact (decoded_arg _ p (λ r, answer_simple "lease revoked" (Coordinator.revoke_lease (rv_lease r) (rv_reason r) (rv_text r))) c Ha Hp).
  - apply (simple_direct n e MessageType.ReportObservation (mkObservationRequest o)); [exact Hq|]. intros Ha p Hp c.
    exact (decoded_arg _ p (λ r, answer_simple "observation recorded" (Coordinator.report_observation (observation r))) c Ha Hp).
  - apply (simple_direct n e MessageType.AdvanceTime (mkTimeAdvance to)); [exact Hq|]. intros Ha p Hp c.
    exact (decoded_arg _ p (λ r, answer_simple "logical clock advanced" (Coordinator.advance_time (ta_to r))) c Ha Hp).
  - apply (simple_direct n e MessageType.FenceMember (mkMemberAction m l zero reason text)); [exact Hq|]. intros Ha p Hp c.
    exact (decoded_arg _ p (λ r, answer_simple "accepted" (member_action MessageType.FenceMember r)) c Ha Hp).
  - apply (simple_direct n e MessageType.AdvanceEpoch (mkMemberAction nil_id zero to reason text)); [exact Hq|]. intros Ha p Hp c.
    exact (decoded_arg _ p (λ r, answer_simple "accepted" (member_action MessageType.AdvanceEpoch r)) c Ha Hp).
  - apply (simple_direct n e MessageType.CompleteReconciliation (mkMemberAction nil_id zero to (wire ReasonCode.PartitionReattestationComplete) "")); [intros Hup; by apply reconcile_carried, Hq|]. intros Ha p Hp c.
    exact (decoded_arg _ p (λ r, answer_simple "accepted" (member_action MessageType.CompleteReconciliation r)) c Ha Hp).
  - apply request_direct; [done|by intros p [= <-] c|]. intros Hup b [= <-]. by apply Hq.
  - apply request_direct; [done|by intros p [= <-] c|]. intros Hup b [= <-]. by apply Hq.
  - by destruct st as [c []].
Qed.

(** ** Programs *)

(** A program of a client: calls, each of which may depend on what the ones before
    returned. *)
Inductive Prog (A : Type) : Type :=
  | Ret (a : A)
  | Do (B : Type) (q : ClientCall B) (k : B → Prog A).
Arguments Ret {_} _.
Arguments Do {_ _} _ _.
(** With a connection, with the coordinator itself, and the condition that all the
    values on the way can be carried. *)
Fixpoint remote_prog {A} (p : Prog A) : Conv A :=
  match p with Ret a => Return a | Do q k => b ← remote q; remote_prog (k b) end.
Fixpoint local_prog {A} (n e : N) (p : Prog A) (st : Link) : Link * A :=
  match p with
  | Ret a => (st, a)
  | Do q k => let '(st, b) := local n e q st in local_prog n e (k b) st
  end.
Fixpoint carried {A} (n e : N) (p : Prog A) (st : Link) : Prop :=
  match p with
  | Ret _ => True
  | Do q k => (st.2 = true → carried_call n e q st.1) ∧
      let '(st, b) := local n e q st in carried n e (k b) st
  end.

Lemma prog_direct {A} n e (p : Prog A) : ∀ st, carried n e p st →
  (direct n e (remote_prog p) st).1 = local_prog n e p st.
Proof.
  induction p as [a|B q k IH]; intros st Hc; [done|]. cbn [remote_prog local_prog carried] in *.
  destruct Hc as [Hq Hk]. rewrite direct_bind. pose proof (remote_is_local n e q st Hq) as Hone.
  destruct (direct n e (remote q) st) as [[st1 b] ms]. cbn [fst] in Hone. rewrite <-Hone in *.
  specialize (IH b st1 Hk). by destruct (direct n e (remote_prog (k b)) st1) as [[st2 a] ms'].
Qed.
Lemma request_requests {C} `{Codec C} t q x :
  t ≠ MessageType.Goodbye → requests_only (request (A := C) t q x).
Proof.
  intros Ht. unfold request. destruct q; [|done]. split; [|done]. split; [apply value_known|by destruct t].
Qed.
Lemma prog_requests {A} (p : Prog A) : requests_only (remote_prog p).
Proof.
  induction p as [a|B q k IH]; [done|]. apply requests_bind; [|apply IH].
  destruct q; cbn [remote]; try (by apply request_requests); try (apply requests_bind; [by apply request_requests|done]).
  by split; [split; vm_compute; [split|]|].
Qed.

(** ** Sessions *)

Lemma product_encodes : ∃ p, Writer.text (kProductName +s+ " " +s+ kVersionString) kMaxShortTextLength = Ok p ∧
  size p = 27.
Proof. eexists. split; vm_compute; reflexivity. Qed.
Lemma hello_encodes f n i : wire_ok (hello f n i) →
  ∃ h, encode_payload (hello f n i) = Ok h ∧ size h ≤ kMaxFramePayloadBytes.
Proof.
  intros (Hf & Hn & _ & _). cbn [wire_ok BasicId_codec h_federation h_node hello] in Hf, Hn.
  unfold encode_payload, hello. cbn [encode HelloRequest_codec h_federation h_node h_incarnation
    h_protocol_version product BasicId_codec BasicCounter_codec].
  unfold Writer.id16, Writer.u64, Writer.u16. destruct product_encodes as (p & -> & Hp).
  unfold enc_app, mbind, Result_bind. eexists. split; [reflexivity|].
  rewrite !size_app, Hp. unfold size. rewrite Hf, Hn, !length_store_le. vm_compute. discriminate.
Qed.

(** A client: connect, what the program does with the welcome, close. *)
Definition session {A} (f : FederationId) (n : NodeId) (i : Incarnation)
    (prog : WelcomeResponse → Conv A) : Conv (Result A) :=
  r ← handshake f n i;
  match r with Ok w => a ← prog w; mret (Ok a) | Err e => mret (Err e) end.
Lemma over_bind {A B} (m : Conv A) (k : A → Conv B) : ∀ s,
  over (m ≫= k) s = let '(s, a) := over m s in over (k a) s.
Proof.
  induction m as [a|t p f IH]; intros s; [done|].
  change (Exchange t p f ≫= k) with (Exchange t p (λ r, f r ≫= k)). cbn [over].
  destruct (exchange t p s) as [s1 r]. apply IH.
Qed.

Lemma handshake_eq f n i h : encode_payload (hello f n i) = Ok h →
  handshake f n i = Exchange (MessageType.value MessageType.Hello) h
    (λ r, Return (w ← (m ← r; decode_expected MessageType.Welcome m); check_welcome f w)).
Proof. intros Hh. unfold handshake, request. by rewrite Hh. Qed.
Lemma check_hello_Ok c n i h : wire_ok (hello (cfg_federation (config c)) n i) →
  encode_payload (hello (cfg_federation (config c)) n i) = Ok h →
  check_hello c (mkMessage (MessageType.value MessageType.Hello) h) = Ok (hello (cfg_federation (config c)) n i).
Proof.
  intros Hok Hh. unfold check_hello, decode_payload. cbn [msg_type msg_payload].
  rewrite N.eqb_refl, (decode_exact_encode _ _ Hok Hh). cbn [negb fail_if].
  unfold mbind, Result_bind. by rewrite bool_decide_eq_true_2.
Qed.
Lemma welcome_read r w : wire_ok r → encode_payload r = Ok w →
  (x ← (m ← Ok (mkMessage (MessageType.value MessageType.Welcome) w); decode_expected MessageType.Welcome m);
   check_welcome (w_federation r) x) = Ok r.
Proof.
  intros Hr Hw. unfold mbind at 2, Result_bind at 2. rewrite (decode_expected_Ok _ r w); [|done..].
  unfold mbind, Result_bind, check_welcome. by rewrite bool_decide_eq_true_2.
Qed.

(** C8: a remote coordinator is the coordinator: whatever calls a client makes on a
    coordinator, in any order and however the next depends on what the ones before
    returned, each returns over a connection what the corresponding function of the
    coordinator gives ([local]: the same function, with the same arguments, on the same
    state), and the coordinator is left in the same state.  An error that the function
    reports in its response is returned so; any other error, and a response that cannot
    be encoded or does not fit a frame, is returned as the error, ends the session and is
    counted, and the calls after it fail and do nothing.  Precisely: there are two strings
    of bytes such that a client that receives the one sends the other and gets that
    result, and a server that receives the other sends the one and leaves the coordinator
    in that state; the connections may cut them in any way, but take every write and are
    closed in an orderly way, and nothing else acts on the coordinator meanwhile.  The
    hello, the welcome, and the arguments and responses of the calls have to be values the
    wire carries as they are ([carried]): every field within its width, an artefact in
    canonical form; and the welcome fits a frame. *)
Theorem remote_session_is_local {A} v n i (prog : WelcomeResponse → Prog A) w
    (Hstop : stopping v = false)
    (Hhello : wire_ok (hello (cfg_federation (config (impl v))) n i))
    (Hwelcome : wire_ok (welcome (impl v)))
    (Hw : encode_payload (welcome (impl v)) = Ok w) (Hwsize : size w ≤ kMaxFramePayloadBytes)
    (Hcarried : carried (connections_accepted v) (protocol_errors v) (prog (welcome (impl v))) (impl v, true)) :
  let '(st, a) := local_prog (connections_accepted v) (protocol_errors v) (prog (welcome (impl v))) (impl v, true) in
  ∃ requests replies,
    (∀ s, sound_socket s → peer_closed s = true → stream s = replies →
       ∃ s', over (session (cfg_federation (config (impl v))) n i (λ w, remote_prog (prog w))) s = (s', Ok a) ∧
         sent (client_close s').1 = sent s ++ requests) ∧
    (∀ s, sound_socket s → stream s = requests →
       ∃ s', serve v s = (if st.2 then with_impl st.1 v else count_error (with_impl st.1 v), s', Done) ∧
         sent s' = sent s ++ replies).
Proof.
  set (na := connections_accepted v) in *. set (ne := protocol_errors v) in *.
  set (cv := remote_prog (prog (welcome (impl v)))).
  pose proof (prog_direct na ne _ _ Hcarried) as Hlocal. fold cv in Hlocal. rewrite <-Hlocal.
  pose proof (prog_requests (prog (welcome (impl v)))) as Hreq. fold cv in Hreq.
  pose proof (direct_requests na ne cv (impl v, true) Hreq) as Hms.
  pose proof (direct_transcript na ne cv (impl v)) as Htr.
  pose proof (over_direct na ne cv (impl v, true)) as Hover.
  destruct (direct na ne cv (impl v, true)) as [[st a] ms]. cbn [fst snd] in *.
  destruct Htr as (rs & x & Htr & Hx).
  assert (replies_to na ne ms (impl v, true) = wire_of rs ++ error_bytes x) as Hreplies
    by (unfold replies_to; cbn [fst snd]; by rewrite Htr).
  destruct (hello_encodes _ _ _ Hhello) as (h & Hh & Hhsize).
  exists (frame_bytes (MessageType.value MessageType.Hello) h ++ wire_of ms ++
          frame_bytes (MessageType.value MessageType.Goodbye) []),
    (frame_bytes (MessageType.value MessageType.Welcome) w ++ wire_of rs ++ error_bytes x).
  split; intros s Hs; [intros Hp Hst|intros Hst].
  - destruct (write_sound (MessageType.value MessageType.Hello) h s Hs Hhsize) as (s1 & H1 & Hst1 & Hs1 & Hsent1).
    destruct (peer_write (MessageType.value MessageType.Hello) h s (proj1 Hs)) as [_ Hp1]. rewrite H1 in Hp1.
    cbn [fst] in Hp1. rewrite Hst in Hst1.
    destruct (read_sound kDefaultLimit s1 (mkMessage (MessageType.value MessageType.Welcome) w)
      (wire_of rs ++ error_bytes x) Hs1 default_limit) as (s2 & H2 & Hst2 & Hs2 & Hsent2); [apply value_known|done|exact Hst1|].
    destruct (peer_read kDefaultLimit s1 (proj1 Hs1)) as [_ Hp2]. rewrite H2 in Hp2. cbn [fst] in Hp2.
    destruct (Hover s2 Hreq Hs2) as (s3 & H3 & Hs3 & Hsent3); [congruence|by rewrite Hst2|].
    destruct (write_sound (MessageType.value MessageType.Goodbye) [] s3 Hs3) as (s4 & H4 & _ & _ & Hsent4);
      [vm_compute; discriminate|].
    exists s3. split.
    + unfold session. rewrite over_bind, (handshake_eq _ _ _ _ Hh). cbn [over].
      unfold exchange. rewrite (io_bind_Ok _ _ _ _ _ H1), H2. cbn [over].
      pose proof (welcome_read _ _ Hwelcome Hw) as Hread.
      change (w_federation (welcome (impl v))) with (cfg_federation (config (impl v))) in Hread.
      rewrite Hread, over_bind. fold cv. rewrite H3. done.
    + unfold client_close. destruct Hs3 as [Hv3 _]. rewrite Hv3. cbn [negb]. rewrite H4. cbn [fst socket_close sent release].
      by rewrite Hsent4, Hsent3, Hsent2, Hsent1, <-!app_assoc.
  - destruct (conversation_served v s h w ms (frame_bytes (MessageType.value MessageType.Goodbye) []) (st.1) rs x Hs Hstop) as (s' & H & Hsent & _);
      [eexists; by apply check_hello_Ok|done..|exact Hst|by exists []|exact Htr|].
    exists s'. split; [|exact Hsent]. rewrite H, Hx. by destruct x.
Qed.

(** ** Instances *)

(** Ask for the digest, advance the clock past it and look again. *)
Definition a_program (w : WelcomeResponse) : Prog (Result DigestResponse) :=
  Do (CDigest w) (λ p,
  match p.2 with
  | Err e => Ret (Err e)
  | Ok d => Do (CTime (mkCounter (value (dr_logical_time d) + 5))) (λ _, Do (CDigest p.1) (λ p, Ret p.2))
  end).
Lemma hello_ready : wire_ok (hello example_federation (mkId (replicate 16 x08)) (mkCounter 1)).
Proof. repeat split; vm_compute; first [reflexivity|discriminate]. Qed.
Lemma welcome_ready : wire_ok (welcome (impl example_server)).
Proof.
  repeat split; try (vm_compute; first [reflexivity|discriminate]).
  right. vm_compute. reflexivity.
Qed.
(** The checks that the values of the program are carried, one boolean for all. *)
Definition digest_small (d : DigestResponse) : bool :=
  (length (digest_bytes (dr_state_digest d)) =? 32)%nat && (value (dr_epoch d) <=? u64_max) &&
  (value (dr_logical_time d) <=? u64_max) && (dr_artifact_count d <=? u64_max) &&
  (dr_member_count d <=? u64_max) && (dr_active_member_count d <=? u64_max).
Lemma digest_small_ok d : digest_small d = true → wire_ok d.
Proof.
  unfold digest_small. rewrite !andb_true_iff, !N.leb_le, Nat.eqb_eq. intros [[[[[H1 H2] H3] H4] H5] H6].
  by split_and!.
Qed.
Definition carried_call_b {B} (n e : N) (q : ClientCall B) (c : Impl) : bool :=
  match q with
  | CDigest _ => digest_small (digest_response (stats n e c))
  | CTime to => value to <=? u64_max
  | CPing => true
  | _ => false
  end.
Fixpoint carried_b {A} (n e : N) (p : Prog A) (st : Link) : bool :=
  match p with
  | Ret _ => true
  | Do q k => (negb st.2 || carried_call_b n e q st.1) &&
      let '(st, b) := local n e q st in carried_b n e (k b) st
  end.
Lemma carried_b_true {A} n e (p : Prog A) : ∀ st, carried_b n e p st = true → carried n e p st.
Proof.
  induction p as [a|B q k IH]; intros st H; [done|]. cbn [carried_b carried] in *.
  apply andb_true_iff in H as [Hq Hk]. split.
  - intros Hup. rewrite Hup in Hq. cbn [negb orb] in Hq.
    destruct q; try done; cbn [carried_call_b carried_call] in *; [by apply digest_small_ok|by apply N.leb_le].
  - destruct (local n e q st) as [st' b]. by apply IH.
Qed.
Definition session_check (v : Server) : bool :=
  match encode_payload (welcome (impl v)) with
  | Ok w => small w &&
      carried_b (connections_accepted v) (protocol_errors v) (a_program (welcome (impl v))) (impl v, true) &&
      is_ok (local_prog (connections_accepted v) (protocol_errors v) (a_program (welcome (impl v))) (impl v, true)).2
  | Err _ => false
  end.
Lemma session_check_true v : session_check v = true →
  ∃ w, encode_payload (welcome (impl v)) = Ok w ∧ size w ≤ kMaxFramePayloadBytes ∧
    carried (connections_accepted v) (protocol_errors v) (a_program (welcome (impl v))) (impl v, true) ∧
    is_ok (local_prog (connections_accepted v) (protocol_errors v) (a_program (welcome (impl v))) (impl v, true)).2 = true.
Proof.
  unfold session_check. destruct (encode_payload _) as [w|]; [|done]. rewrite !andb_true_iff. intros [[Hs Hc] Ho].
  exists w. split_and!; [done|by apply small_true|by apply carried_b_true|done].
Qed.
Lemma session_example : session_check example_server = true.
Proof. vm_cast_no_check (eq_refl true). Qed.
Lemma remote_session_is_local_witness :
  ∃ requests c' d s', is_ok (A := DigestResponse) d = true ∧
    local_prog 0 0 (a_program (welcome (impl example_server))) (impl example_server, true) = (c', d) ∧
    serve example_server (receiving requests) =
      (if c'.2 then with_impl c'.1 example_server else count_error (with_impl c'.1 example_server), s', Done).
Proof.
  destruct (session_check_true _ session_example) as (w & Hw & Hs & Hc & Ho).
  pose proof (remote_session_is_local example_server (mkId (replicate 16 x08)) (mkCounter 1) a_program w
    eq_refl hello_ready welcome_ready Hw Hs Hc) as H.
  change (connections_accepted example_server) with 0 in *. change (protocol_errors example_server) with 0 in *.
  destruct (local_prog 0 0 (a_program (welcome (impl example_server))) (impl example_server, true)) as [st a].
  destruct H as (requests & replies & _ & Hserve).
  destruct (Hserve (receiving requests) (receiving_sound requests) (stream_receiving requests)) as (s' & H & _).
  exists requests, st, a, s'. split; [exact Ho|split; [reflexivity|exact H]].
Defined.
