(* ===== verification/Member.v ===== *)
(** * The member runtime

    Models include/fabric_federation/member_runtime.hpp and
    src/member_runtime.cpp: the configuration and the cached clock of a member, the
    artefacts it issues, its calls to the coordinator, and reachability probes from
    both ends.  A call is a program of exchanges ([Conv] of the component Client) on
    the connection of the member.  The properties: what a member issues passes the
    validation of the coordinator and carries the epoch it was last told, and a
    peer is reported reachable only when it answered. *)

From S2P Require Import Prelude Errors Sha256 Text Codec Ids Names Scope Capability Policy Identity.
From S2P Require Import Explanation Lease Partition Evidence Membership Journal State Derivation.
From S2P Require Import Authority Coordinator Recovery Operations Admission Net Protocol Json Render Server.
From S2P Require Import Client.

(** ** State *)

Record MemberConfig := mkMemberConfig {
  mc_federation : FederationId;
  mc_constitution : MemberConstitution;
  mc_node : NodeId;
  mc_incarnation : Incarnation;
  mc_coordinator : Endpoint;
  probe_port : N;
  listen_for_probes : bool;
  mc_initial_tick : Tick
}.
(** The catalogue of the runtime is the built-in one. *)
Record Member := mkMember {
  m_config : MemberConfig;
  m_client : WelcomeResponse;
  attached : bool;
  m_tick : Tick;
  m_epoch : Epoch;
  clock_current : bool;
  probe_open : bool;
  bound_probe_port : N
}.
Definition no_welcome : WelcomeResponse :=
  mkWelcome nil_id nil_id zero zero zero Digest_zero (mkName "") zero 0 "".
Definition with_client (w : WelcomeResponse) (m : Member) : Member :=
  mkMember (m_config m) w (attached m) (m_tick m) (m_epoch m) (clock_current m) (probe_open m) (bound_probe_port m).
Definition with_attached (b : bool) (m : Member) : Member :=
  mkMember (m_config m) (m_client m) b (m_tick m) (m_epoch m) (clock_current m) (probe_open m) (bound_probe_port m).
Definition with_tick (t : Tick) (m : Member) : Member :=
  mkMember (m_config m) (m_client m) (attached m) t (m_epoch m) (clock_current m) (probe_open m) (bound_probe_port m).
Definition with_clock (t : Tick) (e : Epoch) (current : bool) (m : Member) : Member :=
  mkMember (m_config m) (m_client m) (attached m) t e current (probe_open m) (bound_probe_port m).
Definition with_probe (is_open : bool) (port : N) (m : Member) : Member :=
  mkMember (m_config m) (m_client m) (attached m) (m_tick m) (m_epoch m) (clock_current m) is_open port.
Definition with_incarnation (i : Incarnation) (m : Member) : Member :=
  let c := m_config m in
  mkMember (mkMemberConfig (mc_federation c) (mc_constitution c) (mc_node c) i (mc_coordinator c) (probe_port c)
              (listen_for_probes c) (mc_initial_tick c))
    (m_client m) (attached m) (m_tick m) (m_epoch m) (clock_current m) (probe_open m) (bound_probe_port m).

Definition member_create (c : MemberConfig) : Result Member :=
  fail_if (is_nil (mc_federation c)) ErrorCode.InvalidArgument "a member requires a federation identity";;
  fail_if (is_nil (mc_node c)) ErrorCode.InvalidArgument "a member requires a node identity";;
  fail_if (is_nil (con_member (mc_constitution c))) ErrorCode.InvalidArgument
          "a member requires a member identity";;
  match validate_constitution (mc_constitution c) builtin with
  | Err e => fail ErrorCode.InvalidArgument ("the member constitution is not valid: " +s+ Status_to_string e)
  | Ok _ => Ok (mkMember c no_welcome false (mc_initial_tick c) (mkCounter 1) false false 0)
  end.

(** ** Artefacts *)

Definition member_evidence_id (f : FederationId) (m : MemberId) (k : ArtifactKind.t) (d : Digest) : EvidenceId :=
  mkId (take 16 (digest_bytes (digest_of (encode f >+> encode m >+> Writer.u16 (wire k) >+> Writer.digest d)))).
Definition with_evidence (i : EvidenceId) (a : Artifact) : Artifact :=
  let e := envelope a in
  mkArtifact (mkEnvelope i (art_kind e) (art_federation e) (subject e) (issuer e) (body_digest e)) (body a).
(** The fields a member sets; the others keep their defaults. *)
Definition member_body (d : MemberDeclaration) (i : MemberIdentity) (e : Epoch) (l : Lineage)
    (terms : list DelegationTerms) (withdrawn : list ScopeGrant) (o : Outcome.t) (reason fence : N)
    (text : string) : ArtifactBody :=
  mkBody d i no_genesis no_policy e zero Digest_zero l [] 0 0 terms withdrawn nil_id no_identity [] zero zero
    zero zero [] [] o reason fence text zero.
Definition no_reason : N := wire ReasonCode.EvidenceUnknown.

Section build.
Context (m : Member).
Definition member_envelope (k : ArtifactKind.t) (subj : MemberId) : ArtifactEnvelope :=
  let c := m_config m in
  mkEnvelope nil_id k (mc_federation c) subj
    (mkProvenance (mc_node c) (con_member (mc_constitution c)) (con_generation (mc_constitution c))
       (mc_incarnation c) (constitution_digest (mc_constitution c)) (m_epoch m) (m_tick m)) Digest_zero.
Definition make_declaration : MemberDeclaration :=
  let c := m_config m in mkDeclaration (mc_constitution c) (mc_incarnation c) (mc_node c) (m_tick m).
Definition member_identity : MemberIdentity := declaration_identity make_declaration.
Definition me : MemberId := con_member (mc_constitution (m_config m)).
(** The end of every [build_] operation. *)
Definition issue (k : ArtifactKind.t) (subj : MemberId) (b : ArtifactBody) : Artifact :=
  let a := Artifact_make (member_envelope k subj) b in
  with_evidence (member_evidence_id (mc_federation (m_config m)) me k (artifact_body_digest (body a))) a.

Definition build_proposal (candidate : MemberDeclaration) (l : Lineage) : Result Artifact :=
  Ok (issue ArtifactKind.MembershipProposal (con_member (decl_constitution candidate))
        (member_body candidate (declaration_identity candidate) (m_epoch m) l [] [] Outcome.Unknown
           no_reason no_reason "")).
Definition build_acceptance (l : Lineage) : Result Artifact :=
  Ok (issue ArtifactKind.MembershipAcceptance me
        (member_body make_declaration member_identity (m_epoch m) l [] [] Outcome.Unknown no_reason no_reason "")).
Definition build_endorsement (candidate : MemberDeclaration) (l : Lineage) : Result Artifact :=
  Ok (issue ArtifactKind.MembershipEndorsement (con_member (decl_constitution candidate))
        (member_body candidate (declaration_identity candidate) (m_epoch m) l [] [] Outcome.Unknown
           no_reason no_reason "")).
Definition build_reattestation : Result Artifact :=
  Ok (issue ArtifactKind.MemberReattestation me
        (member_body make_declaration member_identity (m_epoch m) zero [] [] Outcome.Unknown no_reason no_reason "")).
(** The constitution with the declared terms; that of the runtime stays. *)
Definition with_terms (terms : list DelegationTerms) (c : MemberConstitution) : MemberConstitution :=
  mkConstitution (con_domain c) (con_member c) (con_generation c) (software_major c) (software_minor c)
    (software_patch c) (capabilities c) (requirements c) (retained c) terms (con_description c).
Definition build_delegation_declaration (terms : list DelegationTerms) : Result Artifact :=
  let updated := with_terms terms (mc_constitution (m_config m)) in
  match validate_constitution updated builtin with
  | Err e => fail ErrorCode.InvalidArgument
               ("the delegation declaration is not valid: " +s+ Status_to_string e)
  | Ok _ =>
      let d := mkDeclaration updated (mc_incarnation (m_config m)) (mc_node (m_config m)) (m_tick m) in
      Ok (issue ArtifactKind.DelegationDeclaration me
            (member_body d (declaration_identity d) (m_epoch m) zero terms [] Outcome.Unknown
               no_reason no_reason ""))
  end.
Definition build_withdrawal (grants : list ScopeGrant) (l : Lineage) : Result Artifact :=
  fail_if (bool_decide (grants = [])) ErrorCode.InvalidArgument "a withdrawal must name at least one grant";;
  Ok (issue ArtifactKind.DelegationWithdrawal me
        (member_body no_declaration member_identity (m_epoch m) l [] (canonicalize_grants grants) Outcome.Unknown
           no_reason no_reason "")).
Definition build_leave (l : Lineage) (reason : N) (text : string) : Result Artifact :=
  Ok (issue ArtifactKind.MembershipLeave me
        (member_body no_declaration member_identity (m_epoch m) l [] [] Outcome.Refused reason no_reason text)).
Definition build_self_fence (l : Lineage) (reason : N) (text : string) : Result Artifact :=
  Ok (issue ArtifactKind.MembershipFence me
        (member_body no_declaration member_identity (m_epoch m) l [] [] Outcome.Fenced reason reason text)).
End build.

(** ** Calls *)

(** What a call does: exchanges, the new state of the runtime and the result. *)
Definition Call (A : Type) : Type := Member → Conv (Member * A).
Definition done {A} (a : A) : Call A := λ m, Return (m, a).
Definition not_attached {A} : Result A :=
  fail ErrorCode.NotInitialized "the member is not attached to a coordinator".

(** [query_digest] of the client, which keeps its welcome up to date. *)
Definition ask_digest : Call (Result DigestResponse) := λ m,
  p ← query_digest (m_client m); Return (with_client p.1 m, p.2).
Definition refresh_clock : Call (Result unit) := λ m,
  p ← ask_digest m;
  let '(m, r) := p in
  match r with
  | Err e => Return (with_clock (m_tick m) (m_epoch m) false m, Err e)
  | Ok d => Return (with_clock (dr_logical_time d) (dr_epoch d) true m, Ok tt)
  end.
Definition member_submit (a : Artifact) : Call (Result ArtifactResponse) := λ m,
  if negb (attached m) then Return (m, not_attached)
  else if negb (clock_current m) then
    Return (m, fail ErrorCode.Stale
      "the member's cached epoch is not current; refresh before issuing evidence")
  else
    r ← submit a;
    match r with
    | Ok _ => p ← refresh_clock m; Return (p.1, r)
    | Err _ => Return (m, r)
    end.
(** Refresh when attached, build, submit. *)
Definition issue_fresh (build : Member → Result Artifact) : Call (Result ArtifactResponse) := λ m,
  p ← (if attached m then refresh_clock m else Return (m, Ok tt));
  let '(m, r) := p in
  match r with
  | Err e => Return (m, Err e)
  | Ok _ =>
      match build m with
      | Err e => Return (m, Err e)
      | Ok a => member_submit a m
      end
  end.
Definition propose (candidate : MemberDeclaration) (l : Lineage) := issue_fresh (λ m, build_proposal m candidate l).
Definition accept (l : Lineage) := issue_fresh (λ m, build_acceptance m l).
Definition endorse (candidate : MemberDeclaration) (l : Lineage) :=
  issue_fresh (λ m, build_endorsement m candidate l).
Definition reattest := issue_fresh build_reattestation.
Definition declare_delegation (terms : list DelegationTerms) :=
  issue_fresh (λ m, build_delegation_declaration m terms).
Definition withdraw (grants : list ScopeGrant) (l : Lineage) := issue_fresh (λ m, build_withdrawal m grants l).
Definition leave (l : Lineage) :=
  issue_fresh (λ m, build_leave m l (wire ReasonCode.MembershipLeaving)
    "the member left the federation; its local authority is untouched").
Definition self_fence (l : Lineage) (reason : N) (text : string) :=
  issue_fresh (λ m, build_self_fence m l reason text).
(** No refresh here: the artefact carries the clock the runtime has. *)
Definition restart_with_new_incarnation (i : Incarnation) : Call (Result ArtifactResponse) := λ m,
  if negb (value (mc_incarnation (m_config m)) <? value i) then
    Return (m, fail ErrorCode.InvalidArgument "a restart must use a strictly greater incarnation")
  else
    let m := with_incarnation i m in
    match build_reattestation m with
    | Err e => Return (m, Err e)
    | Ok a => member_submit a m
    end.

(** ** Authority and reports *)

Definition evaluate_local (g : ScopeGrant) (m : Member) : AuthorityDecision :=
  evaluate_local_authority (mc_constitution (m_config m)) g (m_tick m).
(** [request_id] is the random identifier of the request. *)
Definition authority_request (request_id : RequestId) (g : ScopeGrant) (l : LeaseId) (e : Epoch) (m : Member) :
    AuthorityRequest :=
  mkRequest request_id (mc_federation (m_config m)) e (member_identity m) g l (m_tick m) (mkName "").
Definition request_authority (request_id : RequestId) (g : ScopeGrant) (l : LeaseId) :
    Call (Result AuthorityDecision) := λ m,
  if negb (attached m) then Return (m, not_attached)
  else
    p ← ask_digest m;
    match p with
    | (m, Err e) => Return (m, Err e)
    | (m, Ok d) =>
        let m := with_tick (dr_logical_time d) m in
        r ← query_authority (authority_request request_id g l (dr_epoch d) m);
        match r with
        | Err e => Return (m, Err e)
        | Ok x =>
            p ← ask_digest m;
            Return (match p.2 with Ok d => with_tick (dr_logical_time d) p.1 | Err _ => p.1 end, Ok x)
        end
    end.
Definition coordinator_digest : Call (Result DigestResponse) := λ m,
  if negb (attached m) then Return (m, not_attached)
  else
    p ← ask_digest m;
    Return (match p.2 with Ok d => with_tick (dr_logical_time d) p.1 | Err _ => p.1 end, p.2).

Record MemberStatus := mkMemberStatus {
  mt_lifecycle : MemberLifecycleState.t;
  mt_identity : MemberIdentity;
  mt_epoch : Epoch;
  mt_logical_time : Tick;
  mt_state_digest : Digest;
  mt_local_authority : list ScopeGrant;
  mt_federation_authority : list ScopeGrant;
  mt_withheld : list ScopeGrant;
  mt_contributing_parties : N
}.
(** The state that came back is searched for the member, and the lifecycle is
    [Absent] whether it is found or not. *)
Definition member_status : Call (Result MemberStatus) := λ m,
  if negb (attached m) then Return (m, not_attached)
  else
    r ← query_state;
    match r with
    | Err e => Return (m, Err e)
    | Ok s =>
        let status e t := mkMemberStatus MemberLifecycleState.Absent (member_identity m) e t
          (sr_state_digest s) (retained (mc_constitution (m_config m))) [] [] 0 in
        p ← ask_digest m;
        match p with
        | (m, Ok d) => Return (with_tick (dr_logical_time d) m, Ok (status (dr_epoch d) (dr_logical_time d)))
        | (m, Err _) => Return (m, Ok (status zero zero))
        end
    end.
Definition request_lease (scopes : list ScopeGrant) (e : Epoch) (lifetime : Tick) : Call LeaseAnswer := λ m,
  if negb (attached m) then
    Return (m, NoAnswer (Status_make ErrorCode.NotInitialized "the member is not attached to a coordinator"))
  else r ← issue_lease (mkLeaseIssue (me m) scopes e lifetime); Return (m, r).
Definition member_report (o : MemberObservation) : Call (Result SimpleResponse) := λ m,
  if negb (attached m) then Return (m, not_attached) else r ← report_observation o; Return (m, r).

(** ** Attaching *)

(** [os]: what the operating system does when a port is asked for. *)
Definition start_probe_listener (os : N → BindOs) (m : Member) : Member * Result unit :=
  if probe_open m then (m, Ok tt)
  else
    let requested := if negb (probe_port (m_config m) =? 0) then probe_port (m_config m) else bound_probe_port m in
    match bind_loopback (os requested) with
    | Err e => (m, Err e)
    | Ok l => (with_probe true (port l) m, Ok tt)
    end.
Definition stop_probe_listener (m : Member) : Member :=
  if probe_open m then with_probe false (bound_probe_port m) m else m.
(** The member is attached before its clock is refreshed, and stays so when that
    fails.  The socket is that of the client. *)
Definition attach (os : ConnectOs) (bind : N → BindOs) (m : Member) (s : Socket) : Member * Socket * Result unit :=
  if attached m then (m, s, Ok tt)
  else
    let c := m_config m in
    match client_connect os (mc_coordinator c) (mc_federation c) (mc_node c) (mc_incarnation c) with
    | Err e => (m, s, Err e)
    | Ok (s, w) =>
        let m := with_tick (w_logical_time w) (with_attached true (with_client w m)) in
        match over (refresh_clock m) s with
        | (s, (m, Err e)) => (m, s, Err e)
        | (s, (m, Ok _)) =>
            if listen_for_probes (m_config m) && negb (probe_open m) then
              let '(m, r) := start_probe_listener bind m in (m, s, r)
            else (m, s, Ok tt)
        end
    end.
Definition detach (m : Member) (s : Socket) : Member * Socket * Result unit :=
  if negb (attached m) then (m, s, Ok tt)
  else let '(s, r) := client_close s in (with_attached false m, s, r).
Definition member_describe (listener_port : N) (m : Member) : string :=
  let c := m_config m in
  "member " +s+ id_to_string (me m) +s+ " node=" +s+ id_to_string (mc_node c) +s+ " generation=" +s+
  to_dec (value (con_generation (mc_constitution c))) +s+ " incarnation=" +s+
  to_dec (value (mc_incarnation c)) +s+ (if attached m then " attached to " else " detached from ") +s+
  endpoint_to_string (mc_coordinator c) +s+
  (if probe_open m then " probe-listener=127.0.0.1:" +s+ to_dec listener_port else "").

(** ** Probes *)

(** A probe that was accepted by the listener of a member. *)
Definition probe_response (m : Member) : ProbeResponse :=
  let c := m_config m in
  mkProbe (mc_federation c) (me m) (mc_incarnation c) (mc_node c)
    (if attached m then w_epoch (m_client m) else zero) (m_tick m) (constitution_digest (mc_constitution c)).
Definition answer_probe (m : Member) (s : Socket) : Socket :=
  match read_message kDefaultLimit s with
  | (s, Err _) => s
  | (s, Ok q) =>
      if negb (msg_type q =? MessageType.value MessageType.ProbeRequest) then s
      else
        match decode_payload (A := HelloRequest) (msg_payload q) with
        | Err _ => s
        | Ok h =>
            if negb (bool_decide (h_federation h = mc_federation (m_config m))) then s
            else
              match encode_payload (probe_response m) with
              | Ok bs => (write_message (MessageType.value MessageType.ProbeResult) bs s).1
              | Err _ => s
              end
        end
  end.
(** One peer, with what the operating system does about the connection to it. *)
Definition probe_hello (m : Member) : HelloRequest :=
  mkHello (mc_federation (m_config m)) (mc_node (m_config m)) (mc_incarnation (m_config m))
    kWireProtocolVersion "ffed-probe".
Definition probe_failed (m : Member) (p : MemberId) (st : ReachabilityState.t) (text : string) : PeerObservation :=
  mkPeer p zero st (m_tick m) text.
Definition read_probe (m : Member) (p : MemberId) (r : Message) : PeerObservation :=
  match decode_payload (A := ProbeResponse) (msg_payload r) with
  | Ok x =>
      if negb (msg_type r =? MessageType.value MessageType.ProbeResult) then
        probe_failed m p ReachabilityState.Unknown "the peer answered something this runtime does not understand"
      else if negb (bool_decide (pb_member x = p)) then
        probe_failed m p ReachabilityState.Unknown
          "the peer at this endpoint reports a different member identity"
      else mkPeer p (pb_incarnation x) ReachabilityState.Reachable (m_tick m)
             ("reached " +s+ id_to_string (pb_node x))
  | Err _ =>
      probe_failed m p ReachabilityState.Unknown "the peer answered something this runtime does not understand"
  end.
Definition probe_socket (m : Member) (p : MemberId) (s : Socket) : PeerObservation :=
  match encode_payload (probe_hello m) with
  | Err e => probe_failed m p ReachabilityState.Unreachable (message e)
  | Ok bs =>
      match write_message (MessageType.value MessageType.ProbeRequest) bs s with
      | (_, Err e) => probe_failed m p ReachabilityState.Unreachable (message e)
      | (s, Ok _) =>
          match read_message kDefaultLimit s with
          | (_, Err e) => probe_failed m p ReachabilityState.Unreachable (message e)
          | (_, Ok r) => read_probe m p r
          end
      end
  end.
Record PeerTarget := mkTarget { pt_member : MemberId; pt_endpoint : Endpoint }.
Definition probe_peer (m : Member) (t : PeerTarget) (os : ConnectOs) : PeerObservation :=
  match connect os (pt_endpoint t) with
  | Err e => probe_failed m (pt_member t) ReachabilityState.Unreachable (message e)
  | Ok s => probe_socket m (pt_member t) s
  end.
Definition observation_of (m : Member) (targets : list (PeerTarget * ConnectOs)) : MemberObservation :=
  mkObservation (me m) (mc_incarnation (m_config m)) (if attached m then m_epoch m else zero) (m_tick m)
    ((λ t, probe_peer m t.1 t.2) <$> targets).
Definition probe_peers (targets : list (PeerTarget * ConnectOs)) : Call MemberObservation := λ m,
  p ← (if attached m then refresh_clock m else Return (m, Ok tt));
  Return (p.1, observation_of p.1 targets).

(** ** What a member issues is valid *)

Lemma check_each_sub {A} (f : A → Result unit) l k : (∀ x, x ∈ k → x ∈ l) →
  check_each f l = Ok tt → check_each f k = Ok tt.
Proof. rewrite !check_each_In. auto. Qed.
Lemma seq_unit (a b : Result unit) : a = Ok tt → b = Ok tt → (a;; b) = Ok tt.
Proof. by intros -> ->. Qed.
Lemma fail_if_sort {A} `{Cmp A, EqDecision A} n (l : list A) k s :
  fail_if (n <? size l) k s = Ok tt → fail_if (n <? size (sort_unique l)) k s = Ok tt.
Proof.
  rewrite !fail_if_Ok, !N.ltb_ge. pose proof (length_sort_unique l). unfold size. lia.
Qed.
Lemma validate_canonical c : validate_constitution c builtin = Ok tt →
  validate_constitution (constitution_canonicalize c) builtin = Ok tt.
Proof.
  unfold validate_constitution. intros H.
  repeat match type of H with mbind _ _ = _ => apply seq_Ok in H as [? H] end.
  cbn [constitution_canonicalize con_domain con_member capabilities requirements retained delegated con_description].
  unfold canonicalize_statements, canonicalize_requirements, canonicalize_grants, canonicalize_terms.
  repeat (apply seq_unit; [first [done|by apply fail_if_sort]|]). apply seq_unit.
  - apply (check_each_sub _ (delegated c)); [|done]. intros x. by rewrite elem_of_sort_unique.
  - rewrite check_each_In in H |- *. intros x Hx. rewrite elem_of_sort_unique in Hx. specialize (H x Hx).
    unfold validate_retained in *. destruct (classify builtin (scope x)) as [sc known].
    apply seq_Ok in H as [Hk H]. apply seq_Ok in H as [Hl H]. rewrite Hk, Hl.
    apply (check_each_sub _ (grant <$> delegated c)); [|exact H]. intros d [t [-> Ht]]%list_elem_of_fmap.
    apply list_elem_of_fmap. exists t. split; [done|]. by rewrite elem_of_sort_unique in Ht.
Qed.

(** What [member_create] checks, which no call changes. *)
Record member_ok (m : Member) : Prop := {
  mk_federation : is_nil (mc_federation (m_config m)) = false;
  mk_node : is_nil (mc_node (m_config m)) = false;
  mk_member : is_nil (me m) = false;
  mk_constitution : validate_constitution (mc_constitution (m_config m)) builtin = Ok tt
}.
Lemma created_ok c m : member_create c = Ok m → member_ok m ∧ m_config m = c.
Proof.
  unfold member_create. intros ([] & Hf%fail_if_Ok & ([] & Hn%fail_if_Ok & ([] & Hm%fail_if_Ok & H)%bind_Ok)%bind_Ok)%bind_Ok.
  destruct (validate_constitution _ _) as [[]|] eqn:Hv; [|done]. injection H as <-. split; [by constructor|done].
Qed.

(** The artefacts a member can issue; those about a candidate name one whose
    constitution is valid. *)
Inductive issues (m : Member) : Artifact → Prop :=
  | issues_proposal d l a : validate_constitution (decl_constitution d) builtin = Ok tt →
      build_proposal m d l = Ok a → issues m a
  | issues_acceptance l a : build_acceptance m l = Ok a → issues m a
  | issues_endorsement d l a : validate_constitution (decl_constitution d) builtin = Ok tt →
      build_endorsement m d l = Ok a → issues m a
  | issues_reattestation a : build_reattestation m = Ok a → issues m a
  | issues_delegation t a : build_delegation_declaration m t = Ok a → issues m a
  | issues_withdrawal g l a : build_withdrawal m g l = Ok a → issues m a
  | issues_leave l r t a : build_leave m l r t = Ok a → issues m a
  | issues_fence l r t a : build_self_fence m l r t = Ok a → issues m a.

Lemma issue_valid m k subj b :
  member_ok m → validate_kind builtin (issue m k subj b) = Ok tt →
  Digest_is_zero (artifact_body_digest (canonicalize_body b)) = false →
  is_nil (evidence (envelope (issue m k subj b))) = false →
  artifact_validate builtin (issue m k subj b) = Ok tt.
Proof.
  intros [Hf _ Hm _] Hk Hz He. unfold artifact_validate.
  assert (verify_digest (issue m k subj b) = Ok tt) as Hd by (by apply verify_digest_Ok).
  rewrite Hd, He. cbn [issue with_evidence Artifact_make with_body_digest member_envelope envelope art_federation
    issuer prov_node prov_member art_kind].
  change (con_member (mc_constitution (m_config m))) with (me m). rewrite Hf, Hm, andb_false_r. exact Hk.
Qed.
Lemma not_differ {A} `{EqDecision A} (a : A) c t : fail_if (differ a a) c t = Ok tt.
Proof. by rewrite bool_decide_eq_true_2. Qed.
Lemma canonical_identity d : declaration_identity (canonicalize_declaration d) = declaration_identity d.
Proof.
  unfold declaration_identity, canonicalize_declaration, constitution_digest. cbn [decl_constitution].
  by rewrite constitution_canonicalize_idemp.
Qed.
Lemma valid_declared m k d l : k ∈ [ArtifactKind.MembershipAcceptance; ArtifactKind.MembershipEndorsement;
    ArtifactKind.MemberReattestation; ArtifactKind.MembershipProposal] →
  validate_constitution (decl_constitution d) builtin = Ok tt →
  validate_kind builtin (issue m k (con_member (decl_constitution d))
    (member_body d (declaration_identity d) (m_epoch m) l [] [] Outcome.Unknown no_reason no_reason "")) = Ok tt.
Proof.
  intros Hk Hv%validate_canonical. unfold validate_kind.
  assert (∀ c t, fail_if (differ (con_member (decl_constitution (canonicalize_declaration d)))
    (con_member (decl_constitution d))) c t = Ok tt) as Hs by (intros; apply not_differ).
  assert (∀ c t, fail_if (differ (idn_incarnation (declaration_identity (canonicalize_declaration d)))
      (idn_incarnation (declaration_identity d)) ||
    differ (idn_constitution (declaration_identity (canonicalize_declaration d)))
      (idn_constitution (declaration_identity d))) c t = Ok tt) as Hi.
  { intros c t. rewrite canonical_identity, !bool_decide_eq_true_2 by done. done. }
  set_unfold in Hk. destruct_or!; subst k;
    cbn [issue with_evidence Artifact_make with_body_digest member_envelope envelope body art_kind subject
      canonicalize_body member_body declaration declared_identity];
    repeat (apply seq_unit; [first [exact Hv|apply Hs]|]); first [apply Hs|apply Hi].
Qed.

Lemma canonicalize_grants_nil l : canonicalize_grants l = [] → l = [].
Proof.
  intros H. destruct l as [|g l]; [done|]. exfalso. apply (not_elem_of_nil g). rewrite <-H.
  unfold canonicalize_grants. rewrite elem_of_sort_unique. left.
Qed.
Lemma issued_as m a : issues m a → ∃ k subj b, a = issue m k subj b.
Proof.
  destruct 1 as [d l a _ [= <-]|l a [= <-]|d l a _ [= <-]|a [= <-]|t a H|g l a H|l r t a [= <-]|l r t a [= <-]];
    try by do 3 eexists.
  - unfold build_delegation_declaration in H. destruct (validate_constitution _ _); [|done].
    injection H as <-. by do 3 eexists.
  - unfold build_withdrawal in H. apply seq_Ok in H as [_ [= <-]]. by do 3 eexists.
Qed.
Lemma issued_kind_valid m a : member_ok m → issues m a → validate_kind builtin a = Ok tt.
Proof.
  intros [_ _ Hm Hc] Ha.
  assert (con_member (mc_constitution (m_config m)) = me m) as Hme by done.
  destruct Ha as [d l a Hv [= <-]|l a [= <-]|d l a Hv [= <-]|a [= <-]|t a H|g l a H|l r t a [= <-]|l r t a [= <-]].
  - apply valid_declared; [set_solver|done].
  - apply (valid_declared m _ (make_declaration m)); [set_solver|done].
  - apply valid_declared; [set_solver|done].
  - apply (valid_declared m _ (make_declaration m)); [set_solver|done].
  - unfold build_delegation_declaration in H.
    destruct (validate_constitution (with_terms _ _) _) as [[]|] eqn:Hv; [|done]. injection H as <-.
    unfold validate_kind. apply validate_canonical in Hv. apply seq_unit; [exact Hv|]. apply not_differ.
  - unfold build_withdrawal in H. apply seq_Ok in H as [Hne%fail_if_Ok [= <-]].
    apply bool_decide_eq_false in Hne. unfold validate_kind. apply fail_if_Ok, bool_decide_eq_false.
    intros Hnil. by apply Hne, canonicalize_grants_nil, canonicalize_grants_nil.
  - unfold validate_kind. by apply fail_if_Ok.
  - unfold validate_kind. by apply fail_if_Ok.
Qed.
(** C27: the coordinator accepts what its members issue: every artefact that a runtime
    with a valid configuration builds, from a proposal to its own fence, passes the
    validation the coordinator makes of a submission, whatever clock and epoch the
    runtime has cached and under whatever incarnation it was restarted.  A proposal or
    an endorsement does so when the candidate it names has a valid constitution, which
    the runtime does not check ([issues]).  The body must be one that can be encoded, and
    the identifier, sixteen bytes of a SHA-256, not zero. *)
Theorem member_evidence_is_valid c m0 i m a
    (Hcreate : member_create c = Ok m0) (Hconfig : m_config m = m_config (with_incarnation i m0))
    (Ha : issues m a) (Hencodes : Digest_is_zero (artifact_body_digest (body a)) = false)
    (Hid : is_nil (evidence (envelope a)) = false) :
  artifact_validate builtin a = Ok tt ∧
  prov_member (issuer (envelope a)) = con_member (mc_constitution c) ∧
  prov_incarnation (issuer (envelope a)) = i ∧
  art_federation (envelope a) = mc_federation c.
Proof.
  apply created_ok in Hcreate as [[Hf Hn Hm Hc] Heq].
  assert (member_ok m) as Hok by (split; unfold me in *; rewrite Hconfig; done).
  pose proof (issued_kind_valid _ _ Hok Ha) as Hk. destruct (issued_as _ _ Ha) as (k & subj & b & ->).
  split; [by apply issue_valid|]. cbn. rewrite Hconfig. cbn. by rewrite Heq.
Qed.

(** ** The clock of a member *)

(** The epoch the coordinator was last asked for. *)
Definition told (t : N) (r : Result Message) (e : option Epoch) : option Epoch :=
  if t =? MessageType.value MessageType.QueryDigest then
    match m ← r; decode_expected MessageType.DigestValue m with Ok d => Some (dr_epoch d) | Err _ => e end
  else e.
(** Whatever is answered, every artefact that is submitted carries that epoch. *)
Fixpoint up_to_date {A} (e : option Epoch) (cv : Conv A) : Prop :=
  match cv with
  | Return _ => True
  | Exchange t p k =>
      (t = MessageType.value MessageType.SubmitArtifact →
         ∃ a, encode_payload a = Ok p ∧ e = Some (prov_epoch (issuer (envelope a))) ∧
           e = Some (body_epoch (body a))) ∧
      ∀ r, up_to_date (told t r e) (k r)
  end.
Lemma up_to_date_bind {A B} (cv : Conv A) (f : A → Conv B) : ∀ e,
  up_to_date e cv → (∀ a e, up_to_date e (f a)) → up_to_date e (cv ≫= f).
Proof.
  induction cv as [a|t p k IH]; intros e Hcv Hf; [apply Hf|]. destruct Hcv as [Ha Hk]. split; [exact Ha|].
  intros r. by apply IH.
Qed.
(** A request that submits nothing. *)
Lemma request_up_to_date {A B} `{Codec A} e t p x (f : Result A → Conv B) :
  t ≠ MessageType.SubmitArtifact → (∀ a e, up_to_date e (f a)) → up_to_date e (request t p x ≫= f).
Proof.
  intros Ht Hf. apply up_to_date_bind; [|exact Hf]. unfold request. destruct p as [bs|]; [|done].
  split; [|done]. intros Hv. by destruct t.
Qed.

Lemma ask_digest_up_to_date {B} (f : Member * Result DigestResponse → Conv B) m e :
  (∀ w r e', match r with Ok d => e' = Some (dr_epoch d) | Err _ => True end →
     up_to_date e' (f (with_client w m, r))) →
  up_to_date e (ask_digest m ≫= f).
Proof.
  intros Hf. split; [done|]. intros r. apply Hf. unfold told. rewrite N.eqb_refl.
  by destruct (r ≫= _).
Qed.
Lemma refresh_up_to_date {B} (f : Member * Result unit → Conv B) m e :
  (∀ w d, up_to_date (Some (dr_epoch d)) (f (with_clock (dr_logical_time d) (dr_epoch d) true (with_client w m), Ok tt))) →
  (∀ m' s e', up_to_date e' (f (m', Err s))) →
  up_to_date e (refresh_clock m ≫= f).
Proof.
  intros Hok Herr. unfold refresh_clock.
  change (up_to_date e (ask_digest m ≫= λ p, (let '(m, r) := p in
    match r with
    | Err e => Return (with_clock (m_tick m) (m_epoch m) false m, Err e)
    | Ok d => Return (with_clock (dr_logical_time d) (dr_epoch d) true m, Ok tt)
    end) ≫= f)).
  apply ask_digest_up_to_date. intros w [d|s] e' He; [subst e'; apply Hok|apply Herr].
Qed.
Lemma submit_up_to_date m a : body_epoch (body a) = prov_epoch (issuer (envelope a)) →
  up_to_date (Some (prov_epoch (issuer (envelope a)))) (member_submit a m).
Proof.
  intros He. unfold member_submit. destruct (attached m); [|done]. destruct (clock_current m); [|done].
  unfold negb, submit, request. destruct (encode_payload a) as [bs|] eqn:Hbs; [|done].
  split; [intros _; exists a; by rewrite He|]. intros r. destruct (r ≫= _) as [resp|]; [|done].
  by apply refresh_up_to_date.
Qed.
(** A builder that stamps what it builds with the epoch of the runtime. *)
Definition stamps (build : Member → Result Artifact) : Prop := ∀ m a, build m = Ok a →
  prov_epoch (issuer (envelope a)) = m_epoch m ∧ body_epoch (body a) = m_epoch m.
Lemma issue_fresh_up_to_date build m e : stamps build → up_to_date e (issue_fresh build m).
Proof.
  intros Hst. unfold issue_fresh. destruct (attached m) eqn:Hatt.
  - apply refresh_up_to_date; [|done].
    intros w d. set (m' := with_clock _ _ _ _). destruct (build m') as [a|s] eqn:Ha; [|done].
    destruct (Hst m' a Ha) as [Hp Hb]. change (dr_epoch d) with (m_epoch m'). rewrite <-Hp.
    apply submit_up_to_date. congruence.
  - unfold mbind, Conv_bind. destruct (build m) as [a|s]; [|done]. unfold member_submit. by rewrite Hatt.
Qed.

(** The calls of a runtime that talk to the coordinator over its connection.  Those
    that make and end the connection, [attach] and [detach], are apart: the first ends
    in a [refresh_clock] of its own. *)
Inductive MemberCall :=
  | SubmitGiven (a : Artifact) | Restart (i : Incarnation)
  | Propose (d : MemberDeclaration) (l : Lineage) | Accept (l : Lineage) | Endorse (d : MemberDeclaration) (l : Lineage)
  | Reattest | DeclareTerms (t : list DelegationTerms) | Withdraw (g : list ScopeGrant) (l : Lineage) | Leave (l : Lineage)
  | SelfFence (l : Lineage) (reason : N) (text : string)
  | RequestAuthority (i : RequestId) (g : ScopeGrant) (l : LeaseId) | AskDigest | AskStatus
  | RequestLease (g : list ScopeGrant) (e : Epoch) (t : Tick) | Report (o : MemberObservation)
  | Probe (targets : list (PeerTarget * ConnectOs)).
Definition state_after {A} (c : Call A) (m : Member) : Conv Member := p ← c m; Return p.1.
Definition member_run (k : MemberCall) : Member → Conv Member :=
  match k with
  | SubmitGiven a => state_after (member_submit a)
  | Restart i => state_after (restart_with_new_incarnation i)
  | Propose d l => state_after (propose d l)
  | Accept l => state_after (accept l)
  | Endorse d l => state_after (endorse d l)
  | Reattest => state_after reattest
  | DeclareTerms t => state_after (declare_delegation t)
  | Withdraw g l => state_after (withdraw g l)
  | Leave l => state_after (leave l)
  | SelfFence l r t => state_after (self_fence l r t)
  | RequestAuthority i g l => state_after (request_authority i g l)
  | AskDigest => state_after coordinator_digest
  | AskStatus => state_after member_status
  | RequestLease g e t => state_after (request_lease g e t)
  | Report o => state_after (member_report o)
  | Probe l => state_after (probe_peers l)
  end.
Fixpoint member_runs (l : list MemberCall) (m : Member) : Conv Member :=
  match l with [] => Return m | k :: l => m ← member_run k m; member_runs l m end.

Lemma stamps_all :
  (∀ d l, stamps (λ m, build_proposal m d l)) ∧ (∀ l, stamps (λ m, build_acceptance m l)) ∧
  (∀ d l, stamps (λ m, build_endorsement m d l)) ∧ stamps build_reattestation ∧
  (∀ t, stamps (λ m, build_delegation_declaration m t)) ∧ (∀ g l, stamps (λ m, build_withdrawal m g l)) ∧
  (∀ l r t, stamps (λ m, build_leave m l r t)) ∧ (∀ l r t, stamps (λ m, build_self_fence m l r t)).
Proof.
  split_and!; intros; intros m a H; try (injection H as <-; done).
  - unfold build_delegation_declaration in H. destruct (validate_constitution _ _); [|done].
    injection H as <-. done.
  - unfold build_withdrawal in H. apply seq_Ok in H as [_ [= <-]]. done.
Qed.
(** The calls that issue an artefact of their own, and those that submit none. *)
Definition issues_fresh (k : MemberCall) : bool :=
  match k with SubmitGiven _ | Restart _ => false | _ => true end.
Lemma run_up_to_date k m e : issues_fresh k = true → up_to_date e (member_run k m).
Proof.
  destruct stamps_all as (H1 & H2 & H3 & H4 & H5 & H6 & H7 & H8).
  destruct k; intros Hk; try done; cbn [member_run]; apply up_to_date_bind; try done;
    try (by apply issue_fresh_up_to_date).
  - unfold request_authority. destruct (attached m); [|done]. apply ask_digest_up_to_date.
    intros w [d|s] e' _; [|done]. unfold query_authority.
    apply up_to_date_bind; [by apply request_up_to_date|]. intros [x|s] e2; [|done].
    by apply ask_digest_up_to_date.
  - unfold coordinator_digest. destruct (attached m); [|done]. by apply ask_digest_up_to_date.
  - unfold member_status. destruct (attached m); [|done]. apply request_up_to_date; [done|].
    intros [s|s] e'; [|done]. apply ask_digest_up_to_date. by intros w [d|s'] e2 _.
  - unfold request_lease. destruct (attached m); [|done]. unfold issue_lease.
    apply up_to_date_bind; [by apply request_up_to_date|done].
  - unfold member_report. destruct (attached m); [|done]. by apply request_up_to_date.
  - unfold probe_peers. destruct (attached m); [|done]. by apply refresh_up_to_date.
Qed.

(** *** What is submitted, and what a program leaves behind *)

(** The epochs the coordinator answered so far, the last one first. *)
Definition heard (t : N) (r : Result Message) (es : list Epoch) : list Epoch :=
  if t =? MessageType.value MessageType.QueryDigest then
    match m ← r; decode_expected MessageType.DigestValue m with Ok d => dr_epoch d :: es | Err _ => es end
  else es.
(** Whatever is answered, every submission is an artefact of which [P] holds, given the
    epochs heard until then. *)
Fixpoint submissions {A} (P : Artifact → list Epoch → Prop) (es : list Epoch) (cv : Conv A) : Prop :=
  match cv with
  | Return _ => True
  | Exchange t p k =>
      (t = MessageType.value MessageType.SubmitArtifact → ∃ a, encode_payload a = Ok p ∧ P a es) ∧
      ∀ r, submissions P (heard t r es) (k r)
  end.
(** Whatever is answered, [Q] holds of what the program returns. *)
Fixpoint returns {A} (es : list Epoch) (cv : Conv A) (Q : list Epoch → A → Prop) : Prop :=
  match cv with
  | Return a => Q es a
  | Exchange t p k => ∀ r, returns (heard t r es) (k r) Q
  end.

(** What a call may submit from the state [m]: what was handed in, the re-attestation of
    a restart under the epoch the runtime has cached, and for the others an artefact of
    the epoch heard last. *)
Definition carries (e : Epoch) (a : Artifact) : Prop :=
  prov_epoch (issuer (envelope a)) = e ∧ body_epoch (body a) = e.
Definition may_submit (k : MemberCall) (m : Member) (a : Artifact) (es : list Epoch) : Prop :=
  match k with
  | SubmitGiven b => a = b ∧ attached m = true ∧ clock_current m = true
  | Restart i => art_kind (envelope a) = ArtifactKind.MemberReattestation ∧
      prov_incarnation (issuer (envelope a)) = i ∧ carries (m_epoch m) a ∧
      m_epoch m ∈ es ∧ attached m = true ∧ clock_current m = true
  | _ => ∃ e es', es = e :: es' ∧ carries e a
  end.
(** A sequence of calls, each from the state the one before left. *)
Fixpoint calls_submit (l : list MemberCall) (m : Member) (es : list Epoch) : Prop :=
  match l with
  | [] => True
  | k :: l => submissions (may_submit k m) es (member_run k m) ∧
              returns es (member_run k m) (λ es' m', calls_submit l m' es')
  end.

(** A current clock shows an epoch the coordinator answered. *)
Definition clock_heard (es : list Epoch) (m : Member) : Prop :=
  clock_current m = true → m_epoch m ∈ es.

Lemma returns_bind {A B} (cv : Conv A) (f : A → Conv B) Q : ∀ es,
  returns es cv (λ es' a, returns es' (f a) Q) → returns es (cv ≫= f) Q.
Proof. induction cv as [a|t p k IH]; intros es H; [exact H|]. intros r. by apply IH. Qed.
Lemma returns_weaken {A} (cv : Conv A) (Q R : list Epoch → A → Prop) : ∀ es,
  returns es cv Q → (∀ es' a, Q es' a → R es' a) → returns es cv R.
Proof. induction cv as [a|t p k IH]; intros es H HQ; [by apply HQ|]. intros r. by apply IH. Qed.
Lemma heard_sub t r es e : e ∈ es → e ∈ heard t r es.
Proof. unfold heard. destruct (_ =? _); [|done]. destruct (r ≫= _); [by right|done]. Qed.
Lemma request_heard {A} `{Codec A} t p x es m :
  clock_heard es m → returns es (request (A := A) t p x) (λ es' _, clock_heard es' m).
Proof.
  intros Hc. unfold request. destruct p as [bs|]; [|exact Hc]. intros r Hm. by apply heard_sub, Hc.
Qed.
Lemma ask_digest_heard m es :
  clock_heard es m →
  returns es (ask_digest m) (λ es' p, clock_heard es' p.1 ∧
    match p.2 with Ok d => dr_epoch d ∈ es' | Err _ => True end).
Proof.
  intros Hc r. unfold heard. rewrite N.eqb_refl.
  destruct (r ≫= _) as [d|s]; cbn; split; [|left|exact Hc|done]. intros Hm. right. by apply Hc.
Qed.
Lemma refresh_heard m es :
  clock_heard es m → returns es (refresh_clock m) (λ es' p, clock_heard es' p.1).
Proof.
  intros Hc. apply returns_bind. eapply returns_weaken; [by apply ask_digest_heard|].
  intros es' [m' [d|s]] [H1 H2]; [by intros _|done].
Qed.
Lemma submit_heard m a es :
  clock_heard es m → returns es (member_submit a m) (λ es' p, clock_heard es' p.1).
Proof.
  intros Hc. unfold member_submit. destruct (attached m); [|exact Hc].
  destruct (clock_current m) eqn:Ecc; [|exact Hc]. cbn [negb]. apply returns_bind.
  eapply returns_weaken; [by apply (request_heard _ _ _ _ m)|]. intros es' [x|s] H; [|exact H].
  apply returns_bind. eapply returns_weaken; [by apply refresh_heard|]. by intros.
Qed.
Lemma issue_fresh_heard build m es :
  clock_heard es m → returns es (issue_fresh build m) (λ es' p, clock_heard es' p.1).
Proof.
  intros Hc. apply returns_bind.
  assert (returns es (if attached m then refresh_clock m else Return (m, Ok tt))
    (λ es' p, clock_heard es' p.1)) as H by (destruct (attached m); [by apply refresh_heard|exact Hc]).
  eapply returns_weaken; [exact H|]. intros es' [m' [[]|s]] H'; [|exact H'].
  destruct (build m'); [|exact H']. by apply submit_heard.
Qed.
Lemma digest_tick_heard {A} es (p : Member * Result DigestResponse) (x : A) :
  clock_heard es p.1 →
  clock_heard es (match p.2 with Ok d => with_tick (dr_logical_time d) p.1 | Err _ => p.1 end, x).1.
Proof. by destruct p as [m [d|s]]. Qed.
Lemma run_heard k m es : clock_heard es m → returns es (member_run k m) clock_heard.
Proof.
  intros Hc. destruct k; cbn [member_run]; apply returns_bind; try by apply issue_fresh_heard.
  - by apply submit_heard.
  - unfold restart_with_new_incarnation. destruct (negb _); [exact Hc|].
    destruct (build_reattestation _); [|exact Hc]. by apply submit_heard.
  - unfold request_authority. destruct (attached m); [|exact Hc]. apply returns_bind.
    eapply returns_weaken; [by apply ask_digest_heard|]. intros es' [m' [d|s]] [H _]; [|exact H].
    apply returns_bind. unfold query_authority. apply returns_bind.
    eapply returns_weaken; [by apply (request_heard _ _ _ _ m')|]. intros es2 [x|s] H2; [|exact H2].
    cbn [returns]. apply returns_bind. eapply returns_weaken; [by apply ask_digest_heard|].
    intros es3 p [H3 _]. by apply digest_tick_heard.
  - unfold coordinator_digest. destruct (attached m); [|exact Hc]. apply returns_bind.
    eapply returns_weaken; [by apply ask_digest_heard|]. intros es' p [H _]. by apply digest_tick_heard.
  - unfold member_status. destruct (attached m); [|exact Hc]. apply returns_bind.
    eapply returns_weaken; [by apply (request_heard _ _ _ _ m)|]. intros es' [s|s] H; [|exact H].
    apply returns_bind. eapply returns_weaken; [by apply ask_digest_heard|].
    by intros es2 [m' [d|s']] [H2 _].
  - unfold request_lease. destruct (attached m); [|exact Hc]. apply returns_bind. unfold issue_lease.
    apply returns_bind. eapply returns_weaken; [by apply (request_heard _ _ _ _ m)|].
    intros es' x H. exact H.
  - unfold member_report. destruct (attached m); [|exact Hc]. apply returns_bind.
    eapply returns_weaken; [by apply (request_heard _ _ _ _ m)|]. by intros.
  - unfold probe_peers. destruct (attached m); [|exact Hc]. apply returns_bind.
    eapply returns_weaken; [by apply refresh_heard|]. by intros es' [m' [[]|s]] H.
Qed.

(** The state-free form, for the calls that refresh the clock themselves. *)
Lemma head_heard t r es : head (heard t r es) = told t r (head es).
Proof. unfold heard, told. destruct (_ =? _); [|done]. by destruct (r ≫= _). Qed.
Lemma up_to_date_submissions {A} (cv : Conv A) : ∀ es,
  up_to_date (head es) cv → submissions (λ a es, ∃ e es', es = e :: es' ∧ carries e a) es cv.
Proof.
  induction cv as [a|t p k IH]; intros es H; [done|]. destruct H as [Ha Hk]. split.
  - intros Ht. destruct (Ha Ht) as (a & Hp & He & Hb). exists a. split; [exact Hp|].
    destruct es as [|e es]; [done|]. exists e, es. split; [done|]. by injection He; injection Hb.
  - intros r. apply IH. rewrite head_heard. apply Hk.
Qed.
(** A program that submits nothing but possibly [a] first. *)
Lemma submit_submissions P a m es :
  (attached m = true → clock_current m = true → P a es) →
  submissions P es (state_after (member_submit a) m).
Proof.
  intros HP. unfold state_after, member_submit. destruct (attached m); [|done].
  destruct (clock_current m) eqn:Ecc; [|done]. cbn [negb]. unfold submit, request.
  destruct (encode_payload a) as [bs|] eqn:Ea; [|done].
  split; [intros _; exists a; auto|]. intros r. destruct (r ≫= _) as [x|s]; [|done].
  split; [done|]. intros r'. by destruct (r' ≫= _).
Qed.
Lemma run_submissions k m es :
  clock_heard es m → submissions (may_submit k m) es (member_run k m).
Proof.
  intros Hc. destruct (issues_fresh k) eqn:Hk.
  { pose proof (up_to_date_submissions _ es (run_up_to_date k m (head es) Hk)) as H. by destruct k. }
  destruct k as [a|i| | | | | | | | | | | | | | ]; try done; cbn [member_run].
  - by apply submit_submissions.
  - unfold state_after, restart_with_new_incarnation. destruct (negb _); [done|].
    destruct (build_reattestation _) as [a|] eqn:Hb; [|done].
    destruct stamps_all as (_ & _ & _ & Hst & _). destruct (Hst _ _ Hb) as [Hp Hbody].
    apply (submit_submissions _ a (with_incarnation i m)). intros Hatt Hcur.
    injection Hb as <-. split_and!; [done|done|by split|by apply Hc|done|done].
Qed.

(** C11: evidence carries the epoch it should: whatever calls a program makes on a
    runtime, in whatever order, and whatever it is answered, and whatever state the
    runtime begins in, if only an epoch it calls current was answered to it ([es], the
    last first; a new runtime calls none current), each artefact that the
    runtime issues carries, in its envelope and in its body, the epoch of the last
    digest the coordinator answered.  Two calls are different.  [submit] hands on the
    artefact it is given, and only while the clock is current.  The re-attestation of a
    restart carries the epoch the runtime has cached, which is one that the coordinator
    answered, but not always the last ([restart_carries_stale_epoch]). *)
Theorem evidence_carries_told_epoch l : ∀ m es,
  clock_heard es m → calls_submit l m es.
Proof.
  induction l as [|k l IH]; intros m es Hc; [done|]. split; [by apply run_submissions|].
  eapply returns_weaken; [by apply run_heard|]. intros es' m' H. by apply IH.
Qed.
(** The next exchange of a program, and the program after an answer to it. *)
Definition asks {A} (cv : Conv A) : option (N * list byte) :=
  match cv with Exchange t p _ => Some (t, p) | Return _ => None end.
Definition answered_with {A} (r : Result Message) (cv : Conv A) : Conv A :=
  match cv with Exchange _ _ k => k r | Return a => Return a end.
Definition digest_then_restart (i : Incarnation) (m : Member) : Conv Member :=
  m ← member_run AskDigest m; state_after (restart_with_new_incarnation i) m.
Lemma digest_then_restart_eq i m bs d : attached m = true → decode_payload bs = Ok d →
  ∃ m', m' = with_tick (dr_logical_time d) (with_client (with_digest d (m_client m)) m) ∧
  answered_with (Ok (mkMessage (MessageType.value MessageType.DigestValue) bs)) (digest_then_restart i m) =
    state_after (restart_with_new_incarnation i) m'.
Proof.
  intros Hatt Hd. eexists. split; [reflexivity|].
  assert (decode_expected MessageType.DigestValue
    (mkMessage (MessageType.value MessageType.DigestValue) bs) = Ok d) as He.
  { unfold decode_expected. cbn [msg_type msg_payload]. exact Hd. }
  assert (coordinator_digest m = p ← ask_digest m;
    Return (match p.2 with Ok d => with_tick (dr_logical_time d) p.1 | Err _ => p.1 end, p.2)) as Hask.
  { unfold coordinator_digest. by rewrite Hatt. }
  unfold digest_then_restart. cbn [member_run]. unfold state_after. rewrite Hask.
  unfold ask_digest, query_digest, request, no_payload. cbn [answered_with mbind Conv_bind Result_bind].
  rewrite He. reflexivity.
Qed.
(** But the re-attestation of a restart may: [restart_with_new_incarnation] does
    not refresh the clock, and the calls that ask for the digest keep the epoch
    the runtime has.  A member that is told a new epoch and restarts submits a
    re-attestation of the old one. *)
Theorem restart_carries_stale_epoch m i bs d
    (Hatt : attached m = true) (Hclock : clock_current m = true)
    (Hinc : value (mc_incarnation (m_config m)) < value i)
    (Htold : decode_payload bs = Ok d) (Hstale : dr_epoch d ≠ m_epoch m) :
  ∃ a, prov_epoch (issuer (envelope a)) = m_epoch m ∧ prov_epoch (issuer (envelope a)) ≠ dr_epoch d ∧
    art_kind (envelope a) = ArtifactKind.MemberReattestation ∧
    ∀ p, encode_payload a = Ok p →
      asks (answered_with (Ok (mkMessage (MessageType.value MessageType.DigestValue) bs)) (digest_then_restart i m)) =
        Some (MessageType.value MessageType.SubmitArtifact, p).
Proof.
  destruct (digest_then_restart_eq i m bs d Hatt Htold) as (m' & Hm' & ->).
  assert (m_epoch m' = m_epoch m ∧ attached m' = true ∧ clock_current m' = true ∧
    mc_incarnation (m_config m') = mc_incarnation (m_config m)) as (He & Ha & Hc & Hi) by (by subst m').
  destruct (build_reattestation (with_incarnation i m')) as [a|] eqn:Hb; [|done].
  destruct stamps_all as (_ & _ & _ & Hst & _). destruct (Hst _ _ Hb) as [Hp _].
  change (m_epoch (with_incarnation i m')) with (m_epoch m') in Hp.
  exists a. split; [congruence|]. split; [congruence|]. split; [by injection Hb as <-|]. intros p Hpay.
  unfold state_after, restart_with_new_incarnation. rewrite Hi. apply N.ltb_lt in Hinc. rewrite Hinc. cbn [negb].
  rewrite Hb. unfold member_submit. change (attached (with_incarnation i m')) with (attached m').
  change (clock_current (with_incarnation i m')) with (clock_current m'). rewrite Ha, Hc. cbn [negb].
  unfold submit, request. rewrite Hpay. reflexivity.
Qed.

(** ** Probes *)

(** A peer is reported reachable only when it answered: then the connection was
    made and what the peer sent on it begins with the frame of a probe response
    that names the member that was looked for and the incarnation that is
    reported. *)
Theorem reachable_peer_answered m t os x
    (Hx : probe_peer m t os = x) (Hreach : peer_state x = ReachabilityState.Reachable) :
  ∃ s, connect os (pt_endpoint t) = Ok s ∧ peer x = pt_member t ∧
    (handle_valid s = true → ∃ bs rest r,
       stream s = frame_bytes (MessageType.value MessageType.ProbeResult) bs ++ rest ∧
       decode_payload bs = Ok r ∧ pb_member r = pt_member t ∧ pb_incarnation r = peer_incarnation x).
Proof.
  subst x. revert Hreach. unfold probe_peer. destruct (connect os _) as [s|]; [|done]. intros Hreach. exists s.
  split; [done|]. revert Hreach. unfold probe_socket. destruct (encode_payload _) as [hb|]; [|done].
  pose proof (write_message_stream (MessageType.value MessageType.ProbeRequest) hb s) as [Hst Hv].
  destruct (write_message _ hb s) as [s1 [|]]; [|done]. cbn [fst] in Hst, Hv.
  destruct (read_message kDefaultLimit s1) as [s2 [q|]] eqn:Hr; [|done]. unfold read_probe.
  destruct (decode_payload (msg_payload q)) as [r|] eqn:Hd; [|done].
  destruct (N.eqb_spec (msg_type q) (MessageType.value MessageType.ProbeResult)) as [Ht|]; [|done].
  cbn [negb]. case_bool_decide as Hm; [|done]. intros _. split; [done|]. intros Hvalid.
  destruct (read_message_Ok _ _ _ _ (eq_trans Hv Hvalid) default_limit Hr) as (Hs & _ & _).
  exists (msg_payload q), (stream s2), r. split; [|done]. by rewrite <-Ht, <-Hst.
Qed.

(** A probe and the member that answers it agree: there are two strings of bytes
    such that a prober that receives the one sends the other and reports the member
    reachable with its incarnation, and the probe thread of the member answers the
    other with the one.  A probe that names another federation gets no answer. *)
Theorem probe_finds_member m m' h bs
    (Hh : encode_payload (probe_hello m) = Ok h) (Hhok : wire_ok (probe_hello m))
    (Hhsize : size h ≤ kMaxFramePayloadBytes)
    (Hr : encode_payload (probe_response m') = Ok bs) (Hrok : wire_ok (probe_response m'))
    (Hrsize : size bs ≤ kMaxFramePayloadBytes) :
  ∃ requests replies,
    (∀ s, sound_socket s → stream s = replies →
       probe_socket m (me m') s =
         mkPeer (me m') (mc_incarnation (m_config m')) ReachabilityState.Reachable (m_tick m)
           ("reached " +s+ id_to_string (mc_node (m_config m')))) ∧
    ∀ s, sound_socket s → stream s = requests →
      sent (answer_probe m' s) =
        sent s ++ if bool_decide (mc_federation (m_config m) = mc_federation (m_config m')) then replies else [].
Proof.
  exists (frame_bytes (MessageType.value MessageType.ProbeRequest) h),
    (frame_bytes (MessageType.value MessageType.ProbeResult) bs). split; intros s Hs Hst.
  - unfold probe_socket. rewrite Hh.
    destruct (write_sound (MessageType.value MessageType.ProbeRequest) h s Hs Hhsize) as (s1 & -> & Hst1 & Hs1 & _).
    destruct (read_sound kDefaultLimit s1 (mkMessage (MessageType.value MessageType.ProbeResult) bs) [] Hs1 default_limit)
      as (s2 & -> & _); [apply value_known|done|by rewrite app_nil_r, Hst1|].
    unfold read_probe, decode_payload. cbn [msg_type msg_payload]. rewrite (decode_exact_encode _ _ Hrok Hr).
    rewrite N.eqb_refl. cbn [negb]. by rewrite bool_decide_eq_true_2.
  - unfold answer_probe.
    destruct (read_sound kDefaultLimit s (mkMessage (MessageType.value MessageType.ProbeRequest) h) [] Hs default_limit)
      as (s1 & -> & _ & Hs1 & Hsent1); [apply value_known|done|by rewrite app_nil_r|].
    unfold decode_payload. cbn [msg_type msg_payload]. rewrite N.eqb_refl, (decode_exact_encode _ _ Hhok Hh).
    cbn [negb h_federation probe_hello]. case_bool_decide; cbn [negb]; [|by rewrite Hsent1, app_nil_r].
    rewrite Hr. destruct (write_sound (MessageType.value MessageType.ProbeResult) bs s1 Hs1 Hrsize)
      as (s2 & -> & _ & _ & Hsent2). cbn [fst]. by rewrite Hsent2, Hsent1.
Qed.

(** ** Instances *)

Definition a_config : MemberConfig :=
  mkMemberConfig example_federation (decl_constitution founding_party) (mkId (replicate 16 x09)) (mkCounter 1)
    (mkEndpoint "127.0.0.1" 7000) 0 false (mkCounter 1).
Definition a_member : Member := mkMember a_config no_welcome true (mkCounter 1) (mkCounter 1) true false 0.
Definition issued_check (c : MemberConfig) (i : Incarnation) : bool :=
  match member_create c with
  | Ok m =>
      match build_acceptance (with_incarnation i m) zero with
      | Ok a => negb (Digest_is_zero (artifact_body_digest (body a))) && negb (is_nil (evidence (envelope a)))
      | Err _ => false
      end
  | Err _ => false
  end.
Lemma issued_check_true c i : issued_check c i = true →
  ∃ m a, member_create c = Ok m ∧ issues (with_incarnation i m) a ∧
    Digest_is_zero (artifact_body_digest (body a)) = false ∧ is_nil (evidence (envelope a)) = false.
Proof.
  unfold issued_check. destruct (member_create c) as [m|] eqn:Hm; [|done].
  destruct (build_acceptance _ _) as [a|] eqn:Ha; [|done]. rewrite andb_true_iff, !negb_true_iff. intros [Hd He].
  exists m, a. split_and!; try done. by apply (issues_acceptance _ zero).
Qed.
Lemma issued_example : issued_check a_config (mkCounter 2) = true.
Proof. vm_cast_no_check (eq_refl true). Qed.
Lemma member_evidence_is_valid_witness :
  ∃ a, artifact_validate builtin a = Ok tt ∧ art_federation (envelope a) = example_federation.
Proof.
  destruct (issued_check_true _ _ issued_example) as (m & a & Hm & Ha & Hd & Hi). exists a.
  destruct (member_evidence_is_valid a_config m (mkCounter 2) _ a Hm eq_refl Ha Hd Hi) as (Hv & _ & _ & Hf).
  exact (conj Hv Hf).
Defined.

Definition a_digest : DigestResponse := mkDigestResponse Digest_zero (mkCounter 5) (mkCounter 9) 0 0 0 false.
Lemma evidence_carries_told_epoch_witness :
  calls_submit [SubmitGiven (issue a_member ArtifactKind.MemberReattestation (me a_member)
                  (member_body (make_declaration a_member) (member_identity a_member) zero zero [] []
                     Outcome.Unknown no_reason no_reason ""));
                Reattest; Restart (mkCounter 2)] a_member [mkCounter 1].
Proof. apply evidence_carries_told_epoch. intros _. left. Defined.
Lemma restart_carries_stale_epoch_witness :
  ∃ a, prov_epoch (issuer (envelope a)) = mkCounter 1 ∧ prov_epoch (issuer (envelope a)) ≠ dr_epoch a_digest.
Proof.
  destruct (restart_carries_stale_epoch a_member (mkCounter 2) (payload_of a_digest) a_digest eq_refl eq_refl)
    as (a & Hp & Hn & _); [vm_compute; reflexivity|vm_compute; reflexivity|vm_compute; discriminate|].
  exists a. split; [exact Hp|exact Hn].
Defined.

Definition a_response : list byte := payload_of (probe_response a_member).
Definition answering : Socket := receiving (frame_bytes (MessageType.value MessageType.ProbeResult) a_response).
Definition a_target : PeerTarget * ConnectOs :=
  (mkTarget (me a_member) (mkEndpoint "localhost" 7001), mkConnectOs true true true answering).
Lemma probe_example :
  bool_decide (peer_state (probe_peer a_member a_target.1 a_target.2) = ReachabilityState.Reachable) = true.
Proof. vm_cast_no_check (eq_refl true). Qed.
Lemma reachable_peer_answered_witness :
  ∃ s, connect a_target.2 (mkEndpoint "localhost" 7001) = Ok s.
Proof.
  destruct (reachable_peer_answered a_member a_target.1 a_target.2 _ eq_refl
    (bool_decide_eq_true_1 _ probe_example)) as (s & Hs & _). exists s. exact Hs.
Defined.
Lemma probe_payloads :
  encode_payload (probe_hello a_member) = Ok (payload_of (probe_hello a_member)) ∧
  encode_payload (probe_response a_member) = Ok a_response ∧
  small (payload_of (probe_hello a_member)) && small a_response = true.
Proof.
  split_and!; [vm_cast_no_check (eq_refl (encode_payload (probe_hello a_member)))
    |vm_cast_no_check (eq_refl (encode_payload (probe_response a_member)))|vm_cast_no_check (eq_refl true)].
Qed.
Lemma probe_wire_ok : wire_ok (probe_hello a_member) ∧ wire_ok (probe_response a_member).
Proof. split; repeat split; vm_compute; first [reflexivity|discriminate]. Qed.
Lemma two_small a b : small a && small b = true → size a ≤ kMaxFramePayloadBytes ∧ size b ≤ kMaxFramePayloadBytes.
Proof. intros [?%small_true ?%small_true]%andb_true_iff. done. Qed.
Lemma probe_finds_member_witness :
  ∃ replies, peer_state (probe_socket a_member (me a_member) (receiving replies)) = ReachabilityState.Reachable.
Proof.
  destruct probe_payloads as (Hh & Hr & Hs). destruct (two_small _ _ Hs) as [H1 H2].
  destruct (probe_finds_member a_member a_member _ _ Hh (proj1 probe_wire_ok) H1 Hr (proj2 probe_wire_ok) H2)
    as (requests & replies & Hp & _).
  exists replies. exact (f_equal peer_state (Hp (receiving replies) (receiving_sound replies) (stream_receiving replies))).
Defined.
