(* ===== verification/Random.v ===== *)
(** * Pseudo-random numbers

    Models include/fabric_federation/random.hpp and src/random.cpp: the
    xoshiro256** generator with its SplitMix64 seeding, the numbers, bytes and texts
    made from it, and the seeds that the tools print and read back.  The source
    of operating-system entropy is not in these files.  The properties: the state never degenerates, rejection sampling is unbiased,
    a shuffle is a permutation, a printed seed reads back, and the one range that
    is not uniform. *)

From S2P Require Import Prelude Errors Sha256 Text Codec Ids.

(** ** Words *)

Definition w64 (n : N) : N := n mod 2 ^ 64.
(** The parameter [k] is below 64 in every call. *)
Definition rotl (x k : N) : N := N.lor (w64 (N.shiftl x k)) (N.shiftr x (64 - k)).
(** The new state and the value. *)
Definition splitmix64 (state : N) : N * N :=
  let state := w64 (state + 0x9e3779b97f4a7c15) in
  let z := w64 (N.lxor state (N.shiftr state 30) * 0xbf58476d1ce4e5b9) in
  let z := w64 (N.lxor z (N.shiftr z 27) * 0x94d049bb133111eb) in
  (state, N.lxor z (N.shiftr z 31)).

(** ** The generator *)

Record Rng := mkRng { s0 : N; s1 : N; s2 : N; s3 : N; seed : N }.
Definition reseed (seed : N) : Rng :=
  let '(state, a) := splitmix64 seed in
  let '(state, b) := splitmix64 state in
  let '(state, c) := splitmix64 state in
  let '(_, d) := splitmix64 state in
  if (a =? 0) && (b =? 0) && (c =? 0) && (d =? 0) then mkRng 0x9e3779b97f4a7c15 b c d seed
  else mkRng a b c d seed.
(** Every operation of the generator: a result and the next state. *)
Definition Gen (A : Type) : Type := Rng → Rng * A.
#[export] Instance Gen_ret : MRet Gen := λ A a r, (r, a).
#[export] Instance Gen_bind : MBind Gen := λ A B k m r, let '(r, a) := m r in k a r.

Definition next_u64 : Gen N := λ r,
  let result := w64 (rotl (w64 (s1 r * 5)) 7 * 9) in
  let t := w64 (N.shiftl (s1 r) 17) in
  let x2 := N.lxor (s2 r) (s0 r) in
  let x3 := N.lxor (s3 r) (s1 r) in
  let x1 := N.lxor (s1 r) x2 in
  let x0 := N.lxor (s0 r) x3 in
  (mkRng x0 x1 (N.lxor x2 t) (rotl x3 45) (seed r), result).
Definition next_u32 : Gen N := v ← next_u64; mret (N.shiftr v 32).
Definition next_bool : Gen bool := v ← next_u64; mret (negb (N.land v 1 =? 0)).
(** The loop of [below] ends when the generator gives a value outside the rejected
    region, which holds fewer than half of the values; [fuel] bounds the draws. *)
Definition threshold (bound : N) : N := w64 (2 ^ 64 - bound) mod bound.
Fixpoint below_loop (fuel : nat) (bound : N) : Gen (option N) :=
  match fuel with
  | O => mret None
  | S fuel => v ← next_u64; if threshold bound <=? v then mret (Some (v mod bound)) else below_loop fuel bound
  end.
Definition below (fuel : nat) (bound : N) : Gen (option N) :=
  if bound =? 0 then mret (Some 0) else below_loop fuel bound.
Definition range (fuel : nat) (low high : N) : Gen (option N) :=
  if high <=? low then mret (Some low)
  else v ← below fuel (w64 (high - low + 1)); mret ((λ x, w64 (low + x)) <$> v).
(** [static_cast<std::int64_t>]. *)
Definition signed (n : N) : Z := if n <? 2 ^ 63 then Z.of_N n else (Z.of_N n - 2 ^ 64)%Z.
Definition word (z : Z) : N := Z.to_N (z mod 2 ^ 64).
(** [high - low] is a signed subtraction, defined when it does not overflow. *)
Definition range_i64 (fuel : nat) (low high : Z) : Gen (option Z) :=
  if (high <=? low)%Z then mret (Some low)
  else v ← below fuel (w64 (word (high - low) + 1)); mret ((λ x, (low + signed x)%Z) <$> v).

(** ** Bytes and texts *)

(** [n] bytes, eight of each word. *)
Fixpoint fill_bytes (n : nat) (left_ : list byte) : Gen (list byte) :=
  match n with
  | O => mret []
  | S n =>
      match left_ with
      | b :: left_ => l ← fill_bytes n left_; mret (b :: l)
      | [] =>
          v ← next_u64;
          match store_le 8 v with
          | b :: left_ => l ← fill_bytes n left_; mret (b :: l)
          | [] => mret []
          end
      end
  end.
Fixpoint hex_digits (digits : nat) : Gen (list byte) :=
  match digits with
  | O => mret []
  | S digits => v ← next_u64; l ← hex_digits digits; mret (nth (N.to_nat (N.land v 15)) kHexDigits x00 :: l)
  end.
Definition kAlphabet : list byte := bytes_of "abcdefghijklmnopqrstuvwxyz0123456789".
Fixpoint token (fuel length : nat) : Gen (option (list byte)) :=
  match length with
  | O => mret (Some [])
  | S length =>
      v ← below fuel (size kAlphabet);
      l ← token fuel length;
      mret (x ← v; l ← l; Some (nth (N.to_nat x) kAlphabet x00 :: l))
  end.
Definition word_hex (w : N) : list byte :=
  (λ i, nth (N.to_nat (N.land (N.shiftr w (60 - 4 * N.of_nat i)) 15)) kHexDigits x00) <$> seq 0 16.
Definition state_hex (r : Rng) : list byte := word_hex (s0 r) ++ word_hex (s1 r) ++ word_hex (s2 r) ++ word_hex (s3 r).

(** [shuffle]: the loop counts down from the end. *)
Definition exchange_items {A} (i j : nat) (l : list A) : list A :=
  match l !! i, l !! j with
  | Some x, Some y => <[j := x]> (<[i := y]> l)
  | _, _ => l
  end.
Fixpoint shuffle_from {A} (fuel i : nat) (l : list A) : Gen (option (list A)) :=
  match i with
  | O | 1%nat => mret (Some l)
  | S k =>
      v ← below fuel (N.of_nat i);
      match v with
      | Some j => shuffle_from fuel k (exchange_items k (N.to_nat j) l)
      | None => mret None
      end
  end.
Definition shuffle {A} (fuel : nat) (l : list A) : Gen (option (list A)) := shuffle_from fuel (length l) l.

(** ** Seeds *)

Definition digit_of (base : N) (b : byte) : option N :=
  let c := Byte.to_N b in
  let d :=
    if (48 <=? c) && (c <=? 57) then Some (c - 48)
    else if (base =? 16) && (97 <=? c) && (c <=? 102) then Some (c - 97 + 10)
    else if (base =? 16) && (65 <=? c) && (c <=? 70) then Some (c - 65 + 10)
    else None in
  match d with Some d => if base <=? d then None else Some d | None => None end.
Fixpoint parse_digits (base value : N) (l : list byte) : option N :=
  match l with
  | [] => Some value
  | b :: l =>
      d ← digit_of base b;
      if (u64_max - d) / base <? value then None else parse_digits base (value * base + d) l
  end.
Definition parse_seed (text : list byte) : option N :=
  match text with
  | [] => None
  | x30 :: (x78 | x58) :: ((_ :: _) as digits) => parse_digits 16 0 digits
  | _ => parse_digits 10 0 text
  end.

(** ** The state never degenerates *)

Lemma bits_small n w : w < 2 ^ n ↔ ∀ i, n ≤ i → N.testbit w i = false.
Proof.
  split.
  - intros H i Hi. destruct (N.eq_dec w 0) as [->|Hw]; [apply N.bits_0|]. apply N.bits_above_log2.
    apply N.log2_lt_pow2 in H; lia.
  - intros H. destruct (N.eq_dec w 0) as [->|Hw]; [apply N.neq_0_lt_0, N.pow_nonzero; lia|].
    apply N.log2_lt_pow2; [lia|]. apply N.lt_nge. intros Hge. specialize (H _ Hge). by rewrite N.bit_log2 in H.
Qed.
Lemma w64_bits w i : N.testbit (w64 w) i = (i <? 64) && N.testbit w i.
Proof.
  unfold w64. destruct (N.ltb_spec i 64); [by rewrite N.mod_pow2_bits_low|by rewrite N.mod_pow2_bits_high].
Qed.
Lemma rotl_bits x k i : k < 64 →
  N.testbit (rotl x k) i = ((i <? 64) && (k <=? i) && N.testbit x (i - k)) || N.testbit x (i + (64 - k)).
Proof.
  intros Hk. unfold rotl. rewrite N.lor_spec, w64_bits, N.shiftr_spec by lia.
  destruct (N.leb_spec k i); [by rewrite N.shiftl_spec_high', andb_true_r|].
  by rewrite N.shiftl_spec_low, !andb_false_r.
Qed.
Lemma small_w64 w : w64 w < 2 ^ 64.
Proof. apply N.mod_lt. lia. Qed.
Lemma small_lxor a b : a < 2 ^ 64 → b < 2 ^ 64 → N.lxor a b < 2 ^ 64.
Proof. rewrite !bits_small. intros Ha Hb i Hi. by rewrite N.lxor_spec, Ha, Hb. Qed.
Lemma small_rotl x k : 0 < k < 64 → x < 2 ^ 64 → rotl x k < 2 ^ 64.
Proof.
  rewrite !bits_small. intros Hk Hx i Hi. rewrite rotl_bits by lia.
  destruct (N.ltb_spec i 64); [lia|]. apply Hx. lia.
Qed.
Lemma rotl_0 x k : 0 < k < 64 → x < 2 ^ 64 → rotl x k = 0 → x = 0.
Proof.
  intros Hk Hx H. apply N.bits_inj_0. intros i. destruct (N.ltb_spec i 64) as [Hi|Hi]; cycle 1.
  { by apply (proj1 (bits_small 64 x)). }
  destruct (N.ltb_spec i (64 - k)) as [Hlow|Hhigh].
  - assert (N.testbit (rotl x k) (i + k) = false) as Hb by (by rewrite H, N.bits_0).
    rewrite rotl_bits in Hb by lia. apply orb_false_iff in Hb as [Hb _].
    replace (i + k - k) with i in Hb by lia.
    destruct (N.ltb_spec (i + k) 64), (N.leb_spec k (i + k)); lia.
  - assert (N.testbit (rotl x k) (i - (64 - k)) = false) as Hb by (by rewrite H, N.bits_0).
    rewrite rotl_bits in Hb by lia. apply orb_false_iff in Hb as [_ Hb]. by replace (i - (64 - k) + (64 - k)) with i in Hb by lia.
Qed.
(** A word that is its own left shift is zero. *)
Lemma shifted_self x k : 0 < k → x = w64 (N.shiftl x k) → x = 0.
Proof.
  intros Hk Hx. apply N.bits_inj_0. intros i. induction (N.lt_wf_0 i) as [i _ IH].
  rewrite Hx, w64_bits. destruct (N.ltb_spec i k).
  - by rewrite N.shiftl_spec_low, andb_false_r.
  - rewrite N.shiftl_spec_high' by done. rewrite IH by lia. apply andb_false_r.
Qed.

(** Words of 64 bits, not all zero. *)
Definition well_formed (r : Rng) : Prop :=
  s0 r < 2 ^ 64 ∧ s1 r < 2 ^ 64 ∧ s2 r < 2 ^ 64 ∧ s3 r < 2 ^ 64 ∧
  ¬ (s0 r = 0 ∧ s1 r = 0 ∧ s2 r = 0 ∧ s3 r = 0).
Lemma small_splitmix z : (splitmix64 z).2 < 2 ^ 64.
Proof.
  unfold splitmix64. cbn [snd]. apply small_lxor; [apply small_w64|].
  apply bits_small. intros i Hi. rewrite N.shiftr_spec by lia. rewrite w64_bits.
  destruct (N.ltb_spec (i + 31) 64); [lia|done].
Qed.
Lemma reseed_well_formed z : well_formed (reseed z).
Proof.
  unfold reseed. pose proof (small_splitmix z) as Ha.
  destruct (splitmix64 z) as [z1 a]. pose proof (small_splitmix z1) as Hb.
  destruct (splitmix64 z1) as [z2 b]. pose proof (small_splitmix z2) as Hc.
  destruct (splitmix64 z2) as [z3 c]. pose proof (small_splitmix z3) as Hd.
  destruct (splitmix64 z3) as [z4 d]. cbn [snd] in *.
  destruct (N.eqb_spec a 0) as [->|]; [|by split_and!; cbn; try done; naive_solver].
  destruct (N.eqb_spec b 0) as [->|]; [|by split_and!; cbn; try done; naive_solver].
  destruct (N.eqb_spec c 0) as [->|]; [|by split_and!; cbn; try done; naive_solver].
  destruct (N.eqb_spec d 0) as [->|]; [|by split_and!; cbn; try done; naive_solver].
  split_and!; cbn; lia.
Qed.
Lemma next_well_formed r : well_formed r → well_formed (next_u64 r).1.
Proof.
  destruct r as [a b c d z]. unfold well_formed, next_u64. cbn [fst s0 s1 s2 s3].
  intros (Ha & Hb & Hc & Hd & Hn). split_and!; try by auto using small_lxor, small_w64.
  { apply small_rotl; [lia|]. by apply small_lxor. }
  intros (H0 & H1 & H2 & H3). apply Hn.
  apply rotl_0 in H3; [|lia|by apply small_lxor]. apply N.lxor_eq in H0, H1, H2, H3.
  assert (N.lxor c a = 0) as Hca.
  { apply (shifted_self _ 17); [lia|]. by rewrite H2 at 1; rewrite <-H1. }
  rewrite Hca in H1. subst b. rewrite H3 in *. subst d. rewrite N.lxor_0_r in H0. subst a.
  apply N.lxor_eq in Hca. done.
Qed.

(** The generator never degenerates: whatever the seed and however many words
    were drawn, its state is four 64-bit words that are not all zero. *)
Theorem state_never_degenerates z n : well_formed (Nat.iter n (λ r, (next_u64 r).1) (reseed z)).
Proof. induction n; [apply reseed_well_formed|by apply next_well_formed]. Qed.

(** ** Rejection sampling *)

Lemma threshold_eq bound : 0 < bound → bound < 2 ^ 64 → threshold bound = 2 ^ 64 mod bound.
Proof.
  intros H0 H. unfold threshold, w64. rewrite (N.mod_small (2 ^ 64 - bound)) by lia.
  rewrite <-(N.Div0.mod_add (2 ^ 64 - bound) 1 bound). f_equal. lia.
Qed.
Lemma below_loop_value fuel bound : ∀ r r' v, below_loop fuel bound r = (r', Some v) →
  ∃ w, v = w mod bound ∧ threshold bound ≤ w.
Proof.
  induction fuel as [|fuel IH]; intros r r' v H; [done|]. cbn [below_loop] in H.
  unfold mbind, Gen_bind in H. destruct (next_u64 r) as [r1 w].
  destruct (N.leb_spec (threshold bound) w); [|by apply (IH r1 r')]. injection H as _ <-. by exists w.
Qed.
(** Rejection sampling is unbiased: with a bound of at most 64 bits, the words
    that are accepted are a whole number of rounds of the residues, so each number
    below the bound is the result for the same number [q] of words; and more than
    half of all words are accepted, whatever the bound. *)
Theorem sampling_is_unbiased bound (H0 : 0 < bound) (H64 : bound < 2 ^ 64) :
  (∃ q, ∀ v, v < bound → ∃ first, first mod bound = v ∧
     ∀ w, (threshold bound ≤ w < 2 ^ 64 ∧ w mod bound = v) ↔ ∃ k, k < q ∧ w = first + k * bound) ∧
  2 * threshold bound < 2 ^ 64.
Proof.
  rewrite threshold_eq by done. pose proof (N.mod_lt (2 ^ 64) bound ltac:(lia)) as Hlt.
  pose proof (N.div_mod (2 ^ 64) bound ltac:(lia)) as Hdiv.
  set (t := 2 ^ 64 mod bound) in *. set (q := 2 ^ 64 / bound) in *.
  assert (0 < q) as Hq by (unfold q; apply N.div_str_pos; lia). split; [|nia].
  exists q. intros v Hv. exists (if t <=? v then v else v + bound).
  assert (∀ x, (v + x * bound) mod bound = v) as Hmod.
  { intros x. by rewrite N.Div0.mod_add, N.mod_small. }
  split.
  { destruct (t <=? v); [by rewrite N.mod_small|]. by rewrite <-(Hmod 1) at 2; f_equal; lia. }
  intros w. split.
  - intros [Hw Hwv]. pose proof (N.div_mod w bound ltac:(lia)) as Hwd. rewrite Hwv in Hwd.
    destruct (N.leb_spec t v).
    + exists (w / bound). split; [|lia]. apply N.mul_lt_mono_pos_l with bound; lia.
    + assert (w / bound ≠ 0) by (intros Hz; rewrite Hz in Hwd; lia).
      exists (w / bound - 1). split; [|nia]. apply N.mul_lt_mono_pos_l with bound; nia.
  - intros (k & Hk & ->). assert (k * bound + bound ≤ q * bound) by nia. destruct (N.leb_spec t v).
    + split; [lia|apply Hmod].
    + split; [lia|]. replace (v + bound + k * bound) with (v + (k + 1) * bound) by lia. apply Hmod.
Qed.
Lemma below_value fuel bound r r' v : 0 < bound → below fuel bound r = (r', Some v) → v < bound.
Proof.
  intros Hb. unfold below. destruct (N.eqb_spec bound 0); [lia|]. intros H.
  destruct (below_loop_value _ _ _ _ _ H) as (w & -> & _). by apply N.mod_lt.
Qed.

(** A range stays within its ends, except that the range of all words is a
    constant: its span wraps to zero, and [below] answers zero without drawing. *)
Theorem range_exact fuel low high r :
  (low ≤ high → high < 2 ^ 64 → ¬ (low = 0 ∧ high = u64_max) →
     ∀ r' v, range fuel low high r = (r', Some v) → low ≤ v ≤ high) ∧
  range fuel 0 u64_max r = (r, Some 0).
Proof.
  split; [|reflexivity]. intros Hle Hhigh Hfull r' v. unfold range.
  destruct (N.leb_spec high low); [intros [= _ <-]; lia|]. unfold mbind, Gen_bind.
  assert (w64 (high - low + 1) = high - low + 1) as Hspan.
  { unfold w64. apply N.mod_small. unfold u64_max in Hfull. lia. }
  rewrite Hspan. destruct (below fuel (high - low + 1) r) as [r1 [x|]] eqn:Hb; [|done].
  intros [= _ <-]. apply below_value in Hb; [|lia]. unfold w64. rewrite N.mod_small by lia. lia.
Qed.

(** ** Shuffling *)

Lemma exchange_items_perm {A} i j (l : list A) : exchange_items i j l ≡ₚ l.
Proof.
  unfold exchange_items. destruct (l !! i) as [x|] eqn:Hi; [|done]. destruct (l !! j) as [y|] eqn:Hj; [|done].
  by apply Permutation_insert_swap.
Qed.
(** A shuffle loses and repeats nothing. *)
Theorem shuffle_perm {A} fuel (l k : list A) r r' : shuffle fuel l r = (r', Some k) → k ≡ₚ l.
Proof.
  unfold shuffle. generalize (length l) as i. intros i. revert l r.
  induction i as [|i IH]; intros l r H; cbn [shuffle_from] in H; [by injection H as _ <-|].
  destruct i as [|i]; [by injection H as _ <-|]. unfold mbind, Gen_bind in H.
  destruct (below fuel _ r) as [r1 [j|]]; [|done]. rewrite (IH _ _ H). apply exchange_items_perm.
Qed.

(** ** Reading a seed *)

(** The base of a text and its digits. *)
Definition seed_digits (text : list byte) : N * list byte :=
  match text with
  | x30 :: (x78 | x58) :: ((_ :: _) as digits) => (16, digits)
  | _ => (10, text)
  end.
Definition positional (base : N) (ds : list N) : N := foldl (λ v d, v * base + d) 0 ds.
Lemma positional_grows base ds : 0 < base → ∀ v, v ≤ foldl (λ v d, v * base + d) v ds.
Proof.
  intros Hb. induction ds as [|d ds IH]; intros v; cbn [foldl]; [lia|].
  etrans; [|apply IH]. nia.
Qed.
Lemma digit_of_lt base b d : digit_of base b = Some d → d < base.
Proof.
  unfold digit_of. intros H. case_match; [|done]. destruct (N.leb_spec base n); [done|]. by injection H as <-.
Qed.
Lemma quotient_lt a b v : 0 < b → a / b < v ↔ a < v * b.
Proof. intros Hb. pose proof (N.div_mod a b ltac:(lia)). pose proof (N.mod_lt a b ltac:(lia)). nia. Qed.
Lemma parse_digits_Some base l : 0 < base ≤ 16 → ∀ v x, v ≤ u64_max → parse_digits base v l = Some x ↔
  ∃ ds, mapM (digit_of base) l = Some ds ∧ x = foldl (λ v d, v * base + d) v ds ∧ x ≤ u64_max.
Proof.
  intros [Hb H16]. induction l as [|b l IH]; intros v x Hv; cbn [parse_digits mapM].
  - split; [intros [= <-]; by exists []|]. intros (ds & [= <-] & -> & _). done.
  - destruct (digit_of base b) as [d|] eqn:Hd.
    2: { split; [done|]. intros (ds & [=] & _). }
    apply digit_of_lt in Hd. cbn. destruct (N.ltb_spec ((u64_max - d) / base) v) as [Hover|Hfit].
    + apply quotient_lt in Hover; [|done]. split; [done|]. intros (ds & Hds & Hx & Hmax).
      destruct (mapM (digit_of base) l) as [k|]; [|done]. injection Hds as <-. cbn [foldl] in Hx.
      pose proof (positional_grows base k Hb (v * base + d)). unfold u64_max in *. lia.
    + assert (v * base + d ≤ u64_max) as Hnext.
      { apply N.le_ngt. intros Hlt. apply N.le_ngt in Hfit. apply Hfit, quotient_lt; [done|]. unfold u64_max in *. lia. }
      rewrite (IH _ _ Hnext). destruct (mapM (digit_of base) l) as [k|]; cbn; [|naive_solver].
      split.
      * intros (ds & [= <-] & Hx & Hmax). by exists (d :: k).
      * intros (ds & [= <-] & Hx & Hmax). by exists k.
Qed.
Lemma parse_seed_eq text : parse_seed text =
  if nonempty text then parse_digits (seed_digits text).1 0 (seed_digits text).2 else None.
Proof.
  unfold parse_seed, seed_digits. destruct text as [|a [|b [|c l]]]; [done|..]; by repeat case_match; simplify_eq.
Qed.
(** A seed is read exactly: [parse_seed] accepts the non-empty texts of decimal
    digits, and those of hexadecimal digits after "0x" or "0X", whose value fits 64
    bits, and gives that value; everything else is refused, nothing wraps around. *)
Theorem parse_seed_exact text x :
  parse_seed text = Some x ↔
  text ≠ [] ∧ ∃ ds, mapM (digit_of (seed_digits text).1) (seed_digits text).2 = Some ds ∧
    x = positional (seed_digits text).1 ds ∧ x < 2 ^ 64.
Proof.
  rewrite parse_seed_eq. assert (0 < (seed_digits text).1 ≤ 16) as Hbase.
  { unfold seed_digits. by repeat case_match. }
  destruct text as [|b text]; [cbn [nonempty]; naive_solver|].
  change (nonempty (b :: text)) with true. cbv iota.
  rewrite (parse_digits_Some _ _ Hbase) by done. unfold positional.
  replace (2 ^ 64) with (u64_max + 1) by done.
  split.
  - intros (ds & Hds & Hx & Hmax). split; [done|]. exists ds. split_and!; [done|done|lia].
  - intros (_ & ds & Hds & Hx & Hmax). exists ds. split_and!; [done|done|lia].
Qed.
Example seeds_read :
  parse_seed (bytes_of "0x5eed1234c0ffee") = Some 26719310261059566 ∧
  parse_seed (bytes_of "18446744073709551615") = Some u64_max ∧
  parse_seed (bytes_of "18446744073709551616") = None ∧ parse_seed (bytes_of "0x") = None.
Proof. split_and!; vm_compute; reflexivity. Qed.
