(* ===== verification/AppCommon.v ===== *)
(** * The command-line helpers

    Models src/apps/common.cpp: the arguments of the tools, the compact notations
    for grants, delegation terms, capabilities and constitutions, and the rendering
    of a decision.  The properties: splitting loses nothing, numbers with a bound
    are read exactly, what is printed reads back, what is read is canonical, and the
    two numbers that are read without a bound wrap around. *)

From S2P Require Import Prelude Errors Sha256 Text Codec Ids Names Scope Capability Policy Identity.
From S2P Require Import Explanation Lease Partition Evidence Membership Journal State Derivation Authority Json Render.

(** ** Text *)

Definition chars := list byte.
(** The piece before the first separator, and the pieces after it. *)
Fixpoint split (text : chars) (separator : byte) : list chars :=
  match text with
  | [] => [[]]
  | b :: text =>
      if bool_decide (b = separator) then [] :: split text separator
      else match split text separator with
           | piece :: pieces => (b :: piece) :: pieces
           | [] => [[b]]
           end
  end.
Definition is_blank (b : byte) : bool := bool_decide (b = x20) || bool_decide (b = x09).
Fixpoint trim_front (text : chars) : chars :=
  match text with b :: l => if is_blank b then trim_front l else text | [] => [] end.
Definition trim (text : chars) : chars := reverse (trim_front (reverse (trim_front text))).

(** ** Arguments *)

(** [argv] from [first] on; nothing ends the list early. *)
Definition parse_arguments (argv : list string) (first : nat) : list string := drop first argv.
Definition has (raw : list string) (name : string) : bool := bool_decide (name ∈ raw).
(** The loops stop before the last argument, which has no value. *)
Fixpoint get_all (raw : list string) (name : string) : list string :=
  match raw with
  | [] => []
  | x :: rest =>
      match rest with y :: _ => if bool_decide (x = name) then [y] else [] | [] => [] end ++
      get_all rest name
  end.
Definition get (raw : list string) (name fallback : string) : string :=
  default fallback (head (get_all raw name)).
(** One digit of a decimal number. *)
Definition decimal (b : byte) : option N :=
  if is_digit b then Some (Byte.to_N b - 48) else None.
Fixpoint read_u64 (value : N) (text : chars) : option N :=
  match text with
  | [] => Some value
  | b :: text =>
      d ← decimal b;
      if (u64_max - d) / 10 <? value then None else read_u64 (value * 10 + d) text
  end.
Definition get_u64 (raw : list string) (name : string) (fallback : N) : N :=
  let text := get raw name "" in
  if bool_decide (text = ""%string) then fallback else default fallback (read_u64 0 (bytes_of text)).

(** A number of at most 32 bits; the errors are those of its two checks. *)
Fixpoint read_u32 (not_numeric too_large : string) (value : N) (text : chars) : Result N :=
  match text with
  | [] => Ok value
  | b :: text =>
      match decimal b with
      | None => fail ErrorCode.InvalidArgument not_numeric
      | Some d =>
          let value := value * 10 + d in
          fail_if (u32_max <? value) ErrorCode.OutOfRange too_large;;
          read_u32 not_numeric too_large value text
      end
  end.
(** A number that is accumulated in 64 bits without a check. *)
Fixpoint read_wrapping (not_numeric : string) (value : N) (text : chars) : Result N :=
  match text with
  | [] => Ok value
  | b :: text =>
      match decimal b with
      | None => fail ErrorCode.InvalidArgument not_numeric
      | Some d => read_wrapping not_numeric ((value * 10 + d) mod 2 ^ 64) text
      end
  end.

(** ** Lists *)

(** The loop over the items of a list, which skips empty ones. *)
Section items.
Context {A} (read : chars → Result A).
Fixpoint read_each (pieces : list chars) : Result (list A) :=
  match pieces with
  | [] => Ok []
  | p :: pieces =>
      let trimmed := trim p in
      if nonempty trimmed then x ← read trimmed; l ← read_each pieces; Ok (x :: l)
      else read_each pieces
  end.
Definition read_list (text : chars) : Result (list A) :=
  if nonempty text then read_each (split text x2c) else Ok [].
End items.

Definition piece (i : nat) (pieces : list chars) : chars := default [] (pieces !! i).
Definition read_verb (text : chars) : Result AuthorityVerb.t :=
  match parse_verb (text_of text) with
  | Some v => Ok v
  | None => fail ErrorCode.InvalidArgument ("unknown authority verb: " +s+ text_of text)
  end.
Definition read_grant (default_verb : AuthorityVerb.t) (text : chars) : Result ScopeGrant :=
  let parts := split text x3a in
  fail_if (2 <? size parts) ErrorCode.InvalidArgument "a grant is written scope[:verb]";;
  s ← name_parse ScopeIdTag (text_of (piece 0 parts));
  v ← (if size parts =? 2 then read_verb (piece 1 parts) else Ok default_verb);
  Ok (mkGrant s v).
Definition parse_grants (text : chars) (default_verb : AuthorityVerb.t) : Result (list ScopeGrant) :=
  l ← read_list (read_grant default_verb) text; Ok (canonicalize_grants l).

(** The default weight is one, the default deadline none. *)
Definition read_mode (text : chars) : Result DelegationMode.t :=
  if bool_decide (text_of text = "shared"%string) then Ok DelegationMode.Shared
  else if bool_decide (text_of text = "exclusive"%string) then Ok DelegationMode.Exclusive
  else fail ErrorCode.InvalidArgument ("unknown delegation mode: " +s+ text_of text).
Definition read_terms (text : chars) : Result DelegationTerms :=
  let parts := split text x3a in
  fail_if (size parts <? 3) ErrorCode.InvalidArgument
          "delegation terms are written scope:verb:mode[:weight[:not_after]]";;
  s ← name_parse ScopeIdTag (text_of (piece 0 parts));
  v ← read_verb (piece 1 parts);
  m ← read_mode (piece 2 parts);
  w ← (if nonempty (piece 3 parts)
       then read_u32 "delegation weight must be numeric" "delegation weight is out of range" 0 (piece 3 parts)
       else Ok 1);
  t ← (if nonempty (piece 4 parts) then read_wrapping "not_after must be a tick count" 0 (piece 4 parts)
       else Ok 0);
  Ok (mkTerms (mkGrant s v) m w (mkCounter t) (mkName "")).
Definition parse_terms (text : chars) : Result (list DelegationTerms) :=
  l ← read_list read_terms text; Ok (canonicalize_terms l).

Definition read_capability (text : chars) : Result CapabilityStatement :=
  let parts := split text x3a in
  fail_if (size parts <? 2) ErrorCode.InvalidArgument "a capability is written capability:version[:known]";;
  c ← name_parse CapabilityIdTag (text_of (piece 0 parts));
  n ← read_u32 "capability version must be numeric" "capability version is out of range" 0 (piece 1 parts);
  Ok (if bool_decide (text_of (piece 2 parts) = "known"%string)
      then mkStatement c n EvidenceState.Known (hash text)
      else mkStatement c n EvidenceState.Unknown Digest_zero).
Definition parse_capabilities (text : chars) : Result (list CapabilityStatement) :=
  l ← read_list read_capability text; Ok (canonicalize_statements l).

(** ** Constitutions *)

(** [find('=')] and the two [substr]. *)
Fixpoint cut_equals (text : chars) : option (chars * chars) :=
  match text with
  | [] => None
  | b :: text =>
      if bool_decide (b = x3d) then Some ([], text)
      else p ← cut_equals text; Some (b :: p.1, p.2)
  end.
Definition kDefaultCapabilities : chars := bytes_of "federation.protocol.v1:1:known".
(** The constitution before any field is read. *)
Definition initial_constitution (member : MemberId) (domain : FabricDomainId) : MemberConstitution :=
  mkConstitution domain member (mkCounter 1) 1 0 0 [] [] [] [] "member fabric domain".
Definition set_field (c : MemberConstitution) (name value : chars) : Result MemberConstitution :=
  match c with
  | mkConstitution d m g v1 v2 v3 caps reqs ret del desc =>
      if bool_decide (text_of name = "gen"%string) then
        n ← read_wrapping "generation must be numeric" 0 value;
        Ok (mkConstitution d m (mkCounter n) v1 v2 v3 caps reqs ret del desc)
      else if bool_decide (text_of name = "caps"%string) then
        l ← parse_capabilities value;
        Ok (mkConstitution d m g v1 v2 v3 l reqs ret del desc)
      else if bool_decide (text_of name = "retained"%string) then
        l ← parse_grants value AuthorityVerb.Administer;
        Ok (mkConstitution d m g v1 v2 v3 caps reqs l del desc)
      else if bool_decide (text_of name = "delegated"%string) then
        l ← parse_terms value;
        Ok (mkConstitution d m g v1 v2 v3 caps reqs ret l desc)
      else if bool_decide (text_of name = "desc"%string) then
        Ok (mkConstitution d m g v1 v2 v3 caps reqs ret del (text_of value))
      else fail ErrorCode.InvalidArgument ("unknown constitution field: " +s+ text_of name)
  end.
Fixpoint set_fields (c : MemberConstitution) (pieces : list chars) : Result MemberConstitution :=
  match pieces with
  | [] => Ok c
  | p :: pieces =>
      let trimmed := trim p in
      if nonempty trimmed then
        match cut_equals trimmed with
        | None => fail ErrorCode.InvalidArgument "constitution fields are written name=value"
        | Some (name, value) => c ← set_field c (trim name) (trim value); set_fields c pieces
        end
      else set_fields c pieces
  end.
Definition with_default_capabilities (c : MemberConstitution) : MemberConstitution :=
  if nonempty (capabilities c) then c
  else match parse_capabilities kDefaultCapabilities with
       | Ok l => mkConstitution (con_domain c) (con_member c) (con_generation c) (software_major c)
                   (software_minor c) (software_patch c) l (requirements c) (retained c) (delegated c)
                   (con_description c)
       | Err _ => c
       end.
Definition parse_constitution (spec : chars) (member : MemberId) (domain : FabricDomainId) :
    Result MemberConstitution :=
  c ← set_fields (initial_constitution member domain) (split spec x3b);
  let c := with_default_capabilities c in
  fail_if (kMaxTextLength <? str_size (con_description c)) ErrorCode.BoundsExceeded
          "the description is too long";;
  Ok (constitution_canonicalize c).

(** ** Decisions *)

Definition contribution_json (c : Contribution) : JsonWriter → JsonWriter :=
  begin_object >>
  field_text "member" (id_to_string (c_member c)) >>
  field_text "role" (ContributionRole.to_string (c_role c)) >>
  field_number "generation" (value (c_generation c)) >>
  field_number "incarnation" (value (c_incarnation c)) >>
  field_text "constitution_digest" (Digest_to_hex (c_constitution c)) >>
  field_flag "current" (identity_current c) >>
  end_object.
Definition short_conflict_json (c : ConflictRecord) : JsonWriter → JsonWriter :=
  begin_object >>
  field_text "grant" (grant_to_string (conflict_grant c)) >>
  field_text "kind" (ConflictKind.to_string (kind c)) >>
  field_text "detail" (detail c) >>
  end_object.
Definition explanation_json (e : Explanation) : JsonWriter → JsonWriter :=
  begin_object >>
  field_text "evidence" (EvidenceState.to_string (e_evidence e)) >>
  field_text "summary" (e_summary e) >>
  key "reasons" >> begin_array >> each reason_json (reasons e) >> end_array >>
  key "contributors" >> begin_array >> each contribution_json (contributions e) >> end_array >>
  key "conflicts" >> begin_array >> each short_conflict_json (conflicts e) >> end_array >>
  end_object.
Definition decision_json (d : AuthorityDecision) : JsonWriter → JsonWriter :=
  begin_object >>
  field_text "outcome" (Outcome.to_string (ad_outcome d)) >>
  field_text "request" (id_to_string (ad_request d)) >>
  field_text "grant" (grant_to_string (ad_requested d)) >>
  field_text "lifecycle" (MemberLifecycleState.to_string (ad_lifecycle d)) >>
  field_number "epoch_seen" (value (ad_epoch_seen d)) >>
  field_number "epoch_current" (value (epoch_current d)) >>
  field_number "decided_at" (value (ad_decided_at d)) >>
  field_number "actor_generation" (value (idn_generation (actor_declared d))) >>
  field_number "actor_incarnation" (value (idn_incarnation (actor_declared d))) >>
  field_text "actor_digest" (Digest_to_hex (idn_constitution (actor_declared d))) >>
  field_number "current_generation" (value (idn_generation (actor_current d))) >>
  field_number "current_incarnation" (value (idn_incarnation (actor_current d))) >>
  field_text "current_digest" (Digest_to_hex (idn_constitution (actor_current d))) >>
  render_strings "effective_authority" grant_to_string (effective_authority d) >>
  key "explanation" >> explanation_json (explanation d) >>
  field_text "decision_digest" (Digest_to_hex (decision_digest d)) >>
  end_object.
Definition render_decision (d : AuthorityDecision) (json : bool) : string :=
  if json then text_of (out (decision_json d (json_writer true)))
  else render_explanation (explanation d).

(** ** Splitting *)

Fixpoint joined (separator : byte) (pieces : list chars) : chars :=
  match pieces with
  | [] => []
  | [p] => p
  | p :: pieces => p ++ separator :: joined separator pieces
  end.
Lemma split_nonempty text c : split text c ≠ [].
Proof. destruct text; cbn; repeat case_match; done. Qed.
Lemma joined_cons c p pieces : pieces ≠ [] → joined c (p :: pieces) = p ++ c :: joined c pieces.
Proof. by destruct pieces. Qed.
Lemma joined_split text c : joined c (split text c) = text.
Proof.
  induction text as [|b text IH]; [done|]. cbn [split]. pose proof (split_nonempty text c) as Hne.
  case_bool_decide; subst.
  - rewrite joined_cons by done. by rewrite IH.
  - destruct (split text c) as [|p [|q l]]; [done|..]; cbn in *; by rewrite <-IH.
Qed.
Lemma split_pieces text c : Forall (λ p, c ∉ p) (split text c).
Proof.
  induction text as [|b text IH]; cbn [split]; [constructor; [apply not_elem_of_nil|done]|].
  case_bool_decide; [constructor; [apply not_elem_of_nil|done]|].
  destruct (split text c) as [|p l]; [repeat constructor; set_solver|].
  apply Forall_cons in IH as [Hp Hl]. constructor; [set_solver|done].
Qed.
Lemma split_plain p c : c ∉ p → split p c = [p].
Proof.
  induction p as [|b p IH]; [done|]. intros Hp. cbn [split]. rewrite bool_decide_false by set_solver.
  by rewrite IH by set_solver.
Qed.
Lemma split_first p c text : c ∉ p → split (p ++ c :: text) c = p :: split text c.
Proof.
  induction p as [|b p IH]; intros Hp; cbn [split app].
  - by rewrite bool_decide_true.
  - rewrite bool_decide_false by set_solver. by rewrite IH by set_solver.
Qed.
Lemma split_joined c pieces : pieces ≠ [] → Forall (λ p, c ∉ p) pieces → split (joined c pieces) c = pieces.
Proof.
  intros Hne H. induction H as [|p l Hp Hl IH]; [done|]. destruct l as [|q l]; [by apply split_plain|].
  rewrite joined_cons by done. by rewrite split_first, IH.
Qed.
(** Splitting loses nothing and cuts at every separator: the pieces joined
    again are the text, no piece holds the separator, and they are the only pieces
    of that kind. *)
Theorem split_exact text separator :
  joined separator (split text separator) = text ∧
  (∀ p, p ∈ split text separator → separator ∉ p) ∧
  (∀ pieces, pieces ≠ [] → (∀ p, p ∈ pieces → separator ∉ p) → joined separator pieces = text →
     split text separator = pieces).
Proof.
  split_and!; [apply joined_split|by apply Forall_forall, split_pieces|].
  intros pieces Hne Hp <-. apply split_joined; [done|by apply Forall_forall].
Qed.

Lemma trim_front_plain p : x20 ∉ p → x09 ∉ p → trim_front p = p.
Proof.
  destruct p as [|b p]; [done|]. intros H1 H2. cbn [trim_front]. unfold is_blank.
  by rewrite !bool_decide_false by set_solver.
Qed.
Lemma trim_plain p : x20 ∉ p → x09 ∉ p → trim p = p.
Proof.
  intros H1 H2. unfold trim. rewrite (trim_front_plain p), (trim_front_plain (reverse p)), reverse_involutive;
    try done; by rewrite elem_of_reverse.
Qed.
Lemma trim_space p : trim (x20 :: p) = trim p.
Proof. done. Qed.

(** ** Numbers *)

(** The digits of a text and their value. *)
Definition decimals (text : chars) : option (list N) := mapM decimal text.
Definition value_from (v : N) (ds : list N) : N := foldl (λ v d, v * 10 + d) v ds.
Lemma decimal_lt b d : decimal b = Some d → d < 10.
Proof.
  unfold decimal, is_digit. destruct (N.leb_spec 48 (Byte.to_N b)), (N.leb_spec (Byte.to_N b) 57); try done.
  intros [= <-]. lia.
Qed.
Lemma value_from_le ds : ∀ v, v ≤ value_from v ds.
Proof.
  induction ds as [|d ds IH]; intros v; [done|]. change (v ≤ value_from (v * 10 + d) ds).
  specialize (IH (v * 10 + d)). lia.
Qed.
Lemma decimals_cons b text : decimals (b :: text) = (d ← decimal b; ds ← decimals text; Some (d :: ds)).
Proof. done. Qed.
Lemma read_u64_exact text : ∀ v, v ≤ u64_max →
  read_u64 v text = (ds ← decimals text; if value_from v ds <=? u64_max then Some (value_from v ds) else None).
Proof.
  induction text as [|b text IH]; intros v Hv; cbn [read_u64].
  { cbn. by rewrite (proj2 (N.leb_le _ _) Hv). }
  rewrite decimals_cons. destruct (decimal b) as [d|] eqn:Hd; [|done]. apply decimal_lt in Hd. cbn [mbind option_bind].
  destruct (N.ltb_spec ((u64_max - d) / 10) v) as [Ho|Ho].
  - destruct (decimals text) as [ds|]; [|done]. cbn [mbind option_bind].
    change (value_from v (d :: ds)) with (value_from (v * 10 + d) ds).
    pose proof (value_from_le ds (v * 10 + d)). destruct (N.leb_spec (value_from (v * 10 + d) ds) u64_max); [|done].
    pose proof (N.div_mod (u64_max - d) 10 ltac:(lia)). pose proof (N.mod_lt (u64_max - d) 10 ltac:(lia)).
    unfold u64_max in *. lia.
  - rewrite IH; [by destruct (decimals text)|].
    pose proof (N.Div0.mul_div_le (u64_max - d) 10). unfold u64_max in *. lia.
Qed.
Lemma read_u32_exact m1 m2 text : ∀ v, v ≤ u32_max →
  (∀ n, read_u32 m1 m2 v text = Ok n ↔ ∃ ds, decimals text = Some ds ∧ n = value_from v ds ∧ n ≤ u32_max).
Proof.
  induction text as [|b text IH]; intros v Hv n; cbn [read_u32].
  { split; [intros [= <-]; by exists []|]. by intros (ds & [= <-] & -> & _). }
  rewrite decimals_cons. destruct (decimal b) as [d|]; cbn [mbind option_bind]; [|split; [done|by intros (? & ? & _)]].
  unfold fail_if. destruct (N.ltb_spec u32_max (v * 10 + d)) as [Ho|Ho]; cbn.
  - split; [done|]. intros (ds & Hds & -> & Hle). destruct (decimals text) as [k|]; [|done]. injection Hds as <-.
    pose proof (value_from_le k (v * 10 + d)). change (value_from (v * 10 + d) k ≤ u32_max) in Hle. lia.
  - rewrite IH by done. destruct (decimals text) as [k|]; cbn; [|naive_solver].
    split; [intros (ds & [= <-] & Hn)|intros (ds & [= <-] & Hn)]; eexists; split; try done; exact Hn.
Qed.
Lemma read_wrapping_exact m text : ∀ v n, v < 2 ^ 64 →
  read_wrapping m v text = Ok n ↔ ∃ ds, decimals text = Some ds ∧ n = value_from v ds mod 2 ^ 64.
Proof.
  induction text as [|b text IH]; intros v n Hv; cbn [read_wrapping].
  { split.
    - intros [= <-]. exists []. split; [done|]. by rewrite N.mod_small.
    - intros (ds & [= <-] & ->). by rewrite N.mod_small. }
  rewrite decimals_cons. destruct (decimal b) as [d|]; cbn [mbind option_bind]; [|split; [done|by intros (? & ? & _)]].
  rewrite IH by (apply N.mod_lt; lia). assert (∀ ds x, value_from (x mod 2 ^ 64) ds mod 2 ^ 64 = value_from x ds mod 2 ^ 64) as Hmod.
  { induction ds as [|e ds IHds]; intros x; [apply N.Div0.mod_mod|].
    change (value_from (x mod 2 ^ 64 * 10 + e) ds mod 2 ^ 64 = value_from (x * 10 + e) ds mod 2 ^ 64).
    rewrite <-IHds, <-(IHds (x * 10 + e)). do 2 f_equal.
    by rewrite <-N.Div0.add_mod_idemp_l, N.Div0.mul_mod_idemp_l, N.Div0.add_mod_idemp_l. }
  destruct (decimals text) as [k|]; cbn; [|naive_solver].
  split; intros (ds & [= <-] & ->); eexists; split; try done; by rewrite Hmod.
Qed.
(** The numbers of the command line: an argument and a weight are exact, and
    what does not fit is refused, by the fallback or by an error; a deadline and a
    generation are the value modulo 2^64, so that the deadline 2^64 is read as
    zero, which means that the delegation never expires. *)
Theorem numbers_read text :
  (∀ raw name fallback, get raw name "" = text_of text → text ≠ [] →
     get_u64 raw name fallback =
       match decimals text with
       | Some ds => if value_from 0 ds <=? u64_max then value_from 0 ds else fallback
       | None => fallback
       end) ∧
  (∀ m1 m2 n, read_u32 m1 m2 0 text = Ok n ↔ ∃ ds, decimals text = Some ds ∧ n = value_from 0 ds ∧ n ≤ u32_max) ∧
  (∀ m n, read_wrapping m 0 text = Ok n ↔ ∃ ds, decimals text = Some ds ∧ n = value_from 0 ds mod 2 ^ 64).
Proof.
  split_and!; [|intros m1 m2; by apply read_u32_exact|intros m n; by apply read_wrapping_exact].
  intros raw name fallback Hget Hne. unfold get_u64. rewrite Hget.
  assert (bytes_of (text_of text) = text) as Hb by apply String.list_byte_of_string_of_list_byte.
  rewrite bool_decide_false by (intros Hz; by rewrite Hz in Hb).
  rewrite Hb, read_u64_exact by done. destruct (decimals text) as [ds|]; [|done]. cbn.
  by destruct (value_from 0 ds <=? u64_max).
Qed.
Example deadline_wraps :
  match parse_terms (bytes_of "fabric.a:write:shared:1:18446744073709551616") with
  | Ok l => (λ t, value (not_after_ t)) <$> l
  | Err _ => [1]
  end = [0].
Proof. vm_compute. reflexivity. Qed.

(** ** Grants *)

(** The bytes of a name. *)
Definition written (b : byte) : bool := name_char b || bool_decide (b = star) || bool_decide (b = dot).
Lemma scan_written wild l : ∀ start, scan wild start l = true → Forall (λ b, written b = true) l.
Proof.
  unfold written. induction l as [|c l IH]; intros start; cbn [scan]; [by constructor|]. case_decide as Hs.
  { rewrite !andb_true_iff. intros (_ & Hl). apply bool_decide_eq_true in Hl as ->. subst. by repeat constructor. }
  case_decide as Hd; rewrite andb_true_iff; intros [Hc Hl]; constructor; eauto.
  - subst. done.
  - by rewrite Hc.
Qed.
Lemma valid_written t text : valid_name t text = true → Forall (λ b, written b = true) (bytes_of text).
Proof.
  unfold valid_name. rewrite !andb_true_iff. intros [[_ Hv] _].
  destruct (scan_segments (kAllowWildcard t) (bytes_of text)) as [Hscan _]. rewrite <-Hscan in Hv.
  by eapply scan_written.
Qed.
Lemma written_excludes l b : Forall (λ b, written b = true) l → written b = false → b ∉ l.
Proof. intros Hl Hb Hin. rewrite Forall_forall in Hl. specialize (Hl _ Hin). congruence. Qed.
Lemma bytes_of_app s t : bytes_of (s +s+ t) = bytes_of s ++ bytes_of t.
Proof. unfold bytes_of, String.list_byte_of_string. rewrite <-map_app. f_equal. induction s as [|c s IH]; simpl; [done|by rewrite IH]. Qed.

Definition written_grant (g : ScopeGrant) : chars := bytes_of (grant_to_string g).
Lemma written_grant_eq g :
  written_grant g = bytes_of (str (scope g)) ++ x3a :: bytes_of (AuthorityVerb.to_string (verb g)).
Proof. unfold written_grant, grant_to_string. by rewrite !bytes_of_app. Qed.
(** Neither a name nor a verb holds a separator. *)
Lemma written_grant_excludes g b : is_valid ScopeIdTag (str (scope g)) = true →
  written b = false → b ≠ x3a → b ∉ written_grant g.
Proof.
  intros Hv Hb Hcolon. rewrite written_grant_eq. rewrite elem_of_app, elem_of_cons. intros [Hin|[->|Hin]].
  - unfold is_valid in Hv. destruct (name_parse _ _) as [n|] eqn:Hn; [|done].
    apply name_parse_valid in Hn as [_ Hn%valid_written]. by apply (written_excludes _ _ Hn Hb).
  - done.
  - revert Hin. apply written_excludes; [|done]. by destruct (verb g); vm_compute; repeat constructor.
Qed.
Lemma text_bytes s : text_of (bytes_of s) = s.
Proof. apply string_bytes_of. Qed.
Lemma parse_verb_to_string v : parse_verb (AuthorityVerb.to_string v) = Some v.
Proof. by destruct v. Qed.
Lemma read_grant_written dv g : is_valid ScopeIdTag (str (scope g)) = true → read_grant dv (written_grant g) = Ok g.
Proof.
  intros Hv. unfold read_grant. rewrite written_grant_eq. rewrite split_first, split_plain; cycle 1.
  - by destruct (verb g); vm_compute; set_solver.
  - unfold is_valid in Hv. destruct (name_parse _ _) as [n|] eqn:Hn; [|done].
    apply name_parse_valid in Hn as [_ Hn%valid_written]. by apply (written_excludes _ _ Hn).
  - change (piece 0 [?a; ?b]) with a. cbn [piece]. unfold piece. cbn.
    rewrite !text_bytes, (name_parse_wire _ _ Hv). cbn.
    unfold read_verb. rewrite text_bytes, parse_verb_to_string. by destruct g.
Qed.
Lemma written_grant_nonempty g : ∃ b l, written_grant g = b :: l.
Proof. rewrite written_grant_eq. destruct (bytes_of (str (scope g))); cbn; eauto. Qed.
(** The pieces of the rendered list between its commas. *)
Definition spaced (gs : list ScopeGrant) : list chars :=
  match gs with [] => [] | g :: gs => written_grant g :: ((λ g, x20 :: written_grant g) <$> gs) end.
Lemma bytes_of_grants gs : bytes_of (String.concat ", " (grant_to_string <$> gs)) = joined x2c (spaced gs).
Proof.
  destruct gs as [|g gs]; [done|]. cbn [spaced]. revert g. induction gs as [|h gs IH]; intros g; [done|].
  rewrite !fmap_cons. rewrite joined_cons by done.
  change (String.concat ", " (?a :: ?b :: ?l)) with (a +s+ ", " +s+ String.concat ", " (b :: l)).
  specialize (IH h). rewrite fmap_cons in IH. rewrite !bytes_of_app, IH.
  change (bytes_of ", ") with [x2c; x20]. by destruct gs.
Qed.
Lemma spaced_excludes gs : Forall (λ g, is_valid ScopeIdTag (str (scope g)) = true) gs →
  Forall (λ p, x2c ∉ p) (spaced gs).
Proof.
  destruct 1 as [|g gs Hg Hvalid]; cbn [spaced]; constructor; [by apply written_grant_excludes|].
  apply Forall_fmap. eapply Forall_impl; [exact Hvalid|]. intros h Hh. cbn. rewrite not_elem_of_cons.
  split; [done|by apply written_grant_excludes].
Qed.
Lemma render_grants_bytes gs : gs ≠ [] →
  bytes_of (render_grants gs) = joined x2c (spaced gs) ∧ nonempty (joined x2c (spaced gs)) = true.
Proof.
  intros Hne. assert (nonempty (joined x2c (spaced gs)) = true) as Hj.
  { destruct gs as [|g gs]; [done|]. destruct (written_grant_nonempty g) as (b & l & Hb).
    cbn [spaced]. rewrite Hb. by destruct gs. }
  split; [|done]. rewrite <-bytes_of_grants. unfold render_grants. case_decide as He; [|done].
  rewrite <-bytes_of_grants, He in Hj. done.
Qed.
Lemma read_piece dv g pre pieces : is_valid ScopeIdTag (str (scope g)) = true → pre = [] ∨ pre = [x20] →
  read_each (read_grant dv) ((pre ++ written_grant g) :: pieces) = (l ← read_each (read_grant dv) pieces; Ok (g :: l)).
Proof.
  intros Hg Hpre. cbn [read_each]. assert (trim (pre ++ written_grant g) = written_grant g) as ->.
  { assert (trim (written_grant g) = written_grant g) as Ht by (apply trim_plain; by apply written_grant_excludes).
    by destruct Hpre as [->| ->]. }
  rewrite (read_grant_written _ _ Hg). destruct (written_grant_nonempty g) as (b & l & ->). done.
Qed.
Lemma read_spaced dv gs : Forall (λ g, is_valid ScopeIdTag (str (scope g)) = true) gs →
  read_each (read_grant dv) (spaced gs) = Ok gs.
Proof.
  destruct 1 as [|g gs Hg Hv]; [done|]. cbn [spaced].
  rewrite (read_piece dv g []) by (done || by left).
  assert (read_each (read_grant dv) ((λ g, x20 :: written_grant g) <$> gs) = Ok gs) as ->; [|done].
  induction Hv as [|h gs Hh Hv IH]; [done|]. rewrite fmap_cons.
  rewrite (read_piece dv h [x20]) by (done || by right). by rewrite IH.
Qed.
(** What the tools print they can read: the text that renders grants with valid
    scopes parses to the same grants in canonical order, whatever the default verb. *)
Theorem grants_read_back dv gs
    (Hne : gs ≠ []) (Hvalid : Forall (λ g, is_valid ScopeIdTag (str (scope g)) = true) gs) :
  parse_grants (bytes_of (render_grants gs)) dv = Ok (canonicalize_grants gs).
Proof.
  unfold parse_grants, read_list. destruct (render_grants_bytes gs Hne) as [-> ->].
  rewrite split_joined; [|by destruct gs|by apply spaced_excludes]. by rewrite read_spaced.
Qed.
Lemma grants_read_back_witness :
  parse_grants (bytes_of "fabric.b:write, fabric.a.*:observe") AuthorityVerb.Observe =
  Ok [mkGrant (mkName "fabric.a.*") AuthorityVerb.Observe; mkGrant (mkName "fabric.b") AuthorityVerb.Write].
Proof.
  exact (grants_read_back AuthorityVerb.Observe
           [mkGrant (mkName "fabric.b") AuthorityVerb.Write; mkGrant (mkName "fabric.a.*") AuthorityVerb.Observe]
           ltac:(done) ltac:(by repeat constructor)).
Defined.

(** ** Constitutions *)

Lemma read_each_Ok {A} (read : chars → Result A) (P : A → Prop) pieces l :
  (∀ p a, read p = Ok a → P a) → read_each read pieces = Ok l → Forall P l.
Proof.
  intros HP. revert l. induction pieces as [|p pieces IH]; intros l; cbn [read_each]; [by intros [= <-]|].
  destruct (nonempty (trim p)); [|by apply IH]. rewrite bind_Ok. intros (a & Ha & H).
  apply bind_Ok in H as (k & Hk & [= <-]). constructor; eauto.
Qed.
Lemma read_list_Ok {A} (read : chars → Result A) (P : A → Prop) text l :
  (∀ p a, read p = Ok a → P a) → read_list read text = Ok l → Forall P l.
Proof.
  intros HP. unfold read_list. destruct (nonempty text); [by apply read_each_Ok|]. by intros [= <-].
Qed.
Lemma Forall_sort_unique {A} `{Cmp A, EqDecision A} (P : A → Prop) l : Forall P l → Forall P (sort_unique l).
Proof.
  intros HP. apply Forall_forall. intros x Hx. rewrite elem_of_sort_unique in Hx.
  by apply (proj1 (Forall_forall P l) HP).
Qed.
Lemma parsed_valid t text n : name_parse t text = Ok n → is_valid t (str n) = true.
Proof. intros Hn. pose proof Hn as Hv. apply name_parse_valid in Hv as [Hs _]. unfold is_valid. by rewrite Hs, Hn. Qed.
Lemma read_u32_fits m1 m2 text n : read_u32 m1 m2 0 text = Ok n → n ≤ u32_max.
Proof. intros H. by apply (read_u32_exact m1 m2 text 0 ltac:(done) n) in H as (_ & _ & _ & H). Qed.
Lemma read_wrapping_fits m text n : read_wrapping m 0 text = Ok n → n ≤ u64_max.
Proof.
  intros H. apply (read_wrapping_exact m text 0 n ltac:(done)) in H as (ds & _ & ->).
  pose proof (N.mod_lt (value_from 0 ds) (2 ^ 64) ltac:(done)). unfold u64_max. lia.
Qed.
Lemma read_grant_ok dv p g : read_grant dv p = Ok g → wire_ok g.
Proof.
  unfold read_grant. rewrite !bind_Ok. intros (_ & _ & H). apply bind_Ok in H as (s & Hs & H).
  apply bind_Ok in H as (v & _ & [= <-]). right. by apply parsed_valid in Hs.
Qed.
Lemma read_capability_ok p s : read_capability p = Ok s → wire_ok s.
Proof.
  unfold read_capability. rewrite !bind_Ok. intros (_ & _ & H). apply bind_Ok in H as (c & Hc & H).
  apply bind_Ok in H as (n & Hn & [= <-]). apply read_u32_fits in Hn. apply parsed_valid in Hc.
  case_bool_decide; split_and!; try done. cbn. apply length_hash.
Qed.
Lemma read_terms_ok p t : read_terms p = Ok t → wire_ok t.
Proof.
  unfold read_terms. rewrite !bind_Ok. intros (_ & _ & H). apply bind_Ok in H as (s & Hs & H).
  apply bind_Ok in H as (v & _ & H). apply bind_Ok in H as (m & _ & H).
  apply bind_Ok in H as (w & Hw & H). apply bind_Ok in H as (n & Hn & [= <-]).
  apply parsed_valid in Hs. split_and!; cbn; [by right| | |by left].
  - destruct (nonempty _); [by apply read_u32_fits in Hw|by injection Hw as <-].
  - clear Hw. destruct (nonempty _); [by apply read_wrapping_fits in Hn|by injection Hn as <-].
Qed.
(** What has been read so far encodes, up to the lengths of its lists. *)
Definition fields_ok (member : MemberId) (domain : FabricDomainId) (c : MemberConstitution) : Prop :=
  con_member c = member ∧ con_domain c = domain ∧ wire_ok (con_generation c) ∧
  (software_major c, software_minor c, software_patch c) = (1, 0, 0) ∧ requirements c = [] ∧
  Forall wire_ok (capabilities c) ∧ Forall wire_ok (retained c) ∧ Forall wire_ok (delegated c).
Lemma parse_grants_ok text dv l : parse_grants text dv = Ok l → Forall wire_ok l.
Proof.
  unfold parse_grants. rewrite bind_Ok. intros (k & Hk & [= <-]).
  by apply Forall_sort_unique, (read_list_Ok _ _ _ _ (read_grant_ok dv) Hk).
Qed.
Lemma parse_terms_ok text l : parse_terms text = Ok l → Forall wire_ok l.
Proof.
  unfold parse_terms. rewrite bind_Ok. intros (k & Hk & [= <-]).
  by apply Forall_sort_unique, (read_list_Ok _ _ _ _ read_terms_ok Hk).
Qed.
Lemma parse_capabilities_ok text l : parse_capabilities text = Ok l → Forall wire_ok l.
Proof.
  unfold parse_capabilities. rewrite bind_Ok. intros (k & Hk & [= <-]).
  by apply Forall_sort_unique, (read_list_Ok _ _ _ _ read_capability_ok Hk).
Qed.
Lemma set_field_ok m d c name v c' : set_field c name v = Ok c' → fields_ok m d c → fields_ok m d c'.
Proof.
  unfold set_field. destruct c as [d0 m0 g v1 v2 v3 caps reqs ret del desc].
  intros H (Hm & Hd & Hg & Hv & Hr & Hcaps & Hret & Hdel). cbn in Hm, Hd, Hv, Hr, Hcaps, Hret, Hdel.
  repeat (case_bool_decide; [|]).
  - apply bind_Ok in H as (n & Hn & [= <-]). split_and!; try done. by apply read_wrapping_fits in Hn.
  - apply bind_Ok in H as (l & Hl & [= <-]). split_and!; try done. by apply parse_capabilities_ok in Hl.
  - apply bind_Ok in H as (l & Hl & [= <-]). split_and!; try done. by apply parse_grants_ok in Hl.
  - apply bind_Ok in H as (l & Hl & [= <-]). split_and!; try done. by apply parse_terms_ok in Hl.
  - injection H as <-. by split_and!.
  - done.
Qed.
Lemma set_fields_ok m d pieces : ∀ c c', set_fields c pieces = Ok c' → fields_ok m d c → fields_ok m d c'.
Proof.
  induction pieces as [|p pieces IH]; intros c c'; cbn [set_fields]; [by intros [= <-]|].
  destruct (nonempty (trim p)); [|by apply IH]. destruct (cut_equals (trim p)) as [[name v]|]; [|done].
  rewrite bind_Ok. intros (c1 & Hc1 & H) Hok. eapply IH; [exact H|]. by eapply set_field_ok.
Qed.
Lemma default_capabilities_ok m d c : fields_ok m d c → fields_ok m d (with_default_capabilities c) ∧
  capabilities (with_default_capabilities c) ≠ [] ∧
  con_description (with_default_capabilities c) = con_description c.
Proof.
  intros Hok. unfold with_default_capabilities. destruct (capabilities c) as [|s l] eqn:Hc.
  2: { cbn [nonempty]. unfold nonempty. cbn. split_and!; [done|by rewrite Hc|done]. }
  change (nonempty (@nil CapabilityStatement)) with false. cbv iota.
  destruct (parse_capabilities kDefaultCapabilities) as [l|e] eqn:Hl; cycle 1.
  { exfalso. revert Hl. vm_compute. discriminate. }
  assert (l ≠ []) as Hne. { intros ->. revert Hl. vm_compute. discriminate. }
  destruct Hok as (Hm & Hd & Hg & Hv & Hr & _ & Hret & Hdel). by apply parse_capabilities_ok in Hl.
Qed.
Lemma parse_constitution_fields spec member domain c : parse_constitution spec member domain = Ok c →
  con_member c = member ∧ con_domain c = domain ∧ constitution_canonicalize c = c.
Proof.
  unfold parse_constitution. intros H. apply bind_Ok in H as (c0 & H0 & H). apply bind_Ok in H as (_ & _ & [= <-]).
  apply (set_fields_ok member domain) in H0; [|by split_and!; cbn; try constructor].
  apply default_capabilities_ok in H0 as ((Hm & Hd & _) & _ & _). split_and!; [exact Hm|exact Hd|].
  apply constitution_canonicalize_idemp.
Qed.
(** C38: a constitution that the tools accept is fit for the wire: it names the
    member and the domain it was given, it is canonical, it states at least one
    capability, its description is within the bound, and what it encodes to, when
    its lists are within their bounds, decodes to the same constitution. *)
Theorem parsed_constitution_travels spec member domain c
    (Hmember : wire_ok member) (Hdomain : wire_ok domain) (H : parse_constitution spec member domain = Ok c) :
  con_member c = member ∧ con_domain c = domain ∧ constitution_canonicalize c = c ∧
  capabilities c ≠ [] ∧ str_size (con_description c) ≤ kMaxTextLength ∧
  (∀ bs rest, encode c = Ok bs → decode (bs ++ rest) = Ok (c, rest)).
Proof.
  unfold parse_constitution in H. apply bind_Ok in H as (c0 & H0 & H). apply bind_Ok in H as ([] & Hlen & [= <-]).
  apply fail_if_Ok, N.ltb_ge in Hlen.
  apply (set_fields_ok member domain) in H0; [|by split_and!; cbn; try constructor].
  apply default_capabilities_ok in H0 as (H0 & Hne & Hdesc). rewrite Hdesc in Hlen.
  set (c1 := with_default_capabilities c0) in *.
  destruct H0 as (Hm & Hd & Hg & Hv & Hr & Hcaps & Hret & Hdel). injection Hv as Hv1 Hv2 Hv3.
  assert (constitution_canonicalize (constitution_canonicalize c1) = constitution_canonicalize c1) as Hcanon
    by apply constitution_canonicalize_idemp.
  assert (wire_ok (constitution_canonicalize c1)) as Hok.
  { unfold wire_ok. cbn [MemberConstitution_codec]. cbn [constitution_canonicalize con_domain con_member con_generation
      software_major software_minor software_patch capabilities requirements retained delegated].
    rewrite Hm, Hd, Hv1, Hv2, Hv3, Hr. split_and!; try done; by apply Forall_sort_unique. }
  split_and!; try done.
  - cbn [constitution_canonicalize capabilities]. intros Hz. apply Hne.
    destruct (capabilities c1) as [|s l]; [done|]. exfalso.
    assert (s ∈ canonicalize_statements (s :: l)) as Hin by (apply elem_of_sort_unique; left).
    rewrite Hz in Hin. by apply elem_of_nil in Hin.
  - cbn [constitution_canonicalize con_description]. by rewrite Hdesc.
  - intros bs rest Hbs. by apply roundtrip.
Qed.
Definition example_member : MemberId := mkId (replicate 16 x07).
Definition example_domain : FabricDomainId := mkId (replicate 16 x08).
Definition example_spec : chars :=
  bytes_of "gen=2; retained=domain.a:write; delegated=fabric.b:observe:shared:3:90; desc=the west domain".
Lemma parsed_constitution_travels_witness :
  ∃ c bs, parse_constitution example_spec example_member example_domain = Ok c ∧
    con_member c = example_member ∧ capabilities c ≠ [] ∧
    encode c = Ok bs ∧ decode (bs ++ [x00]) = Ok (c, [x00]).
Proof.
  destruct (parse_constitution example_spec example_member example_domain) as [c|e] eqn:E.
  2: { exfalso. vm_compute in E. discriminate. }
  destruct (encode c) as [bs|e] eqn:He.
  2: { exfalso. vm_compute in E. injection E as <-. vm_compute in He. discriminate. }
  destruct (parsed_constitution_travels example_spec example_member example_domain c eq_refl eq_refl E)
    as (Hm & _ & _ & Hc & _ & Hread).
  exists c, bs. exact (conj eq_refl (conj Hm (conj Hc (conj He (Hread bs [x00] He))))).
Defined.

(** ** The document of a decision *)

Definition contribution_document (c : Contribution) : Json := JObject
  [("member", JString (id_to_string (c_member c)));
   ("role", JString (ContributionRole.to_string (c_role c)));
   ("generation", JNumber (value (c_generation c)));
   ("incarnation", JNumber (value (c_incarnation c)));
   ("constitution_digest", JString (Digest_to_hex (c_constitution c)));
   ("current", JBool (identity_current c))].
Definition short_conflict_document (c : ConflictRecord) : Json := JObject
  [("grant", JString (grant_to_string (conflict_grant c)));
   ("kind", JString (ConflictKind.to_string (kind c)));
   ("detail", JString (detail c))].
Definition explanation_document (e : Explanation) : Json := JObject
  [("evidence", JString (EvidenceState.to_string (e_evidence e)));
   ("summary", JString (e_summary e));
   ("reasons", JArray (reason_document <$> reasons e));
   ("contributors", JArray (contribution_document <$> contributions e));
   ("conflicts", JArray (short_conflict_document <$> conflicts e))].
Definition decision_document (d : AuthorityDecision) : Json := JObject
  [("outcome", JString (Outcome.to_string (ad_outcome d)));
   ("request", JString (id_to_string (ad_request d)));
   ("grant", JString (grant_to_string (ad_requested d)));
   ("lifecycle", JString (MemberLifecycleState.to_string (ad_lifecycle d)));
   ("epoch_seen", JNumber (value (ad_epoch_seen d)));
   ("epoch_current", JNumber (value (epoch_current d)));
   ("decided_at", JNumber (value (ad_decided_at d)));
   ("actor_generation", JNumber (value (idn_generation (actor_declared d))));
   ("actor_incarnation", JNumber (value (idn_incarnation (actor_declared d))));
   ("actor_digest", JString (Digest_to_hex (idn_constitution (actor_declared d))));
   ("current_generation", JNumber (value (idn_generation (actor_current d))));
   ("current_incarnation", JNumber (value (idn_incarnation (actor_current d))));
   ("current_digest", JString (Digest_to_hex (idn_constitution (actor_current d))));
   ("effective_authority", strings_document grant_to_string (effective_authority d));
   ("explanation", explanation_document (explanation d));
   ("decision_digest", JString (Digest_to_hex (decision_digest d)))].

#[local] Opaque begin_object end_object begin_array end_array key json_string number boolean.
Lemma contribution_write c w : contribution_json c w = write (contribution_document c) w.
Proof. reflexivity. Qed.
Lemma short_conflict_write c w : short_conflict_json c w = write (short_conflict_document c) w.
Proof. reflexivity. Qed.
Lemma explanation_write e w : explanation_json e w = write (explanation_document e) w.
Proof.
  unfold explanation_json. cbv beta.
  rewrite (each_write _ _ _ _ reason_write), (each_write _ _ _ _ contribution_write),
    (each_write _ _ _ _ short_conflict_write). reflexivity.
Qed.
Lemma decision_write d w : decision_json d w = write (decision_document d) w.
Proof. unfold decision_json. cbv beta. rewrite strings_write, explanation_write. reflexivity. Qed.
(** The JSON of a decision is well formed and says what the decision says: it
    reads back as the document of the decision. *)
Theorem decision_json_reads_back d :
  read_json (bytes_of (render_decision d true)) = Some (sanitize (decision_document d)).
Proof.
  unfold render_decision, text_of, bytes_of. rewrite String.list_byte_of_string_of_list_byte, decision_write.
  rewrite write_fresh. apply read_printed.
Qed.
