(* ===== verification/Control.v ===== *)
(** * The control channel

    Models src/control.cpp and the control channel of the coordinator daemon in
    src/apps/coordinator_main.cpp: the words and numbers of a command line, the
    answer to each command, the loop that cuts what a connection brings into lines,
    the client that sends one command, and the bounded waits.  The properties: what
    is answered depends on the lines and not on how they arrive, a command reaches
    the coordinator and its answer comes back, a wait ends with the first good
    answer or a failure, and what the channel takes for a number or for "stop". *)

From stdpp Require Import relations.
From S2P Require Import Prelude Errors Sha256 Text Codec Ids Names Scope Capability Policy Identity.
From S2P Require Import Explanation Lease Partition Evidence Membership Journal State Derivation.
From S2P Require Import Authority Coordinator Recovery Operations Admission Net Protocol Json Render Server.
From S2P Require Import AppCommon.

(** ** The stream of a line

    [std::istringstream]: what is left, or [None] once an extraction has failed; no
    extraction after that gives anything. *)

Definition Stream := option chars.
(** [isspace] in the C locale. *)
Definition is_space (b : byte) : bool := let c := Byte.to_N b in (c =? 32) || (9 <=? c) && (c <=? 13).
Fixpoint skip_spaces (l : chars) : chars :=
  match l with b :: k => if is_space b then skip_spaces k else l | [] => [] end.
Fixpoint span_word (l : chars) : chars * chars :=
  match l with
  | [] => ([], [])
  | b :: k => if is_space b then ([], l) else let '(w, rest) := span_word k in (b :: w, rest)
  end.
(** [>>] of a string: the string stays empty when nothing is extracted. *)
Definition read_word (s : Stream) : Stream * chars :=
  match s with
  | None => (None, [])
  | Some l =>
      let '(w, rest) := span_word (skip_spaces l) in
      if nonempty w then (Some rest, w) else (None, [])
  end.
(** [>>] of an unsigned 64-bit number: a sign is accepted, and a negative number is
    the negation modulo 2^64.  A number that is too large is the largest one, and
    none at all is zero; both fail. *)
Definition unsigned_value (negative : bool) (n : N) : N := if negative then (2 ^ 64 - n) mod 2 ^ 64 else n.
Definition read_number (s : Stream) : Stream * N :=
  match s with
  | None => (None, 0)
  | Some l =>
      let '(negative, l) :=
        match skip_spaces l with
        | x2d :: k => (true, k)
        | x2b :: k => (false, k)
        | k => (false, k)
        end in
      let '(ds, rest) := span_digits l in
      match ds with
      | [] => (None, 0)
      | _ =>
          let n := value_from 0 (default [] (decimals ds)) in
          if u64_max <? n then (None, u64_max) else (Some rest, unsigned_value negative n)
      end
  end.
(** [std::getline] of what is left of a line. *)
Definition rest_of_line (s : Stream) : chars := default [] s.

(** ** The answers of a coordinator *)

Definition flatten_lines (l : chars) : chars := (λ b, if bool_decide (b = x0a) then x7c else b) <$> l.
Definition respond (success : string) (r : Result unit) : string :=
  match r with Ok _ => "OK " +s+ success | Err e => "ERR " +s+ Status_to_string e end.
Definition order (success : string) (m : Op unit) : Impl → Impl * string :=
  λ c, let '(c, r) := m c in (c, respond success r).
Definition stats_line (s : CoordinatorStats) : string :=
  "OK digest=" +s+ Digest_to_hex (cs_state_digest s) +s+
  " epoch=" +s+ to_dec (value (cs_epoch s)) +s+
  " tick=" +s+ to_dec (value (cs_logical_time s)) +s+
  " incarnation=" +s+ to_dec (value (cs_incarnation s)) +s+
  " artifacts=" +s+ to_dec (cs_artifacts s) +s+
  " rejected=" +s+ to_dec (cs_rejected_artifacts s) +s+
  " duplicates=" +s+ to_dec (cs_duplicate_artifacts s) +s+
  " journal=" +s+ to_dec (cs_journal_records s) +s+
  " members=" +s+ to_dec (cs_members s) +s+
  " active=" +s+ to_dec (cs_active_members s) +s+
  " leases=" +s+ to_dec (cs_leases s) +s+
  " replay=" +s+ to_dec (cs_replay_entries s) +s+
  " partition=" +s+ cs_partition_state s +s+ (if cs_reconciling s then " reconciling" else "").

Section coordinator.
(** The counters of the server. *)
Context (accepted errors : N).
(** The member that a command names. *)
Definition on_member (s : Stream) (name : string) (k : MemberId → Impl → Impl * string) (c : Impl) : Impl * string :=
  let '(s, text) := read_word s in
  if bool_decide (s = None) then (c, "ERR " +s+ name +s+ " requires a member identifier")
  else match id_parse MemberIdTag (text_of text) with
       | None => (c, "ERR the member identifier is malformed")
       | Some m => k m c
       end.
Definition on_number (s : Stream) (complaint : string) (k : Stream → N → Impl → Impl * string) (c : Impl) :
    Impl * string :=
  let '(s, n) := read_number s in
  if bool_decide (s = None) then (c, complaint) else k s n c.
Definition control_text (line : chars) (c : Impl) : Impl * string :=
  let '(s, word) := read_word (Some line) in
  let command := text_of word in
  let named name := bool_decide (command = name) in
  if negb (nonempty word) then (c, "ERR empty")
  else if named "stop"%string then (c, "OK stopping")
  else if named "stats"%string || named "digest"%string then (c, stats_line (stats accepted errors c))
  else if named "state"%string then
    match derived c with
    | (c, Err e) => (c, "ERR " +s+ Status_to_string e)
    | (c, Ok x) => (c, "OK " +s+ text_of (flatten_lines (bytes_of (render_state_text x))))
    end
  else if named "advance-time"%string then
    on_number s "ERR advance-time requires a tick" (λ _ n, order "advanced" (advance_time (mkCounter n))) c
  else if named "advance-epoch"%string then
    on_number s "ERR advance-epoch requires an epoch"
      (λ s n, order "advanced"
         (advance_epoch (mkCounter n) (wire ReasonCode.PartitionSplitSuspendsGlobalMutation)
            (if nonempty (rest_of_line s) then text_of (rest_of_line s) else "operator request"))) c
  else if named "reconcile"%string then
    on_number s "ERR reconcile requires an epoch" (λ _ n, order "recorded" (complete_reconciliation (mkCounter n))) c
  else if named "fence"%string then
    on_member s "fence" (λ m, order "fenced"
      (fence_member m zero (wire ReasonCode.MembershipFencedByOrder) "fenced by the operator")) c
  else if named "retire"%string then
    on_member s "retire" (λ m, order "retired"
      (retire_member m zero (wire ReasonCode.MembershipRetired) "retired by the operator")) c
  else if named "transport"%string then (c, "OK " +s+ transport_description)
  else (c, "ERR unknown command").
Definition control_response (line : chars) (c : Impl) : Impl * chars :=
  let '(c, text) := control_text line c in (c, bytes_of text ++ [x0a]).
(** A line and the order to stop; the daemon compares the whole line. *)
Definition stop_line : chars := bytes_of "stop".
Definition coordinator_line (line : chars) (p : Impl * bool) : (Impl * bool) * chars :=
  let '(c, response) := control_response line p.1 in
  ((c, p.2 || bool_decide (line = stop_line)), response).
End coordinator.

(** ** The loop of a control channel *)

(** The complete lines of a text that begins with [pending], and what is left. *)
Fixpoint cut_lines (pending bs : chars) : list chars * chars :=
  match bs with
  | [] => ([], pending)
  | b :: bs =>
      if bool_decide (b = x0a) then let '(ls, rest) := cut_lines [] bs in (pending :: ls, rest)
      else cut_lines (pending ++ [b]) bs
  end.
Section serve.
(** The two daemons share the loop: [handle] answers a line and [stopping] is the
    flag that ends the loop. *)
Context {S : Type} (handle : chars → S → S * chars) (stopping : S → bool).
(** The lines of one portion; whether the answer could be sent is not looked at. *)
Fixpoint answer_lines (lines : list chars) (st : S) (s : Socket) : S * Socket :=
  match lines with
  | [] => (st, s)
  | line :: lines =>
      let '(st, response) := handle line st in
      let '(s, _) := send_all response s in
      if bool_decide (line = stop_line) then (st, s) else answer_lines lines st s
  end.
Fixpoint control_loop (fuel : nat) (buffer : chars) (st : S) (s : Socket) : S * Socket :=
  match fuel with
  | O => (st, s)
  | Datatypes.S fuel =>
      match recv_some 512 s with
      | (s, Err _) => (st, s)
      | (s, Ok chunk) =>
          if nonempty chunk then
            let '(lines, buffer) := cut_lines [] (buffer ++ chunk) in
            let '(st, s) := answer_lines lines st s in
            if stopping st then (st, s) else control_loop fuel buffer st s
          else (st, s)
      end
  end.
(** One connection; every portion that is not the last brings a byte. *)
Definition control_session (st : S) (s : Socket) : S * Socket := control_loop (Datatypes.S (length (stream s))) [] st s.
(** The connections that are accepted, one after the other. *)
Fixpoint serve_control (st : S) (accepted : list Socket) : S * list Socket :=
  match accepted with
  | [] => (st, [])
  | s :: accepted =>
      if stopping st then (st, s :: accepted)
      else
        let '(st, s) := control_session st s in
        let '(st, rest) := serve_control st accepted in (st, s :: rest)
  end.
(** The answers to a list of lines. *)
Fixpoint run_lines (lines : list chars) (st : S) : S * chars :=
  match lines with
  | [] => (st, [])
  | line :: lines =>
      let '(st, response) := handle line st in
      if stopping st then (st, response)
      else let '(st, rest) := run_lines lines st in (st, response ++ rest)
  end.
End serve.

(** ** The client of a control channel *)

Definition kMaxReply : N := 1048576.
(** [reply.find(newline)] and the end of the connection. *)
Fixpoint read_reply (fuel : nat) (reply : chars) (s : Socket) : Socket * Result chars :=
  match fuel with
  | O => (s, fail ErrorCode.Internal "fuel")
  | S fuel =>
      match recv_some 1024 s with
      | (s, Err e) => (s, Err e)
      | (s, Ok chunk) =>
          if negb (nonempty chunk) then (s, Ok reply)
          else
            let reply := reply ++ chunk in
            if bool_decide (x0a ∈ reply) then (s, Ok reply)
            else if kMaxReply <? size reply then
              (s, fail ErrorCode.BoundsExceeded "the control reply exceeded the bound")
            else read_reply fuel reply s
      end
  end.
Definition strip_newline (reply : chars) : chars :=
  match reverse reply with x0a :: l => reverse l | _ => reply end.
(** The socket is what [Socket::connect] gave. *)
Definition send_command (command : chars) (s : Socket) : Socket * Result chars :=
  match send_all (command ++ [x0a]) s with
  | (s, Err e) => (s, Err e)
  | (s, Ok _) =>
      match read_reply (S (length (stream s))) [] s with
      | (s, Err e) => (s, Err e)
      | (s, Ok reply) =>
          if nonempty reply then (s, Ok (strip_newline reply))
          else (s, fail ErrorCode.Incomplete "the control channel returned nothing")
      end
  end.
Definition send_control_command (os : ConnectOs) (port : N) (command : chars) : Result chars :=
  s ← connect os (mkEndpoint "127.0.0.1" port); (send_command command s).2.

(** [wait_for_control]: [attempts] are the outcomes of [send_control_command]. *)
Definition says_ok (reply : chars) : bool := bool_decide (take 2 reply = bytes_of "OK").
Fixpoint wait_loop (attempts : nat → Result chars) (i n : nat) (last : Status) : Result chars :=
  match n with
  | O => fail (code last) ("the control channel did not answer within the readiness bound: " +s+ message last)
  | S n =>
      match attempts i with
      | Ok reply =>
          if says_ok reply then Ok reply
          else wait_loop attempts (S i) n (Status_make ErrorCode.Refused (text_of reply))
      | Err e => wait_loop attempts (S i) n e
      end
  end.
Definition wait_for_control (attempts : nat → Result chars) (max_attempts : nat) : Result chars :=
  wait_loop attempts 0 max_attempts (Status_make ErrorCode.NotFound "no attempt was made").
(** [wait_for_ready_file]: what each attempt finds, if the file can be opened. *)
Fixpoint ready_loop (contents : nat → option chars) (i n : nat) : option chars :=
  match n with
  | O => None
  | S n =>
      match contents i with
      | Some (b :: l) => Some (b :: l)
      | _ => ready_loop contents (S i) n
      end
  end.
Definition wait_for_ready_file (path : string) (contents : nat → option chars) (max_attempts : nat) : Result chars :=
  match ready_loop contents 0 max_attempts with
  | Some content => Ok content
  | None => fail ErrorCode.NotFound
      ("the readiness file " +s+ path +s+ " did not appear within the readiness bound; this is reported as a failure, not as success")
  end.

(** ** Lines and portions *)

Lemma cut_lines_app p x y : cut_lines p (x ++ y) =
  ((cut_lines p x).1 ++ (cut_lines (cut_lines p x).2 y).1, (cut_lines (cut_lines p x).2 y).2).
Proof.
  revert p. induction x as [|b x IH]; intros p; [cbn; by destruct (cut_lines p y)|]. cbn [cut_lines app].
  case_bool_decide; [|apply IH]. rewrite IH. by destruct (cut_lines [] x).
Qed.
Lemma cut_lines_plain p x : x0a ∉ x → cut_lines p x = ([], p ++ x).
Proof.
  revert p. induction x as [|b x IH]; intros p Hx; cbn [cut_lines]; [by rewrite app_nil_r|].
  rewrite bool_decide_false by set_solver. rewrite IH by set_solver. by rewrite <-app_assoc.
Qed.
Lemma cut_lines_rest p x : x0a ∉ p → x0a ∉ (cut_lines p x).2.
Proof.
  revert p. induction x as [|b x IH]; intros p Hp; [done|]. cbn [cut_lines]. case_bool_decide.
  - specialize (IH [] ltac:(apply not_elem_of_nil)). by destruct (cut_lines [] x).
  - apply IH. set_solver.
Qed.
Lemma cut_line line : x0a ∉ line → cut_lines [] (line ++ [x0a]) = ([line], []).
Proof. intros H. by rewrite cut_lines_app, cut_lines_plain. Qed.

Lemma send_sound data s : sound_socket s →
  ∃ s', send_all data s = (s', Ok tt) ∧ stream s' = stream s ∧ sound_socket s' ∧ sent s' = sent s ++ data.
Proof.
  intros [Hv Ha]. destruct (send_all_accepts data s Hv Ha) as (s' & H & Hv' & Ha').
  destruct (send_all_sent data s Hv) as (n & s1 & Hst & _ & Hsent & [[H1 Ht]|[H1 Hex]]).
  - rewrite H in H1. injection H1 as <-. exists s'. rewrite Ht in Hsent. by split_and!.
  - rewrite H in H1. done.
Qed.
Lemma recv_sound room s : sound_socket s → 0 < room →
  (stream s = [] ∧ ∃ s' r, recv_some room s = (s', r) ∧ sent s' = sent s ∧ (r = Ok [] ∨ ∃ e, r = Err e) ∧
     (peer_closed s = true → r = Ok [])) ∨
  ∃ n s', (0 < n ≤ length (stream s))%nat ∧ recv_some room s = (s', Ok (take n (stream s))) ∧
    stream s' = drop n (stream s) ∧ sound_socket s' ∧ sent s' = sent s ∧ peer_closed s' = peer_closed s.
Proof.
  intros [Hv Ha] Hr. destruct (recv_some_advanced room s Hv Hr) as (n & s' & _ & [Hst (Hv' & Hp & Hs & Ha' & _)] & Hn & [[Hnil H]|[Hpos H]]).
  - left. split; [done|]. exists s'. eexists. split; [exact H|]. split; [done|].
    destruct (peer_closed s); split; eauto; done.
  - right. exists n, s'. split; [lia|]. do 2 (split; [done|]). split; [|done]. by split; [rewrite Hv'|rewrite Ha'].
Qed.

Section loop.
Context {S : Type} (handle : chars → S → S * chars) (stopping : S → bool).
(** The flag is raised by the line that ends a portion, and by nothing else. *)
Context (Hstop : ∀ line st, stopping st = false → stopping (handle line st).1 = bool_decide (line = stop_line)).

Lemma run_lines_app ls ks st : stopping st = false →
  run_lines handle stopping (ls ++ ks) st =
    let '(st', r) := run_lines handle stopping ls st in
    if stopping st' then (st', r) else let '(st'', r') := run_lines handle stopping ks st' in (st'', r ++ r').
Proof.
  revert st. induction ls as [|l ls IH]; intros st Hst; cbn [run_lines app].
  { rewrite Hst. by destruct (run_lines handle stopping ks st). }
  destruct (handle l st) as [st1 r1] eqn:Hh. destruct (stopping st1) eqn:Hs1; [by rewrite Hs1|].
  rewrite IH by done. destruct (run_lines handle stopping ls st1) as [st2 r2]. destruct (stopping st2); [done|].
  destruct (run_lines handle stopping ks st2) as [st3 r3]. by rewrite app_assoc.
Qed.
Lemma answer_lines_run ls : ∀ st s, stopping st = false → sound_socket s →
  ∃ s', answer_lines handle ls st s = ((run_lines handle stopping ls st).1, s') ∧ stream s' = stream s ∧
    sound_socket s' ∧ sent s' = sent s ++ (run_lines handle stopping ls st).2.
Proof.
  induction ls as [|l ls IH]; intros st s Hst Hs; cbn [answer_lines run_lines].
  { exists s. by rewrite app_nil_r. }
  pose proof (Hstop l st Hst) as Hl. destruct (handle l st) as [st1 r1]. cbn [fst] in Hl.
  destruct (send_sound r1 s Hs) as (s1 & -> & Hst1 & Hs1 & Hsent1). rewrite Hl. case_bool_decide.
  - exists s1. by split_and!.
  - destruct (IH st1 s1 Hl Hs1) as (s2 & -> & Hst2 & Hs2 & Hsent2).
    destruct (run_lines handle stopping ls st1) as [st2 r2]. exists s2. cbn [fst snd] in *.
    split; [done|]. split; [congruence|]. split; [done|]. by rewrite Hsent2, Hsent1, <-app_assoc.
Qed.
Lemma control_loop_lines fuel : ∀ buffer st s,
  (length (stream s) < fuel)%nat → x0a ∉ buffer → stopping st = false → sound_socket s →
  let run := run_lines handle stopping (cut_lines buffer (stream s)).1 st in
  (control_loop handle stopping fuel buffer st s).1 = run.1 ∧
  sent (control_loop handle stopping fuel buffer st s).2 = sent s ++ run.2.
Proof.
  induction fuel as [|fuel IH]; intros buffer st s Hf Hb Hst Hs; [lia|]. cbn [control_loop].
  destruct (recv_sound 512 s Hs ltac:(done)) as [(Hnil & s1 & r & -> & Hsent & Hr & _)|(n & s1 & Hn & -> & Hst1 & Hs1 & Hsent & _)].
  - rewrite Hnil. cbn [cut_lines fst run_lines]. rewrite app_nil_r.
    destruct Hr as [->|[e ->]]; split; exact eq_refl || exact Hsent.
  - assert (nonempty (take n (stream s)) = true) as ->.
    { destruct (stream s); [cbn in Hn; lia|]. by destruct n; [lia|]. }
    rewrite cut_lines_app, (cut_lines_plain [] buffer Hb). cbn [fst snd app].
    rewrite <-(take_drop n (stream s)) at 2 4. rewrite cut_lines_app, <-Hst1.
    pose proof (cut_lines_rest buffer (take n (stream s)) Hb) as Hrest.
    destruct (cut_lines buffer (take n (stream s))) as [ls buffer']. cbn [fst snd] in *.
    destruct (answer_lines_run ls st s1 Hst Hs1) as (s2 & -> & Hst2 & Hs2 & Hsent2).
    rewrite run_lines_app by done. destruct (run_lines handle stopping ls st) as [st2 r2]. cbn [fst snd] in *.
    destruct (stopping st2) eqn:Hd; [split; [done|cbn [snd]; by rewrite Hsent2, Hsent]|].
    destruct (IH buffer' st2 s2) as [H1 H2]; [rewrite Hst2, Hst1, length_drop; lia|done..|].
    rewrite Hst2 in H1, H2. rewrite H1, H2.
    destruct (run_lines handle stopping _ st2) as [st3 r3]. cbn [fst snd].
    split; [done|]. by rewrite Hsent2, Hsent, app_assoc.
Qed.
End loop.

(** The coordinator raises its flag for the line "stop" only. *)
Lemma coordinator_stops n e line p : p.2 = false →
  (coordinator_line n e line p).1.2 = bool_decide (line = stop_line).
Proof. unfold coordinator_line. destruct (control_response n e line p.1). cbn. by intros ->. Qed.
(** The control channel answers lines, not portions: however the bytes of a
    connection arrive, the coordinator ends in the state, and sends the answers, that
    its complete lines give one after the other up to the first line "stop". *)
Theorem answers_depend_on_lines n e c s (Hs : sound_socket s) :
  let run := run_lines (coordinator_line n e) snd (cut_lines [] (stream s)).1 (c, false) in
  (control_session (coordinator_line n e) snd (c, false) s).1 = run.1 ∧
  sent (control_session (coordinator_line n e) snd (c, false) s).2 = sent s ++ run.2.
Proof.
  apply control_loop_lines; [by apply coordinator_stops|lia|apply not_elem_of_nil|done|done].
Qed.

(** ** One command, both ends *)

Lemma read_reply_line fuel : ∀ reply r s, (length (stream s) < fuel)%nat → sound_socket s →
  x0a ∉ reply → reply ++ stream s = r ++ [x0a] → x0a ∉ r → size r ≤ kMaxReply →
  ∃ s', read_reply fuel reply s = (s', Ok (r ++ [x0a])) ∧ sent s' = sent s.
Proof.
  induction fuel as [|fuel IH]; intros reply r s Hf Hs Hreply Heq Hr Hmax; [lia|]. cbn [read_reply].
  destruct (recv_sound 1024 s Hs ltac:(done)) as [(Hnil & _)|(n & s1 & Hn & -> & Hst1 & Hs1 & Hsent & _)].
  { exfalso. apply Hreply. rewrite Hnil, app_nil_r in Heq. subst. set_solver. }
  assert (nonempty (take n (stream s)) = true) as ->.
  { destruct (stream s); [cbn in Hn; lia|]. by destruct n; [lia|]. }
  cbn [negb]. case_bool_decide as Hin.
  - exists s1. split; [|done]. do 2 f_equal. rewrite <-Heq.
    rewrite <-(take_drop n (stream s)) at 2. rewrite app_assoc.
    assert (drop n (stream s) = []) as ->; [|by rewrite app_nil_r].
    rewrite <-(take_drop n (stream s)), app_assoc in Heq.
    destruct (drop n (stream s)) as [|b l _] using rev_ind; [done|]. exfalso.
    rewrite app_assoc in Heq. apply app_inj_tail in Heq as [Heq _]. rewrite <-Heq in Hr. set_solver.
  - assert (size (reply ++ take n (stream s)) ≤ size r) as Hsz.
    { rewrite <-(take_drop n (stream s)), app_assoc in Heq.
      destruct (drop n (stream s)) as [|b l _] using rev_ind.
      - rewrite app_nil_r in Heq. rewrite Heq in Hin. set_solver.
      - rewrite app_assoc in Heq. apply app_inj_tail in Heq as [<- _]. unfold size. rewrite !length_app. lia. }
    destruct (N.ltb_spec kMaxReply (size (reply ++ take n (stream s)))); [lia|].
    destruct (IH (reply ++ take n (stream s)) r s1) as (s' & H' & Hsent'); try done.
    + rewrite Hst1, length_drop. lia.
    + rewrite <-app_assoc, Hst1, take_drop. done.
    + exists s'. split; [exact H'|congruence].
Qed.
Lemma strip_newline_line r : strip_newline (r ++ [x0a]) = r.
Proof. unfold strip_newline. rewrite reverse_app. cbn. apply reverse_involutive. Qed.
Lemma send_command_line command r s : sound_socket s → stream s = r ++ [x0a] → x0a ∉ r → size r ≤ kMaxReply →
  ∃ s', send_command command s = (s', Ok r) ∧ sent s' = sent s ++ command ++ [x0a].
Proof.
  intros Hs Hst Hr Hmax. unfold send_command.
  destruct (send_sound (command ++ [x0a]) s Hs) as (s1 & -> & Hst1 & Hs1 & Hsent1).
  destruct (read_reply_line (S (length (stream s1))) [] r s1) as (s2 & -> & Hsent2); try done.
  - lia.
  - apply not_elem_of_nil.
  - by rewrite Hst1, Hst.
  - exists s2. rewrite strip_newline_line. split; [|congruence]. by destruct r.
Qed.
Lemma recv_some_sent room s s' r : recv_some room s = (s', r) → sent s' = sent s.
Proof.
  unfold recv_some. destruct (negb _); [by intros [= <- _]|]. destruct (room =? 0); [by intros [= <- _]|].
  destruct (os_recv _ _) as [bs l]. by destruct (_ || _); intros [= <- _].
Qed.
Lemma read_reply_sent fuel : ∀ reply s s' r, read_reply fuel reply s = (s', r) → sent s' = sent s.
Proof.
  induction fuel as [|fuel IH]; intros reply s s' r; cbn [read_reply]; [by intros [= <- _]|].
  destruct (recv_some 1024 s) as [s1 [chunk|]] eqn:Hr; apply recv_some_sent in Hr; [|by intros [= <- _]].
  destruct (negb (nonempty chunk)); [by intros [= <- _]|].
  case_bool_decide; [by intros [= <- _]|]. destruct (_ <? _); [by intros [= <- _]|].
  intros H'. rewrite <-Hr. by eapply IH.
Qed.
(** The two ends of one connection to the control channel: each holds what the
    other has sent when it is done. *)
Record connected (client server client' server' : Socket) : Prop := {
  co_client : sound_socket client ∧ sent client = [];
  co_server : sound_socket server ∧ sent server = [];
  co_up : stream server = sent client';
  co_down : stream client = sent server'
}.
(** C9: an operator's command is carried out once and answered: when the two ends of
    a connection hold what the other sends, in whatever portions, the coordinator is
    in the state after that one command, and the client returns the text of its
    answer, if that is one line of at most a megabyte. *)
Theorem operator_command_is_answered n e c c' line text client server
    (Hline : x0a ∉ line) (Hanswer : control_text n e line c = (c', text))
    (Htext : x0a ∉ bytes_of text) (Hsize : str_size text ≤ kMaxReply)
    (Hends : connected client server (send_command line client).1
               (control_session (coordinator_line n e) snd (c, false) server).2) :
  (send_command line client).2 = Ok (bytes_of text) ∧
  (control_session (coordinator_line n e) snd (c, false) server).1.1 = c'.
Proof.
  destruct Hends as [[Hc Hcs] [Hv Hvs] Hup Hdown].
  destruct (control_loop_lines (coordinator_line n e) snd (coordinator_stops n e) (S (length (stream server)))
              [] (c, false) server) as [H1 H2]; [lia|apply not_elem_of_nil|done|done|].
  fold (control_session (coordinator_line n e) snd (c, false) server) in H1, H2.
  assert (sent (send_command line client).1 = line ++ [x0a]) as Hsent.
  { unfold send_command. destruct (send_sound (line ++ [x0a]) client Hc) as (s1 & -> & Hst1 & Hs1 & Hsent1).
    destruct (read_reply _ _ _) as [s2 [r|]] eqn:Hr; apply read_reply_sent in Hr; try destruct (nonempty r); cbn;
      by rewrite Hr, Hsent1, Hcs. }
  rewrite Hsent in Hup. rewrite Hup, (cut_line line Hline) in H1, H2.
  cbn [fst run_lines] in H1, H2. unfold coordinator_line at 2 in H1. unfold coordinator_line at 2 in H2.
  unfold control_response in H1, H2. cbn [fst snd orb] in H1, H2. rewrite Hanswer in H1, H2.
  rewrite Hvs in H2. assert (sent (control_session (coordinator_line n e) snd (c, false) server).2 = bytes_of text ++ [x0a]) as Hdown'.
  { rewrite H2. cbn [snd]. destruct (bool_decide (line = stop_line)); cbn; by rewrite ?app_nil_r. }
  split.
  - rewrite Hdown' in Hdown. destruct (send_command_line line (bytes_of text) client Hc Hdown Htext) as (s' & -> & _);
      [by rewrite size_bytes_of|done].
  - rewrite H1. cbn [snd]. by destruct (bool_decide (line = stop_line)).
Qed.

(** ** Waiting *)

Definition good (r : Result chars) : Prop := match r with Ok reply => says_ok reply = true | Err _ => False end.
Lemma good_dec r : {good r} + {¬ good r}.
Proof. destruct r as [reply|]; cbn; [destruct (says_ok reply)|]; auto. Defined.
Lemma wait_loop_spec attempts n : ∀ i last,
  (∃ k, i ≤ k < i + n ∧ good (attempts k) ∧ (∀ j, i ≤ j < k → ¬ good (attempts j)) ∧
        wait_loop attempts i n last = attempts k)%nat ∨
  (∀ j, (i ≤ j < i + n)%nat → ¬ good (attempts j)) ∧ ∃ e, wait_loop attempts i n last = Err e.
Proof.
  induction n as [|n IH]; intros i last; cbn [wait_loop]; [right; split; [lia|by eexists]|].
  destruct (good_dec (attempts i)) as [Hg|Hg].
  - left. exists i. split_and!; [lia|lia|done|lia|]. unfold good in Hg. destruct (attempts i) as [reply|]; [by rewrite Hg|done].
  - assert (∃ last', wait_loop attempts i (S n) last = wait_loop attempts (S i) n last') as [last' Hl].
    { cbn [wait_loop]. unfold good in Hg. destruct (attempts i) as [reply|e]; [destruct (says_ok reply); [done|]|]; by eexists. }
    cbn [wait_loop] in Hl. rewrite Hl. destruct (IH (S i) last') as [(k & Hk & Hgk & Hj & Hw)|[Hj Hw]].
    + left. exists k. split_and!; [lia|lia|done| |done]. intros j ?. destruct (decide (j = i)) as [->|]; [done|apply Hj; lia].
    + right. split; [|done]. intros j ?. destruct (decide (j = i)) as [->|]; [done|apply Hj; lia].
Qed.
(** A bounded wait never turns a failure into success: it returns the first
    attempt that answers with "OK", and that only; without one among the attempts
    that are allowed it fails. *)
Theorem wait_ends_with_first_ok attempts n :
  (∀ reply, wait_for_control attempts n = Ok reply ↔
     ∃ k, (k < n)%nat ∧ attempts k = Ok reply ∧ says_ok reply = true ∧ ∀ j, (j < k)%nat → ¬ good (attempts j)) ∧
  ((∀ j, (j < n)%nat → ¬ good (attempts j)) → ∃ e, wait_for_control attempts n = Err e).
Proof.
  unfold wait_for_control.
  destruct (wait_loop_spec attempts n 0 (Status_make ErrorCode.NotFound "no attempt was made"))
    as [(k & Hk & Hg & Hj & ->)|[Hj [e ->]]].
  - split; [|intros Hn; exfalso; by apply (Hn k); [lia|]]. intros reply. split.
    + intros Hr. exists k. rewrite Hr in Hg. split_and!; [lia|done|done|]. intros j ?. apply Hj. lia.
    + intros (k' & Hk' & Hr & Ho & Hj'). assert (good (attempts k')) as Hg' by (by rewrite Hr).
      destruct (Nat.lt_trichotomy k k') as [Hlt|[->|Hlt]]; [|done|].
      * exfalso. by apply (Hj' k).
      * exfalso. apply (Hj k'); [lia|done].
  - split; [|by eauto]. intros reply. split; [done|]. intros (k & Hk & Hr & Ho & _). exfalso. apply (Hj k); [lia|].
    by rewrite Hr.
Qed.

(** ** What the channel takes for a number *)

Lemma accepted_elem federation catalog l a : NoDup (art_evidence <$> l) → a ∈ l →
  artifact_refusal federation catalog a = None → a ∈ State.accepted (prepare_artifacts federation catalog l).
Proof.
  intros Hd Ha Hr. unfold prepare_artifacts, index_artifacts. rewrite index_distinct by done. cbn [State.accepted by_id quarantined].
  apply elem_of_sort_by. apply list_elem_of_filter. split; [done|].
  apply list_elem_of_fmap. exists (art_evidence a, a). split; [done|]. apply list_elem_of_filter. split; [apply not_elem_of_nil|].
  destruct (insert_artifacts_spec l [] Hd) as [_ Hp]; [done|constructor|]. apply Hp. right. by exists a.
Qed.
Lemma max_epoch_le l : ∀ e, e ≤ foldl (λ e a, if e <? value (body_epoch (body a)) then value (body_epoch (body a)) else e) e l.
Proof.
  induction l as [|a l IH]; intros e; cbn [foldl]; [done|]. etrans; [|apply IH].
  destruct (N.ltb_spec e (value (body_epoch (body a)))); lia.
Qed.
Lemma epoch_reached arts a : a ∈ arts → is_kind ArtifactKind.EpochAdvance a = true →
  value (body_epoch (body a)) ≤ value (epoch_of arts).
Proof.
  intros Ha Hk. assert (a ∈ epoch_advances arts) as Hin.
  { unfold epoch_advances, of_art_kind. apply list_elem_of_filter. split; [|done]. exact Hk. }
  unfold epoch_of. cbn [value]. revert Hin. generalize 1. generalize (epoch_advances arts) as l. clear.
  induction l as [|b l IH]; intros e Hin; [by apply elem_of_nil in Hin|]. cbn [foldl].
  apply elem_of_cons in Hin as [->|Hin]; [|by apply IH].
  etrans; [|apply max_epoch_le]. destruct (N.ltb_spec e (value (body_epoch (body b)))); lia.
Qed.
Lemma record_decision_fresh a c : artifacts (record_decision a c).1 ≠ artifacts c →
  artifact_validate (catalog c) a = Ok tt ∧ has_evidence c (art_evidence a) = false ∧
  config (record_decision a c).1 = config c ∧ catalog (record_decision a c).1 = catalog c ∧
  artifacts (record_decision a c).1 = artifacts c ++ [a].
Proof.
  rewrite record_decision_eq. destruct (artifact_validate _ _) as [[]|] eqn:Hv; [|done].
  destruct (has_evidence _ _) eqn:Hh; [done|].
  destruct (quiet_encoded JournalRecordType.Artifact (encode a) c) as [Q1 Q2 Q3].
  destruct (journal_encoded _ _ c) as [c1 [[]|]]; cbn [fst] in *; [|done].
  intros _. split_and!; [done|done|exact Q1|exact Q2|]. change (artifacts c1 ++ [a] = artifacts c ++ [a]). by rewrite Q3.
Qed.
Lemma record_order_fresh a c : artifacts (record_order a c).1 ≠ artifacts c →
  artifact_validate (catalog c) a = Ok tt ∧ has_evidence c (art_evidence a) = false ∧
  config (record_order a c).1 = config c ∧ catalog (record_order a c).1 = catalog c ∧
  artifacts (record_order a c).1 = artifacts c ++ [a].
Proof.
  pose proof (record_decision_fresh a c) as H. unfold record_order, mbind, Op_bind.
  destruct (record_decision a c) as [c1 [b|]]; [|exact H]. cbn [fst] in H.
  destruct (quiet_next_tick c1) as [Q1 Q2 Q3]. rewrite Q1, Q2, Q3. exact H.
Qed.
(** The order that moves the epoch to [e], in the state [s]. *)
Definition epoch_order (c : Impl) (s : FederationState) (e : Epoch) (reason : N) (text : string) : Artifact :=
  let key := digest_of (encode (cfg_federation (config c)) >+> encode e >+> Writer.u16 reason) in
  Artifact_make (order_envelope c ArtifactKind.EpochAdvance nil_id e key)
    (order_body c s zero e Outcome.Granted reason (wire ReasonCode.EvidenceUnknown) text).
Lemma advance_epoch_eq e reason text c : advance_epoch e reason text c =
  match derive_locked c with
  | Err x => (c, Err x)
  | Ok s => if ltb (epoch s) e then record_order (epoch_order c s e reason text) c
            else (c, fail ErrorCode.OutOfRange
                   ("the federation epoch only moves forward: current epoch is " +s+ to_dec (value (epoch s))))
  end.
Proof.
  unfold advance_epoch, derived, get, refuse_if, lift, mbind, Op_bind. destruct (derive_locked c) as [s|]; [|reflexivity].
  cbv iota beta. by destruct (ltb (epoch s) e).
Qed.
Lemma derived_epoch c s : derive_locked c = Ok s →
  epoch s = epoch_of (State.accepted (prepare_artifacts (cfg_federation (config c)) (catalog c) (artifacts c))).
Proof.
  unfold derive_locked. intros H. apply bind_Ok in H as (r & Hr & [= <-]).
  destruct (derive_state_Ok _ _ Hr) as (p & k & [= _] & [= <-] & _ & _ & _ & _ & He & _). exact He.
Qed.
Lemma top_epoch_sticks c a e reason text :
  NoDup (art_evidence <$> artifacts c) → a ∈ artifacts c →
  artifact_refusal (cfg_federation (config c)) (catalog c) a = None →
  is_kind ArtifactKind.EpochAdvance a = true → value (body_epoch (body a)) = u64_max → value e ≤ u64_max →
  ∃ x, advance_epoch e reason text c = (c, Err x).
Proof.
  intros Hd Ha Hr Hk Hmax He. rewrite advance_epoch_eq. destruct (derive_locked c) as [s|x] eqn:Hs; [|by exists x].
  apply derived_epoch in Hs. pose proof (epoch_reached _ _ (accepted_elem _ _ _ _ Hd Ha Hr) Hk) as Hle.
  rewrite <-Hs in Hle. assert (ltb (epoch s) e = false) as ->; [|by eexists].
  unfold ltb. change (cmp (epoch s) e) with (N.compare (value (epoch s)) (value e)).
  destruct (N.compare_spec (value (epoch s)) (value e)) as [| Hlt |]; try done. lia.
Qed.
(** A typing error that cannot be undone: the channel reads "-1" as 2^64 - 1, and
    once the coordinator has recorded that epoch it refuses every other one, so that
    the federation can never be re-constituted again. *)
Theorem minus_one_ends_epochs n k c c' text
    (Hids : NoDup (art_evidence <$> artifacts c))
    (Hrun : control_text n k (bytes_of "advance-epoch -1") c = (c', text))
    (Hnew : artifacts c' ≠ artifacts c) :
  ∀ e reason detail, value e ≤ u64_max → ∃ x, advance_epoch e reason detail c' = (c', Err x).
Proof.
  assert (control_text n k (bytes_of "advance-epoch -1") c =
          order "advanced" (advance_epoch (mkCounter u64_max)
            (wire ReasonCode.PartitionSplitSuspendsGlobalMutation) "operator request") c) as Heq by reflexivity.
  rewrite Heq in Hrun. unfold order in Hrun. rewrite advance_epoch_eq in Hrun.
  destruct (derive_locked c) as [s|x]; [|by injection Hrun as <- _].
  destruct (ltb (epoch s) _); [|by injection Hrun as <- _].
  set (a := epoch_order _ _ _ _ _) in Hrun. pose proof (record_order_fresh a c) as H.
  destruct (record_order a c) as [c1 r]. injection Hrun as -> _. cbn [fst] in H.
  destruct (H Hnew) as (Hv & Hfresh & Hc & Hk & Ha). intros e reason detail He.
  apply (top_epoch_sticks c' a); try done.
  - rewrite Ha, fmap_app. apply NoDup_app. split_and!; [done| |by apply NoDup_singleton].
    intros i Hi Hin. apply list_elem_of_singleton in Hin as ->. apply list_elem_of_fmap in Hi as (b & Hb & Hbin).
    unfold has_evidence in Hfresh. apply not_true_iff_false in Hfresh. apply Hfresh, existsb_exists. exists b.
    split; [by apply list_elem_of_In|]. by apply bool_decide_eq_true.
  - rewrite Ha. set_solver.
  - rewrite Hc, Hk. unfold artifact_refusal. rewrite Hv. by rewrite bool_decide_true.
Qed.
(** A line that is more than "stop" is answered as if it were obeyed. *)
Theorem stop_needs_whole_line n k c :
  coordinator_line n k (bytes_of "stop ") (c, false) = ((c, false), bytes_of "OK stopping" ++ [x0a]) ∧
  coordinator_line n k (bytes_of "stop") (c, false) = ((c, true), bytes_of "OK stopping" ++ [x0a]).
Proof. done. Qed.

(** ** The theorems at work *)

Definition an_impl : Impl := initial founder_config [].
Definition portions : list (list byte) := [bytes_of "advance-ti"; bytes_of "me 5"; x0a :: bytes_of "stop"; [x0a]].
Definition arriving (l : list (list byte)) : Socket := mkSocket true l true [] [] "".
Lemma arriving_sound l : sound_socket (arriving l).
Proof. split; [done|constructor]. Qed.
Lemma answers_depend_on_lines_witness :
  let ended := control_session (coordinator_line 0 0) snd (an_impl, false) (arriving portions) in
  ended.1.2 = true ∧ text_of (sent ended.2) = text_of (bytes_of "OK advanced" ++ x0a :: bytes_of "OK stopping" ++ [x0a]).
Proof.
  destruct (answers_depend_on_lines 0 0 an_impl (arriving portions) (arriving_sound portions)) as [H1 H2].
  cbv zeta in *. rewrite H1, H2. split; vm_compute; reflexivity.
Defined.
Definition a_line : chars := bytes_of "advance-time 5".
Definition a_client : Socket := arriving [bytes_of "OK"; bytes_of " advanced"; [x0a]].
Definition a_server : Socket := arriving [a_line; [x0a]].
Lemma operator_command_is_answered_witness :
  ∃ c', (send_command a_line a_client).2 = Ok (bytes_of "OK advanced") ∧
    (control_session (coordinator_line 0 0) snd (an_impl, false) a_server).1.1 = c' ∧ tick c' = mkCounter 5.
Proof.
  exists (control_text 0 0 a_line an_impl).1.
  destruct (operator_command_is_answered 0 0 an_impl (control_text 0 0 a_line an_impl).1 a_line "OK advanced"
              a_client a_server) as [H1 H2].
  - apply (bool_decide_unpack _). vm_compute. exact I.
  - vm_compute. reflexivity.
  - apply (bool_decide_unpack _). vm_compute. exact I.
  - vm_compute. discriminate.
  - split; [split; [apply arriving_sound|reflexivity]|split; [apply arriving_sound|reflexivity]|vm_compute; reflexivity|vm_compute; reflexivity].
  - split; [exact H1|]. split; [exact H2|vm_compute; reflexivity].
Defined.
Definition grew (c c' : Impl) : bool := negb (length (artifacts c') =? length (artifacts c))%nat.
Lemma grew_true c c' : grew c c' = true → artifacts c' ≠ artifacts c.
Proof. unfold grew. intros H Heq. rewrite Heq, Nat.eqb_refl in H. done. Qed.
Lemma an_epoch_recorded : grew an_impl (control_text 0 0 (bytes_of "advance-epoch -1") an_impl).1 = true.
Proof. vm_cast_no_check (eq_refl true). Qed.
Lemma minus_one_ends_epochs_witness :
  let c' := (control_text 0 0 (bytes_of "advance-epoch -1") an_impl).1 in
  artifacts c' ≠ artifacts an_impl ∧ ∃ x, advance_epoch (mkCounter 7) 0 "" c' = (c', Err x).
Proof.
  split; [exact (grew_true _ _ an_epoch_recorded)|].
  exact (minus_one_ends_epochs 0 0 an_impl (control_text 0 0 (bytes_of "advance-epoch -1") an_impl).1
           (control_text 0 0 (bytes_of "advance-epoch -1") an_impl).2 (NoDup_nil_2)
           (surjective_pairing _) (grew_true _ _ an_epoch_recorded) (mkCounter 7) 0 ""
           ltac:(vm_compute; discriminate)).
Defined.
