(* ===== verification/MemberTool.v ===== *)
(** * The member daemon

    Models src/apps/member_main.cpp: the configuration that the command line gives,
    the answer to each command of the control channel, and its session on the loop
    of the component Control.  The properties: a command is one call on the runtime,
    a restart needs a number, and the one command whose effect depends on
    how the bytes of a connection arrive. *)

From stdpp Require Import relations.
From S2P Require Import Prelude Errors Sha256 Text Codec Ids Names Scope Capability Policy Identity.
From S2P Require Import Explanation Lease Partition Evidence Membership Journal State Derivation.
From S2P Require Import Authority Coordinator Recovery Operations Admission Net Protocol Json Render Server.
From S2P Require Import Client Member AppCommon Control.

(** ** Commands *)

(** What a command gets from outside: the random identifier of a request, the
    connection to a probed peer and the port of a listener. *)
Record Env := mkEnv { fresh_request : RequestId; peer_os : ConnectOs; bind_os : N → BindOs }.
Definition lift_answer {A} (describe : A → string) (r : Result A) : string :=
  match r with Ok a => "OK " +s+ describe a | Err e => "ERR " +s+ Status_to_string e end.
Definition first16 (d : Digest) : string := text_of (take 16 (bytes_of (Digest_to_hex d))).
Definition describe_response (r : ArtifactResponse) : string :=
  Outcome.to_string (ar_outcome r) +s+ " digest=" +s+ first16 (ar_artifact_digest r) +s+
  " state=" +s+ first16 (ar_state_digest r) +s+ " " +s+ ar_detail r.
(** The code of a refused lease may be no enumerator. *)
Definition wire_status (code : N) (detail : string) : string :=
  let name := match enum_of code with Some c => ErrorCode.to_string c | None => "INTERNAL" end in
  if decide (detail = ""%string) then name else name +s+ ": " +s+ detail.

(** A call and the text of its result. *)
Definition calling {A} (describe : A → string) (c : Call (Result A)) (m : Member) : Conv (Member * string) :=
  p ← c m; Return (p.1, lift_answer describe p.2).
Definition issuing (c : Call (Result ArtifactResponse)) : Member → Conv (Member * string) := calling describe_response c.
Definition saying (text : string) (m : Member) : Conv (Member * string) := Return (m, text).
Definition lineage_from (s : Stream) : Lineage := mkCounter (read_number s).2.

(** The candidate of a proposal or an endorsement. *)
Definition skip_blanks_front (l : chars) : chars :=
  (fix go l := match l with x20 :: k => go k | _ => l end) l.
Definition with_candidate (name : string) (s : Stream) (call : MemberDeclaration → Lineage → Call (Result ArtifactResponse))
    (m : Member) : Conv (Member * string) :=
  let '(s, member_text) := read_word s in
  let '(s, domain_text) := read_word s in
  let '(s, incarnation) := read_number s in
  let '(s, lineage) := read_number s in
  if bool_decide (s = None) then
    saying ("ERR " +s+ name +s+ " requires <member> <domain> <incarnation> <lineage> <spec>") m
  else
    let spec := skip_blanks_front (rest_of_line s) in
    match id_parse MemberIdTag (text_of member_text), id_parse FabricDomainIdTag (text_of domain_text) with
    | Some member, Some domain =>
        match parse_constitution spec member domain with
        | Err e => saying ("ERR " +s+ Status_to_string e) m
        | Ok c =>
            let d := mkDeclaration c (mkCounter incarnation)
                       (derive NodeIdTag (id_to_string member) incarnation) zero in
            issuing (call d (mkCounter lineage)) m
        end
    | _, _ => saying "ERR the candidate identity is malformed" m
    end.
(** The verb of a command line, with its default. *)
Definition read_verb_or (default_verb : AuthorityVerb.t) (text : chars) : option AuthorityVerb.t :=
  if nonempty text then parse_verb (text_of text) else Some default_verb.
Definition read_target (s : Stream) : option PeerTarget :=
  let '(s, member_text) := read_word s in
  let '(s, host_text) := read_word s in
  let '(_, port) := read_number s in
  p ← id_parse MemberIdTag (text_of member_text);
  Some (mkTarget p (mkEndpoint (if nonempty host_text then text_of host_text else "127.0.0.1") (port mod 65536))).
Definition describe_decision (d : AuthorityDecision) : string :=
  "outcome=" +s+ Outcome.to_string (ad_outcome d) +s+
  " lifecycle=" +s+ MemberLifecycleState.to_string (ad_lifecycle d) +s+
  " reasons=" +s+ to_dec (size (reasons (explanation d))) +s+
  " decision_digest=" +s+ Digest_to_hex (decision_digest d) +s+
  " summary=" +s+ e_summary (explanation d).
Definition describe_lease (l : AuthorityLease) : string :=
  "lease=" +s+ id_to_string (lease_id l) +s+
  " not_after_tick=" +s+ to_dec (value (lease_not_after l)) +s+
  " issued_epoch=" +s+ to_dec (value (issued_epoch l)) +s+
  " issuer_incarnation=" +s+ to_dec (value (issuer_incarnation l)).
Definition describe_identity (i : MemberIdentity) : string :=
  "member=" +s+ id_to_string (idn_member i) +s+ " domain=" +s+ id_to_string (idn_domain i) +s+
  " generation=" +s+ to_dec (value (idn_generation i)) +s+
  " incarnation=" +s+ to_dec (value (idn_incarnation i)) +s+
  " digest=" +s+ Digest_to_hex (idn_constitution i).

Section commands.
Context (env : Env).
Definition do_authority (s : Stream) (m : Member) : Conv (Member * string) :=
  let '(s, scope_text) := read_word s in
  let '(s, verb_text) := read_word s in
  let '(_, lease_text) := read_word s in
  match read_verb_or AuthorityVerb.Mutate verb_text with
  | None => saying "ERR unknown verb" m
  | Some v =>
      match name_parse ScopeIdTag (text_of scope_text) with
      | Err e => saying ("ERR " +s+ Status_to_string e) m
      | Ok x =>
          let ask l := calling describe_decision (request_authority (fresh_request env) (mkGrant x v) l) m in
          if nonempty lease_text && negb (bool_decide (lease_text = [x2d])) then
            match id_parse LeaseIdTag (text_of lease_text) with
            | None => saying "ERR the lease identifier is malformed" m
            | Some l => ask l
            end
          else ask nil_id
      end
  end.
Definition do_local (s : Stream) (m : Member) : Conv (Member * string) :=
  let '(s, scope_text) := read_word s in
  let '(_, verb_text) := read_word s in
  match read_verb_or AuthorityVerb.Administer verb_text with
  | None => saying "ERR unknown verb" m
  | Some v =>
      match name_parse ScopeIdTag (text_of scope_text) with
      | Err e => saying ("ERR " +s+ Status_to_string e) m
      | Ok x =>
          let d := evaluate_local (mkGrant x v) m in
          saying ("OK outcome=" +s+ Outcome.to_string (ad_outcome d) +s+ " summary=" +s+ e_summary (explanation d)) m
      end
  end.
Definition do_lease (s : Stream) (m : Member) : Conv (Member * string) :=
  let '(s, grants) := read_word s in
  let '(s, not_after_epoch) := read_number s in
  let '(_, lifetime) := read_number s in
  match parse_grants grants AuthorityVerb.Mutate with
  | Err e => saying ("ERR " +s+ Status_to_string e) m
  | Ok l =>
      p ← request_lease l (mkCounter not_after_epoch) (mkCounter lifetime) m;
      Return (p.1, match p.2 with
                   | Leased l => "OK " +s+ describe_lease l
                   | RefusedWith c t => "ERR " +s+ wire_status c t
                   | NoAnswer e => "ERR " +s+ Status_to_string e
                   end)
  end.
Definition observed (o : MemberObservation) : option PeerObservation := head (peers o).
(** The code of the coordinator's response is not looked at. *)
Definition do_probe (report : bool) (s : Stream) (m : Member) : Conv (Member * string) :=
  match read_target s with
  | None => saying "ERR the peer identifier is malformed" m
  | Some t =>
      p ← probe_peers [(t, peer_os env)] m;
      let '(m, o) := p in
      if report then
        let detail := match observed o with
                      | None => "no observation"%string
                      | Some e => ReachabilityState.to_string (peer_state e) +s+ " " +s+ peer_detail e
                      end in
        calling (λ _, detail) (member_report o) m
      else
        saying match observed o with
               | None => "OK UNKNOWN no observation"%string
               | Some e => "OK " +s+ ReachabilityState.to_string (peer_state e) +s+ " incarnation=" +s+
                           to_dec (value (peer_incarnation e)) +s+ " " +s+ peer_detail e
               end m
  end.
Definition do_withdraw (s : Stream) (m : Member) : Conv (Member * string) :=
  let '(s, grants) := read_word s in
  let '(_, lineage) := read_number s in
  match parse_grants grants AuthorityVerb.Mutate with
  | Err e => saying ("ERR " +s+ Status_to_string e) m
  | Ok l => issuing (withdraw l (mkCounter lineage)) m
  end.
Definition do_declare (s : Stream) (m : Member) : Conv (Member * string) :=
  match parse_terms (read_word s).2 with
  | Err e => saying ("ERR " +s+ Status_to_string e) m
  | Ok l => issuing (declare_delegation l) m
  end.
Definition do_restart (s : Stream) (m : Member) : Conv (Member * string) :=
  match read_number s with
  | (None, _) => saying "ERR restart requires an incarnation" m
  | (Some _, n) => issuing (restart_with_new_incarnation (mkCounter n)) m
  end.
Definition do_listen (m : Member) : Conv (Member * string) :=
  let '(m, r) := start_probe_listener (bind_os env) m in
  saying match r with Ok _ => "OK probe listener open"%string | Err e => "ERR " +s+ Status_to_string e end m.

Definition command_word (line : chars) : chars := (read_word (Some line)).2.
Definition handle_command (line : chars) (m : Member) : Conv (Member * string) :=
  let '(s, word) := read_word (Some line) in
  let named name := bool_decide (text_of word = name) in
  if negb (nonempty word) then saying "ERR empty" m
  else if named "stop"%string then saying "OK stopping" m
  else if named "identity"%string then saying ("OK " +s+ describe_identity (member_identity m)) m
  else if named "accept"%string then issuing (Member.accept (lineage_from s)) m
  else if named "reattest"%string then issuing reattest m
  else if named "leave"%string then issuing (leave (lineage_from s)) m
  else if named "fence-self"%string then
    issuing (self_fence (lineage_from s) (wire ReasonCode.MembershipFencedByOrder)
               "the member fenced its own federation authority") m
  else if named "restart"%string then do_restart s m
  else if named "withdraw"%string then do_withdraw s m
  else if named "declare"%string then do_declare s m
  else if named "propose"%string then with_candidate "propose" s propose m
  else if named "endorse"%string then with_candidate "endorse" s endorse m
  else if named "authority"%string then do_authority s m
  else if named "local"%string then do_local s m
  else if named "lease"%string then do_lease s m
  else if named "probe"%string then do_probe true s m
  else if named "remote-probe"%string then do_probe false s m
  else if named "stop-probe-listener"%string then saying "OK probe listener closed" (stop_probe_listener m)
  else if named "start-probe-listener"%string then do_listen m
  else if named "probe-port"%string then saying ("OK " +s+ to_dec (bound_probe_port m)) m
  else if named "digest"%string then
    calling (λ d, "digest=" +s+ Digest_to_hex (dr_state_digest d) +s+ " epoch=" +s+ to_dec (value (dr_epoch d)) +s+
                  " tick=" +s+ to_dec (value (dr_logical_time d))) coordinator_digest m
  else if named "describe"%string then saying ("OK " +s+ member_describe (bound_probe_port m) m) m
  else saying "ERR unknown command" m.
End commands.

(** ** The session *)

(** The runtime, its connection to the coordinator, the flag that ends the loop,
    and what each command still to come gets from outside. *)
Record Tool := mkTool { t_member : Member; t_coordinator : Socket; t_stopping : bool; t_envs : list Env }.
Definition no_env : Env :=
  mkEnv nil_id (mkConnectOs false false false no_socket) (λ _, mkBindOs false false false false None "").
(** Unlike the coordinator, the daemon raises its flag for the word. *)
Definition member_line (line : chars) (t : Tool) : Tool * chars :=
  let '(s, (m, text)) := over (handle_command (default no_env (head (t_envs t))) line (t_member t)) (t_coordinator t) in
  (mkTool m s (t_stopping t || bool_decide (command_word line = stop_line)) (tail (t_envs t)),
   bytes_of text ++ [x0a]).
Definition member_session : Tool → Socket → Tool * Socket := control_session member_line t_stopping.

(** ** The command line *)

(** The configuration, or the text that is printed before the exit. *)
Definition member_options (raw : list string) : string + MemberConfig :=
  match id_parse FederationIdTag (get raw "--federation" "") with
  | None => inl "the federation identifier is malformed"%string
  | Some f =>
      match id_parse MemberIdTag (get raw "--member" ""), id_parse FabricDomainIdTag (get raw "--domain" "") with
      | Some m, Some d =>
          match parse_constitution (bytes_of (get raw "--spec" "")) m d with
          | Err e => inl (Status_to_string e)
          | Ok c =>
              let c := mkConstitution (con_domain c) (con_member c)
                         (mkCounter (get_u64 raw "--generation" (value (con_generation c))))
                         (software_major c) (software_minor c) (software_patch c) (capabilities c) (requirements c)
                         (retained c) (delegated c) (con_description c) in
              let i := get_u64 raw "--incarnation" 1 in
              let node_text := get raw "--node" "" in
              let config n := mkMemberConfig f c n (mkCounter i)
                (mkEndpoint (get raw "--coordinator-host" "127.0.0.1") (get_u64 raw "--coordinator-port" 0 mod 65536))
                (get_u64 raw "--probe-port" 0 mod 65536) (has raw "--listen-for-probes") (mkCounter 1) in
              if bool_decide (node_text = ""%string) then inr (config (derive NodeIdTag (id_to_string m) i))
              else match id_parse NodeIdTag node_text with
                   | Some n => inr (config n)
                   | None => inl "the node identifier is malformed"%string
                   end
          end
      | _, _ => inl "the member and domain identifiers are required"%string
      end
  end.

(** ** What a command sends *)

(** A program without an exchange. *)
Definition silent {A} (cv : Conv A) : Prop := asks cv = None.
Lemma calling_up_to_date {A} d (c : Call (Result A)) m e : up_to_date e (c m) → up_to_date e (calling d c m).
Proof. intros H. unfold calling. by apply up_to_date_bind. Qed.
Lemma request_alone {A} `{Codec A} e t p x : t ≠ MessageType.SubmitArtifact → up_to_date e (request (A := A) t p x).
Proof.
  intros Ht. unfold request. destruct p as [bs|]; [|done]. split; [|done]. intros Hv. by destruct t.
Qed.
Lemma with_candidate_up_to_date name s call m e :
  (∀ d l m e, up_to_date e (call d l m)) → up_to_date e (with_candidate name s call m).
Proof.
  intros Hc. unfold with_candidate. repeat case_match; try done. by apply calling_up_to_date.
Qed.
Lemma request_authority_up_to_date i g l m e : up_to_date e (request_authority i g l m).
Proof.
  unfold request_authority. destruct (attached m); [|done]. apply ask_digest_up_to_date.
  intros w [d|s] e' _; [|done]. unfold query_authority.
  apply up_to_date_bind; [by apply request_up_to_date|]. intros [x|s] e2; [|done].
  by apply ask_digest_up_to_date.
Qed.
Lemma do_probe_up_to_date env b s m e : up_to_date e (do_probe env b s m).
Proof.
  unfold do_probe. destruct (read_target s) as [t|]; [|done]. apply up_to_date_bind.
  - unfold probe_peers. destruct (attached m); [|done]. by apply refresh_up_to_date.
  - intros [m' o] e'. destruct b; [|done]. apply calling_up_to_date.
    unfold member_report. destruct (attached m'); [|done]. by apply request_up_to_date.
Qed.
Lemma do_lease_up_to_date s m e : up_to_date e (do_lease s m).
Proof.
  unfold do_lease. repeat case_match; try done. apply up_to_date_bind; [|done].
  unfold request_lease. destruct (attached m); [|done]. unfold issue_lease.
  apply up_to_date_bind; [by apply request_up_to_date|done].
Qed.
(** The daemon keeps what the runtime promises: whatever line an operator types,
    but for a restart, each artefact that is submitted carries the epoch of the last
    digest the coordinator sent. *)
Theorem commands_carry_told_epoch env line m e (Hword : text_of (command_word line) ≠ "restart"%string) :
  up_to_date e (handle_command env line m).
Proof.
  destruct stamps_all as (H1 & H2 & H3 & H4 & H5 & H6 & H7 & H8).
  unfold handle_command, command_word in *. destruct (read_word (Some line)) as [s word]. cbn [snd] in Hword.
  repeat (case_bool_decide; [|]); destruct (nonempty word); cbn [negb]; try done;
    try (by apply calling_up_to_date, issue_fresh_up_to_date).
  all: try (apply with_candidate_up_to_date; intros; by apply issue_fresh_up_to_date).
  all: try apply do_probe_up_to_date.
  - unfold do_withdraw. repeat case_match; try done. by apply calling_up_to_date, issue_fresh_up_to_date.
  - unfold do_declare. case_match; [|done]. by apply calling_up_to_date, issue_fresh_up_to_date.
  - unfold do_authority. repeat case_match; try done; apply calling_up_to_date, request_authority_up_to_date.
  - unfold do_local. by repeat case_match.
  - apply do_lease_up_to_date.
  - unfold do_listen. by case_match.
  - apply calling_up_to_date. unfold coordinator_digest. destruct (attached m); [|done]. by apply ask_digest_up_to_date.
Qed.
(** A program that ends at once and leaves the member detached. *)
Definition stays (cv : Conv (Member * string)) : Prop := ∃ m text, cv = Return (m, text) ∧ attached m = false.
Lemma saying_stays text m : attached m = false → stays (saying text m).
Proof. intros H. by exists m, text. Qed.
Lemma calling_stays {A} d (c : Call (Result A)) m m' r : c m = Return (m', r) → attached m' = false → stays (calling d c m).
Proof. intros Hc Hm. unfold calling. rewrite Hc. by eexists _, _. Qed.
Lemma issue_fresh_detached build m : attached m = false → ∃ r, issue_fresh build m = Return (m, r).
Proof.
  intros H. unfold issue_fresh. rewrite H. unfold mbind, Conv_bind. destruct (build m) as [a|x]; [|by eexists].
  unfold member_submit. rewrite H. by eexists.
Qed.
Lemma issuing_stays build m : attached m = false → stays (issuing (issue_fresh build) m).
Proof. intros H. destruct (issue_fresh_detached build m H) as [r Hr]. by eapply calling_stays. Qed.
Lemma with_candidate_stays name s call m : attached m = false → (∀ d l, stays (issuing (call d l) m)) →
  stays (with_candidate name s call m).
Proof. intros H Hc. unfold with_candidate. repeat case_match; try done; by apply saying_stays. Qed.
Lemma do_restart_stays s m : attached m = false → stays (do_restart s m).
Proof.
  intros H. unfold do_restart. destruct (read_number s) as [[l|] n]; [|by apply saying_stays].
  unfold issuing, calling, restart_with_new_incarnation.
  destruct (negb _); [by eexists _, _|]. unfold build_reattestation, member_submit.
  change (attached (with_incarnation _ m)) with (attached m). rewrite H. by eexists _, _.
Qed.
Lemma do_probe_stays env b s m : attached m = false → stays (do_probe env b s m).
Proof.
  intros H. unfold do_probe. destruct (read_target s) as [t|]; [|by apply saying_stays].
  unfold probe_peers. rewrite H. unfold mbind, Conv_bind. destruct b; [|by apply saying_stays].
  unfold calling, member_report. cbn [fst]. rewrite H. by eexists _, _.
Qed.
Lemma do_listen_stays env m : attached m = false → stays (do_listen env m).
Proof.
  intros H. unfold do_listen, start_probe_listener. destruct (probe_open m); [by apply saying_stays|].
  destruct (bind_loopback _); by apply saying_stays.
Qed.
(** A member that is detached talks to nobody: every command of its control
    channel ends without an exchange and leaves it detached. *)
Theorem detached_member_is_silent env line m (Hdetached : attached m = false) :
  ∃ m' text, handle_command env line m = Return (m', text) ∧ attached m' = false.
Proof.
  change (stays (handle_command env line m)). unfold handle_command. destruct (read_word (Some line)) as [s word].
  repeat (case_bool_decide; [|]); destruct (nonempty word); cbn [negb]; try (by apply saying_stays);
    try (by apply issuing_stays); try (by apply do_restart_stays); try (by apply do_probe_stays);
    try (by apply do_listen_stays); try (apply with_candidate_stays; [done|intros; by apply issuing_stays]).
  - unfold do_withdraw. repeat case_match; try (by apply saying_stays). by apply issuing_stays.
  - unfold do_declare. case_match; [by apply issuing_stays|by apply saying_stays].
  - unfold do_authority. repeat case_match; try (by apply saying_stays);
      unfold calling, request_authority; rewrite Hdetached; by eexists _, _.
  - unfold do_local. repeat case_match; by apply saying_stays.
  - unfold do_lease. repeat case_match; try (by apply saying_stays). unfold request_lease. rewrite Hdetached. by eexists _, _.
  - apply saying_stays. unfold stop_probe_listener. by destruct (probe_open m).
  - unfold calling, coordinator_digest. rewrite Hdetached. by eexists _, _.
Qed.

(** ** Numbers and portions *)

(** The runtime takes the incarnation 2^64 - 1 for "-1", and no restart follows it. *)
Theorem minus_one_ends_restarts env m (Hinc : value (mc_incarnation (m_config m)) < u64_max) :
  handle_command env (bytes_of "restart -1") m = issuing (restart_with_new_incarnation (mkCounter u64_max)) m ∧
  ∀ i m', value i ≤ u64_max → m_config m' = m_config (with_incarnation (mkCounter u64_max) m) →
    ∃ e, restart_with_new_incarnation i m' = Return (m', Err e).
Proof.
  split; [reflexivity|]. intros i m' Hi Hm. unfold restart_with_new_incarnation. rewrite Hm.
  cbn [with_incarnation m_config mc_incarnation value].
  destruct (N.ltb_spec u64_max (value i)); [lia|]. by eexists.
Qed.

Definition a_tool : Tool :=
  mkTool (mkMember (mkMemberConfig nil_id (initial_constitution nil_id nil_id) nil_id (mkCounter 1)
            (mkEndpoint "127.0.0.1" 0) 0 false (mkCounter 1)) no_welcome false zero zero false false 7) no_socket false [].
Definition sent_by (l : list (list byte)) : string := text_of (sent (member_session a_tool (arriving l)).2).
(** The word "stop" in a longer line ends the loop only with the portion it came
    in, so that two connections with the same bytes are answered differently. *)
Theorem stop_word_depends_on_portions :
  let l := bytes_of "stop now" ++ [x0a] in let k := bytes_of "probe-port" ++ [x0a] in
  stream (arriving [l ++ k]) = stream (arriving [l; k]) ∧
  sent_by [l ++ k] = text_of (bytes_of "OK stopping" ++ x0a :: bytes_of "OK 7" ++ [x0a]) ∧
  sent_by [l; k] = text_of (bytes_of "OK stopping" ++ [x0a]).
Proof. split_and!; vm_compute; reflexivity. Qed.

Lemma commands_carry_told_epoch_witness :
  text_of (command_word (bytes_of "accept 3")) = "accept"%string ∧
  up_to_date None (handle_command no_env (bytes_of "accept 3") (t_member a_tool)).
Proof.
  split; [vm_compute; reflexivity|].
  apply (commands_carry_told_epoch no_env (bytes_of "accept 3") (t_member a_tool) None). vm_compute. discriminate.
Defined.
Lemma detached_member_is_silent_witness :
  ∃ m' text, handle_command no_env (bytes_of "leave") (t_member a_tool) = Return (m', text) ∧ attached m' = false.
Proof. exact (detached_member_is_silent no_env (bytes_of "leave") (t_member a_tool) eq_refl). Defined.
