(* ===== verification/Cli.v ===== *)
(** * The inspection tool

    Models src/apps/cli_main.cpp but for its demonstration: the dispatch of a
    command, the connection options, and each remote command as a program of
    exchanges with what it prints and its exit code; and [Digest::from_hex], which
    only this tool uses.  The properties: inspecting a federation changes nothing
    (asking for an explanation records that decision), a digest
    that is printed reads back, and what "retire" sends before it refuses. *)

From stdpp Require Import relations.
From S2P Require Import Prelude Errors Sha256 Text Codec Ids Names Scope Capability Policy Identity.
From S2P Require Import Explanation Lease Partition Evidence Membership Journal State Derivation.
From S2P Require Import Authority Coordinator Recovery Operations Admission Net Protocol Json Render Server.
From S2P Require Import Client Member AppCommon.

(** ** Digests as text *)

Definition from_hex (hex : list byte) : option Digest :=
  if negb (length hex =? kDigestSize * 2)%nat then None
  else mkDigest <$> mapM (λ i,
         match hex_nibble (char_at hex (i * 2)), hex_nibble (char_at hex (i * 2 + 1)) with
         | Some hi, Some lo => Some (to_byte (N.lor (N.shiftl hi 4) lo))
         | _, _ => None
         end) (seq 0 kDigestSize).

(** ** Options *)

(** What the tool prints on its two streams, and its exit code. *)
Record Output := mkOutput { out_text : string; err_text : string; exit_code : N }.
Definition says (text : string) : Output := mkOutput text "" 0.
Definition refuses (code : N) (text : string) : Output := mkOutput "" ("ffed-cli: " +s+ text +s+ nl) code.
Record Connection := mkConnection { cn_federation : FederationId; cn_endpoint : Endpoint; cn_node : NodeId }.
Definition parse_connection (raw : list string) : Output + Connection :=
  match id_parse FederationIdTag (get raw "--federation" "") with
  | None => inl (refuses 2 "--federation is required and must be a valid identifier")
  | Some f =>
      let port := get_u64 raw "--port" 0 in
      if (port =? 0) || (65535 <? port) then inl (refuses 2 "--port is required")
      else inr (mkConnection f (mkEndpoint (get raw "--host" "127.0.0.1") port) (derive NodeIdTag "ffed-cli" 1))
  end.

(** ** Commands *)

Definition counter_of (r : StatsResponse) (i : nat) : N := default 0 (counters r !! i).
(** What the tool copies from the response; the rest keeps its default. *)
Definition plain_stats (r : StatsResponse) : CoordinatorStats :=
  mkStats (st_state_digest r) (st_stats_epoch r) (st_logical_time r) zero (counter_of r 0) (counter_of r 1)
    (counter_of r 2) (counter_of r 3) (counter_of r 4) (counter_of r 5) (counter_of r 6) 0 0 0 0 false
    (st_reconciling r) (partition_state r) (transport r) "".
Definition true_false (b : bool) : string := if b then "true" else "false".
Definition outcome_line (s : CoordinatorStats) : string :=
  "state_digest=" +s+ Digest_to_hex (cs_state_digest s) +s+ nl +s+
  "epoch=" +s+ to_dec (value (cs_epoch s)) +s+ nl +s+
  "logical_tick=" +s+ to_dec (value (cs_logical_time s)) +s+ nl +s+
  "coordinator_incarnation=" +s+ to_dec (value (cs_incarnation s)) +s+ nl +s+
  "artifacts=" +s+ to_dec (cs_artifacts s) +s+ nl +s+
  "rejected_artifacts=" +s+ to_dec (cs_rejected_artifacts s) +s+ nl +s+
  "duplicate_artifacts=" +s+ to_dec (cs_duplicate_artifacts s) +s+ nl +s+
  "members=" +s+ to_dec (cs_members s) +s+ nl +s+
  "active_members=" +s+ to_dec (cs_active_members s) +s+ nl +s+
  "leases=" +s+ to_dec (cs_leases s) +s+ nl +s+
  "replay_entries=" +s+ to_dec (cs_replay_entries s) +s+ nl +s+
  "partition=" +s+ cs_partition_state s +s+ nl +s+
  "reconciling=" +s+ true_false (cs_reconciling s) +s+ nl +s+
  "durable=" +s+ true_false (cs_durable s) +s+ nl +s+
  "transport=" +s+ cs_transport s +s+ nl +s+
  "recovery=" +s+ cs_recovery s +s+ nl.
Definition stats_json (r : StatsResponse) : JsonWriter → JsonWriter :=
  begin_object >>
  field_text "state_digest" (Digest_to_hex (st_state_digest r)) >>
  field_number "epoch" (value (st_stats_epoch r)) >>
  field_number "logical_tick" (value (st_logical_time r)) >>
  field_number "artifacts" (counter_of r 0) >>
  field_number "members" (counter_of r 3) >>
  field_number "active_members" (counter_of r 4) >>
  field_number "leases" (counter_of r 5) >>
  field_number "replay_entries" (counter_of r 6) >>
  field_text "partition" (partition_state r) >>
  field_flag "reconciling" (st_reconciling r) >>
  field_text "transport" (transport r) >>
  end_object.
(** A request and what is printed about its answer. *)
Definition printing {A} (cv : Conv (Result A)) (show : A → Output) : Conv Output :=
  r ← cv; Return (match r with Ok a => show a | Err e => refuses 1 (Status_to_string e) end).
Definition show_stats (as_json : bool) (r : StatsResponse) : Output :=
  says (if as_json then text_of (out (stats_json r (json_writer true))) +s+ nl else outcome_line (plain_stats r)).
Definition show_state (as_json : bool) (r : StateResponse) : Output :=
  says (if as_json then json r +s+ nl
        else "state_digest=" +s+ Digest_to_hex (sr_state_digest r) +s+ nl +s+ json r +s+ nl).
Definition show_decision (as_json : bool) (d : AuthorityDecision) : Output :=
  mkOutput (render_decision d as_json +s+
            (if as_json then "" else "decision_digest=" +s+ Digest_to_hex (decision_digest d) +s+ nl)) ""
    (if bool_decide (ad_outcome d = Outcome.Granted) then 0 else 3).
Definition show_simple (r : SimpleResponse) : Output :=
  mkOutput (sp_detail r +s+ nl) "" (if sp_code r =? wire ErrorCode.Ok then 0 else 1).
Definition show_leases (r : LeaseListResponse) : Output :=
  says (String.concat "" ((λ l, lease_to_string l +s+ nl) <$> ll_leases r)).
Definition show_artifacts (r : ArtifactListResponse) : Output :=
  says (String.concat "" ((λ a, artifact_to_string a +s+ nl) <$> al_artifacts r) +s+
        "count=" +s+ to_dec (size (al_artifacts r)) +s+ " state_digest=" +s+ Digest_to_hex (al_state_digest r) +s+ nl).

Section commands.
Context (raw : list string) (w : WelcomeResponse) (federation : FederationId) (request_id : RequestId).
Definition json_wanted : bool := has raw "--json".
(** The question of "explain", or what is printed when it is not complete. *)
Definition question : Output + AuthorityRequest :=
  match id_parse MemberIdTag (get raw "--member" ""), id_parse FabricDomainIdTag (get raw "--domain" ""),
        name_parse ScopeIdTag (get raw "--scope" "") with
  | Some m, Some d, Ok s =>
      match parse_verb (get raw "--verb" "observe") with
      | None => inl (refuses 2 "unknown verb")
      | Some v =>
          let digest_text := get raw "--digest" "" in
          let lease_text := get raw "--lease" "" in
          let lease := if bool_decide (lease_text = ""%string) then nil_id
                       else default nil_id (id_parse LeaseIdTag lease_text) in
          let ask digest :=
            inr (mkRequest request_id federation (mkCounter (get_u64 raw "--epoch" (value (w_epoch w))))
                   (mkIdentity d m (mkCounter (get_u64 raw "--generation" 1))
                      (mkCounter (get_u64 raw "--incarnation" 1)) digest (derive NodeIdTag (id_to_string m) 1) zero false)
                   (mkGrant s v) lease zero (mkName "")) in
          if bool_decide (digest_text = ""%string) then ask Digest_zero
          else match from_hex (bytes_of digest_text) with
               | None => inl (refuses 2 "--digest must be 64 lowercase hex digits")
               | Some digest => ask digest
               end
      end
  | _, _, _ => inl (refuses 2 "--member, --domain and --scope are required")
  end.
Definition do_explain : Conv Output :=
  match question with
  | inl o => Return o
  | inr r => printing (query_authority r) (show_decision json_wanted)
  end.
(** [fence] and [retire] share their code: the second asks for an epoch first. *)
Definition do_member (command : string) : Conv Output :=
  match id_parse MemberIdTag (get raw "--member" "") with
  | None => Return (refuses 2 "--member is required")
  | Some m =>
      if bool_decide (command = "fence"%string) then
        printing (fence_member m zero (wire ReasonCode.MembershipFencedByOrder)
                    (get raw "--reason" "operator fence")) show_simple
      else
        _ ← advance_epoch zero (wire ReasonCode.EvidenceUnknown) "";
        Return (refuses 2 "retire is issued by the coordinator control channel")
  end.
Definition do_epoch : Conv Output :=
  let epoch := get_u64 raw "--epoch" 0 in
  if epoch =? 0 then Return (refuses 2 "--epoch is required")
  else printing (advance_epoch (mkCounter epoch) (wire ReasonCode.PartitionSplitSuspendsGlobalMutation)
                   (get raw "--reason" "operator requested re-constitution")) show_simple.
Definition remote_command (command : string) : Conv Output :=
  let named name := bool_decide (command = name) in
  if named "status"%string || named "digest"%string || named "stats"%string then
    printing query_stats (show_stats json_wanted)
  else if named "state"%string || named "members"%string then printing query_state (show_state json_wanted)
  else if named "explain"%string then do_explain
  else if named "leases"%string then printing query_leases show_leases
  else if named "fence"%string || named "retire"%string then do_member command
  else if named "advance-epoch"%string then do_epoch
  else if named "reconcile"%string then
    printing (complete_reconciliation (mkCounter (get_u64 raw "--epoch" 0))) show_simple
  else if named "advance-time"%string then
    printing (advance_time (mkCounter (get_u64 raw "--tick" 0))) show_simple
  else if named "artifacts"%string then printing query_artifacts show_artifacts
  else Return (refuses 2 ("unknown command '" +s+ command +s+
    "' (status, state, members, explain, leases, artifacts, fence, advance-epoch, reconcile, advance-time, demo, permutation)")).
End commands.
Definition run_remote (os : ConnectOs) (request_id : RequestId) (raw : list string) : Output :=
  match parse_connection raw with
  | inl o => o
  | inr c =>
      match client_connect os (cn_endpoint c) (cn_federation c) (cn_node c) (mkCounter 1) with
      | Err e => refuses 1 (Status_to_string e)
      | Ok (s, w) =>
          (over (remote_command raw w (cn_federation c) request_id (get raw "--command" (default ""%string (head raw)))) s).2
      end
  end.

(** ** Dispatch *)

Inductive Mode := Usage | Version | Transport | Demo | Permutations | Remote.
Definition mode_of (raw : list string) : Mode :=
  let command := default ""%string (head raw) in
  let named name := bool_decide (command = name) in
  if named ""%string || named "--help"%string || named "help"%string then Usage
  else if named "version"%string then Version
  else if named "transport"%string then Transport
  else if named "demo"%string then Demo
  else if named "permutation"%string then Permutations
  else Remote.

(** ** A printed digest reads back *)

Lemma hex_of_bytes_pairs l : bytes_of (hex_of_bytes l) = flat_map hex_pair l.
Proof.
  unfold bytes_of, String.list_byte_of_string. induction l as [|b l IH]; [done|]. cbn [flat_map].
  rewrite <-IH. cbn [hex_of_bytes foldr]. by destruct b.
Qed.
(** The tool reads the digests that are printed, and no other text: 64 lowercase
    hexadecimal digits, and the digest is the one that prints as them. *)
Theorem from_hex_exact hex d :
  from_hex hex = Some d ↔ hex = bytes_of (Digest_to_hex d) ∧ length (digest_bytes d) = kDigestSize.
Proof.
  unfold Digest_to_hex. rewrite hex_of_bytes_pairs. unfold from_hex. split.
  - destruct (Nat.eqb_spec (length hex) (kDigestSize * 2)) as [Hlen|]; [|done]; cbn [negb].
    intros (out & Hm & ->)%fmap_Some. cbn [digest_bytes]. apply mapM_Some in Hm as Hf.
    apply Forall2_length in Hf as Hl. rewrite length_seq in Hl. split; [|by rewrite Hl]. symmetry. apply hex_loop.
    { rewrite Hlen, <-Hl. lia. }
    rewrite <-Hl. eapply Forall2_impl; [exact Hf|]. intros i b Hb. cbn beta in Hb. by rewrite Nat.add_comm in Hb.
  - intros [-> Hlen]. destruct d as [out]. cbn [digest_bytes] in *.
    rewrite length_flat_map_hex, Hlen. rewrite (proj2 (Nat.eqb_eq _ _)) by lia. cbn [negb].
    apply fmap_Some. exists out. split; [|done]. apply mapM_Some.
    rewrite <-Hlen. eapply Forall2_impl; [apply hex_loop; [by rewrite length_flat_map_hex|reflexivity]|].
    intros i b Hb. cbn beta. by rewrite Nat.add_comm.
Qed.

(** ** Inspection *)

(** Whatever becomes of the session, the program leaves the coordinator in a state that
    stands in relation [R] to the one it found. *)
Definition leaves {A} (R : Impl → Impl → Prop) (cv : Conv A) : Prop :=
  ∀ n e st, R st.1 (direct n e cv st).1.1.1.
(** A request whose answer does. *)
Definition answer_leaves (R : Impl → Impl → Prop) (t : N) (p : list byte) : Prop :=
  ∀ n e c, R c (answer n e (mkMessage t p) c).1.
Definition harmless (t : N) (p : list byte) : Prop := ∀ n e c, (answer n e (mkMessage t p) c).1 = c.
Lemma harmless_leaves R `{!Reflexive R} t p : harmless t p → answer_leaves R t p.
Proof. intros H n e c. by rewrite H. Qed.
Lemma leaves_return {A} R `{!Reflexive R} (a : A) : leaves R (Return a).
Proof. by intros n e st. Qed.
Lemma leaves_request {A B} `{Codec A} R `{!Reflexive R} t p x (f : Result A → B) :
  (∀ bs, p = Ok bs → answer_leaves R (MessageType.value t) bs) →
  leaves R (r ← request t p x; Return (f r)).
Proof.
  intros Ht n e st. unfold request. destruct p as [bs|s]; [|done].
  specialize (Ht bs eq_refl n e st.1). cbn [mbind Conv_bind direct]. unfold exchange_direct, respond.
  destruct (_ <? _); [done|]. destruct (negb _); [done|].
  by destruct (answer n e _ st.1) as [c [r|s]]; [destruct (_ <? _)|].
Qed.
Lemma queries_harmless p : harmless (MessageType.value MessageType.StatsQuery) p ∧
  harmless (MessageType.value MessageType.QueryState) p ∧ harmless (MessageType.value MessageType.QueryLeases) p ∧
  harmless (MessageType.value MessageType.QueryArtifacts) p.
Proof.
  split_and!; intros n e c.
  - apply reply_pure.
  - change ((answer_state c).1 = c). unfold answer_state, derived. unfold mbind, Op_bind.
    destruct (derive_locked c); [apply reply_pure|done].
  - apply reply_pure.
  - apply reply_pure.
Qed.
(** No federation has an epoch before zero. *)
Lemma epoch_zero_refused reason text c : ∃ e, Coordinator.advance_epoch zero reason text c = (c, Err e).
Proof.
  unfold Coordinator.advance_epoch, derived, get, refuse_if, lift, mbind, Op_bind.
  destruct (derive_locked c) as [s|e]; [|by eexists]. cbv iota beta.
  assert (ltb (epoch s) zero = false) as ->; [|by eexists].
  unfold ltb. change (cmp (epoch s) zero) with (N.compare (value (epoch s)) 0). by destruct (value (epoch s)).
Qed.
Lemma retire_harmless bs :
  encode_payload (mkMemberAction nil_id zero zero (wire ReasonCode.EvidenceUnknown) "") = Ok bs →
  harmless (MessageType.value MessageType.AdvanceEpoch) bs.
Proof.
  intros Hbs n e c.
  change ((answer_action MessageType.AdvanceEpoch bs c).1 = c). unfold answer_action.
  rewrite (decoded_arg (mkMemberAction nil_id zero zero (wire ReasonCode.EvidenceUnknown) "") bs) by (by split_and! || done).
  rewrite answer_simple_state. cbn [member_action ma_epoch ma_reason ma_detail].
  by destruct (epoch_zero_refused (wire ReasonCode.EvidenceUnknown) "" c) as [x ->].
Qed.

(** What a decision may touch: the replay ledger, the clock and the journal. *)
Definition but_for_decisions (c : Impl) : Impl :=
  with_replay [] (Coordinator.with_tick zero (with_journal (journal (initial (config c) [])) [] c)).
(** The same federation, with at most one more decision on record. *)
Definition only_decided (c c' : Impl) : Prop :=
  but_for_decisions c' = but_for_decisions c ∧
  ∃ l, replay c' = replay c ++ l ∧ (length l ≤ 1)%nat.
#[local] Instance only_decided_refl : Reflexive only_decided.
Proof. intros c. split; [done|]. exists []. by rewrite app_nil_r; auto with lia. Qed.
Lemma append_only_decided t bs c c' r :
  journal_append t bs c = (c', r) → but_for_decisions c' = but_for_decisions c ∧ replay c' = replay c.
Proof.
  unfold journal_append. destruct (negb _); [by intros [= <-]|]. destruct (default _ _) as [w f].
  destruct (append w f _ t bs) as [j x]. by intros [= <- _].
Qed.
Lemma commit_only_decided d c : only_decided c (commit_decision d c).1.
Proof.
  unfold commit_decision, Coordinator.get, refuse_if, fail_if, journal_encoded, lift, mbind, Op_bind.
  cbv iota beta. destruct (in_ledger c (ad_request d)); [reflexivity|].
  destruct (_ <=? _); cbv iota beta; [reflexivity|]. destruct (encode d) as [bs|e]; cbv iota beta; [|reflexivity].
  destruct (journal_append _ bs c) as [c1 [[]|e]] eqn:E; apply append_only_decided in E as [E1 E2].
  - split; [exact E1|]. eexists. cbn [modify]. rewrite <-E2. split; [reflexivity|]. cbn. lia.
  - split; [exact E1|]. exists []. by rewrite app_nil_r; auto with lia.
Qed.
Lemma evaluate_only_decided r c : only_decided c (evaluate r c).1.
Proof.
  unfold evaluate, refuse_if, fail_if, derived, Coordinator.get, lift, mbind, Op_bind.
  destruct (is_nil _); cbv iota beta; [reflexivity|].
  destruct (derive_locked c) as [s|e]; cbv iota beta; [|reflexivity]. set (d := evaluate_authority _ _ _ _).
  case_bool_decide; [reflexivity|]. pose proof (commit_only_decided d c) as Hc.
  by destruct (commit_decision d c) as [c1 [[]|e]].
Qed.
Lemma authority_only_decided bs :
  answer_leaves only_decided (MessageType.value MessageType.AuthorityQuery) bs.
Proof.
  intros n e c. change (only_decided c (answer_authority bs c).1).
  unfold answer_authority, lift, mbind, Op_bind. destruct (decode_payload bs) as [r|x]; [|reflexivity].
  pose proof (evaluate_only_decided r c) as Hc. destruct (evaluate r c) as [c1 [d|x]]; [|exact Hc].
  by rewrite reply_pure.
Qed.

(** The commands of the tool that give an order to the coordinator. *)
Definition orders : list string := ["fence"; "advance-epoch"; "reconcile"; "advance-time"].
Lemma command_leaves R `{!Reflexive R} raw w f i command :
  command ∉ orders →
  (command = "explain"%string → ∀ bs, answer_leaves R (MessageType.value MessageType.AuthorityQuery) bs) →
  leaves R (remote_command raw w f i command).
Proof.
  intros Hcommand Hexplain.
  assert (∀ t, t ∈ orders → bool_decide (command = t) = false) as Hno.
  { intros t Ht. apply bool_decide_eq_false. by intros ->. }
  unfold remote_command, printing.
  rewrite (Hno "fence"%string), (Hno "advance-epoch"%string), (Hno "reconcile"%string),
    (Hno "advance-time"%string) by (unfold orders; rewrite !elem_of_cons; tauto).
  destruct (queries_harmless []) as (H1 & H2 & H3 & H4).
  repeat (case_bool_decide; cbn [orb]); try (by apply leaves_return);
    try (eapply leaves_request; first [exact _|intros bs [= <-]; by apply harmless_leaves]).
  - unfold do_explain. destruct (question raw w f i) as [o|r]; [by apply leaves_return|].
    unfold query_authority, request. destruct (encode_payload r) as [bs|x]; [|by apply leaves_return].
    change (leaves R (z ← request (A := AuthorityResponse) MessageType.AuthorityQuery (Ok bs) MessageType.AuthorityResult;
      Return (match y ← z; Ok (decision y) with
              | Ok d => show_decision (json_wanted raw) d | Err e => refuses 1 (Status_to_string e) end))).
    eapply leaves_request; [exact _|auto].
  - unfold do_member. destruct (id_parse _ _) as [m|]; [|by apply leaves_return].
    rewrite (Hno "fence"%string) by (unfold orders; rewrite !elem_of_cons; tauto).
    eapply leaves_request; [exact _|]. intros bs Hbs. by apply harmless_leaves, retire_harmless.
Qed.
(** C30: inspecting a federation changes nothing: whatever the options, whatever the
    coordinator's state and whatever becomes of the session (a reply may be too large for
    a frame), every command but four leaves the coordinator as it was: those that list and
    print, an unknown one, and also "retire", although it asks the coordinator for the
    epoch zero before it says that it is not a command of this tool.  "explain" is the
    exception among them: the question it asks is decided, and the decision recorded, so
    that it may change the replay ledger, by one entry at the end, the clock and the
    journal, and nothing else.  The four are orders: "fence", "advance-epoch", "reconcile"
    and "advance-time". *)
Theorem inspection_changes_nothing raw w f i command n e st
    (Hcommand : command ∉ ["fence"; "advance-epoch"; "reconcile"; "advance-time"]%string) :
  let c' := (direct n e (remote_command raw w f i command) st).1.1.1 in
  (command ≠ "explain"%string → c' = st.1) ∧ only_decided st.1 c'.
Proof.
  split.
  - intros Hne. symmetry. by apply (command_leaves eq).
  - apply (command_leaves only_decided); [done|]. intros _ bs. apply authority_only_decided.
Qed.

(** What "status" prints of the counters is what the coordinator says; whether it is
    durable, which incarnation it is and how it recovered is not transported, and is
    printed as if it were not durable. *)
Theorem status_keeps_counters s :
  plain_stats (stats_response s) =
  mkStats (cs_state_digest s) (cs_epoch s) (cs_logical_time s) zero (cs_artifacts s) (cs_rejected_artifacts s)
    (cs_duplicate_artifacts s) (cs_members s) (cs_active_members s) (cs_leases s) (cs_replay_entries s) 0 0 0 0 false
    (cs_reconciling s) (cs_partition_state s) (cs_transport s) "".
Proof. reflexivity. Qed.

Definition explain_options : list string :=
  ["--member"; "00000000000000000000000000000001"; "--domain"; "00000000000000000000000000000002"; "--scope"; "north"].
Lemma inspection_changes_nothing_witness :
  (direct 0 0 (remote_command [] no_welcome nil_id nil_id "leases") (initial founder_config [], true)).1.1.1 =
    initial founder_config [] ∧
  only_decided (initial founder_config [])
    (direct 0 0 (remote_command explain_options no_welcome nil_id nil_id "explain") (initial founder_config [], true)).1.1.1.
Proof.
  split.
  - apply (inspection_changes_nothing [] no_welcome nil_id nil_id "leases" 0 0 (initial founder_config [], true));
      [rewrite !elem_of_cons, elem_of_nil; intuition discriminate|discriminate].
  - apply (inspection_changes_nothing explain_options no_welcome nil_id nil_id "explain" 0 0 (initial founder_config [], true)).
    rewrite !elem_of_cons, elem_of_nil. intuition discriminate.
Defined.
