(* ===== verification/OrderCheck.v ===== *)
(** * The permutation check

    Models [run_permutation] of src/apps/cli_main.cpp: the artefacts of a federation
    without a genesis record are submitted to fresh coordinators in many orders, and
    the digests of the derived state are compared.  The property: the check holds, for
    at most 64 members, every seed and every number of rounds, however many draws the
    generator needs; with the seed of the tool it is proved to end. *)

From stdpp Require Import relations.
From S2P Require Import Prelude Errors Sha256 Text Codec Ids Names Scope Capability Policy Identity.
From S2P Require Import Explanation Lease Partition Evidence Membership Journal State Derivation.
From S2P Require Import Authority Coordinator Recovery Operations Admission.
From S2P Require Import Random Json Render AppCommon.

(** ** The artefacts *)

Record ScenarioMember := mkScenario {
  sc_member : MemberId;
  sc_domain : FabricDomainId;
  sc_constitution : MemberConstitution;
  sc_incarnation : Incarnation;
  sc_node : NodeId
}.
(** [MemberConstitution()]. *)
Definition no_constitution : MemberConstitution :=
  mkConstitution nil_id nil_id zero 0 0 0 [] [] [] [] "".
Definition make_member (seed : string) (index : N) (generation : Generation) (delegated retained : string) :
    ScenarioMember :=
  let member := derive MemberIdTag (seed +s+ "|member") index in
  let domain := derive FabricDomainIdTag (seed +s+ "|domain") index in
  let spec := "gen=" +s+ to_dec (value generation) +s+ ";" +s+
    (if bool_decide (delegated = ""%string) then "" else "delegated=" +s+ delegated +s+ ";") +s+
    (if bool_decide (retained = ""%string) then "" else "retained=" +s+ retained +s+ ";") +s+
    "caps=federation.protocol.v1:1:known" in
  mkScenario member domain
    (match parse_constitution (bytes_of spec) member domain with Ok c => c | Err _ => no_constitution end)
    (mkCounter 1) (derive NodeIdTag (id_to_string member) 1).
Definition scenario_declaration (m : ScenarioMember) (t : Tick) : MemberDeclaration :=
  mkDeclaration (sc_constitution m) (sc_incarnation m) (sc_node m) t.
Definition build_artifact (f : FederationId) (k : ArtifactKind.t) (d : MemberDeclaration) (i : MemberIdentity)
    (node : NodeId) (l : Lineage) (e : Epoch) (t : Tick) (withdrawn : list ScopeGrant)
    (terms : list DelegationTerms) (reason : N) (text : string) : Artifact :=
  let subj := con_member (decl_constitution d) in
  let a := Artifact_make
    (mkEnvelope nil_id k f subj
       (mkProvenance node (idn_member i) (idn_generation i) (idn_incarnation i) Digest_zero e t) Digest_zero)
    (mkBody d (declaration_identity d) no_genesis no_policy e zero Digest_zero l [] 0 0
       (canonicalize_terms terms) (canonicalize_grants withdrawn) nil_id no_identity [] zero zero zero zero [] []
       Outcome.Unknown reason (wire ReasonCode.EvidenceUnknown) text t) in
  let seed := id_to_string f +s+ "|" +s+ ArtifactKind.to_string k +s+ "|" +s+ id_to_string subj +s+ "|" +s+
              id_to_string (idn_member i) in
  let e := envelope a in
  mkArtifact (mkEnvelope (derive EvidenceIdTag seed (Byte.to_N (nth 0 (digest_bytes (artifact_body_digest (body a))) x00)))
                (art_kind e) (art_federation e) (subject e) (issuer e) (body_digest e)) (body a).
(** The declarations of the scenario carry no time of their own. *)
Definition permutation_members (count : nat) : list ScenarioMember :=
  (λ i, make_member "ffed-permutation" (N.of_nat i + 1) (mkCounter 1)
          "federation.route.advertise:mutate:exclusive" "domain.permutation.control:administer") <$> seq 0 count.
Definition permutation_artifacts (f : FederationId) (ms : list ScenarioMember) : list Artifact :=
  let n := length ms in
  let at_ i := default (mkScenario nil_id nil_id no_constitution zero nil_id) (ms !! (i mod n)%nat) in
  flat_map (λ i,
    let candidate := scenario_declaration (at_ i) (mkCounter 1) in
    let from m := build_artifact f (m : ArtifactKind.t * ScenarioMember).1 candidate
      (declaration_identity (scenario_declaration m.2 (mkCounter 1))) (sc_node m.2) zero (mkCounter 1) (mkCounter 1) [] []
      (wire ReasonCode.EvidenceUnknown) "" in
    from <$> [(ArtifactKind.MembershipProposal, at_ (i + 1)%nat); (ArtifactKind.MembershipAcceptance, at_ i);
              (ArtifactKind.MembershipEndorsement, at_ (i + 2)%nat)]) (seq 0 n).

(** ** The rounds *)

Definition permutation_config (f : FederationId) (n : NodeId) : CoordinatorConfig :=
  mkConfig f n "" default_policy "" 0 false 64 4 128 (mkCounter 1) false no_declaration [].
(** The seed of the tools. *)
Definition kDefaultSeed : N := 0x5eed1234c0ffee.
(** The evidence is handed in one after the other; what becomes of each is not looked
    at, and there is always an answer ([submission_is_answered]). *)
Definition submit_all (l : list Artifact) (c : Impl) : Impl := foldl (λ c a, (submit_artifact a c).1) c l.
(** One round, with the generator it leaves behind; [fuel] bounds the draws for
    one number. *)
Definition permutation_round (fuel : nat) (cfg : CoordinatorConfig) (l : list Artifact) : Gen (option (Result Digest)) := λ r,
  let '(r, shuffled) := shuffle fuel l r in
  (r, match shuffled with
      | None => None
      | Some k => Some (c ← create cfg None no_faults []; Ok (coordinator_state_digest (submit_all k c)))
      end).
(** How the rounds end: the common digest, an error of a coordinator, or the digest
    of a round that is not that of the first. *)
Inductive Verdict := Agree (reference : option Digest) | NoCoordinator (e : Status) | Differ (found expected : Digest).
Fixpoint permutation_rounds (fuel : nat) (cfg : CoordinatorConfig) (l : list Artifact) (reference : option Digest)
    (rounds : nat) : Gen (option Verdict) := λ r,
  match rounds with
  | O => (r, Some (Agree reference))
  | S rounds =>
      let '(r, d) := permutation_round fuel cfg l r in
      match d with
      | None => (r, None)
      | Some (Err e) => (r, Some (NoCoordinator e))
      | Some (Ok d) =>
          let expected := default d reference in
          if bool_decide (d = expected) then permutation_rounds fuel cfg l (Some expected) rounds r
          else (r, Some (Differ d expected))
      end
  end.
(** The bounds of the options; the tool exits with two outside them. *)
Definition permutation_options (raw : list string) : option (N * N * N) :=
  let count := get_u64 raw "--count" 12 in
  let rounds := get_u64 raw "--rounds" 24 in
  if (count =? 0) || (64 <? count) || (rounds =? 0) || (512 <? rounds) then None
  else Some (get_u64 raw "--seed" kDefaultSeed, count, rounds).

(** ** Without a genesis record nothing is decided *)

Definition genesis_free (l : list Artifact) : Prop :=
  ∀ a, a ∈ l → art_kind (envelope a) ≠ ArtifactKind.FederationGenesis.
Lemma accepted_sub f k l a : NoDup (art_evidence <$> l) → a ∈ State.accepted (prepare_artifacts f k l) → a ∈ l.
Proof.
  intros Hd. unfold prepare_artifacts, index_artifacts. rewrite index_distinct by done. cbn [State.accepted by_id quarantined].
  intros Ha%elem_of_sort_by. apply list_elem_of_filter in Ha as [_ Ha].
  apply list_elem_of_fmap in Ha as (p & -> & Hp). apply list_elem_of_filter in Hp as [_ Hp].
  destruct (insert_artifacts_spec l [] Hd) as [_ Hin]; [done|constructor|].
  apply Hin in Hp as [Hp%elem_of_nil|(b & Hb & ->)]; [done|exact Hb].
Qed.
Lemma no_founders l : genesis_free l → founders_of l = [].
Proof.
  intros Hg. unfold founders_of, genesis_of, sole_genesis, genesis_records.
  destruct (of_art_kind _ l) as [|a k] eqn:E; [done|].
  assert (a ∈ of_art_kind ArtifactKind.FederationGenesis l) as Ha by (rewrite E; left).
  unfold of_art_kind in Ha. apply list_elem_of_filter in Ha as [Hk Ha]. exfalso. apply (Hg a Ha).
  unfold is_kind in Hk. by apply bool_decide_eq_true in Hk.
Qed.
Lemma nobody_established i r l ms : derive_state i = Ok r → in_artifacts i = l →
  NoDup (art_evidence <$> l) → genesis_free l → ms ∈ members (state r) → established_state (ms_lifecycle ms) = false.
Proof.
  intros Hr <- Hd Hg Hms. apply not_true_iff_false. intros Hst.
  destruct (derive_state_derived i r Hr) as (s & E & final & Hde).
  apply (rooted_needs_founder s (ms_member ms)).
  - by eapply derived_member_rooted.
  - pose proof (de_setting _ _ _ _ _ Hde) as Hset. unfold derivation_setting in Hset.
    destruct (in_policy i); [|done]. destruct (in_catalog i); [|done]. injection Hset as <-.
    cbn [st_founders setting_of]. apply no_founders. intros a Ha%accepted_sub; [by apply Hg|done].
Qed.
(** A member that nobody sponsors is at most proposed, and no admission is made. *)
Lemma no_decision c s ms : active_members s = [] → genesis_founders c = [] → decision_for c s ms = None.
Proof.
  intros Ha Hg. unfold decision_for. cbv zeta. set (ctx := decision_context c s).
  destruct (derive_membership_inputs (ms_member ms) (by_subject c (ms_member ms)) ctx)
    as (i & Hl & _ & _ & _ & _ & _ & _ & _ & _ & _ & Hadm).
  assert (established_state (lifecycle (derive_membership (ms_member ms) (by_subject c (ms_member ms)) ctx)) = false) as Hst.
  { apply not_true_iff_false. intros Hst. rewrite Hl in Hst.
    apply derive_lifecycle_established in Hst as (_ & _ & _ & _ & Had).
    destruct (Hadm Had) as [_ [Hb|(p & acc & es & ps & Hw)]].
    - subst ctx. unfold decision_context in Hb. cbn [bootstrap_members] in Hb. rewrite Hg in Hb.
      apply bool_decide_eq_true in Hb. by apply elem_of_nil in Hb.
    - pose proof (aw_sponsor _ _ _ _ _ _ _ Hw) as [_ Hin]. subst ctx. cbn [decision_context established_members] in Hin.
      rewrite Ha in Hin. by apply elem_of_nil in Hin. }
  destruct (lifecycle _); try done. unfold admission_for.
  destruct (first_proposal _) as [p|]; [|done]. cbn [mbind option_bind]. cbv zeta. rewrite Ha.
  match goal with |- context [mp_satisfied ?m] => assert (mp_satisfied m = false) as -> end; [|done].
  apply not_true_iff_false. rewrite assess_satisfied. by intros (_ & H & _).
Qed.
Lemma decides_nothing c n : NoDup (art_evidence <$> artifacts c) → genesis_free (artifacts c) →
  decide_loop n c = (c, []).
Proof.
  intros Hd Hg. destruct n as [|n]; [done|]. cbn [decide_loop].
  destruct (derive_locked c) as [s|e] eqn:Hs; [|done].
  assert (decision_batch c s = []) as ->; [|done].
  unfold derive_locked in Hs. apply bind_Ok in Hs as (r & Hr & [= <-]). unfold decision_batch.
  assert (active_members (state r) = []) as Ha.
  { unfold active_members. destruct (filter _ _) as [|ms l] eqn:E; [done|].
    assert (ms ∈ filter (λ m, lifecycle_holds_federation_authority (ms_lifecycle m) = true) (members (state r))) as Hin
      by (rewrite E; left).
    apply list_elem_of_filter in Hin as [Hh Hin].
    pose proof (nobody_established _ _ _ _ Hr eq_refl Hd Hg Hin) as Hn. unfold established_state in Hn.
    by rewrite Hh, orb_true_r in Hn. }
  assert (genesis_founders c = []) as Hf.
  { unfold genesis_founders. destruct (of_art_kind _ (artifacts c)) as [|a k] eqn:E; [done|].
    assert (a ∈ of_art_kind ArtifactKind.FederationGenesis (artifacts c)) as Hin by (rewrite E; left).
    unfold of_art_kind in Hin. apply list_elem_of_filter in Hin as [Hk Hin]. exfalso. apply (Hg a Hin).
    unfold is_kind in Hk. by apply bool_decide_eq_true in Hk. }
  induction (members (state r)) as [|ms l IH]; [done|]. cbn. by rewrite no_decision.
Qed.

(** ** Submitting in any order *)

(** What the coordinator takes into its evidence, when its identifier is new. *)
Definition acceptable (c : Impl) (a : Artifact) : bool :=
  has_value (artifact_validate (catalog c) a) && bool_decide (art_federation (envelope a) = cfg_federation (config c)) &&
  has_value (encode a).
Lemma submission_is_answered a c : ∃ o, (submit_artifact a c).2 = Ok o.
Proof.
  unfold submit_artifact, admit_locked. cbv zeta. destruct (artifact_validate (catalog c) a); [|by eexists].
  destruct (negb _); [by eexists|]. destruct (_ <=? _); [by eexists|]. destruct (same_present c a); [by eexists|].
  destruct (encode a); [|by eexists]. destruct (journal_append _ _ c) as [c1 [|]]; [|by eexists].
  destruct (decide_locked _). by eexists.
Qed.
Lemma submit_fresh a c : durable c = false → size (artifacts c) < kMaxArtifacts →
  NoDup (art_evidence <$> artifacts c ++ [a]) → genesis_free (artifacts c ++ [a]) →
  (submit_artifact a c).1 = if acceptable c a then with_artifacts (artifacts c ++ [a]) c else c.
Proof.
  intros Hdur Hmax Hd Hg. unfold submit_artifact, admit_locked, acceptable. cbv zeta.
  destruct (artifact_validate (catalog c) a) as [[]|e]; [|done]. cbn [has_value andb].
  case_bool_decide; [|done]. cbn [negb andb]. destruct (N.leb_spec kMaxArtifacts (size (artifacts c))); [lia|].
  assert (∀ b, b ∈ artifacts c → art_evidence b ≠ art_evidence a) as Hnew.
  { intros b Hb Heq. rewrite fmap_app in Hd. apply NoDup_app in Hd as (_ & Hd & _).
    apply (Hd (art_evidence b)); [by apply list_elem_of_fmap_2|]. rewrite Heq. by left. }
  assert (same_present c a = false ∧ conflicting_present c a = false) as [-> Hc].
  { unfold same_present, conflicting_present.
    split; apply not_true_iff_false; intros (b & Hb & Hx)%existsb_exists; apply list_elem_of_In, Hnew in Hb;
      apply andb_true_iff in Hx as [Hx%bool_decide_eq_true _]; done. }
  destruct (encode a) as [bs|e]; cbn [has_value]; [|done]. unfold journal_append. rewrite Hdur. cbn [negb].
  rewrite Hc. unfold decide_locked. by rewrite decides_nothing.
Qed.
(** All of a list, into a coordinator that is not durable. *)
Lemma submit_all_fresh l : ∀ c, durable c = false → size (artifacts c ++ l) ≤ kMaxArtifacts →
  NoDup (art_evidence <$> artifacts c ++ l) → genesis_free (artifacts c ++ l) →
  submit_all l c = with_artifacts (artifacts c ++ filter (λ a, acceptable c a = true) l) c.
Proof.
  induction l as [|a l IH]; intros c Hdur Hmax Hd Hg; [cbn; rewrite app_nil_r; by destruct c|].
  change (submit_all (a :: l) c) with (submit_all l (submit_artifact a c).1).
  assert (artifacts c ++ a :: l = (artifacts c ++ [a]) ++ l) as Hcons by by rewrite <-app_assoc.
  rewrite submit_fresh; cycle 1.
  - done.
  - unfold size in *. rewrite length_app in Hmax. cbn [length] in Hmax. lia.
  - rewrite Hcons, fmap_app in Hd. by apply NoDup_app in Hd as [Hd _].
  - intros b Hb. apply Hg. rewrite Hcons. apply elem_of_app. by left.
  - rewrite filter_cons. destruct (acceptable c a) eqn:Ha.
    + rewrite decide_True by done. rewrite IH.
      * cbn [with_artifacts artifacts]. by rewrite <-app_assoc.
      * done.
      * cbn [with_artifacts artifacts]. by rewrite <-Hcons.
      * cbn [with_artifacts artifacts]. by rewrite <-Hcons.
      * cbn [with_artifacts artifacts]. by rewrite <-Hcons.
    + rewrite decide_False by done. apply IH; [done| | |].
      * unfold size in *. rewrite length_app in *. cbn [length] in Hmax. lia.
      * rewrite !fmap_app, fmap_cons in *. apply NoDup_app in Hd as (H1 & H2 & H3).
        apply NoDup_cons in H3 as [_ H3]. apply NoDup_app. split_and!; [done| |done].
        intros x Hx Hin. apply (H2 x Hx). by right.
      * intros b Hb. apply Hg. rewrite elem_of_app in *. destruct Hb; [by left|right; by right].
Qed.
Lemma submission_permutes c l k
    (Hfresh : durable c = false ∧ artifacts c = [] ∧ leases c = [] ∧ replay c = [])
    (Hmax : size l ≤ kMaxArtifacts) (Hids : NoDup (art_evidence <$> l)) (Hgen : genesis_free l) (Hperm : l ≡ₚ k) :
  derive_locked (submit_all l c) = derive_locked (submit_all k c) ∧
  coordinator_state_digest (submit_all l c) = coordinator_state_digest (submit_all k c).
Proof.
  destruct Hfresh as (Hdur & Ha & Hl & Hr).
  assert (derive_locked (submit_all l c) = derive_locked (submit_all k c)) as Heq.
  2: { split; [exact Heq|]. unfold coordinator_state_digest. by rewrite Heq. }
  rewrite (submit_all_fresh l), (submit_all_fresh k); rewrite ?Ha, ?app_nil_l; try done.
  - unfold derive_locked. f_equal. apply derivation_permutes.
    + split; try done; unfold derivation_inputs, with_artifacts;
        cbn [in_artifacts in_leases in_replay_ledger artifacts leases replay]; [by rewrite Hperm|by rewrite Hl..].
    + cbn [in_artifacts derivation_inputs with_artifacts artifacts]. eapply sublist_NoDup; [exact Hids|].
      apply fmap_sublist. apply sublist_filter.
    + cbn [in_leases derivation_inputs with_artifacts leases]. rewrite Hl. constructor.
    + cbn [in_replay_ledger derivation_inputs with_artifacts replay]. rewrite Hr. constructor.
  - unfold size. by rewrite <-Hperm.
  - by rewrite <-Hperm.
  - intros a Hin. apply Hgen. by rewrite Hperm.
Qed.
(** Without a genesis record the order of arrival is irrelevant to a coordinator:
    submitting the same evidence in two orders to a fresh coordinator in memory gives
    the same derived state, and so the same digest. *)
Theorem submission_order_is_irrelevant c l k
    (Hfresh : durable c = false ∧ artifacts c = [] ∧ leases c = [] ∧ replay c = [])
    (Hmax : size l ≤ kMaxArtifacts) (Hids : NoDup (art_evidence <$> l)) (Hgen : genesis_free l) (Hperm : l ≡ₚ k) :
  derive_locked (submit_all l c) = derive_locked (submit_all k c) ∧
  coordinator_state_digest (submit_all l c) = coordinator_state_digest (submit_all k c).
Proof. exact (submission_permutes c l k Hfresh Hmax Hids Hgen Hperm). Qed.

(** ** The check holds *)

(** Whether the generator gives every number within [fuel] draws. *)
Fixpoint shuffles {A} (fuel : nat) (l : list A) (rounds : nat) (r : Rng) : bool :=
  match rounds with
  | O => true
  | S rounds => let '(r, k) := shuffle fuel l r in if bool_decide (is_Some k) then shuffles fuel l rounds r else false
  end.
Lemma permutation_coordinator f n : is_nil f = false → is_nil n = false →
  ∃ c, create (permutation_config f n) None no_faults [] = Ok c ∧
    durable c = false ∧ artifacts c = [] ∧ leases c = [] ∧ replay c = [].
Proof.
  intros Hf Hn. unfold create.
  assert (validate_config (permutation_config f n) = Ok tt) as ->.
  { unfold validate_config. cbn [permutation_config cfg_federation cfg_node cfg_policy worker_threads max_connections].
    rewrite Hf, Hn. assert (validate_policy default_policy = Ok tt) as -> by (vm_compute; reflexivity). reflexivity. }
  cbn [mbind Result_bind]. unfold load_journal. rewrite bool_decide_true by reflexivity.
  cbn [mbind Result_bind]. eexists. split; [reflexivity|].
  unfold decide_locked. rewrite decides_nothing; [done|constructor|by intros a Ha%elem_of_nil].
Qed.
Lemma permutation_rounds_hold fuel cfg l c rounds : ∀ reference r,
  create cfg None no_faults [] = Ok c →
  durable c = false ∧ artifacts c = [] ∧ leases c = [] ∧ replay c = [] →
  size l ≤ kMaxArtifacts → NoDup (art_evidence <$> l) → genesis_free l →
  let d := coordinator_state_digest (submit_all l c) in
  let v := (permutation_rounds fuel cfg l reference rounds r).2 in
  reference = None ∨ reference = Some d →
  (v = None ∧ shuffles fuel l rounds r = false) ∨
  ∃ x, v = Some (Agree x) ∧ (x = Some d ∨ rounds = O ∧ x = reference).
Proof.
  intros reference r Hc Hfresh Hmax Hids Hgen d. cbv zeta. revert reference r.
  induction rounds as [|rounds IH]; intros reference r Href; cbn [permutation_rounds shuffles]; [eauto 10|].
  unfold permutation_round. destruct (shuffle fuel l r) as [r1 k] eqn:Hk.
  case_bool_decide as Hsome; [|left; by destruct k as [k|]; [destruct Hsome; eauto|]].
  destruct Hsome as [k' ->]. rewrite Hc. cbn [mbind Result_bind].
  apply shuffle_perm in Hk.
  destruct (submission_permutes c l k' Hfresh Hmax Hids Hgen (symmetry Hk)) as [_ <-]. fold d.
  assert (default d reference = d) as Hd by (by destruct Href as [->| ->]). cbv zeta.
  rewrite Hd, bool_decide_true by done.
  destruct (IH (Some d) r1 (or_intror eq_refl)) as [?|(x & Hr & Hx)]; [by left|right].
  exists x. split; [exact Hr|]. destruct Hx as [Hx|[_ Hx]]; by left.
Qed.

(** Whether the draws end does not depend on what is shuffled. *)
Lemma shuffle_from_length {A B} fuel i : ∀ (l : list A) (k : list B) r,
  (shuffle_from fuel i l r).1 = (shuffle_from fuel i k r).1 ∧
  (is_Some (shuffle_from fuel i l r).2 ↔ is_Some (shuffle_from fuel i k r).2).
Proof.
  induction i as [|i IH]; intros l k r; [by repeat split; eauto|].
  destruct i as [|i]; [by repeat split; eauto|]. cbn [shuffle_from].
  unfold mbind, Gen_bind. destruct (below _ _ r) as [r1 [j|]]; [apply IH|].
  split; [done|]. split; intros [? [=]].
Qed.
Lemma shuffles_length {A B} fuel rounds : ∀ (l : list A) (k : list B) r,
  length l = length k → shuffles fuel l rounds r = shuffles fuel k rounds r.
Proof.
  induction rounds as [|rounds IH]; intros l k r Hlen; [done|]. cbn [shuffles].
  destruct (shuffle_from_length fuel (length k) l k r) as [Hr Hs]. unfold shuffle. rewrite Hlen.
  destruct (shuffle_from fuel (length k) l r) as [r1 x], (shuffle_from fuel (length k) k r) as [r2 y].
  cbn [fst snd] in *. subst r2. rewrite (bool_decide_ext _ _ Hs). case_bool_decide; [by apply IH|done].
Qed.
(** The draws of the tool's own defaults: 24 rounds over the records of 12 members. *)
Lemma default_draws_end : shuffles 4 (seq 0 36) 24 (reseed kDefaultSeed) = true.
Proof. vm_cast_no_check (eq_refl true). Qed.
Lemma permutation_genesis_free f ms : genesis_free (permutation_artifacts f ms).
Proof.
  intros a Ha. unfold permutation_artifacts in Ha. apply list_elem_of_In, in_flat_map in Ha as (i & _ & Ha).
  apply list_elem_of_In in Ha. rewrite !fmap_cons, fmap_nil, !elem_of_cons, elem_of_nil in Ha.
  by destruct Ha as [->|[->|[->|[]]]].
Qed.
Lemma permutation_length f ms : length (permutation_artifacts f ms) = (3 * length ms)%nat.
Proof.
  unfold permutation_artifacts. rewrite (flat_map_constant_length (c := 3)); [by rewrite length_seq, Nat.mul_comm|done].
Qed.
(** C21: the permutation check of the tool never finds a difference: for at most 64
    members, unless two of the identifiers it derives collide, and for every seed and
    number of rounds, no coordinator fails and no round's digest differs from another's:
    when the rounds end, they agree on the digest of the order in which the artefacts
    were built.  They end whenever the draws do; a draw of the generator is repeated
    while it falls below a threshold, without a bound in the code, so the rounds are
    run with a bound on each draw, and with any bound they agree or have met it.  With
    the default seed, count and rounds, four draws for a number are always enough. *)
Theorem permutation_check_holds f n count
    (Hf : is_nil f = false) (Hn : is_nil n = false) (Hcount : (count ≤ 64)%nat)
    (Hids : NoDup (art_evidence <$> permutation_artifacts f (permutation_members count))) :
  ∃ c, create (permutation_config f n) None no_faults [] = Ok c ∧
    let l := permutation_artifacts f (permutation_members count) in
    let d := coordinator_state_digest (submit_all l c) in
    let verdict fuel rounds s :=
      (permutation_rounds fuel (permutation_config f n) l None rounds (reseed s)).2 in
    (∀ fuel rounds s, rounds ≠ O →
       verdict fuel rounds s = Some (Agree (Some d)) ∨
       verdict fuel rounds s = None ∧ shuffles fuel l rounds (reseed s) = false) ∧
    (count = 12%nat → verdict 4%nat 24%nat kDefaultSeed = Some (Agree (Some d))).
Proof.
  destruct (permutation_coordinator f n Hf Hn) as (c & Hc & Hfresh). exists c. split; [exact Hc|].
  intros l d verdict. assert (∀ fuel rounds s, rounds ≠ O →
       verdict fuel rounds s = Some (Agree (Some d)) ∨
       verdict fuel rounds s = None ∧ shuffles fuel l rounds (reseed s) = false) as Hall.
  { intros fuel rounds s Hrounds.
    destruct (permutation_rounds_hold fuel (permutation_config f n) l c rounds None (reseed s) Hc Hfresh)
      as [?|(x & Hx & [->|[? _]])]; [|done|apply permutation_genesis_free|by left|by right|by left|done].
    unfold l, size. rewrite permutation_length. unfold permutation_members. rewrite length_fmap, length_seq.
    unfold kMaxArtifacts. lia. }
  split; [exact Hall|]. intros ->. destruct (Hall 4%nat 24%nat kDefaultSeed) as [H|[_ H]]; [done|exact H|].
  rewrite (shuffles_length 4 24 _ (seq 0 36)), default_draws_end in H; [done|apply permutation_length].
Qed.

Definition check_federation : FederationId := derive FederationIdTag "ffed-permutation" kDefaultSeed.
Definition check_node : NodeId := derive NodeIdTag "ffed-permutation-node" kDefaultSeed.
Lemma check_example :
  negb (is_nil check_federation) && negb (is_nil check_node) &&
  bool_decide (NoDup (art_evidence <$> permutation_artifacts check_federation (permutation_members 12))) = true.
Proof. vm_cast_no_check (eq_refl true). Qed.
Lemma check_parts a b c : negb a && negb b && c = true → a = false ∧ b = false ∧ c = true.
Proof. by destruct a, b, c. Qed.
Lemma permutation_check_holds_witness :
  ∃ c d, create (permutation_config check_federation check_node) None no_faults [] = Ok c ∧
    (permutation_rounds 4 (permutation_config check_federation check_node)
      (permutation_artifacts check_federation (permutation_members 12)) None 24 (reseed kDefaultSeed)).2 =
    Some (Agree (Some d)).
Proof.
  destruct (check_parts _ _ _ check_example) as (Hf & Hn & Hids).
  destruct (permutation_check_holds check_federation check_node 12 Hf Hn
              ltac:(lia) (proj1 (bool_decide_eq_true _) Hids)) as (c & Hc & _ & Hr).
  exists c. eexists. exact (conj Hc (Hr eq_refl)).
Defined.
Lemma submission_order_is_irrelevant_witness :
  ∃ c, create (permutation_config check_federation check_node) None no_faults [] = Ok c ∧
    coordinator_state_digest (submit_all (permutation_artifacts check_federation (permutation_members 12)) c) =
    coordinator_state_digest (submit_all (reverse (permutation_artifacts check_federation (permutation_members 12))) c).
Proof.
  destruct (check_parts _ _ _ check_example) as (Hf & Hn & Hids).
  destruct (permutation_coordinator check_federation check_node Hf Hn) as (c & Hc & Hfresh). exists c. split; [exact Hc|].
  refine (proj2 (submission_order_is_irrelevant c (permutation_artifacts check_federation (permutation_members 12)) _
    Hfresh _ (proj1 (bool_decide_eq_true _) Hids) (permutation_genesis_free _ _) (symmetry (reverse_Permutation _)))).
  unfold size. rewrite permutation_length. vm_compute. discriminate.
Defined.
