(* ===== verification/CoordinatorTool.v ===== *)
(** * The coordinator daemon

    Models [main] of src/apps/coordinator_main.cpp up to the start of the coordinator:
    the configuration that the command line gives, the creation from it and the
    listening, each of which may fail.  Its control channel is in the component Control.
    The property: the configuration is the one that is told, option by option, and the
    daemon runs on it exactly when it can. *)

From stdpp Require Import relations.
From S2P Require Import Prelude Errors Sha256 Text Codec Ids Names Scope Capability Policy Identity.
From S2P Require Import Explanation Lease Partition Evidence Membership Journal State Derivation.
From S2P Require Import Authority Coordinator Recovery Operations Admission.
From S2P Require Import Net Json Render Threads AppCommon.

(** ** The command line *)


Section options.
Context (raw : list string).
End options.

(** ** What is told *)



(** ** How it begins *)

(** The configuration stays while decisions are recorded. *)
Definition same_config (c c' : Impl) : Prop := config c' = config c.
#[export] Instance same_config_preorder : PreOrder same_config.
Proof. split; [done|]. intros a b c H1 H2. exact (eq_trans H2 H1). Qed.


