(* ===== verification/Process.v ===== *)
(** * Child processes

    Models the POSIX branch of src/process.cpp: what a handle to a child does with
    [fork], [waitpid] and [kill], and what the child does between [fork] and [execv].
    The answers of the system are arguments of the operations, and every call is
    written down with its answer.  The properties: over any use of any number of
    handles, moves included, a signal or a wait only ever names a child of this
    process that was not collected yet, whose number cannot have been given to
    another process; a collected exit code stays; and the code that [terminate_now]
    makes up. *)

From stdpp Require Import gmap.
From S2P Require Import Prelude Errors Text.

(** ** The system *)

(** How a child ended, as the macros [WIFEXITED] and [WEXITSTATUS] tell it. *)
Inductive Ending := Exited (code : Z) | Signalled (signal : N).
Inductive ForkAnswer := ForkFailed (text : string) | Forked (pid : N).
Inductive WaitAnswer := WaitFailed (text : string) | StillRunning | Collected (e : Ending).
Inductive KillAnswer := KillFailed (text : string) | SignalSent.
(** The calls of the parent, each with what it answered. *)
Inductive Call :=
  | Fork (a : ForkAnswer)
  | Waitpid (pid : N) (nohang : bool) (a : WaitAnswer)
  | Kill (pid : N) (a : KillAnswer).

(** ** One handle *)

Record ProcessSpec := mkProcessSpec {
  executable : string;
  spec_arguments : list string;
  working_directory : string;
  stdout_path : string;
  stderr_path : string
}.
(** [handle_] is a pointer made from the process number; zero is the null pointer. *)
Record ChildProcess := mkChild { handle : N; pid : N; waited : bool; exit_code : Z }.
Definition no_child : ChildProcess := mkChild 0 0 false 0.
Definition valid (c : ChildProcess) : bool := negb (handle c =? 0).
Definition collect (e : Ending) (c : ChildProcess) : ChildProcess :=
  mkChild (handle c) (pid c) true (match e with Exited code => code | Signalled _ => (-1)%Z end).
Definition spawn (spec : ProcessSpec) (a : ForkAnswer) : Result ChildProcess * list Call :=
  if bool_decide (executable spec = "") then (fail ErrorCode.InvalidArgument "no executable was given", [])
  else
    (match a with
     | ForkFailed text => fail ErrorCode.IoError ("fork failed: " +s+ text)
     | Forked p => Ok (mkChild p p false 0)
     end, [Fork a]).
(** A [waitpid] without options that answered zero would leave the status at zero. *)
Definition wait (a : WaitAnswer) (c : ChildProcess) : Result Z * ChildProcess * list Call :=
  if waited c then (Ok (exit_code c), c, [])
  else if pid c =? 0 then (fail ErrorCode.NotInitialized "process has no pid", c, [])
  else
    let calls := [Waitpid (pid c) false a] in
    match a with
    | WaitFailed text => (fail ErrorCode.Internal ("waitpid failed: " +s+ text), c, calls)
    | Collected e => (Ok (exit_code (collect e c)), collect e c, calls)
    | StillRunning => (Ok 0%Z, collect (Exited 0) c, calls)
    end.
(** What the last [waitpid] answers is not looked at. *)
Definition terminate_now (k : KillAnswer) (a : WaitAnswer) (c : ChildProcess) :
    Result unit * ChildProcess * list Call :=
  if pid c =? 0 then (fail ErrorCode.NotInitialized "process has no pid", c, [])
  else if waited c then (Ok tt, c, [])
  else
    match k with
    | KillFailed text => (fail ErrorCode.Internal ("kill failed: " +s+ text), c, [Kill (pid c) k])
    | SignalSent =>
        (Ok tt, mkChild (handle c) (pid c) true 1, [Kill (pid c) k; Waitpid (pid c) false a])
    end.
Definition running (a : WaitAnswer) (c : ChildProcess) : bool * ChildProcess * list Call :=
  if (pid c =? 0) || waited c then (false, c, [])
  else
    let calls := [Waitpid (pid c) true a] in
    match a with
    | StillRunning => (true, c, calls)
    | Collected e => (false, collect e c, calls)
    | WaitFailed _ => (false, c, calls)
    end.
Definition release (c : ChildProcess) : ChildProcess := mkChild 0 (pid c) (waited c) (exit_code c).
Definition close (c : ChildProcess) : Result unit * ChildProcess := (Ok tt, release c).
(** What is left of a handle that was moved from. *)
Definition moved_from (c : ChildProcess) : ChildProcess := mkChild 0 0 (waited c) (exit_code c).

(** ** The child, until it is another program *)

Inductive ChildCall :=
  | Chdir (path : string)
  | Open (path : string) (truncate : bool)
  | Dup2 (fd : N) (target : N)
  | CloseFd (fd : N)
  | Execv (path : string) (argv : list string)
  | Exit (code : N).
Section child.
(** Whether [chdir] succeeds, and the descriptor each [open] gives, if any. *)
Context (chdir_ok : bool) (opens : string → option N).
Definition redirect (path : string) (target : N) : list ChildCall :=
  let '(name, truncate) := if bool_decide (path = "") then ("/dev/null"%string, false) else (path, true) in
  Open name truncate ::
  match opens name with Some fd => [Dup2 fd target; CloseFd fd] | None => [] end.
(** The calls in order; [execv] only returns when it fails, and the exit follows it. *)
Definition child_body (spec : ProcessSpec) : list ChildCall :=
  let start :=
    redirect (stdout_path spec) 1 ++ redirect (stderr_path spec) 2 ++
    [Execv (executable spec) (executable spec :: spec_arguments spec); Exit 127] in
  if bool_decide (working_directory spec = "") then start
  else Chdir (working_directory spec) :: if chdir_ok then start else [Exit 127].
End child.

(** ** Many handles *)

(** The handles of a program by number, and its children that were not collected. *)
Record Parent := mkParent { handles : N → ChildProcess; uncollected : gset N }.
Definition set_handle (i : N) (c : ChildProcess) (p : Parent) : Parent :=
  mkParent (λ j, if decide (j = i) then c else handles p j) (uncollected p).
Definition no_children : Parent := mkParent (λ _, no_child) ∅.
Inductive Use :=
  | Spawning (i : N) (spec : ProcessSpec) (a : ForkAnswer)
  | Waiting (i : N) (a : WaitAnswer)
  | Terminating (i : N) (k : KillAnswer) (a : WaitAnswer)
  | Asking (i : N) (a : WaitAnswer)
  | Closing (i : N)
  | Moving (i j : N)
  | Ending_scope (i : N).
(** The calls that a use makes, and the handles after it; [Moving i j] is the
    assignment of [j] to [i], of which a handle to itself is none, and a handle whose
    scope ends is made anew. *)
Definition used (u : Use) (p : Parent) : (N → ChildProcess) * list Call :=
  let put i c := handles (set_handle i c p) in
  match u with
  | Spawning i spec a =>
      let '(r, calls) := spawn spec a in
      (match r with Ok c => put i c | Err _ => handles p end, calls)
  | Waiting i a => let '(_, c, calls) := wait a (handles p i) in (put i c, calls)
  | Terminating i k a => let '(_, c, calls) := terminate_now k a (handles p i) in (put i c, calls)
  | Asking i a => let '(_, c, calls) := running a (handles p i) in (put i c, calls)
  | Closing i => (put i (close (handles p i)).2, [])
  | Moving i j =>
      if decide (i = j) then (handles p, [])
      else (handles (set_handle i (handles p j) (set_handle j (moved_from (handles p j)) p)), [])
  | Ending_scope i => (put i no_child, [])
  end.
(** What a call does to the children that are not collected. *)
Definition call_effect (children : gset N) (call : Call) : gset N :=
  match call with
  | Fork (Forked n) => {[ n ]} ∪ children
  | Waitpid n _ (Collected _) => children ∖ {[ n ]}
  | _ => children
  end.
Definition use (u : Use) (p : Parent) : Parent :=
  let '(h, calls) := used u p in mkParent h (foldl call_effect (uncollected p) calls).
(** The system gives a new child a number that no uncollected child has, and not zero. *)
Definition possible (u : Use) (p : Parent) : bool :=
  match u with
  | Spawning _ _ (Forked n) => negb (n =? 0) && bool_decide (n ∉ uncollected p)
  | _ => true
  end.
Inductive reached : Parent → Prop :=
  | reached_start : reached no_children
  | reached_use u p : reached p → possible u p = true → reached (use u p).
(** A signal or a wait names a child that is not collected. *)
Definition names_own_child (children : gset N) (call : Call) : Prop :=
  match call with
  | Fork _ => True
  | Waitpid n _ _ | Kill n _ => n ∈ children
  end.

(** ** Only own children *)

Definition live (c : ChildProcess) : Prop := pid c ≠ 0 ∧ waited c = false.
(** Live handles name uncollected children, each its own. *)
Record tidy (p : Parent) : Prop := {
  td_own : ∀ i, live (handles p i) → pid (handles p i) ∈ uncollected p;
  td_apart : ∀ i j, live (handles p i) → live (handles p j) → pid (handles p i) = pid (handles p j) → i = j
}.
Lemma tidy_start : tidy no_children.
Proof. split; [by intros i [[] _]|by intros i j [[] _]]. Qed.
(** A handle that gets less: still its child, or no live one; the others stay, and a
    child is only collected by its own handle, which is then not live. *)
Lemma tidy_less p i c children : tidy p →
  (live c → live (handles p i) ∧ pid c = pid (handles p i)) →
  (∀ n, n ∈ uncollected p → n ∈ children ∨ (n = pid (handles p i) ∧ live (handles p i) ∧ ¬ live c)) →
  tidy (mkParent (handles (set_handle i c p)) children).
Proof.
  intros [Hown Hapart] Hc Hch.
  split; cbn [handles set_handle uncollected].
  - intros j Hj. destruct (decide (j = i)) as [->|Hne].
    + destruct (Hc Hj) as [Hl ->]. destruct (Hch _ (Hown i Hl)) as [H|(_ & _ & H)]; [exact H|done].
    + destruct (Hch _ (Hown j Hj)) as [H|(H & Hl & _)]; [exact H|]. by destruct Hne, (Hapart j i Hj Hl H).
  - intros j k Hj Hk Heq. destruct (decide (j = i)) as [->|Hji], (decide (k = i)) as [->|Hki]; [done|..].
    + destruct (Hc Hj) as [Hl Hp]. by apply Hapart; [| |rewrite <-Hp].
    + destruct (Hc Hk) as [Hl Hp]. by apply Hapart; [| |rewrite <-Hp].
    + by apply Hapart.
Qed.
Lemma tidy_spawned p i n : tidy p → n ≠ 0 → n ∉ uncollected p →
  tidy (mkParent (handles (set_handle i (mkChild n n false 0) p)) ({[ n ]} ∪ uncollected p)).
Proof.
  intros [Hown Hapart] Hn Hfresh. split; cbn [handles set_handle uncollected].
  - intros j Hj. destruct (decide (j = i)) as [->|Hne]; [cbn; set_solver|]. specialize (Hown j Hj). set_solver.
  - intros j k Hj Hk Heq. destruct (decide (j = i)) as [->|Hji], (decide (k = i)) as [->|Hki]; [done|..].
    + cbn in Heq. rewrite Heq in Hfresh. by destruct Hfresh; apply Hown.
    + cbn in Heq. rewrite <-Heq in Hfresh. by destruct Hfresh; apply Hown.
    + by apply Hapart.
Qed.
Lemma tidy_moved p i j : tidy p → i ≠ j →
  tidy (mkParent (handles (set_handle i (handles p j) (set_handle j (moved_from (handles p j)) p))) (uncollected p)).
Proof.
  intros [Hown Hapart] Hij. split; cbn [handles set_handle uncollected].
  - intros k Hk. destruct (decide (k = i)); [by apply Hown|]. destruct (decide (k = j)); [by destruct Hk as [[] _]|by apply Hown].
  - intros k l Hk Hl Heq.
    destruct (decide (k = i)) as [->|Hki], (decide (l = i)) as [->|Hli]; [done|..];
      try destruct (decide (k = j)) as [->|Hkj]; try destruct (decide (l = j)) as [->|Hlj];
      try (by destruct Hk as [[] _]); try (by destruct Hl as [[] _]).
    + by destruct Hlj; apply Hapart.
    + by destruct Hkj; apply Hapart.
    + by apply Hapart.
Qed.
Definition collects (n : N) (call : Call) : bool :=
  match call with Waitpid m _ (Collected _) => m =? n | _ => false end.
(** An operation on one handle: its calls name the child of a live handle, and it
    leaves the handle as it was, or not live, or it collected nothing. *)
Definition handle_step (c c' : ChildProcess) (calls : list Call) : Prop :=
  (live c' → live c ∧ pid c' = pid c) ∧
  Forall (λ call, live c ∧ match call with Fork _ => False | Waitpid n _ _ | Kill n _ => n = pid c end) calls ∧
  (∀ n, existsb (collects n) calls = true → ¬ live c').
Ltac handle_cases c :=
  destruct (waited c) eqn:?, (N.eqb_spec (pid c) 0) as [?|?]; cbn;
  repeat match goal with |- context [match ?a with _ => _ end] => is_var a; destruct a; cbn end;
  unfold live; cbn; rewrite ?Forall_cons, ?Forall_nil; naive_solver.
Lemma wait_step a c : handle_step c (wait a c).1.2 (wait a c).2.
Proof. unfold wait, handle_step. handle_cases c. Qed.
Lemma terminate_step k a c : handle_step c (terminate_now k a c).1.2 (terminate_now k a c).2.
Proof. unfold terminate_now, handle_step. handle_cases c. Qed.
Lemma running_step a c : handle_step c (running a c).1.2 (running a c).2.
Proof. unfold running, handle_step. handle_cases c. Qed.
Lemma effects_keep calls n : ∀ children, n ∈ children → existsb (collects n) calls = false →
  n ∈ foldl call_effect children calls.
Proof.
  induction calls as [|call calls IH]; intros children Hn Hc; [done|].
  cbn [foldl existsb] in *. apply orb_false_iff in Hc as [Hc Hcs]. apply IH; [|exact Hcs].
  destruct call as [[]|m b [| |e]|]; cbn in *; try set_solver. apply N.eqb_neq in Hc. set_solver.
Qed.
(** What one handle may do keeps all of them tidy, and every call is an own one. *)
Lemma step_tidy p i c' calls : tidy p → handle_step (handles p i) c' calls →
  tidy (mkParent (handles (set_handle i c' p)) (foldl call_effect (uncollected p) calls)) ∧
  Forall (names_own_child (uncollected p)) calls.
Proof.
  intros Ht (Hlive & Hcalls & Hdone). split.
  - apply tidy_less; [done..|]. intros n Hn.
    destruct (existsb (collects n) calls) eqn:Hex; [|left; by apply effects_keep].
    right. pose proof (Hdone n Hex) as Hdead. apply existsb_exists in Hex as (call & Hin & Hm).
    destruct call as [|m b [| |e]|]; try done. apply N.eqb_eq in Hm as ->.
    rewrite Forall_forall in Hcalls. by destruct (Hcalls _ (proj2 (list_elem_of_In _ _) Hin)) as [Hl Hp].
  - eapply Forall_impl; [exact Hcalls|]. intros [|n b a|n k] [Hl Hn]; cbn in *; [done|subst n..]; by apply (td_own p Ht).
Qed.
Lemma one_fork children a : Forall (names_own_child children) [Fork a].
Proof. by rewrite Forall_singleton. Qed.
Lemma use_tidy u p : tidy p → possible u p = true →
  tidy (use u p) ∧ Forall (names_own_child (uncollected p)) (used u p).2.
Proof.
  intros Ht Hu. unfold use. destruct u as [i spec a|i a|i k a|i a|i|i j|i]; cbn [used possible] in *.
  - unfold spawn. destruct (bool_decide _); [by destruct p|].
    destruct a as [text|n]; [by destruct p; split; [|exact (one_fork _ _)]|].
    apply andb_true_iff in Hu as [Hn%negb_true_iff%N.eqb_neq Hfresh%bool_decide_eq_true].
    split; [by apply tidy_spawned|exact (one_fork _ _)].
  - pose proof (wait_step a (handles p i)) as Hs. destruct (wait _ _) as [[r c] calls]. by apply step_tidy.
  - pose proof (terminate_step k a (handles p i)) as Hs. destruct (terminate_now _ _ _) as [[r c] calls]. by apply step_tidy.
  - pose proof (running_step a (handles p i)) as Hs. destruct (running _ _) as [[r c] calls]. by apply step_tidy.
  - split; [|done]. apply tidy_less; [done|by intros []|by left].
  - destruct (decide (i = j)); [by destruct p|]. split; [|done]. by apply tidy_moved.
  - split; [|done]. apply tidy_less; [done|by intros [[] _]|by left].
Qed.
Lemma reached_tidy p : reached p → tidy p.
Proof. induction 1 as [|u p _ IH Hu]; [exact tidy_start|]. by apply use_tidy. Qed.

(** C36: whatever a program does with its handles, waiting, asking, terminating, moving
    and dropping them in any order, a signal or a wait only ever names a child of its
    own that it did not collect yet: the number cannot have passed to another process. *)
Theorem only_own_children_are_signalled p u (Hp : reached p) (Hu : possible u p = true) :
  Forall (names_own_child (uncollected p)) (used u p).2.
Proof. apply use_tidy; [by apply reached_tidy|done]. Qed.

(** ** Exit codes *)

(** The uses that put another child into a handle, or take its child away. *)
Definition replaces (i : N) (u : Use) : bool :=
  match u with
  | Spawning j _ _ | Ending_scope j => j =? i
  | Moving j k => (j =? i) || (k =? i)
  | _ => false
  end.
Definition runs (us : list Use) (p : Parent) : Parent := foldl (λ p u, use u p) p us.
Lemma set_same i c p : handles (set_handle i c p) i = c.
Proof. cbn. by rewrite decide_True. Qed.
Lemma set_other i j c p : i ≠ j → handles (set_handle j c p) i = handles p i.
Proof. intros H. cbn. by rewrite decide_False. Qed.
(** Once waited for, a handle makes no call and stays as it is. *)
Lemma wait_waited a c : waited c = true → wait a c = (Ok (exit_code c), c, []).
Proof. unfold wait. by intros ->. Qed.
Lemma running_waited a c : waited c = true → running a c = (false, c, []).
Proof. unfold running. intros ->. by rewrite orb_true_r. Qed.
Lemma terminate_waited k a c : waited c = true → (terminate_now k a c).1.2 = c.
Proof. unfold terminate_now. intros ->. by destruct (_ =? 0). Qed.
Lemma waited_stays u p i : waited (handles p i) = true → replaces i u = false →
  waited (handles (use u p) i) = true ∧ exit_code (handles (use u p) i) = exit_code (handles p i).
Proof.
  intros Hw Hr. unfold use. destruct u as [j spec a|j a|j k a|j a|j|j k|j]; cbn [used replaces] in *.
  - apply N.eqb_neq in Hr. destruct (spawn spec a) as [[c|] calls]; cbn [handles]; [|done]. by rewrite set_other by done.
  - destruct (wait a (handles p j)) as [[r c] calls] eqn:E. cbn [handles].
    destruct (decide (i = j)) as [<-|Hne]; [|by rewrite set_other].
    rewrite wait_waited in E by done. injection E as <- <- <-. by rewrite set_same.
  - pose proof (terminate_waited k a (handles p j)) as E. destruct (terminate_now _ _ _) as [[r c] calls]. cbn [handles].
    destruct (decide (i = j)) as [<-|Hne]; [|by rewrite set_other]. cbn in E. by rewrite set_same, E.
  - destruct (running a (handles p j)) as [[r c] calls] eqn:E. cbn [handles].
    destruct (decide (i = j)) as [<-|Hne]; [|by rewrite set_other].
    rewrite running_waited in E by done. injection E as <- <- <-. by rewrite set_same.
  - cbn [handles]. destruct (decide (i = j)) as [<-|Hne]; [|by rewrite set_other]. by rewrite set_same.
  - apply orb_false_iff in Hr as [Hj%N.eqb_neq Hk%N.eqb_neq]. destruct (decide (j = k)); [done|]. cbn [handles].
    by rewrite !set_other by done.
  - apply N.eqb_neq in Hr. cbn [handles]. by rewrite set_other by done.
Qed.
Lemma waited_runs us i : ∀ p, waited (handles p i) = true → forallb (λ u, negb (replaces i u)) us = true →
  waited (handles (runs us p) i) = true ∧ exit_code (handles (runs us p) i) = exit_code (handles p i).
Proof.
  induction us as [|u us IH]; intros p Hp Hus; [done|].
  cbn [forallb] in Hus. apply andb_true_iff in Hus as [Hu%negb_true_iff Hus].
  destruct (waited_stays u p i Hp Hu) as [H1 <-]. by apply IH.
Qed.
(** The exit code that a wait or a question collected is the one that every later
    wait on the handle gives, without asking the system again, whatever happened to
    other handles and to this one in between. *)
Theorem collected_code_stays us p i a e
    (Hfirst : live (handles p i)) (Hkept : forallb (λ u, negb (replaces i u)) us = true) :
  let later := handles (runs us (use (Waiting i (Collected e)) p)) i in
  let code := match e with Exited code => code | Signalled _ => (-1)%Z end in
  wait (Collected e) (handles p i) = (Ok code, collect e (handles p i), [Waitpid (pid (handles p i)) false (Collected e)]) ∧
  wait a later = (Ok code, later, []) ∧ running a later = (false, later, []).
Proof.
  cbv zeta. destruct Hfirst as [Hp%N.eqb_neq Hw].
  assert (wait (Collected e) (handles p i) =
    (Ok (exit_code (collect e (handles p i))), collect e (handles p i), [Waitpid (pid (handles p i)) false (Collected e)]))
    as Hwait by (unfold wait; by rewrite Hw, Hp).
  split; [exact Hwait|].
  assert (handles (use (Waiting i (Collected e)) p) i = collect e (handles p i)) as Hc.
  { unfold use. cbn [used]. rewrite Hwait. cbn [handles]. apply set_same. }
  destruct (waited_runs us i (use (Waiting i (Collected e)) p)) as [Hwl Hcl]; [by rewrite Hc|done|].
  rewrite wait_waited, running_waited, Hcl, Hc by done. done.
Qed.
(** A child that ended by itself before it is terminated loses its exit code: the
    handle says one, whatever the child returned, because the answer of the last
    wait is not looked at. *)
Theorem termination_makes_up_the_code c e a (Hlive : live c) :
  let c' := (terminate_now SignalSent (Collected (Exited e)) c).1.2 in
  (terminate_now SignalSent (Collected (Exited e)) c).1.1 = Ok tt ∧ (wait a c').1.1 = Ok 1%Z.
Proof.
  destruct Hlive as [Hp%N.eqb_neq Hw]. unfold terminate_now. rewrite Hp, Hw. done.
Qed.

(** ** The child *)

(** The child never comes back into the program of its parent: whatever fails, its
    last call is the exit; and it becomes the other program exactly when it has the
    directory it was told, with the executable as its first argument. *)
Theorem child_never_returns chdir_ok opens spec :
  last (child_body chdir_ok opens spec) = Some (Exit 127) ∧
  (Execv (executable spec) (executable spec :: spec_arguments spec) ∈ child_body chdir_ok opens spec ↔
   working_directory spec = "" ∨ chdir_ok = true).
Proof.
  unfold child_body.
  set (start := redirect _ _ _ ++ redirect _ _ _ ++ _).
  assert (last start = Some (Exit 127)) as Hlast by (subst start; by rewrite app_assoc, last_app).
  assert (Execv (executable spec) (executable spec :: spec_arguments spec) ∈ start) as Hin.
  { subst start. rewrite !elem_of_app. right. right. left. }
  destruct (bool_decide _) eqn:Hd.
  - apply bool_decide_eq_true in Hd. split; [exact Hlast|]. split; [by left|done].
  - apply bool_decide_eq_false in Hd. destruct chdir_ok.
    + split; [by rewrite last_cons, Hlast|]. split; [by right|]. intros _. by right.
    + split; [done|]. split; [|by intros [?|[=]]]. rewrite !elem_of_cons, elem_of_nil. by intros [[=]|[[=]|[]]].
Qed.
Definition two_children : list Use :=
  [Spawning 0 (mkProcessSpec "member" [] "" "" "") (Forked 7); Waiting 0 (Collected (Exited 3));
   Spawning 1 (mkProcessSpec "member" [] "" "" "") (Forked 7)].
(** The number of the first child is given to the second one; ending the first handle
    leaves the second child alone. *)
Example reused_number_is_left_alone :
  (used (Terminating 0 SignalSent (Collected (Exited 0))) (runs two_children no_children)).2 = [] ∧
  (used (Terminating 1 SignalSent (Collected (Exited 0))) (runs two_children no_children)).2 =
    [Kill 7 SignalSent; Waitpid 7 false (Collected (Exited 0))].
Proof. done. Qed.
Lemma only_own_children_are_signalled_witness :
  Forall (names_own_child (uncollected (runs two_children no_children)))
    (used (Terminating 1 SignalSent (Collected (Exited 0))) (runs two_children no_children)).2.
Proof.
  apply (only_own_children_are_signalled (runs two_children no_children)
           (Terminating 1 SignalSent (Collected (Exited 0)))); [|reflexivity].
  unfold runs, two_children. cbn [foldl]. apply reached_use; [apply reached_use; [apply reached_use; [exact reached_start|]|]|].
  - by vm_compute.
  - by vm_compute.
  - by vm_compute.
Defined.
Lemma collected_code_stays_witness :
  let p := use (Spawning 0 (mkProcessSpec "member" [] "" "" "") (Forked 7)) no_children in
  let later := handles (runs [Closing 0; Terminating 0 SignalSent StillRunning; Moving 1 2]
                             (use (Waiting 0 (Collected (Exited 3))) p)) 0 in
  (wait (WaitFailed "") later).1.1 = Ok 3%Z.
Proof.
  cbv zeta.
  destruct (collected_code_stays [Closing 0; Terminating 0 SignalSent StillRunning; Moving 1 2]
    (use (Spawning 0 (mkProcessSpec "member" [] "" "" "") (Forked 7)) no_children) 0 (WaitFailed "") (Exited 3)
    ltac:(by split) eq_refl) as (_ & H & _).
  by rewrite H.
Defined.
