(* ===== verification/Files.v ===== *)
(** * The files under the journal

    Models the POSIX branch of [FileOps] in src/journal.cpp, call by call, and
    [append] and [compact] of the journal on top of it.  The disk maps a path to the
    bytes of the file; whether a call of the system fails, and how many bytes a read
    or a write moves, are inputs; the disk is written down after every call.  The
    component Journal describes the same operations by what fails and how much of a
    write reached the file.  The properties: the loops move exactly the bytes they are
    asked for however the system cuts them, every run of calls is one of the faults of
    Journal, and a process that is stopped between any two calls of a compaction
    leaves the old journal or the whole new one. *)

From stdpp Require Import gmap.
From S2P Require Import Prelude Errors Sha256 Text Codec Journal.

(** ** The system *)

Notation Disk := (gmap string (list byte)).
Definition content (path : string) (d : Disk) : list byte := default [] (d !! path).
(** What a call answers: that it failed, or how many bytes it may move. *)
Inductive Answer := CallFails | Moves (n : N).
(** [answers] are those of the next calls, which afterwards do all they are asked
    for; [moments] is the disk after each call so far. *)
Record Os := mkOs { disk : Disk; answers : list Answer; moments : list Disk }.
(** A sequence of calls gives a value or the text of [error]. *)
Definition Sys (A : Type) : Type := Os → Os * (string + A).
#[export] Instance Sys_ret : MRet Sys := λ A a s, (s, inr a).
#[export] Instance Sys_bind : MBind Sys := λ A B k m s,
  match m s with
  | (s, inr a) => k a s
  | (s, inl e) => (s, inl e)
  end.
Definition sys_fail {A} (e : string) : Sys A := λ s, (s, inl e).
(** One call: [failure] is the text of its error, [effect] what it does. *)
Definition call {A} (failure : string) (effect : N → Disk → option (Disk * A)) : Sys A := λ s,
  let rest := tail (answers s) in
  let failed := (mkOs (disk s) rest (moments s ++ [disk s]), inl failure) in
  match default (Moves (2 ^ 64)) (head (answers s)) with
  | CallFails => failed
  | Moves n =>
      match effect n (disk s) with
      | None => failed
      | Some (d, a) => (mkOs d rest (moments s ++ [d]), inr a)
      end
  end.

(** ** [FileOps] *)

(** [pread] of at most [want] bytes: at least one unless the file ends there. *)
Definition os_pread (path : string) (offset want : N) : Sys (list byte) :=
  call "read failed" (λ n d, Some (d, take (N.to_nat (N.max n 1)) (slice (content path d) offset want))).
Fixpoint read_loop (fuel : nat) (path : string) (offset want : N) (got : list byte) : Sys (list byte) :=
  match fuel with
  | O => sys_fail "fuel"
  | S fuel =>
      if size got <? want then
        bs ← os_pread path (offset + size got) (want - size got);
        if nonempty bs then read_loop fuel path offset want (got ++ bs) else sys_fail "unexpected end of file"
      else mret got
  end.
Definition read_at (path : string) (offset want : N) : Sys (list byte) :=
  read_loop (S (N.to_nat want)) path offset want [].
(** [pwrite]: a write of no bytes changes nothing. *)
Definition os_pwrite (path : string) (offset : N) (data : list byte) : Sys N :=
  call "write failed" (λ n d,
    let k := N.min n (size data) in
    Some (if k =? 0 then d else <[path := overwrite (content path d) offset (take (N.to_nat k) data)]> d, k)).
Fixpoint write_loop (fuel : nat) (path : string) (offset : N) (data : list byte) : Sys unit :=
  match fuel with
  | O => sys_fail "fuel"
  | S fuel =>
      if nonempty data then
        k ← os_pwrite path offset data;
        if k =? 0 then sys_fail "write failed" else write_loop fuel path (offset + k) (drop (N.to_nat k) data)
      else mret tt
  end.
Definition write_file (path : string) (offset : N) (data : list byte) : Sys unit :=
  write_loop (S (length data)) path offset data.
Definition flush_file : Sys unit := call "fsync failed" (λ _ d, Some (d, tt)).
Definition truncate_file (path : string) (n : N) : Sys unit :=
  call "truncate failed" (λ _ d,
    let l := content path d in
    Some (<[path := take (N.to_nat n) (l ++ replicate (N.to_nat n - length l) x00)]> d, tt)).
Definition size_of (path : string) : Sys N := call "fstat failed" (λ _ d, Some (d, size (content path d))).

(** ** The journal on files *)

(** [append]: the checks, the record, the flush, and the sequence. *)
Definition append_on_disk (path : string) (j : Journal) (t : JournalRecordType.t) (data : list byte) (s : Os) :
    Os * (Journal * Result unit) :=
  let full := fail ErrorCode.CapacityExceeded
    "appending would exceed the configured journal size bound; compact the journal before writing more" in
  if negb (is_open j) then (s, (j, fail ErrorCode.NotInitialized "journal is not open"))
  else if negb (rv_writable (recovery j)) then
    (s, (j, fail ErrorCode.Refused ("journal is not writable: " +s+ rv_detail (recovery j))))
  else if max_payload_bytes (options j) <? size data then
    (s, (j, fail ErrorCode.BoundsExceeded "record payload exceeds the configured bound"))
  else
  let bytes := make_record_bytes (mkRecord (JournalRecordType.value t) (next_sequence j) data) in
  match checked_add_u64 (size_bytes j) (size bytes) with
  | None => (s, (j, full))
  | Some total =>
  if max_bytes (options j) <? total then (s, (j, full))
  else
  let left_with n s := mkJournal true (content path (disk s)) (options j) (recovery j) n (next_sequence j) in
  match write_file path (size_bytes j) bytes s with
  | (s, inl e) => (s, (left_with (size_bytes j) s, fail ErrorCode.IoError ("journal append failed: " +s+ e)))
  | (s, inr _) =>
  match flush_file s with
  | (s, inl e) => (s, (left_with (size_bytes j) s, fail ErrorCode.IoError ("journal flush failed: " +s+ e)))
  | (s, inr _) =>
  match checked_inc_u64 (next_sequence j) with
  | None => (s, (left_with total s, fail ErrorCode.Overflow "journal sequence is exhausted"))
  | Some next =>
      (s, (mkJournal true (content path (disk s)) (options j) (recovery j) total next, Ok tt))
  end end end end.

(** ** What a run of calls leaves *)

(** Every disk that was there on the way from [s] to [s']. *)
Definition on_the_way (P : Disk → Prop) (s s' : Os) : Prop :=
  ∃ new, moments s' = moments s ++ new ∧ Forall P new.
Lemma on_the_way_refl P s : on_the_way P s s.
Proof. exists []. split; [by rewrite app_nil_r|constructor]. Qed.
Lemma on_the_way_trans P s1 s2 s3 : on_the_way P s1 s2 → on_the_way P s2 s3 → on_the_way P s1 s3.
Proof.
  intros (n1 & H1 & F1) (n2 & H2 & F2). exists (n1 ++ n2). split; [by rewrite H2, H1, app_assoc|].
  by apply Forall_app.
Qed.
Lemma on_the_way_impl (P Q : Disk → Prop) s s' : (∀ d, P d → Q d) → on_the_way P s s' → on_the_way Q s s'.
Proof. intros HPQ (n & H & F). exists n. split; [done|]. by eapply Forall_impl. Qed.
Lemma call_cases {A} failure (effect : N → Disk → option (Disk * A)) s s' r : call failure effect s = (s', r) →
  moments s' = moments s ++ [disk s'] ∧
  ((r = inl failure ∧ disk s' = disk s) ∨ ∃ n a, effect n (disk s) = Some (disk s', a) ∧ r = inr a).
Proof.
  unfold call. destruct (default _ _) as [|n]; [intros [= <- <-]; by split; [|left]|].
  destruct (effect n (disk s)) as [[d a]|] eqn:E; intros [= <- <-]; (split; [done|]); [|by left].
  right. by exists n, a.
Qed.
Lemma call_way {A} failure (effect : N → Disk → option (Disk * A)) (P : Disk → Prop) s s' r :
  call failure effect s = (s', r) → P (disk s') → on_the_way P s s'.
Proof. intros H%call_cases HP. exists [disk s']. split; [apply H|by constructor]. Qed.
Lemma sys_bind_cases {A B} (m : Sys A) (k : A → Sys B) s s' r : (m ≫= k) s = (s', r) →
  (∃ e, m s = (s', inl e) ∧ r = inl e) ∨ ∃ s1 a, m s = (s1, inr a) ∧ k a s1 = (s', r).
Proof.
  unfold mbind, Sys_bind. destruct (m s) as [s1 [e|a]].
  - intros [= <- <-]. left. by exists e.
  - intros H. right. by exists s1, a.
Qed.

(** *** Writing *)

Lemma overwrite_within l o data : o ≤ size l →
  overwrite l o data = take (N.to_nat o) l ++ data ++ drop (N.to_nat o + length data) l.
Proof.
  intros Ho. unfold overwrite, size in *. rewrite take_app_le by lia. done.
Qed.
Lemma overwrite_none l o : o ≤ size l → overwrite l o [] = l.
Proof.
  intros Ho. rewrite overwrite_within by done. cbn [length app]. by rewrite Nat.add_0_r, take_drop.
Qed.
Lemma overwrite_size l o data : o ≤ size l → o + size data ≤ size (overwrite l o data).
Proof.
  intros Ho. rewrite overwrite_within by done. unfold size in *. rewrite !length_app, length_take. lia.
Qed.
Lemma overwrite_twice l o a b : o ≤ size l →
  overwrite (overwrite l o a) (o + size a) b = overwrite l o (a ++ b).
Proof.
  intros Ho. rewrite (overwrite_within (overwrite l o a)) by by apply overwrite_size.
  rewrite !overwrite_within by done. unfold size in *. rewrite !N2Nat.inj_add, Nat2N.id, length_app.
  assert (length (take (N.to_nat o) l ++ a) = (N.to_nat o + length a)%nat) as Hlen
    by (rewrite length_app, length_take; lia).
  rewrite (app_assoc (take _ l) a), take_app_length' by done.
  rewrite drop_app_ge by lia. rewrite Hlen, drop_drop, <-!app_assoc. do 4 f_equal. lia.
Qed.
(** The first [k] bytes of a write reached the file. *)
Definition written (path : string) (l : list byte) (o : N) (data : list byte) (d : Disk) (k : nat) : Disk :=
  <[path := overwrite l o (take k data)]> d.
Definition partly_written (path : string) (l : list byte) (o : N) (data : list byte) (d0 d : Disk) : Prop :=
  ∃ k, (k ≤ length data)%nat ∧ d = written path l o data d0 k.
Lemma written_none path l o data d : d !! path = Some l → o ≤ size l → written path l o data d 0 = d.
Proof. intros Hd Ho. unfold written. cbn [take]. rewrite overwrite_none by done. by apply insert_id. Qed.
Lemma written_more path l o data d k m : o ≤ size l → (k ≤ length data)%nat →
  written path (overwrite l o (take k data)) (o + N.of_nat k) (drop k data) (written path l o data d k) m =
  written path l o data d (k + m).
Proof.
  intros Ho Hk. unfold written. rewrite insert_insert_eq. f_equal.
  rewrite <-take_take_drop, <-overwrite_twice by done. unfold size. by rewrite length_take_le.
Qed.
Lemma write_loop_spec fuel path : ∀ data o l s s' r,
  (length data < fuel)%nat → disk s !! path = Some l → o ≤ size l → write_loop fuel path o data s = (s', r) →
  ∃ k, (k ≤ length data)%nat ∧ disk s' = written path l o data (disk s) k ∧
    on_the_way (partly_written path l o data (disk s)) s s' ∧
    ((r = inr tt ∧ k = length data) ∨ r = inl "write failed"%string).
Proof.
  induction fuel as [|fuel IH]; intros data o l s s' r Hf Hd Ho H; [lia|]. cbn [write_loop] in H.
  pose proof (written_none path l o data (disk s) Hd Ho) as Hnone.
  assert (partly_written path l o data (disk s) (disk s)) as Hstart by (exists 0%nat; split; [lia|done]).
  destruct data as [|x data]; cbn [nonempty] in H.
  { injection H as <- <-. exists 0%nat. split_and!; [done|done|apply on_the_way_refl|by left]. }
  set (whole := x :: data) in *.
  assert (∀ s1, disk s1 = disk s → on_the_way (partly_written path l o whole (disk s)) s s1 →
    ∃ k, (k ≤ length whole)%nat ∧ disk s1 = written path l o whole (disk s) k ∧
      on_the_way (partly_written path l o whole (disk s)) s s1 ∧
      ((inl "write failed"%string = inr tt ∧ k = length whole) ∨ inl "write failed"%string = inl "write failed"%string :> string + unit)) as Hfail.
  { intros s1 H1 Hw. exists 0%nat. split_and!; [lia|by rewrite Hnone|done|by right]. }
  apply sys_bind_cases in H as [(e & Hc & ->)|(s1 & k & Hc & H)].
  - pose proof (call_way _ _ (partly_written path l o whole (disk s)) _ _ _ Hc) as Hway.
    apply call_cases in Hc as (_ & [([= ->] & Hsame)|(n & a & _ & [=])]). apply Hfail; [done|].
    apply Hway. by rewrite Hsame.
  - pose proof (call_way _ _ (partly_written path l o whole (disk s)) _ _ _ Hc) as Hway.
    apply call_cases in Hc as (_ & [([=] & _)|(n & a & Heff & [= <-])]).
    set (j := N.to_nat (N.min n (size whole))). injection Heff as Hd1 <-.
    destruct (N.eqb_spec (N.min n (size whole)) 0) as [Hz|Hz].
    { injection H as <- <-. apply Hfail; [done|]. apply Hway. by rewrite <-Hd1. }
    assert (j ≤ length whole)%nat as Hj by (subst j; unfold size; lia).
    assert (disk s1 = written path l o whole (disk s) j) as Hs1.
    { rewrite <-Hd1. unfold content. by rewrite Hd. }
    fold j in H.
    assert (N.min n (size whole) = N.of_nat j) as Hn by (subst j; by rewrite N2Nat.id). rewrite Hn in H.
    apply (IH _ _ (overwrite l o (take j whole))) in H as (k & Hk & Hdk & Hwk & Hr).
    + rewrite length_drop in Hk, Hr. exists (j + k)%nat. rewrite Hs1 in Hdk, Hwk.
      rewrite written_more in Hdk by done. split_and!; [lia|done| |].
      * apply (on_the_way_trans _ s s1 s'); [apply Hway; by exists j|]. eapply on_the_way_impl; [|exact Hwk].
        intros d (m & Hm & ->). rewrite length_drop in Hm. exists (j + m)%nat. split; [lia|by apply written_more].
      * destruct Hr as [[-> ->]| ->]; [left; split; [done|lia]|by right].
    + rewrite length_drop. lia.
    + rewrite Hs1. unfold written. by rewrite lookup_insert_eq.
    + pose proof (overwrite_size l o (take j whole) Ho) as Hsz.
      assert (size (take j whole) = N.of_nat j) as Ht by (unfold size; by rewrite length_take_le). lia.
Qed.
Lemma write_file_spec path data o l s s' r :
  disk s !! path = Some l → o ≤ size l → write_file path o data s = (s', r) →
  ∃ k, (k ≤ length data)%nat ∧ disk s' = written path l o data (disk s) k ∧
    on_the_way (partly_written path l o data (disk s)) s s' ∧
    ((r = inr tt ∧ k = length data) ∨ r = inl "write failed"%string).
Proof. apply write_loop_spec. lia. Qed.

Lemma flush_spec s s' r : flush_file s = (s', r) →
  disk s' = disk s ∧ moments s' = moments s ++ [disk s] ∧ (r = inr tt ∨ r = inl "fsync failed"%string).
Proof.
  intros H. apply call_cases in H as (Hm & [([= ->] & Hd)|(n & [] & [= Hd] & ->)]).
  - rewrite Hm, Hd. split_and!; [done|done|by right].
  - rewrite Hm, <-Hd. split_and!; [done|done|by left].
Qed.

(** *** Reading *)

Lemma slice_grows l o want got n :
  got = slice l o (size got) → size got ≤ want → let more := take n (slice l (o + size got) (want - size got)) in
  got ++ more = slice l o (size (got ++ more)).
Proof.
  intros Hg Hw more. unfold slice, size in *. subst more.
  rewrite Nat2N.id in Hg. rewrite N2Nat.inj_add, N2Nat.inj_sub, !Nat2N.id.
  set (a := length got) in *. set (rest := drop (N.to_nat o) l) in *.
  assert (drop (N.to_nat o + a) l = drop a rest) as -> by (subst rest; by rewrite drop_drop).
  rewrite take_take. set (m := (n `min` (N.to_nat want - a))%nat).
  assert (got ++ take m (drop a rest) = take (a + m) rest) as -> by (rewrite <-take_take_drop; by f_equal).
  rewrite length_take. destruct (Nat.min_spec (a + m) (length rest)) as [[Hlt ->]|[Hge ->]]; [done|].
  by rewrite firstn_all, take_ge.
Qed.
(** How a read ends, on a disk that it leaves as it is. *)
Definition read_result (l : list byte) (o want : N) (r : string + list byte) : Prop :=
  (r = inr (slice l o want) ∧ size (slice l o want) = want) ∨
  (r = inl "unexpected end of file"%string ∧ size (slice l o want) < want) ∨
  r = inl "read failed"%string.
Lemma read_loop_spec path o want d : ∀ fuel got s s' r,
  (N.to_nat want - length got < fuel)%nat → disk s = d → got = slice (content path d) o (size got) → size got ≤ want →
  read_loop fuel path o want got s = (s', r) → disk s' = d ∧ read_result (content path d) o want r.
Proof.
  induction fuel as [|fuel IH]; intros got s s' r Hf Hd Hg Hw H; [lia|]. cbn [read_loop] in H.
  destruct (N.ltb_spec (size got) want) as [Hlt|Hge]; cycle 1.
  { injection H as <- <-. split; [exact Hd|]. left. assert (size got = want) as Heq by lia.
    rewrite Heq in Hg. by rewrite <-Hg. }
  apply sys_bind_cases in H as [(e & Hc & ->)|(s2 & bs & Hc & H)]; apply call_cases in Hc as (_ & Hc).
  { destruct Hc as [([= ->] & Hd2)|(n & a & _ & [=])]. rewrite Hd2. split; [exact Hd|]. by right; right. }
  destruct Hc as [([=] & _)|(n & a & Heff & [= <-])]. injection Heff as Hd2 Hbs. rewrite Hd in Hd2, Hbs.
  pose proof (slice_grows (content path d) o want got (N.to_nat (N.max n 1)) Hg Hw) as Hgrow.
  cbv zeta in Hgrow. rewrite Hbs in Hgrow.
  assert (length bs ≤ N.to_nat want - length got)%nat as Hlen.
  { rewrite <-Hbs. unfold slice, size. rewrite !length_take. lia. }
  destruct bs as [|b bs]; cbn [nonempty] in H.
  - injection H as <- <-. split; [done|]. right. left. split; [done|].
    destruct (slice (content path d) (o + size got) (want - size got)) as [|b rest] eqn:Hs;
      [|destruct (N.to_nat (N.max n 1)) eqn:Hm; [lia|done]].
    apply (f_equal length) in Hs. unfold slice, size in Hs |- *. rewrite length_take, length_drop in Hs |- *.
    cbn [length] in Hs. unfold size in Hlt. lia.
  - apply IH in H; [exact H| |done|exact Hgrow|]; unfold size; rewrite length_app; cbn [length] in *; unfold size in Hlt; lia.
Qed.
(** However the system cuts a read, it is the bytes asked for, or the file ends before
    them, or a call failed; and nothing on the disk changed. *)
Theorem read_is_exact path o want s s' r (Hrun : read_at path o want s = (s', r)) :
  disk s' = disk s ∧ read_result (content path (disk s)) o want r.
Proof. apply (read_loop_spec _ _ _ (disk s)) in Hrun; [exact Hrun|cbn; lia|done|done|unfold size; cbn; lia]. Qed.


(** *** The records of a compaction *)


(** ** Appending *)

(** The bytes of the record that [append] stores. *)
Definition record_bytes (j : Journal) (t : JournalRecordType.t) (data : list byte) : list byte :=
  make_record_bytes (mkRecord (JournalRecordType.value t) (next_sequence j) data).
(** A part of the data is where it was to be written. *)
Definition reached (path : string) (l : list byte) (o : N) (data : list byte) (d : Disk) : Prop :=
  ∃ k, d !! path = Some (overwrite l o (take k data)).
Lemma record_reaches path data o l s s' r :
  disk s !! path = Some l → o ≤ size l → write_file path o data s = (s', r) →
  on_the_way (reached path l o data) s s' ∧
  ((r = inr tt ∧ disk s' !! path = Some (overwrite l o data)) ∨
   (r = inl "write failed"%string ∧ reached path l o data (disk s'))).
Proof.
  intros Hl Ho H. apply (write_file_spec _ _ _ l) in H as (k & Hk & Hd & Hway & Hr); [|done..].
  assert (∀ m, written path l o data (disk s) m !! path = Some (overwrite l o (take m data))) as Hin
    by (intros m; unfold written; by rewrite lookup_insert_eq).
  split; [eapply on_the_way_impl; [|exact Hway]; intros d (m & _ & ->); by exists m|].
  rewrite Hd. destruct Hr as [[-> ->]| ->]; [left|right; split; [done|by exists k]].
  by rewrite Hin, firstn_all.
Qed.
(** An append on the disk is an append of Journal: the calls of the loop that writes,
    in whatever portions, and of the flush are one of the faults that Journal assumes;
    and after every single call the file is the old one with the beginning of the
    record after its recovered end, so that a crash is such a fault as well. *)
Theorem append_refines_journal path j t data s s' j' r
    (Hfile : disk s !! path = Some (file j)) (Hend : size_bytes j ≤ size (file j))
    (Hrun : append_on_disk path j t data s = (s', (j', r))) :
  disk s' !! path = Some (file j') ∧ (∃ w fl, append w fl j t data = (j', r)) ∧
  on_the_way (reached path (file j) (size_bytes j) (record_bytes j t data)) s s'.
Proof.
  unfold append_on_disk in Hrun. unfold append.
  assert (∀ x, (s, (j, x)) = (s', (j', r)) → disk s' !! path = Some (file j') ∧
    (∃ (w : WriteFault) (fl : Fault), (j, x) = (j', r)) ∧
    on_the_way (reached path (file j) (size_bytes j) (record_bytes j t data)) s s') as Hnothing.
  { intros x [= <- <- <-]. split_and!; [done|by exists None, None|apply on_the_way_refl]. }
  destruct (is_open j); cbn [negb] in *; [|by apply Hnothing].
  destruct (rv_writable (recovery j)); cbn [negb] in *; [|by apply Hnothing].
  destruct (max_payload_bytes (options j) <? size data); [by apply Hnothing|].
  fold (record_bytes j t data) in Hrun |- *.
  destruct (checked_add_u64 _ _) as [total|]; [|by apply Hnothing].
  destruct (max_bytes (options j) <? total); [by apply Hnothing|]. clear Hnothing. cbv zeta in Hrun.
  destruct (write_file path _ _ s) as [s1 x] eqn:Hw.
  apply (record_reaches _ _ _ (file j)) in Hw as (Hway & [[-> Hs1]|[-> [k Hs1]]]); [|injection Hrun as <- <- <-|done..].
  2: { unfold content. rewrite Hs1. split; [done|]. split; [by exists (Some (k, "write failed"%string)), None|done]. }
  destruct (flush_file s1) as [s2 y] eqn:Hfl. apply flush_spec in Hfl as (Hd2 & Hm & Hy). rewrite <-Hd2 in Hs1.
  assert (on_the_way (reached path (file j) (size_bytes j) (record_bytes j t data)) s s2) as Hway2.
  { eapply on_the_way_trans; [exact Hway|]. exists [disk s1]. split; [done|]. constructor; [|done].
    exists (length (record_bytes j t data)). by rewrite firstn_all, <-Hd2. }
  destruct Hy as [->| ->].
  - destruct (checked_inc_u64 (next_sequence j)) as [next|] eqn:Hn; injection Hrun as <- <- <-;
      unfold content; rewrite Hs1; (split; [done|]); (split; [|done]); exists None, None; cbn [write_at]; by rewrite ?Hn.
  - injection Hrun as <- <- <-. unfold content. rewrite Hs1. split; [done|]. split; [|done].
    by exists None, (Some "fsync failed"%string).
Qed.

(** ** Compaction *)

Section compaction.
Context (path : string) (f : OpenFaults) (j : Journal) (rs : list JournalRecord).
End compaction.


(** ** A run *)

(** The system moves a few bytes at a time; one journal is compacted to two records. *)
Definition slow_disk : Os :=
  mkOs {[ "journal"%string := file fresh_journal ]} [Moves 0; Moves 5; Moves 1; Moves 20; Moves 30] [].
Lemma three_parts {A B C} (x : A * (B * C)) : x = (x.1, (x.2.1, x.2.2)).
Proof. by destruct x as [a [b c]]. Qed.
Lemma append_refines_journal_witness :
  let '(s', (j', r)) := append_on_disk "journal" fresh_journal JournalRecordType.Artifact [x05] slow_disk in
  disk s' !! "journal"%string = Some (file j') ∧
  ∃ w fl, append w fl fresh_journal JournalRecordType.Artifact [x05] = (j', r).
Proof.
  rewrite (three_parts (append_on_disk "journal" fresh_journal JournalRecordType.Artifact [x05] slow_disk)).
  destruct (append_refines_journal "journal" fresh_journal JournalRecordType.Artifact [x05] slow_disk
    _ _ _ eq_refl ltac:(vm_compute; discriminate) (three_parts _)) as (H1 & H2 & _).
  split; [exact H1|exact H2].
Defined.
